(* ===== verification/_CoqProject ===== *)
-Q . S2P
Prelude.v
RustStr.v
Utf8.v
MiniJson.v
MiniJsonFacts.v
ConfigTypes.v
ConfigLexer.v
ConfigBuild.v
ConfigFacts.v
ConfigLexerFacts.v
SshOptions.v
SshClient.v
Effects.v
Poll.v
VirtUri.v
Shell.v
VirtParse.v
VirtConn.v
Cp.v
UpdatePlan.v
UpdateNode.v
UpdateGates.v
UpdateFlow.v
UpdateLock.v
UpdateGuard.v
UpdateGuardFacts.v
UpdateExclusion.v
UpdateRun.v
UpdateFixtures.v
UpdatePlanFacts.v
UpdateGatesFacts.v
UpdateNodeFacts.v
UpdateFlowFacts.v
UpdateRunFacts.v
UpdateRollingFacts.v
Cache.v
VirtCalls.v
Destroy.v
DestroyFacts.v
CleanVms.v
CleanVmsFacts.v
Transcript.v
ConnSteps.v
Host.v
DeploySha.v
DeployPlan.v
DeployNet.v
DeployNetFacts.v
DeployText.v
Deploy.v
DeployTextFacts.v
DeployFixtures.v
DeployFacts.v
DeployReady.v
Spawn.v
SpawnFacts.v
Switch.v
SwitchFacts.v
Preflight.v
PreflightFacts.v
CpCalls.v
KubeBench.v
KubeBenchFacts.v
Verify.v
VerifyFacts.v
EtcdText.v
EtcdCalendar.v
EtcdTextFacts.v
EtcdKeysFacts.v
Etcd.v
EtcdFacts.v
Export.v
ExportFacts.v
ExportRunFacts.v
Lifecycle.v
Main.v
MainFacts.v
