(* ===== verification/Prelude.v ===== *)
(** * hummingbird-k8s: the operator command line [hbird]

    A model of the Rust workspace under [src/rust/crates] and theorems about
    it.  [hbird] reads a cluster config, talks to libvirt on a KVM host and to
    [kubectl] on the control plane over [ssh], and updates a deployed cluster
    node by node.

    ** The parts of the program and the files that model them

    - [hbird-config] (parser.rs, lib.rs, error.rs): the config file, a subset of
      shell assignments.  ConfigTypes.v: values, errors, [ClusterConfig].
      ConfigLexer.v: the line parser ([tokenize] and its helpers).  ConfigBuild.v:
      the fields ([build_config] and the [take_] helpers), [parse], [parse_str].
      Proofs: ConfigFacts.v, ConfigLexerFacts.v.
    - [hbird-ssh] (options.rs, lib.rs, error.rs): SshOptions.v models the builder
      and [to_argv], and proves it against a reader of [ssh]'s command line;
      SshClient.v models [run], [run_with_stdin] and the watchdog, over a child
      process that is a parameter.
    - [hbird-virt] (uri.rs, lib.rs, local.rs, ssh.rs, poll.rs) and
      hbird-cli/src/virt_bridge.rs: VirtUri.v ([QemuSshUri]), VirtParse.v
      ([shell_quote], [reject_destructive_path], the parsers of [virsh]'s
      output), VirtConn.v ([Connection]'s verbs, the two transports, [retry]).
    - hbird-cli/src/cp_resolve.rs, cp_kubectl.rs, commands/kubectl.rs and
      commands/nodes.rs: Cp.v.
    - hbird-cli/src/commands/update_cluster.rs: UpdatePlan.v ([Timeouts],
      [Plan]), UpdateNode.v (logging, [cp_kubectl], timers, [bootc]),
      UpdateGates.v (the waits), UpdateFlow.v ([InFlight], [update_cp],
      [update_worker]), UpdateLock.v ([lock_dir], [acquire_lock] and its
      messages), UpdateGuard.v (the processes behind the lock: the two threads
      of [hbird], [flock], its shell, the probe, other runs), UpdateRun.v
      (batches, summary, [run]).  Proofs: UpdatePlanFacts.v, UpdateGatesFacts.v,
      UpdateNodeFacts.v, UpdateFlowFacts.v, UpdateRunFacts.v, UpdateRollingFacts.v
      (the run as a whole), UpdateGuardFacts.v, UpdateExclusion.v (several runs);
      UpdateFixtures.v computes the recorded dry runs of the test suite.
    - hbird-cli/src/commands/destroy_cluster.rs: Destroy.v, DestroyFacts.v; and
      clean_vms.rs: CleanVms.v, CleanVmsFacts.v.  VirtCalls.v has the calls of a
      connection in the history, for every client of [build_connection].
    - hbird-cli/src/cache.rs: Cache.v.
    - hbird-cli/src/commands/spawn_workers.rs: Spawn.v, SpawnFacts.v.
    - hbird-cli/src/commands/switch_to_ghcr.rs: MiniJson.v (its JSON reader),
      Switch.v (the images, the switch of one VM, [run]); proofs in
      MiniJsonFacts.v and SwitchFacts.v.
    - hbird-cli/src/commands/export_argocd.rs and get_kubeconfig.rs: Export.v;
      proofs in ExportFacts.v (the rewriting, the calendar) and ExportRunFacts.v
      (the calls, and the file at every moment).
    - hbird-cli/src/commands/preflight.rs: Preflight.v, PreflightFacts.v;
      kube_bench.rs: KubeBench.v, KubeBenchFacts.v; verify.rs: Verify.v,
      VerifyFacts.v.  CpCalls.v has the rules both of the latter use for calls to
      the control plane.
    - hbird-cli/src/main.rs: Main.v ([Command], dispatch, exit status),
      MainFacts.v.
    - hbird-cli/src/commands/etcd.rs: EtcdText.v (calendar, labels, base64, the
      edits of the encryption config), Etcd.v (backup, restore, rotate-key).
      Proofs: EtcdCalendar.v (the date formula against the calendar),
      EtcdTextFacts.v, EtcdKeysFacts.v, EtcdFacts.v (the transcripts).
    - hbird-cli/src/commands/deploy_cluster.rs: DeployPlan.v (arguments, plan,
      repository search), DeploySha.v ([sha256_hex] and the standard),
      DeployNet.v (MACs, ranges, the second interface), DeployText.v (commands,
      cloud-init, the image builder's configuration), Deploy.v (the steps and
      [run]).  Proofs: DeployNetFacts.v, DeployTextFacts.v, DeployFacts.v (the
      run against its script), DeployReady.v (success, and that readiness is
      noticed); DeployFixtures.v is a host for the witnesses.  Host.v: what the
      commands look up on the operator's machine.  Lifecycle.v: a deployment
      followed by the teardown of the same cluster.

    Shared: Prelude.v (this file: [result], tactics, lists), RustStr.v (Rust's
    string functions on UTF-8 bytes and the rendering of numbers), Utf8.v
    (decoding and encoding of scalar values), Effects.v
    (computations that act on the world), Poll.v (rules for loops and for the
    order of events), Transcript.v (a flow's calls against a script of steps;
    [acts], [does] and [polled] for what is done to the outside), ConnSteps.v
    (the steps a connection makes),
    Shell.v (how a POSIX shell splits a line into words; the
    specification that quoting is proved against).

    ** How state and effects are represented

    Strings are byte strings; a [char] is one UTF-8 sequence.  A [HashMap] is a
    [gmap]; where its iteration order could matter the order is a parameter.
    Integers are [N] or [Z] with the checks and the saturation of the code
    written out ([U32_MAX], [saturating_add]).  [Result] is [result] with bind
    for the question mark; [anyhow::Error] is the record [anyhow] (contexts and
    root cause).

    A computation that acts on the world ([M], [IO] in Effects.v) takes the
    history of all events so far and gives its result and the events it adds.
    The answers of [ssh], of local programs, of files and of output streams are
    functions of the whole history ([World]), so every theorem holds for hosts
    that answer arbitrarily.  The class [SshExec] is the seam the code has for
    its tests; [client_exec] is its instance for the real client.  A flow that
    owns an [InFlight] value is a [Tr] computation, and [scoped] runs its [Drop]
    on return and on error.  [emits m Q] states that [Q] holds of the result
    and the new events of [m], from any history; [precedes] orders events.

    One part is concurrent within the process, the watcher of signals and the
    lock.  UpdateGuard.v models it as two threads of atomic actions and an
    inductive step relation for every interleaving of them, of the kernel, of
    other runs and of signals.

    ** What the theorems show

    - update-cluster: a worker is upgraded only after it was drained and
      uncordoned only when it is back; the recovery hint is exact; a dry run
      only prints; every node is accounted for; at most one worker is out of
      service at any moment of a run; the waits end in time; the
      upgrade meets a specification of its calls; plans are consistent; the
      lock is held while the run's body executes and released by the drop and by
      the signal handler, no two runs work at the same time, and the races in
      which the lock outlives its run; recorded dry runs.
    - destroy-cluster: only the configured cluster is touched, disks after their
      domain; the result accounts for every failed step, and success means that
      everything is gone, in particular what any earlier deployment with the same
      configuration created (but for the two default workers of a configuration
      without WORKER_NAMES).  clean-vms: only what is named [hummingbird-] is
      touched, and the sweep's exact calls.  The cache: a sidecar is never half
      written, the template is rebuilt exactly when it is known to be stale.
    - spawn-workers: the run follows its script, clean-up after failures included.
    - switch-to-ghcr: the JSON reader accepts exactly its grammar up to the depth
      limit; the run's calls and exit status.
    - export-argocd and get-kubeconfig: the order of the calls; at every moment,
      also after a crash, the output is the old or the whole new file; which
      lines the rewriting changes.
    - preflight, kube-bench, verify: the exit-code contracts together with the
      calls; every Job or namespace that was created is deleted, on errors too;
      the dry run of kube-bench announces what the run does.
    - [hbird]: the exit status of every subcommand.
    - etcd: each stage of a key rotation, restore or backup comes only after the
      success of the ones before, with the rollback exactly when the restore
      script failed; the edits of the encryption config change the intended
      lines only; the date formula is the Gregorian calendar; base64 decodes.
    - deploy-cluster: nothing is run before the configuration is accepted, and
      then a prefix of one script: a VM is created only after the probe that it
      is not defined; success means that every node was reported Ready, and
      nodes that become Ready in time are noticed; a dry run only prints; all
      interfaces differ; [sha256_hex] is the standard's function; the cloud-init
      files keep their structure.
    - libvirt, [kubectl] and [ssh]: no operator string can inject into a shell
      or an option list (quoting against the shell's word splitting, the
      metacharacter guard, [to_argv] against [ssh]'s option reader); URIs
      round-trip; which host is contacted; exit statuses; the child process is
      spawned, killed and reaped as promised.
    - config: rendered files parse back; success, first error and warnings of
      the field assembly are characterised; iteration order does not matter.

    ** Bounds and fuel

    Loops over a list are structural.  [poll] (the waits) has fuel
    [poll_fuel timeout interval]; [Poll.poll_more_fuel] shows that more fuel
    changes nothing, and [emits_poll] that it suffices.  [walk] has one unit of
    fuel per worker ([UpdateRunFacts.walk_extends]).  The watchdog's fuel is shown
    to be enough by its termination theorem.  [walk_up] (the search for the
    repository) has one unit per byte of the path, [count_matches] one per byte
    of the text; [PreflightFacts.find_repo_root_iff] shows it for the search of
    preflight.  The JSON reader has one unit per byte for its loops and the depth
    limit for its recursion; [MiniJsonFacts.json_parse_iff] shows that no
    document is refused for lack of it.  Retries run over the list of their
    attempts.

    ** What is not modelled

    Argument parsing (clap) and tracing output, which are calls to libraries.
    What [ssh], [virsh], [kubectl] and the remote shells do with a command is the
    world's answer.  Of the lock, UpdateGuard.v relies on [flock -n] having tried
    the lock when the settle loop ends, and has no SIGKILL of [hbird].
    Real time: a sleep is an event.  Debug rendering
    of strings ([{:?}]) is modelled for ASCII, other characters are printed as
    they are.  Reading a file has no event, since it changes nothing. *)

From stdpp Require Export base list strings gmap sorting.
From Stdlib Require Export NArith Lia.
From Stdlib Require Export Ascii.

#[export] Set Default Proof Using "Type".

(** Hints for the rules of effectful computations ([Effects.v]). *)
Create HintDb effects.

(** Hints for the shell spellings of words ([Shell.v]). *)
Create HintDb shell.

(** ** Fallible computations *)

(** Rust's [Result<A, E>]. *)
Inductive result (E A : Type) : Type :=
| Ok (a : A)
| Err (e : E).
Arguments Ok {E A} a.
Arguments Err {E A} e.

#[export] Instance result_eq_dec E A `{!EqDecision E, !EqDecision A} : EqDecision (result E A).
Proof. solve_decision. Defined.

#[export] Instance result_ret E : MRet (result E) := λ A a, Ok a.
#[export] Instance result_bind E : MBind (result E) := λ A B f r,
  match r with Ok a => f a | Err e => Err e end.
#[export] Instance result_fmap E : FMap (result E) := λ A B f r,
  match r with Ok a => Ok (f a) | Err e => Err e end.

(** [Result::map_err]. *)
Definition map_err {E F A} (f : E → F) (r : result E A) : result F A :=
  match r with Ok a => Ok a | Err e => Err (f e) end.

(** [Option::ok_or]. *)
Definition ok_or {E A} (e : E) (o : option A) : result E A :=
  match o with Some a => Ok a | None => Err e end.

Definition is_ok {E A} (r : result E A) : bool :=
  match r with Ok _ => true | Err _ => false end.

Lemma bind_Ok {E A B} (m : result E A) (f : A → result E B) b :
  m ≫= f = Ok b ↔ ∃ a, m = Ok a ∧ f a = Ok b.
Proof. destruct m; simpl; naive_solver. Qed.

Lemma bind_Err {E A B} (m : result E A) (f : A → result E B) e :
  m ≫= f = Err e ↔ m = Err e ∨ ∃ a, m = Ok a ∧ f a = Err e.
Proof. destruct m; simpl; naive_solver. Qed.

Lemma ok_or_Ok {E A} (e : E) (o : option A) a : ok_or e o = Ok a ↔ o = Some a.
Proof. destruct o; simpl; naive_solver. Qed.

(** [inv_bind H] turns [H : (x ← m; k) = Ok b] into the success of [m] and of [k]. *)
Ltac inv_bind H :=
  let x := fresh "x" in let H1 := fresh H in
  apply bind_Ok in H as (x & H1 & H).

(** Case analysis on every [match] of the goal or of a hypothesis, then cleaning. *)
Ltac case_all := repeat (case_match; simplify_eq/=).

(** ** Generic list lemmas *)

Section lists.
Context {A : Type}.
Implicit Types (l k : list A) (P : A → Prop).

(** [Iterator::skip_while] *)
Fixpoint drop_while (f : A → bool) l : list A :=
  match l with
  | [] => []
  | x :: l' => if f x then drop_while f l' else l
  end.

(** [Iterator::take_while] *)
Fixpoint take_while (f : A → bool) l : list A :=
  match l with
  | [] => []
  | x :: l' => if f x then x :: take_while f l' else []
  end.

Lemma take_drop_while f l : take_while f l ++ drop_while f l = l.
Proof. induction l as [|x l IH]; simpl; [done|]. destruct (f x); simpl; congruence. Qed.

Lemma take_while_all f l : Forall (λ x, f x = true) (take_while f l).
Proof. induction l as [|x l IH]; simpl; [done|]. destruct (f x) eqn:?; auto. Qed.

Lemma drop_while_head f l x k : drop_while f l = x :: k → f x = false.
Proof.
  induction l as [|y l IH]; simpl; [done|]. destruct (f y) eqn:E; [done|].
  by intros [= -> ->].
Qed.

Lemma drop_while_id f l :
  match l with [] => True | x :: _ => f x = false end → drop_while f l = l.
Proof. destruct l as [|x l]; simpl; [done|]. by intros ->. Qed.

Lemma drop_while_idemp f l : drop_while f (drop_while f l) = drop_while f l.
Proof.
  apply drop_while_id. destruct (drop_while f l) eqn:E; [done|].
  by eapply drop_while_head.
Qed.

Lemma drop_while_app_all f l k :
  Forall (λ x, f x = true) l → drop_while f (l ++ k) = drop_while f k.
Proof. induction 1 as [|x l Hx _ IH]; simpl; [done|]. by rewrite Hx. Qed.

Lemma drop_while_suffix f l : drop_while f l `suffix_of` l.
Proof. exists (take_while f l). by rewrite take_drop_while. Qed.

Lemma existsb_elem (f : A → bool) l : existsb f l = true ↔ ∃ x, x ∈ l ∧ f x = true.
Proof.
  rewrite existsb_exists. split; intros (x & Hx & ?); exists x;
    (split; [by apply list_elem_of_In|done]).
Qed.

Lemma forallb_elem (f : A → bool) l : forallb f l = true ↔ ∀ x, x ∈ l → f x = true.
Proof.
  rewrite forallb_forall. split; intros H x Hx; apply H; by apply list_elem_of_In.
Qed.
End lists.
