(* ===== verification/RustStr.v ===== *)
(** * The operations of Rust's standard library on [&str] that the program uses

    A [&str] is a sequence of UTF-8 bytes, here a [string] of 8-bit [ascii]
    characters, each one byte.  Operations that search for an ASCII character
    ([find], [split_once], ...) work on bytes, as in Rust; operations on
    [char]s ([trim], [split_whitespace], [chars]) first split the bytes into
    the encodings of characters. *)

From S2P Require Import Prelude.
From Stdlib Require Import Ascii.

Open Scope string_scope.
Open Scope list_scope.
#[global] Arguments String.append !_ _ / : simpl nomatch.

(** ** Bytes *)

Definition byte_val (a : ascii) : N := N_of_ascii a.

Definition in_range (lo hi : N) (a : ascii) : bool :=
  (lo <=? byte_val a)%N && (byte_val a <=? hi)%N.

Definition is_ascii_digit : ascii → bool := in_range 48 57.
Definition is_ascii_lower : ascii → bool := in_range 97 122.
Definition is_ascii_upper : ascii → bool := in_range 65 90.
Definition is_ascii_alphabetic (a : ascii) : bool := is_ascii_lower a || is_ascii_upper a.
Definition is_ascii_alphanumeric (a : ascii) : bool := is_ascii_alphabetic a || is_ascii_digit a.

(** [u8::is_ascii_whitespace]: space, tab, LF, FF, CR. *)
Definition is_ascii_whitespace (a : ascii) : bool :=
  bool_decide (byte_val a ∈ [32; 9; 10; 12; 13]%N).

Definition to_ascii_lower (a : ascii) : ascii :=
  if is_ascii_upper a then ascii_of_N (byte_val a + 32) else a.

Definition nl : ascii := "010"%char.
Definition cr : ascii := "013"%char.
Definition dquote : ascii := "034"%char.
Definition squote : ascii := "039"%char.
Definition backslash : ascii := "092"%char.

Definition chr (a : ascii) : string := String a EmptyString.

(** A line feed, for string literals: [\n]. *)
Definition NL : string := chr nl.
Definition DQ : string := chr dquote.

(** ** Byte-level operations *)

(** [s.bytes().all(f)] *)
Fixpoint all_bytes (f : ascii → bool) (s : string) : bool :=
  match s with
  | EmptyString => true
  | String a s' => f a && all_bytes f s'
  end.

(** [s.bytes().any(f)] *)
Fixpoint any_byte (f : ascii → bool) (s : string) : bool :=
  match s with
  | EmptyString => false
  | String a s' => f a || any_byte f s'
  end.

(** [&s[..n]] and [&s[n..]] *)
Fixpoint str_take (n : nat) (s : string) : string :=
  match n, s with
  | S n, String a s' => String a (str_take n s')
  | _, _ => EmptyString
  end.

Fixpoint str_drop (n : nat) (s : string) : string :=
  match n, s with
  | S n, String _ s' => str_drop n s'
  | _, _ => s
  end.

Definition is_empty (s : string) : bool :=
  match s with EmptyString => true | _ => false end.

(** [s.starts_with(c)] *)
Definition starts_with_char (c : ascii) (s : string) : bool :=
  match s with String a _ => Ascii.eqb a c | EmptyString => false end.

(** [s.contains(c)] *)
Definition contains_char (c : ascii) (s : string) : bool := any_byte (Ascii.eqb c) s.

(** [s.strip_prefix(p)] *)
Fixpoint strip_prefix (p s : string) : option string :=
  match p, s with
  | EmptyString, _ => Some s
  | String a p', String b s' => if Ascii.eqb a b then strip_prefix p' s' else None
  | String _ _, EmptyString => None
  end.

(** [s.starts_with(p)] *)
Definition starts_with (p s : string) : bool :=
  match strip_prefix p s with Some _ => true | None => false end.

(** [s.contains(p)] *)
Fixpoint contains (p s : string) : bool :=
  starts_with p s ||
  match s with EmptyString => false | String _ s' => contains p s' end.

(** [s.find(c)]: the index of the first byte [c]. *)
Fixpoint find_char (c : ascii) (s : string) : option nat :=
  match s with
  | EmptyString => None
  | String a s' => if Ascii.eqb a c then Some 0%nat else S <$> find_char c s'
  end.

(** [s.split_once(c)] *)
Fixpoint split_once (c : ascii) (s : string) : option (string * string) :=
  match s with
  | EmptyString => None
  | String a s' =>
      if Ascii.eqb a c then Some (EmptyString, s')
      else match split_once c s' with
           | Some (l, r) => Some (String a l, r)
           | None => None
           end
  end.

(** [s.rsplit_once(c)]: split at the last [c]. *)
Fixpoint rsplit_once (c : ascii) (s : string) : option (string * string) :=
  match s with
  | EmptyString => None
  | String a s' =>
      match rsplit_once c s' with
      | Some (l, r) => Some (String a l, r)
      | None => if Ascii.eqb a c then Some (EmptyString, s') else None
      end
  end.

(** [s.split(c)]: always at least one piece. *)
Fixpoint split_char (c : ascii) (s : string) : list string :=
  match s with
  | EmptyString => [EmptyString]
  | String a s' =>
      if Ascii.eqb a c then EmptyString :: split_char c s'
      else match split_char c s' with
           | [] => [chr a]
           | p :: ps => String a p :: ps
           end
  end.

(** [s.split(c).next().unwrap_or(..)]: the text before the first [c]. *)
Fixpoint before_char (c : ascii) (s : string) : string :=
  match s with
  | EmptyString => EmptyString
  | String a s' => if Ascii.eqb a c then EmptyString else String a (before_char c s')
  end.

(** [s.trim_end_matches(c)] *)
Fixpoint trim_end_char (c : ascii) (s : string) : string :=
  match s with
  | EmptyString => EmptyString
  | String a s' =>
      match trim_end_char c s' with
      | EmptyString => if Ascii.eqb a c then EmptyString else chr a
      | t => String a t
      end
  end.

(** [s.to_ascii_lowercase()] *)
Fixpoint to_ascii_lowercase (s : string) : string :=
  match s with
  | EmptyString => EmptyString
  | String a s' => String (to_ascii_lower a) (to_ascii_lowercase s')
  end.

(** [s.eq_ignore_ascii_case(t)] *)
Definition eq_ignore_ascii_case (s t : string) : bool :=
  bool_decide (to_ascii_lowercase s = to_ascii_lowercase t).

(** [v.join(sep)] *)
Fixpoint join (sep : string) (l : list string) : string :=
  match l with
  | [] => ""
  | [x] => x
  | x :: l' => x +:+ sep +:+ join sep l'
  end.

Fixpoint concat_str (l : list string) : string :=
  match l with [] => "" | x :: l' => x +:+ concat_str l' end.

(** Lines, each with its line end. *)
Definition text_of (ls : list string) : string := concat_str ((λ l, l +:+ NL) <$> ls).

(** [str::lines]: [split_inclusive('\n')], then one ["\n"] and one ["\r"]
    before it dropped from each piece. *)
Fixpoint split_inclusive_nl (s : string) : list string :=
  match s with
  | EmptyString => []
  | String a s' =>
      if Ascii.eqb a nl then chr nl :: split_inclusive_nl s'
      else match split_inclusive_nl s' with
           | [] => [chr a]
           | p :: ps => String a p :: ps
           end
  end.

Fixpoint strip_suffix_char (c : ascii) (s : string) : option string :=
  match s with
  | EmptyString => None
  | String a EmptyString => if Ascii.eqb a c then Some EmptyString else None
  | String a s' => String a <$> strip_suffix_char c s'
  end.

(** [s.strip_suffix(p)] *)
Fixpoint strip_suffix (p s : string) : option string :=
  if bool_decide (s = p) then Some EmptyString
  else match s with EmptyString => None | String a s' => String a <$> strip_suffix p s' end.

(** [s.ends_with(p)] *)
Definition ends_with (p s : string) : bool :=
  match strip_suffix p s with Some _ => true | None => false end.

Definition strip_line_end (l : string) : string :=
  match strip_suffix_char nl l with
  | None => l
  | Some l1 => match strip_suffix_char cr l1 with None => l1 | Some l2 => l2 end
  end.

Definition lines (s : string) : list string := strip_line_end <$> split_inclusive_nl s.

(** [Path::join] with a relative path *)
Definition path_join (dir file : string) : string :=
  match strip_suffix_char "/" dir with
  | Some _ => dir +:+ file
  | None => if is_empty dir then file else dir +:+ "/" +:+ file
  end.

(** ** Characters: the UTF-8 encodings in a string *)

(** A [char], as the bytes that encode it. *)
Abbreviation char := string (only parsing).

(** How many bytes an encoding that starts with [a] has. *)
Definition utf8_len (a : ascii) : nat :=
  if (byte_val a <? 192)%N then 1
  else if (byte_val a <? 224)%N then 2
  else if (byte_val a <? 240)%N then 3
  else 4.

(** [s.chars()] *)
Fixpoint chars (s : string) : list char :=
  match s with
  | EmptyString => []
  | String a s1 =>
      match utf8_len a, s1 with
      | 2, String b s2 => String a (chr b) :: chars s2
      | 3, String b (String c s3) => String a (String b (chr c)) :: chars s3
      | 4, String b (String c (String d s4)) =>
          String a (String b (String c (chr d))) :: chars s4
      | _, _ => chr a :: chars s1
      end
  end.

(** [char::is_whitespace]: the Unicode property [White_Space]. *)
Definition is_whitespace (c : char) : bool :=
  match c with
  | String a EmptyString => in_range 9 13 a || Ascii.eqb a " "
  | String a (String b EmptyString) =>
      (byte_val a =? 194)%N && ((byte_val b =? 133)%N || (byte_val b =? 160)%N)
  | String a (String b (String c EmptyString)) =>
      match byte_val a, byte_val b with
      | 225%N, 154%N => (byte_val c =? 128)%N
      | 226%N, 128%N =>
          in_range 128 138 c || (byte_val c =? 168)%N || (byte_val c =? 169)%N
          || (byte_val c =? 175)%N
      | 226%N, 129%N => (byte_val c =? 159)%N
      | 227%N, 128%N => (byte_val c =? 128)%N
      | _, _ => false
      end
  | _ => false
  end.

(** [s.trim_start()], [s.trim_end()] and [s.trim()] *)
Definition trim_start (s : string) : string :=
  concat_str (drop_while is_whitespace (chars s)).
Definition trim_end (s : string) : string :=
  concat_str (rev (drop_while is_whitespace (rev (chars s)))).
Definition trim (s : string) : string :=
  concat_str (rev (drop_while is_whitespace (rev (drop_while is_whitespace (chars s))))).

(** [s.split_whitespace()]: [cur] is the word being read. *)
Fixpoint split_ws_go (cur : string) (l : list char) : list string :=
  match l with
  | [] => if is_empty cur then [] else [cur]
  | c :: l' =>
      if is_whitespace c
      then if is_empty cur then split_ws_go "" l' else cur :: split_ws_go "" l'
      else split_ws_go (cur +:+ c) l'
  end.
Definition split_whitespace (s : string) : list string := split_ws_go "" (chars s).

(** [s.chars().take(n).collect()] *)
Definition take_chars (n : nat) (s : string) : string := concat_str (take n (chars s)).

(** ** Integers *)

Definition U16_MAX : N := 65535.
Definition U32_MAX : N := 4294967295.
Definition U64_MAX : N := 18446744073709551615.

(** [std::num::ParseIntError] *)
Inductive ParseIntError : Set := Empty | InvalidDigit | PosOverflow.
#[export] Instance ParseIntError_eq_dec : EqDecision ParseIntError.
Proof. solve_decision. Defined.

(** [impl Display for ParseIntError] *)
Definition show_parse_int_error (e : ParseIntError) : string :=
  match e with
  | Empty => "cannot parse integer from empty string"
  | InvalidDigit => "invalid digit found in string"
  | PosOverflow => "number too large to fit in target type"
  end.

(** The value of a digit string, most significant digit first. *)
Fixpoint parse_digits (max acc : N) (s : string) : result ParseIntError N :=
  match s with
  | EmptyString => Ok acc
  | String a s' =>
      if is_ascii_digit a then
        let acc' := (acc * 10 + (byte_val a - 48))%N in
        if (acc' <=? max)%N then parse_digits max acc' s' else Err PosOverflow
      else Err InvalidDigit
  end.

(** [s.parse::<uN>()] for the unsigned type with maximum [max]: an optional
    ["+"], at least one digit, no overflow. *)
Definition parse_uint (max : N) (s : string) : result ParseIntError N :=
  match s with
  | EmptyString => Err Empty
  | String a s' =>
      if Ascii.eqb a "+" then
        match s' with EmptyString => Err InvalidDigit | _ => parse_digits max 0 s' end
      else parse_digits max 0 s
  end.

(** [n.to_string()] for an unsigned integer. *)
Definition digit (n : N) : ascii := ascii_of_N (48 + n).

Fixpoint show_N_go (fuel : nat) (n : N) (acc : string) : string :=
  match fuel with
  | O => acc
  | S fuel =>
      let acc' := String (digit (n mod 10)) acc in
      if (n <? 10)%N then acc' else show_N_go fuel (n / 10) acc'
  end.
Definition show_N (n : N) : string := show_N_go (S (N.to_nat (N.log2 n))) n "".

(** [saturating_add] and [wrapping_mul] at the width with maximum [max]. *)
Definition saturating_add (max a b : N) : N := N.min (a + b) max.
Definition wrapping_mul64 (a b : N) : N := ((a * b) mod (U64_MAX + 1))%N.

(** [n.to_string()] for a signed integer. *)
Definition show_Z (z : Z) : string :=
  if (z <? 0)%Z then "-" +:+ show_N (Z.abs_N z) else show_N (Z.to_N z).

Definition show_nat (n : nat) : string := show_N (N.of_nat n).

(** ** [Duration], in milliseconds *)

Record Duration : Set := Millis { as_millis : N }.
#[export] Instance Duration_eq_dec : EqDecision Duration.
Proof. solve_decision. Defined.

Definition from_secs (s : N) : Duration := Millis (s * 1000).
Definition from_millis (ms : N) : Duration := Millis ms.
Definition as_secs (d : Duration) : N := (as_millis d / 1000)%N.

(** [{:?}] of a duration of a whole number of seconds, which is what the
    program ever prints, or of less than one second. *)
Definition debug_duration (d : Duration) : string :=
  if (as_millis d =? 0)%N then "0ns"
  else if (as_millis d <? 1000)%N then show_N (as_millis d) +:+ "ms"
  else show_N (as_secs d) +:+ "s".

(** ** [{:?}] of a string

    Quotes, backslashes and the control characters of ASCII are escaped;
    characters beyond ASCII are copied (the few that Rust considers unprintable
    are not modelled). *)
Definition hex_digit (n : N) : ascii :=
  if (n <? 10)%N then digit n else ascii_of_N (87 + n).

Definition escape_debug (a : ascii) : string :=
  if Ascii.eqb a dquote then String backslash DQ
  else if Ascii.eqb a backslash then String backslash (chr backslash)
  else if Ascii.eqb a nl then String backslash "n"
  else if Ascii.eqb a cr then String backslash "r"
  else if (byte_val a =? 9)%N then String backslash "t"
  else if (byte_val a =? 0)%N then String backslash "0"
  else if (byte_val a <? 16)%N then String backslash ("u{" +:+ chr (hex_digit (byte_val a)) +:+ "}")
  else if (byte_val a <? 32)%N then
    String backslash ("u{1" +:+ chr (hex_digit (byte_val a - 16)) +:+ "}")
  else if (byte_val a =? 127)%N then String backslash "u{7f}"
  else chr a.

Fixpoint escape_all (s : string) : string :=
  match s with EmptyString => "" | String a s' => escape_debug a +:+ escape_all s' end.

Definition debug_str (s : string) : string := DQ +:+ escape_all s +:+ DQ.

(** ** [String::from_utf8_lossy]: each maximal ill-formed piece becomes U+FFFD *)

Definition REPLACEMENT : string :=
  String (ascii_of_N 239) (String (ascii_of_N 191) (chr (ascii_of_N 189))).

(** The bytes that may follow the lead byte [a], and how many more
    continuation bytes come after. *)
Definition utf8_second (a : ascii) : option ((ascii → bool) * nat) :=
  let v := byte_val a in
  if in_range 194 223 a then Some (in_range 128 191, O)
  else if (v =? 224)%N then Some (in_range 160 191, 1)
  else if in_range 225 236 a || in_range 238 239 a then Some (in_range 128 191, 1)
  else if (v =? 237)%N then Some (in_range 128 159, 1)
  else if (v =? 240)%N then Some (in_range 144 191, 2)
  else if in_range 241 243 a then Some (in_range 128 191, 2)
  else if (v =? 244)%N then Some (in_range 128 143, 2)
  else None.

(** Where the decoder is: at a boundary, or inside an encoding whose bytes so
    far are [pre], expecting a byte of [ok] and then [more] continuations. *)
Inductive utf8_state : Type :=
| Boundary
| Inside (pre : string) (ok : ascii → bool) (more : nat).

Definition utf8_start (a : ascii) (k : utf8_state → string) : string :=
  if (byte_val a <? 128)%N then String a (k Boundary)
  else match utf8_second a with
       | Some (ok, more) => k (Inside (chr a) ok more)
       | None => REPLACEMENT +:+ k Boundary
       end.

Fixpoint lossy_go (st : utf8_state) (s : string) : string :=
  match s with
  | EmptyString => match st with Boundary => "" | Inside _ _ _ => REPLACEMENT end
  | String a s' =>
      match st with
      | Boundary => utf8_start a (λ st', lossy_go st' s')
      | Inside pre ok more =>
          if ok a then
            match more with
            | O => pre +:+ String a (lossy_go Boundary s')
            | S more => lossy_go (Inside (pre +:+ chr a) (in_range 128 191) more) s'
            end
          else REPLACEMENT +:+ utf8_start a (λ st', lossy_go st' s')
      end
  end.
Definition from_utf8_lossy (s : string) : string := lossy_go Boundary s.

(** ** Lemmas on bytes *)

Lemma byte_val_ascii_of_N n : (n < 256)%N → byte_val (ascii_of_N n) = n.
Proof. apply N_ascii_embedding. Qed.

Lemma in_range_spec lo hi a : in_range lo hi a = true ↔ (lo ≤ byte_val a ≤ hi)%N.
Proof. unfold in_range. rewrite andb_true_iff, !N.leb_le. done. Qed.

Lemma ascii_eqb_refl a : Ascii.eqb a a = true.
Proof. apply Ascii.eqb_refl. Qed.

(** ** Lemmas on concatenation *)

Lemma app_nil_s s : s +:+ "" = s.
Proof. induction s as [|a s IH]; simpl; [done|]. by f_equal. Qed.

Lemma app_assoc_s s t u : s +:+ (t +:+ u) = (s +:+ t) +:+ u.
Proof. induction s as [|a s IH]; simpl; [done|]. by f_equal. Qed.

Lemma string_length_app s t : String.length (s +:+ t) = (String.length s + String.length t)%nat.
Proof. induction s as [|a s IH]; [done|]. cbn. by rewrite IH. Qed.

Lemma app_cons_s a s t : String a s +:+ t = String a (s +:+ t).
Proof. done. Qed.

Lemma app_inj_s s t u : s +:+ t = s +:+ u → t = u.
Proof. induction s as [|a s IH]; simpl; [done|]. by intros [= ?%IH]. Qed.

Lemma app_inj_last s t u : s +:+ u = t +:+ u → s = t.
Proof.
  revert t. induction s as [|c s IH]; intros [|d t] Heq; cbn in Heq; try done.
  - apply (f_equal String.length) in Heq. cbn in Heq. rewrite string_length_app in Heq. lia.
  - apply (f_equal String.length) in Heq. cbn in Heq. rewrite string_length_app in Heq. lia.
  - injection Heq as -> Heq. f_equal. by apply IH.
Qed.

Lemma str_take_drop n s : str_take n s +:+ str_drop n s = s.
Proof. revert s. induction n as [|n IH]; intros [|a s]; simpl; try done. by rewrite IH. Qed.

Lemma concat_str_app l k : concat_str (l ++ k) = concat_str l +:+ concat_str k.
Proof. induction l as [|x l IH]; simpl; [done|]. by rewrite IH, app_assoc_s. Qed.

Lemma all_bytes_app f s t : all_bytes f (s +:+ t) = all_bytes f s && all_bytes f t.
Proof. induction s as [|a s IH]; simpl; [done|]. by rewrite IH, andb_assoc. Qed.

Lemma any_byte_app f s t : any_byte f (s +:+ t) = any_byte f s || any_byte f t.
Proof. induction s as [|a s IH]; simpl; [done|]. by rewrite IH, orb_assoc. Qed.

Lemma any_byte_negb f s : any_byte f s = negb (all_bytes (λ a, negb (f a)) s).
Proof. induction s as [|a s IH]; simpl; [done|]. rewrite IH. by destruct (f a). Qed.

Lemma all_bytes_impl (f g : ascii → bool) s :
  (∀ a, f a = true → g a = true) → all_bytes f s = true → all_bytes g s = true.
Proof.
  intros H. induction s as [|a s IH]; simpl; [done|].
  rewrite !andb_true_iff. naive_solver.
Qed.

Lemma all_bytes_not_contains f c s :
  f c = false → all_bytes f s = true → contains_char c s = false.
Proof.
  unfold contains_char. intros Hc. induction s as [|a s IH]; simpl; [done|].
  rewrite andb_true_iff. intros [Ha Hs]. rewrite IH by done.
  destruct (Ascii.eqb_spec c a); [congruence|done].
Qed.

(** ** Splitting at a byte *)

Lemma find_char_split c s i :
  find_char c s = Some i →
  s = str_take i s +:+ String c (str_drop (S i) s)
  ∧ contains_char c (str_take i s) = false.
Proof.
  revert i. induction s as [|a s IH]; intros i; simpl; [done|].
  destruct (Ascii.eqb_spec a c) as [->|Hne].
  - intros [= <-]. done.
  - destruct (find_char c s) as [j|] eqn:E; [|done]. intros [= <-].
    destruct (IH j eq_refl) as [Hs Hc]. unfold contains_char in *. simpl.
    destruct (Ascii.eqb_spec c a); [congruence|]. split; [|done]. f_equal. done.
Qed.

Lemma find_char_app c s t :
  contains_char c s = false → find_char c (s +:+ String c t) = Some (String.length s).
Proof.
  unfold contains_char. induction s as [|a s IH]; simpl.
  - by rewrite ascii_eqb_refl.
  - rewrite orb_false_iff. intros [Ha Hs]. rewrite Ascii.eqb_sym, Ha, IH; done.
Qed.

Lemma str_take_app s t : str_take (String.length s) (s +:+ t) = s.
Proof. induction s as [|a s IH]; simpl; [by destruct t|]. by f_equal. Qed.

Lemma str_drop_app s t : str_drop (String.length s) (s +:+ t) = t.
Proof. induction s as [|a s IH]; simpl; [by destruct t|]. done. Qed.

Lemma str_drop_app_S s c t : str_drop (S (String.length s)) (s +:+ String c t) = t.
Proof. induction s as [|a s IH]; [by destruct t|]. exact IH. Qed.

Lemma find_char_None c s : find_char c s = None ↔ contains_char c s = false.
Proof.
  unfold contains_char. induction s as [|a s IH]; simpl; [done|].
  rewrite (Ascii.eqb_sym c a). destruct (Ascii.eqb a c); simpl; [done|].
  rewrite <-IH. destruct (find_char c s); naive_solver.
Qed.

Lemma split_once_Some c s l r :
  split_once c s = Some (l, r) ↔ s = l +:+ String c r ∧ contains_char c l = false.
Proof.
  unfold contains_char. revert l. induction s as [|a s IH]; intros l; simpl.
  - split; [done|]. destruct l; naive_solver.
  - destruct (Ascii.eqb_spec a c) as [->|Hne].
    + split; [naive_solver|]. destruct l as [|b l]; simpl; [naive_solver|].
      intros [[= <- _] H]. by rewrite ascii_eqb_refl in H.
    + destruct (split_once c s) as [[l' r']|] eqn:E.
      * split.
        -- intros [= <- <-]. destruct (proj1 (IH l') eq_refl) as [-> Hl].
           simpl. rewrite Hl. destruct (Ascii.eqb_spec c a); [congruence|]. done.
        -- destruct l as [|b l]; simpl; [naive_solver|]. intros [[= -> ->] Hl].
           apply orb_false_iff in Hl as [_ Hl].
           assert (Some (l', r') = Some (l, r)) as [= -> ->]; [|done].
           by apply IH.
      * split; [done|]. destruct l as [|b l]; simpl; [naive_solver|].
        intros [[= -> ->] Hl]. apply orb_false_iff in Hl as [_ Hl].
        assert (None = Some (l, r)) as [=]. by apply IH.
Qed.

Lemma split_once_None c s : split_once c s = None ↔ contains_char c s = false.
Proof.
  unfold contains_char. induction s as [|a s IH]; simpl; [done|].
  rewrite (Ascii.eqb_sym c a). destruct (Ascii.eqb a c); simpl; [done|].
  rewrite <-IH. destruct (split_once c s) as [[??]|]; naive_solver.
Qed.

Lemma rsplit_once_None c s : rsplit_once c s = None ↔ contains_char c s = false.
Proof.
  unfold contains_char. induction s as [|a s IH]; simpl; [done|].
  rewrite (Ascii.eqb_sym c a), orb_false_iff, <-IH.
  destruct (rsplit_once c s) as [[??]|]; destruct (Ascii.eqb a c); naive_solver.
Qed.

Lemma rsplit_once_Some c s l r :
  rsplit_once c s = Some (l, r) ↔ s = l +:+ String c r ∧ contains_char c r = false.
Proof.
  revert l. induction s as [|a s IH]; intros l; simpl.
  - split; [done|]. destruct l; naive_solver.
  - destruct (rsplit_once c s) as [[l' r']|] eqn:E.
    + split.
      * intros [= <- <-]. by destruct (proj1 (IH l') eq_refl) as [-> ?].
      * destruct l as [|b l]; simpl; intros [? Hr]; simplify_eq/=.
        -- apply rsplit_once_None in Hr. congruence.
        -- assert (Some (l', r') = Some (l, r)) as [= -> ->]; [|done]. by apply IH.
    + destruct (Ascii.eqb_spec a c) as [->|Hne].
      * split; [intros [= <- <-]; by apply rsplit_once_None in E|].
        destruct l as [|b l]; simpl; intros [? Hr]; simplify_eq/=; try done.
        assert (None = Some (l, r)) as [=]. by apply IH.
      * split; [done|]. destruct l as [|b l]; simpl; intros [? Hr]; simplify_eq/=; try done.
        assert (None = Some (l, r)) as [=]. by apply IH.
Qed.

Lemma contains_char_app c s t :
  contains_char c (s +:+ t) = contains_char c s || contains_char c t.
Proof. apply any_byte_app. Qed.

Lemma contains_char_cons c a s :
  contains_char c (String a s) = Ascii.eqb c a || contains_char c s.
Proof. done. Qed.

Lemma strip_prefix_Some p s t : strip_prefix p s = Some t ↔ s = p +:+ t.
Proof.
  revert s. induction p as [|a p IH]; intros s; simpl; [naive_solver|].
  destruct s as [|b s]; [naive_solver|].
  destruct (Ascii.eqb_spec a b) as [->|]; rewrite ?IH; naive_solver.
Qed.

Lemma strip_prefix_app p s : strip_prefix p (p +:+ s) = Some s.
Proof. by apply strip_prefix_Some. Qed.

Lemma strip_suffix_Some p s t : strip_suffix p s = Some t ↔ s = t +:+ p.
Proof.
  assert (Hlen : ∀ u : string, u +:+ p = p → u = "").
  { intros u Hu. apply (f_equal String.length) in Hu. rewrite string_length_app in Hu.
    destruct u; [done|]. cbn in Hu. lia. }
  revert t. induction s as [|a s IH]; intros t; cbn [strip_suffix]; case_bool_decide as E.
  - subst p. destruct t; naive_solver.
  - destruct t; naive_solver.
  - subst p. split; [by intros [= <-]|]. intros Ht. f_equal. symmetry. by apply Hlen.
  - rewrite fmap_Some. split.
    + intros (u & Hu%IH & ->). by subst s.
    + destruct t as [|b t]; [by intros Hp|]. intros [= -> ->]. exists t. split; [by apply IH|done].
Qed.

Lemma ends_with_spec p s : ends_with p s = true ↔ ∃ t, s = t +:+ p.
Proof.
  unfold ends_with. destruct (strip_suffix p s) as [t|] eqn:E.
  - apply strip_suffix_Some in E. split; [by exists t|done].
  - split; [done|]. intros [t Ht%strip_suffix_Some]. congruence.
Qed.

Lemma strip_prefix_char c s :
  strip_prefix (String c EmptyString) s = None ↔ starts_with_char c s = false.
Proof.
  destruct s as [|a s]; cbn [strip_prefix starts_with_char]; [done|].
  rewrite (Ascii.eqb_sym c a). by destruct (Ascii.eqb a c).
Qed.

(** ** Decimal numerals: printing then parsing *)

Lemma digit_val n : (n < 10)%N → byte_val (digit n) = (48 + n)%N.
Proof. intros. apply byte_val_ascii_of_N. lia. Qed.

Lemma digit_is_digit n : (n < 10)%N → is_ascii_digit (digit n) = true.
Proof. intros. apply in_range_spec. rewrite digit_val by done. lia. Qed.

Lemma parse_digits_cons max acc n s :
  (n < 10)%N → (acc * 10 + n ≤ max)%N →
  parse_digits max acc (String (digit n) s) = parse_digits max (acc * 10 + n) s.
Proof.
  intros Hn Hm. cbn [parse_digits]. rewrite digit_is_digit, digit_val by done.
  replace (48 + n - 48)%N with n by lia.
  by rewrite (proj2 (N.leb_le _ _)).
Qed.

(** The digits [show_N_go] puts in front of [acc]: parsing them from 0 is
    parsing [acc] from [n]. *)
Lemma show_N_go_parse fuel max n acc :
  (n < 10 ^ N.of_nat (S fuel))%N → (n ≤ max)%N →
  parse_digits max 0 (show_N_go (S fuel) n acc) = parse_digits max n acc.
Proof.
  revert n acc. induction fuel as [|fuel IH]; intros n acc Hn Hm.
  - change (10 ^ N.of_nat 1)%N with 10%N in Hn. simpl.
    rewrite (proj2 (N.ltb_lt n 10)) by done. rewrite N.mod_small by done.
    rewrite parse_digits_cons by lia. done.
  - remember (S fuel) as f eqn:Hf. simpl. destruct (N.ltb_spec n 10).
    + rewrite N.mod_small by done. rewrite parse_digits_cons by lia. done.
    + subst f. rewrite IH.
      * assert (n mod 10 < 10)%N by (apply N.mod_lt; done).
        pose proof (N.div_mod' n 10).
        rewrite parse_digits_cons by lia. f_equal. lia.
      * apply N.Div0.div_lt_upper_bound. rewrite Nat2N.inj_succ, N.pow_succ_r' in Hn. done.
      * etrans; [apply N.Div0.div_le_upper_bound with (q := n); lia|done].
Qed.

Lemma log2_digits n : (n < 10 ^ N.of_nat (S (N.to_nat (N.log2 n))))%N.
Proof.
  rewrite Nat2N.inj_succ, N2Nat.id. destruct (decide (n = 0)%N) as [->|Hn].
  - done.
  - eapply N.lt_le_trans; [apply N.log2_spec; lia|].
    apply N.pow_le_mono_l. lia.
Qed.

Lemma show_N_go_head fuel n acc :
  ∃ d s, show_N_go (S fuel) n acc = String (digit d) s ∧ (d < 10)%N.
Proof.
  revert n acc. induction fuel as [|fuel IH]; intros n acc; simpl.
  - exists (n mod 10)%N, acc. split; [by case_match|]. by apply N.mod_lt.
  - case_match; [|apply IH]. exists (n mod 10)%N, acc. split; [done|]. by apply N.mod_lt.
Qed.

(** Printing an unsigned integer and parsing it back at a width that holds it. *)
Lemma parse_show_N max n : (n ≤ max)%N → parse_uint max (show_N n) = Ok n.
Proof.
  intros Hm. unfold show_N.
  pose proof (show_N_go_parse (N.to_nat (N.log2 n)) max n "" (log2_digits n) Hm) as Hp.
  destruct (show_N_go_head (N.to_nat (N.log2 n)) n "") as (d & s & Hs & Hd).
  rewrite Hs in *. unfold parse_uint.
  destruct (Ascii.eqb_spec (digit d) "+") as [He|_]; [|done].
  pose proof (digit_val d Hd) as Hv. rewrite He in Hv. unfold byte_val in Hv. simpl in Hv. lia.
Qed.

Lemma parse_digits_bound max acc s n :
  parse_digits max acc s = Ok n → (acc ≤ max)%N → (acc ≤ n ≤ max)%N.
Proof.
  revert acc. induction s as [|a s IH]; simpl; intros acc; [naive_solver lia|].
  case_match; [|done]. destruct (N.leb_spec (acc * 10 + (byte_val a - 48)) max); [|done].
  intros Hp%IH ?; lia.
Qed.

(** A parsed integer fits its type. *)
Lemma parse_uint_bound max s n : parse_uint max s = Ok n → (n ≤ max)%N.
Proof.
  unfold parse_uint. destruct s as [|a s]; [done|].
  case_match; [destruct s; [done|]|]; intros Hp%parse_digits_bound; lia.
Qed.

(** ** The byte order on strings is total *)

Lemma leb_cons_s a b s t :
  String.leb (String a s) (String b t)
  = match N.compare (byte_val a) (byte_val b) with
    | Lt => true | Gt => false | Eq => String.leb s t
    end.
Proof.
  unfold String.leb. simpl. unfold Ascii.compare, byte_val.
  by destruct (N_of_ascii a ?= N_of_ascii b)%N.
Qed.

#[export] Instance leb_trans_s : Transitive (λ s t, String.leb s t = true).
Proof.
  intros s. induction s as [|a s IH]; intros [|b t] [|c u] H1 H2; try done.
  rewrite leb_cons_s in *.
  destruct (N.compare_spec (byte_val a) (byte_val b)) as [Hab|Hab|Hab]; [..|done];
    destruct (N.compare_spec (byte_val b) (byte_val c)) as [Hbc|Hbc|Hbc]; try done;
    destruct (N.compare_spec (byte_val a) (byte_val c)); try lia; try done.
  by eapply IH.
Qed.

(** ** Lemmas on characters *)

Lemma string_len_ind (P : string → Prop) :
  (∀ s, (∀ t, (String.length t < String.length s)%nat → P t) → P s) → ∀ s, P s.
Proof.
  intros H s. remember (String.length s) as n eqn:Hn. revert s Hn.
  induction (lt_wf n) as [n _ IH]. intros s ->. apply H. intros t Ht. by eapply IH.
Qed.

(** Case analysis on how [chars] reads the first character. *)
Ltac chars_cases s :=
  destruct s as [|?a [|?b [|?c [|?d ?s]]]]; simpl;
  try destruct (utf8_len _) as [|[|[|[|[|?n]]]]] eqn:?; simpl.

Lemma concat_chars s : concat_str (chars s) = s.
Proof.
  induction s as [s IH] using string_len_ind.
  destruct s as [|a s1]; [done|].
  assert (concat_str (chr a :: chars s1) = String a s1) as H1.
  { simpl. by rewrite (IH s1) by (simpl; lia). }
  cbn [chars]. destruct (utf8_len a) as [|[|[|[|[|n]]]]]; try exact H1.
  - destruct s1 as [|b s2]; [exact H1|]. simpl. by rewrite (IH s2) by (simpl; lia).
  - destruct s1 as [|b [|c s3]]; try exact H1. simpl. by rewrite (IH s3) by (simpl; lia).
  - destruct s1 as [|b [|c [|d s4]]]; try exact H1.
    simpl. by rewrite (IH s4) by (simpl; lia).
Qed.

(** Every encoding of [s] is complete, as in any valid UTF-8 string. *)
Fixpoint complete_chars (s : string) : bool :=
  match s with
  | EmptyString => true
  | String a s1 =>
      match utf8_len a, s1 with
      | 1, _ => complete_chars s1
      | 2, String _ s2 => complete_chars s2
      | 3, String _ (String _ s3) => complete_chars s3
      | 4, String _ (String _ (String _ s4)) => complete_chars s4
      | _, _ => false
      end
  end.

Lemma chars_app s t : complete_chars s = true → chars (s +:+ t) = chars s ++ chars t.
Proof.
  induction s as [s IH] using string_len_ind. destruct s as [|a s1]; [done|].
  cbn [complete_chars String.append chars].
  destruct (utf8_len a) as [|[|[|[|[|n]]]]]; try done.
  - intros H. rewrite IH; [done|simpl; lia|done].
  - destruct s1 as [|b s2]; [done|]. intros H. simpl.
    rewrite IH; [done|simpl; lia|done].
  - destruct s1 as [|b [|c s3]]; try done. intros H. simpl.
    rewrite IH; [done|simpl; lia|done].
  - destruct s1 as [|b [|c [|d s4]]]; try done. intros H. simpl.
    rewrite IH; [done|simpl; lia|done].
Qed.

(** A byte below 0xC0 is a character of its own. *)
Lemma chars_cons a s : utf8_len a = 1%nat → chars (String a s) = chr a :: chars s.
Proof. intros H. cbn [chars]. by rewrite H. Qed.

Lemma utf8_len_ascii a : (byte_val a < 192)%N → utf8_len a = 1%nat.
Proof. intros H. unfold utf8_len. by rewrite (proj2 (N.ltb_lt _ _)). Qed.

(** Text that starts with an ASCII character other than whitespace has nothing
    to trim in front. *)
Lemma trim_start_id a s :
  utf8_len a = 1%nat → is_whitespace (chr a) = false → trim_start (String a s) = String a s.
Proof.
  intros Ha Hw. unfold trim_start. rewrite chars_cons by done. cbn [drop_while].
  rewrite Hw. cbn [concat_str]. by rewrite concat_chars.
Qed.

Lemma chars_contains a s : chr a ∈ chars s → contains_char a s = true.
Proof.
  intros [l [k H]]%list_elem_of_split. rewrite <-(concat_chars s), H.
  rewrite concat_str_app. cbn [concat_str].
  rewrite !contains_char_app. unfold chr. rewrite contains_char_cons, ascii_eqb_refl.
  by rewrite orb_true_r.
Qed.

Lemma strip_suffix_char_app c s : strip_suffix_char c (s +:+ chr c) = Some s.
Proof.
  induction s as [|a s IH]; simpl; [by rewrite ascii_eqb_refl|].
  rewrite IH. by destruct s.
Qed.

Lemma strip_suffix_char_ne c a s : a ≠ c → strip_suffix_char c (s +:+ chr a) = None.
Proof.
  intros Hne. induction s as [|b s IH]; simpl.
  - by rewrite (proj2 (Ascii.eqb_neq a c)).
  - rewrite IH. by destruct s.
Qed.

Lemma snoc_s s : s ≠ "" → ∃ u a, s = u +:+ chr a.
Proof.
  induction s as [|a [|b s] IH]; intros Hs; [done|by exists "", a|].
  destruct IH as (u & x & ->); [done|]. by exists (String a u), x.
Qed.

Lemma split_inclusive_nl_line l s :
  contains_char nl l = false →
  split_inclusive_nl (l +:+ String nl s) = (l +:+ chr nl) :: split_inclusive_nl s.
Proof.
  unfold contains_char. induction l as [|a l IH]; cbn [any_byte String.append]; intros H.
  - cbn [split_inclusive_nl]. by rewrite ascii_eqb_refl.
  - apply orb_false_iff in H as [Ha Hl]. cbn [split_inclusive_nl].
    rewrite Ascii.eqb_sym, Ha, IH by done. done.
Qed.

(** A line that does not end in a carriage return is read back as it is. *)
Lemma lines_line l s :
  contains_char nl l = false → strip_suffix_char cr l = None →
  lines (l +:+ String nl s) = l :: lines s.
Proof.
  intros Hl Hcr. unfold lines. rewrite split_inclusive_nl_line by done. simpl.
  unfold strip_line_end. by rewrite strip_suffix_char_app, Hcr.
Qed.

(** ASCII output is decoded to itself. *)
Lemma from_utf8_lossy_ascii s :
  all_bytes (λ a, (byte_val a <? 128)%N) s = true → from_utf8_lossy s = s.
Proof.
  unfold from_utf8_lossy. induction s as [|a s IH]; [done|]. cbn [all_bytes lossy_go].
  rewrite andb_true_iff. intros [Ha Hs]. unfold utf8_start. rewrite Ha. f_equal. by apply IH.
Qed.

(** ** [split], [join] and [trim_end_matches] *)

Lemma split_char_ne c s : split_char c s ≠ [].
Proof.
  destruct s as [|a s]; cbn [split_char]; [done|]. destruct (Ascii.eqb a c); [done|].
  by destruct (split_char c s).
Qed.

Lemma join_split_char c s : join (chr c) (split_char c s) = s.
Proof.
  induction s as [|a s IH]; cbn [split_char]; [done|].
  destruct (split_char c s) as [|p ps] eqn:E; [by apply split_char_ne in E|].
  destruct (Ascii.eqb_spec a c) as [->|].
  - change (join (chr c) ("" :: p :: ps)) with ("" +:+ chr c +:+ join (chr c) (p :: ps)).
    by rewrite IH.
  - destruct ps as [|p' ps]; cbn [join] in *; by rewrite <-IH.
Qed.

Lemma split_char_single c t : contains_char c t = false → split_char c t = [t].
Proof.
  unfold contains_char. induction t as [|a t IH]; cbn [any_byte split_char]; [done|].
  intros [Ha Ht]%orb_false_iff. by rewrite Ascii.eqb_sym, Ha, IH.
Qed.

Lemma split_char_app c t s :
  contains_char c t = false → split_char c (t +:+ String c s) = t :: split_char c s.
Proof.
  unfold contains_char. induction t as [|a t IH].
  - intros _. change ("" +:+ String c s) with (String c s). cbn [split_char].
    by rewrite ascii_eqb_refl.
  - change (String a t +:+ String c s) with (String a (t +:+ String c s)).
    cbn [any_byte split_char]. intros [Ha Ht]%orb_false_iff.
    by rewrite Ascii.eqb_sym, Ha, IH.
Qed.

Lemma trim_end_char_id c t : contains_char c t = false → trim_end_char c t = t.
Proof.
  unfold contains_char. induction t as [|a t IH]; cbn [any_byte trim_end_char]; [done|].
  intros [Ha Ht]%orb_false_iff. rewrite IH by done. destruct t; [|done].
  by rewrite Ascii.eqb_sym, Ha.
Qed.

Lemma trim_end_char_app c s t :
  is_empty (trim_end_char c t) = false → trim_end_char c (s +:+ t) = s +:+ trim_end_char c t.
Proof.
  intros Ht. induction s as [|a s IH]; [done|].
  change (String a s +:+ t) with (String a (s +:+ t)). cbn [trim_end_char]. rewrite IH.
  destruct s as [|b s]; [|done]. by destruct (trim_end_char c t).
Qed.

Lemma trim_end_char_all c s t :
  all_bytes (Ascii.eqb c) t = true → trim_end_char c (s +:+ t) = trim_end_char c s.
Proof.
  intros Ht. assert (Hn : trim_end_char c t = "").
  { induction t as [|a t IH]; cbn [all_bytes trim_end_char] in *; [done|].
    apply andb_true_iff in Ht as [<-%Ascii.eqb_eq Ht]. rewrite IH by done.
    by rewrite ascii_eqb_refl. }
  induction s as [|a s IH]; [done|].
  change (String a s +:+ t) with (String a (s +:+ t)). cbn [trim_end_char]. by rewrite IH.
Qed.
