(* ===== verification/Utf8.v ===== *)
(** * UTF-8: [std::str::from_utf8] and [char]

    The check of raw bytes with its error, and what well-formed text is made of:
    the encodings of Unicode scalar values ([scalar]), which is also how [chars]
    reads it. *)

From S2P Require Import Prelude RustStr.

(** [Utf8Error]: where the text is valid up to, and the length of the bad
    sequence ([None]: the text ends inside an encoding). *)
Record Utf8Error : Set := mkUtf8Error { valid_up_to : nat; error_len : option nat }.

(** [start]: where the current encoding begins; [pos]: the next byte. *)
Fixpoint utf8_check (st : utf8_state) (start pos : nat) (s : string) : option Utf8Error :=
  match s with
  | EmptyString => match st with Boundary => None | Inside _ _ _ => Some (mkUtf8Error start None) end
  | String a s' =>
      match st with
      | Boundary =>
          if (byte_val a <? 128)%N then utf8_check Boundary (S pos) (S pos) s'
          else match utf8_second a with
               | Some (ok, more) => utf8_check (Inside (chr a) ok more) pos (S pos) s'
               | None => Some (mkUtf8Error pos (Some 1%nat))
               end
      | Inside pre ok more =>
          if ok a then
            match more with
            | O => utf8_check Boundary (S pos) (S pos) s'
            | S more => utf8_check (Inside (pre +:+ chr a) (in_range 128 191) more) start (S pos) s'
            end
          else Some (mkUtf8Error start (Some (pos - start)%nat))
      end
  end.
Definition from_utf8 (raw : string) : result Utf8Error string :=
  match utf8_check Boundary 0 0 raw with None => Ok raw | Some e => Err e end.
Definition show_utf8_error (e : Utf8Error) : string :=
  match error_len e with
  | Some n => "invalid utf-8 sequence of " +:+ show_nat n +:+ " bytes from index "
              +:+ show_nat (valid_up_to e)
  | None => "incomplete utf-8 byte sequence from index " +:+ show_nat (valid_up_to e)
  end.

(** [char::from_u32]: no surrogates, at most U+10FFFF; and the encoding that
    [String::push] appends. *)
Definition utf8_encode (n : N) : char :=
  if (n <? 128)%N then chr (ascii_of_N n)
  else if (n <? 2048)%N then
    String (ascii_of_N (192 + n / 64)) (chr (ascii_of_N (128 + n mod 64)))
  else if (n <? 65536)%N then
    String (ascii_of_N (224 + n / 4096)) (String (ascii_of_N (128 + n / 64 mod 64))
      (chr (ascii_of_N (128 + n mod 64))))
  else
    String (ascii_of_N (240 + n / 262144)) (String (ascii_of_N (128 + n / 4096 mod 64))
      (String (ascii_of_N (128 + n / 64 mod 64)) (chr (ascii_of_N (128 + n mod 64))))).
Definition char_from_u32 (n : N) : option char :=
  if (n <? 55296)%N || (57343 <? n)%N && (n <? 1114112)%N then Some (utf8_encode n) else None.

(** ** Well-formed text *)

Definition utf8 (s : string) : Prop := ∃ t, from_utf8 s = Ok t.

Definition continuation : ascii → bool := in_range 128 191.

(** The encoding of one scalar value. *)
Inductive scalar : char → Prop :=
| scalar_1 a : (byte_val a < 128)%N → scalar (chr a)
| scalar_2 a ok b : utf8_second a = Some (ok, 0%nat) → ok b = true → scalar (String a (chr b))
| scalar_3 a ok b c :
    utf8_second a = Some (ok, 1%nat) → ok b = true → continuation c = true →
    scalar (String a (String b (chr c)))
| scalar_4 a ok b c d :
    utf8_second a = Some (ok, 2%nat) → ok b = true → continuation c = true →
    continuation d = true → scalar (String a (String b (String c (chr d)))).
#[export] Hint Constructors scalar : core.

(** Whether the check succeeds does not depend on where the text stands. *)
Lemma utf8_check_shift st p1 p2 q1 q2 s :
  utf8_check st p1 p2 s = None → utf8_check st q1 q2 s = None.
Proof.
  revert st p1 p2 q1 q2. induction s as [|a s IH]; intros st p1 p2 q1 q2; cbn [utf8_check].
  { by destruct st. }
  destruct st as [|pre ok more].
  - destruct (byte_val a <? 128)%N; [apply IH|]. destruct (utf8_second a) as [[ok more]|]; [apply IH|done].
  - destruct (ok a); [|done]. destruct more; apply IH.
Qed.

Lemma utf8_spec s : utf8 s ↔ ∀ p q, utf8_check Boundary p q s = None.
Proof.
  unfold utf8, from_utf8. split.
  - intros [t H] p q. destruct (utf8_check _ _ _ _) eqn:E; [done|]. by eapply utf8_check_shift.
  - intros H. rewrite H. eauto.
Qed.
Lemma utf8_intro s p q : utf8_check Boundary p q s = None → utf8 s.
Proof. intros H. apply utf8_spec. intros. by eapply utf8_check_shift. Qed.

Lemma from_utf8_ok s : utf8 s → from_utf8 s = Ok s.
Proof. unfold utf8, from_utf8. destruct (utf8_check _ _ _ _); [by intros [? [=]]|done]. Qed.

(** Facts about one byte: there are 256. *)
Ltac every_byte a := destruct a as [[] [] [] [] [] [] [] []]; vm_compute; first [exact I | congruence].

Lemma utf8_second_lead a x : utf8_second a = Some x → (byte_val a <? 128)%N = false.
Proof.
  intros H. assert (is_Some (utf8_second a)) as H2 by eauto. clear H. revert H2.
  destruct (byte_val a <? 128)%N eqn:E; [|done]. intros [y H]. exfalso. revert E H.
  assert (Hn : (byte_val a <? 128)%N = true → utf8_second a = None) by every_byte a.
  intros E. by rewrite Hn.
Qed.

(** Reading one scalar value. *)
Lemma utf8_app c s : scalar c → utf8 (c +:+ s) ↔ utf8 s.
Proof.
  intros Hc. rewrite !utf8_spec.
  assert (Hn : ∀ p q, ∃ p' q', utf8_check Boundary p q (c +:+ s) = utf8_check Boundary p' q' s).
  { intros p q. destruct Hc as [a Ha|a ok b Ha Hb|a ok b d Ha Hb Hd|a ok b d e Ha Hb Hd He];
      cbn [String.append chr utf8_check].
    - rewrite (proj2 (N.ltb_lt _ _) Ha). eauto.
    - rewrite (utf8_second_lead _ _ Ha), Ha, Hb. eauto.
    - unfold continuation in Hd. rewrite (utf8_second_lead _ _ Ha), Ha, Hb, Hd. eauto.
    - unfold continuation in Hd, He. rewrite (utf8_second_lead _ _ Ha), Ha, Hb, Hd, He. eauto. }
  split.
  - intros H p q. destruct (Hn 0%nat 0%nat) as (p' & q' & E). specialize (H 0%nat 0%nat). rewrite E in H.
    by eapply utf8_check_shift.
  - intros H p q. destruct (Hn p q) as (p' & q' & ->). apply H.
Qed.

Lemma utf8_second_more a ok more : utf8_second a = Some (ok, more) → (more ≤ 2)%nat.
Proof. unfold utf8_second. repeat case_match; intros [= <- <-]; lia. Qed.

Lemma utf8_cases s : utf8 s → s = "" ∨ ∃ c t, scalar c ∧ s = c +:+ t ∧ utf8 t.
Proof.
  intros H. destruct s as [|a s]; [by left|right]. rewrite utf8_spec in H.
  specialize (H 0%nat 0%nat). cbn [utf8_check] in H.
  destruct (byte_val a <? 128)%N eqn:Ha.
  { apply N.ltb_lt in Ha. exists (chr a), s. split_and!; [by constructor|done|by eapply utf8_intro]. }
  destruct (utf8_second a) as [[ok more]|] eqn:E; [|done].
  destruct s as [|b s]; cbn [utf8_check] in H; [done|]. destruct (ok b) eqn:Hb; [|done].
  pose proof (utf8_second_more _ _ _ E) as Hm. destruct more as [|[|[|more]]]; [..|lia].
  - exists (String a (chr b)), s. split_and!; [by econstructor|done|by eapply utf8_intro].
  - destruct s as [|c s]; cbn [utf8_check] in H; [done|].
    destruct (in_range 128 191 c) eqn:Hc; [|done].
    exists (String a (String b (chr c))), s. split_and!; [by econstructor|done|by eapply utf8_intro].
  - destruct s as [|c s]; cbn [utf8_check] in H; [done|].
    destruct (in_range 128 191 c) eqn:Hc; [|done].
    destruct s as [|d s]; cbn [utf8_check] in H; [done|].
    destruct (in_range 128 191 d) eqn:Hd; [|done].
    exists (String a (String b (String c (chr d)))), s. split_and!; [by econstructor|done|by eapply utf8_intro].
Qed.

Lemma scalar_len c : scalar c → match c with String a _ => utf8_len a = String.length c | _ => False end.
Proof.
  assert (L : ∀ a, match utf8_second a with Some (_, k) => utf8_len a = S (S k) | None => True end)
    by (intros a; every_byte a).
  assert (L' : ∀ a ok k, utf8_second a = Some (ok, k) → utf8_len a = S (S k)).
  { intros a ok k H. specialize (L a). by rewrite H in L. }
  intros [a Ha|a ok b Ha Hb|a ok b d Ha Hb Hd|a ok b d e Ha Hb Hd He]; cbn.
  - apply utf8_len_ascii. lia.
  - by eapply L'.
  - by eapply L'.
  - by eapply L'.
Qed.

(** [chars] gives the scalar values. *)
Lemma chars_scalar c s : scalar c → chars (c +:+ s) = c :: chars s.
Proof.
  intros Hc. pose proof (scalar_len c Hc) as Hl.
  destruct Hc; cbn [String.append chr chars String.length] in *; by rewrite Hl.
Qed.

(** Bytes that only ASCII text has: they stand for themselves. *)
Lemma scalar_ascii a t : scalar (String a t) → (byte_val a < 128)%N → t = "".
Proof. intros Hc Ha. inversion Hc; subst; [done|..]; by apply N.ltb_lt in Ha; erewrite utf8_second_lead in Ha. Qed.

Lemma utf8_cons a s : (byte_val a < 128)%N → utf8 (String a s) ↔ utf8 s.
Proof. intros Ha. apply (utf8_app (chr a)). by constructor. Qed.

Lemma utf8_string (p s : string) : all_bytes (λ a, byte_val a <? 128)%N p = true → utf8 (p +:+ s) ↔ utf8 s.
Proof.
  induction p as [|a p IH]; [done|]. cbn [all_bytes String.append].
  intros [Ha Hp]%andb_true_iff. apply N.ltb_lt in Ha. rewrite utf8_cons by done. by apply IH.
Qed.

(** What [char::from_u32] gives is a scalar value. *)
Lemma tail_byte k lo hi :
  (128 ≤ lo)%N → (hi ≤ 191)%N → (lo ≤ 128 + k ≤ hi)%N → in_range lo hi (ascii_of_N (128 + k)) = true.
Proof. intros. apply in_range_spec. rewrite byte_val_ascii_of_N; lia. Qed.

Ltac each_value k := destruct k as [|k]; [|repeat (destruct k as [k|k|]; try lia)].

Lemma encode_2 q r :
  (2 ≤ q < 32)%N → (r < 64)%N → scalar (String (ascii_of_N (192 + q)) (chr (ascii_of_N (128 + r)))).
Proof.
  intros Hq Hr. eapply scalar_2 with (ok := in_range 128 191); [|apply tail_byte; lia].
  unfold utf8_second. by rewrite (proj2 (in_range_spec 194 223 _)) by (rewrite byte_val_ascii_of_N; lia).
Qed.

Lemma encode_3 k m r :
  (k < 16)%N → (m < 64)%N → (r < 64)%N → (k = 0 → 32 ≤ m)%N → (k = 13 → m < 32)%N →
  scalar (String (ascii_of_N (224 + k)) (String (ascii_of_N (128 + m)) (chr (ascii_of_N (128 + r))))).
Proof.
  intros Hk Hm Hr H0 H13. each_value k;
    (eapply scalar_3; [reflexivity|apply tail_byte; lia|apply tail_byte; lia]).
Qed.

Lemma encode_4 k m1 m2 r :
  (k < 5)%N → (m1 < 64)%N → (m2 < 64)%N → (r < 64)%N → (k = 0 → 16 ≤ m1)%N → (k = 4 → m1 < 16)%N →
  scalar (String (ascii_of_N (240 + k)) (String (ascii_of_N (128 + m1))
            (String (ascii_of_N (128 + m2)) (chr (ascii_of_N (128 + r)))))).
Proof.
  intros Hk Hm1 Hm2 Hr H0 H4. each_value k;
    (eapply scalar_4; [reflexivity|apply tail_byte; lia|apply tail_byte; lia|apply tail_byte; lia]).
Qed.

Lemma char_from_u32_scalar n c : char_from_u32 n = Some c → scalar c.
Proof.
  unfold char_from_u32. destruct (_ || _) eqn:Hn; [|done]. intros [= <-].
  rewrite orb_true_iff, andb_true_iff, !N.ltb_lt in Hn. unfold utf8_encode.
  assert (Hm : ∀ k, (k mod 64 < 64)%N) by (intros; by apply N.mod_lt).
  assert (Hd : ∀ k, k = (64 * (k / 64) + k mod 64)%N) by (intros; by apply N.div_mod).
  pose proof (Hd n) as D1. pose proof (Hm n) as M1.
  pose proof (Hd (n / 64)%N) as D2. pose proof (Hm (n / 64)%N) as M2.
  pose proof (Hd (n / 64 / 64)%N) as D3. pose proof (Hm (n / 64 / 64)%N) as M3.
  replace (n / 4096)%N with (n / 64 / 64)%N by (rewrite N.Div0.div_div; done).
  replace (n / 262144)%N with (n / 64 / 64 / 64)%N by (rewrite !N.Div0.div_div; done).
  set (q1 := (n / 64)%N) in *. set (q2 := (q1 / 64)%N) in *. set (q3 := (q2 / 64)%N) in *.
  set (r1 := (n mod 64)%N) in *. set (r2 := (q1 mod 64)%N) in *. set (r3 := (q2 mod 64)%N) in *.
  clearbody q3 r3 r2 q2 r1 q1. clear Hd Hm.
  destruct (N.ltb_spec n 128); [constructor; rewrite byte_val_ascii_of_N; lia|].
  destruct (N.ltb_spec n 2048); [apply encode_2; lia|].
  destruct (N.ltb_spec n 65536); [apply encode_3; lia|apply encode_4; lia].
Qed.
