(* ===== verification/MiniJson.v ===== *)
(** * The JSON reader of hbird switch-to-ghcr

    [minijson] in crates/hbird-cli/src/commands/switch_to_ghcr.rs, a recursive
    descent parser over a cursor, and [parse_booted_image].  A cursor is the text
    that is left; a parser gives its value and the rest.  [value] counts the
    levels that are left, [MAX_DEPTH + 1 - depth]; the loops over items and over
    characters have the length of the text as fuel, and each round consumes at
    least one byte ([MiniJsonFacts.v]). *)

From S2P Require Import Prelude RustStr Utf8.

Module minijson.

Definition MAX_DEPTH : nat := 64.

Unset Elimination Schemes.
Inductive Value : Set :=
| Null
| Bool (b : bool)
| Number (text : string)
| Str (s : string)
| Array (items : list Value)
| Object (entries : list (string * Value)).
Set Elimination Schemes.

Definition get (v : Value) (key : string) : option Value :=
  match v with
  | Object entries => snd <$> List.find (λ kv, bool_decide (kv.1 = key)) entries
  | _ => None
  end.
Definition as_str (v : Value) : option string := match v with Str s => Some s | _ => None end.

(** ** Tokens *)

Definition is_ws (a : ascii) : bool :=
  Ascii.eqb a " " || (byte_val a =? 9)%N || Ascii.eqb a nl || Ascii.eqb a cr.

Fixpoint skip_ws (s : string) : string :=
  match s with
  | String a s' => if is_ws a then skip_ws s' else s
  | EmptyString => s
  end.

Definition eat (expected : ascii) (s : string) : option string :=
  match s with
  | String a s' => if Ascii.eqb a expected then Some s' else None
  | EmptyString => None
  end.

Definition keyword (word : string) (v : Value) (s : string) : option (Value * string) :=
  s ← strip_prefix word s; Some (v, s).

(** The bytes in front that satisfy [f], and the rest. *)
Fixpoint span (f : ascii → bool) (s : string) : string * string :=
  match s with
  | EmptyString => (EmptyString, EmptyString)
  | String a s' => if f a then let '(l, r) := span f s' in (String a l, r) else (EmptyString, s)
  end.

(** At least one digit. *)
Definition digits (s : string) : option (string * string) :=
  let '(ds, s) := span is_ascii_digit s in if is_empty ds then None else Some (ds, s).

Definition number (s : string) : option (string * string) :=
  let '(sign, s) := match eat "-" s with Some s => ("-", s) | None => ("", s) end in
  '(int, s) ← digits s;
  '(frac, s) ← match eat "." s with
               | Some s => '(ds, s) ← digits s; Some ("." +:+ ds, s)
               | None => Some ("", s)
               end;
  '(exp, s) ← match s with
              | String e s' =>
                  if Ascii.eqb e "e" || Ascii.eqb e "E" then
                    let '(sign, s') := match s' with
                                       | String a s'' => if Ascii.eqb a "+" || Ascii.eqb a "-"
                                                         then (chr a, s'') else ("", s')
                                       | EmptyString => ("", s')
                                       end in
                    '(ds, s') ← digits s'; Some (String e (sign +:+ ds), s')
                  else Some ("", s)
              | EmptyString => Some ("", s)
              end;
  Some (sign +:+ int +:+ frac +:+ exp, s).

(** ** Strings *)

Definition hex_value (a : ascii) : option N :=
  if is_ascii_digit a then Some (byte_val a - 48)%N
  else if in_range 97 102 a then Some (byte_val a - 87)%N
  else if in_range 65 70 a then Some (byte_val a - 55)%N
  else None.
Fixpoint hex_digits (acc : N) (s : string) : option N :=
  match s with
  | EmptyString => Some acc
  | String a s' => d ← hex_value a; hex_digits (16 * acc + d) s'
  end.
(** [u32::from_str_radix(s, 16)] of at most four bytes: a sign is allowed. *)
Definition from_str_radix_16 (s : string) : option N :=
  match s with
  | EmptyString => None
  | String a s' =>
      if Ascii.eqb a "+" then if is_empty s' then None else hex_digits 0 s' else hex_digits 0 s
  end.

Definition hex4 (s : string) : option (N * string) :=
  if (String.length s <? 4)%nat then None
  else n ← from_str_radix_16 (str_take 4 s); Some (n, str_drop 4 s).

Definition is_high_surrogate (n : N) : bool := (55296 <=? n)%N && (n <=? 56319)%N.
Definition is_low_surrogate (n : N) : bool := (56320 <=? n)%N && (n <=? 57343)%N.

Definition unicode_escape (s : string) : option (char * string) :=
  '(first, s) ← hex4 s;
  if is_high_surrogate first then
    s ← eat backslash s;
    s ← eat "u" s;
    '(second, s) ← hex4 s;
    if is_low_surrogate second then
      c ← char_from_u32 (65536 + (first - 55296) * 1024 + (second - 56320));
      Some (c, s)
    else None
  else c ← char_from_u32 first; Some (c, s).

Definition simple_escape (e : ascii) : option char :=
  if Ascii.eqb e dquote || Ascii.eqb e backslash || Ascii.eqb e "/" then Some (chr e)
  else if Ascii.eqb e "b" then Some (chr "008")
  else if Ascii.eqb e "f" then Some (chr "012")
  else if Ascii.eqb e "n" then Some NL
  else if Ascii.eqb e "r" then Some (chr cr)
  else if Ascii.eqb e "t" then Some (chr "009")
  else None.

(** The text after the opening quote, up to the closing one. *)
Fixpoint string_go (fuel : nat) (s : string) : option (string * string) :=
  match fuel with
  | O => None
  | S fuel =>
      match s with
      | EmptyString => None
      | String a s' =>
          if Ascii.eqb a dquote then Some ("", s')
          else if Ascii.eqb a backslash then
            match s' with
            | EmptyString => None
            | String e s'' =>
                '(c, s) ← (if Ascii.eqb e "u" then unicode_escape s''
                           else c ← simple_escape e; Some (c, s''));
                '(out, s) ← string_go fuel s;
                Some (c +:+ out, s)
            end
          else if (byte_val a <? 32)%N then None
          else
            match from_utf8 s with
            | Err _ => None
            | Ok rest =>
                ch ← head (chars rest);
                '(out, s) ← string_go fuel (str_drop (String.length ch) s);
                Some (ch +:+ out, s)
            end
      end
  end.
Definition string_ (s : string) : option (string * string) :=
  s ← eat dquote s; string_go (S (String.length s)) s.

(** ** Values *)

Section containers.
Context (value : string → option (Value * string)).

Fixpoint array_go (fuel : nat) (s : string) : option (list Value * string) :=
  match fuel with
  | O => None
  | S fuel =>
      '(v, s) ← value s;
      let s := skip_ws s in
      match eat "," s with
      | Some s => '(vs, s) ← array_go fuel s; Some (v :: vs, s)
      | None => s ← eat "]" s; Some ([v], s)
      end
  end.
Definition array (s : string) : option (Value * string) :=
  s ← eat "[" s;
  let s := skip_ws s in
  match eat "]" s with
  | Some s => Some (Array [], s)
  | None => '(vs, s) ← array_go (S (String.length s)) s; Some (Array vs, s)
  end.

Fixpoint object_go (fuel : nat) (s : string) : option (list (string * Value) * string) :=
  match fuel with
  | O => None
  | S fuel =>
      '(key, s) ← string_ (skip_ws s);
      s ← eat ":" (skip_ws s);
      '(v, s) ← value s;
      let s := skip_ws s in
      match eat "," s with
      | Some s => '(kvs, s) ← object_go fuel s; Some ((key, v) :: kvs, s)
      | None => s ← eat "}" s; Some ([(key, v)], s)
      end
  end.
Definition object (s : string) : option (Value * string) :=
  s ← eat "{" s;
  let s := skip_ws s in
  match eat "}" s with
  | Some s => Some (Object [], s)
  | None => '(kvs, s) ← object_go (S (String.length s)) s; Some (Object kvs, s)
  end.
End containers.

(** [value(depth)], with [levels = MAX_DEPTH + 1 - depth]. *)
Fixpoint value (levels : nat) (s : string) : option (Value * string) :=
  match levels with
  | O => None
  | S levels =>
      let s := skip_ws s in
      match s with
      | EmptyString => None
      | String a _ =>
          if Ascii.eqb a "n" then keyword "null" Null s
          else if Ascii.eqb a "t" then keyword "true" (Bool true) s
          else if Ascii.eqb a "f" then keyword "false" (Bool false) s
          else if Ascii.eqb a dquote then '(t, s) ← string_ s; Some (Str t, s)
          else if Ascii.eqb a "[" then array (value levels) s
          else if Ascii.eqb a "{" then object (value levels) s
          else if Ascii.eqb a "-" || is_ascii_digit a then '(t, s) ← number s; Some (Number t, s)
          else None
      end
  end.

Definition parse (input : string) : option Value :=
  '(v, s) ← value (S MAX_DEPTH) input;
  if is_empty (skip_ws s) then Some v else None.

End minijson.

Definition parse_booted_image (raw : string) : option string :=
  root ← minijson.parse (trim raw);
  v ← minijson.get root "status";
  v ← minijson.get v "booted";
  v ← minijson.get v "image";
  v ← minijson.get v "image";
  v ← minijson.get v "image";
  image ← minijson.as_str v;
  if is_empty image then None else Some image.
