(* ===== verification/MiniJsonFacts.v ===== *)
(** * The JSON reader against the grammar of JSON

    [json_text] is the grammar of RFC 8259 as the reader has it: a number may
    have leading zeros, and the four digits of an escape may begin with a sign.
    The reader accepts exactly the documents of this grammar that are nested at
    most [MAX_DEPTH] levels deep. *)

From S2P Require Import Prelude RustStr Utf8 MiniJson.
Import minijson.

(** ** The grammar *)

Definition white (s : string) : Prop := all_bytes is_ws s = true.
Definition digit_text (s : string) : Prop := s ≠ "" ∧ all_bytes is_ascii_digit s = true.

Inductive frac_text : string → Prop :=
| no_frac : frac_text ""
| a_frac ds : digit_text ds → frac_text ("." +:+ ds).
Inductive exp_text : string → Prop :=
| no_exp : exp_text ""
| an_exp e sign ds :
    e ∈ ["e"; "E"]%char → sign ∈ [""; "+"; "-"] → digit_text ds → exp_text (String e (sign +:+ ds)).
Inductive number_text : string → Prop :=
| a_number sign int frac exp :
    sign ∈ [""; "-"] → digit_text int → frac_text frac → exp_text exp →
    number_text (sign +:+ int +:+ frac +:+ exp).

(** Four hexadecimal digits, or a plus sign and three. *)
Inductive hex_text : string → N → Prop :=
| hex_quad a b c d va vb vc vd :
    hex_value a = Some va → hex_value b = Some vb → hex_value c = Some vc → hex_value d = Some vd →
    hex_text (String a (String b (String c (chr d)))) (16 * (16 * (16 * va + vb) + vc) + vd)
| hex_signed b c d vb vc vd :
    hex_value b = Some vb → hex_value c = Some vc → hex_value d = Some vd →
    hex_text (String "+" (String b (String c (chr d)))) (16 * (16 * vb + vc) + vd).

Definition plain (c : char) : Prop :=
  match c with
  | String a _ => a ≠ dquote ∧ a ≠ backslash ∧ (32 ≤ byte_val a)%N
  | EmptyString => False
  end.

Definition U_ESC : string := String backslash "u".

(** What stands between the quotes, and the text it means. *)
Inductive string_text : string → string → Prop :=
| string_end : string_text "" ""
| string_char c s t : scalar c → plain c → string_text s t → string_text (c +:+ s) (c +:+ t)
| string_escape e c s t :
    simple_escape e = Some c → string_text s t →
    string_text (String backslash (String e s)) (c +:+ t)
| string_unicode q n c s t :
    hex_text q n → is_high_surrogate n = false → char_from_u32 n = Some c → string_text s t →
    string_text (U_ESC +:+ q +:+ s) (c +:+ t)
| string_surrogates q1 q2 hi lo c s t :
    hex_text q1 hi → hex_text q2 lo → is_high_surrogate hi = true → is_low_surrogate lo = true →
    char_from_u32 (65536 + (hi - 55296) * 1024 + (lo - 56320)) = Some c → string_text s t →
    string_text (U_ESC +:+ q1 +:+ U_ESC +:+ q2 +:+ s) (c +:+ t).

Inductive json_text : string → Value → Prop :=
| json_null : json_text "null" Null
| json_true : json_text "true" (Bool true)
| json_false : json_text "false" (Bool false)
| json_number n : number_text n → json_text n (Number n)
| json_string s t : string_text s t → json_text (DQ +:+ s +:+ DQ) (Str t)
| json_no_items w : white w → json_text ("[" +:+ w +:+ "]") (Array [])
| json_array s vs : items_text s vs → json_text ("[" +:+ s +:+ "]") (Array vs)
| json_no_members w : white w → json_text ("{" +:+ w +:+ "}") (Object [])
| json_object s kvs : members_text s kvs → json_text ("{" +:+ s +:+ "}") (Object kvs)
with items_text : string → list Value → Prop :=
| items_last w1 s w2 v :
    white w1 → json_text s v → white w2 → items_text (w1 +:+ s +:+ w2) [v]
| items_more w1 s w2 v ss vs :
    white w1 → json_text s v → white w2 → items_text ss vs →
    items_text (w1 +:+ s +:+ w2 +:+ "," +:+ ss) (v :: vs)
with members_text : string → list (string * Value) → Prop :=
| members_last w1 k key w2 w3 s w4 v :
    white w1 → string_text k key → white w2 → white w3 → json_text s v → white w4 →
    members_text (w1 +:+ DQ +:+ k +:+ DQ +:+ w2 +:+ ":" +:+ w3 +:+ s +:+ w4) [(key, v)]
| members_more w1 k key w2 w3 s w4 v ss kvs :
    white w1 → string_text k key → white w2 → white w3 → json_text s v → white w4 →
    members_text ss kvs →
    members_text (w1 +:+ DQ +:+ k +:+ DQ +:+ w2 +:+ ":" +:+ w3 +:+ s +:+ w4 +:+ "," +:+ ss)
      ((key, v) :: kvs).
Scheme json_text_mut := Minimality for json_text Sort Prop
  with items_text_mut := Minimality for items_text Sort Prop
  with members_text_mut := Minimality for members_text Sort Prop.
Combined Scheme json_texts_ind from json_text_mut, items_text_mut, members_text_mut.

(** How many containers a value is inside of, at most. *)
Fixpoint nesting (v : Value) : nat :=
  match v with
  | Array vs => foldr (λ v n, S (nesting v) `max` n) 0 vs
  | Object kvs => foldr (λ kv n, S (nesting kv.2) `max` n) 0 kvs
  | _ => 0
  end%nat.

Lemma nesting_array vs l : (nesting (Array vs) < S l)%nat ↔ Forall (λ v, nesting v < l)%nat vs.
Proof.
  induction vs as [|v vs IH]; [split; [done|cbn; lia]|]. rewrite Forall_cons, <-IH. cbn [nesting foldr]. lia.
Qed.
Lemma nesting_object kvs l : (nesting (Object kvs) < S l)%nat ↔ Forall (λ kv, nesting kv.2 < l)%nat kvs.
Proof.
  induction kvs as [|v vs IH]; [split; [done|cbn; lia]|]. rewrite Forall_cons, <-IH. cbn [nesting foldr]. lia.
Qed.

(** ** Tokens *)

Definition stops (f : ascii → bool) (s : string) : Prop :=
  match s with String a _ => f a = false | EmptyString => True end.

Lemma skip_ws_app w s : white w → stops is_ws s → skip_ws (w +:+ s) = s.
Proof.
  intros Hw Hs. unfold white in Hw. induction w as [|a w IH]; cbn [String.append].
  - destruct s as [|a s]; [done|]. cbn [skip_ws]. by rewrite Hs.
  - cbn [all_bytes] in Hw. apply andb_true_iff in Hw as [Ha Hw]. cbn [skip_ws]. rewrite Ha. by apply IH.
Qed.
Lemma skip_ws_spec s : ∃ w, s = w +:+ skip_ws s ∧ white w ∧ stops is_ws (skip_ws s).
Proof.
  induction s as [|a s (w & Hs & Hw & Hst)]; [by exists ""|]. cbn [skip_ws].
  destruct (is_ws a) eqn:Ha; [|by exists ""].
  exists (String a w). split; [by cbn; f_equal|]. split; [|done]. unfold white. cbn. by rewrite Ha.
Qed.

Lemma white_app w1 w2 : white w1 → white w2 → white (w1 +:+ w2).
Proof. unfold white. rewrite all_bytes_app. by intros -> ->. Qed.
Lemma skip_ws_length s : (String.length (skip_ws s) ≤ String.length s)%nat.
Proof. induction s as [|a s IH]; cbn [skip_ws]; [done|]. destruct (is_ws a); cbn [String.length] in *; lia. Qed.

Lemma eat_Some c s t : eat c s = Some t ↔ s = String c t.
Proof.
  destruct s as [|a s]; [done|]. cbn. destruct (Ascii.eqb_spec a c) as [->|Hne]; [split; congruence|].
  split; [done|congruence].
Qed.
Lemma eat_refl c s : eat c (String c s) = Some s.
Proof. by apply eat_Some. Qed.

Lemma span_app f ds s : all_bytes f ds = true → stops f s → span f (ds +:+ s) = (ds, s).
Proof.
  intros Hd Hs. induction ds as [|a ds IH]; cbn [String.append].
  - destruct s as [|a s]; [done|]. cbn [span]. by rewrite Hs.
  - cbn [all_bytes] in Hd. apply andb_true_iff in Hd as [Ha Hd]. cbn [span]. by rewrite Ha, IH.
Qed.
Lemma span_spec f s ds t : span f s = (ds, t) → s = ds +:+ t ∧ all_bytes f ds = true.
Proof.
  revert ds t. induction s as [|a s IH]; intros ds t; cbn [span]; [by intros [= <- <-]|].
  destruct (f a) eqn:Ha; [|by intros [= <- <-]]. destruct (span f s) as [l r] eqn:E.
  intros [= <- <-]. destruct (IH _ _ eq_refl) as [-> Hl]. split; [done|]. cbn. by rewrite Ha, Hl.
Qed.

Lemma digits_app ds s : digit_text ds → stops is_ascii_digit s → digits (ds +:+ s) = Some (ds, s).
Proof. intros [Hne Hd] Hs. unfold digits. rewrite span_app by done. by destruct ds. Qed.
Lemma digits_spec s ds t : digits s = Some (ds, t) → s = ds +:+ t ∧ digit_text ds.
Proof.
  unfold digits. destruct (span _ s) as [l r] eqn:E. apply span_spec in E as [-> Hl].
  destruct l; [done|]. by intros [= <- <-].
Qed.

(** *** Numbers *)

(** What may follow a value. *)
Definition closes (a : ascii) : bool := is_ws a || Ascii.eqb a "," || Ascii.eqb a "]" || Ascii.eqb a "}".
Definition ends (s : string) : Prop := stops (λ a, negb (closes a)) s.

Definition in_number (a : ascii) : bool :=
  is_ascii_digit a || Ascii.eqb a "." || Ascii.eqb a "e" || Ascii.eqb a "E".

Lemma closes_not_number a : closes a = true → in_number a = false.
Proof. every_byte a. Qed.
Lemma ends_number s : ends s → stops in_number s.
Proof. destruct s as [|a s]; [done|]. cbn. intros H. apply closes_not_number. by destruct (closes a). Qed.
Lemma stops_impl f g s : (∀ a, g a = true → f a = true) → stops f s → stops g s.
Proof.
  destruct s as [|a s]; [done|]. cbn. intros Hfg Hf. specialize (Hfg a). destruct (g a); [|done].
  by rewrite Hfg in Hf.
Qed.
Lemma digit_not_sign a : is_ascii_digit a = true → Ascii.eqb a "+" = false ∧ Ascii.eqb a "-" = false.
Proof. assert (is_ascii_digit a = true → Ascii.eqb a "+" || Ascii.eqb a "-" = false) by every_byte a.
  intros Ha. by apply orb_false_iff, H. Qed.

Lemma digit_text_cons ds : digit_text ds → ∃ a l, ds = String a l ∧ is_ascii_digit a = true.
Proof.
  intros [Hne Hd]. destruct ds as [|a l]; [done|]. cbn in Hd. apply andb_true_iff in Hd as [Ha _]. eauto.
Qed.

Lemma sign_app sign a s :
  sign ∈ [""; "-"] → is_ascii_digit a = true →
  match eat "-" (sign +:+ String a s) with
  | Some s => ("-", s)
  | None => ("", sign +:+ String a s)
  end = (sign, String a s).
Proof.
  intros Hsign [_ Hm]%digit_not_sign. rewrite !elem_of_cons, elem_of_nil in Hsign.
  destruct Hsign as [->|[->|[]]]; cbn [String.append]; [|by rewrite eat_refl]. cbn [eat]. by rewrite Hm.
Qed.

Lemma stops_digit s : stops in_number s → stops is_ascii_digit s.
Proof. apply stops_impl. intros a Ha. unfold in_number. by rewrite Ha. Qed.

Lemma exp_app exp s :
  exp_text exp → stops in_number s →
  (match exp +:+ s with
   | String e s' =>
       if Ascii.eqb e "e" || Ascii.eqb e "E" then
         let '(sign, s') := match s' with
                            | String a s'' => if Ascii.eqb a "+" || Ascii.eqb a "-"
                                              then (chr a, s'') else ("", s')
                            | EmptyString => ("", s')
                            end in
         '(ds, s') ← digits s'; Some (String e (sign +:+ ds), s')
       else Some ("", exp +:+ s)
   | EmptyString => Some ("", exp +:+ s)
   end) = Some (exp, s).
Proof.
  intros [|e sign ds He Hsign Hds] Hs; cbn [String.append].
  - destruct s as [|a s]; [done|]. cbn in Hs. unfold in_number in Hs.
    rewrite !orb_false_iff in Hs. destruct Hs as [[[_ _] He] HE]. by rewrite He, HE.
  - assert (Ascii.eqb e "e" || Ascii.eqb e "E" = true) as ->.
    { rewrite !elem_of_cons, elem_of_nil in He. by destruct He as [->|[->|[]]]. }
    destruct (digit_text_cons _ Hds) as (a & l & -> & [Hp Hm]%digit_not_sign).
    rewrite !elem_of_cons, elem_of_nil in Hsign. rewrite <-app_assoc_s.
    destruct Hsign as [->|[->|[->|[]]]]; cbn [String.append].
    + rewrite Hp, Hm. cbn [orb]. change (String a (l +:+ s)) with (String a l +:+ s).
      rewrite digits_app by (done || by apply stops_digit). done.
    + cbn [Ascii.eqb Bool.eqb orb]. change (String a (l +:+ s)) with (String a l +:+ s).
      rewrite digits_app by (done || by apply stops_digit). done.
    + cbn [Ascii.eqb Bool.eqb orb]. change (String a (l +:+ s)) with (String a l +:+ s).
      rewrite digits_app by (done || by apply stops_digit). done.
Qed.

Lemma frac_app frac s :
  frac_text frac → stops (λ a, is_ascii_digit a || Ascii.eqb a ".") s →
  (match eat "." (frac +:+ s) with
   | Some s => '(ds, s) ← digits s; Some ("." +:+ ds, s)
   | None => Some ("", frac +:+ s)
   end) = Some (frac, s).
Proof.
  intros [|ds Hds] Hs.
  - cbn [String.append]. destruct s as [|a s]; [done|]. cbn in Hs. apply orb_false_iff in Hs as [_ Hs].
    cbn [eat]. by rewrite Hs.
  - rewrite <-app_assoc_s. cbn [String.append]. rewrite eat_refl.
    rewrite digits_app; [done|done|]. eapply stops_impl; [|exact Hs]. intros a Ha. cbn. by rewrite Ha.
Qed.

Lemma exp_stops exp s :
  exp_text exp → stops in_number s → stops (λ a, is_ascii_digit a || Ascii.eqb a ".") (exp +:+ s).
Proof.
  intros [|e sign ds He _ _] Hs; cbn [String.append].
  - eapply stops_impl; [|exact Hs]. intros a Ha. unfold in_number. by rewrite Ha.
  - rewrite !elem_of_cons, elem_of_nil in He. by destruct He as [->|[->|[]]].
Qed.
Lemma frac_stops frac s :
  frac_text frac → stops (λ a, is_ascii_digit a || Ascii.eqb a ".") s → stops is_ascii_digit (frac +:+ s).
Proof.
  intros [|ds _] Hs; cbn [String.append]; [|done].
  eapply stops_impl; [|exact Hs]. intros a Ha. cbn. by rewrite Ha.
Qed.

Lemma number_app n s : number_text n → stops in_number s → number (n +:+ s) = Some (n, s).
Proof.
  intros [sign int frac exp Hsign Hint Hfrac Hexp] Hs.
  destruct (digit_text_cons _ Hint) as (a & l & -> & Ha).
  unfold number. rewrite <-!app_assoc_s.
  change (String a l +:+ frac +:+ exp +:+ s) with (String a (l +:+ frac +:+ exp +:+ s)).
  rewrite sign_app by done. change (String a (l +:+ frac +:+ exp +:+ s)) with (String a l +:+ frac +:+ exp +:+ s).
  pose proof (exp_stops _ _ Hexp Hs) as Hes.
  rewrite digits_app by (done || by apply frac_stops). cbn [mbind option_bind].
  rewrite frac_app by done. cbn [mbind option_bind]. by rewrite exp_app.
Qed.

Lemma number_spec s n t : number s = Some (n, t) → s = n +:+ t ∧ number_text n.
Proof.
  unfold number. intros H.
  destruct (match eat "-" s with Some s => ("-", s) | None => ("", s) end) as [sign s1] eqn:E1.
  assert (s = sign +:+ s1 ∧ sign ∈ [""; "-"]) as [-> Hsign].
  { destruct (eat "-" s) as [u|] eqn:Eu; simplify_eq; [apply eat_Some in Eu as ->|];
      (split; [done|]); set_solver. }
  clear E1. apply bind_Some in H as ([int s2] & [-> Hint]%digits_spec & H).
  apply bind_Some in H as ([frac s3] & E2 & H). apply bind_Some in H as ([exp s4] & E3 & [= <- <-]).
  assert (s2 = frac +:+ s3 ∧ frac_text frac) as [-> Hfrac].
  { destruct (eat "." s2) as [u|] eqn:Eu.
    - apply eat_Some in Eu as ->. apply bind_Some in E2 as ([ds u'] & [-> Hds]%digits_spec & [= <- <-]).
      split; [done|by constructor].
    - simplify_eq. split; [done|constructor]. }
  clear E2. assert (s3 = exp +:+ s4 ∧ exp_text exp) as [-> Hexp].
  { destruct s3 as [|e s']; [simplify_eq; split; [done|constructor]|].
    destruct (Ascii.eqb e "e" || Ascii.eqb e "E") eqn:He; [|simplify_eq; split; [done|constructor]].
    destruct (match s' with String a s'' => if Ascii.eqb a "+" || Ascii.eqb a "-" then _ else _
              | EmptyString => _ end) as [sg s''] eqn:Es.
    apply bind_Some in E3 as ([ds u'] & [-> Hds]%digits_spec & [= <- <-]).
    assert (s' = sg +:+ ds +:+ u' ∧ sg ∈ [""; "+"; "-"]) as [-> Hsg].
    { destruct s' as [|a u]; simplify_eq; [set_solver|].
      destruct (Ascii.eqb_spec a "+") as [->|]; [simplify_eq; set_solver|].
      destruct (Ascii.eqb_spec a "-") as [->|]; cbn [orb] in Es; simplify_eq; set_solver. }
    split; [cbn; by rewrite <-app_assoc_s|]. constructor; [|done|done].
    apply orb_true_iff in He as [->%Ascii.eqb_eq| ->%Ascii.eqb_eq]; set_solver. }
  split; [by rewrite <-!app_assoc_s|by constructor].
Qed.

(** *** Strings *)

Lemma hex_not_plus a v : hex_value a = Some v → Ascii.eqb a "+" = false.
Proof.
  destruct (Ascii.eqb_spec a "+") as [->|]; [|done]. by vm_compute.
Qed.

Lemma hex4_app q n s : hex_text q n → hex4 (q +:+ s) = Some (n, s).
Proof.
  intros [a b c d va vb vc vd Ha Hb Hc Hd|b c d vb vc vd Hb Hc Hd];
    unfold hex4; cbn [String.append chr String.length Nat.ltb Nat.leb str_take str_drop];
    unfold from_str_radix_16.
  - rewrite (hex_not_plus _ _ Ha). cbn [hex_digits]. rewrite Ha, Hb, Hc, Hd. done.
  - cbn [Ascii.eqb Bool.eqb is_empty hex_digits]. rewrite Hb, Hc, Hd. done.
Qed.

Lemma hex_digits_cons acc a s n :
  hex_digits acc (String a s) = Some n ↔ ∃ d, hex_value a = Some d ∧ hex_digits (16 * acc + d) s = Some n.
Proof. cbn [hex_digits]. by rewrite bind_Some. Qed.

Lemma hex4_spec s n t : hex4 s = Some (n, t) → ∃ q, s = q +:+ t ∧ hex_text q n.
Proof.
  unfold hex4. destruct (_ <? _)%nat eqn:Hl; [done|]. apply Nat.ltb_ge in Hl.
  destruct s as [|a [|b [|c [|d s]]]]; cbn [String.length] in Hl; try lia. clear Hl.
  cbn [str_take str_drop]. unfold from_str_radix_16. intros (n' & Hn & [= <- <-])%bind_Some.
  exists (String a (String b (String c (chr d)))). split; [done|].
  destruct (Ascii.eqb_spec a "+") as [->|Hne].
  - cbn [is_empty] in Hn. rewrite !hex_digits_cons in Hn.
    destruct Hn as (vb & Hb & Hn). rewrite hex_digits_cons in Hn. destruct Hn as (vc & Hc & Hn).
    rewrite hex_digits_cons in Hn. destruct Hn as (vd & Hd & [= <-]). rewrite N.mul_0_r, N.add_0_l.
    by constructor.
  - rewrite !hex_digits_cons in Hn. destruct Hn as (va & Ha & Hn).
    rewrite hex_digits_cons in Hn. destruct Hn as (vb & Hb & Hn).
    rewrite hex_digits_cons in Hn. destruct Hn as (vc & Hc & Hn).
    rewrite hex_digits_cons in Hn. destruct Hn as (vd & Hd & [= <-]). rewrite N.mul_0_r, N.add_0_l.
    by constructor.
Qed.

(** The text of an escape after [\u]. *)
Inductive escape_text : string → char → Prop :=
| escape_one q n c :
    hex_text q n → is_high_surrogate n = false → char_from_u32 n = Some c → escape_text q c
| escape_two q1 q2 hi lo c :
    hex_text q1 hi → hex_text q2 lo → is_high_surrogate hi = true → is_low_surrogate lo = true →
    char_from_u32 (65536 + (hi - 55296) * 1024 + (lo - 56320)) = Some c →
    escape_text (q1 +:+ U_ESC +:+ q2) c.

Lemma unicode_escape_app q c s : escape_text q c → unicode_escape (q +:+ s) = Some (c, s).
Proof.
  intros [q' n c' Hq Hn Hc|q1 q2 hi lo c' H1 H2 Hhi Hlo Hc]; unfold unicode_escape.
  - rewrite (hex4_app _ _ _ Hq). cbn [mbind option_bind]. by rewrite Hn, Hc.
  - rewrite <-!app_assoc_s, (hex4_app _ _ _ H1). cbn [mbind option_bind]. rewrite Hhi.
    unfold U_ESC. cbn [String.append]. rewrite eat_refl. cbn [mbind option_bind]. rewrite eat_refl.
    cbn [mbind option_bind]. rewrite (hex4_app _ _ _ H2). cbn [mbind option_bind]. by rewrite Hlo, Hc.
Qed.

Lemma unicode_escape_spec s c t : unicode_escape s = Some (c, t) → ∃ q, s = q +:+ t ∧ escape_text q c.
Proof.
  unfold unicode_escape. intros ([hi s1] & (q1 & -> & H1)%hex4_spec & H)%bind_Some.
  destruct (is_high_surrogate hi) eqn:Hhi.
  - apply bind_Some in H as (s2 & ->%eat_Some & H). apply bind_Some in H as (s3 & ->%eat_Some & H).
    apply bind_Some in H as ([lo s4] & (q2 & -> & H2)%hex4_spec & H).
    destruct (is_low_surrogate lo) eqn:Hlo; [|done]. apply bind_Some in H as (c' & Hc & [= <- <-]).
    exists (q1 +:+ U_ESC +:+ q2). split; [by rewrite <-!app_assoc_s|by econstructor].
  - apply bind_Some in H as (c' & Hc & [= <- <-]). exists q1. split; [done|by econstructor].
Qed.

Lemma string_escaped q c s t :
  escape_text q c → string_text s t → string_text (U_ESC +:+ q +:+ s) (c +:+ t).
Proof.
  intros [q' n c' Hq Hn Hc|q1 q2 hi lo c' H1 H2 Hhi Hlo Hc] Hs; [by econstructor|].
  rewrite <-!app_assoc_s. by econstructor.
Qed.

(** *** Text that leaves the validity of what follows alone *)

Definition solid_text (t : string) : Prop := ∀ r, utf8 (t +:+ r) ↔ utf8 r.

Lemma solid_nil : solid_text "".
Proof. done. Qed.
Lemma json_solid_app s t : solid_text s → solid_text t → solid_text (s +:+ t).
Proof. intros Hs Ht r. rewrite <-app_assoc_s, (Hs _). apply Ht. Qed.
Lemma solid_scalar c : scalar c → solid_text c.
Proof. intros Hc r. by apply utf8_app. Qed.
Lemma solid_ascii s : all_bytes (λ a, byte_val a <? 128)%N s = true → solid_text s.
Proof. intros Hs r. by apply utf8_string. Qed.
Lemma solid_bytes f s :
  (∀ a, f a = true → (byte_val a <? 128)%N = true) → all_bytes f s = true → solid_text s.
Proof. intros Hf Hs. apply solid_ascii. by eapply all_bytes_impl. Qed.
Lemma solid_white s : white s → solid_text s.
Proof. apply solid_bytes. intros a. every_byte a. Qed.
Lemma solid_digits s : digit_text s → solid_text s.
Proof. intros [_ Hs]. revert Hs. apply solid_bytes. intros a. every_byte a. Qed.
Lemma solid_cons a s : (byte_val a <? 128)%N = true → solid_text s → solid_text (String a s).
Proof. intros Ha. apply (json_solid_app (chr a)). apply solid_ascii. cbn. by rewrite Ha. Qed.
Lemma solid_DQ : solid_text DQ.
Proof. by apply solid_ascii. Qed.
Create HintDb solid.
#[local] Hint Resolve solid_nil solid_DQ json_solid_app solid_scalar solid_white solid_digits : solid.
#[local] Hint Extern 1 (solid_text (String _ _)) => apply solid_cons; [reflexivity|] : solid.

Lemma solid_number n : number_text n → solid_text n.
Proof.
  intros [sign int frac exp Hsign Hint Hfrac Hexp].
  assert (solid_text sign).
  { rewrite !elem_of_cons, elem_of_nil in Hsign. destruct Hsign as [->|[->|[]]]; auto with solid. }
  assert (solid_text frac) by (destruct Hfrac; cbn [String.append]; auto with solid).
  assert (solid_text exp).
  { destruct Hexp as [|e sg ds He Hsg Hds]; [auto with solid|]. apply solid_cons.
    - rewrite !elem_of_cons, elem_of_nil in He. by destruct He as [->|[->|[]]].
    - apply json_solid_app; [|auto with solid]. rewrite !elem_of_cons, elem_of_nil in Hsg.
      destruct Hsg as [->|[->|[->|[]]]]; auto with solid. }
  auto with solid.
Qed.

Lemma hex_ascii a v : hex_value a = Some v → (byte_val a <? 128)%N = true.
Proof.
  assert ((byte_val a <? 128)%N = false → hex_value a = None) by every_byte a.
  destruct (_ <? _)%N; [done|]. by rewrite H.
Qed.
Lemma solid_hex q n : hex_text q n → solid_text q.
Proof.
  intros [a b c d va vb vc vd ?%hex_ascii ?%hex_ascii ?%hex_ascii ?%hex_ascii
         |b c d vb vc vd ?%hex_ascii ?%hex_ascii ?%hex_ascii];
    repeat (apply solid_cons; [done|]); auto with solid.
Qed.
#[local] Hint Resolve solid_number solid_hex : solid.

Lemma escape_ascii e c : simple_escape e = Some c → (byte_val e <? 128)%N = true.
Proof.
  assert ((byte_val e <? 128)%N = false → simple_escape e = None) by every_byte e.
  destruct (_ <? _)%N; [done|]. by rewrite H.
Qed.

Lemma solid_string s t : string_text s t → solid_text s.
Proof.
  induction 1 as [|c s t Hc Hp _ IH|e c s t He _ IH|q n c s t Hq _ _ _ IH|q1 q2 hi lo c s t H1 H2 _ _ _ _ IH].
  - auto with solid.
  - auto with solid.
  - apply solid_cons; [done|]. apply solid_cons; [by eapply escape_ascii|done].
  - unfold U_ESC. cbn [String.append]. eauto 6 with solid.
  - unfold U_ESC. cbn [String.append]. eauto 10 with solid.
Qed.
#[local] Hint Resolve solid_string : solid.

(** *** Reading a string *)

Lemma string_go_app b t :
  string_text b t → ∀ fuel r, (String.length b < fuel)%nat → utf8 r →
  string_go fuel (b +:+ DQ +:+ r) = Some (t, r).
Proof.
  assert (Hesc : ∀ q c s t fuel r,
    (∀ r, (String.length s < fuel)%nat → utf8 r → string_go fuel (s +:+ DQ +:+ r) = Some (t, r)) →
    escape_text q c → (String.length (U_ESC +:+ q +:+ s) < S fuel)%nat → utf8 r →
    string_go (S fuel) ((U_ESC +:+ q +:+ s) +:+ DQ +:+ r) = Some (c +:+ t, r)).
  { intros q c s u fuel r IH Hq Hf Hr. rewrite !string_length_app in Hf. cbn [U_ESC String.length] in Hf.
    rewrite <-!app_assoc_s. unfold U_ESC. cbn [string_go String.append chr].
    change (Ascii.eqb backslash dquote) with false. change (Ascii.eqb backslash backslash) with true.
    change (Ascii.eqb "u" "u") with true. cbn match.
    rewrite (unicode_escape_app _ _ _ Hq). cbn [mbind option_bind].
    rewrite IH by (done || lia). done. }
  induction 1 as [|c s t Hc Hp Hs IH|e c s t He Hs IH|q n c s t Hq Hn Hu Hs IH
                  |q1 q2 hi lo c s t H1 H2 Hhi Hlo Hu Hs IH]; intros [|fuel] r Hf Hr; try (cbn in Hf; lia).
  - done.
  - assert (Hv : utf8 (c +:+ s +:+ DQ +:+ r)).
    { apply utf8_app; [done|]. apply (solid_string _ _ Hs). by apply utf8_cons. }
    rewrite string_length_app in Hf.
    destruct c as [|a c]; [done|]. destruct Hp as (Hq & Hb & Hcl). cbn [String.length] in Hf.
    rewrite <-app_assoc_s. cbn [String.append string_go] in Hv |- *.
    rewrite (proj2 (Ascii.eqb_neq _ _) Hq), (proj2 (Ascii.eqb_neq _ _) Hb), (proj2 (N.ltb_ge _ _) Hcl).
    rewrite from_utf8_ok by done.
    change (String a (c +:+ s +:+ DQ +:+ r)) with (String a c +:+ s +:+ DQ +:+ r).
    rewrite chars_scalar by done. cbn [head mbind option_bind].
    rewrite str_drop_app, IH by (done || lia). done.
  - cbn [String.append string_go String.length] in Hf |- *.
    change (Ascii.eqb backslash dquote) with false. change (Ascii.eqb backslash backslash) with true.
    cbn match. assert (Ascii.eqb e "u" = false) as ->.
    { destruct (Ascii.eqb_spec e "u") as [->|]; [by vm_compute in He|done]. }
    rewrite He. cbn [mbind option_bind]. rewrite IH by (done || lia). done.
  - apply (Hesc q); [intros; by apply IH|by econstructor|lia|done].
  - replace (U_ESC +:+ q1 +:+ U_ESC +:+ q2 +:+ s) with (U_ESC +:+ (q1 +:+ U_ESC +:+ q2) +:+ s) in Hf |- *
      by by rewrite <-!app_assoc_s.
    apply Hesc; [intros; by apply IH|by econstructor|lia|done].
Qed.

Lemma string_go_spec fuel s t r :
  string_go fuel s = Some (t, r) → ∃ b, s = b +:+ DQ +:+ r ∧ string_text b t.
Proof.
  revert s t r. induction fuel as [|fuel IH]; intros s t r; [done|]. cbn [string_go].
  destruct s as [|a s]; [done|]. destruct (Ascii.eqb_spec a dquote) as [->|Hq].
  { intros [= <- <-]. exists "". split; [done|constructor]. }
  destruct (Ascii.eqb_spec a backslash) as [->|Hb].
  { destruct s as [|e s]; [done|]. intros ([c s1] & He & H)%bind_Some.
    apply bind_Some in H as ([out s2] & (b & -> & Hb)%IH & [= <- <-]).
    destruct (Ascii.eqb_spec e "u") as [->|Hu].
    - apply unicode_escape_spec in He as (q & -> & Hc).
      exists (U_ESC +:+ q +:+ b). split; [|by apply string_escaped]. by rewrite <-!app_assoc_s.
    - apply bind_Some in He as (c' & He & [= -> ->]). exists (String backslash (String e b)).
      split; [done|by constructor]. }
  destruct (byte_val a <? 32)%N eqn:Hc; [done|]. apply N.ltb_ge in Hc.
  unfold from_utf8. destruct (utf8_check _ _ _ _) eqn:Hu; [done|]. apply utf8_intro in Hu.
  destruct (utf8_cases _ Hu) as [[=]|(c & s1 & Hsc & Es & _)]. rewrite Es, chars_scalar by done.
  cbn [head mbind option_bind]. rewrite str_drop_app.
  intros ([out s2] & (b & -> & Hs)%IH & [= <- <-])%bind_Some.
  exists (c +:+ b). split; [by rewrite <-app_assoc_s|]. constructor; [done| |done].
  destruct c as [|a' c]; [by apply scalar_len in Hsc|]. by simplify_eq/=.
Qed.

Lemma string_app b t r : string_text b t → utf8 r → string_ (DQ +:+ b +:+ DQ +:+ r) = Some (t, r).
Proof.
  intros Hb Hr. unfold string_. cbn [DQ chr String.append]. rewrite eat_refl. cbn [mbind option_bind].
  apply string_go_app; [done| |done]. rewrite string_length_app. lia.
Qed.
Lemma string_spec s t r : string_ s = Some (t, r) → ∃ b, s = DQ +:+ b +:+ DQ +:+ r ∧ string_text b t.
Proof. intros (s' & ->%eat_Some & (b & -> & Hb)%string_go_spec)%bind_Some. by exists b. Qed.

(** ** Values: the reader accepts the grammar *)

Lemma ends_white w s : white w → ends s → ends (w +:+ s).
Proof.
  intros Hw Hs. destruct w as [|a w]; [done|]. unfold white in Hw. cbn in Hw |- *.
  apply andb_true_iff in Hw as [Ha _]. unfold closes. by rewrite Ha.
Qed.

(** The first byte of a number decides. *)
Lemma value_number l a s :
  Ascii.eqb a "-" || is_ascii_digit a = true →
  value (S l) (String a s) = ('(t, s) ← number (String a s); Some (Number t, s)).
Proof.
  intros Ha.
  assert (is_ws a = false ∧ Ascii.eqb a "n" = false ∧ Ascii.eqb a "t" = false ∧ Ascii.eqb a "f" = false
    ∧ Ascii.eqb a dquote = false ∧ Ascii.eqb a "[" = false ∧ Ascii.eqb a "{" = false)
    as (Hw & Hn & Ht & Hf & Hq & Hl & Hb).
  { revert Ha. destruct a as [[] [] [] [] [] [] [] []]; vm_compute; first [done | by intros]. }
  cbn [value skip_ws]. by rewrite Hw, Hn, Ht, Hf, Hq, Hl, Hb, Ha.
Qed.

Lemma number_first n : number_text n → ∃ a s, n = String a s ∧ Ascii.eqb a "-" || is_ascii_digit a = true.
Proof.
  intros [sign int frac exp Hsign (a & l & -> & Ha)%digit_text_cons _ _].
  rewrite !elem_of_cons, elem_of_nil in Hsign. destruct Hsign as [->|[->|[]]]; cbn [String.append].
  - eexists _, _. split; [done|]. rewrite Ha. by rewrite orb_true_r.
  - eauto.
Qed.

(** Text that starts a value: no white space, no closing bracket. *)
Definition starts (t : string) : Prop :=
  match t with
  | String a _ => is_ws a = false ∧ Ascii.eqb a "]" = false
  | EmptyString => False
  end.
Lemma starts_stops t r : starts t → stops is_ws (t +:+ r).
Proof. destruct t; [done|]. by intros [? _]. Qed.
Lemma json_text_starts t v : json_text t v → starts t.
Proof.
  destruct 1 as [| | |n (a & s & -> & Ha)%number_first| | | | |]; try done.
  cbn. split; revert Ha; every_byte a.
Qed.

(** A text is read to its end when it is followed by the end of a value. *)
Definition reads (t : string) (v : Value) : Prop :=
  ∀ l w r, (nesting v < l)%nat → white w → utf8 r → ends r →
    value l (w +:+ t +:+ r) = Some (v, r).

Lemma value_ws l w s : white w → stops is_ws s → value l (w +:+ s) = value l s.
Proof.
  intros Hw Hs. destruct l as [|l]; [done|]. cbn [value].
  assert (skip_ws s = s) as -> by by apply (skip_ws_app ""). by rewrite (skip_ws_app w s).
Qed.
Lemma value_skip l s : value l (skip_ws s) = value l s.
Proof.
  destruct (skip_ws_spec s) as (w & Hs & Hw & Hst). rewrite Hs at 2. by rewrite value_ws.
Qed.
Lemma array_go_skip l fuel s : array_go (value l) fuel (skip_ws s) = array_go (value l) fuel s.
Proof. destruct fuel as [|fuel]; [done|]. cbn [array_go]. by rewrite value_skip. Qed.
Lemma object_go_skip l fuel s : object_go (value l) fuel (skip_ws s) = object_go (value l) fuel s.
Proof.
  destruct fuel as [|fuel]; [done|]. cbn [object_go].
  destruct (skip_ws_spec s) as (w & Hs & Hw & Hst).
  assert (skip_ws (skip_ws s) = skip_ws s) as -> by by apply (skip_ws_app ""). done.
Qed.

Lemma reads_array_go l s w1 t w2 v fuel :
  reads t v → json_text t v → (nesting v < l)%nat → white w1 → white w2 → utf8 s → ends s →
  stops is_ws s →
  array_go (value l) (S fuel) (w1 +:+ t +:+ w2 +:+ s)
  = match eat "," s with
    | Some s => '(vs, s) ← array_go (value l) fuel s; Some (v :: vs, s)
    | None => s ← eat "]" s; Some ([v], s)
    end.
Proof.
  intros Hr Ht Hv Hw1 Hw2 Hu He Hs. cbn [array_go]. rewrite Hr; [|done|done| |by apply ends_white].
  2: by apply (solid_white _ Hw2). cbn [mbind option_bind]. by rewrite (skip_ws_app w2 s).
Qed.

Lemma reads_object_go l s w1 k key w2 w3 t v w4 fuel :
  string_text k key → reads t v → json_text t v → (nesting v < l)%nat →
  white w1 → white w2 → white w3 → white w4 → utf8 s → ends s → stops is_ws s → solid_text t →
  object_go (value l) (S fuel)
    (w1 +:+ DQ +:+ k +:+ DQ +:+ w2 +:+ ":" +:+ w3 +:+ t +:+ w4 +:+ s)
  = match eat "," s with
    | Some s => '(kvs, s) ← object_go (value l) fuel s; Some ((key, v) :: kvs, s)
    | None => s ← eat "}" s; Some ([(key, v)], s)
    end.
Proof.
  intros Hk Hr Ht Hv Hw1 Hw2 Hw3 Hw4 Hu He Hs Hsol. cbn [object_go].
  rewrite (skip_ws_app w1) by done.
  assert (Hu4 : utf8 (w4 +:+ s)) by by apply (solid_white _ Hw4).
  rewrite (string_app k key); [|done|].
  2: { apply (solid_white _ Hw2). apply utf8_cons; [done|]. apply (solid_white _ Hw3). by apply Hsol. }
  cbn [mbind option_bind]. rewrite (skip_ws_app w2) by done. cbn [String.append]. rewrite eat_refl. cbn [mbind option_bind].
  rewrite Hr; [|done|done|done|by apply ends_white]. cbn [mbind option_bind].
  by rewrite (skip_ws_app w4 s).
Qed.

(** The items and members begin with a value or a quote, after white space. *)
Lemma items_first t vs : items_text t vs → ∃ w t', t = w +:+ t' ∧ white w ∧ starts t'.
Proof.
  intros [w1 s w2 v Hw Hs _|w1 s w2 v ss vs' Hw Hs _ _]; apply json_text_starts in Hs;
    (eexists w1, _; split; [done|]; split; [done|]; by destruct s).
Qed.
Lemma members_first t kvs : members_text t kvs → ∃ w t', t = w +:+ String dquote t' ∧ white w.
Proof. by intros [w1 *|w1 *]; exists w1; eexists. Qed.

Lemma items_ws w t vs : white w → items_text t vs → items_text (w +:+ t) vs.
Proof.
  intros Hw [w1 s w2 v Hw1 Hs Hw2|w1 s w2 v ss vs' Hw1 Hs Hw2 Hss]; rewrite !(app_assoc_s w);
    constructor; try done; by apply white_app.
Qed.
Lemma members_ws w t kvs : white w → members_text t kvs → members_text (w +:+ t) kvs.
Proof. intros Hw [w1 *|w1 *]; rewrite !(app_assoc_s w); constructor; try done; by apply white_app. Qed.

Lemma value_array l w s r :
  white w → value (S l) (w +:+ ("[" +:+ s +:+ "]") +:+ r) = array (value l) ("[" +:+ s +:+ "]" +:+ r).
Proof. intros Hw. rewrite value_ws by done. by rewrite <-!app_assoc_s. Qed.
Lemma value_object l w s r :
  white w → value (S l) (w +:+ ("{" +:+ s +:+ "}") +:+ r) = object (value l) ("{" +:+ s +:+ "}" +:+ r).
Proof. intros Hw. rewrite value_ws by done. by rewrite <-!app_assoc_s. Qed.

Lemma array_items l t vs r :
  items_text t vs →
  (∀ fuel, (String.length (skip_ws t) < fuel)%nat →
     array_go (value l) fuel (t +:+ "]" +:+ r) = Some (vs, r)) →
  array (value l) ("[" +:+ t +:+ "]" +:+ r) = Some (Array vs, r).
Proof.
  intros (w & t' & -> & Hw & Ht)%items_first Hgo. unfold array. cbn [String.append]. rewrite eat_refl.
  cbn [mbind option_bind]. rewrite (skip_ws_app w t') in Hgo; [|done|by destruct t'; [done|apply Ht]].
  assert (E : skip_ws ((w +:+ t') +:+ "]" +:+ r) = t' +:+ "]" +:+ r).
  { rewrite <-app_assoc_s, skip_ws_app; [done|done|by apply starts_stops]. }
  cbn [String.append] in E |- *. rewrite E.
  assert (eat "]" (t' +:+ String "]" r) = None) as ->.
  { destruct t' as [|a t']; [done|]. destruct Ht as [_ Ht]. cbn. by rewrite Ht. }
  rewrite <-E at 2. rewrite array_go_skip. cbn [String.append] in Hgo. rewrite Hgo; [done|].
  rewrite string_length_app. lia.
Qed.

Lemma object_members l t kvs r :
  members_text t kvs →
  (∀ fuel, (String.length (skip_ws t) < fuel)%nat →
     object_go (value l) fuel (t +:+ "}" +:+ r) = Some (kvs, r)) →
  object (value l) ("{" +:+ t +:+ "}" +:+ r) = Some (Object kvs, r).
Proof.
  intros (w & t' & -> & Hw)%members_first Hgo. unfold object. cbn [String.append]. rewrite eat_refl.
  cbn [mbind option_bind]. rewrite (skip_ws_app w) in Hgo by done.
  assert (E : skip_ws ((w +:+ String dquote t') +:+ "}" +:+ r) = String dquote t' +:+ "}" +:+ r).
  { by rewrite <-app_assoc_s, skip_ws_app. }
  cbn [String.append] in E |- *. rewrite E. cbn [eat]. change (Ascii.eqb dquote "}") with false. cbn match.
  rewrite <-E at 2. rewrite object_go_skip. cbn [String.append] in Hgo. rewrite Hgo; [done|].
  cbn [String.length]. rewrite string_length_app. lia.
Qed.

Lemma reads_plain t v :
  nesting v = 0%nat → (∀ l r, utf8 r → ends r → value (S l) (t +:+ r) = Some (v, r)) → starts t →
  reads t v.
Proof.
  intros Hn Hv Ht [|l] w r Hl Hw Hu He; [lia|]. rewrite value_ws by (done || by apply starts_stops).
  by apply Hv.
Qed.

Lemma json_reads :
  (∀ t v, json_text t v → solid_text t ∧ reads t v) ∧
  (∀ t vs, items_text t vs → solid_text t ∧
     ∀ l fuel r, Forall (λ v, nesting v < l)%nat vs → (String.length (skip_ws t) < fuel)%nat → utf8 r →
       array_go (value l) fuel (t +:+ "]" +:+ r) = Some (vs, r)) ∧
  (∀ t kvs, members_text t kvs → solid_text t ∧
     ∀ l fuel r, Forall (λ kv, nesting kv.2 < l)%nat kvs → (String.length (skip_ws t) < fuel)%nat →
       utf8 r → object_go (value l) fuel (t +:+ "}" +:+ r) = Some (kvs, r)).
Proof.
  apply json_texts_ind.
  1-3: split; [auto 10 with solid|by apply reads_plain].
  - (* number *) intros n Hn. split; [auto with solid|]. apply reads_plain; [done| |].
    2: by eapply json_text_starts, json_number.
    intros l r _ He. destruct (number_first n Hn) as (a & s & En & Ha).
    pose proof (number_app n r Hn (ends_number _ He)) as E. rewrite En in E |- *.
    cbn [String.append] in E |- *. by rewrite value_number, E.
  - (* string *) intros s t Hs. split; [cbn [DQ chr String.append]; eauto with solid|].
    apply (reads_plain (DQ +:+ s +:+ DQ) (Str t)); [done| |done]. intros l r Hr _.
    rewrite <-!app_assoc_s. pose proof (string_app s t r Hs Hr) as E.
    cbn [DQ chr String.append value skip_ws] in E |- *. change (is_ws dquote) with false. cbn match.
    change (Ascii.eqb dquote "n") with false. change (Ascii.eqb dquote "t") with false.
    change (Ascii.eqb dquote "f") with false. change (Ascii.eqb dquote dquote) with true. cbn match.
    by rewrite E.
  - (* [] *) intros w0 Hw0. split; [cbn [String.append]; auto with solid|].
    intros [|l] w r Hl Hw Hr He; [lia|]. rewrite value_array by done.
    unfold array. cbn [String.append]. rewrite eat_refl. cbn [mbind option_bind].
    rewrite skip_ws_app by done. by rewrite eat_refl.
  - (* [..] *) intros s vs Hs [Hsol Hgo]. split; [cbn [String.append]; auto with solid|].
    intros [|l] w r Hl Hw Hr He; [lia|]. apply nesting_array in Hl. rewrite value_array by done.
    apply array_items; [done|]. intros fuel Hf. by apply Hgo.
  - (* {} *) intros w0 Hw0. split; [cbn [String.append]; auto with solid|].
    intros [|l] w r Hl Hw Hr He; [lia|]. rewrite value_object by done.
    unfold object. cbn [String.append]. rewrite eat_refl. cbn [mbind option_bind].
    rewrite skip_ws_app by done. by rewrite eat_refl.
  - (* {..} *) intros s vs Hs [Hsol Hgo]. split; [cbn [String.append]; auto with solid|].
    intros [|l] w r Hl Hw Hr He; [lia|]. apply nesting_object in Hl. rewrite value_object by done.
    apply object_members; [done|]. intros fuel Hf. by apply Hgo.
  - (* the last item *) intros w1 s w2 v Hw1 Hs [Hsol Hrd] Hw2. split; [auto with solid|].
    intros l fuel r [Hv _]%Forall_cons Hf Hr. destruct fuel as [|fuel]; [lia|].
    rewrite <-!app_assoc_s. rewrite (reads_array_go l ("]" +:+ r) w1 s w2 v) by (done || by apply utf8_cons).
    cbn [String.append]. by rewrite eat_refl.
  - (* more items *) intros w1 s w2 v ss vs Hw1 Hs [Hsol Hrd] Hw2 Hss [Hsol2 Hgo].
    split; [auto 10 with solid|].
    intros l fuel r [Hv Hvs]%Forall_cons Hf Hr. destruct fuel as [|fuel]; [lia|].
    rewrite skip_ws_app in Hf by (done || by eapply starts_stops, json_text_starts).
    rewrite !string_length_app in Hf. cbn [String.length] in Hf.
    rewrite <-!app_assoc_s.
    rewrite (reads_array_go l ("," +:+ ss +:+ "]" +:+ r) w1 s w2 v); try done.
    2: { apply utf8_cons; [done|]. apply Hsol2. by apply utf8_cons. }
    cbn [String.append]. rewrite eat_refl. cbn [String.append] in Hgo.
    rewrite Hgo; [done|done| |done]. pose proof (skip_ws_length ss). lia.
  - (* the last member *) intros w1 k key w2 w3 s w4 v Hw1 Hk Hw2 Hw3 Hs [Hsol Hrd] Hw4.
    split; [eauto 20 with solid|].
    intros l fuel r [Hv _]%Forall_cons Hf Hr. destruct fuel as [|fuel]; [lia|].
    rewrite <-!app_assoc_s.
    rewrite (reads_object_go l ("}" +:+ r) w1 k key w2 w3 s v w4) by (done || by apply utf8_cons).
    cbn [String.append]. by rewrite eat_refl.
  - (* more members *) intros w1 k key w2 w3 s w4 v ss kvs Hw1 Hk Hw2 Hw3 Hs [Hsol Hrd] Hw4 Hss [Hsol2 Hgo].
    split; [eauto 24 with solid|].
    intros l fuel r [Hv Hvs]%Forall_cons Hf Hr. destruct fuel as [|fuel]; [lia|].
    rewrite skip_ws_app in Hf by done.
    rewrite !string_length_app in Hf. cbn [String.length] in Hf.
    rewrite <-!app_assoc_s.
    rewrite (reads_object_go l ("," +:+ ss +:+ "}" +:+ r) w1 k key w2 w3 s v w4); try done.
    2: { apply utf8_cons; [done|]. apply Hsol2. by apply utf8_cons. }
    cbn [String.append]. rewrite eat_refl. cbn [String.append] in Hgo.
    rewrite Hgo; [done|done| |done]. pose proof (skip_ws_length ss). lia.
Qed.

(** ** What the reader accepts is in the grammar *)

Definition sound (l : nat) (elem : string → option (Value * string)) : Prop :=
  ∀ s v r, elem s = Some (v, r) →
    ∃ w t, s = w +:+ t +:+ r ∧ white w ∧ json_text t v ∧ (nesting v < l)%nat.

Lemma array_go_spec l elem fuel s vs r :
  sound l elem → array_go elem fuel s = Some (vs, r) →
  ∃ t, s = t +:+ "]" +:+ r ∧ items_text t vs ∧ Forall (λ v, nesting v < l)%nat vs.
Proof.
  intros Hel. revert s vs r. induction fuel as [|fuel IH]; intros s vs r; [done|]. cbn [array_go].
  intros ([v s1] & (w & t & -> & Hw & Ht & Hv)%Hel & H)%bind_Some.
  destruct (skip_ws_spec s1) as (w2 & E1 & Hw2 & _). set (s2 := skip_ws s1) in *. clearbody s2. subst s1.
  destruct (eat "," s2) as [s3|] eqn:Ec.
  - apply eat_Some in Ec as ->. apply bind_Some in H as ([vs' s4] & (ts & -> & Hts & Hvs)%IH & [= <- <-]).
    exists (w +:+ t +:+ w2 +:+ "," +:+ ts). split; [by rewrite <-!app_assoc_s|].
    split; [by constructor|by constructor].
  - apply bind_Some in H as (s3 & ->%eat_Some & [= <- <-]). exists (w +:+ t +:+ w2).
    split; [by rewrite <-!app_assoc_s|]. split; [by constructor|by constructor].
Qed.

Lemma object_go_spec l elem fuel s kvs r :
  sound l elem → object_go elem fuel s = Some (kvs, r) →
  ∃ t, s = t +:+ "}" +:+ r ∧ members_text t kvs ∧ Forall (λ kv, nesting kv.2 < l)%nat kvs.
Proof.
  intros Hel. revert s kvs r. induction fuel as [|fuel IH]; intros s kvs r; [done|]. cbn [object_go].
  destruct (skip_ws_spec s) as (w1 & Es & Hw1 & _). set (s0 := skip_ws s) in *. clearbody s0. subst s.
  intros ([key s1] & (k & -> & Hk)%string_spec & H)%bind_Some.
  destruct (skip_ws_spec s1) as (w2 & Es & Hw2 & _). set (s2 := skip_ws s1) in *. clearbody s2. subst s1.
  apply bind_Some in H as (s3 & ->%eat_Some & H).
  apply bind_Some in H as ([v s4] & (w3 & t & -> & Hw3 & Ht & Hv)%Hel & H).
  destruct (skip_ws_spec s4) as (w4 & Es & Hw4 & _). set (s5 := skip_ws s4) in *. clearbody s5. subst s4.
  destruct (eat "," s5) as [s6|] eqn:Ec.
  - apply eat_Some in Ec as ->. apply bind_Some in H as ([vs' s7] & (ts & -> & Hts & Hvs)%IH & [= <- <-]).
    exists (w1 +:+ DQ +:+ k +:+ DQ +:+ w2 +:+ ":" +:+ w3 +:+ t +:+ w4 +:+ "," +:+ ts).
    split; [by rewrite <-!app_assoc_s|]. split; [by constructor|by constructor].
  - apply bind_Some in H as (s6 & ->%eat_Some & [= <- <-]).
    exists (w1 +:+ DQ +:+ k +:+ DQ +:+ w2 +:+ ":" +:+ w3 +:+ t +:+ w4).
    split; [by rewrite <-!app_assoc_s|]. split; [by constructor|by constructor].
Qed.

Lemma array_spec l elem s v r :
  sound l elem → array elem s = Some (v, r) →
  ∃ t, s = t +:+ r ∧ json_text t v ∧ (nesting v < S l)%nat.
Proof.
  intros Hel. unfold array. intros (s1 & ->%eat_Some & H)%bind_Some.
  destruct (skip_ws_spec s1) as (w & Es & Hw & _). set (s2 := skip_ws s1) in *. clearbody s2. subst s1.
  destruct (eat "]" s2) as [s3|] eqn:Ec.
  - apply eat_Some in Ec as ->. simplify_eq. exists ("[" +:+ w +:+ "]").
    split; [by rewrite <-!app_assoc_s|]. split; [by constructor|cbn; lia].
  - apply bind_Some in H as ([vs s3] & (t & -> & Ht & Hvs)%(array_go_spec l) & [= <- <-]); [|done].
    exists ("[" +:+ (w +:+ t) +:+ "]"). split; [by rewrite <-!app_assoc_s|].
    split; [constructor; by apply items_ws|by apply nesting_array].
Qed.

Lemma object_spec l elem s v r :
  sound l elem → object elem s = Some (v, r) →
  ∃ t, s = t +:+ r ∧ json_text t v ∧ (nesting v < S l)%nat.
Proof.
  intros Hel. unfold object. intros (s1 & ->%eat_Some & H)%bind_Some.
  destruct (skip_ws_spec s1) as (w & Es & Hw & _). set (s2 := skip_ws s1) in *. clearbody s2. subst s1.
  destruct (eat "}" s2) as [s3|] eqn:Ec.
  - apply eat_Some in Ec as ->. simplify_eq. exists ("{" +:+ w +:+ "}").
    split; [by rewrite <-!app_assoc_s|]. split; [by constructor|cbn; lia].
  - apply bind_Some in H as ([vs s3] & (t & -> & Ht & Hvs)%(object_go_spec l) & [= <- <-]); [|done].
    exists ("{" +:+ (w +:+ t) +:+ "}"). split; [by rewrite <-!app_assoc_s|].
    split; [constructor; by apply members_ws|by apply nesting_object].
Qed.

Lemma value_sound l : sound l (value l).
Proof.
  induction l as [|l IH]; intros s v r; [done|]. cbn [value].
  destruct (skip_ws_spec s) as (w & Es & Hw & _). set (s2 := skip_ws s) in *. clearbody s2. subst s.
  intros H. enough (∃ t, s2 = t +:+ r ∧ json_text t v ∧ (nesting v < S l)%nat) as (t & -> & Ht & Hv)
    by by exists w, t.
  assert (Hk : ∀ word u, json_text word u → nesting u = 0%nat → keyword word u s2 = Some (v, r) →
            ∃ t, s2 = t +:+ r ∧ json_text t v ∧ (nesting v < S l)%nat).
  { intros word u Hu Hn (s3 & ->%strip_prefix_Some & [= <- <-])%bind_Some. exists word.
    split; [done|]. split; [done|lia]. }
  destruct s2 as [|a s2]; [done|].
  destruct (Ascii.eqb a "n"); [by eapply Hk; [constructor|..]|].
  destruct (Ascii.eqb a "t"); [by eapply Hk; [constructor|..]|].
  destruct (Ascii.eqb a "f"); [by eapply Hk; [constructor|..]|].
  destruct (Ascii.eqb a dquote).
  { apply bind_Some in H as ([t s3] & (b & -> & Hb)%string_spec & [= <- <-]).
    exists (DQ +:+ b +:+ DQ). split; [by rewrite <-!app_assoc_s|]. split; [by constructor|cbn; lia]. }
  destruct (Ascii.eqb a "["); [by eapply array_spec|].
  destruct (Ascii.eqb a "{"); [by eapply object_spec|].
  destruct (_ || _); [|done].
  apply bind_Some in H as ([t s3] & [-> Hn]%number_spec & [= <- <-]).
  exists t. split; [done|]. split; [by constructor|cbn; lia].
Qed.

(** C26: the JSON reader of [switch-to-ghcr] against the grammar: it accepts a text
    exactly when that is one document of the grammar, white space around it
    included, whose containers are nested at most [MAX_DEPTH] deep, and it
    returns the value that the grammar gives.  So it always comes to an end
    within its fuel, and no document has two readings. *)
Theorem json_parse_iff s v :
  parse s = Some v
  ↔ ∃ w1 t w2, s = w1 +:+ t +:+ w2 ∧ white w1 ∧ white w2 ∧ json_text t v ∧ (nesting v ≤ MAX_DEPTH)%nat.
Proof.
  unfold parse. split.
  - intros ([v' r] & (w & t & -> & Hw & Ht & Hv)%value_sound & H)%bind_Some.
    destruct (is_empty (skip_ws r)) eqn:Hr; simplify_eq.
    destruct (skip_ws_spec r) as (w2 & Er & Hw2 & _). destruct (skip_ws r); [|done].
    rewrite app_nil_s in Er. subst w2. exists w, t, r. split_and!; try done. lia.
  - intros (w1 & t & w2 & -> & Hw1 & Hw2 & Ht & Hv).
    destruct (proj1 json_reads t v Ht) as [_ Hrd].
    rewrite Hrd; [|lia|done| |].
    + cbn [mbind option_bind]. rewrite <-(app_nil_s w2), skip_ws_app by done. done.
    + rewrite <-(app_nil_s w2). by apply (solid_white _ Hw2), (utf8_intro "" 0 0).
    + rewrite <-(app_nil_s w2). by apply ends_white.
Qed.
