(* ===== verification/ConfigTypes.v ===== *)
(** * hbird-config: the data types

    [crates/hbird-config/src/error.rs] and the data of [lib.rs]: the parser's
    errors and warnings, and the typed view [ClusterConfig] of a parsed
    [cluster.local.conf]. *)

From S2P Require Import Prelude RustStr.

(** [std::io::Error], as its message. *)
Record io_error : Set := IoError { io_message : string }.
#[export] Instance io_error_eq_dec : EqDecision io_error.
Proof. solve_decision. Defined.

(** [hbird_config::Error] *)
Inductive Error : Set :=
| Io (path : string) (source : io_error)
| UnrecognizedLine (line_no : nat) (raw : string)
| UnterminatedArray (key : string) (line_no : nat)
| UnterminatedQuote (line_no : nat) (raw : string)
| MissingRequired (field : string) (path : string)
| InvalidInteger (field : string) (line_no : nat) (raw : string)
| InvalidBool (field : string) (line_no : nat) (raw : string)
| TrailingContent (line_no : nat) (raw : string)
| TypeMismatch (field expected got : string) (line_no : nat).
#[export] Instance Error_eq_dec : EqDecision Error.
Proof. solve_decision. Defined.

(** The line an error points at, when it points at one. *)
Definition error_line (e : Error) : option nat :=
  match e with
  | Io _ _ | MissingRequired _ _ => None
  | UnrecognizedLine n _ | UnterminatedArray _ n | UnterminatedQuote n _
  | InvalidInteger _ n _ | InvalidBool _ n _ | TrailingContent n _
  | TypeMismatch _ _ _ n => Some n
  end.

(** [impl Display for Error] *)
Definition show_config_error (e : Error) : string :=
  match e with
  | Io path source => "could not read config at " +:+ path +:+ ": " +:+ io_message source
  | UnrecognizedLine n raw =>
      "unrecognized line " +:+ show_nat n +:+ " in cluster config: " +:+ debug_str raw
  | UnterminatedArray key n =>
      "unterminated array for " +:+ key +:+ " starting at line " +:+ show_nat n
  | UnterminatedQuote n raw =>
      "unterminated quoted value on line " +:+ show_nat n +:+ ": " +:+ debug_str raw
  | MissingRequired field path => field +:+ " is required in " +:+ path
  | InvalidInteger field n raw =>
      "invalid integer for " +:+ field +:+ " at line " +:+ show_nat n +:+ ": " +:+ debug_str raw
  | InvalidBool field n raw =>
      "invalid boolean for " +:+ field +:+ " at line " +:+ show_nat n +:+ ": " +:+ debug_str raw
      +:+ " (expected literal `true` or `false`)"
  | TrailingContent n raw =>
      "trailing content after closing quote on line " +:+ show_nat n +:+ ": " +:+ debug_str raw
  | TypeMismatch field expected got n =>
      "type mismatch for " +:+ field +:+ " at line " +:+ show_nat n +:+ ": expected " +:+ expected
      +:+ ", got " +:+ got
  end.

(** [hbird_config::Warning] *)
Inductive Warning : Set :=
| UnknownKey (key : string) (line_no : nat).
#[export] Instance Warning_eq_dec : EqDecision Warning.
Proof. solve_decision. Defined.

Definition warning_key (w : Warning) : string := let 'UnknownKey k _ := w in k.
Definition warning_line (w : Warning) : nat := let 'UnknownKey _ n := w in n.

(** [hbird_config::ClusterConfig] *)
Record ClusterConfig : Set := mkClusterConfig {
  cp_name : string;
  ssh_pubkey_file : string;
  kvm_host : option string;
  image_source : string;
  ghcr_tag : string;
  enable_cloud_init : N;
  auto_update_cp : bool;
  switch_to_ghcr : bool;
  cp_memory : N;
  cp_vcpus : N;
  worker_memory : N;
  worker_vcpus : N;
  pool_dir : string;
  run_verify : bool;
  bootc_update_schedule : option string;
  bootc_update_repo_k8s : option string;
  bootc_update_repo_worker : option string;
  worker_names : option (list string);
  cp_ip : option string;
  worker_ips : option (list string);
  pod_cidr : option string;
  service_cidr : option string;
  cp_mac : option string;
  worker_macs : option (list string);
  extra_network : option string;
  extra_net_cp_mac : option string;
  extra_net_cp_ip : option string;
  extra_net_worker_macs : option (list string);
  extra_net_worker_ips : option (list string);
  warnings : list Warning;
}.
#[export] Instance ClusterConfig_eq_dec : EqDecision ClusterConfig.
Proof. solve_decision. Defined.

(** [ClusterConfig::resolved_worker_names]: the two-worker default applies only
    when [WORKER_NAMES] was never set. *)
Definition resolved_worker_names (c : ClusterConfig) : list string :=
  match worker_names c with
  | Some names => names
  | None => [cp_name c +:+ "-w1"; cp_name c +:+ "-w2"]
  end.
