(* ===== verification/ConfigLexer.v ===== *)
(** * hbird-config: from text to assignments

    The line-oriented half of [crates/hbird-config/src/parser.rs]: [tokenize]
    and its helpers turn the text of a [cluster.local.conf] into a map from
    keys to the line and the value of their last assignment. *)

From S2P Require Import Prelude RustStr ConfigTypes.
From Stdlib Require Import Ascii.

Definition MAX_KEY_LEN : nat := 128.

Inductive Value : Set :=
| Scalar (v : string)
| Array (vs : list string).
#[export] Instance Value_eq_dec : EqDecision Value.
Proof. solve_decision. Defined.

(** [HashMap<String, (usize, Value)>] *)
Abbreviation assignments := (gmap string (nat * Value)).

Definition is_key_start (a : ascii) : bool := is_ascii_alphabetic a || Ascii.eqb a "_".
Definition is_key_char (a : ascii) : bool := is_ascii_alphanumeric a || Ascii.eqb a "_".

Definition is_valid_key (s : string) : bool :=
  if is_empty s || (MAX_KEY_LEN <? String.length s)%nat then false
  else match s with
       | EmptyString => false
       | String first rest => is_key_start first && all_bytes is_key_char rest
       end.

(** The scan of [strip_trailing_comment]: [prev] is the byte before [s], [None]
    at the start of the value. *)
Fixpoint strip_comment_go (prev : option ascii) (s : string) : string :=
  match s with
  | EmptyString => EmptyString
  | String a s' =>
      if Ascii.eqb a "#"
         && match prev with None => true | Some p => is_ascii_whitespace p end
      then EmptyString
      else String a (strip_comment_go (Some a) s')
  end.
Definition strip_trailing_comment (s : string) : string := strip_comment_go None s.

Definition check_trailing_after_quote (rest : string) (end_ line_no : nat)
    (raw_line : string) : result Error unit :=
  let tail := trim_start (str_drop (S end_) rest) in
  if is_empty tail || starts_with_char "#" tail then Ok tt
  else Err (TrailingContent line_no raw_line).

(** One arm of [parse_scalar]: the text after the opening quote [q]. *)
Definition parse_quoted (q : ascii) (line_no : nat) (raw_line rest : string)
    : result Error string :=
  match find_char q rest with
  | Some end_ =>
      check_trailing_after_quote rest end_ line_no raw_line ≫= λ _,
      Ok (str_take end_ rest)
  | None => Err (UnterminatedQuote line_no raw_line)
  end.

Definition parse_scalar (line_no : nat) (raw_line rhs : string) : result Error string :=
  let trimmed := trim_start rhs in
  match strip_prefix DQ trimmed with
  | Some rest => parse_quoted dquote line_no raw_line rest
  | None =>
      match strip_prefix (chr squote) trimmed with
      | Some rest => parse_quoted squote line_no raw_line rest
      | None => Ok (trim_end (strip_trailing_comment trimmed))
      end
  end.

(** Where [tokenize_array_body] is in the body: between elements, inside a
    quoted element, or inside a bare one. *)
Inductive body_mode : Set :=
| Between
| Quoted (quote : char) (elem : string)
| Bare (elem : string).

Definition is_quote (c : char) : bool :=
  bool_decide (c = DQ) || bool_decide (c = chr squote).

Fixpoint tokenize_body_go (body : string) (line_no : nat) (m : body_mode)
    (out : list string) (l : list char) : result Error (list string) :=
  match l with
  | [] =>
      match m with
      | Between => Ok out
      | Quoted _ _ => Err (UnterminatedQuote line_no body)
      | Bare e => Ok (out ++ [e])
      end
  | c :: l' =>
      match m with
      | Between =>
          if is_whitespace c then tokenize_body_go body line_no Between out l'
          else if is_quote c then tokenize_body_go body line_no (Quoted c "") out l'
          else tokenize_body_go body line_no (Bare c) out l'
      | Quoted q e =>
          if bool_decide (c = q) then tokenize_body_go body line_no Between (out ++ [e]) l'
          else tokenize_body_go body line_no (Quoted q (e +:+ c)) out l'
      | Bare e =>
          if is_whitespace c then tokenize_body_go body line_no Between (out ++ [e]) l'
          else tokenize_body_go body line_no (Bare (e +:+ c)) out l'
      end
  end.

Definition tokenize_array_body (body : string) (line_no : nat) : result Error (list string) :=
  tokenize_body_go body line_no Between [] (chars body).

(** The [for line in rest_lines] loop of [parse_array]: [body] is the text
    collected so far and [extra] the number of lines consumed. *)
Fixpoint parse_array_go (key : string) (open_line extra : nat) (body : string)
    (rest_lines : list string) : result Error (list string * nat) :=
  match rest_lines with
  | [] => Err (UnterminatedArray key open_line)
  | line :: rest_lines' =>
      let extra := S extra in
      let line_no := (open_line + extra)%nat in
      match find_char ")" line with
      | Some close =>
          elements ← tokenize_array_body (body +:+ str_take close line) line_no;
          Ok (elements, extra)
      | None =>
          let trimmed := trim_start line in
          if is_empty trimmed || starts_with_char "#" trimmed
          then parse_array_go key open_line extra body rest_lines'
          else parse_array_go key open_line extra (body +:+ line +:+ " ") rest_lines'
      end
  end.

Definition parse_array (key : string) (open_line : nat) (first_line_rest : string)
    (rest_lines : list string) : result Error (list string * nat) :=
  match find_char ")" first_line_rest with
  | Some close =>
      elements ← tokenize_array_body (str_take close first_line_rest) open_line;
      Ok (elements, O)
  | None => parse_array_go key open_line 0 (first_line_rest +:+ " ") rest_lines
  end.

(** What [tokenize] does with one line that is neither blank nor a comment:
    the key, its value and the number of extra lines the value spans. *)
Definition tokenize_line (line_no : nat) (raw : string) (rest_lines : list string)
    : result Error (string * Value * nat) :=
  let trimmed := trim_start raw in
  match find_char "=" trimmed with
  | None => Err (UnrecognizedLine line_no raw)
  | Some eq =>
      let key := str_take eq trimmed in
      if negb (is_valid_key key) then Err (UnrecognizedLine line_no raw)
      else
        let rhs := str_drop (S eq) trimmed in
        match strip_prefix "(" rhs with
        | Some rest =>
            '(elements, consumed_extra_lines) ← parse_array key line_no rest rest_lines;
            Ok (key, Array elements, consumed_extra_lines)
        | None =>
            scalar ← parse_scalar line_no raw rhs;
            Ok (key, Scalar scalar, O)
        end
  end.

Definition is_skipped (raw : string) : bool :=
  let trimmed := trim_start raw in
  is_empty trimmed || starts_with_char "#" trimmed.

(** The [while idx < lines.len()] loop: [ls] is [lines[idx..]]; [skip] counts
    the lines an array literal has already consumed. *)
Fixpoint tokenize_go (idx skip : nat) (out : assignments) (ls : list string)
    : result Error assignments :=
  match ls with
  | [] => Ok out
  | raw :: ls' =>
      match skip with
      | S skip => tokenize_go (S idx) skip out ls'
      | O =>
          if is_skipped raw then tokenize_go (S idx) 0 out ls'
          else
            '(key, value, consumed) ← tokenize_line (S idx) raw ls';
            tokenize_go (S idx) consumed (<[key := (S idx, value)]> out) ls'
      end
  end.

Definition tokenize (input : string) : result Error assignments :=
  tokenize_go 0 0 ∅ (lines input).
