(* ===== verification/ConfigBuild.v ===== *)
(** * hbird-config: from assignments to a [ClusterConfig]

    The field-assembly half of [crates/hbird-config/src/parser.rs]
    ([build_config] and the [take_*] helpers) and the entry points [parse] and
    [parse_str] of [lib.rs]. *)

From S2P Require Import Prelude RustStr ConfigTypes ConfigLexer.

Definition SHAPE_SCALAR : string := "scalar".
Definition SHAPE_ARRAY : string := "array".

Definition mismatch (field expected : string) (observed : Value) (line_no : nat) : Error :=
  let got := match observed with
             | Scalar _ => SHAPE_SCALAR
             | Array _ => SHAPE_ARRAY
             end in
  TypeMismatch field expected got line_no.

(** ** Computations that remove keys from [raw: &mut HashMap<..>] *)

Definition Take (A : Type) : Type := assignments → result Error (A * assignments).
#[export] Instance take_ret : MRet Take := λ A a raw, Ok (a, raw).
#[export] Instance take_bind : MBind Take := λ A B f m raw,
  match m raw with
  | Ok (a, raw') => f a raw'
  | Err e => Err e
  end.

(** [match raw.remove(key) { .. }]: the arms are a function of the removed
    entry. *)
Definition take_with {A} (key : string) (arms : option (nat * Value) → result Error A)
    : Take A :=
  λ raw, match arms (raw !! key) with
         | Ok a => Ok (a, delete key raw)
         | Err e => Err e
         end.

(** *** The arms of each [take_*] helper *)

Definition required_scalar (key source_path : string) (o : option (nat * Value))
    : result Error string :=
  match o with
  | Some (_, Scalar v) =>
      if negb (is_empty v) then Ok v else Err (MissingRequired key source_path)
  | None => Err (MissingRequired key source_path)
  | Some (line_no, Array _ as other) => Err (mismatch key SHAPE_SCALAR other line_no)
  end.

Definition optional_scalar (key : string) (o : option (nat * Value))
    : result Error (option string) :=
  match o with
  | Some (_, Scalar v) => Ok (Some v)
  | Some (line_no, Array _ as other) => Err (mismatch key SHAPE_SCALAR other line_no)
  | None => Ok None
  end.

Definition scalar_or_default (key default : string) (o : option (nat * Value))
    : result Error string :=
  match o with
  | Some (_, Scalar v) => if negb (is_empty v) then Ok v else Ok default
  | None => Ok default
  | Some (line_no, Array _ as other) => Err (mismatch key SHAPE_SCALAR other line_no)
  end.

Definition u32_or_default (key : string) (default : N) (o : option (nat * Value))
    : result Error N :=
  match o with
  | Some (line_no, Scalar v) =>
      if negb (is_empty v)
      then map_err (λ _, InvalidInteger key line_no v) (parse_uint U32_MAX v)
      else Ok default
  | None => Ok default
  | Some (line_no, Array _ as other) => Err (mismatch key SHAPE_SCALAR other line_no)
  end.

Definition bool_or_default (key : string) (default : bool) (o : option (nat * Value))
    : result Error bool :=
  match o with
  | Some (_, Scalar v) =>
      let w := to_ascii_lowercase v in
      Ok (if bool_decide (w ∈ ["true"; "1"; "yes"; "on"]) then true
          else if bool_decide (w ∈ ["false"; "0"; "no"; "off"]) then false
          else default)
  | Some (line_no, Array _ as other) => Err (mismatch key SHAPE_SCALAR other line_no)
  | None => Ok default
  end.

Definition bool_strict_or_default (key : string) (default : bool) (o : option (nat * Value))
    : result Error bool :=
  match o with
  | Some (line_no, Scalar v) =>
      if bool_decide (v = "true") then Ok true
      else if bool_decide (v = "false") then Ok false
      else if bool_decide (v = "") then Ok default
      else Err (InvalidBool key line_no v)
  | Some (line_no, Array _ as other) => Err (mismatch key SHAPE_SCALAR other line_no)
  | None => Ok default
  end.

Definition optional_array (key : string) (o : option (nat * Value))
    : result Error (option (list string)) :=
  match o with
  | Some (_, Array v) => Ok (Some v)
  | Some (line_no, Scalar _ as other) => Err (mismatch key SHAPE_ARRAY other line_no)
  | None => Ok None
  end.

Definition take_required_scalar (key source_path : string) : Take string :=
  take_with key (required_scalar key source_path).
Definition take_optional_scalar (key : string) : Take (option string) :=
  take_with key (optional_scalar key).
Definition take_scalar_or_default (key default : string) : Take string :=
  take_with key (scalar_or_default key default).
Definition take_u32_or_default (key : string) (default : N) : Take N :=
  take_with key (u32_or_default key default).
Definition take_bool_or_default (key : string) (default : bool) : Take bool :=
  take_with key (bool_or_default key default).
Definition take_bool_strict_or_default (key : string) (default : bool) : Take bool :=
  take_with key (bool_strict_or_default key default).
Definition take_optional_array (key : string) : Take (option (list string)) :=
  take_with key (optional_array key).

(** ** Warnings: the order [(line_no, key)] *)

(** [a_line.cmp(b_line).then_with(|| a_key.cmp(b_key))] is not [Greater]. *)
Definition warning_le (a b : Warning) : Prop :=
  warning_line a < warning_line b
  ∨ warning_line a = warning_line b ∧ String.leb (warning_key a) (warning_key b) = true.
#[export] Instance warning_le_dec : RelDecision warning_le.
Proof. intros a b. unfold warning_le. apply _. Defined.

(** [raw.into_iter().map(..).collect()], then [sort_by]: [entries] is the order
    in which the hash map yields its entries. *)
Definition unknown_key_warnings (entries : list (string * (nat * Value))) : list Warning :=
  merge_sort warning_le ((λ '(key, (line_no, _)), UnknownKey key line_no) <$> entries).

(** ** [build_config] *)

(** The struct-building part, before the unknown keys are looked at. *)
Definition take_fields (source_path : string) : Take (list Warning → ClusterConfig) :=
  cp_name ← take_required_scalar "CP_NAME" source_path;
  ssh_pubkey_file ← take_required_scalar "SSH_PUBKEY_FILE" source_path;
  kvm_host ← take_optional_scalar "KVM_HOST";
  image_source ← take_scalar_or_default "IMAGE_SOURCE" "ghcr";
  ghcr_tag ← take_scalar_or_default "GHCR_TAG" "latest";
  enable_cloud_init ← take_u32_or_default "ENABLE_CLOUD_INIT" 0;
  auto_update_cp ← take_bool_strict_or_default "AUTO_UPDATE_CP" true;
  switch_to_ghcr ← take_bool_strict_or_default "SWITCH_TO_GHCR" true;
  cp_memory ← take_u32_or_default "CP_MEMORY" 8192;
  cp_vcpus ← take_u32_or_default "CP_VCPUS" 4;
  worker_memory ← take_u32_or_default "WORKER_MEMORY" 4096;
  worker_vcpus ← take_u32_or_default "WORKER_VCPUS" 2;
  pool_dir ← take_scalar_or_default "POOL_DIR" "/var/lib/libvirt/images";
  run_verify ← take_bool_or_default "RUN_VERIFY" false;
  bootc_update_schedule ← take_optional_scalar "BOOTC_UPDATE_SCHEDULE";
  bootc_update_repo_k8s ← take_optional_scalar "BOOTC_UPDATE_REPO_K8S";
  bootc_update_repo_worker ← take_optional_scalar "BOOTC_UPDATE_REPO_WORKER";
  worker_names ← take_optional_array "WORKER_NAMES";
  cp_ip ← take_optional_scalar "CP_IP";
  worker_ips ← take_optional_array "WORKER_IPS";
  pod_cidr ← take_optional_scalar "POD_CIDR";
  service_cidr ← take_optional_scalar "SERVICE_CIDR";
  cp_mac ← take_optional_scalar "CP_MAC";
  worker_macs ← take_optional_array "WORKER_MACS";
  extra_network ← take_optional_scalar "EXTRA_NETWORK";
  extra_net_cp_mac ← take_optional_scalar "EXTRA_NET_CP_MAC";
  extra_net_cp_ip ← take_optional_scalar "EXTRA_NET_CP_IP";
  extra_net_worker_macs ← take_optional_array "EXTRA_NET_WORKER_MACS";
  extra_net_worker_ips ← take_optional_array "EXTRA_NET_WORKER_IPS";
  mret (mkClusterConfig cp_name ssh_pubkey_file kvm_host image_source ghcr_tag
    enable_cloud_init auto_update_cp switch_to_ghcr cp_memory cp_vcpus worker_memory
    worker_vcpus pool_dir run_verify bootc_update_schedule bootc_update_repo_k8s
    bootc_update_repo_worker worker_names cp_ip worker_ips pod_cidr service_cidr cp_mac
    worker_macs extra_network extra_net_cp_mac extra_net_cp_ip extra_net_worker_macs
    extra_net_worker_ips).

(** [iter] is the order in which [raw.into_iter()] yields what is left. *)
Definition build_config_iter (iter : assignments → list (string * (nat * Value)))
    (raw : assignments) (source_path : string) : result Error ClusterConfig :=
  '(cfg, rest) ← take_fields source_path raw;
  Ok (cfg (unknown_key_warnings (iter rest))).

Definition build_config : assignments → string → result Error ClusterConfig :=
  build_config_iter map_to_list.

Definition parse_with_source (input source_path : string) : result Error ClusterConfig :=
  assigned ← tokenize input;
  build_config assigned source_path.

Definition parse_str (input : string) : result Error ClusterConfig :=
  parse_with_source input "<inline>".

(** [parse]: [read_to_string] is [fs::read_to_string]. *)
Definition parse (read_to_string : string → result io_error string) (path : string)
    : result Error ClusterConfig :=
  raw ← map_err (Io path) (read_to_string path);
  parse_with_source raw path.
