(* ===== verification/ConfigFacts.v ===== *)
(** * hbird-config: what a parsed configuration contains

    Correctness of the field assembly: each field of the result is a function
    of one assignment, the first ill-formed field decides the error, and the
    warnings are exactly the keys nobody consumed, in a fixed order. *)

From S2P Require Import Prelude RustStr ConfigTypes ConfigLexer ConfigBuild.

(** The keys [build_config] consumes, in order. *)
Definition known_keys : list string :=
  ["CP_NAME"; "SSH_PUBKEY_FILE"; "KVM_HOST"; "IMAGE_SOURCE"; "GHCR_TAG";
   "ENABLE_CLOUD_INIT"; "AUTO_UPDATE_CP"; "SWITCH_TO_GHCR"; "CP_MEMORY"; "CP_VCPUS";
   "WORKER_MEMORY"; "WORKER_VCPUS"; "POOL_DIR"; "RUN_VERIFY"; "BOOTC_UPDATE_SCHEDULE";
   "BOOTC_UPDATE_REPO_K8S"; "BOOTC_UPDATE_REPO_WORKER"; "WORKER_NAMES"; "CP_IP";
   "WORKER_IPS"; "POD_CIDR"; "SERVICE_CIDR"; "CP_MAC"; "WORKER_MACS"; "EXTRA_NETWORK";
   "EXTRA_NET_CP_MAC"; "EXTRA_NET_CP_IP"; "EXTRA_NET_WORKER_MACS"; "EXTRA_NET_WORKER_IPS"].

Definition remove_keys (ks : list string) (raw : assignments) : assignments :=
  filter (λ kv, kv.1 ∉ ks) raw.

(** Specification: each field read from its own assignment. *)
Definition reads_config (raw : assignments) (path : string) (c : ClusterConfig) : Prop :=
  let opt k := optional_scalar k (raw !! k) in
  let arr k := optional_array k (raw !! k) in
  let u32 k d := u32_or_default k d (raw !! k) in
  let str k d := scalar_or_default k d (raw !! k) in
  let strict k d := bool_strict_or_default k d (raw !! k) in
  required_scalar "CP_NAME" path (raw !! "CP_NAME") = Ok (cp_name c)
  ∧ required_scalar "SSH_PUBKEY_FILE" path (raw !! "SSH_PUBKEY_FILE")
    = Ok (ssh_pubkey_file c)
  ∧ opt "KVM_HOST" = Ok (kvm_host c)
  ∧ str "IMAGE_SOURCE" "ghcr" = Ok (image_source c)
  ∧ str "GHCR_TAG" "latest" = Ok (ghcr_tag c)
  ∧ u32 "ENABLE_CLOUD_INIT" 0%N = Ok (enable_cloud_init c)
  ∧ strict "AUTO_UPDATE_CP" true = Ok (auto_update_cp c)
  ∧ strict "SWITCH_TO_GHCR" true = Ok (switch_to_ghcr c)
  ∧ u32 "CP_MEMORY" 8192%N = Ok (cp_memory c)
  ∧ u32 "CP_VCPUS" 4%N = Ok (cp_vcpus c)
  ∧ u32 "WORKER_MEMORY" 4096%N = Ok (worker_memory c)
  ∧ u32 "WORKER_VCPUS" 2%N = Ok (worker_vcpus c)
  ∧ str "POOL_DIR" "/var/lib/libvirt/images" = Ok (pool_dir c)
  ∧ bool_or_default "RUN_VERIFY" false (raw !! "RUN_VERIFY") = Ok (run_verify c)
  ∧ opt "BOOTC_UPDATE_SCHEDULE" = Ok (bootc_update_schedule c)
  ∧ opt "BOOTC_UPDATE_REPO_K8S" = Ok (bootc_update_repo_k8s c)
  ∧ opt "BOOTC_UPDATE_REPO_WORKER" = Ok (bootc_update_repo_worker c)
  ∧ arr "WORKER_NAMES" = Ok (worker_names c)
  ∧ opt "CP_IP" = Ok (cp_ip c)
  ∧ arr "WORKER_IPS" = Ok (worker_ips c)
  ∧ opt "POD_CIDR" = Ok (pod_cidr c)
  ∧ opt "SERVICE_CIDR" = Ok (service_cidr c)
  ∧ opt "CP_MAC" = Ok (cp_mac c)
  ∧ arr "WORKER_MACS" = Ok (worker_macs c)
  ∧ opt "EXTRA_NETWORK" = Ok (extra_network c)
  ∧ opt "EXTRA_NET_CP_MAC" = Ok (extra_net_cp_mac c)
  ∧ opt "EXTRA_NET_CP_IP" = Ok (extra_net_cp_ip c)
  ∧ arr "EXTRA_NET_WORKER_MACS" = Ok (extra_net_worker_macs c)
  ∧ arr "EXTRA_NET_WORKER_IPS" = Ok (extra_net_worker_ips c).

Definition err_of {A} (r : result Error A) : option Error :=
  match r with Ok _ => None | Err e => Some e end.

(** Specification: what is wrong with each field, in the order of the fields. *)
Definition field_errors (raw : assignments) (path : string) : list (option Error) :=
  let opt k := err_of (optional_scalar k (raw !! k)) in
  let arr k := err_of (optional_array k (raw !! k)) in
  let u32 k d := err_of (u32_or_default k d (raw !! k)) in
  let str k d := err_of (scalar_or_default k d (raw !! k)) in
  let strict k := err_of (bool_strict_or_default k true (raw !! k)) in
  let req k := err_of (required_scalar k path (raw !! k)) in
  [req "CP_NAME"; req "SSH_PUBKEY_FILE"; opt "KVM_HOST"; str "IMAGE_SOURCE" "ghcr";
   str "GHCR_TAG" "latest"; u32 "ENABLE_CLOUD_INIT" 0%N; strict "AUTO_UPDATE_CP";
   strict "SWITCH_TO_GHCR"; u32 "CP_MEMORY" 8192%N; u32 "CP_VCPUS" 4%N; u32 "WORKER_MEMORY" 4096%N;
   u32 "WORKER_VCPUS" 2%N; str "POOL_DIR" "/var/lib/libvirt/images";
   err_of (bool_or_default "RUN_VERIFY" false (raw !! "RUN_VERIFY"));
   opt "BOOTC_UPDATE_SCHEDULE"; opt "BOOTC_UPDATE_REPO_K8S";
   opt "BOOTC_UPDATE_REPO_WORKER"; arr "WORKER_NAMES"; opt "CP_IP"; arr "WORKER_IPS";
   opt "POD_CIDR"; opt "SERVICE_CIDR"; opt "CP_MAC"; arr "WORKER_MACS";
   opt "EXTRA_NETWORK"; opt "EXTRA_NET_CP_MAC"; opt "EXTRA_NET_CP_IP";
   arr "EXTRA_NET_WORKER_MACS"; arr "EXTRA_NET_WORKER_IPS"].

(** The first [Some] of a list. *)
Definition first_some {A} (l : list (option A)) : option A := head (omap id l).

(** ** Removing keys while reading them *)

(** [m] reads [rd] off the assignments of [ks] and removes them. *)
Definition takes {A} (ks : list string) (m : Take A) (rd : assignments → result Error A)
    : Prop :=
  (∀ raw, m raw = (λ a, (a, remove_keys ks raw)) <$> rd raw)
  ∧ (∀ raw raw', (∀ k, k ∈ ks → raw !! k = raw' !! k) → rd raw = rd raw').

Lemma remove_keys_nil raw : remove_keys [] raw = raw.
Proof.
  apply map_filter_id. intros k x _. simpl. apply not_elem_of_nil.
Qed.

Lemma lookup_remove_keys ks raw k x :
  remove_keys ks raw !! k = Some x ↔ raw !! k = Some x ∧ k ∉ ks.
Proof. unfold remove_keys. by rewrite map_lookup_filter_Some. Qed.

Lemma remove_keys_delete k ks raw :
  remove_keys ks (delete k raw) = remove_keys (k :: ks) raw.
Proof.
  apply map_eq. intros j. apply option_eq. intros x.
  rewrite !lookup_remove_keys, lookup_delete_Some, not_elem_of_cons. naive_solver.
Qed.

Lemma takes_ret {A} (a : A) : takes [] (mret a) (λ _, Ok a).
Proof. split; [|done]. intros raw. simpl. by rewrite remove_keys_nil. Qed.

Lemma takes_cons {A B} k ks (arms : option (nat * Value) → result Error A)
    (f : A → Take B) (rd : A → assignments → result Error B) :
  k ∉ ks → (∀ a, takes ks (f a) (rd a)) →
  takes (k :: ks) (take_with k arms ≫= f) (λ raw, arms (raw !! k) ≫= λ a, rd a raw).
Proof.
  intros Hk Hf. split.
  - intros raw. unfold mbind, take_bind, take_with. simpl.
    destruct (arms (raw !! k)) as [a|e]; [|done]. simpl.
    destruct (Hf a) as [-> Hrd]. rewrite remove_keys_delete. f_equal.
    apply Hrd. intros j Hj. apply lookup_delete_ne. intros ->. done.
  - intros raw raw' Hagree. rewrite (Hagree k) by set_solver.
    destruct (arms (raw' !! k)) as [a|e]; [|done]. simpl.
    apply Hf. intros j Hj. apply Hagree. set_solver.
Qed.

Lemma err_of_bind {A B} (r : result Error A) (f : A → result Error B) l :
  (∀ a, err_of (f a) = first_some l) →
  err_of (r ≫= f) = first_some (err_of r :: l).
Proof. intros Hf. destruct r; [apply Hf|done]. Qed.

Lemma take_fields_takes path :
  ∃ rd, takes known_keys (take_fields path) rd
        ∧ (∀ raw f ws, rd raw = Ok f → reads_config raw path (f ws))
        ∧ (∀ raw c, reads_config raw path c →
             ∃ f, rd raw = Ok f ∧ f (warnings c) = c ∧ ∀ ws, warnings (f ws) = ws)
        ∧ (∀ raw f ws, rd raw = Ok f → warnings (f ws) = ws)
        ∧ (∀ raw, err_of (rd raw) = first_some (field_errors raw path)).
Proof.
  eexists. split; [|split; [|split; [|split]]].
  - unfold known_keys, take_fields.
    repeat (apply takes_cons; [by apply (bool_decide_unpack _)|intros ?]).
    apply takes_ret.
  - intros raw f ws H. cbv beta in H. repeat inv_bind H.
    injection H as <-. unfold reads_config. simpl. repeat split; assumption.
  - intros raw c H. destruct c. unfold reads_config in H. simpl in H. destruct_and! H.
    eexists. split_and!.
    + cbv beta. repeat match goal with
      | E : ?x = Ok _ |- context [?x ≫= _] => rewrite E; cbn [mbind result_bind]
      end. reflexivity.
    + reflexivity.
    + reflexivity.
  - intros raw f ws H. cbv beta in H. repeat inv_bind H. by injection H as <-.
  - intros raw. cbv beta zeta delta [field_errors].
    repeat (apply err_of_bind; intros ?). reflexivity.
Qed.

(** ** The order of the warnings *)

#[export] Instance warning_le_trans : Transitive warning_le.
Proof.
  intros a b c [|[? Hab]] [|[? Hbc]]; unfold warning_le; try (left; lia).
  right. split; [lia|]. by eapply leb_trans_s.
Qed.

#[export] Instance warning_le_total : Total warning_le.
Proof.
  intros a b. unfold warning_le.
  destruct (Nat.lt_trichotomy (warning_line a) (warning_line b)) as [|[|]]; [tauto| |tauto].
  destruct (String.leb_total (warning_key a) (warning_key b)); auto.
Qed.

#[export] Instance warning_le_antisymm : AntiSymm (=) warning_le.
Proof.
  intros [k n] [k' n'] [|[? Hab]] [|[? Hba]]; simpl in *; try lia.
  f_equal; [|done]. by apply String.leb_antisym.
Qed.

Lemma unknown_key_warnings_perm es es' :
  es ≡ₚ es' → unknown_key_warnings es = unknown_key_warnings es'.
Proof.
  intros Hp. unfold unknown_key_warnings. apply (Sorted_unique warning_le).
  - apply Sorted_merge_sort, _.
  - apply Sorted_merge_sort, _.
  - rewrite !merge_sort_Permutation. by apply fmap_Permutation.
Qed.

Lemma elem_of_unknown_key_warnings es k n :
  UnknownKey k n ∈ unknown_key_warnings es ↔ ∃ v, (k, (n, v)) ∈ es.
Proof.
  unfold unknown_key_warnings. rewrite merge_sort_Permutation, list_elem_of_fmap.
  split; [intros ([k' [n' v]] & [= -> ->] & ?); eauto|].
  intros [v Hv]. by exists (k, (n, v)).
Qed.

(** ** Properties *)

Lemma build_config_ok raw path c :
  build_config raw path = Ok c
  ↔ reads_config raw path c
    ∧ warnings c = unknown_key_warnings (map_to_list (remove_keys known_keys raw)).
Proof.
  destruct (take_fields_takes path) as (rd & [Ht _] & Hfwd & Hbwd & Hw & _).
  unfold build_config, build_config_iter. rewrite Ht. split.
  - destruct (rd raw) as [f|] eqn:E; simpl; [|done]. intros [= <-].
    split; [by apply Hfwd|]. by eapply Hw.
  - intros [Hc Hws]. destruct (Hbwd _ _ Hc) as (f & -> & Hf & _). simpl.
    by rewrite <-Hws, Hf.
Qed.


(** When [build_config] fails, the error is that of the first field, in
    declaration order, whose assignment is ill-formed. *)
Theorem build_config_first_error raw path e :
  build_config raw path = Err e ↔ first_some (field_errors raw path) = Some e.
Proof.
  destruct (take_fields_takes path) as (rd & [Ht _] & _ & _ & _ & He).
  unfold build_config, build_config_iter. rewrite Ht, <-He.
  destruct (rd raw); simpl; naive_solver.
Qed.

(** The warnings of a successful parse are exactly the assigned keys that
    no field consumes, each with the line of its assignment, sorted by
    [(line_no, key)]. *)
Theorem build_config_warnings raw path c :
  build_config raw path = Ok c →
  Sorted warning_le (warnings c)
  ∧ NoDup (warnings c)
  ∧ (∀ k n, (UnknownKey k n ∈ warnings c)
            ↔ (k ∉ known_keys) ∧ ∃ v, raw !! k = Some (n, v)).
Proof.
  intros [_ ->]%build_config_ok. split_and!.
  - apply Sorted_merge_sort, _.
  - unfold unknown_key_warnings. rewrite merge_sort_Permutation.
    apply NoDup_fmap_2_strong; [|apply NoDup_map_to_list].
    intros [k [n v]] [k' [n' v']] Hk Hk' [= -> ->].
    apply elem_of_map_to_list in Hk, Hk'. congruence.
  - intros k n. rewrite elem_of_unknown_key_warnings.
    setoid_rewrite elem_of_map_to_list. setoid_rewrite lookup_remove_keys. naive_solver.
Qed.

(** The result does not depend on the order in which the hash map yields
    its entries ("HashMap iteration order does not leak into the public API"). *)
Theorem build_config_iteration_order iter1 iter2 raw path :
  (∀ m, iter1 m ≡ₚ map_to_list m) → (∀ m, iter2 m ≡ₚ map_to_list m) →
  build_config_iter iter1 raw path = build_config_iter iter2 raw path.
Proof.
  intros H1 H2. unfold build_config_iter.
  destruct (take_fields path raw) as [[f rest]|]; [|done]. simpl. do 2 f_equal.
  apply unknown_key_warnings_perm. by rewrite H1, H2.
Qed.

(** An assignment set with a key nobody consumes. *)
Definition sample_raw : assignments :=
  <["CP_NAME" := (1%nat, Scalar "cp")]> (<["TYPO" := (3%nat, Scalar "x")]>
    (<["SSH_PUBKEY_FILE" := (2%nat, Scalar "k.pub")]> ∅)).

Lemma build_config_warnings_witness :
  match build_config sample_raw "c.conf" with
  | Ok c =>
      Sorted warning_le (warnings c) ∧ NoDup (warnings c)
      ∧ (∀ k n, (UnknownKey k n ∈ warnings c)
                ↔ (k ∉ known_keys) ∧ ∃ v, sample_raw !! k = Some (n, v))
  | Err _ => False
  end.
Proof.
  destruct (build_config sample_raw "c.conf") as [c|e] eqn:E.
  - exact (build_config_warnings sample_raw "c.conf" c E).
  - vm_compute in E. discriminate E.
Defined.

Lemma build_config_iteration_order_witness :
  build_config_iter map_to_list sample_raw "c.conf"
  = build_config_iter (λ m, rev (map_to_list m)) sample_raw "c.conf".
Proof.
  apply (build_config_iteration_order map_to_list (λ m, rev (map_to_list m))).
  - intros m. reflexivity.
  - intros m. symmetry. apply Permutation_rev.
Defined.
