(* ===== verification/ConfigLexerFacts.v ===== *)
(** * hbird-config: correctness of the line parser

    The parser reads back every file written in the quoted form, overwrites
    earlier assignments, accepts only shell identifiers as keys, and reports
    errors at lines of the file. *)

From S2P Require Import Prelude RustStr ConfigTypes ConfigLexer.
From Stdlib Require Import Ascii.

(** ** A printer for assignments: the quoted form *)

Definition quoted (v : string) : string := DQ +:+ v +:+ DQ.

Definition render_value (v : Value) : string :=
  match v with
  | Scalar v => quoted v
  | Array vs => "(" +:+ join " " (quoted <$> vs) +:+ ")"
  end.

Definition render_line (kv : string * Value) : string := kv.1 +:+ "=" +:+ render_value kv.2.

Fixpoint render (l : list (string * Value)) : string :=
  match l with
  | [] => ""
  | kv :: l' => render_line kv +:+ NL +:+ render l'
  end.

(** What can be written between double quotes on one line. *)
Definition quotable (v : string) : bool :=
  negb (contains_char dquote v) && negb (contains_char nl v).

(** Inside an array the text may not hold the closing parenthesis either. *)
Definition quotable_elem (v : string) : bool :=
  quotable v && negb (contains_char ")" v) && complete_chars v.

Definition renderable (kv : string * Value) : bool :=
  is_valid_key kv.1
  && match kv.2 with
     | Scalar v => quotable v
     | Array vs => forallb quotable_elem vs
     end.

(** The assignments of a file, from line [n] on: the last one of a key wins. *)
Fixpoint assign_all (n : nat) (out : assignments) (l : list (string * Value)) : assignments :=
  match l with
  | [] => out
  | (k, v) :: l' => assign_all (S n) (<[k := (n, v)]> out) l'
  end.

(** ** Keys *)

Lemma is_valid_key_spec s :
  is_valid_key s = true ↔
  (String.length s ≤ MAX_KEY_LEN)%nat
  ∧ ∃ a r, s = String a r ∧ is_key_start a = true ∧ all_bytes is_key_char r = true.
Proof.
  unfold is_valid_key.
  destruct (Nat.ltb_spec MAX_KEY_LEN (String.length s)) as [H|H].
  { rewrite orb_true_r. split; [done|]. intros [? _]. lia. }
  destruct s as [|a r]; simpl; [naive_solver|].
  rewrite andb_true_iff. split; [eauto 10|]. intros (_ & ? & ? & [= -> ->] & ?). done.
Qed.

Lemma is_key_start_char a : is_key_start a = true → is_key_char a = true.
Proof.
  unfold is_key_start, is_key_char, is_ascii_alphanumeric.
  rewrite !orb_true_iff. tauto.
Qed.

Lemma is_key_char_range a :
  is_key_char a = true →
  (48 ≤ byte_val a ≤ 57 ∨ 65 ≤ byte_val a ≤ 90 ∨ byte_val a = 95 ∨ 97 ≤ byte_val a ≤ 122)%N.
Proof.
  unfold is_key_char, is_ascii_alphanumeric, is_ascii_alphabetic, is_ascii_digit,
    is_ascii_lower, is_ascii_upper.
  rewrite !orb_true_iff, !in_range_spec, Ascii.eqb_eq.
  intros [[[?|?]|?]| ->]; [lia..|]. right; right; left. done.
Qed.

Lemma is_valid_key_chars k c :
  is_valid_key k = true → is_key_char c = false → contains_char c k = false.
Proof.
  intros (_ & a & r & -> & Ha%is_key_start_char & Hr)%is_valid_key_spec Hc.
  apply (all_bytes_not_contains is_key_char); [done|]. simpl. by rewrite Ha, Hr.
Qed.

Lemma key_char_trim a r :
  is_key_char a = true → trim_start (String a r) = String a r.
Proof.
  intros Ha%is_key_char_range. apply trim_start_id.
  - apply utf8_len_ascii. lia.
  - unfold is_whitespace. cbn [chr]. apply orb_false_iff. split.
    + destruct (in_range 9 13 a) eqn:E; [|done]. apply in_range_spec in E. lia.
    + apply Ascii.eqb_neq. intros ->. unfold byte_val in Ha. simpl in Ha. lia.
Qed.

(** ** Array bodies *)

Section body.
Variables (body : string) (line_no : nat).
Local Abbreviation go := (tokenize_body_go body line_no).

Lemma go_quoted_chars q e out cs l :
  q ∉ cs → go (Quoted q e) out (cs ++ l) = go (Quoted q (e +:+ concat_str cs)) out l.
Proof.
  revert e. induction cs as [|c cs IH]; intros e Hq.
  - cbn [app concat_str]. by rewrite app_nil_s.
  - apply not_elem_of_cons in Hq as [Hc Hcs].
    cbn [app tokenize_body_go concat_str].
    rewrite bool_decide_eq_false_2 by done. by rewrite IH, app_assoc_s.
Qed.

Lemma go_quoted v out l :
  quotable_elem v = true →
  go Between out (chars (quoted v) ++ l) = go Between (out ++ [v]) l.
Proof.
  unfold quotable_elem, quotable. rewrite !andb_true_iff, !negb_true_iff.
  intros [[[Hd _] _] Hc]. unfold quoted, DQ at 1, chr.
  rewrite app_cons_s, chars_cons by done. cbn [String.append].
  rewrite (chars_app v) by done. cbn [app].
  rewrite <-app_assoc. change (go Between out (?c :: ?k)) with (go (Quoted DQ "") out k).
  rewrite go_quoted_chars.
  - cbn. by rewrite concat_chars.
  - intros H%chars_contains. congruence.
Qed.

Lemma complete_quoted v : complete_chars v = true → complete_chars (quoted v) = true.
Proof.
  intros H. unfold quoted, DQ, chr. cbn -[String.append]. simpl.
  induction v as [v IH] using string_len_ind. destruct v as [|a s1]; [done|].
  revert H. cbn [complete_chars String.append].
  destruct (utf8_len a) as [|[|[|[|[|n]]]]]; try done.
  - intros H. apply IH; [simpl; lia|done].
  - destruct s1 as [|b s2]; [done|]. intros H. apply IH; [simpl; lia|done].
  - destruct s1 as [|b [|c s3]]; try done. intros H. apply IH; [simpl; lia|done].
  - destruct s1 as [|b [|c [|d s4]]]; try done. intros H. apply IH; [simpl; lia|done].
Qed.

(** A body of double-quoted elements is split into those elements. *)
Lemma go_render_body vs out :
  forallb quotable_elem vs = true →
  go Between out (chars (join " " (quoted <$> vs))) = Ok (out ++ vs).
Proof.
  revert out. induction vs as [|v vs IH]; intros out.
  - intros _. by rewrite app_nil_r.
  - cbn [forallb]. rewrite andb_true_iff. intros [Hv Hvs].
    assert (complete_chars (quoted v) = true) as Hcv.
    { apply complete_quoted. unfold quotable_elem in Hv.
      by apply andb_true_iff in Hv as [_ ?]. }
    destruct vs as [|w ws].
    + change (join " " (quoted <$> [v])) with (quoted v).
      rewrite <-(app_nil_r (chars (quoted v))), go_quoted by done. done.
    + change (join " " (quoted <$> (v :: w :: ws))) with
        (quoted v +:+ String " " (join " " (quoted <$> (w :: ws)))).
      rewrite chars_app, go_quoted by done. rewrite chars_cons by done.
      change (go Between ?o (chr " " :: ?k)) with (go Between o k).
      rewrite IH by done. by rewrite <-app_assoc.
Qed.
End body.

(** ** Lines *)

Lemma join_quoted_contains c vs :
  c ≠ dquote → c ≠ " "%char → Forall (λ v, contains_char c v = false) vs →
  contains_char c (join " " (quoted <$> vs)) = false.
Proof.
  intros Hd%Ascii.eqb_neq Hs%Ascii.eqb_neq Hvs.
  assert (∀ v, contains_char c v = false → contains_char c (quoted v) = false) as Hq.
  { intros v Hv. unfold quoted. rewrite !contains_char_app, Hv.
    unfold DQ, chr, contains_char. simpl. by rewrite Hd. }
  induction Hvs as [|v [|w vs] Hv Hvs IH].
  - done.
  - by apply Hq.
  - change (join " " (quoted <$> (v :: w :: vs))) with
      (quoted v +:+ " " +:+ join " " (quoted <$> (w :: vs))).
    rewrite !contains_char_app, Hq, IH by done. simpl.
    unfold contains_char. simpl. by rewrite Hs.
Qed.

Lemma quotable_elem_no c vs :
  c = ")"%char ∨ c = nl → forallb quotable_elem vs = true →
  contains_char c (join " " (quoted <$> vs)) = false.
Proof.
  intros Hc H. apply join_quoted_contains; [by destruct Hc as [-> | ->]..|].
  apply Forall_forall. intros v Hv. rewrite forallb_elem in H. specialize (H v Hv).
  unfold quotable_elem, quotable in H. rewrite !andb_true_iff, !negb_true_iff in H.
  destruct Hc as [-> | ->]; tauto.
Qed.

Lemma render_line_no_nl kv : renderable kv = true → contains_char nl (render_line kv) = false.
Proof.
  destruct kv as [k v]. unfold renderable, render_line. cbn [fst snd].
  rewrite andb_true_iff. intros [Hk Hv].
  rewrite !contains_char_app, (is_valid_key_chars k) by done.
  change (contains_char nl "=") with false. cbn [orb].
  destruct v as [v|vs]; cbn [render_value].
  - unfold quotable in Hv. apply andb_true_iff in Hv as [_ Hv%negb_true_iff].
    unfold quoted. rewrite !contains_char_app, Hv. done.
  - rewrite !contains_char_app, quotable_elem_no by auto. done.
Qed.

Lemma render_line_end kv : strip_suffix_char cr (render_line kv) = None.
Proof.
  destruct kv as [k [v|vs]]; unfold render_line; cbn [fst snd render_value].
  - unfold quoted. rewrite !app_assoc_s. by apply strip_suffix_char_ne.
  - rewrite !app_assoc_s. change ")" with (chr ")"). by apply strip_suffix_char_ne.
Qed.

Lemma lines_render l :
  forallb renderable l = true → lines (render l) = render_line <$> l.
Proof.
  induction l as [|kv l IH]; cbn [forallb render]; [done|].
  rewrite andb_true_iff. intros [Hkv Hl]. unfold NL, chr. cbn [String.append].
  rewrite lines_line, IH; [done|done|by apply render_line_no_nl|apply render_line_end].
Qed.

Lemma is_valid_key_trim k s : is_valid_key k = true → trim_start (k +:+ s) = k +:+ s.
Proof.
  intros (_ & a & r & -> & Ha%is_key_start_char & _)%is_valid_key_spec.
  by apply key_char_trim.
Qed.

Lemma tokenize_render_line n kv rest :
  renderable kv = true → tokenize_line n (render_line kv) rest = Ok (kv, O).
Proof.
  destruct kv as [k v]. unfold renderable, render_line. cbn [fst snd].
  rewrite andb_true_iff. intros [Hk Hv]. unfold tokenize_line.
  rewrite is_valid_key_trim by done.
  change ("=" +:+ ?x) with (String "=" x).
  rewrite find_char_app by by apply is_valid_key_chars.
  rewrite str_take_app, str_drop_app_S, Hk. cbn [negb]. destruct v as [v|vs].
  - change (strip_prefix "(" (render_value (Scalar v))) with (@None string).
    cbn [render_value]. unfold parse_scalar.
    change (quoted v) with (String dquote (v +:+ DQ)).
    rewrite trim_start_id by done.
    change (strip_prefix DQ (String dquote ?x)) with (Some x). cbv beta iota.
    unfold quotable in Hv. apply andb_true_iff in Hv as [Hv%negb_true_iff _].
    unfold parse_quoted, DQ, chr. rewrite find_char_app by done.
    unfold check_trailing_after_quote. rewrite str_drop_app_S, str_take_app. done.
  - cbn [render_value]. unfold parse_array. cbn [String.append strip_prefix].
    change (Ascii.eqb "(" "(") with true. cbv beta iota.
    rewrite find_char_app by (apply quotable_elem_no; auto).
    rewrite str_take_app. unfold tokenize_array_body. by rewrite go_render_body.
Qed.

Lemma render_line_not_skipped kv : renderable kv = true → is_skipped (render_line kv) = false.
Proof.
  destruct kv as [k v]. unfold renderable, render_line, is_skipped. cbn [fst snd].
  rewrite andb_true_iff. intros [Hk _]. rewrite is_valid_key_trim by done.
  apply is_valid_key_spec in Hk as (_ & a & r & -> & Ha%is_key_start_char & _). simpl.
  apply is_key_char_range in Ha. apply Ascii.eqb_neq. intros ->.
  unfold byte_val in Ha. simpl in Ha. lia.
Qed.

Lemma tokenize_go_render l idx out :
  forallb renderable l = true →
  tokenize_go idx 0 out (render_line <$> l) = Ok (assign_all (S idx) out l).
Proof.
  revert idx out. induction l as [|kv l IH]; intros idx out; cbn [forallb]; [done|].
  rewrite andb_true_iff. intros [Hkv Hl].
  cbn [fmap list_fmap tokenize_go assign_all].
  rewrite render_line_not_skipped, tokenize_render_line by done.
  destruct kv as [k v]. cbn. by apply IH.
Qed.

(** C37: a configuration written as lines [KEY="value"] and
    [KEY=("a" "b" ...)], with shell identifiers as keys and values that can be
    quoted, is read back as exactly those assignments: each key is mapped to
    the value and the line of its last assignment. *)
Theorem tokenize_render l :
  forallb renderable l = true → tokenize (render l) = Ok (assign_all 1 ∅ l).
Proof.
  intros H. unfold tokenize. rewrite lines_render by done. by apply tokenize_go_render.
Qed.

Lemma tokenize_render_witness :
  tokenize (render [("CP_NAME", Scalar "cp one #1"); ("WORKER_NAMES", Array ["w1"; "w 2"]);
                    ("CP_NAME", Scalar "cp2")])
  = Ok (assign_all 1 ∅ [("CP_NAME", Scalar "cp one #1");
                        ("WORKER_NAMES", Array ["w1"; "w 2"]); ("CP_NAME", Scalar "cp2")]).
Proof. apply tokenize_render. vm_compute. reflexivity. Defined.

(** ** Errors point into the file *)

Lemma tokenize_body_error body n m out l e :
  tokenize_body_go body n m out l = Err e → error_line e = Some n.
Proof.
  revert m out. induction l as [|c l IH]; intros m out; cbn [tokenize_body_go].
  - by destruct m; intros [= <-].
  - destruct m; repeat case_match; apply IH.
Qed.

Lemma parse_array_go_error key n extra body ls e :
  parse_array_go key n extra body ls = Err e →
  ∃ i, error_line e = Some i ∧ (n ≤ i ≤ n + extra + length ls)%nat.
Proof.
  revert extra body. induction ls as [|line ls IH]; intros extra body; cbn [parse_array_go].
  - intros [= <-]. exists n. simpl. split; [done|lia].
  - destruct (find_char ")" line).
    + rewrite bind_Err. intros [He%tokenize_body_error|(? & _ & [=])].
      eexists. split; [done|]. simpl. lia.
    + case_match; intros (i & ? & ?)%IH; exists i; simpl; (split; [done|lia]).
Qed.

Lemma parse_array_go_consumed key n extra body ls vs c :
  parse_array_go key n extra body ls = Ok (vs, c) → (c ≤ extra + length ls)%nat.
Proof.
  revert extra body. induction ls as [|line ls IH]; intros extra body; cbn [parse_array_go].
  - done.
  - destruct (find_char ")" line).
    + intros (x & _ & [= _ <-])%bind_Ok. simpl. lia.
    + case_match; intros Hc%IH; simpl; lia.
Qed.

Lemma parse_array_error key n rest ls e :
  parse_array key n rest ls = Err e →
  ∃ i, error_line e = Some i ∧ (n ≤ i ≤ n + length ls)%nat.
Proof.
  unfold parse_array. destruct (find_char ")" rest).
  - rewrite bind_Err. intros [He%tokenize_body_error|(? & _ & [=])].
    exists n. split; [done|lia].
  - intros (i & ? & ?)%parse_array_go_error. exists i. split; [done|lia].
Qed.

Lemma parse_array_consumed key n rest ls vs c :
  parse_array key n rest ls = Ok (vs, c) → (c ≤ length ls)%nat.
Proof.
  unfold parse_array. destruct (find_char ")" rest).
  - intros (x & _ & [= _ <-])%bind_Ok. lia.
  - apply parse_array_go_consumed.
Qed.

Lemma parse_quoted_error q n raw rest e :
  parse_quoted q n raw rest = Err e → error_line e = Some n.
Proof.
  unfold parse_quoted, check_trailing_after_quote. case_match; [|by intros [= <-]].
  case_match; [done|]. by intros [= <-].
Qed.

Lemma parse_scalar_error n raw rhs e :
  parse_scalar n raw rhs = Err e → error_line e = Some n.
Proof.
  unfold parse_scalar. case_match; [apply parse_quoted_error|].
  case_match; [apply parse_quoted_error|done].
Qed.

Lemma tokenize_line_error n raw ls e :
  tokenize_line n raw ls = Err e →
  ∃ i, error_line e = Some i ∧ (n ≤ i ≤ n + length ls)%nat.
Proof.
  unfold tokenize_line. assert (∃ i, Some n = Some i ∧ (n ≤ i ≤ n + length ls)%nat) as Hn.
  { exists n. split; [done|lia]. }
  repeat case_match; try by intros [= <-].
  - rewrite bind_Err. intros [He%parse_array_error|([??] & _ & [=])]. done.
  - rewrite bind_Err. intros [He%parse_scalar_error|(? & _ & [=])]. by rewrite He.
Qed.

Lemma tokenize_line_ok n raw ls k v c :
  tokenize_line n raw ls = Ok (k, v, c) → is_valid_key k = true ∧ (c ≤ length ls)%nat.
Proof.
  unfold tokenize_line. case_match; [|done].
  destruct (is_valid_key _) eqn:Hk; [|done]. cbn [negb]. case_match.
  - intros ([vs c'] & Ha & [= <- <- <-])%bind_Ok.
    split; [done|]. by eapply parse_array_consumed.
  - intros (x & _ & [= <- <- <-])%bind_Ok. split; [done|lia].
Qed.

Lemma tokenize_go_error idx skip out ls e :
  tokenize_go idx skip out ls = Err e →
  ∃ i, error_line e = Some i ∧ (idx < i ≤ idx + length ls)%nat.
Proof.
  revert idx skip out. induction ls as [|raw ls IH]; intros idx skip out;
    cbn [tokenize_go]; [done|].
  destruct skip as [|skip]; [|intros (i & ? & ?)%IH; exists i; simpl; split; [done|lia]].
  case_match; [intros (i & ? & ?)%IH; exists i; simpl; split; [done|lia]|].
  rewrite bind_Err. intros [(i & ? & ?)%tokenize_line_error|([[k v] c] & _ & Hgo)].
  - exists i. simpl. split; [done|lia].
  - apply IH in Hgo as (i & ? & ?). exists i. simpl. split; [done|lia].
Qed.

Lemma tokenize_go_entries idx skip out ls m :
  tokenize_go idx skip out ls = Ok m →
  ∀ k n v, m !! k = Some (n, v) →
  out !! k = Some (n, v)
  ∨ is_valid_key k = true ∧ ∃ raw c,
      (idx < n)%nat ∧ ls !! (n - S idx)%nat = Some raw ∧ is_skipped raw = false
      ∧ tokenize_line n raw (drop (n - idx) ls) = Ok (k, v, c).
Proof.
  revert idx skip out. induction ls as [|raw ls IH]; intros idx skip out; cbn [tokenize_go].
  - intros [= <-]. auto.
  - assert (∀ n, (S idx < n)%nat → (n - S idx = S (n - S (S idx)) ∧ n - idx = S (n - S idx))%nat)
      as Hidx by (intros; lia).
    assert (∀ skip out, tokenize_go (S idx) skip out ls = Ok m →
      ∀ k n v, m !! k = Some (n, v) →
      out !! k = Some (n, v)
      ∨ is_valid_key k = true ∧ ∃ raw' c,
          (idx < n)%nat ∧ (raw :: ls) !! (n - S idx)%nat = Some raw'
          ∧ is_skipped raw' = false
          ∧ tokenize_line n raw' (drop (n - idx) (raw :: ls)) = Ok (k, v, c)) as Hstep.
    { intros skip' out' Hgo k n v Hm.
      destruct (IH _ _ _ Hgo k n v Hm) as [?|(Hk & raw' & c & Hn & Hl & Hs & Ht)]; [by left|].
      right. split; [done|]. exists raw', c. destruct (Hidx n Hn) as [H1 H2].
      rewrite H1, H2. split_and!; [lia|exact Hl|exact Hs|exact Ht]. }
    destruct skip as [|skip]; [|apply Hstep]. case_match eqn:Hs; [apply Hstep|].
    intros ([[k v] c] & Hline & Hgo)%bind_Ok k' n' v' Hm.
    destruct (Hstep _ _ Hgo k' n' v' Hm) as [Hout|?]; [|by right].
    apply lookup_insert_Some in Hout as [[<- [= <- <-]]|[_ ?]]; [|by left].
    right. split; [by eapply tokenize_line_ok|]. exists raw, c.
    replace (S idx - S idx)%nat with 0%nat by lia.
    replace (S idx - idx)%nat with 1%nat by lia. split_and!; [lia|done..].
Qed.

(** Every error of the line parser carries the number of a line of the
    file. *)
Theorem tokenize_error_line input e :
  tokenize input = Err e →
  ∃ n, error_line e = Some n ∧ (1 ≤ n ≤ length (lines input))%nat.
Proof.
  intros (n & ? & ?)%tokenize_go_error. exists n. split; [done|lia].
Qed.

Lemma tokenize_error_line_witness :
  ∃ n, error_line (UnterminatedArray "B" 2) = Some n
       ∧ (1 ≤ n ≤ length (lines ("A=1" +:+ NL +:+ "B=(x" +:+ NL +:+ "y")))%nat.
Proof. apply tokenize_error_line. vm_compute. reflexivity. Defined.

(** Every entry of a parsed file stems from a line of the file: the key is
    a shell identifier of at most 128 bytes and the recorded line, read with
    the lines after it, assigns that value to that key. *)
Theorem tokenize_entries input m k n v :
  tokenize input = Ok m → m !! k = Some (n, v) →
  is_valid_key k = true ∧ ∃ raw c,
    lines input !! (n - 1)%nat = Some raw ∧ is_skipped raw = false
    ∧ tokenize_line n raw (drop n (lines input)) = Ok (k, v, c).
Proof.
  intros Ht Hm. destruct (tokenize_go_entries _ _ _ _ _ Ht k n v Hm) as [Hbad|(? & H)].
  - by rewrite lookup_empty in Hbad.
  - split; [done|]. destruct H as (raw & c & _ & Hl & Hs & Hline).
    exists raw, c. by rewrite Nat.sub_0_r in Hline.
Qed.

Lemma tokenize_entries_witness :
  is_valid_key "B" = true ∧ ∃ raw c,
    lines ("A=1" +:+ NL +:+ "B=(x" +:+ NL +:+ "y)") !! (2 - 1)%nat = Some raw
    ∧ is_skipped raw = false
    ∧ tokenize_line 2 raw (drop 2 (lines ("A=1" +:+ NL +:+ "B=(x" +:+ NL +:+ "y)")))
      = Ok ("B", Array ["x"; "y"], c).
Proof.
  apply (tokenize_entries _ (<["B" := (2%nat, Array ["x"; "y"])]>
                             (<["A" := (1%nat, Scalar "1")]> ∅))).
  - vm_compute. reflexivity.
  - vm_compute. reflexivity.
Defined.

(** The first [")"] ends an array wherever it stands: in a comment line of the
    body, whose text then becomes elements, and between quotes, where the
    quote is then unterminated; whatever follows it on the line is dropped. *)
Theorem array_ends_at_first_paren :
  tokenize ("A=(" +:+ NL +:+ "  # old (gone)" +:+ NL)
    = Ok {["A" := (1%nat, Array ["#"; "old"; "(gone"])]}
  ∧ (∃ e, tokenize ("A=('x)')" +:+ NL) = Err e)
  ∧ tokenize ("A=(x) y z" +:+ NL) = Ok {["A" := (1%nat, Array ["x"])]}.
Proof.
  split_and!; [vm_compute; reflexivity| |vm_compute; reflexivity].
  eexists. vm_compute. reflexivity.
Qed.
