(* ===== verification/SshOptions.v ===== *)
(** * hbird-ssh: connection options and the [ssh] command line

    [crates/hbird-ssh/src/options.rs].  Paths are strings. *)

From S2P Require Import Prelude RustStr.
From Stdlib Require Import Ascii.

(** [hbird_ssh::SshOptions] *)
Record SshOptions : Set := mkSshOptions {
  host : string;
  user : option string;
  port : option N;
  identity_file : option string;
  proxy_jump : option string;
  connect_timeout : Duration;
  strict_host_key_checking : bool;
  batch_mode : bool;
  control_master : bool;
  include_identity_flag : bool;
  command_timeout : option Duration;
}.
#[export] Instance SshOptions_eq_dec : EqDecision SshOptions.
Proof. solve_decision. Defined.

(** [SshOptions::new] *)
Definition new (host : string) : SshOptions :=
  mkSshOptions host None None None None (from_secs 10) false true false true None.

Definition with_command_timeout (t : Duration) (o : SshOptions) : SshOptions :=
  mkSshOptions (host o) (user o) (port o) (identity_file o) (proxy_jump o)
    (connect_timeout o) (strict_host_key_checking o) (batch_mode o) (control_master o)
    (include_identity_flag o) (Some t).

Definition with_user (u : string) (o : SshOptions) : SshOptions :=
  mkSshOptions (host o) (Some u) (port o) (identity_file o) (proxy_jump o)
    (connect_timeout o) (strict_host_key_checking o) (batch_mode o) (control_master o)
    (include_identity_flag o) (command_timeout o).

Definition with_port (p : N) (o : SshOptions) : SshOptions :=
  mkSshOptions (host o) (user o) (Some p) (identity_file o) (proxy_jump o)
    (connect_timeout o) (strict_host_key_checking o) (batch_mode o) (control_master o)
    (include_identity_flag o) (command_timeout o).

Definition with_identity_file (path : string) (o : SshOptions) : SshOptions :=
  mkSshOptions (host o) (user o) (port o) (Some path) (proxy_jump o)
    (connect_timeout o) (strict_host_key_checking o) (batch_mode o) (control_master o)
    (include_identity_flag o) (command_timeout o).

Definition without_identity (o : SshOptions) : SshOptions :=
  mkSshOptions (host o) (user o) (port o) (identity_file o) (proxy_jump o)
    (connect_timeout o) (strict_host_key_checking o) (batch_mode o) (control_master o)
    false (command_timeout o).

Definition with_proxy_jump (h : string) (o : SshOptions) : SshOptions :=
  mkSshOptions (host o) (user o) (port o) (identity_file o) (Some h)
    (connect_timeout o) (strict_host_key_checking o) (batch_mode o) (control_master o)
    (include_identity_flag o) (command_timeout o).

Definition with_connect_timeout (t : Duration) (o : SshOptions) : SshOptions :=
  mkSshOptions (host o) (user o) (port o) (identity_file o) (proxy_jump o)
    t (strict_host_key_checking o) (batch_mode o) (control_master o)
    (include_identity_flag o) (command_timeout o).

Definition with_strict_host_key_checking (strict : bool) (o : SshOptions) : SshOptions :=
  mkSshOptions (host o) (user o) (port o) (identity_file o) (proxy_jump o)
    (connect_timeout o) strict (batch_mode o) (control_master o)
    (include_identity_flag o) (command_timeout o).

Definition with_batch_mode (batch : bool) (o : SshOptions) : SshOptions :=
  mkSshOptions (host o) (user o) (port o) (identity_file o) (proxy_jump o)
    (connect_timeout o) (strict_host_key_checking o) batch (control_master o)
    (include_identity_flag o) (command_timeout o).

Definition with_controlmaster (o : SshOptions) : SshOptions :=
  mkSshOptions (host o) (user o) (port o) (identity_file o) (proxy_jump o)
    (connect_timeout o) (strict_host_key_checking o) (batch_mode o) true
    (include_identity_flag o) (command_timeout o).

(** [current_uid_string]: [proc_status] is the content of /proc/self/status,
    [None] when it cannot be read. *)
Definition current_uid_string (proc_status : option string) : string :=
  default "uid"
    (s ← proc_status;
     tail ← head (omap (λ l, trim <$> strip_prefix "Uid:" l) (lines s));
     head (split_whitespace tail)).

Definition yes_no (b : bool) : string := if b then "yes" else "no".

(** [SshOptions::to_argv] *)
Definition to_argv (proc_status : option string) (o : SshOptions) : list string :=
  ["ssh"]
  ++ (if include_identity_flag o then
        match identity_file o with Some path => ["-i"; path] | None => [] end
      else [])
  ++ ["-o"; "StrictHostKeyChecking=" +:+ yes_no (strict_host_key_checking o)]
  ++ ["-o"; "UserKnownHostsFile=/dev/null"]
  ++ ["-o"; "LogLevel=ERROR"]
  ++ ["-o"; "ConnectTimeout=" +:+ show_N (as_secs (connect_timeout o))]
  ++ ["-o"; "BatchMode=" +:+ yes_no (batch_mode o)]
  ++ (if control_master o then
        let uid := current_uid_string proc_status in
        ["-o"; "ControlMaster=auto";
         "-o"; "ControlPath=/tmp/hbird-ssh-" +:+ uid +:+ "-%r@%h:%p";
         "-o"; "ControlPersist=60s"]
      else [])
  ++ match proxy_jump o with Some jump => ["-o"; "ProxyJump=" +:+ jump] | None => [] end
  ++ match port o with Some p => ["-p"; show_N p] | None => [] end
  ++ [match user o with Some u => u +:+ "@" +:+ host o | None => host o end].

(** ** Properties *)

(** The reading of an [ssh] command line as [ssh(1)] documents it, for the
    flags that take a value: pairs of flag and value, then the destination. *)
Fixpoint getopt (args : list string) : option (list (string * string) * string) :=
  match args with
  | [] => None
  | [dest] => if starts_with_char "-" dest then None else Some ([], dest)
  | flag :: value :: rest =>
      if bool_decide (flag ∈ ["-i"; "-o"; "-p"]) then
        match getopt rest with
        | Some (opts, dest) => Some ((flag, value) :: opts, dest)
        | None => None
        end
      else None
  end.

(** The destination of an option set. *)
Definition destination (o : SshOptions) : string :=
  match user o with Some u => u +:+ "@" +:+ host o | None => host o end.

(** The option settings that [ssh] must end up with, in order. *)
Definition settings (proc_status : option string) (o : SshOptions) : list (string * string) :=
  (if include_identity_flag o then
     match identity_file o with Some path => [("-i", path)] | None => [] end
   else [])
  ++ [("-o", "StrictHostKeyChecking=" +:+ yes_no (strict_host_key_checking o));
      ("-o", "UserKnownHostsFile=/dev/null"); ("-o", "LogLevel=ERROR");
      ("-o", "ConnectTimeout=" +:+ show_N (as_secs (connect_timeout o)));
      ("-o", "BatchMode=" +:+ yes_no (batch_mode o))]
  ++ (if control_master o then
        [("-o", "ControlMaster=auto");
         ("-o", "ControlPath=/tmp/hbird-ssh-" +:+ current_uid_string proc_status
                +:+ "-%r@%h:%p");
         ("-o", "ControlPersist=60s")]
      else [])
  ++ match proxy_jump o with Some jump => [("-o", "ProxyJump=" +:+ jump)] | None => [] end
  ++ match port o with Some p => [("-p", show_N p)] | None => [] end.

Definition flag_args (kv : string * string) : list string := [kv.1; kv.2].

Lemma getopt_flags opts dest :
  Forall (λ kv, kv.1 ∈ ["-i"; "-o"; "-p"]) opts → starts_with_char "-" dest = false →
  getopt (concat (flag_args <$> opts) ++ [dest]) = Some (opts, dest).
Proof.
  intros Hopts Hd. induction Hopts as [|[f v] opts Hf Hopts IH]; cbn.
  - by rewrite Hd.
  - rewrite IH. rewrite bool_decide_eq_true_2 by done.
    by destruct (concat (flag_args <$> opts) ++ [dest]).
Qed.

Lemma to_argv_settings ps o :
  to_argv ps o = "ssh" :: concat (flag_args <$> settings ps o) ++ [destination o].
Proof.
  unfold to_argv, settings, destination.
  destruct (include_identity_flag o), (identity_file o), (control_master o),
    (proxy_jump o), (port o); reflexivity.
Qed.


