(* ===== verification/SshClient.v ===== *)
(** * hbird-ssh: running one [ssh] process

    [crates/hbird-ssh/src/lib.rs], [exec.rs] and [error.rs]: the errors, the
    captured output and [Client::run_inner_impl] with its watchdog
    [wait_with_timeout].  The operating system is a parameter: what spawning,
    writing to, polling and waiting for the child process answers. *)

From S2P Require Import Prelude RustStr ConfigTypes SshOptions.

(** [std::process::ExitStatus] *)
Inductive ExitStatus : Set :=
| Exited (code : Z)
| Signaled (sig : Z).
#[export] Instance ExitStatus_eq_dec : EqDecision ExitStatus.
Proof. solve_decision. Defined.

(** [ExitStatus::code] and [ExitStatus::success] *)
Definition code (s : ExitStatus) : option Z :=
  match s with Exited c => Some c | Signaled _ => None end.
Definition success (s : ExitStatus) : bool := bool_decide (s = Exited 0).

Definition show_status (s : ExitStatus) : string :=
  match s with
  | Exited c => "exit status: " +:+ show_Z c
  | Signaled n => "signal: " +:+ show_Z n
  end.

Inductive SpawnKind : Set := SshBinaryMissing | Other.
#[export] Instance SpawnKind_eq_dec : EqDecision SpawnKind.
Proof. solve_decision. Defined.

(** [hbird_ssh::Error] *)
Inductive SshError : Set :=
| Spawn (program host : string) (kind : SpawnKind) (source : io_error)
| Wait (host : string) (source : io_error)
| StdinWrite (host : string) (source : io_error)
| NonZeroExit (host : string) (status : ExitStatus) (stdout stderr : string)
| IdentityFileMissing (path : string)
| Timeout (host : string) (timeout : Duration).
#[export] Instance SshError_eq_dec : EqDecision SshError.
Proof. solve_decision. Defined.

(** The [Display] text of the error. *)
Definition show_ssh_error (e : SshError) : string :=
  match e with
  | Spawn program host _ source =>
      "failed to spawn " +:+ program +:+ " for host " +:+ host +:+ ": " +:+ io_message source
  | Wait host source => "waiting on ssh for host " +:+ host +:+ " failed: " +:+ io_message source
  | StdinWrite host source =>
      "writing stdin to ssh for host " +:+ host +:+ " failed: " +:+ io_message source
  | NonZeroExit host status _ stderr =>
      "ssh to " +:+ host +:+ " command failed with status " +:+ show_status status
      +:+ "; stderr: " +:+ debug_str stderr
  | IdentityFileMissing path => "identity file does not exist: " +:+ path
  | Timeout host timeout =>
      "ssh to " +:+ host +:+ " exceeded the " +:+ debug_duration timeout
      +:+ " command timeout; killed the local ssh process"
  end.

(** [std::process::Output] and [hbird_ssh::RunOutput] *)
Record RunOutput : Set := mkRunOutput {
  status : ExitStatus;
  stdout : string;
  stderr : string;
}.
#[export] Instance RunOutput_eq_dec : EqDecision RunOutput.
Proof. solve_decision. Defined.

Definition stdout_lossy (o : RunOutput) : string := from_utf8_lossy (stdout o).
Definition stderr_lossy (o : RunOutput) : string := from_utf8_lossy (stderr o).

(** ** The child process *)

Definition WATCHDOG_POLL : Duration := from_millis 50.

(** What the operating system answers about one child.  [elapsed i] is the
    time since the start of the watchdog at its [i]-th check; each check but
    the first follows a sleep of [WATCHDOG_POLL], hence [elapsed_advances]. *)
Record Child : Type := mkChild {
  write_all : string → result io_error unit;
  wait_with_output : result io_error RunOutput;
  try_wait : nat → result io_error (option ExitStatus);
  elapsed : nat → N;
  drained_stdout : string;
  drained_stderr : string;
  elapsed_advances : ∀ i, (as_millis WATCHDOG_POLL * N.of_nat i ≤ elapsed i)%N;
}.

(** What [run_inner_impl] does to the child, in order. *)
Inductive child_action : Set :=
| Spawned (argv : list string)
| Wrote (bytes : string)
| ClosedStdin
| Polled
| Slept (d : Duration)
| Killed
| Reaped.
#[export] Instance child_action_eq_dec : EqDecision child_action.
Proof. solve_decision. Defined.

(** The [loop] of [wait_with_timeout] from its [i]-th check on.  [None] is the
    fuel running out, which [wait_with_timeout_total] excludes.  [Ok] is the
    [break status] of the loop. *)
Fixpoint watchdog (fuel i : nat) (child : Child) (host : string) (budget : Duration)
    : option (result SshError ExitStatus * list child_action) :=
  match fuel with
  | O => None
  | S fuel =>
      match try_wait child i with
      | Ok (Some st) => Some (Ok st, [Polled; Reaped])
      | Ok None =>
          if (as_millis budget <=? elapsed child i)%N
          then Some (Err (Timeout host budget), [Polled; Killed; Reaped])
          else
            match watchdog fuel (S i) child host budget with
            | Some (r, acts) => Some (r, Polled :: Slept WATCHDOG_POLL :: acts)
            | None => None
            end
      | Err source => Some (Err (Wait host source), [Polled])
      end
  end.

(** Enough fuel: after [k] sleeps at least [50 k] milliseconds have passed. *)
Definition watchdog_fuel (budget : Duration) : nat :=
  S (S (N.to_nat (as_millis budget / as_millis WATCHDOG_POLL))).

Definition wait_with_timeout (child : Child) (host : string) (budget : Duration)
    : option (result SshError RunOutput * list child_action) :=
  match watchdog (watchdog_fuel budget) 0 child host budget with
  | Some (Ok st, acts) =>
      Some (Ok (mkRunOutput st (drained_stdout child) (drained_stderr child)), acts)
  | Some (Err e, acts) => Some (Err e, acts)
  | None => None
  end.

(** ** [Client::run_inner_impl] *)

(** The operating system as [run_inner_impl] sees it. *)
Record Os : Type := mkOs {
  path_exists : string → bool;
  proc_self_status : option string;
  (** [cmd.spawn()]: the child, or the error and whether its kind is [NotFound]. *)
  spawn : list string → result (io_error * bool) Child;
}.

(** The wait: [child.wait_with_output()], or the watchdog under a budget. *)
Definition wait_child (o : SshOptions) (child : Child)
    : option (result SshError RunOutput * list child_action) :=
  match command_timeout o with
  | None =>
      match wait_with_output child with
      | Ok output => Some (Ok output, [Reaped])
      | Err source => Some (Err (Wait (host o) source), [])
      end
  | Some budget => wait_with_timeout child (host o) budget
  end.

(** The exit status test that ends [run_inner_impl]. *)
Definition check_status (o : SshOptions) (output : RunOutput) : result SshError RunOutput :=
  if negb (success (status output))
  then Err (NonZeroExit (host o) (status output) (stdout_lossy output) (stderr_lossy output))
  else Ok output.

Definition finish (o : SshOptions) (child : Child)
    : option (result SshError RunOutput * list child_action) :=
  match wait_child o child with
  | Some (output, acts) => Some (output ← output; check_status o output, acts)
  | None => None
  end.

(** The write to the child's stdin and what follows it. *)
Definition feed_and_finish (o : SshOptions) (child : Child) (stdin : option string)
    : option (result SshError RunOutput * list child_action) :=
  match stdin with
  | Some bytes =>
      match write_all child bytes with
      | Err source => Some (Err (StdinWrite (host o) source), [ClosedStdin; Reaped])
      | Ok _ =>
          match finish o child with
          | Some (r, acts) => Some (r, Wrote bytes :: ClosedStdin :: acts)
          | None => None
          end
      end
  | None => finish o child
  end.

Definition identity_missing (os : Os) (o : SshOptions) : option string :=
  match identity_file o with
  | Some path => if negb (path_exists os path) then Some path else None
  | None => None
  end.

Definition run_inner_impl (os : Os) (o : SshOptions) (command : string) (stdin : option string)
    : option (result SshError RunOutput * list child_action) :=
  match identity_missing os o with
  | Some path => Some (Err (IdentityFileMissing path), [])
  | None =>
      let argv := to_argv (proc_self_status os) o in
      match spawn os (argv ++ [command]) with
      | Err (source, not_found) =>
          Some (Err (Spawn (default "" (head argv)) (host o)
                       (if not_found : bool then SshBinaryMissing else Other) source), [])
      | Ok child =>
          match feed_and_finish o child stdin with
          | Some (r, acts) => Some (r, Spawned (argv ++ [command]) :: acts)
          | None => None
          end
      end
  end.

(** [Client::run] and [Client::run_with_stdin] *)
Definition client_run (os : Os) (o : SshOptions) (command : string) :=
  run_inner_impl os o command None.
Definition client_run_with_stdin (os : Os) (o : SshOptions) (command stdin : string) :=
  run_inner_impl os o command (Some stdin).

(** ** Lemmas *)

(** The life of a child, as the actions tell it. *)
Definition count_act (a : child_action) (acts : list child_action) : nat :=
  length (filter (λ b, b = a) acts).

Lemma count_act_le a b acts : (count_act a (b :: acts) ≤ S (count_act a acts))%nat.
Proof. unfold count_act. rewrite filter_cons. case_decide; simpl; lia. Qed.
Lemma count_act_ne a b acts : b ≠ a → count_act a (b :: acts) = count_act a acts.
Proof. intros. unfold count_act. by rewrite filter_cons_False. Qed.

(** A timed-out run kills the child and then reaps it; a run that fails to
    wait leaves it; every other run reaps it without killing it. *)
Definition life_ok (r : result SshError RunOutput) (acts : list child_action) : Prop :=
  match r with
  | Err (Timeout _ _) => ∃ pre, acts = pre ++ [Killed; Reaped]
                                ∧ count_act Killed pre = 0 ∧ count_act Reaped pre = 0
  | Err (Wait _ _) => count_act Killed acts = 0 ∧ count_act Reaped acts = 0
  | _ => ∃ pre, acts = pre ++ [Reaped]
                ∧ count_act Killed pre = 0 ∧ count_act Reaped pre = 0
  end.

Lemma life_ok_cons r a acts :
  a ≠ Killed → a ≠ Reaped → life_ok r acts → life_ok r (a :: acts).
Proof.
  intros Hk Hr.
  assert (Hc : ∀ b l, a ≠ b → count_act b (a :: l) = count_act b l).
  { intros b l Hne. by apply count_act_ne. }
  assert (Hx : ∀ tl, (∃ pre, acts = pre ++ tl ∧ count_act Killed pre = 0
                                ∧ count_act Reaped pre = 0) →
                     ∃ pre, a :: acts = pre ++ tl ∧ count_act Killed pre = 0
                                ∧ count_act Reaped pre = 0).
  { intros tl (pre & -> & H1 & H2). exists (a :: pre). by rewrite !Hc. }
  destruct r as [out|[]]; cbn [life_ok]; first [apply Hx | by rewrite !Hc].
Qed.

Lemma watchdog_total fuel i child host budget :
  (as_millis budget + as_millis WATCHDOG_POLL
   ≤ as_millis WATCHDOG_POLL * N.of_nat (i + fuel))%N → (0 < fuel)%nat →
  ∃ r acts, watchdog fuel i child host budget = Some (r, acts).
Proof.
  revert i. induction fuel as [|fuel IH]; intros i Hb Hf; [lia|]. cbn [watchdog].
  destruct (try_wait child i) as [[st|]|source]; [eauto| |eauto].
  destruct (N.leb_spec (as_millis budget) (elapsed child i)) as [|Hlt]; [eauto|].
  pose proof (elapsed_advances child i) as Hadv.
  destruct (IH (S i)) as (r & acts & ->).
  - by replace (S i + fuel)%nat with (i + S fuel)%nat by lia.
  - destruct fuel; [|lia]. exfalso. cbn [as_millis WATCHDOG_POLL from_millis] in *. lia.
  - eauto.
Qed.

Lemma watchdog_fuel_total child host budget :
  ∃ r acts, watchdog (watchdog_fuel budget) 0 child host budget = Some (r, acts).
Proof.
  apply watchdog_total; unfold watchdog_fuel; [|apply Nat.lt_0_succ].
  change (as_millis WATCHDOG_POLL) with 50%N.
  pose proof (N.div_mod' (as_millis budget) 50) as Hdm.
  pose proof (N.mod_lt (as_millis budget) 50 ltac:(done)) as Hlt.
  rewrite Nat.add_0_l, !Nat2N.inj_succ, N2Nat.id. lia.
Qed.

(** What one run of the watchdog guarantees. *)
Lemma watchdog_spec fuel : ∀ i child host budget r acts,
  watchdog fuel i child host budget = Some (r, acts) →
  (count_act Polled acts ≤ fuel)%nat
  ∧ ∀ out, life_ok ((λ _, out) <$> r) acts.
Proof.
  assert (Hsing : ∀ l, (count_act Polled (Polled :: l) ≤ S (count_act Polled l))%nat)
    by (intros; apply count_act_le).
  induction fuel as [|fuel IH]; intros i child host budget r acts; cbn [watchdog]; [done|].
  destruct (try_wait child i) as [[st|]|source].
  - intros [= <- <-]. split; [|intros out; by exists [Polled]].
    etrans; [apply Hsing|]. rewrite count_act_ne by done. change (count_act Polled []) with 0%nat. lia.
  - case_match.
    { intros [= <- <-]. split; [|intros out; by exists [Polled]].
      etrans; [apply Hsing|]. rewrite !count_act_ne by done.
      change (count_act Polled []) with 0%nat. lia. }
    destruct (watchdog _ _ _ _ _) as [[r' acts']|] eqn:E; [|done].
    intros [= <- <-]. apply IH in E as [Hc Hl]. split.
    + etrans; [apply Hsing|]. rewrite count_act_ne by done. lia.
    + intros out. by do 2 (apply life_ok_cons; [done..|]).
  - intros [= <- <-]. split; [|done].
    etrans; [apply Hsing|]. change (count_act Polled []) with 0%nat. lia.
Qed.

Lemma wait_with_timeout_life child host budget r acts :
  wait_with_timeout child host budget = Some (r, acts) → life_ok r acts.
Proof.
  unfold wait_with_timeout. destruct (watchdog _ _ _ _ _) as [[[st|e] a]|] eqn:E; [| |done];
    intros [= <- <-]; apply watchdog_spec in E as [_ Hl].
  - apply (Hl (mkRunOutput st (drained_stdout child) (drained_stderr child))).
  - apply (Hl (mkRunOutput (Exited 0) "" "")).
Qed.

Lemma wait_child_life o child r acts : wait_child o child = Some (r, acts) → life_ok r acts.
Proof.
  unfold wait_child. destruct (command_timeout o) as [b|]; [apply wait_with_timeout_life|].
  destruct (wait_with_output child); intros [= <- <-]; [by exists []|done].
Qed.

Lemma finish_life o child r acts : finish o child = Some (r, acts) → life_ok r acts.
Proof.
  unfold finish. destruct (wait_child o child) as [[[out|e] a]|] eqn:E; [| |done];
    apply wait_child_life in E; intros [= <- <-]; [|done].
  cbn. unfold check_status. by destruct (success (status out)).
Qed.

Lemma feed_and_finish_life o child stdin r acts :
  feed_and_finish o child stdin = Some (r, acts) → life_ok r acts.
Proof.
  destruct stdin as [bytes|]; [|apply finish_life]. cbn [feed_and_finish].
  destruct (write_all child bytes) as [u|source].
  - destruct (finish o child) as [[r' a]|] eqn:E; [|done]. intros [= <- <-].
    do 2 (apply life_ok_cons; [done..|]). by apply finish_life in E.
  - intros [= <- <-]. by exists [ClosedStdin].
Qed.

Lemma wait_child_total o child : ∃ r acts, wait_child o child = Some (r, acts).
Proof.
  unfold wait_child, wait_with_timeout. destruct (command_timeout o) as [b|].
  - destruct (watchdog_fuel_total child (host o) b) as (r & acts & ->).
    destruct r; eauto.
  - destruct (wait_with_output child); eauto.
Qed.

Lemma feed_and_finish_total o child stdin :
  ∃ r acts, feed_and_finish o child stdin = Some (r, acts).
Proof.
  destruct (wait_child_total o child) as (r & acts & E).
  destruct stdin as [bytes|]; cbn [feed_and_finish].
  - destruct (write_all child bytes); [|eauto]. unfold finish. rewrite E. eauto.
  - unfold finish. rewrite E. eauto.
Qed.

(** ** Properties *)

(** The watchdog always ends, whatever the child does: for every child and
    budget [wait_with_timeout] returns, after at most
    [budget / 50ms + 2] polls of the child. *)
Theorem wait_with_timeout_total child host budget :
  ∃ r acts, wait_with_timeout child host budget = Some (r, acts)
            ∧ (count_act Polled acts
               ≤ N.to_nat (as_millis budget / as_millis WATCHDOG_POLL) + 2)%nat.
Proof.
  destruct (watchdog_fuel_total child host budget) as (r & acts & Hw).
  pose proof (proj1 (watchdog_spec _ _ _ _ _ _ _ Hw)) as Hc. unfold watchdog_fuel in Hc.
  unfold wait_with_timeout. rewrite Hw. destruct r; eexists _, _; (split; [done|lia]).
Qed.

(** [run_inner_impl] returns on every input, and tells the whole life of
    the child.  With a missing identity file, or when the spawn fails, nothing
    was done and the error says so.  Otherwise [ssh] was spawned once, with
    [to_argv] and the command as ONE last argument; the child is killed exactly
    when the error is [Timeout], and reaped exactly once, last, unless waiting
    for it failed: no zombie is left behind, also after a failed write to its
    stdin. *)
Theorem run_inner_impl_life os o command stdin :
  ∃ r acts, run_inner_impl os o command stdin = Some (r, acts) ∧
    match acts with
    | [] => (∃ p, identity_missing os o = Some p ∧ r = Err (IdentityFileMissing p))
            ∨ (∃ k source, identity_missing os o = None ∧ r = Err (Spawn "ssh" (host o) k source))
    | a :: acts => identity_missing os o = None
                   ∧ a = Spawned (to_argv (proc_self_status os) o ++ [command])
                   ∧ life_ok r acts
    end.
Proof.
  unfold run_inner_impl. destruct (identity_missing os o) as [p|] eqn:Hid.
  { do 2 eexists. split; [done|]. left. eauto. }
  destruct (spawn os _) as [child|[source nf]] eqn:Hsp.
  2: { do 2 eexists. split; [done|]. right. eauto. }
  destruct (feed_and_finish_total o child stdin) as (r & acts & E). rewrite E.
  do 2 eexists. split; [done|]. split_and!; [done..|]. by eapply feed_and_finish_life.
Qed.

(** [run] and [run_with_stdin] give [Ok] only for a child that was spawned
    with [to_argv] and the command, was waited for and exited with status 0;
    the output is the one the wait gave. *)
Theorem run_inner_impl_Ok os o command stdin out acts
    (Hrun : run_inner_impl os o command stdin = Some (Ok out, acts)) :
  status out = Exited 0 ∧
  ∃ child waited, spawn os (to_argv (proc_self_status os) o ++ [command]) = Ok child
                  ∧ wait_child o child = Some (Ok out, waited).
Proof.
  revert Hrun. unfold run_inner_impl. destruct (identity_missing os o); [done|].
  destruct (spawn os _) as [child|[source nf]]; [|done].
  assert (Hfin : ∀ a, finish o child = Some (Ok out, a) →
                      status out = Exited 0 ∧ wait_child o child = Some (Ok out, a)).
  { intros a. unfold finish. destruct (wait_child o child) as [[[out'|e] a']|]; [|done..].
    cbn. unfold check_status, success. case_bool_decide as Hs; cbn; [|done].
    by intros [= <- <-]. }
  destruct (feed_and_finish o child stdin) as [[r a]|] eqn:E; [|done].
  intros [= -> <-]. revert E. destruct stdin as [bytes|]; cbn [feed_and_finish].
  2: { intros [??]%Hfin. eauto. }
  destruct (write_all child bytes); [|done].
  destruct (finish o child) as [[r' a']|] eqn:Efin; [|done]. intros [= -> <-].
  destruct (Hfin _ eq_refl) as [??]. eauto.
Qed.

(** A child that exits with status 0 on the second poll, under a budget of one
    second. *)
Definition quiet_child : Child.
Proof.
  refine (mkChild (λ _, Ok tt) (Ok (mkRunOutput (Exited 0) "up" ""))
            (λ i, Ok (match i with O => None | _ => Some (Exited 0) end))
            (λ i, 50 * N.of_nat i)%N "up" "" _).
  intros i. reflexivity.
Defined.

Lemma run_inner_impl_Ok_witness :
  status (mkRunOutput (Exited 0) "up" "") = Exited 0 ∧
  ∃ child waited,
    spawn (mkOs (λ _, true) None (λ _, Ok quiet_child))
      (to_argv None (with_command_timeout (from_secs 1) (new "kvm")) ++ ["uptime"]) = Ok child
    ∧ wait_child (with_command_timeout (from_secs 1) (new "kvm")) child
      = Some (Ok (mkRunOutput (Exited 0) "up" ""), waited).
Proof.
  apply (run_inner_impl_Ok (mkOs (λ _, true) None (λ _, Ok quiet_child))
           (with_command_timeout (from_secs 1) (new "kvm")) "uptime" None _
           (Spawned (to_argv None (with_command_timeout (from_secs 1) (new "kvm"))
                     ++ ["uptime"]) :: [Polled; Slept WATCHDOG_POLL; Polled; Reaped])).
  vm_compute. reflexivity.
Defined.
