(* ===== verification/Effects.v ===== *)
(** * Effects: computations that act on the world

    The commands print, run [ssh], run local programs and sleep.  A computation
    is a function from the history of what was done so far to its result and
    the events it adds; it cannot take events back.  What the outside answers
    ([World]) may depend on the whole history.  On top: fallible computations
    with [?], [anyhow] errors with their contexts, and the rules to prove what
    a computation returns and which events it emits. *)

From S2P Require Import Prelude RustStr ConfigTypes SshOptions SshClient.

(** ** Events and the world *)

(** Changes to the local file system. *)
Inductive fs_call : Set :=
| CreateDirAll (path : string)
| WriteFile (path bytes : string)
(** [fs::copy], [fs::set_permissions], [OpenOptions] with [create], [truncate]
    and a mode, [write_all] and [sync_all] on that file, [fs::rename] *)
| CopyFile (src dst : string)
| SetMode (path : string) (mode : N)
| OpenTruncated (path : string) (mode : N)
| WriteAll (path bytes : string)
| SyncFile (path : string)
| RenameFile (src dst : string).
#[export] Instance fs_call_eq_dec : EqDecision fs_call.
Proof. solve_decision. Defined.

Inductive event : Type :=
| EvOut (line : string)
| EvErr (line : string)
| EvWriteOut (bytes : string) (answer : result io_error unit)
| EvWriteErr (bytes : string) (answer : result io_error unit)
| EvSsh (o : SshOptions) (command : string) (stdin : option string)
        (answer : result SshError RunOutput)
| EvLocal (argv : list string) (answer : result io_error RunOutput)
| EvSleep (d : Duration)
(** [unreachable!(..)]: the process would panic here. *)
| EvPanic (message : string)
(** [print!] and [eprint!]: text without a line end of its own. *)
| EvText (to_stderr : bool) (text : string)
| EvFs (op : fs_call) (answer : result io_error unit).
#[export] Instance event_eq_dec : EqDecision event.
Proof. solve_decision. Defined.

Abbreviation history := (list event).

(** What the hosts behind [ssh] and the local programs answer. *)
Class World : Type := {
  ssh_answer : history → SshOptions → string → option string → result SshError RunOutput;
  local_answer : history → list string → result io_error RunOutput;
  stdout_answer : history → string → result io_error unit;
  stderr_answer : history → string → result io_error unit;
  file_answer : history → string → result io_error string;
  fs_answer : history → fs_call → result io_error unit;
}.

(** A world where every program succeeds without output and every file holds
    [text]. *)
Definition calm_world (text : string) : World := {|
  ssh_answer _ _ _ _ := Ok (mkRunOutput (Exited 0) "" "");
  local_answer _ _ := Ok (mkRunOutput (Exited 0) "" "");
  stdout_answer _ _ := Ok tt;
  stderr_answer _ _ := Ok tt;
  file_answer _ _ := Ok text;
  fs_answer _ _ := Ok tt;
|}.

(** ** The monads *)

Definition M (A : Type) : Type := history → A * history.
#[export] Instance M_ret : MRet M := λ A a h, (a, []).
#[export] Instance M_bind : MBind M := λ A B f m h,
  let '(a, e1) := m h in
  let '(b, e2) := f a (h ++ e1) in
  (b, e1 ++ e2).

(** Fallible computations: the bind is Rust's [?]. *)
Definition IO (E A : Type) : Type := history → result E A * history.
#[export] Instance IO_ret E : MRet (IO E) := λ A a h, (Ok a, []).
#[export] Instance IO_bind E : MBind (IO E) := λ A B f m h,
  let '(r, e1) := m h in
  match r with
  | Ok a => let '(b, e2) := f a (h ++ e1) in (b, e1 ++ e2)
  | Err e => (Err e, e1)
  end.

Definition throw {E A} (e : E) : IO E A := λ h, (Err e, []).
Definition of_result {E A} (r : result E A) : IO E A := λ h, (r, []).
Definition lift {E A} (m : M A) : IO E A := λ h, let '(a, e) := m h in (Ok a, e).
(** The [Result] value itself, without [?]. *)
Definition catch {E A} (m : IO E A) : M (result E A) := m.
(** [.map_err(f)] and [.with_context(..)]. *)
Definition io_map_err {E F A} (f : E → F) (m : IO E A) : IO F A :=
  λ h, let '(r, e) := m h in (map_err f r, e).

Definition emit (e : event) : M unit := λ h, (tt, [e]).
Definition println (line : string) : M unit := emit (EvOut line).
Definition eprintln (line : string) : M unit := emit (EvErr line).
Definition print (text : string) : M unit := emit (EvText false text).
Definition eprint (text : string) : M unit := emit (EvText true text).
Definition sleep (d : Duration) : M unit := emit (EvSleep d).

(** A look at the surroundings that changes nothing. *)
Definition ask {E A} (f : history → A) : IO E A := λ h, (Ok (f h), []).

Section world.
Context `{W : World}.

(** [Client::run] / [Client::run_with_stdin] on the real client. *)
Definition ssh_run (o : SshOptions) (command : string) (stdin : option string)
    : IO SshError RunOutput := λ h,
  let r := ssh_answer h o command stdin in (r, [EvSsh o command stdin r]).

(** [Command::new(argv[0]).args(..).output()] *)
Definition local_run (argv : list string) : IO io_error RunOutput := λ h,
  let r := local_answer h argv in (r, [EvLocal argv r]).

(** [fs::read_to_string(path)] *)
Definition read_to_string (path : string) : IO io_error string := λ h, (file_answer h path, []).

(** [fs::create_dir_all(path)] and [fs::write(path, bytes)] *)
Definition fs_run (op : fs_call) : IO io_error unit := λ h,
  let r := fs_answer h op in (r, [EvFs op r]).

(** [io::stdout().write_all(bytes)] and [io::stderr().write_all(bytes)] *)
Definition write_stdout (bytes : string) : IO io_error unit := λ h,
  let r := stdout_answer h bytes in (r, [EvWriteOut bytes r]).
Definition write_stderr (bytes : string) : IO io_error unit := λ h,
  let r := stderr_answer h bytes in (r, [EvWriteErr bytes r]).
End world.

(** [hbird_ssh::SshExec]: the seam the helpers are written against. *)
Class SshExec : Type := {
  exec : string → option string → IO SshError RunOutput;
}.
(** [impl SshExec for Client] *)
Definition client_exec `{World} (o : SshOptions) : SshExec := {| exec := ssh_run o |}.

(** [for x in l { f(x)?; }] *)
Fixpoint for_each {E A} (f : A → IO E unit) (l : list A) : IO E unit :=
  match l with
  | [] => mret tt
  | x :: l' => _ ← f x; for_each f l'
  end.

Fixpoint for_each_M {A} (f : A → M unit) (l : list A) : M unit :=
  match l with
  | [] => mret tt
  | x :: l' => _ ← f x; for_each_M f l'
  end.

(** [match m { Ok(..) => .., Err(..) => .. }] inside a fallible function. *)
Definition try {E F A} (m : IO E A) : IO F (result E A) := lift (catch m).

(** [while elapsed < timeout { body; elapsed = elapsed.saturating_add(interval); }]
    on [u32].  [body] gets the elapsed seconds and the loop's variables; [inl]
    leaves the loop with a value, [inr] goes on.  [poll_fuel] is enough fuel
    ([poll_more_fuel]). *)
Fixpoint poll {E St A} (fuel : nat) (timeout interval elapsed : N) (st : St)
    (body : N → St → IO E (A + St)) : IO E (A + St) :=
  match fuel with
  | O => mret (inr st)
  | S fuel =>
      if (elapsed <? timeout)%N then
        r ← body elapsed st;
        match r with
        | inl a => mret (inl a)
        | inr st' => poll fuel timeout interval (saturating_add U32_MAX elapsed interval) st' body
        end
      else mret (inr st)
  end.

(** At most [timeout / interval], rounded up, rounds. *)
Definition rounds (timeout interval : N) : nat := N.to_nat ((timeout + interval - 1) / interval).
Definition poll_fuel (timeout interval : N) : nat := S (rounds timeout interval).

(** ** [anyhow::Error] *)

(** The error at the bottom of the chain. *)
Inductive root : Set :=
| RMsg (m : string)
| RSsh (e : SshError)
| RConfig (e : ConfigTypes.Error)
| RIo (e : io_error)
(** any other error type, by its [Display] text *)
| ROther (text : string).
#[export] Instance root_eq_dec : EqDecision root.
Proof. solve_decision. Defined.

(** [contexts] is the outermost first. *)
Record anyhow : Set := mkAnyhow { contexts : list string; root_cause : root }.
#[export] Instance anyhow_eq_dec : EqDecision anyhow.
Proof. solve_decision. Defined.

(** [anyhow!(m)], [bail!(m)] and [.with_context(|| m)] *)
Definition anyhow_msg (m : string) : anyhow := mkAnyhow [] (RMsg m).
Definition bail {A} (m : string) : IO anyhow A := throw (anyhow_msg m).
Definition context (m : string) (e : anyhow) : anyhow := mkAnyhow (m :: contexts e) (root_cause e).
Definition of_ssh (e : SshError) : anyhow := mkAnyhow [] (RSsh e).
Definition of_io (e : io_error) : anyhow := mkAnyhow [] (RIo e).
(** [r.with_context(|| m)?] on an [ssh] or I/O result *)
Definition ssh_context {A} (m : string) : IO SshError A → IO anyhow A :=
  io_map_err (λ e, context m (of_ssh e)).
Definition io_context {A} (m : string) : IO io_error A → IO anyhow A :=
  io_map_err (λ e, context m (of_io e)).

(** [e.downcast_ref::<hbird_ssh::Error>()] looks through the contexts. *)
Definition downcast_ssh (e : anyhow) : option SshError :=
  match root_cause e with RSsh s => Some s | _ => None end.

(** The [source()] of an [ssh] error, which [{e:#}] prints after it. *)
Definition ssh_error_source (e : SshError) : list string :=
  match e with
  | Spawn _ _ _ s | Wait _ s | StdinWrite _ s => [io_message s]
  | _ => []
  end.

Definition root_chain (r : root) : list string :=
  match r with
  | RMsg m => [m]
  | RSsh e => show_ssh_error e :: ssh_error_source e
  | RConfig e => show_config_error e :: match e with Io _ s => [io_message s] | _ => [] end
  | RIo e => [io_message e]
  | ROther t => [t]
  end.

(** [format!("{e}")] and [format!("{e:#}")] *)
Definition show_anyhow (e : anyhow) : string := default "" (head (contexts e ++ root_chain (root_cause e))).
Definition show_anyhow_alt (e : anyhow) : string :=
  join ": " (contexts e ++ root_chain (root_cause e)).

(** Runs a computation symbolically: unfolds the monads and the primitives. *)
Ltac run_io :=
  cbv beta iota zeta delta [mbind IO_bind M_bind mret IO_ret M_ret lift catch throw bail of_result
    io_map_err ssh_context io_context ssh_run local_run write_stdout write_stderr read_to_string
    exec client_exec emit println eprintln sleep fst snd]; cbn [app].

(** ** Rules *)

(** After [m], from any history, [Q] holds of the result and the new events. *)
Definition emits {A} (m : M A) (Q : A → history → Prop) : Prop :=
  ∀ h, Q (m h).1 (m h).2.

Section rules.
Context {E F A B : Type}.

Lemma emits_ret (a : A) (Q : A → history → Prop) : Q a [] → emits (mret a) Q.
Proof. by intros ? h. Qed.

Lemma emits_conseq (m : M A) (P Q : A → history → Prop) :
  emits m P → (∀ a e, P a e → Q a e) → emits m Q.
Proof. intros Hm HPQ h. apply HPQ, Hm. Qed.

Lemma emits_and (m : M A) (P Q : A → history → Prop) :
  emits m P → emits m Q → emits m (λ a es, P a es ∧ Q a es).
Proof. intros HP HQ h. split; [apply HP|apply HQ]. Qed.

Lemma emits_bind (m : M A) (f : A → M B) P Q :
  emits m P → (∀ a e1, P a e1 → emits (f a) (λ b e2, Q b (e1 ++ e2))) → emits (m ≫= f) Q.
Proof.
  intros Hm Hf h. unfold mbind, M_bind. specialize (Hm h).
  destruct (m h) as [a e1]. specialize (Hf a e1 Hm (h ++ e1)).
  by destruct (f a (h ++ e1)).
Qed.

Lemma emits_emit e (Q : unit → history → Prop) : Q tt [e] → emits (emit e) Q.
Proof. by intros ? h. Qed.

Lemma emits_io_ret (a : A) (Q : result E A → history → Prop) :
  Q (Ok a) [] → emits (mret (M:=IO E) a) Q.
Proof. by intros ? h. Qed.

Lemma emits_io_bind (m : IO E A) (f : A → IO E B) (P : result E A → history → Prop) Q :
  emits m P →
  (∀ a e1, P (Ok a) e1 → emits (f a) (λ b e2, Q b (e1 ++ e2))) →
  (∀ e e1, P (Err e) e1 → Q (Err e) e1) →
  emits (m ≫= f : IO E B) Q.
Proof.
  intros Hm Hf He h. unfold mbind, IO_bind. specialize (Hm h).
  destruct (m h) as [[a|e] e1]; simpl in Hm; [|by apply He].
  specialize (Hf a e1 Hm (h ++ e1)). by destruct (f a (h ++ e1)).
Qed.

(** A first computation without events *)
Lemma io_bind_ok (m : IO E A) (f : A → IO E B) x h : m h = (Ok x, []) → (m ≫= f) h = f x h.
Proof. intros Hm. unfold mbind, IO_bind. rewrite Hm, app_nil_r. by destruct (f x h). Qed.
Lemma io_bind_err (m : IO E A) (f : A → IO E B) e es h : m h = (Err e, es) → (m ≫= f) h = (Err e, es).
Proof. intros Hm. unfold mbind, IO_bind. by rewrite Hm. Qed.

Lemma emits_throw (e : E) (Q : result E A → history → Prop) :
  Q (Err e) [] → emits (throw e) Q.
Proof. by intros ? h. Qed.

Lemma emits_of_result (r : result E A) (Q : result E A → history → Prop) :
  Q r [] → emits (of_result r) Q.
Proof. by intros ? h. Qed.

Lemma emits_lift (m : M A) (Q : result E A → history → Prop) :
  emits m (λ a e, Q (Ok a) e) → emits (lift m) Q.
Proof. intros Hm h. unfold lift. specialize (Hm h). by destruct (m h). Qed.

Lemma emits_map_err (f : E → F) (m : IO E A) (Q : result F A → history → Prop) :
  emits m (λ r e, Q (map_err f r) e) → emits (io_map_err f m) Q.
Proof. intros Hm h. unfold io_map_err. specialize (Hm h). by destruct (m h). Qed.
End rules.

(** *** Computations all of whose events satisfy a predicate *)

Section all_events.
Context (P : event → Prop).

Definition only {A} (m : M A) : Prop := emits m (λ _ es, Forall P es).

Lemma only_ret {A} (a : A) : only (mret a).
Proof. by apply emits_ret. Qed.

Lemma only_bind {A B} (m : M A) (f : A → M B) :
  only m → (∀ a, only (f a)) → only (m ≫= f).
Proof.
  intros Hm Hf. eapply emits_bind; [exact Hm|]. intros a e1 H1.
  eapply emits_conseq; [apply Hf|]. intros b e2 H2. by apply Forall_app.
Qed.

Lemma only_emit e : P e → only (emit e).
Proof. intros. apply emits_emit. by constructor. Qed.

Lemma only_io_ret {E A} (a : A) : only (mret (M:=IO E) a : IO E A).
Proof. by apply emits_io_ret. Qed.

Lemma only_io_bind {E A B} (m : IO E A) (f : A → IO E B) :
  only m → (∀ a, only (f a)) → only (m ≫= f : IO E B).
Proof.
  intros Hm Hf. eapply emits_io_bind; [exact Hm| |done]. intros a e1 H1.
  eapply emits_conseq; [apply Hf|]. intros b e2 H2. by apply Forall_app.
Qed.

Lemma only_throw {E A} (e : E) : only (throw (A:=A) e).
Proof. by apply emits_throw. Qed.
Lemma only_of_result {E A} (r : result E A) : only (of_result r).
Proof. by apply emits_of_result. Qed.
Lemma only_lift {E A} (m : M A) : only m → only (lift (E:=E) m).
Proof. intros Hm. by apply emits_lift. Qed.
Lemma only_catch {E A} (m : IO E A) : only m → only (catch m).
Proof. done. Qed.
Lemma only_map_err {E F A} (f : E → F) (m : IO E A) : only m → only (io_map_err f m).
Proof. intros H. by apply emits_map_err. Qed.

Lemma only_ssh_run `{World} o cmd stdin :
  (∀ r, P (EvSsh o cmd stdin r)) → only (ssh_run o cmd stdin).
Proof. intros HP h. by constructor. Qed.
Lemma only_local_run `{World} argv : (∀ r, P (EvLocal argv r)) → only (local_run argv).
Proof. intros HP h. by constructor. Qed.

Lemma only_read_to_string `{World} path : only (read_to_string path).
Proof. intros h. constructor. Qed.

Lemma only_for_each {E A} (f : A → IO E unit) l :
  (∀ x, x ∈ l → only (f x)) → only (for_each f l).
Proof.
  induction l as [|x l IH]; intros Hf; [apply only_io_ret|].
  apply only_io_bind; [apply Hf; set_solver|]. intros _. apply IH. set_solver.
Qed.
End all_events.

#[export] Hint Resolve only_ret only_bind only_emit only_io_ret only_io_bind only_throw
  only_of_result only_lift only_catch only_map_err : effects.

(** *** Computations that only print *)

Definition is_out (e : event) : Prop := match e with EvOut _ => True | _ => False end.

(** It succeeds with a value that satisfies [P], and only prints. *)
Definition announces {A} (m : IO anyhow A) (P : A → Prop) : Prop :=
  emits m (λ r es, (∃ a, r = Ok a ∧ P a) ∧ Forall is_out es).

Lemma announces_ret {A} (a : A) (P : A → Prop) : P a → announces (mret a) P.
Proof. intros HP h. split; [by exists a|constructor]. Qed.

Lemma announces_bind {A B} (m : IO anyhow A) (f : A → IO anyhow B) P Q :
  announces m P → (∀ a, P a → announces (f a) Q) → announces (m ≫= f : IO anyhow B) Q.
Proof.
  intros Hm Hf. eapply emits_io_bind; [exact Hm| |by intros e es [(a & [=] & _) _]].
  intros a e1 [(a' & [= <-] & Ha) H1]. eapply emits_conseq; [by apply Hf|].
  intros r e2 [Hr H2]. split; [done|]. by apply Forall_app.
Qed.

Lemma announces_for_each {A} (f : A → IO anyhow unit) l :
  (∀ x, x ∈ l → announces (f x) (λ _, True)) → announces (for_each f l) (λ _, True).
Proof.
  induction l as [|x l IH]; intros Hf; cbn [for_each]; [by apply announces_ret|].
  eapply announces_bind; [apply Hf; set_solver|]. intros _ _. apply IH. set_solver.
Qed.

Lemma announces_try {A} (m : IO anyhow A) P :
  announces m P → announces (try m : IO anyhow (result anyhow A)) (λ r, ∃ a, r = Ok a ∧ P a).
Proof.
  intros Hm. apply emits_lift. eapply emits_conseq; [exact Hm|].
  intros r es [Hr H]. split; [by exists r|done].
Qed.

Lemma announces_any {A} (m : IO anyhow A) P : announces m P → announces m (λ _, True).
Proof. intros Hm. eapply emits_conseq; [exact Hm|]. intros r es [(a & -> & _) H]. by split; [exists a|]. Qed.
