(* ===== verification/Poll.v ===== *)
(** * Rules for the polling loops and for the order of events

    The loop combinator [poll] of [Effects.v]: its fuel is enough, an invariant
    rule, and a rule for what holds when it leaves.  [precedes]: an event of one
    kind comes only after the history has reached some condition. *)

From S2P Require Import Prelude RustStr ConfigTypes SshOptions SshClient Effects.

(** ** The loop *)

Lemma rounds_0 interval : (0 < interval)%N → rounds 0 interval = 0%nat.
Proof. intros Hi. unfold rounds. by rewrite N.div_small by lia. Qed.

Lemma rounds_step timeout elapsed interval :
  (0 < interval)%N → (timeout ≤ U32_MAX)%N → (elapsed < timeout)%N →
  rounds (timeout - elapsed) interval
  = S (rounds (timeout - saturating_add U32_MAX elapsed interval) interval).
Proof.
  intros Hi Ht He. unfold rounds, saturating_add.
  replace (timeout - elapsed + interval - 1)%N with (timeout - elapsed - 1 + 1 * interval)%N by lia.
  rewrite N.div_add by lia. rewrite N.add_1_r, N2Nat.inj_succ. do 2 f_equal.
  destruct (N.le_gt_cases (timeout - elapsed) interval).
  - rewrite !N.div_small by lia. done.
  - f_equal. lia.
Qed.

Section poll.
Context {E St A : Type} (timeout interval : N) (body : N → St → IO E (A + St)).

(** More fuel than [poll_fuel] does not change anything. *)
Lemma poll_more_fuel fuel fuel' elapsed st h :
  (0 < interval)%N → (timeout ≤ U32_MAX)%N →
  (rounds (timeout - elapsed) interval < fuel)%nat →
  (rounds (timeout - elapsed) interval < fuel')%nat →
  poll fuel timeout interval elapsed st body h = poll fuel' timeout interval elapsed st body h.
Proof.
  intros Hi Ht. revert fuel' elapsed st h.
  induction fuel as [|fuel IH]; intros fuel' elapsed st h Hf Hf'; [lia|].
  destruct fuel' as [|fuel']; [lia|]. cbn [poll].
  destruct (N.ltb_spec elapsed timeout) as [He|]; [|done].
  rewrite (rounds_step _ _ _ Hi Ht He) in Hf, Hf'.
  unfold mbind, IO_bind. destruct (body elapsed st h) as [[[a|st']|e] es]; [done| |done].
  by rewrite (IH fuel') by lia.
Qed.

(** The invariant rule.  [I elapsed st es]: so far the loop emitted [es]. *)
Lemma emits_poll (I : N → St → history → Prop) (Q : result E (A + St) → history → Prop) st :
  (0 < interval)%N → (timeout ≤ U32_MAX)%N →
  I 0%N st [] →
  (∀ elapsed st es, (elapsed < timeout)%N → I elapsed st es →
     emits (body elapsed st) (λ r es',
       match r with
       | Ok (inl a) => Q (Ok (inl a)) (es ++ es')
       | Ok (inr st') => I (saturating_add U32_MAX elapsed interval) st' (es ++ es')
       | Err e => Q (Err e) (es ++ es')
       end)) →
  (∀ elapsed st es, (timeout ≤ elapsed)%N → I elapsed st es → Q (Ok (inr st)) es) →
  emits (poll (poll_fuel timeout interval) timeout interval 0 st body) Q.
Proof.
  intros Hi Ht H0 Hbody Hend.
  enough (Hgen : ∀ fuel elapsed st es,
            (rounds (timeout - elapsed) interval < fuel)%nat → I elapsed st es →
            emits (poll fuel timeout interval elapsed st body) (λ r es', Q r (es ++ es'))).
  { apply (Hgen _ 0%N st []); [|done]. unfold poll_fuel. rewrite N.sub_0_r. lia. }
  induction fuel as [|fuel IH]; intros elapsed st' es Hf HI; [lia|]. cbn [poll].
  destruct (N.ltb_spec elapsed timeout) as [He|He].
  - rewrite (rounds_step _ _ _ Hi Ht He) in Hf.
    eapply emits_io_bind; [by apply Hbody| |done].
    intros [a|st''] e1 H1.
    + apply emits_io_ret. by rewrite app_nil_r.
    + eapply emits_conseq; [apply IH; [lia|exact H1]|].
      intros r e2. by rewrite app_assoc.
  - apply emits_io_ret. rewrite app_nil_r. by eapply Hend.
Qed.

(** What holds of the round that leaves the loop. *)
Lemma emits_poll_exit (P : A → history → Prop) fuel elapsed st :
  (∀ a es es', P a es → P a (es' ++ es)) →
  (∀ elapsed st, emits (body elapsed st) (λ r es, ∀ a, r = Ok (inl a) → P a es)) →
  emits (poll fuel timeout interval elapsed st body) (λ r es, ∀ a, r = Ok (inl a) → P a es).
Proof.
  intros Hgrow Hbody. revert elapsed st.
  induction fuel as [|fuel IH]; intros elapsed st; cbn [poll].
  { apply emits_io_ret. by intros a [=]. }
  destruct (elapsed <? timeout)%N; [|apply emits_io_ret; by intros a [=]].
  eapply emits_io_bind; [apply Hbody| |by intros e es _ a [=]].
  intros [a|st'] e1 H1.
  - apply emits_io_ret. intros b [= <-]. rewrite app_nil_r. by apply H1.
  - eapply emits_conseq; [apply IH|]. intros r e2 H2 a Ha. apply Hgrow. by apply H2.
Qed.

Lemma only_poll (P : event → Prop) fuel elapsed st :
  (∀ elapsed st, only P (body elapsed st)) →
  only P (poll fuel timeout interval elapsed st body).
Proof.
  intros Hbody. revert elapsed st. induction fuel as [|fuel IH]; intros elapsed st; cbn [poll].
  { apply only_io_ret. }
  destruct (elapsed <? timeout)%N; [|apply only_io_ret].
  apply only_io_bind; [apply Hbody|]. intros [a|st']; [apply only_io_ret|apply IH].
Qed.
End poll.
#[export] Hint Resolve only_poll : effects.

(** ** The order of events *)

(** A condition that stays true when the history grows on either side. *)
Class Grows (G : history → Prop) : Prop :=
  grows es es1 es2 : G es → G (es1 ++ es ++ es2).

#[export] Instance grows_exists (P : event → Prop) : Grows (Exists P).
Proof. intros es es1 es2 H. rewrite !Exists_app. auto. Qed.
#[export] Instance grows_sublist (P : list event → Prop) :
  Grows (λ es, ∃ k, P k ∧ k `sublist_of` es).
Proof.
  intros es es1 es2 (k & Hk & Hs). exists k. split; [done|].
  by apply sublist_inserts_l, sublist_inserts_r.
Qed.
#[export] Instance grows_or G1 G2 : Grows G1 → Grows G2 → Grows (λ es, G1 es ∨ G2 es).
Proof. intros H1 H2 es es1 es2 [H|H]; [left; by apply H1|right; by apply H2]. Qed.

Lemma grows_l G `{!Grows G} es es' : G es → G (es ++ es').
Proof. apply (grows es []). Qed.
Lemma grows_r G `{!Grows G} es es' : G es → G (es' ++ es).
Proof. intros H. rewrite <-(app_nil_r es). by apply grows. Qed.

#[export] Instance grows_and G1 G2 : Grows G1 → Grows G2 → Grows (λ es, G1 es ∧ G2 es).
Proof. intros H1 H2 es es1 es2 [??]; split; [by apply H1|by apply H2]. Qed.
#[export] Instance grows_const (P : Prop) : Grows (λ _, P).
Proof. by intros es es1 es2 H. Qed.

Lemma exists_pair (P1 P2 : event → Prop) es1 es2 :
  Exists P1 es1 → Exists P2 es2 → ∃ e1 e2, P1 e1 ∧ P2 e2 ∧ [e1; e2] `sublist_of` es1 ++ es2.
Proof.
  rewrite !Exists_exists. intros (e1 & H1 & HP1) (e2 & H2 & HP2). exists e1, e2.
  split_and!; [done|done|]. apply (sublist_app [e1] es1 [e2] es2); by apply singleton_sublist_l.
Qed.

(** Before every event that satisfies [T], the history satisfies [G]. *)
Definition precedes (G : history → Prop) (T : event → Prop) (es : history) : Prop :=
  ∀ pre e post, es = pre ++ e :: post → T e → G pre.

Section precedes.
Context (G : history → Prop) (T : event → Prop).

Lemma precedes_none es : Forall (λ e, ¬ T e) es → precedes G T es.
Proof.
  intros Hes pre e post -> HT. apply Forall_app in Hes as [_ Hes].
  inversion Hes; subst. done.
Qed.

Lemma precedes_app `{!Grows G} es1 es2 :
  precedes G T es1 → G es1 ∨ precedes G T es2 → precedes G T (es1 ++ es2).
Proof.
  intros H1 H2 pre e post Heq HT.
  apply app_eq_inv in Heq as [(k & -> & Heq)|(k & -> & ->)].
  - destruct k as [|e' k]; cbn [app] in Heq.
    + subst es2. rewrite app_nil_r in H2. destruct H2 as [H2|H2]; [done|].
      rewrite <-(app_nil_r pre). apply (grows_r G). by apply (H2 [] e post).
    + injection Heq as <- ->. by apply (H1 pre e k).
  - destruct H2 as [H2|H2]; [by apply grows_l|]. apply grows_r, (H2 k e post); done.
Qed.

Lemma precedes_after es1 es2 :
  Forall (λ e, ¬ T e) es1 → precedes (λ es, G (es1 ++ es)) T es2 → precedes G T (es1 ++ es2).
Proof.
  intros H1 H2 pre e post Heq HT.
  apply app_eq_inv in Heq as [(k & -> & Heq)|(k & -> & ->)].
  - destruct k as [|e' k]; cbn [app] in Heq.
    + subst es2. specialize (H2 [] e post eq_refl HT). by rewrite !app_nil_r in H2.
    + injection Heq as <- ->. apply Forall_app in H1 as [_ H1]. by inversion H1.
  - by apply (H2 k e post).
Qed.

Lemma precedes_impl (G' : history → Prop) es :
  (∀ pre, G' pre → G pre) → precedes G' T es → precedes G T es.
Proof. intros HG H pre e post Heq HT. eapply HG, H; eauto. Qed.

(** Everything is allowed once the condition holds. *)
Lemma precedes_reached `{!Grows G} es : G [] → precedes G T es.
Proof. intros HG pre e post _ _. rewrite <-(app_nil_r pre). by apply (grows_r G). Qed.
End precedes.
