(* ===== verification/VirtUri.v ===== *)
(** * hbird-virt: the [qemu+ssh://] URI

    [crates/hbird-virt/src/uri.rs]: [QemuSshUri::parse], [Display],
    [remote_uri] and [ssh_target], with the error values of [error.rs] and
    [ssh.rs].  Proved: printing then parsing gives the URI back, and what the
    parser guarantees of the tokens that reach the [ssh] command line. *)

From S2P Require Import Prelude RustStr.

(** [hbird_virt::SshError] ([ssh.rs]) *)
Inductive VSshError : Set :=
| Transport (host message : string)
| RemoteExit (host command : string) (exit_code : option Z) (stderr : string).
#[export] Instance VSshError_eq_dec : EqDecision VSshError.
Proof. solve_decision. Defined.

(** [hbird_virt::Error] ([error.rs]) *)
Inductive VirtError : Set :=
| InvalidUri (raw reason : string)
| InvalidPort (raw : string) (source : ParseIntError)
| Ssh (source : VSshError)
| VirshFailed (command stderr : string)
| UnparseableOutput (command reason : string).
#[export] Instance VirtError_eq_dec : EqDecision VirtError.
Proof. solve_decision. Defined.

(** [impl Display for SshError] and [impl Display for Error] *)
Definition show_vssh_error (e : VSshError) : string :=
  match e with
  | Transport host message => "SSH transport failure for " +:+ host +:+ ": " +:+ message
  | RemoteExit host command exit_code stderr =>
      "remote command on " +:+ host +:+ " exited "
      +:+ match exit_code with Some c => show_Z c | None => "signalled" end
      +:+ ": " +:+ debug_str command +:+ NL +:+ "--- stderr ---" +:+ NL +:+ stderr
  end.

Definition show_virt_error (e : VirtError) : string :=
  match e with
  | InvalidUri raw reason => "invalid qemu+ssh URI: " +:+ debug_str raw +:+ " — " +:+ reason
  | InvalidPort raw source =>
      "invalid port in qemu+ssh URI " +:+ debug_str raw +:+ ": " +:+ show_parse_int_error source
  | Ssh source => "SSH transport error: " +:+ show_vssh_error source
  | VirshFailed command stderr =>
      "remote command failed: " +:+ debug_str command +:+ ": " +:+ stderr
  | UnparseableOutput command reason =>
      "could not parse virsh output for " +:+ debug_str command +:+ ": " +:+ reason
  end.

Inductive Instance_ : Set := System | Session.
#[export] Instance Instance_eq_dec : EqDecision Instance_.
Proof. solve_decision. Defined.

(** [impl Display for Instance] *)
Definition show_instance (i : Instance_) : string :=
  match i with System => "system" | Session => "session" end.

Module QemuSshUri.

Record t : Set := mk {
  user : option string;
  host : string;
  port : option N;
  inst : Instance_;
  query : option string;
}.
#[export] Instance t_eq_dec : EqDecision t.
Proof. solve_decision. Defined.

Definition is_token_char (a : ascii) : bool :=
  is_ascii_alphanumeric a || Ascii.eqb a "." || Ascii.eqb a "_" || Ascii.eqb a "-".

Definition validate_safe_token (s field raw : string) : result VirtError unit :=
  if is_empty s then
    Err (InvalidUri raw
      (if bool_decide (field = "host") then "host token must not be empty"
       else if bool_decide (field = "user") then "user token must not be empty"
       else "token must not be empty"))
  else if starts_with_char "-" s then
    Err (InvalidUri raw
      (if bool_decide (field = "host") then
         "host must not start with '-' (would be parsed as an SSH option)"
       else if bool_decide (field = "user") then
         "user must not start with '-' (would be parsed as an SSH option)"
       else "token must not start with '-'"))
  else if negb (all_bytes is_token_char s) then
    Err (InvalidUri raw
      (if bool_decide (field = "host") then "host contains characters outside [A-Za-z0-9._-]"
       else if bool_decide (field = "user") then
         "user contains characters outside [A-Za-z0-9._-]"
       else "token contains disallowed characters"))
  else Ok tt.

Definition parse_port (p raw : string) : result VirtError N :=
  map_err (InvalidPort raw) (parse_uint U16_MAX p).

Definition split_host_port (host_port raw : string) : result VirtError (string * option N) :=
  match strip_prefix "[" host_port with
  | Some rest =>
      close ← ok_or (InvalidUri raw "IPv6 literal missing closing bracket") (find_char "]" rest);
      let host := str_take close rest in
      let tail := str_drop (S close) rest in
      match strip_prefix ":" tail with
      | Some p => port ← parse_port p raw; Ok (host, Some port)
      | None =>
          if is_empty tail then Ok (host, None)
          else Err (InvalidUri raw "garbage after IPv6 literal close bracket")
      end
  | None =>
      match rsplit_once ":" host_port with
      | Some (h, p) =>
          if contains_char ":" h
          then Err (InvalidUri raw "IPv6 literal must be bracketed when paired with a port")
          else port ← parse_port p raw; Ok (h, Some port)
      | None => Ok (host_port, None)
      end
  end.

(** [after_scheme] cut at the first ["?"]: an empty query counts as none. *)
Definition split_query (after_scheme : string) : string * option string :=
  match split_once "?" after_scheme with
  | Some (lhs, q) => if negb (is_empty q) then (lhs, Some q) else (lhs, None)
  | None => (after_scheme, None)
  end.

(** The authority and the path. *)
Definition split_path (auth_and_path : string) : string * string :=
  match split_once "/" auth_and_path with
  | Some (a, p) => (a, p)
  | None => (auth_and_path, "")
  end.

Definition split_user (authority raw : string) : result VirtError (option string * string) :=
  match rsplit_once "@" authority with
  | Some (u, hp) =>
      if is_empty u then Ok (None, hp)
      else if contains_char "@" u
           then Err (InvalidUri raw "user component must not contain '@'")
           else Ok (Some u, hp)
  | None => Ok (None, authority)
  end.

Definition parse_instance (path raw : string) : result VirtError Instance_ :=
  if is_empty path || bool_decide (path = "system") then Ok System
  else if bool_decide (path = "session") then Ok Session
  else Err (InvalidUri raw
              "unsupported libvirt instance path (expected /system or /session)").

Definition parse (raw : string) : result VirtError t :=
  after_scheme ← ok_or (InvalidUri raw "missing 'qemu+ssh://' scheme prefix")
                   (strip_prefix "qemu+ssh://" raw);
  let '(auth_and_path, query) := split_query after_scheme in
  let '(authority, path) := split_path auth_and_path in
  if is_empty authority then Err (InvalidUri raw "empty authority (host) component")
  else
    '(user, host_port) ← split_user authority raw;
    _ ← match user with Some u => validate_safe_token u "user" raw | None => Ok tt end;
    let is_ipv6 := starts_with_char "[" host_port in
    '(host, port) ← split_host_port host_port raw;
    if is_empty host then Err (InvalidUri raw "empty host")
    else
      _ ← (if negb is_ipv6 then validate_safe_token host "host" raw else Ok tt);
      inst ← parse_instance path raw;
      Ok (mk user host port inst query).

Definition remote_uri (u : t) : string := "qemu:///" +:+ show_instance (inst u).

Definition ssh_target (u : t) : string :=
  match user u with
  | Some n => n +:+ "@" +:+ host u
  | None => host u
  end.

(** [impl Display for QemuSshUri], in its pieces. *)
Definition show_user (u : option string) : string :=
  match u with Some n => n +:+ "@" | None => "" end.
Definition show_host (h : string) : string :=
  if contains_char ":" h then "[" +:+ h +:+ "]" else h.
Definition show_port (p : option N) : string :=
  match p with Some n => ":" +:+ show_N n | None => "" end.
Definition show_query (q : option string) : string :=
  match q with Some s => "?" +:+ s | None => "" end.
Definition show (u : t) : string :=
  "qemu+ssh://" +:+ (show_user (user u) +:+ show_host (host u) +:+ show_port (port u))
  +:+ "/" +:+ show_instance (inst u) +:+ show_query (query u).

(** ** Specification *)

(** A token that is safe on an [ssh] command line. *)
Definition safe_token (s : string) : bool :=
  negb (is_empty s) && negb (starts_with_char "-" s) && all_bytes is_token_char s.

(** What fits between brackets in the authority. *)
Definition bracketable (h : string) : bool :=
  negb (is_empty h) && negb (contains_char "/" h) && negb (contains_char "?" h)
  && negb (contains_char "@" h) && negb (contains_char "]" h).

(** Everything about a URI but its host. *)
Definition wf_rest (u : t) : bool :=
  match user u with Some n => safe_token n | None => true end
  && match port u with Some p => (p <=? U16_MAX)%N | None => true end
  && match query u with Some q => negb (is_empty q) | None => true end.

(** The URIs that [parse] can build. *)
Definition well_formed (u : t) : bool :=
  wf_rest u && (safe_token (host u) || bracketable (host u)).

(** The URIs that [show] writes unambiguously. *)
Definition printable (u : t) : bool :=
  wf_rest u && (if contains_char ":" (host u) then bracketable (host u)
                else safe_token (host u)).

(** ** Tokens *)

Lemma validate_safe_token_Ok s field raw :
  validate_safe_token s field raw = Ok tt ↔ safe_token s = true.
Proof.
  unfold validate_safe_token, safe_token.
  destruct (is_empty s); [done|]. destruct (starts_with_char "-" s); [done|].
  by destruct (all_bytes is_token_char s).
Qed.

Lemma validate_safe_token_inv s field raw x :
  validate_safe_token s field raw = Ok x → safe_token s = true.
Proof. destruct x. apply validate_safe_token_Ok. Qed.

Lemma safe_token_spec s :
  safe_token s = true →
  is_empty s = false ∧ starts_with_char "-" s = false ∧ all_bytes is_token_char s = true.
Proof.
  unfold safe_token. destruct (is_empty s), (starts_with_char "-" s); naive_solver.
Qed.

Lemma safe_token_no c s : is_token_char c = false → safe_token s = true → contains_char c s = false.
Proof. intros Hc (_ & _ & Hs)%safe_token_spec. by eapply all_bytes_not_contains. Qed.

Lemma bracketable_spec s :
  bracketable s = true ↔
  is_empty s = false ∧ contains_char "/" s = false ∧ contains_char "?" s = false
  ∧ contains_char "@" s = false ∧ contains_char "]" s = false.
Proof.
  unfold bracketable. rewrite !andb_true_iff, !negb_true_iff. tauto.
Qed.

(** ** Each piece of the grammar is read back *)

Lemma split_query_show a q :
  contains_char "?" a = false → match q with Some s => negb (is_empty s) | None => true end = true →
  split_query (a +:+ show_query q) = (a, q).
Proof.
  intros Ha Hq. unfold split_query. destruct q as [s|]; cbn [show_query].
  - rewrite (proj2 (split_once_Some "?" (a +:+ "?" +:+ s) a s)) by done. by rewrite Hq.
  - rewrite app_nil_s. by rewrite (proj2 (split_once_None "?" a)).
Qed.

Lemma split_path_show a p :
  contains_char "/" a = false → split_path (a +:+ "/" +:+ p) = (a, p).
Proof.
  intros Ha. unfold split_path.
  by rewrite (proj2 (split_once_Some "/" (a +:+ "/" +:+ p) a p)).
Qed.

Lemma split_user_show u hp raw :
  contains_char "@" hp = false → match u with Some n => safe_token n | None => true end = true →
  split_user (show_user u +:+ hp) raw = Ok (u, hp).
Proof.
  intros Hhp Hu. unfold split_user. destruct u as [n|]; cbn [show_user].
  - rewrite <-app_assoc_s.
    rewrite (proj2 (rsplit_once_Some "@" (n +:+ "@" +:+ hp) n hp)) by done.
    rewrite (safe_token_no "@" n) by done.
    by destruct (safe_token_spec n Hu) as [-> _].
  - change ("" +:+ hp) with hp. by rewrite (proj2 (rsplit_once_None "@" hp)).
Qed.

Lemma parse_port_show p raw : (p <=? U16_MAX)%N = true → parse_port (show_N p) raw = Ok p.
Proof. intros Hp%N.leb_le. unfold parse_port. by rewrite parse_show_N. Qed.

Lemma show_N_digits n : all_bytes is_ascii_digit (show_N n) = true.
Proof.
  unfold show_N. generalize (S (N.to_nat (N.log2 n))) as fuel.
  assert (H : all_bytes is_ascii_digit "" = true) by done. revert H. generalize "" as acc.
  intros acc Hacc fuel. revert n acc Hacc.
  induction fuel as [|fuel IH]; intros n acc Hacc; cbn [show_N_go]; [done|].
  assert (Hd : all_bytes is_ascii_digit (String (digit (n mod 10)) acc) = true).
  { cbn [all_bytes]. by rewrite digit_is_digit by (apply N.mod_lt; done). }
  destruct (n <? 10)%N; [done|]. by apply IH.
Qed.

Lemma show_port_no c p :
  is_ascii_digit c = false → c ≠ ":"%char → contains_char c (show_port p) = false.
Proof.
  intros Hd Hc. destruct p as [n|]; [|done]. cbn [show_port].
  rewrite contains_char_app. rewrite (all_bytes_not_contains is_ascii_digit c (show_N n));
    [|done|apply show_N_digits].
  unfold contains_char. simpl. destruct (Ascii.eqb_spec c ":"); done.
Qed.

Lemma split_host_port_show h p raw :
  (if contains_char ":" h then bracketable h else safe_token h) = true →
  match p with Some n => (n <=? U16_MAX)%N | None => true end = true →
  split_host_port (show_host h +:+ show_port p) raw = Ok (h, p).
Proof.
  intros Hh Hp. unfold split_host_port, show_host.
  destruct (contains_char ":" h) eqn:Hc.
  - apply bracketable_spec in Hh as (_ & _ & _ & _ & Hb).
    change (strip_prefix "[" (("[" +:+ h +:+ "]") +:+ show_port p))
      with (Some ((h +:+ "]") +:+ show_port p)). cbv iota beta.
    rewrite <-app_assoc_s. change ("]" +:+ show_port p) with (String "]" (show_port p)).
    rewrite find_char_app by done. cbn [ok_or mbind result_bind].
    rewrite str_take_app, str_drop_app_S. destruct p as [n|]; [|done].
    cbn [show_port]. change (strip_prefix ":" (":" +:+ show_N n)) with (Some (show_N n)).
    cbv iota beta. by rewrite parse_port_show.
  - pose proof (safe_token_no "[" h eq_refl Hh) as Hb.
    assert (Hs : strip_prefix "[" (h +:+ show_port p) = None).
    { destruct h as [|a h]; [done|]. unfold contains_char in Hb. simpl in Hb |- *.
      apply orb_false_iff in Hb as [-> _]. done. }
    rewrite Hs. cbv iota. destruct p as [n|]; cbn [show_port].
    + rewrite (proj2 (rsplit_once_Some ":" (h +:+ ":" +:+ show_N n) h (show_N n))).
      * rewrite Hc. by rewrite parse_port_show.
      * split; [done|]. eapply all_bytes_not_contains; [|apply show_N_digits]. done.
    + rewrite app_nil_s. by rewrite (proj2 (rsplit_once_None ":" h)).
Qed.

Lemma parse_instance_show i raw : parse_instance (show_instance i) raw = Ok i.
Proof. by destruct i. Qed.

Lemma show_host_no c h :
  c ≠ "["%char → c ≠ "]"%char → contains_char c h = false → contains_char c (show_host h) = false.
Proof.
  intros H1 H2 Hh. unfold show_host. destruct (contains_char ":" h); [|done].
  rewrite !contains_char_app, Hh. unfold contains_char. simpl.
  destruct (Ascii.eqb_spec c "["), (Ascii.eqb_spec c "]"); done.
Qed.

Lemma show_user_no c u :
  is_token_char c = false → c ≠ "@"%char →
  match u with Some n => safe_token n | None => true end = true →
  contains_char c (show_user u) = false.
Proof.
  intros Hc Ha Hu. destruct u as [n|]; [|done]. cbn [show_user].
  rewrite contains_char_app, (safe_token_no c n) by done.
  unfold contains_char. simpl. by destruct (Ascii.eqb_spec c "@").
Qed.

Lemma wf_rest_spec u :
  wf_rest u = true →
  match user u with Some n => safe_token n | None => true end = true
  ∧ match port u with Some p => (p <=? U16_MAX)%N | None => true end = true
  ∧ match query u with Some q => negb (is_empty q) | None => true end = true.
Proof. unfold wf_rest. rewrite !andb_true_iff. tauto. Qed.

Lemma host_no c u :
  is_token_char c = false → c ≠ "["%char → c ≠ "]"%char →
  (bracketable (host u) = true → contains_char c (host u) = false) →
  (if contains_char ":" (host u) then bracketable (host u) else safe_token (host u)) = true →
  contains_char c (show_host (host u)) = false.
Proof.
  intros Hc H1 H2 Hb Hh. apply show_host_no; [done..|].
  destruct (contains_char ":" (host u)); [auto|]. by apply safe_token_no.
Qed.

(** No separator occurs inside the authority. *)
Lemma authority_no c u :
  is_token_char c = false → c ≠ "["%char → c ≠ "]"%char → c ≠ "@"%char → c ≠ ":"%char →
  is_ascii_digit c = false →
  (bracketable (host u) = true → contains_char c (host u) = false) →
  printable u = true →
  contains_char c (show_user (user u) +:+ show_host (host u) +:+ show_port (port u)) = false.
Proof.
  intros Hc H1 H2 H3 H4 Hd Hb [(Hu & Hp & Hq)%wf_rest_spec Hh]%andb_true_iff.
  rewrite !contains_char_app.
  by rewrite show_user_no, host_no, show_port_no.
Qed.

Lemma show_host_head h raw :
  (if contains_char ":" h then bracketable h else safe_token h) = true →
  is_empty h = false
  ∧ (if negb (starts_with_char "[" (show_host h)) then validate_safe_token h "host" raw
     else Ok tt) = Ok tt.
Proof.
  unfold show_host. destruct (contains_char ":" h).
  - by intros [? _]%bracketable_spec.
  - intros Hs. split; [by apply safe_token_spec in Hs as [? _]|].
    destruct (negb _); [|done]. by apply validate_safe_token_Ok.
Qed.

Lemma parse_show_aux u : printable u = true → parse (show u) = Ok u.
Proof.
  intros Hpr. pose proof Hpr as [(Hu & Hp & Hq)%wf_rest_spec Hh]%andb_true_iff.
  assert (Hslash : contains_char "/" (show_user (user u) +:+ show_host (host u)
                                      +:+ show_port (port u)) = false).
  { apply authority_no; try done. intros Hb. by apply bracketable_spec in Hb as (_ & ? & _). }
  assert (Hquery : contains_char "?" (show_user (user u) +:+ show_host (host u)
                                      +:+ show_port (port u)) = false).
  { apply authority_no; try done. intros Hb. by apply bracketable_spec in Hb as (_ & _ & ? & _). }
  assert (Hat : contains_char "@" (show_host (host u) +:+ show_port (port u)) = false).
  { rewrite contains_char_app, show_port_no, host_no by
      (done || intros Hb; by apply bracketable_spec in Hb as (_ & _ & _ & ? & _)). done. }
  destruct (show_host_head (host u) (show u) Hh) as [Hne Hv].
  set (auth := show_user (user u) +:+ show_host (host u) +:+ show_port (port u)) in *.
  unfold parse.
  assert (strip_prefix "qemu+ssh://" (show u)
          = Some (auth +:+ "/" +:+ show_instance (inst u) +:+ show_query (query u))) as ->
    by apply strip_prefix_app.
  cbn [ok_or mbind result_bind].
  replace (auth +:+ "/" +:+ show_instance (inst u) +:+ show_query (query u))
    with ((auth +:+ "/" +:+ show_instance (inst u)) +:+ show_query (query u))
    by (rewrite <-!app_assoc_s; done).
  rewrite split_query_show; [|rewrite !contains_char_app, Hquery; by destruct (inst u)|done].
  rewrite split_path_show by done.
  assert (is_empty auth = false) as ->.
  { subst auth. destruct (user u) as [n|].
    - cbn [show_user]. by destruct n.
    - cbn [show_user]. change ("" +:+ ?x) with x. unfold show_host.
      destruct (contains_char ":" (host u)); [done|]. by destruct (host u). }
  subst auth. rewrite split_user_show by done. cbn [mbind result_bind].
  assert ((match user u with Some n => validate_safe_token n "user" (show u) | None => Ok tt end)
          = Ok tt) as ->.
  { destruct (user u); [|done]. by apply validate_safe_token_Ok. }
  cbn [mbind result_bind]. rewrite split_host_port_show by done. cbn [mbind result_bind].
  rewrite Hne.
  assert (starts_with_char "[" (show_host (host u) +:+ show_port (port u))
          = starts_with_char "[" (show_host (host u))) as ->.
  { unfold show_host. destruct (contains_char ":" (host u)); [done|].
    by destruct (host u). }
  rewrite Hv. cbn [mbind result_bind]. rewrite parse_instance_show. by destruct u.
Qed.

(** ** What the parser lets through *)

Lemma parse_port_bound p raw n : parse_port p raw = Ok n → (n <=? U16_MAX)%N = true.
Proof.
  unfold parse_port. destruct (parse_uint U16_MAX p) eqn:E; [|done].
  intros [= <-]. apply N.leb_le. by eapply parse_uint_bound.
Qed.

Lemma contains_take_false c n s : contains_char c s = false → contains_char c (str_take n s) = false.
Proof.
  rewrite <-(str_take_drop n s) at 1. rewrite contains_char_app. by intros [? _]%orb_false_iff.
Qed.

Lemma split_host_port_inv hp raw h p :
  split_host_port hp raw = Ok (h, p) →
  match p with Some n => (n <=? U16_MAX)%N | None => true end = true
  ∧ (starts_with_char "[" hp = true → contains_char "]" h = false
     ∧ ∀ c, contains_char c hp = false → contains_char c h = false).
Proof.
  unfold split_host_port. destruct (strip_prefix "[" hp) as [rest|] eqn:Hb.
  - apply strip_prefix_Some in Hb as ->. intros Hx. inv_bind Hx.
    apply ok_or_Ok in Hx0. apply find_char_split in Hx0 as [Hrest Hnot].
    assert (Hc : ∀ c, contains_char c ("[" +:+ rest) = false →
                      contains_char c (str_take x rest) = false).
    { intros c. rewrite contains_char_app. intros [_ Hr]%orb_false_iff.
      by apply contains_take_false. }
    destruct (strip_prefix ":" _) as [p'|].
    + inv_bind Hx. simplify_eq. split; [by eapply parse_port_bound|done].
    + destruct (is_empty _); simplify_eq/=. done.
  - apply strip_prefix_char in Hb as ->. destruct (rsplit_once ":" hp) as [[h' p']|].
    + destruct (contains_char ":" h'); [done|]. intros Hx. inv_bind Hx. simplify_eq.
      split; [by eapply parse_port_bound|done].
    + intros [= <- <-]. done.
Qed.

Lemma split_user_inv a raw u hp :
  split_user a raw = Ok (u, hp) →
  contains_char "@" hp = false ∧ ∀ c, contains_char c a = false → contains_char c hp = false.
Proof.
  unfold split_user. destruct (rsplit_once "@" a) as [[n hp']|] eqn:E.
  - apply rsplit_once_Some in E as [-> Hat].
    assert (Hc : ∀ c, contains_char c (n +:+ String "@" hp') = false → contains_char c hp' = false).
    { intros c. rewrite contains_char_app, contains_char_cons.
      by intros [_ [_ ?]%orb_false_iff]%orb_false_iff. }
    destruct (is_empty n); [naive_solver|]. destruct (contains_char "@" n); naive_solver.
  - apply rsplit_once_None in E. naive_solver.
Qed.

Lemma split_query_inv s a q :
  split_query s = (a, q) →
  contains_char "?" a = false ∧ match q with Some x => negb (is_empty x) | None => true end = true.
Proof.
  unfold split_query. destruct (split_once "?" s) as [[l r]|] eqn:E.
  - apply split_once_Some in E as [-> ?]. destruct (negb (is_empty r)) eqn:?; naive_solver.
  - apply split_once_None in E. naive_solver.
Qed.

Lemma split_path_inv s a p :
  split_path s = (a, p) →
  contains_char "/" a = false ∧ ∀ c, contains_char c s = false → contains_char c a = false.
Proof.
  unfold split_path. destruct (split_once "/" s) as [[l r]|] eqn:E.
  - apply split_once_Some in E as [-> ?]. intros [= <- <-]. split; [done|].
    intros c. rewrite contains_char_app. by intros [? _]%orb_false_iff.
  - apply split_once_None in E. naive_solver.
Qed.

Lemma parse_inv raw u :
  parse raw = Ok u →
  wf_rest u = true
  ∧ (safe_token (host u) = true ∨ bracketable (host u) = true).
Proof.
  unfold parse. intros Hx. inv_bind Hx.
  destruct (split_query x) as [ap q] eqn:Eq. destruct (split_path ap) as [au pa] eqn:Ep.
  apply split_query_inv in Eq as [Hq1 Hq2]. apply split_path_inv in Ep as [Hp1 Hp2].
  destruct (is_empty au); [done|]. inv_bind Hx. destruct x0 as [us hp].
  apply split_user_inv in Hx1 as [Hu1 Hu2]. inv_bind Hx. inv_bind Hx. destruct x1 as [h p].
  apply split_host_port_inv in Hx2 as [Hh1 Hh2].
  destruct (is_empty h) eqn:Hne; [done|]. inv_bind Hx. inv_bind Hx. simplify_eq.
  split.
  - unfold wf_rest. cbn [user port query]. rewrite Hh1, Hq2.
    destruct us; [|done]. by rewrite (validate_safe_token_inv _ _ _ _ Hx1).
  - cbn [host]. destruct (starts_with_char "[" hp).
    + right. destruct (Hh2 eq_refl) as [Hb Hc]. apply bracketable_spec. split_and!; auto.
    + left. cbn [negb] in *. by eapply validate_safe_token_inv.
Qed.

(** Printing a URI and parsing the text gives the URI back, for every URI
    whose user is a safe token, whose port is a [u16], whose query is not the
    empty string and whose host is a safe token, or holds a colon and fits
    between brackets. *)
Theorem parse_show u : printable u = true → parse (show u) = Ok u.
Proof. apply parse_show_aux. Qed.

Lemma parse_show_witness :
  parse (show (mk (Some "core") "fe80::1" (Some 2222%N) System (Some "no_verify=1")))
  = Ok (mk (Some "core") "fe80::1" (Some 2222%N) System (Some "no_verify=1")).
Proof. apply parse_show. vm_compute. reflexivity. Defined.



(** The [ssh] target of an accepted URI is never read as an option, for a
    URI that names a user or whose host is a safe token. *)
Theorem ssh_target_not_option raw u :
  parse raw = Ok u → user u ≠ None ∨ safe_token (host u) = true →
  starts_with_char "-" (ssh_target u) = false ∧ ssh_target u ≠ "".
Proof.
  intros [(Hu & _ & _)%wf_rest_spec Hh]%parse_inv Hor. unfold ssh_target.
  destruct (user u) as [n|].
  - destruct (safe_token_spec n Hu) as (Hne & Hd & _). by destruct n.
  - destruct Hor as [|Hs]; [done|]. destruct (safe_token_spec _ Hs) as (Hne & Hd & _).
    by destruct (host u).
Qed.

Lemma ssh_target_not_option_witness :
  starts_with_char "-" (ssh_target (mk None "kvm" None System None)) = false
  ∧ ssh_target (mk None "kvm" None System None) ≠ "".
Proof.
  apply (ssh_target_not_option "qemu+ssh://kvm/system"); [vm_compute; reflexivity|].
  right. vm_compute. reflexivity.
Defined.

(** The side condition of [ssh_target_not_option] is needed: a bracketed host
    is not validated, so a URI is accepted whose [ssh] target is the option
    [-oProxyCommand=evil]. *)
Theorem bracketed_host_bypasses_validation :
  parse "qemu+ssh://[-oProxyCommand=evil]/system"
  = Ok (mk None "-oProxyCommand=evil" None System None)
  ∧ ssh_target (mk None "-oProxyCommand=evil" None System None) = "-oProxyCommand=evil".
Proof. split; vm_compute; reflexivity. Qed.

End QemuSshUri.

(** ** The digits of a number *)

Lemma show_N_plain c n : is_ascii_digit c = false → contains_char c (show_N n) = false.
Proof.
  intros Hc. pose proof (QemuSshUri.show_N_digits n) as Hd. revert Hd. unfold contains_char.
  generalize (show_N n). induction s as [|a s IH]; cbn [any_byte all_bytes]; [done|].
  intros [Ha Hs]%andb_true_iff. apply orb_false_iff. split; [|by apply IH].
  apply Ascii.eqb_neq. by intros ->; rewrite Hc in Ha.
Qed.

Lemma show_N_last n : ∃ u a, show_N n = u +:+ chr a ∧ is_ascii_digit a = true.
Proof.
  assert (Hne : show_N n ≠ "").
  { intros E. pose proof (parse_show_N n n (N.le_refl _)) as H. by rewrite E in H. }
  destruct (snoc_s _ Hne) as (u & a & Hu). exists u, a. split; [done|].
  pose proof (QemuSshUri.show_N_digits n) as H. rewrite Hu, all_bytes_app in H.
  apply andb_true_iff in H as [_ H]. cbn in H. by rewrite andb_true_r in H.
Qed.

(** The last characters of two equal strings. *)
Lemma last_char s a t b : s +:+ chr a = t +:+ chr b → a = b.
Proof.
  intros E. apply (f_equal (strip_suffix_char b)) in E. rewrite strip_suffix_char_app in E.
  destruct (decide (a = b)) as [|Hne]; [done|]. by rewrite strip_suffix_char_ne in E.
Qed.
