(* ===== verification/Shell.v ===== *)
(** * Specification: the words of a shell command line

    A conservative reading of POSIX shell: [shell_words cmd] is the list of
    words of [cmd] when [cmd] is one simple command made of bare characters,
    single-quoted text, backslash escapes and blanks.  Any character that could
    start another command, an expansion, a redirection or a comment makes the
    answer [None].  The quoting functions of the program are proved against
    this specification. *)

From S2P Require Import Prelude RustStr.

(** Characters that stand for themselves outside quotes. *)
Definition is_bare (a : ascii) : bool :=
  is_ascii_alphanumeric a
  || bool_decide (a ∈ ["-"; "_"; "."; "/"; ":"; "="; ","; "@"; "+"]%char).

Definition word_of (cur : option string) : string := default "" cur.
Definition push_word (cur : option string) (ws : list string) : list string :=
  match cur with Some w => w :: ws | None => ws end.

(** [quoted]: inside single quotes.  [cur]: the word being read. *)
Fixpoint lex (quoted : bool) (cur : option string) (s : string) : option (list string) :=
  match s with
  | EmptyString => if quoted then None else Some (push_word cur [])
  | String a s1 =>
      if quoted then
        if Ascii.eqb a squote then lex false cur s1
        else lex true (Some (word_of cur +:+ chr a)) s1
      else if Ascii.eqb a squote then lex true (Some (word_of cur)) s1
      else if Ascii.eqb a backslash then
        match s1 with
        | EmptyString => None
        | String b s2 =>
            if Ascii.eqb b nl then None else lex false (Some (word_of cur +:+ chr b)) s2
        end
      else if Ascii.eqb a " " then push_word cur <$> lex false None s1
      else if is_bare a then lex false (Some (word_of cur +:+ chr a)) s1
      else None
  end.

Definition shell_words (cmd : string) : option (list string) := lex false None cmd.

(** ** Lemmas *)

Lemma word_of_Some w : word_of (Some w) = w.
Proof. done. Qed.

Lemma snoc_app_s w a s : (w +:+ chr a) +:+ s = w +:+ String a s.
Proof. by rewrite <-app_assoc_s. Qed.

Lemma bare_not_special a :
  is_bare a = true → Ascii.eqb a squote = false ∧ Ascii.eqb a backslash = false
                     ∧ Ascii.eqb a " " = false.
Proof.
  intros Ha. split_and!; apply Ascii.eqb_neq; intros ->; vm_compute in Ha; discriminate Ha.
Qed.

Lemma lex_bare cur s rest :
  all_bytes is_bare s = true →
  lex false cur (s +:+ rest)
  = lex false (if is_empty s then cur else Some (word_of cur +:+ s)) rest.
Proof.
  revert cur. induction s as [|a s IH]; intros cur; [done|].
  cbn [all_bytes is_empty]. intros [Ha Hs]%andb_true_iff.
  change (String a s +:+ rest) with (String a (s +:+ rest)). cbn [lex].
  destruct (bare_not_special a Ha) as (-> & -> & ->). rewrite Ha, IH by done.
  destruct s as [|b s]; [done|]. cbn [is_empty]. by rewrite word_of_Some, snoc_app_s.
Qed.

(** Text without a quote, inside quotes. *)
Lemma lex_quoted w s rest :
  contains_char squote s = false →
  lex true (Some w) (s +:+ rest) = lex true (Some (w +:+ s)) rest.
Proof.
  revert w. induction s as [|a s IH]; intros w; [by rewrite app_nil_s|].
  rewrite contains_char_cons. intros [Ha Hs]%orb_false_iff.
  change (String a s +:+ rest) with (String a (s +:+ rest)). cbn [lex].
  rewrite Ascii.eqb_sym, Ha, IH by done. by rewrite word_of_Some, snoc_app_s.
Qed.

Lemma lex_open_quote cur rest :
  lex false cur (String squote rest) = lex true (Some (word_of cur)) rest.
Proof. done. Qed.

Lemma lex_close_quote cur rest : lex true cur (String squote rest) = lex false cur rest.
Proof. done. Qed.

Lemma lex_space cur rest : lex false cur (" " +:+ rest) = push_word cur <$> lex false None rest.
Proof. done. Qed.

Lemma lex_end w : lex false (Some w) "" = Some [w].
Proof. done. Qed.

(** [q] is a shell spelling of the text [s], whatever surrounds it. *)
Definition spells (q s : string) : Prop :=
  ∀ cur rest, lex false cur (q +:+ rest) = lex false (Some (word_of cur +:+ s)) rest.

Lemma spells_bare s : is_empty s = false → all_bytes is_bare s = true → spells s s.
Proof. intros Hne Hs cur rest. by rewrite lex_bare, Hne. Qed.

Lemma spells_app q1 s1 q2 s2 : spells q1 s1 → spells q2 s2 → spells (q1 +:+ q2) (s1 +:+ s2).
Proof.
  intros H1 H2 cur rest. rewrite <-app_assoc_s, H1, H2, word_of_Some.
  by rewrite app_assoc_s.
Qed.

(** Text without a quote, between single quotes. *)
Lemma spells_quoted s : contains_char squote s = false → spells ("'" +:+ s +:+ "'") s.
Proof.
  intros Hs cur rest. rewrite <-!app_assoc_s.
  change ("'" +:+ s +:+ "'" +:+ rest) with (String squote (s +:+ String squote rest)).
  by rewrite lex_open_quote, lex_quoted, lex_close_quote.
Qed.

(** A command line that joins spellings with single blanks. *)
Lemma shell_words_join qs ws :
  Forall2 spells qs ws → shell_words (join " " qs) = Some ws.
Proof.
  intros H. unfold shell_words. induction H as [|q w qs ws Hq HF IH]; [done|].
  destruct HF as [|q' w' qs' ws' Hq' HF].
  - cbn [join]. rewrite <-(app_nil_s q), Hq. done.
  - change (join " " (q :: q' :: qs')) with (q +:+ " " +:+ join " " (q' :: qs')).
    by rewrite Hq, lex_space, IH.
Qed.

#[export] Hint Resolve spells_app : shell.
