(* ===== verification/VirtParse.v ===== *)
(** * hbird-virt: quoting, the path guard and the parsers of virsh's output

    The free functions at the end of [crates/hbird-virt/src/lib.rs]. *)

From S2P Require Import Prelude RustStr VirtUri Shell.

(** ** IPv4 addresses: [str::parse::<Ipv4Addr>] and its [Display] *)

Record Ipv4 : Set := mkIpv4 { oct_a : N; oct_b : N; oct_c : N; oct_d : N }.
#[export] Instance Ipv4_eq_dec : EqDecision Ipv4.
Proof. solve_decision. Defined.

(** One octet: at most three digits, no leading zero, at most 255. *)
Definition parse_octet (s : string) : option N :=
  if (String.length s <=? 3)%nat && all_bytes is_ascii_digit s
     && negb ((1 <? String.length s)%nat && starts_with_char "0" s)
  then match parse_uint 255 s with Ok n => Some n | Err _ => None end
  else None.

Definition parse_ipv4 (s : string) : option Ipv4 :=
  match split_char "." s with
  | [a; b; c; d] =>
      a ← parse_octet a; b ← parse_octet b; c ← parse_octet c; d ← parse_octet d;
      Some (mkIpv4 a b c d)
  | _ => None
  end.

Definition show_ipv4 (i : Ipv4) : string :=
  show_N (oct_a i) +:+ "." +:+ show_N (oct_b i) +:+ "." +:+ show_N (oct_c i)
  +:+ "." +:+ show_N (oct_d i).

(** ** [shell_quote] *)

Definition is_unquoted (a : ascii) : bool :=
  is_ascii_alphanumeric a || Ascii.eqb a "-" || Ascii.eqb a "_" || Ascii.eqb a ".".

(** The loop over the characters: [c] or ['\'']. *)
Fixpoint quote_chars (s : string) : string :=
  match s with
  | EmptyString => EmptyString
  | String a s' =>
      if Ascii.eqb a squote
      then String squote (String backslash (String squote (String squote (quote_chars s'))))
      else String a (quote_chars s')
  end.

Definition shell_quote (s : string) : string :=
  if is_empty s then "''"
  else if all_bytes is_unquoted s then s
  else "'" +:+ quote_chars s +:+ "'".

(** ** [reject_destructive_path] *)

Definition banned : list string :=
  ["/"; "/bin"; "/boot"; "/dev"; "/etc"; "/home"; "/lib"; "/lib64"; "/proc"; "/root"; "/run";
   "/sbin"; "/srv"; "/sys"; "/tmp"; "/usr"; "/var"].

Definition reject_destructive_path (path : string) : result VirtError unit :=
  if is_empty path then
    Err (VirshFailed "remote_rm_rf" "refusing empty path: rm -rf '' would target cwd")
  else if negb (starts_with_char "/" path) then
    Err (VirshFailed "remote_rm_rf"
           ("refusing non-absolute path: " +:+ debug_str path +:+ " (must start with /)"))
  else if existsb (λ seg, bool_decide (seg = "..")) (split_char "/" path) then
    Err (VirshFailed "remote_rm_rf"
           ("refusing path with `..` segment: " +:+ debug_str path))
  else
    let trimmed := trim_end_char "/" path in
    let to_check := if is_empty trimmed then "/" else trimmed in
    if bool_decide (to_check ∈ banned) then
      Err (VirshFailed "remote_rm_rf"
             ("refusing destructive path: " +:+ debug_str path +:+ " is a top-level system "
              +:+ "directory; remote_rm_rf is only meant for cluster scratch "
              +:+ "dirs under POOL_DIR"))
    else Ok tt.

(** ** Parsers *)

Record Domain : Set := mkDomain { domain_name : string }.
#[export] Instance Domain_eq_dec : EqDecision Domain.
Proof. solve_decision. Defined.

Record DomainInfo : Set := mkDomainInfo {
  info_name : string;
  info_state : string;
  info_persistent : bool;
  info_os_type : string;
}.
#[export] Instance DomainInfo_eq_dec : EqDecision DomainInfo.
Proof. solve_decision. Defined.

(** [.lines().map(str::trim).filter(|s| !s.is_empty())] *)
Definition trimmed_lines (stdout : string) : list string :=
  filter (λ s, is_empty s = false) (trim <$> lines stdout).

Definition parse_domain_list (stdout : string) : list Domain :=
  mkDomain <$> trimmed_lines stdout.

(** The row a line of [domifaddr] holds, if it is an [ipv4] row. *)
Definition is_ipv4_row (line : string) : bool := contains "ipv4" (to_ascii_lowercase line).

Definition parse_row (line command : string) : result VirtError Ipv4 :=
  cidr ← ok_or (UnparseableOutput command
                  "ipv4 row had fewer than 4 whitespace-separated fields")
           (split_whitespace line !! 3%nat);
  ok_or (UnparseableOutput command "ipv4 row's address field did not parse as IPv4")
    (parse_ipv4 (before_char "/" cidr)).

Fixpoint parse_domifaddr_lines (ls : list string) (command : string)
    : result VirtError (option Ipv4) :=
  match ls with
  | [] => Ok None
  | line :: ls' =>
      if negb (is_ipv4_row line) then parse_domifaddr_lines ls' command
      else Some <$> parse_row line command
  end.

Definition parse_domifaddr (stdout command : string) : result VirtError (option Ipv4) :=
  parse_domifaddr_lines (lines stdout) command.

(** The four rows [parse_dominfo] keeps, the last one of a key winning. *)
Record rows : Set := mkRows {
  row_name : option string;
  row_state : option string;
  row_persistent : option bool;
  row_os_type : option string;
}.

Definition dominfo_line (r : rows) (line : string) : rows :=
  match split_once ":" line with
  | None => r
  | Some (key, value) =>
      let key := trim key in
      let value := trim value in
      if bool_decide (key = "Name") then
        mkRows (Some value) (row_state r) (row_persistent r) (row_os_type r)
      else if bool_decide (key = "State") then
        mkRows (row_name r) (Some (to_ascii_lowercase value)) (row_persistent r) (row_os_type r)
      else if bool_decide (key = "Persistent") then
        mkRows (row_name r) (row_state r) (Some (eq_ignore_ascii_case value "yes"))
          (row_os_type r)
      else if bool_decide (key = "OS Type") then
        mkRows (row_name r) (row_state r) (row_persistent r) (Some value)
      else r
  end.

Definition parse_dominfo (stdout command : string) : result VirtError DomainInfo :=
  let r := foldl dominfo_line (mkRows None None None None) (lines stdout) in
  name ← ok_or (UnparseableOutput command "dominfo output missing 'Name:' row") (row_name r);
  state ← ok_or (UnparseableOutput command "dominfo output missing 'State:' row") (row_state r);
  persistent ← ok_or (UnparseableOutput command "dominfo output missing 'Persistent:' row")
                 (row_persistent r);
  os_type ← ok_or (UnparseableOutput command "dominfo output missing 'OS Type:' row")
              (row_os_type r);
  Ok (mkDomainInfo name state persistent os_type).

Definition find_ip_dhcp_host_by_name (net_xml name : string) : option string :=
  let needle := "name='" +:+ name +:+ "'" in
  head (filter (λ l, starts_with "<host " l && contains needle l = true)
          (trim <$> lines net_xml)).

(** ** Correctness of [shell_quote] *)

Lemma unquoted_bare a : is_unquoted a = true → is_bare a = true.
Proof.
  unfold is_unquoted, is_bare. rewrite !orb_true_iff.
  intros [[[->| ->%Ascii.eqb_eq]| ->%Ascii.eqb_eq]| ->%Ascii.eqb_eq]; [by left|right..];
    by vm_compute.
Qed.

Lemma lex_quote_chars s : ∀ w rest,
  lex true (Some w) (quote_chars s +:+ String squote rest) = lex false (Some (w +:+ s)) rest.
Proof.
  induction s as [|a s IH]; intros w rest; cbn [quote_chars].
  - by rewrite app_nil_s.
  - destruct (Ascii.eqb_spec a squote) as [->|Hne].
    + change (String squote (String backslash (String squote (String squote (quote_chars s))))
              +:+ String squote rest)
        with (String squote (String backslash (String squote (String squote
                (quote_chars s +:+ String squote rest))))).
      rewrite lex_close_quote.
      change (lex false (Some w) (String backslash (String squote ?r)))
        with (lex false (Some (w +:+ chr squote)) r).
      by rewrite lex_open_quote, word_of_Some, IH, snoc_app_s.
    + change (String a (quote_chars s) +:+ String squote rest)
        with (String a (quote_chars s +:+ String squote rest)).
      cbn [lex]. rewrite (proj2 (Ascii.eqb_neq a squote) Hne).
      by rewrite IH, word_of_Some, snoc_app_s.
Qed.

Lemma shell_quote_spells_aux s : spells (shell_quote s) s.
Proof.
  unfold shell_quote. destruct (is_empty s) eqn:Hne.
  - destruct s; [|done]. intros cur rest. by rewrite app_nil_s.
  - destruct (all_bytes is_unquoted s) eqn:Hs.
    + apply spells_bare; [done|]. eapply all_bytes_impl; [|done]. apply unquoted_bare.
    + intros cur rest. rewrite <-!app_assoc_s.
      change ("'" +:+ quote_chars s +:+ "'" +:+ rest)
        with (String squote (quote_chars s +:+ String squote rest)).
      by rewrite lex_open_quote, lex_quote_chars.
Qed.
#[export] Hint Resolve shell_quote_spells_aux : shell.

(** A quoted string is read by the shell as exactly that string: whatever
    comes before and after it, the word being read is extended by the text,
    and no quote is left open. *)
Theorem shell_quote_spells s : spells (shell_quote s) s.
Proof. apply shell_quote_spells_aux. Qed.

(** ** What the path guard lets through *)

(** A path component that is not special. *)
Definition component (c : string) : Prop :=
  is_empty c = false ∧ contains_char "/" c = false ∧ c ≠ "." ∧ c ≠ "..".

(** ["/a/b"] for [a; b]. *)
Definition abs_path (comps : list string) : string :=
  concat_str ((λ c, "/" +:+ c) <$> comps).

Fixpoint slashes (n : nat) : string :=
  match n with O => "" | S n => String "/" (slashes n) end.

Definition system_dirs : list string :=
  ["bin"; "boot"; "dev"; "etc"; "home"; "lib"; "lib64"; "proc"; "root"; "run";
   "sbin"; "srv"; "sys"; "tmp"; "usr"; "var"].

Lemma abs_path_cons c comps : abs_path (c :: comps) = "/" +:+ c +:+ abs_path comps.
Proof. by unfold abs_path; cbn [fmap list_fmap concat_str]; rewrite <-app_assoc_s. Qed.

Lemma slashes_all n : all_bytes (Ascii.eqb "/") (slashes n) = true.
Proof. by induction n. Qed.

Definition is_dotdot (seg : string) : bool := bool_decide (seg = "..").

Lemma no_dotdot_slashes n : existsb is_dotdot (split_char "/" (slashes n)) = false.
Proof. induction n as [|n IH]; [done|]. exact IH. Qed.

Lemma no_dotdot_rest c comps n :
  component c → Forall component comps →
  existsb is_dotdot (split_char "/" (c +:+ abs_path comps +:+ slashes n)) = false.
Proof.
  intros Hc Hcs. revert c Hc.
  assert (Hd : ∀ c, component c → is_dotdot c = false).
  { intros c (_ & _ & _ & ?). by apply bool_decide_eq_false. }
  induction Hcs as [|c' comps Hc' _ IH]; intros c Hc; pose proof Hc as (_ & Hs & _ & _).
  - change (abs_path [] +:+ slashes n) with (slashes n). destruct n as [|n].
    + cbn [slashes]. rewrite app_nil_s, split_char_single by done. cbn [existsb].
      by rewrite Hd.
    + cbn [slashes]. rewrite split_char_app by done. cbn [existsb].
      by rewrite Hd, no_dotdot_slashes.
  - rewrite abs_path_cons, <-!app_assoc_s.
    change ("/" +:+ c' +:+ abs_path comps +:+ slashes n)
      with (String "/" (c' +:+ abs_path comps +:+ slashes n)).
    rewrite split_char_app by done. cbn [existsb]. by rewrite Hd, IH.
Qed.

Lemma trim_abs_path comps n :
  Forall component comps → trim_end_char "/" (abs_path comps +:+ slashes n) = abs_path comps.
Proof.
  intros Hcs. rewrite trim_end_char_all by apply slashes_all.
  induction Hcs as [|c comps (Hne & Hs & _) _ IH]; [done|].
  rewrite abs_path_cons. destruct comps as [|c' comps].
  - change (abs_path []) with "". rewrite app_nil_s.
    rewrite trim_end_char_app; rewrite trim_end_char_id by done; done.
  - rewrite app_assoc_s, trim_end_char_app; rewrite IH; [done|].
    by rewrite abs_path_cons.
Qed.

Lemma banned_abs_path comps :
  Forall component comps → comps ≠ [] →
  abs_path comps ∈ banned ↔ ∃ c, comps = [c] ∧ c ∈ system_dirs.
Proof.
  intros Hcs Hne. destruct comps as [|c [|c' comps]]; [done| |].
  - unfold abs_path. cbn [fmap list_fmap concat_str]. rewrite app_nil_s.
    apply Forall_singleton in Hcs as (Hc & _). split.
    + intros Hb. exists c. split; [done|]. unfold banned, system_dirs in *.
      rewrite !elem_of_cons in *. destruct Hb as [Hb|Hb].
      * destruct c; [done|discriminate Hb].
      * repeat (destruct Hb as [Hb|Hb]; [injection Hb as ->; tauto|]). by apply elem_of_nil in Hb.
    + intros (d & [= ->] & Hd). unfold banned, system_dirs in *. rewrite !elem_of_cons in *.
      right. repeat (destruct Hd as [->|Hd]; [tauto|]). by apply elem_of_nil in Hd.
  - split; [|by intros (d & [=] & _)]. intros Hb. exfalso.
    assert (Hall : Forall (λ b, contains_char "/" (str_drop 1 b) = false) banned)
      by (repeat constructor).
    rewrite Forall_forall in Hall. specialize (Hall _ Hb).
    rewrite !abs_path_cons in Hall. change (str_drop 1 ("/" +:+ ?x)) with x in Hall.
    rewrite !contains_char_app in Hall. apply orb_false_iff in Hall as [_ Hall].
    by apply orb_false_iff in Hall as [Hall _].
Qed.

(** C39: on a path written canonically (an absolute path of ordinary components,
    with any number of slashes at its end), the guard of [rm -rf] lets
    everything through but the root directory and the sixteen top-level system
    directories. *)
Theorem reject_destructive_path_canonical comps n (Hcomps : Forall component comps) :
  reject_destructive_path (abs_path comps +:+ slashes n) = Ok tt
  ↔ comps ≠ [] ∧ (∀ c, comps = [c] → c ∉ system_dirs).
Proof.
  unfold reject_destructive_path. destruct comps as [|c comps].
  - change (abs_path [] +:+ slashes n) with (slashes n).
    split; [|naive_solver]. destruct n as [|n]; [done|]. cbn [slashes is_empty starts_with_char].
    change (existsb _ _) with (existsb is_dotdot (split_char "/" (slashes (S n)))).
    rewrite no_dotdot_slashes. rewrite <-(app_nil_s (String "/" (slashes n))).
    change (String "/" (slashes n) +:+ "") with ("" +:+ (String "/" (slashes n) +:+ "")).
    rewrite app_nil_s, trim_end_char_all by apply (slashes_all (S n)). done.
  - inversion Hcomps as [|?? Hc Hcs]; subst.
    assert (Hsplit : existsb is_dotdot
              (split_char "/" (abs_path (c :: comps) +:+ slashes n)) = false).
    { rewrite abs_path_cons, <-!app_assoc_s.
      change ("/" +:+ ?x) with ("" +:+ String "/" x). rewrite split_char_app by done.
      cbn [existsb]. by rewrite no_dotdot_rest. }
    rewrite trim_abs_path by done. rewrite abs_path_cons in Hsplit |- * at 1.
    rewrite <-(abs_path_cons c comps).
    change (is_empty (abs_path (c :: comps) +:+ slashes n)) with false.
    change (starts_with_char "/" (abs_path (c :: comps) +:+ slashes n)) with true.
    cbn [negb]. rewrite <-abs_path_cons in Hsplit.
    change (existsb _ (split_char "/" (abs_path (c :: comps) +:+ slashes n))) with
      (existsb is_dotdot (split_char "/" (abs_path (c :: comps) +:+ slashes n))).
    rewrite Hsplit. change (is_empty (abs_path (c :: comps))) with false. cbv iota.
    case_bool_decide as Hb; rewrite banned_abs_path in Hb by done; naive_solver.
Qed.

Lemma reject_destructive_path_canonical_witness :
  reject_destructive_path "/var/lib/libvirt/images/deploy-cluster/" = Ok tt.
Proof.
  apply (reject_destructive_path_canonical ["var"; "lib"; "libvirt"; "images"; "deploy-cluster"] 1).
  - repeat (constructor; [done|]). constructor.
  - split; [done|]. intros c Hc. discriminate Hc.
Defined.

(** The guard compares the text, not the directory: other spellings of the
    system directories pass, although the guard is there to refuse them. *)
Theorem reject_destructive_path_bypass :
  reject_destructive_path "//etc" = Ok tt ∧ reject_destructive_path "/./etc" = Ok tt
  ∧ reject_destructive_path "/etc" ≠ Ok tt.
Proof. split_and!; [vm_compute; reflexivity..|]. intros H. vm_compute in H. discriminate H. Qed.

(** ** IPv4 addresses are read canonically *)

Lemma digit_of a : is_ascii_digit a = true → ∃ n, (n < 10)%N ∧ a = digit n.
Proof.
  intros [Hl Hh]%in_range_spec. exists (byte_val a - 48)%N. split; [lia|].
  unfold digit. replace (48 + (byte_val a - 48))%N with (byte_val a) by lia.
  symmetry. apply ascii_N_embedding.
Qed.

(** Every text of up to three digits, checked. *)
Definition octet_ok (s : string) : bool :=
  match parse_octet s with Some n => bool_decide (show_N n = s) | None => true end.
Definition digits : list ascii := digit <$> (N.of_nat <$> seq 0 10).

Lemma digit_in_digits a : is_ascii_digit a = true → a ∈ digits.
Proof.
  intros (n & Hn & ->)%digit_of. apply list_elem_of_fmap. exists n. split; [done|].
  apply list_elem_of_fmap. exists (N.to_nat n). split; [lia|]. apply elem_of_seq. lia.
Qed.

Lemma octet_ok_all :
  forallb (λ a, octet_ok (chr a)
    && forallb (λ b, octet_ok (String a (chr b))
      && forallb (λ c, octet_ok (String a (String b (chr c)))) digits) digits) digits = true.
Proof. vm_compute. reflexivity. Qed.

Lemma parse_octet_inv s n : parse_octet s = Some n → show_N n = s.
Proof.
  intros Hp. assert (Hok : octet_ok s = true).
  2: { unfold octet_ok in Hok. rewrite Hp in Hok. by apply bool_decide_eq_true in Hok. }
  pose proof octet_ok_all as Hall. rewrite forallb_elem in Hall.
  unfold parse_octet in Hp. destruct (_ && _) eqn:E in Hp; [|done].
  apply andb_true_iff in E as [[Hlen Hd]%andb_true_iff _].
  destruct s as [|a [|b [|c [|d s]]]]; [done|..]; cbn [all_bytes] in Hd;
    rewrite ?andb_true_iff in Hd.
  - specialize (Hall a ltac:(apply digit_in_digits; tauto)).
    by apply andb_true_iff in Hall as [? _].
  - specialize (Hall a ltac:(apply digit_in_digits; tauto)).
    apply andb_true_iff in Hall as [_ Hall]. rewrite forallb_elem in Hall.
    specialize (Hall b ltac:(apply digit_in_digits; tauto)).
    by apply andb_true_iff in Hall as [? _].
  - specialize (Hall a ltac:(apply digit_in_digits; tauto)).
    apply andb_true_iff in Hall as [_ Hall]. rewrite forallb_elem in Hall.
    specialize (Hall b ltac:(apply digit_in_digits; tauto)).
    apply andb_true_iff in Hall as [_ Hall]. rewrite forallb_elem in Hall.
    apply Hall. apply digit_in_digits; tauto.
  - cbn in Hlen. done.
Qed.

Lemma parse_ipv4_inv s i : parse_ipv4 s = Some i → show_ipv4 i = s.
Proof.
  unfold parse_ipv4. destruct (split_char "." s) as [|a [|b [|c [|d [|]]]]] eqn:E; try done.
  intros H. apply bind_Some in H as (na & Ha%parse_octet_inv & H).
  apply bind_Some in H as (nb & Hb%parse_octet_inv & H).
  apply bind_Some in H as (nc & Hc%parse_octet_inv & H).
  apply bind_Some in H as (nd & Hd%parse_octet_inv & H). simplify_eq.
  rewrite <-(join_split_char "." s), E. reflexivity.
Qed.

(** An address prints as digits and dots, so it needs no quoting. *)
Lemma show_ipv4_bare i : all_bytes (λ a, is_ascii_digit a || Ascii.eqb a ".") (show_ipv4 i) = true.
Proof.
  assert (Hn : ∀ n, all_bytes (λ a, is_ascii_digit a || Ascii.eqb a ".") (show_N n) = true).
  { intros n. eapply all_bytes_impl; [|apply QemuSshUri.show_N_digits].
    by intros a ->. }
  unfold show_ipv4. by rewrite !all_bytes_app, !Hn.
Qed.

(** [parse_domifaddr] is decided by the first line that mentions [ipv4], in
    any case: without one there is no address; otherwise that row's fourth
    field is the address, and the text before its ["/"] is exactly how the
    address prints.  Later rows are never looked at. *)
Theorem parse_domifaddr_first_row stdout command :
  match parse_domifaddr stdout command with
  | Ok None => Forall (λ l, is_ipv4_row l = false) (lines stdout)
  | Ok (Some i) =>
      ∃ pre line post cidr, lines stdout = pre ++ line :: post
        ∧ Forall (λ l, is_ipv4_row l = false) pre ∧ is_ipv4_row line = true
        ∧ split_whitespace line !! 3%nat = Some cidr ∧ before_char "/" cidr = show_ipv4 i
  | Err e =>
      ∃ pre line post reason, lines stdout = pre ++ line :: post
        ∧ Forall (λ l, is_ipv4_row l = false) pre ∧ is_ipv4_row line = true
        ∧ e = UnparseableOutput command reason
  end.
Proof.
  unfold parse_domifaddr. induction (lines stdout) as [|line ls IH]; [constructor|].
  cbn [parse_domifaddr_lines]. destruct (is_ipv4_row line) eqn:Hrow; cbn [negb].
  - unfold parse_row. destruct (split_whitespace line !! 3%nat) as [cidr|] eqn:Hc.
    + cbn [ok_or mbind result_bind]. destruct (parse_ipv4 (before_char "/" cidr)) as [i|] eqn:Hp.
      * exists [], line, ls, cidr. split_and!; try done. symmetry. by apply parse_ipv4_inv.
      * eexists [], line, ls, _. split_and!; try done.
    + eexists [], line, ls, _. split_and!; try done.
  - destruct (parse_domifaddr_lines ls command) as [[i|]|e].
    + destruct IH as (pre & l & post & cidr & -> & Hpre & Hl).
      exists (line :: pre), l, post, cidr. split; [done|]. split; [by constructor|done].
    + by constructor.
    + destruct IH as (pre & l & post & r & -> & Hpre & Hl).
      exists (line :: pre), l, post, r. split; [done|]. split; [by constructor|done].
Qed.
