(* ===== verification/VirtConn.v ===== *)
(** * hbird-virt: the libvirt verbs, their transports and the retry loop

    [Connection] of [crates/hbird-virt/src/lib.rs] over the [SshClient] seam,
    [LocalClient] ([local.rs]), the bridge of [hbird-cli/src/virt_bridge.rs]
    and [poll.rs]. *)

From S2P Require Import Prelude RustStr ConfigTypes SshOptions SshClient Effects VirtUri Shell.
From S2P Require Import VirtParse.

(** [hbird_virt::SshClient]: [run host command]. *)
Class VSshClient : Type := { vrun : string → string → IO VSshError string }.

Record Connection : Type := mkConnection {
  conn_uri : QemuSshUri.t;
  conn_ssh : VSshClient;
}.

Section verbs.
Context (c : Connection).

(** [Connection::run] *)
Definition conn_run (command : string) : IO VirtError string :=
  io_map_err (λ e, match e with
                   | RemoteExit _ _ _ stderr => VirshFailed command stderr
                   | other => Ssh other
                   end)
    (@vrun (conn_ssh c) (QemuSshUri.ssh_target (conn_uri c)) command).

Definition run_ (command : string) : IO VirtError unit := _ ← conn_run command; mret tt.

Definition virsh (args : string) : string :=
  "virsh -c " +:+ QemuSshUri.remote_uri (conn_uri c) +:+ " " +:+ args.

Definition domains : IO VirtError (list Domain) :=
  stdout ← conn_run (virsh "list --all --name"); mret (parse_domain_list stdout).
Definition running_domains : IO VirtError (list Domain) :=
  stdout ← conn_run (virsh "list --name"); mret (parse_domain_list stdout).
Definition domifaddr (domain : string) : IO VirtError (option Ipv4) :=
  let cmd := virsh ("domifaddr " +:+ shell_quote domain) in
  stdout ← conn_run cmd; of_result (parse_domifaddr stdout cmd).
Definition dominfo (domain : string) : IO VirtError DomainInfo :=
  let cmd := virsh ("dominfo " +:+ shell_quote domain) in
  stdout ← conn_run cmd; of_result (parse_dominfo stdout cmd).
Definition destroy_domain (domain : string) : IO VirtError unit :=
  run_ (virsh ("destroy " +:+ shell_quote domain)).
Definition undefine_domain (domain : string) : IO VirtError unit :=
  run_ (virsh ("undefine --nvram " +:+ shell_quote domain)).
Definition undefine_domain_remove_all_storage (domain : string) : IO VirtError unit :=
  run_ (virsh ("undefine " +:+ shell_quote domain +:+ " --remove-all-storage --nvram")).
Definition start_domain (domain : string) : IO VirtError unit :=
  run_ (virsh ("start " +:+ shell_quote domain)).
Definition virsh_pool_refresh (pool : string) : IO VirtError unit :=
  run_ (virsh ("pool-refresh " +:+ shell_quote pool)).
Definition net_dumpxml (network : string) : IO VirtError string :=
  conn_run (virsh ("net-dumpxml " +:+ shell_quote network)).
Definition net_info (network : string) : IO VirtError string :=
  conn_run (virsh ("net-info " +:+ shell_quote network)).

Definition host_xml (mac name ip : string) : string :=
  "<host mac='" +:+ mac +:+ "' name='" +:+ name +:+ "' ip='" +:+ ip +:+ "'/>".
Definition net_update_add_ip_dhcp_host (network mac name ip : string) : IO VirtError unit :=
  run_ (virsh ("net-update " +:+ shell_quote network +:+ " add ip-dhcp-host "
               +:+ shell_quote (host_xml mac name ip) +:+ " --live --config")).
Definition net_update_delete_ip_dhcp_host (network xml : string) : IO VirtError unit :=
  run_ (virsh ("net-update " +:+ shell_quote network +:+ " delete ip-dhcp-host "
               +:+ shell_quote xml +:+ " --live --config")).

Definition remote_ls (dir : string) : IO VirtError (list string) :=
  stdout ← conn_run ("ls -1 -- " +:+ shell_quote dir); mret (trimmed_lines stdout).
Definition remote_rm_f (path : string) : IO VirtError unit :=
  run_ ("rm -f -- " +:+ shell_quote path).
Definition remote_rm_rf (path : string) : IO VirtError unit :=
  _ ← of_result (reject_destructive_path path);
  run_ ("rm -rf -- " +:+ shell_quote path).
Definition remote_cp_reflink (src dst : string) : IO VirtError unit :=
  run_ ("cp --reflink=auto " +:+ shell_quote src +:+ " " +:+ shell_quote dst).

(** Exit status 1 of [test -e] is an answer, not an error. *)
Definition remote_path_exists (path : string) : IO VirtError bool := λ h,
  let '(r, e) := @vrun (conn_ssh c) (QemuSshUri.ssh_target (conn_uri c))
                   ("test -e " +:+ shell_quote path) h in
  (match r with
   | Ok _ => Ok true
   | Err (RemoteExit _ _ (Some 1%Z) _) => Ok false
   | Err other => Err (Ssh other)
   end, e).

Definition exec_shell (cmd : string) : IO VirtError string := conn_run cmd.
End verbs.

(** ** [virt-install] *)

Record ExtraNic : Set := mkExtraNic { nic_network : string; nic_mac : string }.
Record VmSpec : Set := mkVmSpec {
  vm_name : string;
  memory_mib : N;
  vcpus : N;
  disk_path : string;
  cdrom : option string;
  primary_mac : option string;
  extra_nic : option ExtraNic;
}.

Definition virt_install_cmd (c : Connection) (s : VmSpec) : string :=
  "virt-install --connect " +:+ QemuSshUri.remote_uri (conn_uri c)
  +:+ " --name " +:+ shell_quote (vm_name s)
  +:+ " --memory " +:+ show_N (memory_mib s) +:+ " --vcpus " +:+ show_N (vcpus s)
  +:+ " --disk " +:+ (shell_quote (disk_path s) +:+ ",format=qcow2,bus=virtio")
  +:+ match cdrom s with
      | Some p => " --disk " +:+ ("path=" +:+ shell_quote p +:+ ",device=cdrom,readonly=on")
      | None => ""
      end
  +:+ " --import --os-variant fedora-unknown --network "
  +:+ ("network=default,model=virtio"
       +:+ match primary_mac s with Some m => ",mac=" +:+ m | None => "" end)
  +:+ match extra_nic s with
      | Some x => " --network " +:+ ("network=" +:+ shell_quote (nic_network x)
                                     +:+ ",mac=" +:+ nic_mac x)
      | None => ""
      end
  +:+ " --graphics vnc,listen=127.0.0.1 --noautoconsole".

Definition virt_install_vm (c : Connection) (s : VmSpec) : IO VirtError unit :=
  run_ c (virt_install_cmd c s).

Definition virt_install (c : Connection) (name : string) (memory_mib vcpus : N)
    (disk_path : string) (cdrom : option string) : IO VirtError unit :=
  virt_install_vm c (mkVmSpec name memory_mib vcpus disk_path cdrom None None).

(** ** Transports *)

Section transports.
Context `{W : World}.

(** [LocalClient]: [sh -c command] on this machine, whatever the host. *)
#[local] Instance local_client : VSshClient := {|
  vrun _ command := λ h,
    let '(r, e) := local_run ["sh"; "-c"; command] h in
    (match r with
     | Err err => Err (Transport "local" ("failed to spawn sh: " +:+ io_message err))
     | Ok output =>
         if success (status output) then Ok (stdout_lossy output)
         else Err (RemoteExit "local" command (code (status output)) (stderr_lossy output))
     end, e)
|}.

(** [CliSshBridge]: the options captured at construction decide the host. *)
#[local] Instance cli_ssh_bridge (o : SshOptions) : VSshClient := {|
  vrun _ command := λ h,
    let '(r, e) := ssh_run o command None h in
    (match r with
     | Ok out => Ok (stdout_lossy out)
     | Err (NonZeroExit host status _ stderr) =>
         Err (RemoteExit host command (code status) stderr)
     | Err err => Err (Transport (SshOptions.host o) (show_ssh_error err))
     end, e)
|}.

Definition system_uri (host : string) : QemuSshUri.t :=
  QemuSshUri.mk None host None System None.

Definition new_local : Connection := mkConnection (system_uri "localhost") local_client.

(** [build_connection] *)
Definition build_connection (kvm_host : option string) : Connection :=
  match kvm_host with
  | Some host =>
      if negb (is_empty host)
      then mkConnection (system_uri host) (cli_ssh_bridge (new host))
      else new_local
  | None => new_local
  end.
End transports.

(** ** [poll::retry] *)

(** [left] attempts are left. *)
Fixpoint retry {E} (left : nat) (sleep_secs : N) (f : IO E bool) : IO E bool :=
  match left with
  | O => mret false
  | S left' =>
      b ← f;
      if (b : bool) then mret true
      else
        _ ← (if (0 <? left')%nat && (0 <? sleep_secs)%N
             then lift (sleep (from_secs sleep_secs)) else mret tt);
        retry left' sleep_secs f
  end.

(** ** One simple command per verb *)

(** [m] sends one command through the connection, a simple shell command with
    exactly the words [ws], and its result is [k] of the answer. *)
Definition sends {A} (c : Connection) (m : IO VirtError A) (ws : list string)
    (k : string → result VirtError A) : Prop :=
  ∃ cmd, shell_words cmd = Some ws
         ∧ ∀ h, m h = let '(r, e) := conn_run c cmd h in (r ≫= k, e).

Lemma sends_of_result {A} c cmd ws (k : string → result VirtError A) :
  shell_words cmd = Some ws → sends c (s ← conn_run c cmd; of_result (k s)) ws k.
Proof.
  intros Hw. exists cmd. split; [done|]. intros h. unfold mbind, IO_bind, of_result.
  destruct (conn_run c cmd h) as [[s|e] es]; [|done]. simpl. by rewrite app_nil_r.
Qed.

Lemma sends_ret {A} c cmd ws (k : string → A) :
  shell_words cmd = Some ws → sends c (s ← conn_run c cmd; mret (k s)) ws (λ s, Ok (k s)).
Proof. intros Hw. apply (sends_of_result c cmd ws (λ s, Ok (k s)) Hw). Qed.

Lemma sends_run c cmd ws :
  shell_words cmd = Some ws → sends c (conn_run c cmd) ws Ok.
Proof.
  intros Hw. exists cmd. split; [done|]. intros h. by destruct (conn_run c cmd h) as [[]].
Qed.

Lemma sends_run_ c cmd ws :
  shell_words cmd = Some ws → sends c (run_ c cmd) ws (λ _, Ok tt).
Proof. apply (sends_ret c cmd ws (λ _, tt)). Qed.

Lemma spells_remote_uri u : spells (QemuSshUri.remote_uri u) (QemuSshUri.remote_uri u).
Proof. apply spells_bare; by destruct u as [???[]]. Qed.

Lemma spells_show_N n : spells (show_N n) (show_N n).
Proof.
  apply spells_bare.
  - unfold show_N. cbn [show_N_go]. destruct (n <? 10)%N; [done|].
    generalize (N.to_nat (N.log2 n)) as fuel, (n / 10)%N as k, (digit (n mod 10)) as d.
    intros fuel k d. generalize EmptyString as acc. revert k d.
    induction fuel as [|fuel IH]; intros k d acc; cbn [show_N_go]; [done|].
    destruct (k <? 10)%N; [done|]. apply IH.
  - eapply all_bytes_impl; [|apply QemuSshUri.show_N_digits]. intros a Ha.
    unfold is_bare, is_ascii_alphanumeric. by rewrite Ha, orb_true_r.
Qed.

#[export] Hint Resolve spells_remote_uri spells_show_N : shell.
#[export] Hint Extern 1 (spells ?q ?s) => (apply spells_bare; reflexivity) : shell.

(** Solves [shell_words cmd = Some ws] from the spellings of the words. *)
Ltac shell_words_by qs :=
  apply (shell_words_join qs); repeat constructor; auto with shell.

Lemma virsh_words c args qs ws :
  args = join " " qs → Forall2 spells qs ws → qs ≠ [] →
  shell_words (virsh c args) = Some ("virsh" :: "-c" :: QemuSshUri.remote_uri (conn_uri c) :: ws).
Proof.
  intros -> Hq Hne. unfold virsh.
  assert (E : "virsh -c " +:+ QemuSshUri.remote_uri (conn_uri c) +:+ " " +:+ join " " qs
              = join " " ("virsh" :: "-c" :: QemuSshUri.remote_uri (conn_uri c) :: qs)) by (destruct qs; done).
  rewrite E. apply shell_words_join. do 3 (constructor; [auto with shell|]). done.
Qed.

(** Finds the words of a virsh verb. *)
Ltac virsh_by qs :=
  first [apply sends_run_ | apply sends_run | apply sends_ret | apply sends_of_result];
  eapply (virsh_words _ _ qs); [reflexivity | repeat constructor; auto with shell | done].

Section verb_words.
Context (c : Connection) (d x : string).
#[local] Abbreviation u := (QemuSshUri.remote_uri (conn_uri c)).

Lemma sends_dominfo :
  sends c (dominfo c d) ["virsh"; "-c"; u; "dominfo"; d]
    (λ s, parse_dominfo s (virsh c ("dominfo " +:+ shell_quote d))).
Proof. virsh_by ["dominfo"; shell_quote d]. Qed.
Lemma sends_destroy_domain :
  sends c (destroy_domain c d) ["virsh"; "-c"; u; "destroy"; d] (λ _, Ok tt).
Proof. virsh_by ["destroy"; shell_quote d]. Qed.
Lemma sends_undefine_domain :
  sends c (undefine_domain c d) ["virsh"; "-c"; u; "undefine"; "--nvram"; d] (λ _, Ok tt).
Proof. virsh_by ["undefine"; "--nvram"; shell_quote d]. Qed.
Lemma sends_net_dumpxml : sends c (net_dumpxml c d) ["virsh"; "-c"; u; "net-dumpxml"; d] Ok.
Proof. virsh_by ["net-dumpxml"; shell_quote d]. Qed.
Lemma sends_net_update_delete :
  sends c (net_update_delete_ip_dhcp_host c d x)
    ["virsh"; "-c"; u; "net-update"; d; "delete"; "ip-dhcp-host"; x; "--live"; "--config"]
    (λ _, Ok tt).
Proof.
  virsh_by ["net-update"; shell_quote d; "delete"; "ip-dhcp-host"; shell_quote x;
            "--live"; "--config"].
Qed.
Lemma sends_remote_rm_f : sends c (remote_rm_f c x) ["rm"; "-f"; "--"; x] (λ _, Ok tt).
Proof. apply sends_run_. shell_words_by ["rm"; "-f"; "--"; shell_quote x]. Qed.

(** [rm -rf]: refused without a command, or sent. *)
Lemma sends_remote_rm_rf :
  match reject_destructive_path x with
  | Ok _ => sends c (remote_rm_rf c x) ["rm"; "-rf"; "--"; x] (λ _, Ok tt)
  | Err e => ∀ h, remote_rm_rf c x h = (Err e, [])
  end.
Proof.
  assert (Hrm : sends c (run_ c ("rm -rf -- " +:+ shell_quote x)) ["rm"; "-rf"; "--"; x]
                  (λ _, Ok tt)).
  { apply sends_run_. shell_words_by ["rm"; "-rf"; "--"; shell_quote x]. }
  unfold remote_rm_rf. destruct (reject_destructive_path x) as [[]|e]; [|done].
  destruct Hrm as (cmd & Hw & Hr). exists cmd. split; [done|]. intros h. rewrite <-Hr.
  unfold mbind, IO_bind, of_result. rewrite app_nil_r.
  by destruct (run_ c ("rm -rf -- " +:+ shell_quote x) h).
Qed.

Lemma sends_domains :
  sends c (domains c) ["virsh"; "-c"; u; "list"; "--all"; "--name"] (λ s, Ok (parse_domain_list s)).
Proof. virsh_by ["list"; "--all"; "--name"]. Qed.
Lemma sends_running_domains :
  sends c (running_domains c) ["virsh"; "-c"; u; "list"; "--name"] (λ s, Ok (parse_domain_list s)).
Proof. virsh_by ["list"; "--name"]. Qed.
Lemma sends_undefine_all :
  sends c (undefine_domain_remove_all_storage c d)
    ["virsh"; "-c"; u; "undefine"; d; "--remove-all-storage"; "--nvram"] (λ _, Ok tt).
Proof. virsh_by ["undefine"; shell_quote d; "--remove-all-storage"; "--nvram"]. Qed.
Lemma sends_pool_refresh :
  sends c (virsh_pool_refresh c d) ["virsh"; "-c"; u; "pool-refresh"; d] (λ _, Ok tt).
Proof. virsh_by ["pool-refresh"; shell_quote d]. Qed.
Lemma sends_remote_ls : sends c (remote_ls c x) ["ls"; "-1"; "--"; x] (λ s, Ok (trimmed_lines s)).
Proof. apply sends_ret. shell_words_by ["ls"; "-1"; "--"; shell_quote x]. Qed.

Lemma test_e_words : shell_words ("test -e " +:+ shell_quote x) = Some ["test"; "-e"; x].
Proof. shell_words_by ["test"; "-e"; shell_quote x]. Qed.
End verb_words.

(** Every libvirt verb sends one command through its transport; the shell
    that runs it sees exactly one [virsh] invocation with the operator's
    strings (domain, pool and network names, the [<host/>] element) as single
    arguments, whatever bytes they hold. *)
Theorem virsh_verbs_inject_nothing c (d x : string) (mac ip : string) :
  let u := QemuSshUri.remote_uri (conn_uri c) in
  sends c (domains c) ["virsh"; "-c"; u; "list"; "--all"; "--name"] (λ s, Ok (parse_domain_list s))
  ∧ sends c (running_domains c) ["virsh"; "-c"; u; "list"; "--name"]
      (λ s, Ok (parse_domain_list s))
  ∧ sends c (domifaddr c d) ["virsh"; "-c"; u; "domifaddr"; d]
      (λ s, parse_domifaddr s (virsh c ("domifaddr " +:+ shell_quote d)))
  ∧ sends c (dominfo c d) ["virsh"; "-c"; u; "dominfo"; d]
      (λ s, parse_dominfo s (virsh c ("dominfo " +:+ shell_quote d)))
  ∧ sends c (destroy_domain c d) ["virsh"; "-c"; u; "destroy"; d] (λ _, Ok tt)
  ∧ sends c (undefine_domain c d) ["virsh"; "-c"; u; "undefine"; "--nvram"; d] (λ _, Ok tt)
  ∧ sends c (undefine_domain_remove_all_storage c d)
      ["virsh"; "-c"; u; "undefine"; d; "--remove-all-storage"; "--nvram"] (λ _, Ok tt)
  ∧ sends c (start_domain c d) ["virsh"; "-c"; u; "start"; d] (λ _, Ok tt)
  ∧ sends c (virsh_pool_refresh c d) ["virsh"; "-c"; u; "pool-refresh"; d] (λ _, Ok tt)
  ∧ sends c (net_dumpxml c d) ["virsh"; "-c"; u; "net-dumpxml"; d] Ok
  ∧ sends c (net_info c d) ["virsh"; "-c"; u; "net-info"; d] Ok
  ∧ sends c (net_update_add_ip_dhcp_host c d mac x ip)
      ["virsh"; "-c"; u; "net-update"; d; "add"; "ip-dhcp-host"; host_xml mac x ip;
       "--live"; "--config"] (λ _, Ok tt)
  ∧ sends c (net_update_delete_ip_dhcp_host c d x)
      ["virsh"; "-c"; u; "net-update"; d; "delete"; "ip-dhcp-host"; x; "--live"; "--config"]
      (λ _, Ok tt).
Proof.
  intros u. split_and!.
  - apply sends_domains.
  - apply sends_running_domains.
  - virsh_by ["domifaddr"; shell_quote d].
  - apply sends_dominfo.
  - apply sends_destroy_domain.
  - apply sends_undefine_domain.
  - apply sends_undefine_all.
  - virsh_by ["start"; shell_quote d].
  - apply sends_pool_refresh.
  - apply sends_net_dumpxml.
  - virsh_by ["net-info"; shell_quote d].
  - virsh_by ["net-update"; shell_quote d; "add"; "ip-dhcp-host";
              shell_quote (host_xml mac x ip); "--live"; "--config"].
  - apply sends_net_update_delete.
Qed.

(** The file verbs likewise: one [ls], [rm], [cp] with the paths as single
    arguments; and [rm -rf] sends nothing at all, from any history, for a path
    the guard refuses. *)
Theorem file_verbs_inject_nothing c (p q : string) :
  sends c (remote_ls c p) ["ls"; "-1"; "--"; p] (λ s, Ok (trimmed_lines s))
  ∧ sends c (remote_rm_f c p) ["rm"; "-f"; "--"; p] (λ _, Ok tt)
  ∧ sends c (remote_cp_reflink c p q) ["cp"; "--reflink=auto"; p; q] (λ _, Ok tt)
  ∧ match reject_destructive_path p with
    | Ok _ => sends c (remote_rm_rf c p) ["rm"; "-rf"; "--"; p] (λ _, Ok tt)
    | Err e => ∀ h, remote_rm_rf c p h = (Err e, [])
    end.
Proof.
  split_and!.
  - apply sends_remote_ls.
  - apply sends_remote_rm_f.
  - apply sends_run_. shell_words_by ["cp"; "--reflink=auto"; shell_quote p; shell_quote q].
  - apply sends_remote_rm_rf.
Qed.

(** ** [virt-install] *)

(** The argument vector [virt-install] is meant to get. *)
Definition virt_install_argv (c : Connection) (s : VmSpec) : list string :=
  ["virt-install"; "--connect"; QemuSshUri.remote_uri (conn_uri c); "--name"; vm_name s;
   "--memory"; show_N (memory_mib s); "--vcpus"; show_N (vcpus s);
   "--disk"; disk_path s +:+ ",format=qcow2,bus=virtio"]
  ++ match cdrom s with
     | Some p => ["--disk"; "path=" +:+ p +:+ ",device=cdrom,readonly=on"]
     | None => []
     end
  ++ ["--import"; "--os-variant"; "fedora-unknown"; "--network";
      "network=default,model=virtio"
      +:+ match primary_mac s with Some m => ",mac=" +:+ m | None => "" end]
  ++ match extra_nic s with
     | Some x => ["--network"; "network=" +:+ nic_network x +:+ ",mac=" +:+ nic_mac x]
     | None => []
     end
  ++ ["--graphics"; "vnc,listen=127.0.0.1"; "--noautoconsole"].

(** Its spelling: the same list with the operator's strings quoted. *)
Definition virt_install_spelling (c : Connection) (s : VmSpec) : list string :=
  ["virt-install"; "--connect"; QemuSshUri.remote_uri (conn_uri c); "--name";
   shell_quote (vm_name s);
   "--memory"; show_N (memory_mib s); "--vcpus"; show_N (vcpus s);
   "--disk"; shell_quote (disk_path s) +:+ ",format=qcow2,bus=virtio"]
  ++ match cdrom s with
     | Some p => ["--disk"; "path=" +:+ shell_quote p +:+ ",device=cdrom,readonly=on"]
     | None => []
     end
  ++ ["--import"; "--os-variant"; "fedora-unknown"; "--network";
      "network=default,model=virtio"
      +:+ match primary_mac s with Some m => ",mac=" +:+ m | None => "" end]
  ++ match extra_nic s with
     | Some x => ["--network"; "network=" +:+ shell_quote (nic_network x) +:+ ",mac=" +:+ nic_mac x]
     | None => []
     end
  ++ ["--graphics"; "vnc,listen=127.0.0.1"; "--noautoconsole"].

(** MAC addresses that need no quoting (hex digits and colons do not). *)
Definition bare_macs (s : VmSpec) : bool :=
  match primary_mac s with Some m => negb (is_empty m) && all_bytes is_bare m | None => true end
  && match extra_nic s with
     | Some x => negb (is_empty (nic_mac x)) && all_bytes is_bare (nic_mac x)
     | None => true
     end.

Lemma virt_install_cmd_join c s : virt_install_cmd c s = join " " (virt_install_spelling c s).
Proof.
  unfold virt_install_cmd, virt_install_spelling. destruct s as [n m v d cd pm nic].
  cbn [vm_name memory_mib vcpus disk_path cdrom primary_mac extra_nic].
  destruct cd, pm, nic; cbn [join app]; rewrite <-!app_assoc_s; reflexivity.
Qed.

Lemma spells_bare_string m :
  negb (is_empty m) && all_bytes is_bare m = true → spells m m.
Proof. intros [?%negb_true_iff ?]%andb_true_iff. by apply spells_bare. Qed.

(** When the MAC addresses are bare words (the colon-separated hex the
    callers validate), [virt-install] is run with exactly the intended argument
    vector, whatever bytes the VM's name, disk path, seed path and network name
    hold. *)
Theorem virt_install_argv_exact c s (Hmacs : bare_macs s = true) :
  sends c (virt_install_vm c s) (virt_install_argv c s) (λ _, Ok tt).
Proof.
  apply sends_run_. rewrite virt_install_cmd_join. apply shell_words_join.
  apply andb_true_iff in Hmacs as [Hp Hx]. unfold virt_install_spelling, virt_install_argv.
  repeat apply Forall2_app; [| |destruct (primary_mac s) as [m|]| |].
  - repeat constructor; auto with shell.
  - destruct (cdrom s); repeat constructor; auto with shell.
  - apply spells_bare_string in Hp. repeat constructor; auto with shell.
  - repeat constructor; auto with shell.
  - destruct (extra_nic s) as [x|]; repeat constructor; auto with shell.
    apply spells_bare_string in Hx. auto with shell.
  - repeat constructor; auto with shell.
Qed.

Lemma virt_install_argv_exact_witness :
  let s := mkVmSpec "my cp" 8192 4 "/pool/my cp.qcow2" None (Some "52:54:00:aa:bb:cc") None in
  sends (mkConnection (system_uri "kvm") {| vrun _ _ := mret "" |})
    (virt_install_vm (mkConnection (system_uri "kvm") {| vrun _ _ := mret "" |}) s)
    (virt_install_argv (mkConnection (system_uri "kvm") {| vrun _ _ := mret "" |}) s)
    (λ _, Ok tt).
Proof. intros s. apply virt_install_argv_exact. vm_compute. reflexivity. Defined.

(** ** Where commands run *)

Section routing.
Context `{W : World}.

(** [kvm_host.filter(|s| !s.is_empty())] *)
Definition non_empty (o : option string) : option string :=
  match o with Some s => if negb (is_empty s) then Some s else None | None => None end.

(** [build_connection] decides where every command runs: with a non-empty
    KVM host alias each command is one [ssh] call to exactly that alias, with
    the default options; without one it is one local [sh -c].  The result is
    the program's output when it exits with 0; a command that ran and failed
    becomes [VirshFailed] with its standard error, any other failure a
    transport error. *)
Theorem build_connection_routes kvm_host command h :
  conn_run (build_connection kvm_host) command h =
  match non_empty kvm_host with
  | Some host =>
      let r := ssh_answer h (new host) command None in
      (match r with
       | Ok out => Ok (stdout_lossy out)
       | Err (NonZeroExit _ _ _ stderr) => Err (VirshFailed command stderr)
       | Err e => Err (Ssh (Transport host (show_ssh_error e)))
       end, [EvSsh (new host) command None r])
  | None =>
      let r := local_answer h ["sh"; "-c"; command] in
      (match r with
       | Ok out => if success (status out) then Ok (stdout_lossy out)
                   else Err (VirshFailed command (stderr_lossy out))
       | Err e => Err (Ssh (Transport "local" ("failed to spawn sh: " +:+ io_message e)))
       end, [EvLocal ["sh"; "-c"; command] r])
  end.
Proof.
  cbv zeta. unfold conn_run, io_map_err, build_connection, non_empty.
  destruct kvm_host as [host|]; [destruct (negb (is_empty host))|].
  1: { unfold ssh_run. cbn. destruct (ssh_answer h _ _ _) as [out|[]]; done. }
  all: unfold local_run; cbn; destruct (local_answer h _) as [out|e]; [|done];
    by destruct (success (status out)).
Qed.
End routing.

(** The synthetic URI of [new_local] is what the parser gives for its text. *)
Lemma new_local_uri_parses :
  QemuSshUri.parse "qemu+ssh://localhost/system" = Ok (system_uri "localhost").
Proof. vm_compute. reflexivity. Qed.

(** ** The retry loop *)

(** Histories one after the other, with [sep] between them. *)
Fixpoint intersperse (sep : history) (l : list history) : history :=
  match l with
  | [] => []
  | [x] => x
  | x :: l' => x ++ sep ++ intersperse sep l'
  end.

Definition pause (sleep_secs : N) : history :=
  if (0 <? sleep_secs)%N then [EvSleep (from_secs sleep_secs)] else [].

(** [retry] calls [f] at most [attempts] times and sleeps only between two
    calls, never after the last.  Every call but the last answered [Ok(false)];
    the result is [Ok(false)] when all attempts did, and otherwise what the
    last call gave: [Ok(true)] or its error. *)
Theorem retry_calls {E} (f : IO E bool) (Q : result E bool → history → Prop) attempts sleep_secs
    (Hf : emits f Q) :
  emits (retry attempts sleep_secs f) (λ r es,
    ∃ calls : list (result E bool * history),
      Forall (λ c, Q c.1 c.2) calls ∧ (length calls ≤ attempts)%nat
      ∧ es = intersperse (pause sleep_secs) calls.*2
      ∧ ((r = Ok false ∧ length calls = attempts ∧ Forall (λ c, c.1 = Ok false) calls)
         ∨ ∃ before e, calls = before ++ [(r, e)] ∧ r ≠ Ok false
                       ∧ Forall (λ c, c.1 = Ok false) before)).
Proof.
  induction attempts as [|n IH]; cbn [retry].
  { apply emits_io_ret. exists []. cbn. split_and!; [constructor|lia|done|].
    left. split_and!; [done..|constructor]. }
  eapply emits_io_bind; [exact Hf| |].
  2: { intros e e1 Hq. exists [(Err e, e1)]. cbn. split_and!; [by constructor|lia|done|].
       right. exists [], e1. split_and!; [done..|constructor]. }
  intros [] e1 Hq.
  { apply emits_io_ret. exists [(Ok true, e1)]. cbn. rewrite app_nil_r.
    split_and!; [by constructor|lia|done|]. right. exists [], e1.
    split_and!; [done..|constructor]. }
  destruct n as [|n].
  { cbn [Nat.ltb Nat.leb andb retry]. intros h. exists [(Ok false, e1)]. cbn.
    split_and!; [by constructor|lia|by rewrite app_nil_r|]. left.
    split_and!; [done..|by repeat constructor]. }
  assert (Hp : emits (if (0 <? S n)%nat && (0 <? sleep_secs)%N
                      then lift (sleep (from_secs sleep_secs)) else mret tt : IO E unit)
                 (λ r es, r = Ok tt ∧ es = pause sleep_secs)).
  { unfold pause. cbn [Nat.ltb Nat.leb andb]. destruct (0 <? sleep_secs)%N; intros h; done. }
  eapply emits_io_bind; [exact Hp| |by intros e ? [[=] _]].
  intros [] e2 [_ ->]. eapply emits_conseq; [exact IH|]. cbn beta.
  intros r es (calls & HQ & Hlen & -> & Hcase). exists ((Ok false, e1) :: calls).
  split_and!; [by constructor|cbn; lia| |].
  - destruct calls as [|c calls]; [|done].
    destruct Hcase as [(_ & Hl & _)|(before & e & Hc & _)]; [done|by destruct before].
  - destruct Hcase as [(-> & Hl & Hall)|(before & e & -> & Hr & Hall)]; [left|right].
    + split_and!; [done|cbn; lia|by constructor].
    + exists ((Ok false, e1) :: before), e. split_and!; [done..|by constructor].
Qed.

Lemma retry_calls_witness :
  emits (retry 3 2 (lift (_ ← println "try"; mret false) : IO string bool)) (λ r es,
    ∃ calls : list (result string bool * history),
      Forall (λ c, c.2 = [EvOut "try"]) calls ∧ (length calls ≤ 3)%nat
      ∧ es = intersperse (pause 2) calls.*2
      ∧ ((r = Ok false ∧ length calls = 3%nat ∧ Forall (λ c, c.1 = Ok false) calls)
         ∨ ∃ before e, calls = before ++ [(r, e)] ∧ r ≠ Ok false
                       ∧ Forall (λ c, c.1 = Ok false) before)).
Proof.
  apply (retry_calls (lift (_ ← println "try"; mret false) : IO string bool)
           (λ _ es, es = [EvOut "try"])).
  intros h. reflexivity.
Defined.
