(* ===== verification/Cp.v ===== *)
(** * hbird-cli: reaching the control plane

    [crates/hbird-cli/src/cp_resolve.rs] (finding the control plane's address
    through libvirt), [cp_kubectl.rs] (running [kubectl] and shell commands on
    it over [ssh]), and the two commands that are thin wrappers around them,
    [commands/kubectl.rs] and [commands/nodes.rs]. *)

From S2P Require Import Prelude RustStr ConfigTypes ConfigLexer ConfigBuild SshOptions SshClient.
From S2P Require Import Effects VirtUri Shell VirtParse VirtConn.

(** ** [cp_resolve.rs] *)

Definition shell_single_quote (s : string) : string := "'" +:+ quote_chars s +:+ "'".

(** The address of one row; a row without a fourth field, or with an empty
    address, is passed over. *)
Definition lease_of_row (line : string) : option string :=
  if negb (contains "ipv4" line) then None
  else
    cidr ← split_whitespace line !! 3%nat;
    let ip := before_char "/" cidr in
    if negb (is_empty ip) then Some ip else None.

Fixpoint first_lease (ls : list string) : option string :=
  match ls with
  | [] => None
  | line :: ls' => match lease_of_row line with Some ip => Some ip | None => first_lease ls' end
  end.
Definition parse_first_domifaddr_ipv4 (raw : string) : option string := first_lease (lines raw).

Definition domifaddr_cmd (cp_name : string) : string :=
  "virsh -c qemu:///system domifaddr " +:+ shell_single_quote cp_name.

Definition could_not_find (kvm_host cp_name : string) : string :=
  "Could not find " +:+ cp_name +:+ " IP via ssh " +:+ kvm_host
  +:+ " 'virsh -c qemu:///system domifaddr " +:+ cp_name +:+ "'".

Definition no_lease_help (kvm_host : string) : string :=
  ". Common causes: operator not in libvirt group on " +:+ kvm_host
  +:+ "; virsh not installed there; domain not defined. See "
  +:+ "docs/deploy-cluster.md#running-without-sudo-libvirt-group-operator-305.".

Definition resolve_cp_ip_via_ssh (ssh : SshExec) (kvm_host cp_name : string)
    : IO anyhow string :=
  out ← (lift (catch (@exec ssh (domifaddr_cmd cp_name) None)) : IO anyhow _);
  raw ← match out with
        | Ok out => mret (stdout_lossy out)
        | Err (NonZeroExit _ _ stdout _) => mret stdout
        | Err e => bail (could_not_find kvm_host cp_name +:+ ": " +:+ show_ssh_error e)
        end;
  match parse_first_domifaddr_ipv4 raw with
  | Some ip => mret ip
  | None => bail (could_not_find kvm_host cp_name +:+ no_lease_help kvm_host)
  end.

(** ** [cp_kubectl.rs] *)

Record CpTarget : Set := mkCpTarget { cp_ip_ : string; target_kvm_host : option string }.
#[export] Instance CpTarget_eq_dec : EqDecision CpTarget.
Proof. solve_decision. Defined.

(** [CpTarget::cp_ssh_opts] *)
Definition cp_ssh_opts (t : CpTarget) : SshOptions :=
  let opts := with_user "root" (new (cp_ip_ t)) in
  match target_kvm_host t with
  | Some jump => with_proxy_jump jump opts
  | None => opts
  end.

Definition is_metachar (a : ascii) : bool :=
  bool_decide (a ∈ [";"%char; "&"%char; "|"%char; "`"%char; nl; cr]).

Fixpoint find_byte (f : ascii → bool) (s : string) : option ascii :=
  match s with
  | EmptyString => None
  | String a s' => if f a then Some a else find_byte f s'
  end.

Definition reject_shell_metachars (ctx command : string) : result anyhow unit :=
  match find_byte is_metachar command with
  | Some bad =>
      Err (anyhow_msg (ctx +:+ ": refusing command with shell metacharacter '" +:+ chr bad
        +:+ "' (commands are forwarded to remote /bin/sh -c; metachars would "
        +:+ "execute as root on the CP). command=" +:+ debug_str command))
  | None =>
      if contains "$(" command then
        Err (anyhow_msg (ctx +:+ ": refusing command with `$(` substitution (executes "
          +:+ "as root on the CP). command=" +:+ debug_str command))
      else Ok tt
  end.

Definition remote_kubectl (command : string) : string :=
  "kubectl --kubeconfig=/etc/kubernetes/admin.conf " +:+ command.

Definition cp_kubectl_raw_with_exec (ssh : SshExec) (cp_ip command : string)
    : IO anyhow RunOutput :=
  _ ← of_result (reject_shell_metachars "cp_kubectl_raw" command);
  ssh_context ("cp_kubectl_raw: ssh-run failed for `kubectl ... " +:+ command +:+ "` against "
               +:+ cp_ip) (@exec ssh (remote_kubectl command) None).

Record CpExecOutput : Set := mkCpExecOutput {
  ce_success : bool;
  ce_stdout : string;
  ce_stderr : string;
}.
#[export] Instance CpExecOutput_eq_dec : EqDecision CpExecOutput.
Proof. solve_decision. Defined.

(** The [match] the lenient variants share: a command that ran and failed is
    an output, not an error. *)
Definition fold_exit (ctx : string) (m : IO SshError RunOutput) : IO anyhow CpExecOutput :=
  out ← (lift (catch m) : IO anyhow _);
  match out with
  | Ok out => mret (mkCpExecOutput true (stdout_lossy out) (stderr_lossy out))
  | Err (NonZeroExit _ _ stdout stderr) => mret (mkCpExecOutput false stdout stderr)
  | Err e => throw (context ctx (of_ssh e))
  end.

Definition cp_kubectl_lenient_with_exec (ssh : SshExec) (cp_ip command : string)
    : IO anyhow CpExecOutput :=
  _ ← of_result (reject_shell_metachars "cp_kubectl_lenient" command);
  fold_exit ("cp_kubectl_lenient: ssh-run failed for `kubectl ... " +:+ command +:+ "` against "
             +:+ cp_ip) (@exec ssh (remote_kubectl command) None).

Section live.
Context `{W : World}.

Definition cp_kubectl_raw (t : CpTarget) (command : string) : IO anyhow RunOutput :=
  cp_kubectl_raw_with_exec (client_exec (cp_ssh_opts t)) (cp_ip_ t) command.

Definition cp_kubectl_with_stdin_lenient (t : CpTarget) (command stdin : string)
    : IO anyhow CpExecOutput :=
  _ ← of_result (reject_shell_metachars "cp_kubectl_with_stdin_lenient" command);
  fold_exit ("cp_kubectl_with_stdin_lenient: ssh-run failed for `kubectl ... " +:+ command
             +:+ "` against " +:+ cp_ip_ t)
    (ssh_run (cp_ssh_opts t) (remote_kubectl command) (Some stdin)).

Definition cp_ssh_lenient (t : CpTarget) (command : string) : IO anyhow CpExecOutput :=
  fold_exit ("cp_ssh_lenient: ssh-run failed for `" +:+ command +:+ "` against " +:+ cp_ip_ t)
    (ssh_run (cp_ssh_opts t) command None).

Definition cp_ssh_capture (t : CpTarget) (command : string) : IO anyhow RunOutput :=
  ssh_context ("cp_ssh_capture: ssh-run failed for `" +:+ command +:+ "` against " +:+ cp_ip_ t)
    (ssh_run (cp_ssh_opts t) command None).

(** ** [commands/kubectl.rs] and [commands/nodes.rs] *)

Record KubectlArgs : Set := mkKubectlArgs {
  ka_config : option string;
  ka_cp_name : option string;
  ka_cp_ip : option string;
  ka_kvm_host : option string;
  ka_args : list string;
}.

Record NodesArgs : Set := mkNodesArgs {
  na_config : option string;
  na_cp_name : option string;
  na_cp_ip : option string;
  na_kvm_host : option string;
}.

(** [hbird_config::parse(path).map_err(|e| anyhow!("{e}"))] *)
Definition parse_config (path : string) : IO anyhow ClusterConfig :=
  raw ← (lift (catch (read_to_string path)) : IO anyhow _);
  match parse (λ _, raw) path with
  | Ok c => mret c
  | Err e => throw (anyhow_msg (show_config_error e))
  end.

(** [match &args.config { Some(path) => Some(..?), None => None }] *)
Definition load_config (path : option string) : IO anyhow (option ClusterConfig) :=
  match path with
  | Some path => c ← parse_config path; mret (Some c)
  | None => mret None
  end.

(** [o.or_else(|| p)] *)
Definition or_else {A} (o p : option A) : option A :=
  match o with Some _ => o | None => p end.

Definition cp_name_required : string :=
  "CP_NAME required (set in --config <cluster.local.conf>, or pass --cp-name / CP_NAME env)".
Definition cp_ip_required : string :=
  "CP_IP required (set in --config <cluster.local.conf>, or pass --cp-ip / CP_IP env). "
  +:+ "For workstation operators without local libvirt, set KVM_HOST=<ssh-alias> so we can "
  +:+ "query libvirt on the KVM host via SSH (mirrors the deleted scripts/kubectl-k8s.sh).".
Definition cp_ip_required_nodes : string :=
  "CP_IP required (set in --config <cluster.local.conf>, or pass --cp-ip / CP_IP env). "
  +:+ "virsh-domifaddr resolution is not yet wired in the Rust path — operator must pin "
  +:+ "CP_IP= for now.".

(** [kubectl::resolve_target] *)
Definition resolve_target (a : KubectlArgs) : IO anyhow CpTarget :=
  config ← load_config (ka_config a);
  cp_name ← of_result (ok_or (anyhow_msg cp_name_required)
              (or_else (ka_cp_name a) (cp_name <$> config)));
  let kvm_host := non_empty (or_else (ka_kvm_host a) (config ≫= kvm_host)) in
  cp_ip ← match non_empty (ka_cp_ip a) with
          | Some ip => mret ip
          | None =>
              match non_empty (config ≫= cp_ip) with
              | Some ip => mret ip
              | None =>
                  match kvm_host with
                  | Some host =>
                      io_map_err (context ("resolve CP_IP via virsh-domifaddr on KVM_HOST="
                                           +:+ host +:+ " for CP_NAME=" +:+ cp_name))
                        (resolve_cp_ip_via_ssh (client_exec (new host)) host cp_name)
                  | None => bail cp_ip_required
                  end
              end
          end;
  mret (mkCpTarget cp_ip kvm_host).

(** [nodes::resolve_target] *)
Definition nodes_resolve_target (a : NodesArgs) : IO anyhow CpTarget :=
  config ← load_config (na_config a);
  _ ← of_result (ok_or (anyhow_msg cp_name_required)
        (or_else (na_cp_name a) (cp_name <$> config)));
  cp_ip ← of_result (ok_or (anyhow_msg cp_ip_required_nodes)
            (or_else (na_cp_ip a) (config ≫= cp_ip)));
  mret (mkCpTarget cp_ip (non_empty (or_else (na_kvm_host a) (config ≫= kvm_host)))).

(** How a command ends: [run] returns, or the process exits inside it. *)
Inductive ending : Set :=
| Returns (r : result anyhow unit)
| Exits (code : Z).
#[global] Instance ending_eq_dec : EqDecision ending.
Proof using Type. solve_decision. Defined.

(** [propagate_kubectl_exit_or_bail] *)
Definition propagate_kubectl_exit_or_bail (err : anyhow) : M ending :=
  match downcast_ssh err with
  | Some (NonZeroExit _ status stdout stderr) =>
      _ ← catch (write_stdout stdout);
      _ ← catch (write_stderr stderr);
      mret (Exits (default 1%Z (code status)))
  | _ => mret (Returns (Err err))
  end.

(** The [match cp_kubectl_raw(..)] both commands end with. *)
Definition forward_kubectl (t : CpTarget) (command : string) : M ending :=
  out ← catch (cp_kubectl_raw t command);
  match out with
  | Ok out =>
      r ← catch (_ ← io_context "write kubectl stdout" (write_stdout (stdout out));
                 io_context "write kubectl stderr" (write_stderr (stderr out)));
      mret (Returns r)
  | Err e => propagate_kubectl_exit_or_bail e
  end.

Definition no_args_msg : string :=
  "hbird kubectl: no positional args supplied. Usage: `hbird kubectl get pods -A` "
  +:+ "(everything after `kubectl` is forwarded to the remote kubectl).".

(** [kubectl::run] *)
Definition kubectl_run (a : KubectlArgs) : M ending :=
  match ka_args a with
  | [] => mret (Returns (Err (anyhow_msg no_args_msg)))
  | _ =>
      target ← catch (resolve_target a);
      match target with
      | Ok t => forward_kubectl t (join " " (ka_args a))
      | Err e => mret (Returns (Err e))
      end
  end.

(** [nodes::run] *)
Definition nodes_run (a : NodesArgs) : M ending :=
  target ← catch (nodes_resolve_target a);
  match target with
  | Ok t => forward_kubectl t "get nodes"
  | Err e => mret (Returns (Err e))
  end.

(** The exit status the shell sees. *)
Definition exit_code (e : ending) : Z :=
  match e with Returns (Ok _) => 0 | Returns (Err _) => 1 | Exits c => c end.
End live.

(** ** The guard on commands *)

Lemma find_byte_None f s : find_byte f s = None ↔ all_bytes (λ a, negb (f a)) s = true.
Proof.
  induction s as [|a s IH]; cbn [find_byte all_bytes]; [done|].
  destruct (f a); cbn [negb andb]; [done|]. exact IH.
Qed.

Lemma reject_shell_metachars_Ok ctx command :
  reject_shell_metachars ctx command = Ok tt
  ↔ all_bytes (λ a, negb (is_metachar a)) command = true ∧ contains "$(" command = false.
Proof.
  unfold reject_shell_metachars. rewrite <-find_byte_None.
  destruct (find_byte is_metachar command); [naive_solver|].
  destruct (contains "$(" command); naive_solver.
Qed.

Lemma contains_head p a s :
  all_bytes (λ b, negb (Ascii.eqb a b)) s = true → contains (String a p) s = false.
Proof.
  induction s as [|b s IH]; cbn [all_bytes contains]; [done|].
  intros [Hb%negb_true_iff Hs]%andb_true_iff. unfold starts_with. cbn [strip_prefix].
  by rewrite Hb, IH.
Qed.

Lemma bare_or_space_accepted ctx command :
  all_bytes (λ a, is_bare a || Ascii.eqb a " ") command = true →
  reject_shell_metachars ctx command = Ok tt.
Proof.
  intros H. apply reject_shell_metachars_Ok. split.
  - eapply all_bytes_impl; [|exact H]. intros a Ha. apply negb_true_iff.
    apply bool_decide_eq_false. intros Hin. rewrite !elem_of_cons in Hin.
    repeat destruct Hin as [->|Hin]; try (vm_compute in Ha; discriminate Ha).
    by apply elem_of_nil in Hin.
  - apply contains_head. eapply all_bytes_impl; [|exact H]. intros a Ha.
    apply negb_true_iff, Ascii.eqb_neq. intros <-. vm_compute in Ha. discriminate Ha.
Qed.

Lemma join_bytes f ws :
  f " "%char = true → Forall (λ w, all_bytes f w = true) ws → all_bytes f (join " " ws) = true.
Proof.
  intros Hsp. induction 1 as [|w ws Hw HF IH]; [done|].
  destruct ws as [|w' ws]; [done|].
  change (join " " (w :: w' :: ws)) with (w +:+ " " +:+ join " " (w' :: ws)).
  rewrite !all_bytes_app, Hw, IH. cbn [all_bytes andb]. by rewrite Hsp.
Qed.

Definition bare_word (w : string) : bool := negb (is_empty w) && all_bytes is_bare w.

(** The command holds nothing the guard refuses. *)
Definition no_metachars (command : string) : Prop :=
  all_bytes (λ a, negb (is_metachar a)) command = true ∧ contains "$(" command = false.

Section guard.
Context `{W : World}.

(** Nothing was done, or one guarded [kubectl] call to the control plane. *)
Definition at_most_one_call (t : CpTarget) (command : string) (es : history) : Prop :=
  es = [] ∨ ∃ i r, es = [EvSsh (cp_ssh_opts t) (remote_kubectl command) i r]
                   ∧ no_metachars command.

Lemma guarded_call {A} ctx t command (m : IO anyhow A) :
  (∀ h, ∃ i r, (m h).2 = [EvSsh (cp_ssh_opts t) (remote_kubectl command) i r]) →
  emits (_ ← of_result (reject_shell_metachars ctx command); m)
    (λ _ es, at_most_one_call t command es).
Proof.
  intros Hm h. destruct (reject_shell_metachars ctx command) as [[]|e] eqn:Hg; [|by left].
  apply reject_shell_metachars_Ok in Hg. destruct (Hm h) as (i & r & E).
  unfold mbind, IO_bind, of_result. rewrite app_nil_r.
  destruct (m h) as [x es]. cbn in E |- *. subst es. right. by exists i, r.
Qed.

Lemma fold_exit_events ctx o command stdin h :
  ∃ i r, (fold_exit ctx (ssh_run o command stdin) h).2 = [EvSsh o command i r].
Proof.
  exists stdin, (ssh_answer h o command stdin). unfold fold_exit. run_io.
  by destruct (ssh_answer h o command stdin) as [|[]].
Qed.

(** C35: no [kubectl] helper ever sends a command that holds one of
    [; & | `] a line break or [$(]: each makes at most one [ssh] call, to the
    control plane, of [kubectl] with the admin kubeconfig and exactly the given
    command, and only when the guard accepted the command; otherwise it does
    nothing at all. *)
Theorem kubectl_guarded t command stdin :
  emits (cp_kubectl_raw t command) (λ _ es, at_most_one_call t command es)
  ∧ emits (cp_kubectl_lenient_with_exec (client_exec (cp_ssh_opts t)) (cp_ip_ t) command)
      (λ _ es, at_most_one_call t command es)
  ∧ emits (cp_kubectl_with_stdin_lenient t command stdin)
      (λ _ es, at_most_one_call t command es).
Proof.
  split_and!; apply guarded_call; intros h.
  - eexists _, _. reflexivity.
  - apply fold_exit_events.
  - apply fold_exit_events.
Qed.
End guard.

Lemma bare_words_accepted ctx ws (Hws : Forall (λ w, bare_word w = true) ws) :
  reject_shell_metachars ctx (join " " ws) = Ok tt
  ∧ (ws ≠ [] → shell_words (remote_kubectl (join " " ws))
               = Some ("kubectl" :: "--kubeconfig=/etc/kubernetes/admin.conf" :: ws)).
Proof.
  split.
  - apply bare_or_space_accepted. apply join_bytes; [done|].
    eapply Forall_impl; [exact Hws|]. intros w [_ Hw]%andb_true_iff.
    eapply all_bytes_impl; [|exact Hw]. by intros a ->.
  - intros Hne. unfold remote_kubectl.
    assert (E : "kubectl --kubeconfig=/etc/kubernetes/admin.conf " +:+ join " " ws
                = join " " ("kubectl" :: "--kubeconfig=/etc/kubernetes/admin.conf" :: ws))
      by (by destruct ws).
    rewrite E. apply shell_words_join. do 2 (constructor; [auto with shell|]).
    clear -Hws. induction Hws as [|w ws Hw _ IH]; constructor; [|done].
    by apply spells_bare_string.
Qed.

(** A [kubectl] command made of ordinary words passes the guard, and the
    control plane's shell splits it back into exactly those words after
    [kubectl --kubeconfig=/etc/kubernetes/admin.conf]. *)
Theorem remote_kubectl_words ctx ws (Hws : Forall (λ w, bare_word w = true) ws) :
  reject_shell_metachars ctx (join " " ws) = Ok tt
  ∧ (ws ≠ [] → shell_words (remote_kubectl (join " " ws))
               = Some ("kubectl" :: "--kubeconfig=/etc/kubernetes/admin.conf" :: ws)).
Proof. by apply bare_words_accepted. Qed.

Lemma remote_kubectl_words_witness :
  reject_shell_metachars "cp_kubectl_raw" "get pods -A" = Ok tt
  ∧ (["get"; "pods"; "-A"] ≠ [] →
     shell_words (remote_kubectl "get pods -A")
     = Some ["kubectl"; "--kubeconfig=/etc/kubernetes/admin.conf"; "get"; "pods"; "-A"]).
Proof.
  apply (remote_kubectl_words "cp_kubectl_raw" ["get"; "pods"; "-A"]).
  repeat (constructor; [reflexivity|]). constructor.
Defined.

(** The guard does not cover every shell metacharacter: a redirection, which
    the remote shell would carry out as root, is accepted. *)
Theorem redirection_passes_guard ctx :
  reject_shell_metachars ctx "get pods > /etc/passwd" = Ok tt
  ∧ shell_words (remote_kubectl "get pods > /etc/passwd") = None.
Proof.
  split; [|vm_compute; reflexivity]. apply reject_shell_metachars_Ok. by vm_compute.
Qed.

(** ** Finding the control plane *)

Lemma before_char_no c s : contains_char c (before_char c s) = false.
Proof.
  unfold contains_char. induction s as [|a s IH]; cbn [before_char]; [done|].
  destruct (Ascii.eqb a c) eqn:E; [done|]. cbn [any_byte]. by rewrite Ascii.eqb_sym, E.
Qed.

Lemma first_lease_Some ls ip :
  first_lease ls = Some ip →
  ∃ pre line post, ls = pre ++ line :: post ∧ Forall (λ l, lease_of_row l = None) pre
                   ∧ lease_of_row line = Some ip.
Proof.
  induction ls as [|l ls IH]; cbn [first_lease]; [done|].
  destruct (lease_of_row l) eqn:E.
  - intros [= ->]. by exists [], l, ls.
  - intros (pre & line & post & -> & Hpre & Hl)%IH. exists (l :: pre), line, post.
    split_and!; [done|by constructor|done].
Qed.

Lemma lease_of_row_Some line ip :
  lease_of_row line = Some ip → is_empty ip = false ∧ contains_char "/" ip = false.
Proof.
  unfold lease_of_row. destruct (negb (contains "ipv4" line)); [done|].
  intros (cidr & _ & H)%bind_Some. destruct (is_empty (before_char "/" cidr)) eqn:E; [done|].
  cbn in H. injection H as <-. split; [done|apply before_char_no].
Qed.

Section resolve.
Context `{W : World}.

Lemma resolve_cp_ip_events o kvm_host cp_name :
  emits (resolve_cp_ip_via_ssh (client_exec o) kvm_host cp_name) (λ r es,
    (∃ a, es = [EvSsh o (domifaddr_cmd cp_name) None a])
    ∧ ∀ ip, r = Ok ip → is_empty ip = false ∧ contains_char "/" ip = false).
Proof.
  assert (Hp : ∀ raw ip, parse_first_domifaddr_ipv4 raw = Some ip →
                         is_empty ip = false ∧ contains_char "/" ip = false).
  { intros raw ip (pre & l & post & _ & _ & Hl)%first_lease_Some. by eapply lease_of_row_Some. }
  intros h. unfold resolve_cp_ip_via_ssh. run_io.
  destruct (ssh_answer h o (domifaddr_cmd cp_name) None) as [out|[]] eqn:E; cbn;
    try (split; [eauto|done]);
    (destruct (parse_first_domifaddr_ipv4 _) as [ip|] eqn:Hip; cbn;
     (split; [eauto|]); intros ip' [= <-]; by eapply Hp).
Qed.

Lemma spells_single_quote s : spells (shell_single_quote s) s.
Proof.
  intros cur rest. unfold shell_single_quote. rewrite <-!app_assoc_s.
  change ("'" +:+ quote_chars s +:+ "'" +:+ rest)
    with (String squote (quote_chars s +:+ String squote rest)).
  by rewrite lex_open_quote, lex_quote_chars.
Qed.

(** The address lookup sends one command to the given host, which its shell
    reads as [virsh -c qemu:///system domifaddr] with the domain name as one
    argument whatever bytes it holds; an address it gives is not empty and
    holds no slash. *)
Theorem resolve_cp_ip_safe o kvm_host cp_name :
  shell_words (domifaddr_cmd cp_name)
  = Some ["virsh"; "-c"; "qemu:///system"; "domifaddr"; cp_name]
  ∧ emits (resolve_cp_ip_via_ssh (client_exec o) kvm_host cp_name) (λ r es,
      (∃ a, es = [EvSsh o (domifaddr_cmd cp_name) None a])
      ∧ ∀ ip, r = Ok ip → is_empty ip = false ∧ contains_char "/" ip = false).
Proof.
  split; [|apply resolve_cp_ip_events].
  assert (Hq := spells_single_quote cp_name).
  shell_words_by ["virsh"; "-c"; "qemu:///system"; "domifaddr"; shell_single_quote cp_name].
Qed.

Lemma load_config_events p : emits (load_config p) (λ _ es, es = []).
Proof.
  intros h. unfold load_config, parse_config. destruct p as [p|]; [|done]. run_io.
  by destruct (parse _ p).
Qed.

(** Where [resolve_target] takes the address from. *)
Definition pinned_ip (a : KubectlArgs) (config : option ClusterConfig) : option string :=
  or_else (non_empty (ka_cp_ip a)) (non_empty (config ≫= cp_ip)).

Lemma non_empty_Some o s : non_empty o = Some s → is_empty s = false.
Proof. destruct o as [x|]; cbn; [|done]. destruct (is_empty x) eqn:E; cbn; [done|congruence]. Qed.

(** [hbird kubectl] contacts the KVM host only when neither the command line
    nor the configuration pins a non-empty address, and then with one address
    lookup on that host; the target it computes never has an empty address or
    an empty jump host. *)
Theorem resolve_target_spec a :
  emits (resolve_target a) (λ r es,
    (es = [] ∨ ∃ host name ans, es = [EvSsh (new host) (domifaddr_cmd name) None ans]
                                ∧ is_empty host = false ∧ non_empty (ka_cp_ip a) = None)
    ∧ ∀ t, r = Ok t → is_empty (cp_ip_ t) = false ∧ target_kvm_host t ≠ Some "").
Proof.
  unfold resolve_target. eapply emits_io_bind; [apply load_config_events| |].
  2: { intros e es ->. split; [by left|done]. }
  intros config e1 ->. cbn [app].
  destruct (or_else (ka_cp_name a) (cp_name <$> config)) as [name|].
  2: { intros h. split; [by left|done]. }
  change (of_result (ok_or _ (Some name))) with (mret name : IO anyhow string).
  set (kvm := non_empty (or_else (ka_kvm_host a) (config ≫= kvm_host))).
  assert (Hkvm : kvm ≠ Some "").
  { intros E. subst kvm. by apply non_empty_Some in E. }
  eapply (emits_io_bind _ _ (λ r es, r = Ok name ∧ es = [])); [by apply emits_io_ret| |].
  2: { by intros e e1 [[=] _]. }
  intros name' e2 [[= ->] ->]. cbn [app].
  destruct (non_empty (ka_cp_ip a)) as [ip|] eqn:Hip.
  { intros h. split; [by left|]. intros t [= <-]. split; [by eapply non_empty_Some|done]. }
  destruct (non_empty (config ≫= cp_ip)) as [ip|] eqn:Hip2.
  { intros h. split; [by left|]. intros t [= <-]. split; [by eapply non_empty_Some|done]. }
  destruct kvm as [host|] eqn:Hhost; [|intros h; split; [by left|done]].
  eapply (emits_io_bind _ _ (λ r es,
    (∃ a0, es = [EvSsh (new host) (domifaddr_cmd name) None a0])
    ∧ ∀ ip, r = Ok ip → is_empty ip = false)).
  - apply emits_map_err. eapply emits_conseq; [apply resolve_cp_ip_events|].
    intros r es [Hes Hr]. split; [done|]. intros ip. destruct r as [ip'|]; [|done].
    intros [= <-]. by apply Hr.
  - intros ip es [(ans & ->) Hi] h. rewrite app_nil_r. split.
    + right. exists host, name, ans. split_and!; [done| |done]. by eapply non_empty_Some.
    + intros t [= <-]. split; [by apply Hi|done].
  - intros e es [(ans & ->) _]. split; [|done]. right. exists host, name, ans.
    split_and!; [done| |done]. by eapply non_empty_Some.
Qed.
End resolve.

Lemma reject_shell_metachars_not_ssh ctx command err :
  reject_shell_metachars ctx command = Err err → downcast_ssh err = None.
Proof.
  unfold reject_shell_metachars. destruct (find_byte is_metachar command); [by intros [= <-]|].
  destruct (contains "$(" command); [by intros [= <-]|done].
Qed.

Section exit.
Context `{W : World}.

(** [hbird kubectl] and [hbird nodes] end the way [kubectl] did: when it ran
    and failed, its output and errors are passed on verbatim and the process
    exits with its status (1 when a signal ended it); when it succeeded, its
    output is passed on and the status is 0 unless writing it failed; a refused
    command does nothing and a failure of [ssh] itself writes nothing, both
    ending with status 1. *)
Theorem forward_kubectl_exit t command h :
  let call r := EvSsh (cp_ssh_opts t) (remote_kubectl command) None r in
  let '(e, es) := forward_kubectl t command h in
  match reject_shell_metachars "cp_kubectl_raw" command with
  | Err err => e = Returns (Err err) ∧ es = []
  | Ok _ =>
      match ssh_answer h (cp_ssh_opts t) (remote_kubectl command) None with
      | Ok out => ∃ w1, match w1 with
          | Ok _ => ∃ w2, es = [call (Ok out); EvWriteOut (stdout out) w1; EvWriteErr (stderr out) w2]
                          ∧ exit_code e = if is_ok w2 then 0%Z else 1%Z
          | Err _ => es = [call (Ok out); EvWriteOut (stdout out) w1] ∧ exit_code e = 1%Z
          end
      | Err (NonZeroExit host st so se) => ∃ w1 w2,
          es = [call (Err (NonZeroExit host st so se)); EvWriteOut so w1; EvWriteErr se w2]
          ∧ exit_code e = default 1%Z (code st)
      | Err err => es = [call (Err err)] ∧ exit_code e = 1%Z
      end
  end.
Proof.
  cbv zeta. unfold forward_kubectl, cp_kubectl_raw, cp_kubectl_raw_with_exec.
  destruct (reject_shell_metachars "cp_kubectl_raw" command) as [u|err] eqn:Hg; run_io.
  2: { apply reject_shell_metachars_not_ssh in Hg.
       unfold propagate_kubectl_exit_or_bail. by rewrite Hg. }
  rewrite app_nil_r.
  destruct (ssh_answer h (cp_ssh_opts t) (remote_kubectl command) None) as [out|err] eqn:E.
  - cbn [map_err]. destruct (stdout_answer _ (stdout out)) as [u1|w1] eqn:E1; cbn [map_err].
    + eexists (Ok u1). cbn. eexists. split; [reflexivity|].
      by destruct (stderr_answer _ (stderr out)).
    + exists (Err w1). by cbn.
  - destruct err as [| | |host st so se| |]; try done.
    cbn [map_err]. unfold propagate_kubectl_exit_or_bail. cbn [downcast_ssh context of_ssh root_cause].
    run_io. by eexists _, _.
Qed.

(** [nodes] does not share [kubectl]'s defaulting order, although the
    documentation of both says so: an empty [CP_IP] is passed on as the address
    of the control plane by [nodes], even when the configuration pins one,
    whereas [kubectl] falls back to the configuration. *)
Theorem nodes_keeps_empty_ip c path host :
  cp_ip c = Some "192.168.122.10" →
  (∀ h, (load_config (Some path) h).1 = Ok (Some c)) →
  ∀ h, (nodes_resolve_target (mkNodesArgs (Some path) (Some "cp") (Some "") (Some host)) h).1
       = Ok (mkCpTarget "" (non_empty (Some host)))
       ∧ (resolve_target (mkKubectlArgs (Some path) (Some "cp") (Some "") (Some host) []) h).1
         = Ok (mkCpTarget "192.168.122.10" (non_empty (Some host))).
Proof.
  intros Hip Hload h. specialize (Hload h).
  unfold nodes_resolve_target, resolve_target. cbn [na_config na_cp_name na_cp_ip na_kvm_host
    ka_config ka_cp_name ka_cp_ip ka_kvm_host].
  run_io. destruct (load_config (Some path) h) as [r es]. cbn in Hload. subst r.
  cbn [or_else ok_or non_empty is_empty negb option_bind option_fmap fmap].
  rewrite Hip. done.
Qed.
End exit.

(** The configuration a run works with when the option is set or not; [None]
    when the file cannot be read. *)
Definition config_at `{World} (path : option string) (h : history) : option (option ClusterConfig) :=
  match path with
  | None => Some None
  | Some path =>
      match parse (λ _, file_answer h path) path with Ok cfg => Some (Some cfg) | Err _ => None end
  end.

(** Reading it adds no event. *)
Lemma with_config_at `{World} {A} path msg (k : option ClusterConfig → IO anyhow A) h :
  let m := config ← match path with
                    | Some path => c ← io_map_err (context (msg path)) (parse_config path); mret (Some c)
                    | None => mret None
                    end; k config in
  match config_at path h with
  | Some cfg => m h = k cfg h
  | None => is_ok (m h).1 = false ∧ (m h).2 = []
  end.
Proof.
  cbv zeta. unfold config_at, parse_config. destruct path as [path|]; run_io.
  - destruct (parse _ path) as [cfg|e]; [|done].
    cbn [map_err app]. rewrite app_nil_r. by destruct (k _ h).
  - rewrite !app_nil_r. by destruct (k _ h).
Qed.

Definition pinned_text : string :=
  "CP_NAME=cp" +:+ NL +:+ "SSH_PUBKEY_FILE=k.pub" +:+ NL +:+ "CP_IP=192.168.122.10" +:+ NL.

Lemma nodes_keeps_empty_ip_witness :
  ∀ h, (@nodes_resolve_target (calm_world pinned_text)
          (mkNodesArgs (Some "c.conf") (Some "cp") (Some "") (Some "kvm")) h).1
       = Ok (mkCpTarget "" (Some "kvm"))
       ∧ (@resolve_target (calm_world pinned_text)
            (mkKubectlArgs (Some "c.conf") (Some "cp") (Some "") (Some "kvm") []) h).1
         = Ok (mkCpTarget "192.168.122.10" (Some "kvm")).
Proof.
  destruct (parse (λ _, Ok pinned_text) "c.conf") as [c|e] eqn:E.
  - apply (@nodes_keeps_empty_ip (calm_world pinned_text) c "c.conf" "kvm").
    + vm_compute in E. injection E as <-. reflexivity.
    + intros h. unfold load_config, parse_config. run_io.
      change (file_answer h "c.conf") with (Ok pinned_text : result io_error string).
      rewrite E. reflexivity.
  - vm_compute in E. discriminate E.
Defined.
