(* ===== verification/UpdatePlan.v ===== *)
(** * hbird update-cluster: arguments, timeouts and the plan

    The first half of [crates/hbird-cli/src/commands/update_cluster.rs]:
    [Timeouts::from_env], [Plan::from_args], [Plan::workers_to_run], the
    address lookup and the [ssh] options of the control plane and the nodes. *)

From S2P Require Import Prelude RustStr ConfigTypes ConfigLexer ConfigBuild SshOptions SshClient.
From S2P Require Import Effects VirtUri Shell VirtParse VirtConn Cp.

(** ** Timeouts *)

Record Timeouts : Set := mkTimeouts {
  drain : string;
  ready : N;
  daemonset : N;
  apiserver : N;
  ssh_timeout : N;
  ssh_drop : N;
  inter_node_sleep : N;
  ssh_command : N;
}.
#[export] Instance Timeouts_eq_dec : EqDecision Timeouts.
Proof. solve_decision. Defined.

Definition default_timeouts : Timeouts := mkTimeouts "5m" 300 300 300 300 30 5 3600.

Definition pos_int_msg (name raw : string) : string :=
  name +:+ " must be a positive integer of seconds, >0 (got: " +:+ raw +:+ ")".
Definition nonneg_int_msg (name raw : string) : string :=
  name +:+ " must be a positive integer of seconds (got: " +:+ raw +:+ ")".
Definition drain_msg (raw : string) : string :=
  "DRAIN_TIMEOUT must match ^[0-9]+(s|m|h)?$ (got: " +:+ raw +:+ ")".

Definition parse_u32 (msg raw : string) : result anyhow N :=
  map_err (λ _, anyhow_msg msg) (parse_uint U32_MAX raw).

Definition req_u32_strict_pos (name raw : string) : result anyhow N :=
  match raw with
  | EmptyString => Err (anyhow_msg (pos_int_msg name raw))
  | String a rest =>
      if negb (in_range 49 57 a) || negb (all_bytes is_ascii_digit rest)
      then Err (anyhow_msg (pos_int_msg name raw))
      else parse_u32 (pos_int_msg name raw) raw
  end.

Definition req_u32_nonneg (name raw : string) : result anyhow N :=
  if is_empty raw || negb (all_bytes is_ascii_digit raw)
  then Err (anyhow_msg (nonneg_int_msg name raw))
  else parse_u32 (nonneg_int_msg name raw) raw.

(** [raw] without one last [s], [m] or [h]. *)
Definition drain_digits (raw : string) : string :=
  match strip_suffix_char "s" raw with
  | Some d => d
  | None => match strip_suffix_char "m" raw with
            | Some d => d
            | None => default raw (strip_suffix_char "h" raw)
            end
  end.

Definition req_drain (raw : string) : result anyhow string :=
  let digits := drain_digits raw in
  if is_empty digits || negb (all_bytes is_ascii_digit digits)
  then Err (anyhow_msg (drain_msg raw)) else Ok raw.

(** [env] is [std::env::var(..).ok()]. *)
Definition from_env (env : string → option string) : result anyhow Timeouts :=
  let var name d := default d (env name) in
  drain ← req_drain (var "DRAIN_TIMEOUT" "5m");
  ready ← req_u32_strict_pos "READY_TIMEOUT" (var "READY_TIMEOUT" "300");
  daemonset ← req_u32_strict_pos "DAEMONSET_TIMEOUT" (var "DAEMONSET_TIMEOUT" (show_N ready));
  apiserver ← req_u32_nonneg "APISERVER_TIMEOUT" (var "APISERVER_TIMEOUT" "300");
  ssh ← req_u32_nonneg "SSH_TIMEOUT" (var "SSH_TIMEOUT" "300");
  ssh_drop ← req_u32_strict_pos "SSH_DROP_TIMEOUT" (var "SSH_DROP_TIMEOUT" "30");
  inter_node_sleep ← req_u32_nonneg "INTER_NODE_SLEEP" (var "INTER_NODE_SLEEP" "5");
  ssh_command ← req_u32_nonneg "SSH_COMMAND_TIMEOUT" (var "SSH_COMMAND_TIMEOUT" "3600");
  Ok (mkTimeouts drain ready daemonset apiserver ssh ssh_drop inter_node_sleep ssh_command).

(** ** Arguments and plan *)

Record UpdateClusterArgs : Set := mkUpdateClusterArgs {
  ua_config : string;
  ua_kvm_host : option string;
  ua_no_sudo : bool;
  ua_workers_only : bool;
  ua_skip_drain : bool;
  ua_skip_gates : bool;
  ua_dry_run : bool;
  ua_continue_on_error : bool;
  ua_no_delete_emptydir_data : bool;
  ua_node : option string;
  ua_start_from : option string;
  ua_parallel : option N;
  ua_node_name_override : list string;
}.

Record Plan : Type := mkPlan {
  config_path : string;
  plan_cp_name : string;
  plan_cp_ip : string;
  plan_worker_names : list string;
  worker_ip_map : gmap string string;
  worker_k8s_name_map : gmap string string;
  cp_k8s_name : string;
  workers_only : bool;
  skip_drain : bool;
  skip_gates : bool;
  dry_run : bool;
  continue_on_error : bool;
  no_delete_emptydir_data : bool;
  node_filter : option string;
  start_from : option string;
  parallel : N;
  plan_kvm_host : option string;
  no_sudo : bool;
  timeouts : Timeouts;
}.

(** ** The address of a domain *)

Definition no_lease_msg (domain where_ : string) : string :=
  "libvirt domain '" +:+ domain +:+ "' has no IPv4 lease yet (queried via " +:+ where_ +:+ "). "
  +:+ "The VM may still be booting, or it may not be defined. Pin CP_IP= / "
  +:+ "WORKER_IPS=(...) in cluster.local.conf to bypass resolution.".

Definition resolve_domain_ip_with (conn : Connection) (where_ domain : string)
    : IO anyhow string :=
  r ← (lift (catch (domifaddr conn domain)) : IO anyhow _);
  match r with
  | Ok (Some ip) => mret (show_ipv4 ip)
  | Ok None => bail (no_lease_msg domain where_)
  | Err e =>
      throw (context ("resolve IP via `virsh domifaddr " +:+ domain +:+ "` on " +:+ where_)
               (mkAnyhow [] (ROther (show_virt_error e))))
  end.

Section plan.
Context `{W : World}.

Definition resolve_domain_ip (kvm_host : option string) (domain : string) : IO anyhow string :=
  resolve_domain_ip_with (build_connection kvm_host)
    (default "this host (no KVM_HOST set)" kvm_host) domain.

(** The loop over the workers that have no pinned address. *)
Fixpoint resolve_workers (kvm_host : option string) (ws : list string) (m : gmap string string)
    : IO anyhow (gmap string string) :=
  match ws with
  | [] => mret m
  | w :: ws' =>
      ip ← resolve_domain_ip kvm_host w;
      resolve_workers kvm_host ws' (<[w := ip]> m)
  end.

Definition insert_all (kvs : list (string * string)) : gmap string string :=
  foldl (λ m kv, <[kv.1 := kv.2]> m) ∅ kvs.

Definition ips_length_msg (ips names : list string) : string :=
  "WORKER_IPS (" +:+ show_nat (length ips) +:+ ") and WORKER_NAMES (" +:+ show_nat (length names)
  +:+ ") must be the same length".

Definition resolved_at_runtime : string := "<resolved-at-runtime>".

(** The addresses of the control plane and of the workers. *)
Definition resolve_ips (a : UpdateClusterArgs) (c : ClusterConfig) (worker_names : list string)
    : IO anyhow (string * gmap string string) :=
  if ua_dry_run a then
    mret (resolved_at_runtime, insert_all ((λ w, (w, resolved_at_runtime)) <$> worker_names))
  else
    let kvm_host := non_empty (or_else (ua_kvm_host a) (kvm_host c)) in
    cp_ip ← match non_empty (cp_ip c) with
            | Some ip => mret ip
            | None => resolve_domain_ip kvm_host (cp_name c)
            end;
    m ← match worker_ips c with
        | Some ips =>
            if negb (length ips =? length worker_names)%nat
            then bail (ips_length_msg ips worker_names)
            else mret (insert_all (zip worker_names ips))
        | None => resolve_workers kvm_host worker_names ∅
        end;
    mret (cp_ip, m).

(** One [DOMAIN=NODE] pair of [--node-name-override]. *)
Definition parse_override_pair (cp : string) (worker_names : list string) (pair : string)
    (m : gmap string string) : result anyhow (gmap string string) :=
  if is_empty pair then Ok m
  else
    '(dom, node) ← ok_or (anyhow_msg ("--node-name-override expects DOMAIN=NODE (got: '"
                                      +:+ pair +:+ "')")) (split_once "=" pair);
    if is_empty dom then
      Err (anyhow_msg ("--node-name-override DOMAIN cannot be empty (got: '" +:+ pair +:+ "')"))
    else if is_empty node then
      Err (anyhow_msg ("--node-name-override NODE cannot be empty (got: '" +:+ pair +:+ "')"))
    else if negb (bool_decide (dom = cp) || bool_decide (dom ∈ worker_names)) then
      Err (anyhow_msg ("--node-name-override DOMAIN '" +:+ dom
                       +:+ "' does not match CP_NAME or any WORKER_NAMES entry"))
    else Ok (<[dom := node]> m).

Fixpoint parse_override_pairs (cp : string) (worker_names pairs : list string)
    (m : gmap string string) : result anyhow (gmap string string) :=
  match pairs with
  | [] => Ok m
  | p :: ps =>
      m' ← parse_override_pair cp worker_names p m;
      parse_override_pairs cp worker_names ps m'
  end.

Definition empty_override_msg : string :=
  "--node-name-override requires a non-empty DOMAIN=NODE "
  +:+ "(or comma-separated list); got an empty string".

Fixpoint parse_overrides (cp : string) (worker_names entries : list string)
    (m : gmap string string) : result anyhow (gmap string string) :=
  match entries with
  | [] => Ok m
  | entry :: es =>
      if is_empty entry then Err (anyhow_msg empty_override_msg)
      else
        m' ← parse_override_pairs cp worker_names (split_char "," entry) m;
        parse_overrides cp worker_names es m'
  end.

(** [Plan::from_args] *)
Definition from_args (a : UpdateClusterArgs) (c : ClusterConfig) (t : Timeouts)
    : IO anyhow Plan :=
  if ua_workers_only a && bool_decide (is_Some (ua_node a)) then
    bail "--workers-only and --node= are mutually exclusive"
  else if bool_decide (is_Some (ua_node a)) && bool_decide (is_Some (ua_start_from a)) then
    bail ("--node= and --start-from= are mutually exclusive (--node is single-node mode; "
          +:+ "--start-from is resume mode)")
  else
    let parallel := default 1%N (ua_parallel a) in
    if (parallel <? 1)%N then
      bail ("--parallel=N requires a positive integer (got: " +:+ show_N parallel +:+ ")")
    else
      let worker_names := resolved_worker_names c in
      '(cp_ip, worker_ip_map) ← resolve_ips a c worker_names;
      _ ← match ua_start_from a with
          | Some sf =>
              if negb (bool_decide (sf ∈ worker_names))
              then bail ("--start-from=" +:+ sf +:+ " did not match any WORKER_NAMES entry")
              else mret tt
          | None => mret tt
          end;
      override_map ← of_result (parse_overrides (cp_name c) worker_names
                                  (ua_node_name_override a) ∅);
      let resolve_k8s domain := default domain (override_map !! domain) in
      mret (mkPlan (ua_config a) (cp_name c) cp_ip worker_names worker_ip_map
              (insert_all ((λ w, (w, resolve_k8s w)) <$> worker_names))
              (resolve_k8s (cp_name c)) (ua_workers_only a) (ua_skip_drain a) (ua_skip_gates a)
              (ua_dry_run a) (ua_continue_on_error a) (ua_no_delete_emptydir_data a) (ua_node a)
              (ua_start_from a) parallel (ua_kvm_host a) (ua_no_sudo a) t).
End plan.

(** [Plan::workers_to_run]: [seen] is the loop's flag. *)
Fixpoint workers_from (sf : string) (seen : bool) (ws : list string) : list string :=
  match ws with
  | [] => []
  | w :: ws' =>
      let seen := if bool_decide (w = sf) then true else seen in
      if seen then w :: workers_from sf seen ws' else workers_from sf seen ws'
  end.

Definition workers_to_run (p : Plan) : list string :=
  match start_from p with
  | Some sf => workers_from sf false (plan_worker_names p)
  | None => plan_worker_names p
  end.

(** ** [ssh] options *)

Definition jump_options (p : Plan) (o : SshOptions) : SshOptions :=
  match plan_kvm_host p with Some jump => with_proxy_jump jump o | None => o end.

(** [update_cluster::cp_ssh_opts] *)
Definition plan_cp_ssh_opts (p : Plan) : SshOptions :=
  jump_options p (with_user "root" (new (plan_cp_ip p))).

Definition node_ssh_opts (p : Plan) (ip : string) : SshOptions :=
  let opts := jump_options p (with_user "root" (new ip)) in
  if (0 <? ssh_command (timeouts p))%N
  then with_command_timeout (from_secs (ssh_command (timeouts p))) opts else opts.

(** [prefix8] and [b] *)
Definition prefix8 (s : string) : string := take_chars 8 s.
Definition b (v : bool) : string := if v then "1" else "0".
