(* ===== verification/UpdateNode.v ===== *)
(** * hbird update-cluster: updating one node

    The helpers of [crates/hbird-cli/src/commands/update_cluster.rs] that act
    on a node ([cp_kubectl], the timers, the [bootc] upgrade, the gates) and the
    flows [update_cp] and [update_worker], with the [InFlight] record whose
    [Drop] prints the recovery hint. *)

From S2P Require Import Prelude RustStr ConfigTypes SshOptions SshClient Effects Cp UpdatePlan.

(** ** Logging: [log] and [log_err] *)

Section node.
Context `{W : World} (plan : Plan) (pfx : string).

Definition log (line : string) : IO anyhow unit :=
  lift (println (pfx +:+ "[update-cluster] " +:+ line)).
Definition log_err (line : string) : IO anyhow unit :=
  lift (eprintln (pfx +:+ "[update-cluster] " +:+ line)).

(** [if !text.trim().is_empty() { for line in text.lines() { f(line) } }] *)
Definition log_text (f : string → IO anyhow unit) (text : string) : IO anyhow unit :=
  if negb (is_empty (trim text)) then for_each f (lines text) else mret tt.

(** [NeverCalledExec] *)
Definition NeverCalledExec : SshExec := {|
  exec _ _ := λ h, (Err (Wait "" (IoError "unreachable")),
                    [EvPanic "NeverCalledExec::run called outside dry-run short-circuit"])
|}.

Definition node_client (ip : string) : SshExec := client_exec (node_ssh_opts plan ip).

(** ** [cp_kubectl] *)

Definition cp_kubectl_live (command : string) : IO anyhow string :=
  _ ← of_result (reject_shell_metachars "cp_kubectl" command);
  output ← ssh_context ("cp_kubectl: ssh-run failed for `kubectl ... " +:+ command
                        +:+ "` against " +:+ plan_cp_ip plan)
             (ssh_run (plan_cp_ssh_opts plan) (remote_kubectl command) None);
  let stdout := stdout_lossy output in
  _ ← log_text log stdout;
  _ ← log_text log_err (stderr_lossy output);
  mret stdout.

Definition cp_kubectl (command : string) : IO anyhow string :=
  if dry_run plan then
    _ ← log ("DRY-RUN cp_kubectl -- " +:+ command); mret ""
  else cp_kubectl_live command.

(** ** Timers *)

Definition timer_stop_cmd : string :=
  "systemctl stop bootc-semver-update.timer bootc-fetch-apply-updates.timer 2>/dev/null || true".

Definition timer_stop_with_exec (ssh : SshExec) (ip : string) : IO anyhow unit :=
  r ← try (@exec ssh timer_stop_cmd None);
  match r with
  | Ok _ => mret tt
  | Err e => log ("  WARN: " +:+ ip +:+ ": could not stop bootc auto-update timer(s): "
                  +:+ show_ssh_error e)
  end.

Definition timer_stop (ip : string) : IO anyhow unit :=
  if dry_run plan then
    log ("DRY-RUN ssh root@" +:+ ip
         +:+ " systemctl stop bootc-semver-update.timer bootc-fetch-apply-updates.timer")
  else if skip_drain plan then
    log ("  --skip-drain set: leaving bootc-*-update.timer alone on " +:+ ip)
  else timer_stop_with_exec (node_client ip) ip.

Definition TIMER_START_PROBE : string :=
  "bash -c " +:+ DQ +:+ NL
  +:+ "    if systemctl cat bootc-semver-update.timer >/dev/null 2>&1; then" +:+ NL
  +:+ "      systemctl start bootc-semver-update.timer" +:+ NL
  +:+ "    elif systemctl cat bootc-fetch-apply-updates.timer >/dev/null 2>&1; then" +:+ NL
  +:+ "      systemctl start bootc-fetch-apply-updates.timer" +:+ NL
  +:+ "    else" +:+ NL
  +:+ "      exit 44" +:+ NL
  +:+ "    fi" +:+ NL
  +:+ "  " +:+ DQ.

Definition timer_start_with_exec (ssh : SshExec) (ip : string) : IO anyhow unit :=
  r ← try (@exec ssh TIMER_START_PROBE None);
  match r with
  | Ok _ => mret tt
  | Err (NonZeroExit _ (Exited 44) _ _) =>
      log ("  WARN: " +:+ ip +:+ ": bootc auto-update timer not restored "
           +:+ "(no semver/fetch-apply timer present)")
  | Err e =>
      log ("  WARN: " +:+ ip +:+ ": bootc auto-update timer not restored (systemctl start failed: "
           +:+ show_ssh_error e +:+ ")")
  end.

Definition timer_start (ip : string) : IO anyhow unit :=
  if dry_run plan then
    log ("DRY-RUN ssh root@" +:+ ip +:+ " systemctl start bootc-semver-update.timer")
  else if skip_drain plan then mret tt
  else timer_start_with_exec (node_client ip) ip.

(** ** [bootc] *)

Inductive BootcUpgradeOutcome : Set := Applied | UpgradeFailed | AlreadyCurrent.
#[global] Instance BootcUpgradeOutcome_eq_dec : EqDecision BootcUpgradeOutcome.
Proof using Type. solve_decision. Defined.

Definition has_apply_cmd : string :=
  "bootc upgrade --help 2>/dev/null | grep -q -- '--apply'".

Definition bootc_has_apply_with_exec (ssh : SshExec) (ip : string) : IO anyhow bool :=
  r ← try (@exec ssh has_apply_cmd None);
  match r with
  | Ok _ => mret true
  | Err (NonZeroExit _ (Exited 1) _ _) => mret false
  | Err e =>
      throw (context ("bootc_has_apply: ssh-run failed for `bootc upgrade --help` against root@"
                      +:+ ip) (of_ssh e))
  end.

Definition digest_cmd : string :=
  "bootc status --json 2>/dev/null | jq -r '.status.booted.image.imageDigest // "
  +:+ ".status.booted.image.digest // empty' 2>/dev/null || true".

Definition bootc_booted_digest_with_exec (ssh : SshExec) (ip : string) : IO anyhow string :=
  out ← ssh_context ("bootc_booted_digest: ssh-run failed against root@" +:+ ip)
          (@exec ssh digest_cmd None);
  mret (trim (stdout_lossy out)).

Definition or_unknown (digest : string) : string :=
  if is_empty digest then "<unknown>" else digest.

(** Step 3: [bootc upgrade --apply], or the upgrade and the reboot in two
    steps. *)
Definition run_upgrade (ssh : SshExec) (name : string) (has_apply : bool)
    : IO anyhow (result SshError RunOutput) :=
  if has_apply then try (@exec ssh "bootc upgrade --apply" None)
  else
    _ ← log ("  bootc on " +:+ name
             +:+ " lacks --apply; falling back to 'bootc upgrade && systemctl reboot'");
    upgrade_result ← try (@exec ssh "bootc upgrade" None);
    match upgrade_result with
    | Ok out =>
        _ ← log_text log_err (stderr_lossy out);
        try (@exec ssh "systemctl reboot >/dev/null 2>&1" None)
    | Err e => mret (Err e)
    end.

(** Step 5: what the upgrade's exit says. *)
Definition classify_upgrade (ssh : SshExec) (ip name pre_digest : string)
    (r : result SshError RunOutput) : IO anyhow BootcUpgradeOutcome :=
  match r with
  | Ok out =>
      _ ← log_text log_err (stderr_lossy out);
      post_digest ← bootc_booted_digest_with_exec ssh ip;
      _ ← log ("  post-upgrade booted digest: " +:+ or_unknown post_digest);
      if negb (is_empty pre_digest) && negb (is_empty post_digest)
         && bool_decide (pre_digest = post_digest)
      then
        _ ← log ("  no update available on " +:+ name +:+ "; skipping wait loops");
        mret AlreadyCurrent
      else mret Applied
  | Err (NonZeroExit _ status _ stderr) =>
      _ ← log_text log_err stderr;
      match code status with
      | Some 255%Z => mret Applied
      | Some other =>
          _ ← log ("bootc upgrade on " +:+ name +:+ " exited unexpectedly (rc=" +:+ show_Z other
                   +:+ ")");
          mret UpgradeFailed
      | None =>
          _ ← log ("bootc upgrade on " +:+ name +:+ " exited unexpectedly (killed by signal)");
          mret UpgradeFailed
      end
  | Err e =>
      throw (context ("bootc_upgrade_apply: ssh-run failed for `bootc upgrade --apply` "
                      +:+ "against root@" +:+ ip +:+ " (node=" +:+ name +:+ ")") (of_ssh e))
  end.

Definition bootc_upgrade_apply_with_exec (ssh : SshExec) (ip name : string) (dry_run : bool)
    : IO anyhow BootcUpgradeOutcome :=
  if dry_run then
    _ ← log ("DRY-RUN ssh root@" +:+ ip
             +:+ " bootc upgrade --apply (with pre/post digest compare)");
    mret Applied
  else
    pre_digest ← bootc_booted_digest_with_exec ssh ip;
    _ ← log ("  pre-upgrade booted digest: " +:+ or_unknown pre_digest);
    has_apply ← bootc_has_apply_with_exec ssh ip;
    result ← run_upgrade ssh name has_apply;
    classify_upgrade ssh ip name pre_digest result.

Definition bootc_upgrade_apply (ip name : string) : IO anyhow BootcUpgradeOutcome :=
  if dry_run plan then bootc_upgrade_apply_with_exec NeverCalledExec ip name true
  else bootc_upgrade_apply_with_exec (node_client ip) ip name false.
End node.
