(* ===== verification/UpdateGates.v ===== *)
(** * hbird update-cluster: the gates

    The waits of [crates/hbird-cli/src/commands/update_cluster.rs]: [ssh] going
    away and coming back, the API server, the node's [Ready] status, its boot
    id and its DaemonSet pods. *)

From S2P Require Import Prelude RustStr ConfigTypes SshOptions SshClient Effects Cp UpdatePlan.
From S2P Require Import UpdateNode.

(** [stdout_has_ready_status] *)
Definition ready_line (line : string) : bool :=
  match split_whitespace line !! 1%nat with
  | Some status => bool_decide (status = "Ready") || starts_with "Ready," status
  | None => false
  end.
Definition stdout_has_ready_status (stdout : string) : bool := existsb ready_line (lines stdout).

(** [_collect_unready_names] *)
Definition unready_name (line : string) : option string :=
  if is_empty line then None
  else
    let '(lhs, rhs) := default (line, line) (split_once "=" line) in
    if is_empty rhs || contains "false" rhs then Some lhs else None.
Definition _collect_unready_names (raw : string) : list string := omap unready_name (lines raw).

(** [BTreeSet<String>]: its elements in order. *)
Definition str_le (a b : string) : Prop := String.leb a b = true.
#[export] Instance str_le_dec : RelDecision str_le.
Proof. intros a b. unfold str_le. apply _. Defined.
Definition btree_set (l : list string) : list string := merge_sort str_le (remove_dups l).

Section gates.
Context `{W : World} (plan : Plan) (pfx : string).
Let log := log pfx.
Let log_err := log_err pfx.
Let cp_kubectl := cp_kubectl plan pfx.

Definition s_of (n : N) : string := show_N n +:+ "s".

(** ** [ssh] going away and coming back *)

(** One round of the loop of [wait_ssh_back_with]. *)
Definition ssh_back_round (ssh : SshExec) (ip : string) (elapsed : N) (_ : unit)
    : IO anyhow (unit + unit) :=
  r ← try (@exec ssh "true" None);
  match r with
  | Ok _ =>
      _ ← log ("SSH back on " +:+ ip +:+ " after ~" +:+ s_of elapsed);
      mret (inl tt)
  | Err _ => _ ← lift (sleep (from_secs 5)); mret (inr tt)
  end.

Definition wait_ssh_back_with (ssh : SshExec) (ip : string) (timeout : N) (dry_run : bool)
    : IO anyhow unit :=
  _ ← log ("waiting for SSH to come back on " +:+ ip +:+ " (timeout " +:+ s_of timeout +:+ ")");
  if dry_run then log ("DRY-RUN would poll ssh root@" +:+ ip)
  else
    r ← poll (poll_fuel timeout 5) timeout 5 0 tt (ssh_back_round ssh ip);
    match r with
    | inl _ => mret tt
    | inr _ => bail ("wait_ssh_back: SSH on " +:+ ip +:+ " did not come back within "
                     +:+ s_of timeout)
    end.

(** The short connect timeout of both waits. *)
Definition probe_client (ip : string) : SshExec :=
  client_exec (with_connect_timeout (from_secs 3) (node_ssh_opts plan ip)).

Definition wait_ssh_back (ip : string) : IO anyhow unit :=
  let timeout := ssh_timeout (timeouts plan) in
  if dry_run plan then wait_ssh_back_with NeverCalledExec ip timeout true
  else wait_ssh_back_with (probe_client ip) ip timeout false.

Definition ssh_drop_round (ssh : SshExec) (ip : string) (elapsed : N) (_ : unit)
    : IO anyhow (unit + unit) :=
  r ← try (@exec ssh "true" None);
  match r with
  | Err _ =>
      _ ← log ("  SSH on " +:+ ip +:+ " dropped after ~" +:+ s_of elapsed
               +:+ " (reboot in progress)");
      mret (inl tt)
  | Ok _ => _ ← lift (sleep (from_secs 1)); mret (inr tt)
  end.

Definition wait_ssh_drop_with (ssh : SshExec) (ip : string) (max : N) (dry_run : bool)
    : IO anyhow unit :=
  if dry_run then
    log ("DRY-RUN wait_ssh_drop " +:+ ip +:+ " (would poll up to " +:+ s_of max +:+ ")")
  else
    _ ← log ("waiting for SSH on " +:+ ip +:+ " to drop (timeout " +:+ s_of max +:+ ")");
    r ← poll (poll_fuel max 1) max 1 0 tt (ssh_drop_round ssh ip);
    match r with
    | inl _ => mret tt
    | inr _ => log ("  WARN: SSH on " +:+ ip +:+ " still up after " +:+ s_of max
                    +:+ " — bootc may have queued without rebooting")
    end.

Definition wait_ssh_drop (ip : string) : IO anyhow unit :=
  let max := ssh_drop (timeouts plan) in
  if dry_run plan then wait_ssh_drop_with NeverCalledExec ip max true
  else wait_ssh_drop_with (probe_client ip) ip max false.

(** ** The API server and the [Ready] status *)

Definition apiserver_round (elapsed : N) (_ : unit) : IO anyhow (unit + unit) :=
  r ← try (cp_kubectl "get --raw=/readyz");
  match r with
  | Ok _ => _ ← log ("apiserver back after ~" +:+ s_of elapsed); mret (inl tt)
  | Err _ => _ ← lift (sleep (from_secs 10)); mret (inr tt)
  end.

Definition wait_apiserver_back : IO anyhow unit :=
  let timeout := apiserver (timeouts plan) in
  let cp_ip := plan_cp_ip plan in
  _ ← log ("waiting for apiserver on CP (" +:+ cp_ip +:+ ") to answer (timeout " +:+ s_of timeout
           +:+ ")");
  if dry_run plan then
    log ("DRY-RUN would poll apiserver via ssh root@" +:+ cp_ip +:+ " kubectl get nodes")
  else
    r ← poll (poll_fuel timeout 10) timeout 10 0 tt apiserver_round;
    match r with
    | inl _ => mret tt
    | inr _ => bail ("wait_apiserver_back: apiserver did not return within " +:+ s_of timeout)
    end.

Definition node_ready_round (node : string) (elapsed : N) (_ : unit) : IO anyhow (unit + unit) :=
  r ← try (cp_kubectl ("get node " +:+ node +:+ " --no-headers"));
  if match r with Ok stdout => stdout_has_ready_status stdout | Err _ => false end
  then _ ← log ("node " +:+ node +:+ " Ready after ~" +:+ s_of elapsed); mret (inl tt)
  else _ ← lift (sleep (from_secs 10)); mret (inr tt).

Definition wait_node_ready (node : string) : IO anyhow unit :=
  let timeout := ready (timeouts plan) in
  _ ← log ("waiting for node " +:+ node +:+ " to report Ready (timeout " +:+ s_of timeout +:+ ")");
  if dry_run plan then log ("DRY-RUN would poll kubectl get node " +:+ node)
  else
    r ← poll (poll_fuel timeout 10) timeout 10 0 tt (node_ready_round node);
    match r with
    | inl _ => mret tt
    | inr _ => bail ("wait_node_ready: node " +:+ node +:+ " did not reach Ready within "
                     +:+ s_of timeout)
    end.

(** ** The boot id *)

Definition bootid_cmd (node : string) : string :=
  "get node " +:+ node +:+ " -o jsonpath='{.status.nodeInfo.bootID}'".

(** [for attempt in 1..=3]: [left] attempts are left. *)
Fixpoint capture_attempts (left : nat) (node : string) : IO anyhow (option string) :=
  match left with
  | O => mret None
  | S left' =>
      r ← try (cp_kubectl (bootid_cmd node));
      let val := match r with Ok v => trim v | Err _ => "" end in
      if negb (is_empty val) then mret (Some val)
      else
        _ ← (if (0 <? left')%nat then lift (sleep (from_secs 2)) else mret tt);
        capture_attempts left' node
  end.

Definition capture_node_bootid (node : string) : IO anyhow string :=
  if dry_run plan then
    _ ← log ("DRY-RUN would capture pre-reboot bootID for " +:+ node);
    mret "<dry-run-bootid>"
  else
    r ← capture_attempts 3 node;
    match r with
    | Some val => mret val
    | None =>
        _ ← log ("WARN: failed to capture pre-reboot bootID for " +:+ node +:+ " after 3 attempts; "
                 +:+ "bootID-changed gate will be skipped (apiserver flake?)");
        mret ""
    end.

(** The loop's variables: [last_heartbeat] and [cur_bootid]. *)
Definition bootid_round (timeout : N) (node pre : string) (elapsed : N) (st : N * string)
    : IO anyhow (unit + N * string) :=
  let last_heartbeat := st.1 in
  r ← try (cp_kubectl (bootid_cmd node));
  let cur := match r with Ok v => trim v | Err _ => "" end in
  if negb (is_empty cur) && negb (bool_decide (cur = pre)) then
    _ ← log ("node " +:+ node +:+ " bootID changed (pre=" +:+ prefix8 pre +:+ "... post="
             +:+ prefix8 cur +:+ "...) after ~" +:+ s_of elapsed);
    mret (inl tt)
  else
    _ ← lift (sleep (from_secs 5));
    let elapsed := saturating_add U32_MAX elapsed 5 in
    if (30 <=? elapsed - last_heartbeat)%N && (elapsed <? timeout)%N then
      _ ← log ("  still polling node " +:+ node +:+ " for bootID-changed gate after ~"
               +:+ s_of elapsed +:+ " (pre=" +:+ prefix8 pre +:+ "... cur=" +:+ prefix8 cur
               +:+ "...)");
      mret (inr (elapsed, cur))
    else mret (inr (last_heartbeat, cur)).

Definition wait_node_bootid_changed (node pre : string) : IO anyhow unit :=
  if skip_gates plan then
    log ("node " +:+ node +:+ ": --skip-gates set, skipping bootID-changed gate")
  else if is_empty pre then
    log_err ("WARN: node " +:+ node
             +:+ ": pre-reboot bootID was empty; skipping bootID-changed gate")
  else
    let timeout := ready (timeouts plan) in
    _ ← log ("waiting for node " +:+ node +:+ " bootID to change from pre-reboot value (timeout "
             +:+ s_of timeout +:+ ")");
    if dry_run plan then log ("DRY-RUN would poll bootID for " +:+ node)
    else
      r ← poll (poll_fuel timeout 5) timeout 5 0 (0%N, "") (bootid_round timeout node pre);
      match r with
      | inl _ => mret tt
      | inr (_, cur) =>
          _ ← log ("node " +:+ node +:+ ": bootID-changed gate timed out after " +:+ s_of timeout
                   +:+ " (pre=" +:+ prefix8 pre +:+ "... cur=" +:+ prefix8 cur +:+ "...)");
          bail ("wait_node_bootid_changed: node " +:+ node +:+ " bootID did not change within "
                +:+ s_of timeout)
      end.

(** ** The DaemonSet pods *)

Definition pods_cmd (node : string) : string :=
  "get pods -n kube-system --field-selector=spec.nodeName=" +:+ node +:+ " --no-headers".

Definition pods_ready_cmd (node : string) : string :=
  "get pods -n kube-system --field-selector=spec.nodeName=" +:+ node
  +:+ " -o jsonpath='{range .items[*]}{.metadata.name}={range .status.containerStatuses[*]}"
  +:+ "{.ready},{end}{" +:+ DQ +:+ "\n" +:+ DQ +:+ "}{end}'".

Definition count_pods (stdout : string) : nat :=
  length (filter (λ l, is_empty (trim l) = false) (lines stdout)).

(** Phase 1: [inl n] is the [break] with [n] pods. *)
Definition appear_round (node : string) (elapsed : N) (_ : unit) : IO anyhow (nat + unit) :=
  r ← try (cp_kubectl (pods_cmd node));
  let pod_count := match r with Ok stdout => count_pods stdout | Err _ => 0%nat end in
  if (0 <? pod_count)%nat then mret (inl pod_count)
  else
    _ ← (if (elapsed =? 0)%N then
           log ("WARN: no kube-system pods yet observed on " +:+ node
                +:+ "; waiting up to 60s for DaemonSet controller to schedule")
         else mret tt);
    _ ← lift (sleep (from_secs 2));
    mret (inr tt).

(** [cp_kubectl(..).unwrap_or_default()], read as the set of unready pods. *)
Definition unready_pods (node : string) : IO anyhow (list string) :=
  r ← try (cp_kubectl (pods_ready_cmd node));
  mret (btree_set (_collect_unready_names (match r with Ok raw => raw | Err _ => "" end))).

Definition new_unready (baseline current : list string) : list string :=
  filter (λ p, p ∉ baseline) current.

(** Phase 2.  The loop's variables: [last_heartbeat] and
    [new_unready_display]. *)
Definition daemonset_round (timeout : N) (node : string) (baseline : list string)
    (elapsed : N) (st : N * string) : IO anyhow (unit + N * string) :=
  let last_heartbeat := st.1 in
  current ← unready_pods node;
  let unready := new_unready baseline current in
  match unready with
  | [] =>
      let excl := match baseline with [] => "" | _ => "pre-existing-unready" end in
      _ ← log ("node " +:+ node +:+ " kube-system DaemonSet pods all Ready after ~"
               +:+ s_of elapsed +:+ " (excluding " +:+ excl +:+ ")");
      mret (inl tt)
  | _ =>
      let display := join " " unready in
      _ ← lift (sleep (from_secs 5));
      let elapsed := saturating_add U32_MAX elapsed 5 in
      if (30 <=? elapsed - last_heartbeat)%N && (elapsed <? timeout)%N then
        _ ← log ("  still polling kube-system DaemonSet pods on " +:+ node +:+ " after ~"
                 +:+ s_of elapsed +:+ " (new-unready: " +:+ display +:+ ")");
        mret (inr (elapsed, display))
      else mret (inr (last_heartbeat, display))
  end.

(** From the snapshot of the pods that were unready before on. *)
Definition daemonset_phase2 (node : string) (timeout : N) : IO anyhow unit :=
  baseline ← unready_pods node;
  _ ← match baseline with
      | [] => mret tt
      | _ => log ("  baseline-unready pods on " +:+ node +:+ " (excluded from gate): "
                  +:+ join " " baseline +:+ " ")
      end;
  _ ← log ("waiting for kube-system DaemonSet pods on " +:+ node +:+ " to be Ready (timeout "
           +:+ s_of timeout +:+ ")");
  r ← poll (poll_fuel timeout 5) timeout 5 0 (0%N, "") (daemonset_round timeout node baseline);
  match r with
  | inl _ => mret tt
  | inr (_, display) =>
      _ ← log ("node " +:+ node
               +:+ ": kube-system DaemonSet pods (new, post-baseline) still not Ready after "
               +:+ s_of timeout +:+ ": " +:+ display);
      bail ("wait_node_daemonsets_ready: kube-system DaemonSet pods on " +:+ node
            +:+ " not Ready within " +:+ s_of timeout +:+ " (new-unready: " +:+ display +:+ ")")
  end.

Definition wait_node_daemonsets_ready (node : string) : IO anyhow unit :=
  if skip_gates plan then
    log ("node " +:+ node +:+ ": --skip-gates set, skipping DaemonSet readiness gate")
  else
    let timeout := daemonset (timeouts plan) in
    if dry_run plan then
      _ ← log ("waiting for kube-system DaemonSet pods on " +:+ node +:+ " to be Ready (timeout "
               +:+ s_of timeout +:+ ")");
      log ("DRY-RUN would poll kube-system pods on " +:+ node +:+ " for Ready")
    else
      r ← poll (poll_fuel 60 2) 60 2 0 tt (appear_round node);
      match r with
      | inl _ => daemonset_phase2 node timeout
      | inr _ =>
          log ("WARN: no kube-system pods on " +:+ node
               +:+ " after 60s; proceeding (fresh cluster or no DS deployed yet)")
      end.
End gates.
