(* ===== verification/UpdateFlow.v ===== *)
(** * hbird update-cluster: the rolling update

    [InFlight], [update_cp], [update_worker], the batches and [run] of
    [crates/hbird-cli/src/commands/update_cluster.rs]. *)

From S2P Require Import Prelude RustStr ConfigTypes ConfigLexer ConfigBuild SshOptions SshClient.
From S2P Require Import Effects Cp UpdatePlan UpdateNode UpdateGates.

(** ** [InFlight] *)

Record InFlight : Set := mkInFlight {
  if_node : string;
  if_cp_ip : string;
  if_drained : bool;
  if_uncordoned : bool;
  if_phase : string;
}.
#[export] Instance InFlight_eq_dec : EqDecision InFlight.
Proof. solve_decision. Defined.

Definition mark_drained (f : InFlight) : InFlight :=
  mkInFlight (if_node f) (if_cp_ip f) true (if_uncordoned f) (if_phase f).
Definition mark_uncordoned (f : InFlight) : InFlight :=
  mkInFlight (if_node f) (if_cp_ip f) (if_drained f) true (if_phase f).
Definition set_phase (p : string) (f : InFlight) : InFlight :=
  mkInFlight (if_node f) (if_cp_ip f) (if_drained f) (if_uncordoned f) p.
Definition clear_in_flight (f : InFlight) : InFlight := mkInFlight "" "" false false "".

(** [impl Drop for InFlight]: the lines it prints. *)
Definition rule_line : string := "============================================================".
Definition hint (f : InFlight) : list string :=
  [""; "[update-cluster] " +:+ rule_line;
   "[update-cluster] WARNING: node " +:+ if_node f +:+ " is cordoned and was not uncordoned."]
  ++ (if negb (is_empty (if_phase f))
      then ["[update-cluster] in-flight phase: " +:+ if_phase f] else [])
  ++ ["[update-cluster] Restore it manually once you have verified its state:";
      "[update-cluster]   ssh root@" +:+ if_cp_ip f +:+ " " +:+ DQ
      +:+ "kubectl --kubeconfig=/etc/kubernetes/admin.conf uncordon " +:+ if_node f +:+ DQ;
      "[update-cluster] " +:+ rule_line].

Definition drop_in_flight (f : InFlight) : M unit :=
  if if_drained f && negb (if_uncordoned f) && negb (is_empty (if_node f))
  then for_each_M eprintln (hint f) else mret tt.

(** *** Fallible computations that own an [InFlight] *)

Definition Tr (A : Type) : Type := InFlight → history → (result anyhow A * InFlight) * history.
#[export] Instance Tr_ret : MRet Tr := λ A a s h, ((Ok a, s), []).
#[export] Instance Tr_bind : MBind Tr := λ A B f m s h,
  let '((r, s1), e1) := m s h in
  match r with
  | Ok a => let '(rs, e2) := f a s1 (h ++ e1) in (rs, e1 ++ e2)
  | Err e => ((Err e, s1), e1)
  end.
Definition io {A} (m : IO anyhow A) : Tr A := λ s h, let '(r, e) := m h in ((r, s), e).
Definition modify (f : InFlight → InFlight) : Tr unit := λ s h, ((Ok tt, f s), []).

(** The scope of the [InFlight] value: it is dropped when the body returns,
    with a value or an error. *)
Definition scoped {A} (init : InFlight) (body : Tr A) : IO anyhow A := λ h,
  let '((r, s), e1) := body init h in
  let '(_, e2) := drop_in_flight s (h ++ e1) in
  (r, e1 ++ e2).

Section flow.
Context `{W : World} (plan : Plan) (pfx : string).
Let log := log pfx.
Let t := timeouts plan.

(** [.with_context(|| msg)?] *)
Definition with_context {A} (msg : string) : IO anyhow A → IO anyhow A :=
  io_map_err (context msg).

(** ** [update_cp] *)

Definition upgrade_line (ip : string) : string :=
  "ssh root@" +:+ ip +:+ " bootc upgrade --apply  (auto-reboots; digest pre/post compared)".

Definition cp_banner : IO anyhow unit :=
  _ ← log rule_line;
  _ ← (if bool_decide (cp_k8s_name plan = plan_cp_name plan)
       then log ("CP: " +:+ plan_cp_name plan +:+ " (" +:+ plan_cp_ip plan +:+ ")")
       else log ("CP: " +:+ plan_cp_name plan +:+ " (" +:+ plan_cp_ip plan +:+ ") k8s-node="
                 +:+ cp_k8s_name plan));
  _ ← log "  single-CP topology: skipping drain (no peers to evict to)";
  _ ← log "  apiserver will be unavailable for ~60-120s during reboot";
  log rule_line.

(** The gates after the control plane's reboot. *)
Definition cp_gates (pre_bootid : string) : Tr unit :=
  let name := plan_cp_name plan in
  let node := cp_k8s_name plan in
  let ip := plan_cp_ip plan in
  _ ← io (try (wait_ssh_drop plan pfx ip) : IO anyhow (result anyhow unit));
  _ ← io (with_context ("CP " +:+ name +:+ " did not come back over SSH within "
                        +:+ s_of (ssh_timeout t)) (wait_ssh_back plan pfx ip));
  _ ← modify (set_phase "post-reboot-pre-apiserver");
  _ ← io (with_context ("CP " +:+ name +:+ " apiserver did not return within "
                        +:+ s_of (apiserver t)) (wait_apiserver_back plan pfx));
  _ ← modify (set_phase "post-apiserver-pre-bootID");
  _ ← io (with_context ("CP node " +:+ name +:+ " bootID did not change after "
                        +:+ s_of (ready t) +:+ " (apiserver may be serving stale state)")
            (wait_node_bootid_changed plan pfx node pre_bootid));
  _ ← modify (set_phase "post-bootID-pre-Ready");
  _ ← io (with_context ("CP node " +:+ name +:+ " did not reach Ready within " +:+ s_of (ready t))
            (wait_node_ready plan pfx node));
  _ ← modify (set_phase "post-Ready-pre-DaemonSet");
  io (with_context ("CP " +:+ name +:+ ": kube-system DaemonSet pods not Ready after "
                    +:+ s_of (daemonset t)) (wait_node_daemonsets_ready plan pfx node)).

Definition update_cp_body : Tr unit :=
  let name := plan_cp_name plan in
  let ip := plan_cp_ip plan in
  _ ← io cp_banner;
  _ ← io (timer_stop plan pfx ip);
  pre_bootid ← io (capture_node_bootid plan pfx (cp_k8s_name plan));
  _ ← io (log ("  pre-reboot bootID: " +:+ prefix8 pre_bootid +:+ "..."));
  _ ← io (log (upgrade_line ip));
  outcome ← io (with_context ("update_cp(" +:+ name +:+ "): bootc upgrade phase")
                  (bootc_upgrade_apply plan pfx ip name));
  match outcome with
  | AlreadyCurrent =>
      _ ← io (log ("CP " +:+ name +:+ ": no update available; restoring timer and continuing."));
      io (timer_start plan pfx ip)
  | UpgradeFailed => io (bail ("bootc upgrade on CP " +:+ name +:+ " failed (see log above)"))
  | Applied =>
      _ ← cp_gates pre_bootid;
      _ ← io (timer_start plan pfx ip);
      io (log ("CP " +:+ name +:+ " updated and Ready."))
  end.

Definition update_cp : IO anyhow unit :=
  scoped (mkInFlight (cp_k8s_name plan) (plan_cp_ip plan) false false "pre-upgrade")
    update_cp_body.

(** ** [update_worker] *)

Definition drain_flags : string :=
  "--ignore-daemonsets --timeout=" +:+ drain t
  +:+ (if negb (no_delete_emptydir_data plan) then " --delete-emptydir-data" else "").
Definition drain_cmd (k8s_name : string) : string :=
  "drain " +:+ k8s_name +:+ " " +:+ drain_flags.
Definition uncordon_cmd (k8s_name : string) : string := "uncordon " +:+ k8s_name.

Definition worker_banner (name ip k8s_name : string) : IO anyhow unit :=
  _ ← log rule_line;
  _ ← (if bool_decide (k8s_name = name)
       then log ("WORKER: " +:+ name +:+ " (" +:+ ip +:+ ")")
       else log ("WORKER: " +:+ name +:+ " (" +:+ ip +:+ ") k8s-node=" +:+ k8s_name));
  log rule_line.

Definition drain_worker (k8s_name : string) : Tr unit :=
  if skip_drain plan then
    io (log ("  --skip-drain set: skipping kubectl drain for " +:+ k8s_name))
  else
    _ ← io (log ("kubectl drain " +:+ k8s_name +:+ " " +:+ drain_flags));
    _ ← io (cp_kubectl plan pfx (drain_cmd k8s_name));
    _ ← modify mark_drained;
    modify (set_phase "post-drain").

Definition uncordon_worker (k8s_name : string) : Tr unit :=
  _ ← io (log ("kubectl uncordon " +:+ k8s_name));
  _ ← io (cp_kubectl plan pfx (uncordon_cmd k8s_name));
  modify mark_uncordoned.

(** The gates after the worker's reboot. *)
Definition worker_gates (name ip k8s_name pre_bootid : string) : Tr unit :=
  _ ← io (try (wait_ssh_drop plan pfx ip) : IO anyhow (result anyhow unit));
  _ ← modify (set_phase "post-reboot-pre-ssh");
  _ ← io (with_context (name +:+ ": did not come back over SSH within " +:+ s_of (ssh_timeout t))
            (wait_ssh_back plan pfx ip));
  _ ← modify (set_phase "post-bootID-pre-Ready");
  _ ← io (with_context (name +:+ ": node bootID did not change after " +:+ s_of (ready t)
                        +:+ " (apiserver may be serving stale state)")
            (wait_node_bootid_changed plan pfx k8s_name pre_bootid));
  _ ← io (with_context (name +:+ ": did not reach Ready within " +:+ s_of (ready t))
            (wait_node_ready plan pfx k8s_name));
  _ ← modify (set_phase "post-Ready-pre-DaemonSet");
  _ ← io (with_context (name +:+ ": kube-system DaemonSet pods not Ready on this node after "
                        +:+ s_of (daemonset t)) (wait_node_daemonsets_ready plan pfx k8s_name));
  modify (set_phase "post-DaemonSet-pre-uncordon").

(** Everything after the upgrade. *)
Definition finish_worker (name ip k8s_name pre_bootid : string) (outcome : BootcUpgradeOutcome)
    : Tr unit :=
  match outcome with
  | UpgradeFailed => io (bail (name +:+ ": bootc upgrade --apply failed (see log above)"))
  | AlreadyCurrent =>
      _ ← io (log ("worker " +:+ name +:+ ": no update available; uncordoning and continuing."));
      _ ← (if negb (skip_drain plan) then uncordon_worker k8s_name else mret tt);
      _ ← io (timer_start plan pfx ip);
      modify clear_in_flight
  | Applied =>
      _ ← worker_gates name ip k8s_name pre_bootid;
      _ ← uncordon_worker k8s_name;
      _ ← io (timer_start plan pfx ip);
      _ ← modify clear_in_flight;
      io (log ("node " +:+ name +:+ " updated"))
  end.

Definition update_worker_body (name ip k8s_name : string) : Tr unit :=
  _ ← io (worker_banner name ip k8s_name);
  _ ← io (timer_stop plan pfx ip);
  _ ← drain_worker k8s_name;
  pre_bootid ← io (capture_node_bootid plan pfx k8s_name);
  _ ← io (log ("  pre-reboot bootID: " +:+ prefix8 pre_bootid +:+ "..."));
  _ ← io (log (upgrade_line ip));
  outcome ← io (with_context ("update_worker(" +:+ name +:+ "): bootc upgrade phase")
                  (bootc_upgrade_apply plan pfx ip name));
  finish_worker name ip k8s_name pre_bootid outcome.

Definition update_worker (name ip k8s_name : string) : IO anyhow unit :=
  scoped (mkInFlight k8s_name (plan_cp_ip plan) false false "pre-drain")
    (update_worker_body name ip k8s_name).
End flow.
