(* ===== verification/UpdateLock.v ===== *)
(** * hbird update-cluster: the concurrency lock

    [lock_dir] and [acquire_lock] of
    [crates/hbird-cli/src/commands/update_cluster.rs].  What the host answers
    (directories, the two [flock(1)] processes) is a parameter. *)

From S2P Require Import Prelude RustStr ConfigTypes SshClient Effects.

Class LockHost : Type := {
  env_var : string → option string;
  (** the output of [id -u], when it ran and was UTF-8 *)
  id_u : option string;
  is_dir : string → bool;
  exists_path : string → bool;
  create_dir : string → result io_error unit;
  open_lock_file : string → result io_error unit;
  (** spawning [flock -n path -c ..]; then the state of the child after the
      settle loop: [None] is still alive, otherwise its status and stderr *)
  flock_child : string → result io_error (option (ExitStatus * string));
  (** [flock -n -E 1 path -c true] *)
  flock_probe : string → result io_error RunOutput;
}.

Section lock.
Context `{H : LockHost}.

Definition parse_uid (s : string) : option N :=
  match parse_uint U32_MAX s with Ok n => Some n | Err _ => None end.

Definition lock_uid : N :=
  match env_var "UID" ≫= parse_uid with
  | Some n => n
  | None => default 0%N (id_u ≫= λ s, parse_uid (trim s))
  end.

Definition xdg_msg (xdg : string) : string :=
  "XDG_RUNTIME_DIR is set to " +:+ xdg +:+ " but it is not a directory; "
  +:+ "unset it or point it at a writable per-user dir".

Definition lock_dir : result anyhow string :=
  match env_var "XDG_RUNTIME_DIR" with
  | Some (String _ _ as xdg) =>
      if negb (is_dir xdg) then Err (anyhow_msg (xdg_msg xdg)) else Ok xdg
  | _ =>
      let run_user := "/run/user/" +:+ show_N lock_uid in
      if is_dir run_user then Ok run_user
      else
        let scoped := "/tmp/hbird-" +:+ show_N lock_uid in
        if negb (exists_path scoped) then
          _ ← map_err (λ e, context ("failed to create UID-scoped lock dir " +:+ scoped
                                     +:+ " (set XDG_RUNTIME_DIR to override)") (of_io e))
                (create_dir scoped);
          Ok scoped
        else Ok scoped
  end.

(** [{:?}] of an [Option<i32>] *)
Definition debug_code (c : option Z) : string :=
  match c with Some c => "Some(" +:+ show_Z c +:+ ")" | None => "None" end.

Definition lock_file (dir : string) : string := path_join dir "hbird-update-cluster.lock".

(** The guard is represented by the path it holds. *)
Definition acquire_lock (dry_run : bool) : result anyhow (option string) :=
  if dry_run then Ok None
  else
    dir ← lock_dir;
    let path := lock_file dir in
    _ ← map_err (λ e, context ("failed to open lock file " +:+ path
                               +:+ " (set XDG_RUNTIME_DIR to a writable dir)") (of_io e))
          (open_lock_file path);
    child ← map_err (λ e, context ("failed to spawn flock(1) for " +:+ path) (of_io e))
              (flock_child path);
    match child with
    | Some (status, stderr) =>
        if bool_decide (code status = Some 1%Z) then
          Err (anyhow_msg ("another update-cluster run is in progress (lock " +:+ path +:+ " held)"))
        else
          Err (anyhow_msg ("failed to acquire lock " +:+ path +:+ ": flock(1) exited "
                           +:+ debug_code (code status) +:+ ": " +:+ stderr))
    | None =>
        match flock_probe path with
        | Ok p =>
            if bool_decide (code (status p) = Some 1%Z) then Ok (Some path)
            else Err (anyhow_msg ("failed to acquire lock " +:+ path +:+ ": probe got rc="
                        +:+ debug_code (code (status p)) +:+ " (stderr=" +:+ stderr_lossy p
                        +:+ ")"))
        | Err e =>
            Err (anyhow_msg ("failed to probe lock state on " +:+ path +:+ ": " +:+ io_message e
                             +:+ " (is flock(1) from util-linux installed?)"))
        end
    end.
End lock.

(** ** What a successful acquisition means *)

(** The per-user directories the lock may live in. *)
Inductive lock_place `{LockHost} : string → Prop :=
| place_xdg xdg : env_var "XDG_RUNTIME_DIR" = Some xdg → xdg ≠ "" → is_dir xdg = true → lock_place xdg
| place_run : is_dir ("/run/user/" +:+ show_N lock_uid) = true →
    lock_place ("/run/user/" +:+ show_N lock_uid)
| place_tmp : lock_place ("/tmp/hbird-" +:+ show_N lock_uid).

Lemma lock_dir_place `{LockHost} dir : lock_dir = Ok dir → lock_place dir.
Proof.
  unfold lock_dir. destruct (env_var "XDG_RUNTIME_DIR") as [[|c s]|] eqn:Hx.
  2: { destruct (is_dir (String c s)) eqn:Hd; cbn [negb]; [|done].
       intros [= <-]. by eapply place_xdg. }
  all: destruct (is_dir ("/run/user/" +:+ show_N lock_uid)) eqn:Hd;
    [intros [= <-]; by apply place_run|].
  all: destruct (negb _); [|intros [= <-]; apply place_tmp].
  all: destruct (create_dir ("/tmp/hbird-" +:+ show_N lock_uid));
    [intros [= <-]; apply place_tmp|by intros [=]].
Qed.

(** The lock is acquired exactly when the [flock] child is still alive after
    it settled and a second [flock] on the same file met contention; the file
    is in a directory of the user.  A child that exited with status 1 is
    reported as another run in progress.  A dry run takes no lock. *)
Theorem acquire_lock_spec `{LockHost} dry :
  match acquire_lock dry with
  | Ok None => dry = true
  | Ok (Some path) => dry = false ∧ ∃ dir p, lock_dir = Ok dir ∧ lock_place dir ∧
      path = lock_file dir ∧ open_lock_file path = Ok tt ∧ flock_child path = Ok None ∧
      flock_probe path = Ok p ∧ status p = Exited 1
  | Err e => dry = false ∧
      ∀ dir, lock_dir = Ok dir → open_lock_file (lock_file dir) = Ok tt →
        ∀ s, flock_child (lock_file dir) = Ok (Some (Exited 1, s)) →
        e = anyhow_msg ("another update-cluster run is in progress (lock " +:+ lock_file dir
                        +:+ " held)")
  end.
Proof.
  unfold acquire_lock. destruct dry; [done|].
  destruct lock_dir as [dir|e0] eqn:Hdir; [|by split; [|intros ? [=]]].
  cbv zeta. cbn [mbind result_bind].
  destruct (open_lock_file (lock_file dir)) as [[]|e1] eqn:Hopen;
    [|split; [done|intros d [= <-]; congruence]]. cbn [map_err mbind result_bind].
  destruct (flock_child (lock_file dir)) as [child|e2] eqn:Hchild;
    [|split; [done|intros d [= <-]; congruence]]. cbn [map_err mbind result_bind].
  destruct child as [[st err]|].
  { case_bool_decide as Hst; (split; [done|]); intros d [= <-] _ s Hs; [done|].
    rewrite Hchild in Hs. injection Hs as -> _. by destruct Hst. }
  destruct (flock_probe (lock_file dir)) as [p|e3] eqn:Hprobe;
    [|split; [done|intros d [= <-]; congruence]].
  case_bool_decide as Hst; [|split; [done|intros d [= <-]; congruence]].
  split; [done|]. exists dir, p. split_and!; try done; [by apply lock_dir_place|].
  destruct (status p); [by injection Hst as ->|done].
Qed.
