(* ===== verification/UpdateGuard.v ===== *)
(** * hbird update-cluster: who holds the lock, and when it is released

    The processes behind [acquire_lock], [install_signal_handler] and
    [LockGuard]'s [Drop] of [crates/hbird-cli/src/commands/update_cluster.rs]: the
    main thread, the watcher thread that receives signals, the [flock(1)] child
    and the shell it starts, the probe, and other runs, as a step relation.
    UpdateLock.v has the same function with its messages, over the answers of the
    two [flock] processes; here the processes run.

    A thread is a tree of atomic actions, whose order is the code's; any
    interleaving of the two threads, of the kernel, of other runs and of
    signals is a sequence of steps.  [flock -c] starts a shell that inherits the
    locked descriptor, so the lock is held as long as that shell (or its
    [sleep]) lives.  A child in a process group of its own does not receive the
    terminal's signals.  The body of the run is the one action [Work]. *)

From S2P Require Import Prelude.

(** ** The kernel's view *)

Inductive flock_phase : Type :=
| Not_started
| Starting  (** spawned, has not tried the lock yet *)
| Waiting   (** took the lock, waits for its shell *)
| Exited (code : option Z)  (** ended, not waited for; [None]: by a signal *)
| Reaped (code : option Z).  (** waited for; [Child] remembers the status *)
#[export] Instance flock_phase_eq_dec : EqDecision flock_phase.
Proof. solve_decision. Defined.

Inductive holder : Type := Ours | Probe | Other.
#[export] Instance holder_eq_dec : EqDecision holder.
Proof. solve_decision. Defined.

Record os : Type := Os {
  hbird_up : bool;
  flock : flock_phase;
  shell_up : bool;            (** the inner shell, which has the descriptor *)
  lock : option holder;
  flock_child_pid : Z;        (** [FLOCK_CHILD_PID] *)
  signal_received : bool;     (** [SIGNAL_RECEIVED] *)
  handler : bool;             (** the signals are watched *)
  recycled : bool;            (** the child's id belongs to someone else *)
  stranger_hit : bool;        (** someone else was sent SIGTERM *)
  kill_failed : bool;         (** kill(1) could not be run *)
}.

Definition set_flock (f : flock_phase) (s : os) : os :=
  Os (hbird_up s) f (shell_up s) (lock s) (flock_child_pid s) (signal_received s) (handler s)
    (recycled s) (stranger_hit s) (kill_failed s).
Definition set_lock (h : option holder) (s : os) : os :=
  Os (hbird_up s) (flock s) (shell_up s) h (flock_child_pid s) (signal_received s) (handler s)
    (recycled s) (stranger_hit s) (kill_failed s).
(** The shell starts, or ends; its end closes the last copy of the descriptor. *)
Definition start_shell (s : os) : os :=
  Os (hbird_up s) Waiting true (Some Ours) (flock_child_pid s) (signal_received s) (handler s)
    (recycled s) (stranger_hit s) (kill_failed s).
Definition end_shell (s : os) : os :=
  Os (hbird_up s) (flock s) false (if decide (lock s = Some Ours) then None else lock s)
    (flock_child_pid s) (signal_received s) (handler s) (recycled s) (stranger_hit s)
    (kill_failed s).

(** A signal ends [flock(1)], if it has not ended. *)
Definition end_flock (s : os) : os :=
  match flock s with
  | Starting | Waiting => set_flock (Exited None) s
  | _ => s
  end.

(** ** Actions *)

Inductive answer : Type :=
| Unit
| Failed                      (** the program could not be started *)
| Status (code : option Z)    (** an exit status *)
| Running
| Pid (p : Z).

Inductive action : Type :=
| Spawn_flock                 (** [flock -n path -c ..], in a process group of its own *)
| Probe_start                 (** [flock -n -E 1 path -c true] tries the lock *)
| Probe_end
| Settle                      (** the loop on [try_wait] *)
| Try_wait
| Kill_child                  (** [child.kill()]: SIGKILL to [flock(1)] only *)
| Wait_child
| Store_pid (p : Z)
| Install_handler
| Work
| Kill_group (p : Z)          (** [kill -TERM -p] *)
| Set_flag
| Load_pid
| Reraise.                    (** the default action of the signal *)

#[export] Instance action_eq_dec : EqDecision action.
Proof. solve_decision. Defined.

Inductive outcome : Type :=
| Not_spawned | In_progress | Child_failed | Probe_failed | Finished.
#[export] Instance outcome_eq_dec : EqDecision outcome.
Proof. solve_decision. Defined.

Inductive prog : Type :=
| Done (o : outcome)
| Act (a : action) (k : answer → prog).

(** One action that only goes on. *)
Notation "a ▸ k" := (Act a (λ _, k)) (at level 60, right associativity).

(** [as i32] of the [u32] that [Child::id] gives. *)
Definition as_i32 (z : Z) : Z :=
  let u := (z mod 4294967296)%Z in if (u <? 2147483648)%Z then u else (u - 4294967296)%Z.

Section lock_guard.
(** The id of the [flock] child, which is also the id of its process group.  The
    argument [runs] of [exec] says whether the program or the watcher that the
    action starts could be started.  [Settle] is enabled once the child has tried
    the lock: that [flock -n] does so within the two seconds of the loop is what
    the code relies on. *)
Context (child_id : Z).

Definition exec (a : action) (runs : bool) (s : os) : option (answer * os) :=
  match a with
  | Spawn_flock => if runs then Some (Unit, set_flock Starting s) else Some (Failed, s)
  | Probe_start =>
      if negb runs then Some (Failed, s)
      else match lock s with
           | None => Some (Status (Some 0%Z), set_lock (Some Probe) s)
           | Some _ => Some (Status (Some 1%Z), s)
           end
  | Probe_end =>
      Some (Unit, if decide (lock s = Some Probe) then set_lock None s else s)
  | Settle =>
      match flock s with
      | Starting => None
      | Exited c => Some (Unit, set_flock (Reaped c) s)
      | _ => Some (Unit, s)
      end
  | Try_wait =>
      match flock s with
      | Exited c => Some (Status c, set_flock (Reaped c) s)
      | Reaped c => Some (Status c, s)
      | _ => Some (Running, s)
      end
  | Kill_child => Some (Unit, end_flock s)
  | Wait_child =>
      match flock s with
      | Exited c => Some (Unit, set_flock (Reaped c) s)
      | Reaped _ => Some (Unit, s)
      | _ => None
      end
  | Store_pid p =>
      Some (Unit, Os (hbird_up s) (flock s) (shell_up s) (lock s) p (signal_received s)
                    (handler s) (recycled s) (stranger_hit s) (kill_failed s))
  | Install_handler =>
      Some (Unit, Os (hbird_up s) (flock s) (shell_up s) (lock s) (flock_child_pid s)
                    (signal_received s) (runs || handler s) (recycled s) (stranger_hit s) (kill_failed s))
  | Work => Some (Unit, s)
  | Kill_group p =>
      if negb runs then
        Some (Unit, Os (hbird_up s) (flock s) (shell_up s) (lock s) (flock_child_pid s)
                      (signal_received s) (handler s) (recycled s) (stranger_hit s) true)
      else if (p =? child_id)%Z && negb (recycled s) then Some (Unit, end_shell (end_flock s))
      else Some (Unit, Os (hbird_up s) (flock s) (shell_up s) (lock s) (flock_child_pid s)
                         (signal_received s) (handler s) (recycled s) true (kill_failed s))
  | Set_flag =>
      Some (Unit, Os (hbird_up s) (flock s) (shell_up s) (lock s) (flock_child_pid s) true
                    (handler s) (recycled s) (stranger_hit s) (kill_failed s))
  | Load_pid => Some (Pid (flock_child_pid s), s)
  | Reraise =>
      Some (Unit, Os false (flock s) (shell_up s) (lock s) (flock_child_pid s)
                    (signal_received s) (handler s) (recycled s) (stranger_hit s)
                    (kill_failed s))
  end.

(** ** The two threads *)

(** [LockGuard::drop] *)
Definition drop_guard : prog :=
  Kill_group (as_i32 child_id) ▸
  Kill_child ▸
  Wait_child ▸
  Store_pid 0 ▸
  Done Finished.

(** The rest of [acquire_lock] once both [flock]s are settled, then the run and the
    drop of the guard. *)
Definition after_settle (probe child : answer) : prog :=
  match child with
  | Status c => Done (if decide (c = Some 1%Z) then In_progress else Child_failed)
  | _ =>
      match probe with
      | Status (Some 1%Z) =>
          Store_pid (as_i32 child_id) ▸ Install_handler ▸ Work ▸ drop_guard
      | _ => Kill_child ▸ Wait_child ▸ Done Probe_failed
      end
  end.

Definition after_probe (probe : answer) : prog :=
  let settle := Settle ▸ Act Try_wait (after_settle probe) in
  match probe with
  | Failed => settle
  | _ => Probe_end ▸ settle
  end.

(** [acquire_lock] from the spawn of its child, then the run. *)
Definition main_thread : prog :=
  Act Spawn_flock (λ a, match a with Failed => Done Not_spawned | _ => Act Probe_start after_probe end).

Definition after_load (a : answer) : prog :=
  match a with
  | Pid p => if (0 <? p)%Z then Kill_group p ▸ Reraise ▸ Done Finished
             else Reraise ▸ Done Finished
  | _ => Done Finished
  end.

(** The body of the watcher's loop, for one signal. *)
Definition watcher_thread : prog := Set_flag ▸ Act Load_pid after_load.

(** ** The system *)

Record sys : Type := Sys {
  host : os;
  main : prog;
  watcher : option prog;   (** [None]: waits for a signal *)
}.

(** What the kernel and other runs do by themselves. *)
Inductive kernel : os → os → Prop :=
| child_locks s : flock s = Starting → lock s = None → kernel s (start_shell s)
| child_contends s h : flock s = Starting → lock s = Some h →
    kernel s (set_flock (Exited (Some 1%Z)) s)
| other_locks s : lock s = None → kernel s (set_lock (Some Other) s)
| other_unlocks s : lock s = Some Other → kernel s (set_lock None s)
| id_recycled s c : flock s = Reaped c → shell_up s = false →
    kernel s (Os (hbird_up s) (flock s) (shell_up s) (lock s) (flock_child_pid s)
                (signal_received s) (handler s) true (stranger_hit s) (kill_failed s)).

Definition gone (s : os) : os :=
  Os false (flock s) (shell_up s) (lock s) (flock_child_pid s) (signal_received s) (handler s)
    (recycled s) (stranger_hit s) (kill_failed s).

Inductive step : sys → sys → Prop :=
| step_main s a k w runs r s' : hbird_up s = true → exec a runs s = Some (r, s') →
    step (Sys s (Act a k) w) (Sys s' (k r) w)
| step_watcher s m a k runs r s' : hbird_up s = true → exec a runs s = Some (r, s') →
    step (Sys s m (Some (Act a k))) (Sys s' m (Some (k r)))
| step_kernel s m w s' : kernel s s' → step (Sys s m w) (Sys s' m w)
| step_signal s m : hbird_up s = true → handler s = true →
    step (Sys s m None) (Sys s m (Some watcher_thread))
| step_signal_default s m w : hbird_up s = true → handler s = false →
    step (Sys s m w) (Sys (gone s) m w)
| step_exit s o w : hbird_up s = true → step (Sys s (Done o) w) (Sys (gone s) (Done o) w).

Definition idle (l : option holder) : os :=
  Os true Not_started false l 0 false false false false false.

(** The lock is free, or another run has it. *)
Inductive initial : sys → Prop :=
| initial_free : initial (Sys (idle None) main_thread None)
| initial_held : initial (Sys (idle (Some Other)) main_thread None).

Definition reachable (x : sys) : Prop := ∃ x0, initial x0 ∧ rtc step x0 x.
End lock_guard.
