(* ===== verification/UpdateGuardFacts.v ===== *)
(** * hbird update-cluster: the lock is held during the run and released after it

    The step relation of UpdateGuard.v has an invariant ([inv], by rule induction):
    where the two threads are, and what then holds of the processes.  From it:
    the lock is ours while the run's body executes, and free of us once the
    process has ended or the guard was dropped; no thread waits for ever; a
    signal after the drop hits nobody.  The last section computes the runs in
    which that fails: before the handler is there, when the probe wins the race
    for the lock, and between [wait] and the reset of the stored id. *)

From S2P Require Import Prelude RustStr ConfigTypes SshClient Effects UpdateLock UpdateGuard.

Section facts.
Context (child_id : Z).

Local Abbreviation exec := (UpdateGuard.exec child_id).
Local Abbreviation drop_guard := (UpdateGuard.drop_guard child_id).
Local Abbreviation after_settle := (UpdateGuard.after_settle child_id).
Local Abbreviation after_probe := (UpdateGuard.after_probe child_id).
Local Abbreviation main_thread := (UpdateGuard.main_thread child_id).
Local Abbreviation step := (UpdateGuard.step child_id).
Local Abbreviation initial := (UpdateGuard.initial child_id).
Local Abbreviation reachable := (UpdateGuard.reachable child_id).

(** ** The invariant *)

Definition early (s : os) : Prop := handler s = false ∧ flock_child_pid s = 0%Z.
Definition settled (s : os) : Prop := flock s ≠ Not_started ∧ flock s ≠ Starting.
(** Our shell has no descriptor left, unless kill(1) could not be run. *)
Definition clean (s : os) : Prop := kill_failed s = true ∨ shell_up s = false.
Definition guarding (s : os) : Prop := flock_child_pid s = child_id ∧ settled s.

(** Where the main thread is, and what then holds; [quiet]: no signal has been
    received. *)
Inductive at_main (quiet : bool) (s : os) : prog → Prop :=
| at_start : early s → flock s = Not_started → at_main quiet s main_thread
| at_probe : early s → flock s ≠ Not_started → at_main quiet s (Act Probe_start after_probe)
| at_probe_end a : early s → flock s ≠ Not_started →
    at_main quiet s (Probe_end ▸ Settle ▸ Act Try_wait (after_settle a))
| at_settling a : early s → flock s ≠ Not_started → at_main quiet s (Settle ▸ Act Try_wait (after_settle a))
| at_try a : early s → settled s → at_main quiet s (Act Try_wait (after_settle a))
| at_store : early s → settled s → shell_up s = true →
    at_main quiet s (Store_pid (as_i32 child_id) ▸ Install_handler ▸ Work ▸ drop_guard)
| at_install : handler s = false → guarding s → shell_up s = true →
    at_main quiet s (Install_handler ▸ Work ▸ drop_guard)
| at_work : guarding s → (quiet = true → shell_up s = true) → at_main quiet s (Work ▸ drop_guard)
| at_drop : guarding s → at_main quiet s drop_guard
| at_kill : guarding s → clean s →
    at_main quiet s (Kill_child ▸ Wait_child ▸ Store_pid 0 ▸ Done Finished)
| at_wait : guarding s → clean s → flock s ≠ Waiting →
    at_main quiet s (Wait_child ▸ Store_pid 0 ▸ Done Finished)
| at_zero : guarding s → clean s → at_main quiet s (Store_pid 0 ▸ Done Finished)
| at_end : settled s → clean s → flock_child_pid s = 0%Z → at_main quiet s (Done Finished)
| at_fail_kill o : early s → settled s → o ≠ Finished →
    at_main quiet s (Kill_child ▸ Wait_child ▸ Done o)
| at_fail_wait o : early s → settled s → flock s ≠ Waiting → o ≠ Finished →
    at_main quiet s (Wait_child ▸ Done o)
| at_fail o : early s → o ≠ Finished → at_main quiet s (Done o).

Inductive at_watcher (s : os) : prog → Prop :=
| at_flag : at_watcher s watcher_thread
| at_load : at_watcher s (Act Load_pid after_load)
| at_group : at_watcher s (Kill_group child_id ▸ Reraise ▸ Done Finished)
| at_reraise : clean s → at_watcher s (Reraise ▸ Done Finished)
| at_gone : hbird_up s = false → at_watcher s (Done Finished).

Definition quiet (w : option prog) : bool := match w with None => true | Some _ => false end.

(** The kernel's side. *)
Definition os_ok (s : os) : Prop :=
  (shell_up s = true ↔ lock s = Some Ours) ∧ (flock s = Waiting → shell_up s = true) ∧
  (shell_up s = true → settled s) ∧ (recycled s = true → shell_up s = false ∧ settled s).

Record inv (x : sys) : Prop := {
  inv_os : os_ok (host x);
  inv_main : at_main (quiet (watcher x)) (host x) (main x);
  inv_watcher : ∀ p, watcher x = Some p → handler (host x) = true ∧ at_watcher (host x) p;
  inv_gone : hbird_up (host x) = false → handler (host x) = true → clean (host x);
}.

(** Once the handler is there, the child is settled, and its id is stored unless
    the lock was released. *)
Lemma at_main_handled q s m : at_main q s m → handler s = true →
  settled s ∧ (flock_child_pid s = child_id ∨ (flock_child_pid s = 0%Z ∧ clean s)).
Proof.
  intros Hm Hh.
  destruct Hm; unfold early, guarding in *; intuition congruence.
Qed.

Ltac guard_solve :=
  unfold early, guarding, os_ok, settled, clean, end_flock, end_shell, set_flock, set_lock, start_shell,
    gone in *; cbn in *; repeat case_match; simplify_eq/=; first [intuition congruence|naive_solver].

Ltac guard_step :=
  unfold early, guarding, settled, clean, end_flock, end_shell in *; cbn; repeat case_match;
  simplify_eq/=; intuition congruence.

Lemma inv_initial x : initial x → inv x.
Proof. destruct 1; split; cbn; try done; by constructor. Qed.

Lemma kernel_inv s m w s' : kernel s s' → inv (Sys s m w) → inv (Sys s' m w).
Proof.
  intros Hk [Hs Hm Ht Hg]; cbn in *. split; cbn.
  - destruct Hk; guard_solve.
  - destruct Hm, Hk; constructor; guard_solve.
  - intros p Hp. destruct (Ht p Hp) as [Hh Hat].
    destruct (at_main_handled _ _ _ Hm Hh) as [Hset _].
    split; [by destruct Hk|]. destruct Hat, Hk; constructor; guard_solve.
  - intros Hup Hh. assert (Hh' : handler s = true) by (by destruct Hk).
    destruct (at_main_handled _ _ _ Hm Hh') as [Hset _]. destruct Hk; guard_solve.
Qed.

(** What the actions of the main thread leave alone. *)
Lemma exec_frame a runs s r s' : exec a runs s = Some (r, s') →
  (a = Spawn_flock → flock s = Not_started) →
  (handler s = true → handler s' = true) ∧ (clean s → settled s → clean s' ∧ settled s') ∧
  (a ≠ Reraise → hbird_up s' = hbird_up s).
Proof. destruct a, runs; cbn; intros; guard_solve. Qed.

Lemma exec_os a runs s r s' : exec a runs s = Some (r, s') →
  (a = Spawn_flock → flock s = Not_started) → os_ok s → os_ok s'.
Proof. destruct a, runs; cbn; intros; guard_solve. Qed.

Lemma at_work_inv s : at_main true s (Work ▸ drop_guard) → shell_up s = true.
Proof.
  intros Hm. remember (Work ▸ drop_guard) as m eqn:Em.
  destruct Hm; unfold UpdateGuard.main_thread, UpdateGuard.drop_guard in Em; simplify_eq; auto.
Qed.

Lemma at_done_inv q s : at_main q s (Done Finished) → clean s ∧ flock_child_pid s = 0%Z.
Proof. intros Hm. remember (Done Finished) as m. destruct Hm; unfold UpdateGuard.drop_guard in *; simplify_eq; auto. Qed.

Lemma at_wait_inv q s k : at_main q s (Act Wait_child k) → settled s ∧ flock s ≠ Waiting.
Proof.
  intros Hm. remember (Act Wait_child k) as m eqn:Em.
  destruct Hm; unfold UpdateGuard.main_thread, UpdateGuard.drop_guard, guarding in *; naive_solver.
Qed.

Lemma main_acts q s a k : at_main q s (Act a k) →
  a ≠ Reraise ∧ (a = Spawn_flock → flock s = Not_started).
Proof.
  intros Hm. remember (Act a k) as m.
  destruct Hm; unfold UpdateGuard.main_thread, UpdateGuard.drop_guard in *; simplify_eq; split; congruence.
Qed.

(** The watcher only goes through these actions. *)
Lemma at_watcher_acts s a k : at_watcher s (Act a k) →
  a = Set_flag ∨ a = Load_pid ∨ a = Kill_group child_id ∨ a = Reraise.
Proof. intros Hw. remember (Act a k) as p. destruct Hw; unfold watcher_thread in *; naive_solver. Qed.

(** A step of the watcher leaves the main thread where it is. *)
Lemma exec_watcher_main a runs s r s' m : exec a runs s = Some (r, s') →
  a = Set_flag ∨ a = Load_pid ∨ a = Kill_group child_id ∨ a = Reraise →
  handler s = true → at_main false s m → at_main false s' m.
Proof.
  intros He Ha Hh Hm.
  destruct Ha as [->|[->|[->| ->]]]; cbn in He; destruct runs; cbn in He;
    repeat (case_match; simplify_eq/=); destruct Hm; constructor; guard_step.
Qed.

(** Ids of processes are positive and fit in an [i32]. *)
Context (child_id_range : (0 < child_id < 2147483648)%Z).

Lemma as_i32_child : as_i32 child_id = child_id.
Proof using child_id_range.
  unfold as_i32. rewrite Z.mod_small by lia. by destruct (Z.ltb_spec child_id 2147483648); [|lia].
Qed.

Lemma exec_main q a k runs s r s' : exec a runs s = Some (r, s') →
  os_ok s → at_main q s (Act a k) → at_main q s' (k r).
Proof using child_id_range.
  intros He Hok Hm. remember (Act a k) as m eqn:Em.
  destruct Hm; unfold UpdateGuard.main_thread, UpdateGuard.drop_guard in Em; simplify_eq; cbn in He;
    rewrite ?as_i32_child, ?Z.eqb_refl in He.
  all: destruct runs; cbn in He; repeat (case_match; simplify_eq/=).
  all: try (injection He as <- <-; unfold UpdateGuard.after_probe).
  all: try (constructor; clear Hok; guard_step).
  all: destruct Hok as (_ & Hw & _ & Hr).
  - constructor; auto.
  - constructor; auto.
  - constructor; [done|]. right. cbn. destruct (recycled s); naive_solver.
Qed.

Lemma exec_watcher a k runs s r s' : exec a runs s = Some (r, s') → os_ok s →
  flock_child_pid s = child_id ∨ (flock_child_pid s = 0%Z ∧ clean s) →
  at_watcher s (Act a k) → at_watcher s' (k r).
Proof using child_id_range.
  intros He Hok Hc Hw. remember (Act a k) as m eqn:Em.
  destruct Hw; unfold watcher_thread in Em; simplify_eq; cbn in He; rewrite ?Z.eqb_refl in He.
  - injection He as <- <-. constructor.
  - injection He as <- <-. cbn. destruct Hc as [->|[-> Hc]]; [|by constructor].
    destruct (Z.ltb_spec 0 child_id); [constructor|lia].
  - destruct Hok as (_ & _ & _ & Hr).
    destruct runs; cbn in He; repeat (case_match; simplify_eq/=); apply at_reraise;
      [by right| |injection He as _ <-; by left].
    right. cbn. destruct (recycled s); naive_solver.
  - injection He as <- <-. by constructor.
Qed.

(** Signals, and the end of the process, change nothing else. *)
Lemma gone_main q s m : at_main q s m → at_main q (gone s) m.
Proof. by destruct 1; constructor. Qed.

Lemma gone_watcher s p : at_watcher s p → at_watcher (gone s) p.
Proof. by destruct 1; constructor. Qed.

Lemma main_heard q s m : at_main q s m → at_main false s m.
Proof. by destruct 1; constructor. Qed.

Lemma step_main_inv s a k w runs r s' : hbird_up s = true → exec a runs s = Some (r, s') →
  inv (Sys s (Act a k) w) → inv (Sys s' (k r) w).
Proof using child_id_range.
  intros Hup He [Hok Hm Hw Hg]; cbn in *.
  destruct (main_acts _ _ _ _ Hm) as [Hre Hsp].
  destruct (exec_frame _ _ _ _ _ He Hsp) as (Hh' & Hc' & Hu').
  split; cbn; [by eapply exec_os|by eapply exec_main| |].
  - intros p Hp. destruct (Hw p Hp) as [Hh Hat].
    destruct (at_main_handled _ _ _ Hm Hh) as [Hset _]. split; [by apply Hh'|].
    destruct Hat; constructor; [naive_solver|congruence].
  - intros Hf. rewrite Hu' in Hf by done. congruence.
Qed.

Lemma step_watcher_inv s m a k runs r s' : exec a runs s = Some (r, s') →
  inv (Sys s m (Some (Act a k))) → inv (Sys s' m (Some (k r))).
Proof using child_id_range.
  intros He [Hok Hm Hw Hg]; cbn in *.
  destruct (Hw _ eq_refl) as [Hh Hat]. pose proof (at_watcher_acts _ _ _ Hat) as Ha.
  destruct (at_main_handled _ _ _ Hm Hh) as [Hset Hc].
  assert (Hsp : a = Spawn_flock → flock s = Not_started) by naive_solver.
  destruct (exec_frame _ _ _ _ _ He Hsp) as (Hh' & Hc' & Hu').
  split; cbn; [by eapply exec_os|by eapply exec_watcher_main| |].
  - intros p [= <-]. split; [by apply Hh'|by eapply exec_watcher].
  - intros Hf _. apply Hc'; [|done]. destruct (decide (a = Reraise)) as [->|Hne].
    + clear -Hat. remember (Act Reraise k) as p. destruct Hat; unfold watcher_thread in *; naive_solver.
    + rewrite Hu' in Hf by done. auto.
Qed.

Lemma step_inv x y : step x y → inv x → inv y.
Proof using child_id_range.
  destruct 1 as [s a k w runs r s' Hup He|s m a k runs r s' Hup He|s m w s' Hk|s m Hup Hh|
                 s m w Hup Hh|s o w Hup].
  - by eapply step_main_inv.
  - by eapply step_watcher_inv.
  - by eapply kernel_inv.
  - intros [Hok Hm Hw Hg]; cbn in *. split; cbn; [done|by eapply main_heard| |done].
    intros p [= <-]. split; [done|constructor].
  - intros [Hok Hm Hw Hg]; cbn in *. split; cbn; [done|by apply gone_main| |congruence].
    intros p Hp. destruct (Hw p Hp). congruence.
  - intros [Hok Hm Hw Hg]; cbn in *. split; cbn; [done|by apply gone_main| |].
    + intros p Hp. destruct (Hw p Hp). split; [done|by apply gone_watcher].
    + intros _ Hh. inversion Hm; unfold early in *; naive_solver.
Qed.

Lemma reachable_inv x : reachable x → inv x.
Proof using child_id_range.
  intros (x0 & H0 & Hs). apply inv_initial in H0. induction Hs; eauto using step_inv.
Qed.

(** Until a signal comes, the lock is ours while the body of the run executes. *)
Lemma working_holds x : reachable x →
  main x = Work ▸ drop_guard → watcher x = None → lock (host x) = Some Ours.
Proof using child_id_range.
  intros Hr Hwork Hq. destruct (reachable_inv _ Hr) as [(Hl & _) Hm _ _].
  rewrite Hwork, Hq in Hm. apply Hl. by apply at_work_inv in Hm.
Qed.


(** The main thread never waits for ever: its next action is enabled, unless the
    child still has to try the lock, which it can always do. *)
Theorem main_never_stuck x a k : reachable x → main x = Act a k →
  (∃ r s', exec a true (host x) = Some (r, s')) ∨
  (a = Settle ∧ flock (host x) = Starting ∧ ∃ s', kernel (host x) s').
Proof using child_id_range.
  intros Hr Hm. destruct (reachable_inv _ Hr) as [_ Hat _ _]. rewrite Hm in Hat.
  destruct (decide (a = Settle)) as [->|Hs].
  - cbn. destruct (flock (host x)) eqn:Hf; eauto. right. split_and!; [done..|].
    destruct (lock (host x)) eqn:Hl; eauto using child_locks, child_contends.
  - left. destruct (decide (a = Wait_child)) as [->|Hw].
    + destruct (at_wait_inv _ _ _ Hat) as [[Hn Hst] Hw]. cbn.
      destruct (flock (host x)); [done..| |]; eauto.
    + destruct a; cbn; try done; repeat case_match; eauto.
Qed.

(** Once the guard was dropped, a signal sends SIGTERM to nobody. *)
Definition after_drop (hit : bool) (x : sys) : Prop :=
  main x = Done Finished ∧ flock_child_pid (host x) = 0%Z ∧ stranger_hit (host x) = hit ∧
  (watcher x = None ∨ watcher x = Some watcher_thread ∨ watcher x = Some (Act Load_pid after_load) ∨
   watcher x = Some (Reraise ▸ Done Finished) ∨ watcher x = Some (Done Finished)).

Lemma after_drop_step hit x y : step x y → after_drop hit x → after_drop hit y.
Proof.
  clear child_id_range. unfold after_drop. destruct 1 as [|s m a k runs r s' Hup He|s m w s' Hk| | |]; cbn.
  - by intros (? & _).
  - intros (-> & Hc & Hh & [|[[= -> ->]|[[= -> ->]|[[= -> ->]|]]]]); [done|..|done];
      cbn in He; injection He as <- <-; cbn; rewrite ?Hc; naive_solver.
  - intros (-> & Hc & Hh & Hw). by destruct Hk.
  - naive_solver.
  - naive_solver.
  - naive_solver.
Qed.

Theorem signal_after_return_harmless x y : reachable x →
  main x = Done Finished → watcher x = None → rtc step x y → stranger_hit (host y) = stranger_hit (host x).
Proof using child_id_range.
  intros Hr Hm Hw Hxy. destruct (reachable_inv _ Hr) as [_ Hat _ _]. rewrite Hm in Hat.
  destruct (at_done_inv _ _ Hat) as [_ Hc].
  assert (Hx : after_drop (stranger_hit (host x)) x) by (unfold after_drop; auto).
  clear Hr Hm Hw Hat Hc. revert Hx. generalize (stranger_hit (host x)) as hit.
  induction Hxy as [x|x z y Hz _ IH]; intros hit Hx; [by destruct Hx as (_ & _ & ? & _)|].
  eauto using after_drop_step.
Qed.

End facts.

(** ** The same function with its messages *)

Definition child_answer (child : option (ExitStatus * string)) : answer :=
  match child with Some (st, _) => Status (code st) | None => Running end.
Definition probe_answer (probe : result io_error RunOutput) : answer :=
  match probe with Ok p => Status (code (status p)) | Err _ => Failed end.

(** [acquire_lock] of UpdateLock.v and the thread agree on what becomes of the
    answers of the two [flock]s: the guard is returned exactly where the thread
    goes on to store the id, and contention is reported where it ends so. *)
Theorem acquire_lock_agrees `{LockHost} child_id dir child
    (Hdir : lock_dir = Ok dir) (Hopen : open_lock_file (lock_file dir) = Ok tt)
    (Hchild : flock_child (lock_file dir) = Ok child) :
  match after_settle child_id (probe_answer (flock_probe (lock_file dir))) (child_answer child) with
  | Act (Store_pid _) _ => acquire_lock false = Ok (Some (lock_file dir))
  | Done In_progress => acquire_lock false =
      Err (anyhow_msg ("another update-cluster run is in progress (lock " +:+ lock_file dir +:+ " held)"))
  | Done _ | Act Kill_child _ => is_ok (acquire_lock false) = false
  | _ => False
  end.
Proof.
  unfold acquire_lock. rewrite Hdir. cbv zeta. cbn [mbind result_bind].
  rewrite Hopen. cbn [map_err mbind result_bind]. rewrite Hchild. cbn [map_err mbind result_bind].
  unfold after_settle, child_answer, probe_answer.
  destruct child as [[st err]|].
  - rewrite (bool_decide_decide (code st = Some 1%Z)). by destruct (decide (code st = Some 1%Z)).
  - destruct (flock_probe (lock_file dir)) as [p|e]; [|done].
    destruct (code (status p)) as [[|[]|]|]; done.
Qed.

(** ** Computed runs *)

Definition child : Z := 4242.

Ltac by_main r := eapply rtc_l; [eapply (step_main _ _ _ _ _ r); [reflexivity|reflexivity]|cbn].
Ltac by_watcher r := eapply rtc_l; [eapply (step_watcher _ _ _ _ _ r); [reflexivity|reflexivity]|cbn].
Ltac by_kernel c := eapply rtc_l; [eapply step_kernel; eapply c; reflexivity|cbn].
Ltac by_signal := eapply rtc_l; [first [eapply step_signal; reflexivity
                                       |eapply step_signal_default; reflexivity]|cbn].

Definition working : sys :=
  Sys (Os true Waiting true (Some Ours) child false true false false false)
    (Work ▸ drop_guard child) None.

Lemma reaches_work : reachable child working.
Proof.
  eexists; split; [apply initial_free|].
  by_main true. by_kernel child_locks. by_main true. by_main true. by_main true. by_main true.
  by_main true. by_main true. apply rtc_refl.
Qed.

(** A signal during the run: the watcher kills the group, and the process ends. *)
Definition interrupted : sys :=
  Sys (Os false (Exited None) false None child true true false false false)
    (Work ▸ drop_guard child) (Some (Done Finished)).

Lemma reaches_interrupted : reachable child interrupted.
Proof.
  destruct reaches_work as (x0 & H0 & Hr). exists x0. split; [done|]. etrans; [exact Hr|].
  by_signal. by_watcher true. by_watcher true. by_watcher true. by_watcher true. apply rtc_refl.
Qed.


(** The window before the handler: the guard's child is running and holds the
    lock (the settle loop waits two seconds for that), and a signal that comes
    then ends [hbird] and leaves the child's group, which is not the terminal's. *)
Theorem orphan_before_handler : ∃ x, reachable child x ∧
  hbird_up (host x) = false ∧ shell_up (host x) = true ∧ lock (host x) = Some Ours.
Proof.
  eexists. split; [eexists; split; [apply initial_free|]|].
  - by_main true. by_kernel child_locks. by_main true. by_main true. by_signal. apply rtc_refl.
  - done.
Qed.

(** The probe tries the lock before the child does, and succeeds: the run is
    refused, and the shell of the child, which got the lock later, keeps it. *)
Theorem orphan_after_probe : ∃ x, reachable child x ∧
  main x = Done Probe_failed ∧ shell_up (host x) = true ∧ lock (host x) = Some Ours.
Proof.
  eexists. split; [eexists; split; [apply initial_free|]|].
  - by_main true. by_main true. by_main true. by_kernel child_locks. by_main true. by_main true.
    by_main true. by_main true. apply rtc_refl.
  - done.
Qed.

(** The child tries the lock while the probe has it: the run is refused as if
    another run were in progress, and there is none. *)
Theorem refused_by_own_probe : ∃ x, reachable child x ∧
  main x = Done In_progress ∧ lock (host x) = None.
Proof.
  eexists. split; [eexists; split; [apply initial_free|]|].
  - by_main true. by_main true. by_kernel child_contends. by_main true. by_main true. by_main true.
    apply rtc_refl.
  - done.
Qed.

(** Between [wait] and the reset of the stored id, a signal sends SIGTERM to
    whatever group has the id by then. *)
Theorem stale_id_window : ∃ x, reachable child x ∧ stranger_hit (host x) = true.
Proof.
  destruct reaches_work as (x0 & H0 & Hr).
  eexists. split; [exists x0; split; [done|]; etrans; [exact Hr|]|].
  - by_main true. by_main true. by_main true. by_main true. by_kernel id_recycled. by_signal.
    by_watcher true. by_watcher true. by_watcher true. apply rtc_refl.
  - done.
Qed.
