(* ===== verification/UpdateExclusion.v ===== *)
(** * hbird update-cluster: two runs do not work at the same time

    Any number of runs on the same lock file.  Each is a system of UpdateGuard.v;
    the file has one owner, of which each run sees whether it is its own child,
    its own probe, or somebody else.  The steps of a run are its own steps of
    UpdateGuard.v; other holders of the file that are not runs are allowed too.
    Seen from one run the others are what UpdateGuard.v calls [Other]
    ([run_reachable]), so its invariant holds in every run. *)

From S2P Require Import Prelude UpdateGuard UpdateGuardFacts.

(** The owner of the lock: the child or the probe of a run, or a third party. *)
Inductive owner : Type :=
| Run (i : nat) (probe : bool)
| Third.

Definition view (i : nat) (o : option owner) : option holder :=
  match o with
  | None => None
  | Some (Run j probe) => if decide (j = i) then Some (if probe then Probe else Ours) else Some Other
  | Some Third => Some Other
  end.

(** The owner after a step of run [i], which sees [h]. *)
Definition owner_after (i : nat) (h : option holder) (o : option owner) : option owner :=
  match h with
  | None => None
  | Some Ours => Some (Run i false)
  | Some Probe => Some (Run i true)
  | Some Other => o
  end.

(** Run [i] with the lock as it sees it. *)
Definition seen (i : nat) (o : option owner) (x : sys) : sys :=
  Sys (set_lock (view i o) (host x)) (main x) (watcher x).

Section exclusion.
(** The ids of the [flock] children. *)
Context (ids : nat → Z) (ids_range : ∀ i, (0 < ids i < 2147483648)%Z).

Definition runs : Type := option owner * list sys.

Inductive runs_step : runs → runs → Prop :=
| run_steps o l i x y : l !! i = Some x → step (ids i) (seen i o x) y →
    (** a run's own step neither makes nor ends the hold of another *)
    (lock (host y) = Some Other ↔ view i o = Some Other) →
    runs_step (o, l) (owner_after i (lock (host y)) o, <[i := y]> l)
| third_locks l : runs_step (None, l) (Some Third, l)
| third_unlocks l : runs_step (Some Third, l) (None, l).

(** [n] runs that have not begun. *)
Inductive runs_initial : runs → Prop :=
| runs_idle l : (∀ i x, l !! i = Some x → x = Sys (idle None) (main_thread (ids i)) None) →
    runs_initial (None, l).

Definition runs_reachable (g : runs) : Prop := ∃ g0, runs_initial g0 ∧ rtc runs_step g0 g.

(** ** One run among the others *)

Lemma seen_id i o x : lock (host x) = view i o → seen i o x = x.
Proof. destruct x as [[] m w]. cbn. by intros ->. Qed.

Lemma seen_seen i o o' x : seen i o' (seen i o x) = seen i o' x.
Proof. done. Qed.

(** When the owner changes by somebody else's step, a run sees at most somebody
    lock or unlock the file. *)
Lemma other_seen i o o' x :
  (view i o = view i o') ∨ (o = None ∧ view i o' = Some Other) ∨ (view i o = Some Other ∧ o' = None) →
  reachable (ids i) (seen i o x) → reachable (ids i) (seen i o' x).
Proof.
  intros Hv (x0 & H0 & Hr). exists x0. split; [done|]. etrans; [exact Hr|].
  destruct Hv as [Hv|[[-> Hv]|[Hv ->]]]; unfold seen.
  - by rewrite Hv.
  - rewrite Hv. apply rtc_once, step_kernel. by apply (other_locks (set_lock None (host x))).
  - rewrite Hv. apply rtc_once, step_kernel. by apply (other_unlocks (set_lock (Some Other) (host x))).
Qed.

Lemma owner_after_view i h o : (h = Some Other ↔ view i o = Some Other) →
  view i (owner_after i h o) = h.
Proof.
  destruct h as [[]|]; cbn; rewrite ?decide_True by done; try done. by intros [H _]; apply H.
Qed.

Lemma owner_after_other i j h o : i ≠ j → (h = Some Other ↔ view i o = Some Other) →
  view j o = view j (owner_after i h o) ∨
  (o = None ∧ view j (owner_after i h o) = Some Other) ∨
  (view j o = Some Other ∧ owner_after i h o = None).
Proof.
  intros Hij Hv. destruct (decide (h = Some Other)) as [->|Hh]; [by left|].
  assert (Ho : o = None ∨ ∃ b, o = Some (Run i b)).
  { destruct o as [[k b|]|]; [|tauto|by left]. right. exists b. cbn in Hv.
    destruct (decide (k = i)) as [->|]; [done|tauto]. }
  destruct h as [[]|], Ho as [->|[b ->]]; cbn; rewrite ?(decide_False (P := i = j)) by done; tauto.
Qed.

(** Every run, as it sees the lock, is a run of UpdateGuard.v. *)
Lemma step_seen g g' i x : runs_step g g' → g'.2 !! i = Some x →
  (∀ x0, g.2 !! i = Some x0 → reachable (ids i) (seen i g.1 x0)) → reachable (ids i) (seen i g'.1 x).
Proof.
  destruct 1 as [o l j y z Hj Hs Hv|l|l]; cbn; intros Hi IH.
  - destruct (decide (j = i)) as [->|Hne].
    + rewrite list_lookup_insert_eq in Hi by (by eapply lookup_lt_Some). injection Hi as ->.
      rewrite seen_id by (by rewrite owner_after_view).
      destruct (IH y Hj) as (x0 & H0 & Hr). exists x0. split; [done|]. by eapply rtc_r.
    + rewrite list_lookup_insert_ne in Hi by done.
      eapply other_seen; [|by apply IH]. by apply owner_after_other.
  - apply (other_seen _ None); [|by apply IH]. by right; left.
  - apply (other_seen _ (Some Third)); [|by apply IH]. by right; right.
Qed.

Lemma run_reachable g i x :
  runs_reachable g → g.2 !! i = Some x → reachable (ids i) (seen i g.1 x).
Proof.
  intros (g0 & H0 & Hr). revert x.
  assert (Hall : ∀ x, g0.2 !! i = Some x → reachable (ids i) (seen i g0.1 x)).
  { intros x Hi. destruct H0 as [l Hl]. cbn in *. rewrite (Hl _ _ Hi).
    eexists. split; [|apply rtc_refl]. apply initial_free. }
  clear H0. induction Hr as [g|g0 g1 g Hg Hr IH]; [done|].
  apply IH. intros x Hi. by eapply step_seen.
Qed.
End exclusion.

(** C9: two runs of update-cluster on the same lock file do not update nodes at the
    same time: however any number of runs, their signal handlers, the probes and
    other holders of the file interleave, two runs that both execute their body,
    and of which none has received a signal, are the same run. *)
Theorem one_run_works (ids : nat → Z) g i j x y :
  (∀ i, (0 < ids i < 2147483648)%Z) → runs_reachable ids g →
  g.2 !! i = Some x → main x = Work ▸ drop_guard (ids i) → watcher x = None →
  g.2 !! j = Some y → main y = Work ▸ drop_guard (ids j) → watcher y = None →
  i = j.
Proof.
  intros Hids Hg Hi Hwi Hqi Hj Hwj Hqj.
  pose proof (working_holds _ (Hids i) _ (run_reachable _ _ _ _ Hg Hi) Hwi Hqi) as H1.
  pose proof (working_holds _ (Hids j) _ (run_reachable _ _ _ _ Hg Hj) Hwj Hqj) as H2.
  cbn in H1, H2. destruct g.1 as [[k b|]|]; cbn in H1, H2; [|done..].
  destruct (decide (k = i)), (decide (k = j)); congruence.
Qed.

(** Two runs: the first works, the second has been refused. *)
Definition two_ids (i : nat) : Z := match i with O => 4242%Z | _ => 4243%Z end.
Definition begun (i : nat) : sys := Sys (idle None) (main_thread (two_ids i)) None.
Definition first : sys :=
  Sys (Os true Waiting true (Some Ours) 4242 false true false false false)
    (Work ▸ drop_guard (two_ids 0)) None.
Definition second : sys :=
  Sys (Os true (Reaped (Some 1%Z)) false (Some Other) 0 false false false false false)
    (Done In_progress) None.
Definition two_runs : runs := (Some (Run 0 false), [first; second]).

Ltac by_step i s :=
  eapply rtc_l; [eapply (run_steps _ _ _ i); [reflexivity|s|vm_compute; split; congruence]|vm_compute].
Ltac main_of i := by_step i ltac:(eapply (step_main _ _ _ _ _ true); reflexivity).
Ltac kernel_of i c := by_step i ltac:(eapply step_kernel; eapply c; reflexivity).

Lemma reaches_two_runs : runs_reachable two_ids two_runs.
Proof.
  exists (None, [begun 0; begun 1]). split.
  { constructor. intros [|[|i]] x; by intros [= <-]. }
  main_of 0%nat. kernel_of 0%nat child_locks. do 6 main_of 0%nat.
  main_of 1%nat. kernel_of 1%nat child_contends.
  do 4 main_of 1%nat. apply rtc_refl.
Qed.

Lemma one_run_works_witness :
  runs_reachable two_ids two_runs ∧ main second = Done In_progress ∧ 0%nat = 0%nat.
Proof.
  split; [apply reaches_two_runs|]. split; [reflexivity|].
  apply (one_run_works two_ids two_runs 0 0 first first); try reflexivity; [|apply reaches_two_runs].
  intros [|i]; split; reflexivity.
Defined.
