(* ===== verification/UpdateRun.v ===== *)
(** * hbird update-cluster: the batches and [run]

    [Results], [run_one_worker], [run_worker_batch] and [run] of
    [crates/hbird-cli/src/commands/update_cluster.rs]. *)

From S2P Require Import Prelude RustStr ConfigTypes ConfigLexer ConfigBuild SshOptions SshClient.
From S2P Require Import Effects Cp UpdatePlan UpdateNode UpdateGates UpdateFlow UpdateLock.

Record Results : Set := mkResults { succeeded : list string; failed : list string }.
#[export] Instance Results_eq_dec : EqDecision Results.
Proof. solve_decision. Defined.

Definition push_ok (w : string) (r : Results) : Results := mkResults (succeeded r ++ [w]) (failed r).
Definition push_failed (entry : string) (r : Results) : Results :=
  mkResults (succeeded r) (failed r ++ [entry]).

Section run.
Context `{W : World}.

Definition no_ip_msg (w : string) : string :=
  "internal: no IP recorded for worker " +:+ w +:+ "; Plan::from_args invariant broken".

Definition run_one_worker (plan : Plan) (pfx w : string) (results : Results)
    : IO anyhow Results :=
  ip ← of_result (ok_or (anyhow_msg (no_ip_msg w)) (worker_ip_map plan !! w));
  let k8s_name := default w (worker_k8s_name_map plan !! w) in
  r ← try (update_worker plan pfx w ip k8s_name);
  match r with
  | Ok _ => mret (push_ok w results)
  | Err e =>
      if continue_on_error plan then
        let reason := show_anyhow e in
        _ ← log pfx ("  ERROR on " +:+ w +:+ ": " +:+ reason
                     +:+ " — continuing (--continue-on-error)");
        _ ← (try (timer_start plan pfx ip) : IO anyhow (result anyhow unit));
        mret (push_failed (w +:+ ": " +:+ reason) results)
      else throw e
  end.

(** [for w in batch { run_one_worker(..)?; }] with the prefix of each. *)
Fixpoint run_workers (plan : Plan) (prefix : string → string) (batch : list string)
    (results : Results) : IO anyhow Results :=
  match batch with
  | [] => mret results
  | w :: batch' =>
      results ← run_one_worker plan (prefix w) w results;
      run_workers plan prefix batch' results
  end.

Definition parallel_prefix (w : string) : string := "[parallel:" +:+ w +:+ "] ".
Definition parallel_warning : string :=
  "WARN: parallel batch live mode is processed serially in this Rust scaffold; "
  +:+ "bash twin forks here. Real concurrency lands in the live-execution slice.".

Definition run_worker_batch (plan : Plan) (batch : list string) (results : Results)
    : IO anyhow Results :=
  match batch with
  | [] => mret results
  | _ =>
      if (parallel plan =? 1)%N || (length batch =? 1)%nat
      then run_workers plan (λ _, "") batch results
      else
        _ ← log "" ("PARALLEL batch (" +:+ show_nat (length batch) +:+ "): " +:+ join " " batch);
        _ ← (if negb (dry_run plan) then log_err "" parallel_warning else mret tt);
        run_workers plan parallel_prefix batch results
  end.

(** [while i < total]: [rest] is [workers_to_run\[i..\]]; the fuel is its
    length, and each round takes at least one worker. *)
Definition pause_between (plan : Plan) (rest : list string) : IO anyhow unit :=
  let s := inter_node_sleep (timeouts plan) in
  match rest with
  | [] => mret tt
  | _ =>
      if (0 <? s)%N then
        _ ← log "" ("pausing " +:+ s_of s +:+ " before next node");
        (if negb (dry_run plan) then lift (sleep (from_secs s)) else mret tt)
      else mret tt
  end.

Fixpoint walk (fuel : nat) (plan : Plan) (rest : list string) (results : Results)
    : IO anyhow Results :=
  match fuel with
  | O => mret results
  | S fuel =>
      match rest with
      | [] => mret results
      | _ =>
          let n := N.to_nat (parallel plan) in
          results ← run_worker_batch plan (take n rest) results;
          _ ← pause_between plan (drop n rest);
          walk fuel plan (drop n rest) results
      end
  end.

(** ** [run] *)

Definition log0 : string → IO anyhow unit := log "".

Definition log_resolved (plan : Plan) (w : string) : IO anyhow unit :=
  let k := default w (worker_k8s_name_map plan !! w) in
  if negb (bool_decide (k = w))
  then log0 ("  resolved libvirt domain " +:+ w +:+ " -> k8s node " +:+ k) else mret tt.

(** The summary of the plan. *)
Definition log_plan (plan : Plan) : IO anyhow unit :=
  let t := timeouts plan in
  _ ← log0 ("config: " +:+ config_path plan);
  _ ← log0 ("CP=" +:+ plan_cp_name plan +:+ " (" +:+ plan_cp_ip plan +:+ ") k8s-node="
            +:+ cp_k8s_name plan +:+ ", workers=(" +:+ join " " (plan_worker_names plan) +:+ ")");
  _ ← for_each (log_resolved plan) (plan_worker_names plan);
  _ ← log0 ("flags: workers-only=" +:+ b (workers_only plan) +:+ " skip-drain="
            +:+ b (skip_drain plan) +:+ " skip-gates=" +:+ b (skip_gates plan) +:+ " dry-run="
            +:+ b (dry_run plan));
  _ ← log0 ("       node-filter=" +:+ default "<none>" (node_filter plan) +:+ " start-from="
            +:+ default "<none>" (start_from plan));
  _ ← log0 ("       continue-on-error=" +:+ b (continue_on_error plan)
            +:+ " no-delete-emptydir-data=" +:+ b (no_delete_emptydir_data plan) +:+ " parallel="
            +:+ show_N (parallel plan));
  _ ← log0 ("timeouts: drain=" +:+ drain t +:+ " ready=" +:+ s_of (ready t) +:+ " daemonset="
            +:+ s_of (daemonset t) +:+ " apiserver=" +:+ s_of (apiserver t) +:+ " ssh="
            +:+ s_of (ssh_timeout t) +:+ " ssh-drop=" +:+ s_of (ssh_drop t)
            +:+ " inter-node-sleep=" +:+ s_of (inter_node_sleep t));
  _ ← log0 ("per-node worst-case budget: drain " +:+ drain t +:+ " + ssh-back "
            +:+ s_of (ssh_timeout t) +:+ " + bootID " +:+ s_of (ready t) +:+ " + ready "
            +:+ s_of (ready t) +:+ " + daemonsets " +:+ s_of (daemonset t));
  match start_from plan with
  | Some sf => log0 ("--start-from=" +:+ sf +:+ ": resuming with workers=("
                     +:+ join " " (workers_to_run plan) +:+ ")")
  | None => mret tt
  end.

(** [--node]: one node. *)
Definition run_single (plan : Plan) (node : string) : IO anyhow Results :=
  if bool_decide (node = plan_cp_name plan) then
    _ ← update_cp plan "";
    mret (push_ok (plan_cp_name plan) (mkResults [] []))
  else if bool_decide (node ∈ plan_worker_names plan) then
    run_one_worker plan "" node (mkResults [] [])
  else bail ("--node=" +:+ node +:+ " did not match CP_NAME or any WORKER_NAMES entry").

(** The control plane, unless it is skipped. *)
Definition run_cp (plan : Plan) : IO anyhow Results :=
  if negb (workers_only plan) then
    match start_from plan with
    | Some sf =>
        _ ← log0 ("--start-from set: skipping CP (resume mode starts at worker '" +:+ sf +:+ "')");
        mret (mkResults [] [])
    | None =>
        _ ← update_cp plan "";
        mret (push_ok (plan_cp_name plan) (mkResults [] []))
    end
  else
    _ ← log0 "--workers-only: skipping CP"; mret (mkResults [] []).

Definition run_nodes (plan : Plan) : IO anyhow Results :=
  match node_filter plan with
  | Some node => run_single plan node
  | None =>
      results ← run_cp plan;
      walk (length (workers_to_run plan)) plan (workers_to_run plan) results
  end.

Definition partial_failure : string := "UPDATE_CLUSTER_PARTIAL_FAILURE".

(** The footer and the result of the whole run. *)
Definition summary (results : Results) : IO anyhow unit :=
  _ ← log0 rule_line;
  _ ← log0 "Rolling update complete.";
  _ ← log0 ("  succeeded (" +:+ show_nat (length (succeeded results)) +:+ "): "
            +:+ match succeeded results with [] => "<none>" | l => join " " l end);
  _ ← match failed results with
      | [] => mret tt
      | l =>
          _ ← log0 ("  FAILED (" +:+ show_nat (length l) +:+ "):");
          for_each (λ entry, log0 ("    - " +:+ entry)) l
      end;
  _ ← log0 rule_line;
  match failed results with
  | [] => mret tt
  | _ => bail partial_failure
  end.

(** Everything after the lock. *)
Definition run_plan (plan : Plan) : IO anyhow unit :=
  _ ← log_plan plan;
  results ← run_nodes plan;
  summary results.

Definition run `{LockHost} (args : UpdateClusterArgs) : IO anyhow unit :=
  config ← parse_config (ua_config args);
  timeouts ← of_result (from_env env_var);
  plan ← from_args args config timeouts;
  _ ← of_result (acquire_lock (dry_run plan));
  run_plan plan.
End run.
