(* ===== verification/UpdateFixtures.v ===== *)
(** * hbird update-cluster: the recorded dry runs

    The transcripts that [crates/hbird-cli/tests/update_cluster/fixtures]
    pins for [hbird update-cluster --dry-run], computed from the model. *)

From S2P Require Import Prelude RustStr ConfigTypes SshOptions SshClient Effects Cp UpdatePlan.
From S2P Require Import UpdateNode UpdateGates UpdateFlow UpdateLock UpdateRun.

(** The cluster of the fixtures, in an environment that sets nothing. *)
Definition fixture_config : string :=
  "CP_NAME=hbird-cp1" +:+ NL +:+ "SSH_PUBKEY_FILE=/k" +:+ NL
  +:+ "WORKER_NAMES=(hbird-w1 hbird-w2)" +:+ NL.

Definition fixture_host : LockHost := {|
  env_var _ := None; id_u := None; is_dir _ := false; exists_path _ := false;
  create_dir _ := Ok tt; open_lock_file _ := Ok tt; flock_child _ := Ok None;
  flock_probe _ := Ok (mkRunOutput (Exited 1) "" "")
|}.

(** The arguments of the fixtures: [--dry-run] and what varies. *)
Definition fixture_args (skip_gates : bool) (start_from : option string) (parallel : option N)
    (overrides : list string) : UpdateClusterArgs :=
  mkUpdateClusterArgs "cluster.local.conf" None false false false skip_gates true false false
    None start_from parallel overrides.

(** The lines printed to standard output, when nothing else was done. *)
Definition printed (es : history) : option (list string) :=
  mapM (λ e, match e with EvOut l => Some l | _ => None end) es.

Definition dry_run_of (args : UpdateClusterArgs) : result anyhow unit * option (list string) :=
  let '(r, es) := @run (calm_world fixture_config) fixture_host args [] in (r, printed es).

(** [fixtures/dry_run_parallel2.txt] *)
Definition parallel2_lines : list string := [
  "[update-cluster] config: cluster.local.conf";
  "[update-cluster] CP=hbird-cp1 (<resolved-at-runtime>) k8s-node=hbird-cp1, workers=(hbird-w1 hbird-w2)";
  "[update-cluster] flags: workers-only=0 skip-drain=0 skip-gates=0 dry-run=1";
  "[update-cluster]        node-filter=<none> start-from=<none>";
  "[update-cluster]        continue-on-error=0 no-delete-emptydir-data=0 parallel=2";
  "[update-cluster] timeouts: drain=5m ready=300s daemonset=300s apiserver=300s ssh=300s ssh-drop=30s inter-node-sleep=5s";
  "[update-cluster] per-node worst-case budget: drain 5m + ssh-back 300s + bootID 300s + ready 300s + daemonsets 300s";
  "[update-cluster] ============================================================";
  "[update-cluster] CP: hbird-cp1 (<resolved-at-runtime>)";
  "[update-cluster]   single-CP topology: skipping drain (no peers to evict to)";
  "[update-cluster]   apiserver will be unavailable for ~60-120s during reboot";
  "[update-cluster] ============================================================";
  "[update-cluster] DRY-RUN ssh root@<resolved-at-runtime> systemctl stop bootc-semver-update.timer bootc-fetch-apply-updates.timer";
  "[update-cluster] DRY-RUN would capture pre-reboot bootID for hbird-cp1";
  "[update-cluster]   pre-reboot bootID: <dry-run...";
  "[update-cluster] ssh root@<resolved-at-runtime> bootc upgrade --apply  (auto-reboots; digest pre/post compared)";
  "[update-cluster] DRY-RUN ssh root@<resolved-at-runtime> bootc upgrade --apply (with pre/post digest compare)";
  "[update-cluster] DRY-RUN wait_ssh_drop <resolved-at-runtime> (would poll up to 30s)";
  "[update-cluster] waiting for SSH to come back on <resolved-at-runtime> (timeout 300s)";
  "[update-cluster] DRY-RUN would poll ssh root@<resolved-at-runtime>";
  "[update-cluster] waiting for apiserver on CP (<resolved-at-runtime>) to answer (timeout 300s)";
  "[update-cluster] DRY-RUN would poll apiserver via ssh root@<resolved-at-runtime> kubectl get nodes";
  "[update-cluster] waiting for node hbird-cp1 bootID to change from pre-reboot value (timeout 300s)";
  "[update-cluster] DRY-RUN would poll bootID for hbird-cp1";
  "[update-cluster] waiting for node hbird-cp1 to report Ready (timeout 300s)";
  "[update-cluster] DRY-RUN would poll kubectl get node hbird-cp1";
  "[update-cluster] waiting for kube-system DaemonSet pods on hbird-cp1 to be Ready (timeout 300s)";
  "[update-cluster] DRY-RUN would poll kube-system pods on hbird-cp1 for Ready";
  "[update-cluster] DRY-RUN ssh root@<resolved-at-runtime> systemctl start bootc-semver-update.timer";
  "[update-cluster] CP hbird-cp1 updated and Ready.";
  "[update-cluster] PARALLEL batch (2): hbird-w1 hbird-w2";
  "[parallel:hbird-w1] [update-cluster] ============================================================";
  "[parallel:hbird-w1] [update-cluster] WORKER: hbird-w1 (<resolved-at-runtime>)";
  "[parallel:hbird-w1] [update-cluster] ============================================================";
  "[parallel:hbird-w1] [update-cluster] DRY-RUN ssh root@<resolved-at-runtime> systemctl stop bootc-semver-update.timer bootc-fetch-apply-updates.timer";
  "[parallel:hbird-w1] [update-cluster] kubectl drain hbird-w1 --ignore-daemonsets --timeout=5m --delete-emptydir-data";
  "[parallel:hbird-w1] [update-cluster] DRY-RUN cp_kubectl -- drain hbird-w1 --ignore-daemonsets --timeout=5m --delete-emptydir-data";
  "[parallel:hbird-w1] [update-cluster] DRY-RUN would capture pre-reboot bootID for hbird-w1";
  "[parallel:hbird-w1] [update-cluster]   pre-reboot bootID: <dry-run...";
  "[parallel:hbird-w1] [update-cluster] ssh root@<resolved-at-runtime> bootc upgrade --apply  (auto-reboots; digest pre/post compared)";
  "[parallel:hbird-w1] [update-cluster] DRY-RUN ssh root@<resolved-at-runtime> bootc upgrade --apply (with pre/post digest compare)";
  "[parallel:hbird-w1] [update-cluster] DRY-RUN wait_ssh_drop <resolved-at-runtime> (would poll up to 30s)";
  "[parallel:hbird-w1] [update-cluster] waiting for SSH to come back on <resolved-at-runtime> (timeout 300s)";
  "[parallel:hbird-w1] [update-cluster] DRY-RUN would poll ssh root@<resolved-at-runtime>";
  "[parallel:hbird-w1] [update-cluster] waiting for node hbird-w1 bootID to change from pre-reboot value (timeout 300s)";
  "[parallel:hbird-w1] [update-cluster] DRY-RUN would poll bootID for hbird-w1";
  "[parallel:hbird-w1] [update-cluster] waiting for node hbird-w1 to report Ready (timeout 300s)";
  "[parallel:hbird-w1] [update-cluster] DRY-RUN would poll kubectl get node hbird-w1";
  "[parallel:hbird-w1] [update-cluster] waiting for kube-system DaemonSet pods on hbird-w1 to be Ready (timeout 300s)";
  "[parallel:hbird-w1] [update-cluster] DRY-RUN would poll kube-system pods on hbird-w1 for Ready";
  "[parallel:hbird-w1] [update-cluster] kubectl uncordon hbird-w1";
  "[parallel:hbird-w1] [update-cluster] DRY-RUN cp_kubectl -- uncordon hbird-w1";
  "[parallel:hbird-w1] [update-cluster] DRY-RUN ssh root@<resolved-at-runtime> systemctl start bootc-semver-update.timer";
  "[parallel:hbird-w1] [update-cluster] node hbird-w1 updated";
  "[parallel:hbird-w2] [update-cluster] ============================================================";
  "[parallel:hbird-w2] [update-cluster] WORKER: hbird-w2 (<resolved-at-runtime>)";
  "[parallel:hbird-w2] [update-cluster] ============================================================";
  "[parallel:hbird-w2] [update-cluster] DRY-RUN ssh root@<resolved-at-runtime> systemctl stop bootc-semver-update.timer bootc-fetch-apply-updates.timer";
  "[parallel:hbird-w2] [update-cluster] kubectl drain hbird-w2 --ignore-daemonsets --timeout=5m --delete-emptydir-data";
  "[parallel:hbird-w2] [update-cluster] DRY-RUN cp_kubectl -- drain hbird-w2 --ignore-daemonsets --timeout=5m --delete-emptydir-data";
  "[parallel:hbird-w2] [update-cluster] DRY-RUN would capture pre-reboot bootID for hbird-w2";
  "[parallel:hbird-w2] [update-cluster]   pre-reboot bootID: <dry-run...";
  "[parallel:hbird-w2] [update-cluster] ssh root@<resolved-at-runtime> bootc upgrade --apply  (auto-reboots; digest pre/post compared)";
  "[parallel:hbird-w2] [update-cluster] DRY-RUN ssh root@<resolved-at-runtime> bootc upgrade --apply (with pre/post digest compare)";
  "[parallel:hbird-w2] [update-cluster] DRY-RUN wait_ssh_drop <resolved-at-runtime> (would poll up to 30s)";
  "[parallel:hbird-w2] [update-cluster] waiting for SSH to come back on <resolved-at-runtime> (timeout 300s)";
  "[parallel:hbird-w2] [update-cluster] DRY-RUN would poll ssh root@<resolved-at-runtime>";
  "[parallel:hbird-w2] [update-cluster] waiting for node hbird-w2 bootID to change from pre-reboot value (timeout 300s)";
  "[parallel:hbird-w2] [update-cluster] DRY-RUN would poll bootID for hbird-w2";
  "[parallel:hbird-w2] [update-cluster] waiting for node hbird-w2 to report Ready (timeout 300s)";
  "[parallel:hbird-w2] [update-cluster] DRY-RUN would poll kubectl get node hbird-w2";
  "[parallel:hbird-w2] [update-cluster] waiting for kube-system DaemonSet pods on hbird-w2 to be Ready (timeout 300s)";
  "[parallel:hbird-w2] [update-cluster] DRY-RUN would poll kube-system pods on hbird-w2 for Ready";
  "[parallel:hbird-w2] [update-cluster] kubectl uncordon hbird-w2";
  "[parallel:hbird-w2] [update-cluster] DRY-RUN cp_kubectl -- uncordon hbird-w2";
  "[parallel:hbird-w2] [update-cluster] DRY-RUN ssh root@<resolved-at-runtime> systemctl start bootc-semver-update.timer";
  "[parallel:hbird-w2] [update-cluster] node hbird-w2 updated";
  "[update-cluster] ============================================================";
  "[update-cluster] Rolling update complete.";
  "[update-cluster]   succeeded (3): hbird-cp1 hbird-w1 hbird-w2";
  "[update-cluster] ============================================================"
].

(** [fixtures/dry_run_override.txt] *)
Definition override_lines : list string := [
  "[update-cluster] config: cluster.local.conf";
  "[update-cluster] CP=hbird-cp1 (<resolved-at-runtime>) k8s-node=hbird-cp1, workers=(hbird-w1 hbird-w2)";
  "[update-cluster]   resolved libvirt domain hbird-w1 -> k8s node alt-w1";
  "[update-cluster] flags: workers-only=0 skip-drain=0 skip-gates=0 dry-run=1";
  "[update-cluster]        node-filter=<none> start-from=<none>";
  "[update-cluster]        continue-on-error=0 no-delete-emptydir-data=0 parallel=1";
  "[update-cluster] timeouts: drain=5m ready=300s daemonset=300s apiserver=300s ssh=300s ssh-drop=30s inter-node-sleep=5s";
  "[update-cluster] per-node worst-case budget: drain 5m + ssh-back 300s + bootID 300s + ready 300s + daemonsets 300s";
  "[update-cluster] ============================================================";
  "[update-cluster] CP: hbird-cp1 (<resolved-at-runtime>)";
  "[update-cluster]   single-CP topology: skipping drain (no peers to evict to)";
  "[update-cluster]   apiserver will be unavailable for ~60-120s during reboot";
  "[update-cluster] ============================================================";
  "[update-cluster] DRY-RUN ssh root@<resolved-at-runtime> systemctl stop bootc-semver-update.timer bootc-fetch-apply-updates.timer";
  "[update-cluster] DRY-RUN would capture pre-reboot bootID for hbird-cp1";
  "[update-cluster]   pre-reboot bootID: <dry-run...";
  "[update-cluster] ssh root@<resolved-at-runtime> bootc upgrade --apply  (auto-reboots; digest pre/post compared)";
  "[update-cluster] DRY-RUN ssh root@<resolved-at-runtime> bootc upgrade --apply (with pre/post digest compare)";
  "[update-cluster] DRY-RUN wait_ssh_drop <resolved-at-runtime> (would poll up to 30s)";
  "[update-cluster] waiting for SSH to come back on <resolved-at-runtime> (timeout 300s)";
  "[update-cluster] DRY-RUN would poll ssh root@<resolved-at-runtime>";
  "[update-cluster] waiting for apiserver on CP (<resolved-at-runtime>) to answer (timeout 300s)";
  "[update-cluster] DRY-RUN would poll apiserver via ssh root@<resolved-at-runtime> kubectl get nodes";
  "[update-cluster] waiting for node hbird-cp1 bootID to change from pre-reboot value (timeout 300s)";
  "[update-cluster] DRY-RUN would poll bootID for hbird-cp1";
  "[update-cluster] waiting for node hbird-cp1 to report Ready (timeout 300s)";
  "[update-cluster] DRY-RUN would poll kubectl get node hbird-cp1";
  "[update-cluster] waiting for kube-system DaemonSet pods on hbird-cp1 to be Ready (timeout 300s)";
  "[update-cluster] DRY-RUN would poll kube-system pods on hbird-cp1 for Ready";
  "[update-cluster] DRY-RUN ssh root@<resolved-at-runtime> systemctl start bootc-semver-update.timer";
  "[update-cluster] CP hbird-cp1 updated and Ready.";
  "[update-cluster] ============================================================";
  "[update-cluster] WORKER: hbird-w1 (<resolved-at-runtime>) k8s-node=alt-w1";
  "[update-cluster] ============================================================";
  "[update-cluster] DRY-RUN ssh root@<resolved-at-runtime> systemctl stop bootc-semver-update.timer bootc-fetch-apply-updates.timer";
  "[update-cluster] kubectl drain alt-w1 --ignore-daemonsets --timeout=5m --delete-emptydir-data";
  "[update-cluster] DRY-RUN cp_kubectl -- drain alt-w1 --ignore-daemonsets --timeout=5m --delete-emptydir-data";
  "[update-cluster] DRY-RUN would capture pre-reboot bootID for alt-w1";
  "[update-cluster]   pre-reboot bootID: <dry-run...";
  "[update-cluster] ssh root@<resolved-at-runtime> bootc upgrade --apply  (auto-reboots; digest pre/post compared)";
  "[update-cluster] DRY-RUN ssh root@<resolved-at-runtime> bootc upgrade --apply (with pre/post digest compare)";
  "[update-cluster] DRY-RUN wait_ssh_drop <resolved-at-runtime> (would poll up to 30s)";
  "[update-cluster] waiting for SSH to come back on <resolved-at-runtime> (timeout 300s)";
  "[update-cluster] DRY-RUN would poll ssh root@<resolved-at-runtime>";
  "[update-cluster] waiting for node alt-w1 bootID to change from pre-reboot value (timeout 300s)";
  "[update-cluster] DRY-RUN would poll bootID for alt-w1";
  "[update-cluster] waiting for node alt-w1 to report Ready (timeout 300s)";
  "[update-cluster] DRY-RUN would poll kubectl get node alt-w1";
  "[update-cluster] waiting for kube-system DaemonSet pods on alt-w1 to be Ready (timeout 300s)";
  "[update-cluster] DRY-RUN would poll kube-system pods on alt-w1 for Ready";
  "[update-cluster] kubectl uncordon alt-w1";
  "[update-cluster] DRY-RUN cp_kubectl -- uncordon alt-w1";
  "[update-cluster] DRY-RUN ssh root@<resolved-at-runtime> systemctl start bootc-semver-update.timer";
  "[update-cluster] node hbird-w1 updated";
  "[update-cluster] pausing 5s before next node";
  "[update-cluster] ============================================================";
  "[update-cluster] WORKER: hbird-w2 (<resolved-at-runtime>)";
  "[update-cluster] ============================================================";
  "[update-cluster] DRY-RUN ssh root@<resolved-at-runtime> systemctl stop bootc-semver-update.timer bootc-fetch-apply-updates.timer";
  "[update-cluster] kubectl drain hbird-w2 --ignore-daemonsets --timeout=5m --delete-emptydir-data";
  "[update-cluster] DRY-RUN cp_kubectl -- drain hbird-w2 --ignore-daemonsets --timeout=5m --delete-emptydir-data";
  "[update-cluster] DRY-RUN would capture pre-reboot bootID for hbird-w2";
  "[update-cluster]   pre-reboot bootID: <dry-run...";
  "[update-cluster] ssh root@<resolved-at-runtime> bootc upgrade --apply  (auto-reboots; digest pre/post compared)";
  "[update-cluster] DRY-RUN ssh root@<resolved-at-runtime> bootc upgrade --apply (with pre/post digest compare)";
  "[update-cluster] DRY-RUN wait_ssh_drop <resolved-at-runtime> (would poll up to 30s)";
  "[update-cluster] waiting for SSH to come back on <resolved-at-runtime> (timeout 300s)";
  "[update-cluster] DRY-RUN would poll ssh root@<resolved-at-runtime>";
  "[update-cluster] waiting for node hbird-w2 bootID to change from pre-reboot value (timeout 300s)";
  "[update-cluster] DRY-RUN would poll bootID for hbird-w2";
  "[update-cluster] waiting for node hbird-w2 to report Ready (timeout 300s)";
  "[update-cluster] DRY-RUN would poll kubectl get node hbird-w2";
  "[update-cluster] waiting for kube-system DaemonSet pods on hbird-w2 to be Ready (timeout 300s)";
  "[update-cluster] DRY-RUN would poll kube-system pods on hbird-w2 for Ready";
  "[update-cluster] kubectl uncordon hbird-w2";
  "[update-cluster] DRY-RUN cp_kubectl -- uncordon hbird-w2";
  "[update-cluster] DRY-RUN ssh root@<resolved-at-runtime> systemctl start bootc-semver-update.timer";
  "[update-cluster] node hbird-w2 updated";
  "[update-cluster] ============================================================";
  "[update-cluster] Rolling update complete.";
  "[update-cluster]   succeeded (3): hbird-cp1 hbird-w1 hbird-w2";
  "[update-cluster] ============================================================"
].

(** [fixtures/dry_run_start_from.txt] *)
Definition start_from_lines : list string := [
  "[update-cluster] config: cluster.local.conf";
  "[update-cluster] CP=hbird-cp1 (<resolved-at-runtime>) k8s-node=hbird-cp1, workers=(hbird-w1 hbird-w2)";
  "[update-cluster] flags: workers-only=0 skip-drain=0 skip-gates=0 dry-run=1";
  "[update-cluster]        node-filter=<none> start-from=hbird-w2";
  "[update-cluster]        continue-on-error=0 no-delete-emptydir-data=0 parallel=1";
  "[update-cluster] timeouts: drain=5m ready=300s daemonset=300s apiserver=300s ssh=300s ssh-drop=30s inter-node-sleep=5s";
  "[update-cluster] per-node worst-case budget: drain 5m + ssh-back 300s + bootID 300s + ready 300s + daemonsets 300s";
  "[update-cluster] --start-from=hbird-w2: resuming with workers=(hbird-w2)";
  "[update-cluster] --start-from set: skipping CP (resume mode starts at worker 'hbird-w2')";
  "[update-cluster] ============================================================";
  "[update-cluster] WORKER: hbird-w2 (<resolved-at-runtime>)";
  "[update-cluster] ============================================================";
  "[update-cluster] DRY-RUN ssh root@<resolved-at-runtime> systemctl stop bootc-semver-update.timer bootc-fetch-apply-updates.timer";
  "[update-cluster] kubectl drain hbird-w2 --ignore-daemonsets --timeout=5m --delete-emptydir-data";
  "[update-cluster] DRY-RUN cp_kubectl -- drain hbird-w2 --ignore-daemonsets --timeout=5m --delete-emptydir-data";
  "[update-cluster] DRY-RUN would capture pre-reboot bootID for hbird-w2";
  "[update-cluster]   pre-reboot bootID: <dry-run...";
  "[update-cluster] ssh root@<resolved-at-runtime> bootc upgrade --apply  (auto-reboots; digest pre/post compared)";
  "[update-cluster] DRY-RUN ssh root@<resolved-at-runtime> bootc upgrade --apply (with pre/post digest compare)";
  "[update-cluster] DRY-RUN wait_ssh_drop <resolved-at-runtime> (would poll up to 30s)";
  "[update-cluster] waiting for SSH to come back on <resolved-at-runtime> (timeout 300s)";
  "[update-cluster] DRY-RUN would poll ssh root@<resolved-at-runtime>";
  "[update-cluster] waiting for node hbird-w2 bootID to change from pre-reboot value (timeout 300s)";
  "[update-cluster] DRY-RUN would poll bootID for hbird-w2";
  "[update-cluster] waiting for node hbird-w2 to report Ready (timeout 300s)";
  "[update-cluster] DRY-RUN would poll kubectl get node hbird-w2";
  "[update-cluster] waiting for kube-system DaemonSet pods on hbird-w2 to be Ready (timeout 300s)";
  "[update-cluster] DRY-RUN would poll kube-system pods on hbird-w2 for Ready";
  "[update-cluster] kubectl uncordon hbird-w2";
  "[update-cluster] DRY-RUN cp_kubectl -- uncordon hbird-w2";
  "[update-cluster] DRY-RUN ssh root@<resolved-at-runtime> systemctl start bootc-semver-update.timer";
  "[update-cluster] node hbird-w2 updated";
  "[update-cluster] ============================================================";
  "[update-cluster] Rolling update complete.";
  "[update-cluster]   succeeded (1): hbird-w2";
  "[update-cluster] ============================================================"
].

(** [fixtures/dry_run_skip_gates.txt] *)
Definition skip_gates_lines : list string := [
  "[update-cluster] config: cluster.local.conf";
  "[update-cluster] CP=hbird-cp1 (<resolved-at-runtime>) k8s-node=hbird-cp1, workers=(hbird-w1 hbird-w2)";
  "[update-cluster] flags: workers-only=0 skip-drain=0 skip-gates=1 dry-run=1";
  "[update-cluster]        node-filter=<none> start-from=<none>";
  "[update-cluster]        continue-on-error=0 no-delete-emptydir-data=0 parallel=1";
  "[update-cluster] timeouts: drain=5m ready=300s daemonset=300s apiserver=300s ssh=300s ssh-drop=30s inter-node-sleep=5s";
  "[update-cluster] per-node worst-case budget: drain 5m + ssh-back 300s + bootID 300s + ready 300s + daemonsets 300s";
  "[update-cluster] ============================================================";
  "[update-cluster] CP: hbird-cp1 (<resolved-at-runtime>)";
  "[update-cluster]   single-CP topology: skipping drain (no peers to evict to)";
  "[update-cluster]   apiserver will be unavailable for ~60-120s during reboot";
  "[update-cluster] ============================================================";
  "[update-cluster] DRY-RUN ssh root@<resolved-at-runtime> systemctl stop bootc-semver-update.timer bootc-fetch-apply-updates.timer";
  "[update-cluster] DRY-RUN would capture pre-reboot bootID for hbird-cp1";
  "[update-cluster]   pre-reboot bootID: <dry-run...";
  "[update-cluster] ssh root@<resolved-at-runtime> bootc upgrade --apply  (auto-reboots; digest pre/post compared)";
  "[update-cluster] DRY-RUN ssh root@<resolved-at-runtime> bootc upgrade --apply (with pre/post digest compare)";
  "[update-cluster] DRY-RUN wait_ssh_drop <resolved-at-runtime> (would poll up to 30s)";
  "[update-cluster] waiting for SSH to come back on <resolved-at-runtime> (timeout 300s)";
  "[update-cluster] DRY-RUN would poll ssh root@<resolved-at-runtime>";
  "[update-cluster] waiting for apiserver on CP (<resolved-at-runtime>) to answer (timeout 300s)";
  "[update-cluster] DRY-RUN would poll apiserver via ssh root@<resolved-at-runtime> kubectl get nodes";
  "[update-cluster] node hbird-cp1: --skip-gates set, skipping bootID-changed gate";
  "[update-cluster] waiting for node hbird-cp1 to report Ready (timeout 300s)";
  "[update-cluster] DRY-RUN would poll kubectl get node hbird-cp1";
  "[update-cluster] node hbird-cp1: --skip-gates set, skipping DaemonSet readiness gate";
  "[update-cluster] DRY-RUN ssh root@<resolved-at-runtime> systemctl start bootc-semver-update.timer";
  "[update-cluster] CP hbird-cp1 updated and Ready.";
  "[update-cluster] ============================================================";
  "[update-cluster] WORKER: hbird-w1 (<resolved-at-runtime>)";
  "[update-cluster] ============================================================";
  "[update-cluster] DRY-RUN ssh root@<resolved-at-runtime> systemctl stop bootc-semver-update.timer bootc-fetch-apply-updates.timer";
  "[update-cluster] kubectl drain hbird-w1 --ignore-daemonsets --timeout=5m --delete-emptydir-data";
  "[update-cluster] DRY-RUN cp_kubectl -- drain hbird-w1 --ignore-daemonsets --timeout=5m --delete-emptydir-data";
  "[update-cluster] DRY-RUN would capture pre-reboot bootID for hbird-w1";
  "[update-cluster]   pre-reboot bootID: <dry-run...";
  "[update-cluster] ssh root@<resolved-at-runtime> bootc upgrade --apply  (auto-reboots; digest pre/post compared)";
  "[update-cluster] DRY-RUN ssh root@<resolved-at-runtime> bootc upgrade --apply (with pre/post digest compare)";
  "[update-cluster] DRY-RUN wait_ssh_drop <resolved-at-runtime> (would poll up to 30s)";
  "[update-cluster] waiting for SSH to come back on <resolved-at-runtime> (timeout 300s)";
  "[update-cluster] DRY-RUN would poll ssh root@<resolved-at-runtime>";
  "[update-cluster] node hbird-w1: --skip-gates set, skipping bootID-changed gate";
  "[update-cluster] waiting for node hbird-w1 to report Ready (timeout 300s)";
  "[update-cluster] DRY-RUN would poll kubectl get node hbird-w1";
  "[update-cluster] node hbird-w1: --skip-gates set, skipping DaemonSet readiness gate";
  "[update-cluster] kubectl uncordon hbird-w1";
  "[update-cluster] DRY-RUN cp_kubectl -- uncordon hbird-w1";
  "[update-cluster] DRY-RUN ssh root@<resolved-at-runtime> systemctl start bootc-semver-update.timer";
  "[update-cluster] node hbird-w1 updated";
  "[update-cluster] pausing 5s before next node";
  "[update-cluster] ============================================================";
  "[update-cluster] WORKER: hbird-w2 (<resolved-at-runtime>)";
  "[update-cluster] ============================================================";
  "[update-cluster] DRY-RUN ssh root@<resolved-at-runtime> systemctl stop bootc-semver-update.timer bootc-fetch-apply-updates.timer";
  "[update-cluster] kubectl drain hbird-w2 --ignore-daemonsets --timeout=5m --delete-emptydir-data";
  "[update-cluster] DRY-RUN cp_kubectl -- drain hbird-w2 --ignore-daemonsets --timeout=5m --delete-emptydir-data";
  "[update-cluster] DRY-RUN would capture pre-reboot bootID for hbird-w2";
  "[update-cluster]   pre-reboot bootID: <dry-run...";
  "[update-cluster] ssh root@<resolved-at-runtime> bootc upgrade --apply  (auto-reboots; digest pre/post compared)";
  "[update-cluster] DRY-RUN ssh root@<resolved-at-runtime> bootc upgrade --apply (with pre/post digest compare)";
  "[update-cluster] DRY-RUN wait_ssh_drop <resolved-at-runtime> (would poll up to 30s)";
  "[update-cluster] waiting for SSH to come back on <resolved-at-runtime> (timeout 300s)";
  "[update-cluster] DRY-RUN would poll ssh root@<resolved-at-runtime>";
  "[update-cluster] node hbird-w2: --skip-gates set, skipping bootID-changed gate";
  "[update-cluster] waiting for node hbird-w2 to report Ready (timeout 300s)";
  "[update-cluster] DRY-RUN would poll kubectl get node hbird-w2";
  "[update-cluster] node hbird-w2: --skip-gates set, skipping DaemonSet readiness gate";
  "[update-cluster] kubectl uncordon hbird-w2";
  "[update-cluster] DRY-RUN cp_kubectl -- uncordon hbird-w2";
  "[update-cluster] DRY-RUN ssh root@<resolved-at-runtime> systemctl start bootc-semver-update.timer";
  "[update-cluster] node hbird-w2 updated";
  "[update-cluster] ============================================================";
  "[update-cluster] Rolling update complete.";
  "[update-cluster]   succeeded (3): hbird-cp1 hbird-w1 hbird-w2";
  "[update-cluster] ============================================================"
].

(** On the cluster of the recorded fixtures, the model prints the recorded
    dry runs line by line: a parallel batch, a node-name override, a resumed run
    and a run without gates. *)
Theorem dry_run_fixtures :
  dry_run_of (fixture_args false None (Some 2%N) []) = (Ok tt, Some parallel2_lines)
  ∧ dry_run_of (fixture_args false None None ["hbird-w1=alt-w1"]) = (Ok tt, Some override_lines)
  ∧ dry_run_of (fixture_args false (Some "hbird-w2") None []) = (Ok tt, Some start_from_lines)
  ∧ dry_run_of (fixture_args true None None []) = (Ok tt, Some skip_gates_lines).
Proof. split_and!; vm_compute; reflexivity. Qed.

(** ** A live run *)

(** One control plane and one worker. *)
Definition sample_plan : Plan :=
  mkPlan "cluster.local.conf" "cp" "10.0.0.1" ["w1"] {["w1" := "10.0.0.2"]} {["w1" := "w1"]} "cp"
    false false false false false false None None 1 None false default_timeouts.

Definition has_run (cmd : string) (h : history) : bool :=
  existsb (λ e, match e with EvSsh _ c _ _ => bool_decide (c = cmd) | _ => false end) h.

(** Hosts that are updated without trouble: [bootc upgrade --apply] cuts the
    connection, the first probe after it fails, and the node comes back [Ready]
    with another boot id. *)
Definition live_answer (h : history) (o : SshOptions) (cmd : string) : result SshError RunOutput :=
  let ok s := Ok (mkRunOutput (Exited 0) s "") in
  let lost := Err (NonZeroExit (host o) (Exited 255) "" "") in
  if bool_decide (cmd = "bootc upgrade --apply") then lost
  else if bool_decide (cmd = "true") then if has_run "true" h then ok "" else lost
  else if contains "bootID" cmd then ok (if has_run "bootc upgrade --apply" h then "b2" else "b1")
  else if contains "get node" cmd then ok ("w1 Ready worker 9d" +:+ NL)
  else if contains "get pods" cmd then ok ("cilium-x1=true," +:+ NL)
  else ok "".

Definition live_world : World := {|
  ssh_answer h o cmd _ := live_answer h o cmd;
  local_answer _ _ := Ok (mkRunOutput (Exited 0) "" "");
  stdout_answer _ _ := Ok tt;
  stderr_answer _ _ := Ok tt;
  file_answer _ _ := Ok fixture_config;
  fs_answer _ _ := Ok tt;
|}.

(** The commands that were run, and on which host. *)
Definition commands (es : history) : list (string * string) :=
  omap (λ e, match e with EvSsh o c _ _ => Some (host o, c) | _ => None end) es.

(** The worker is drained, upgraded, awaited, uncordoned. *)
Example live_update_worker :
  let '(r, es) := @update_worker live_world sample_plan "" "w1" "10.0.0.2" "w1" [] in
  r = Ok tt ∧
  commands es = [("10.0.0.2", timer_stop_cmd);
    ("10.0.0.1", remote_kubectl (drain_cmd sample_plan "w1"));
    ("10.0.0.1", remote_kubectl (bootid_cmd "w1"));
    ("10.0.0.2", digest_cmd); ("10.0.0.2", has_apply_cmd); ("10.0.0.2", "bootc upgrade --apply");
    ("10.0.0.2", "true"); ("10.0.0.2", "true");
    ("10.0.0.1", remote_kubectl (bootid_cmd "w1"));
    ("10.0.0.1", remote_kubectl "get node w1 --no-headers");
    ("10.0.0.1", remote_kubectl (pods_cmd "w1"));
    ("10.0.0.1", remote_kubectl (pods_ready_cmd "w1"));
    ("10.0.0.1", remote_kubectl (pods_ready_cmd "w1"));
    ("10.0.0.1", remote_kubectl (uncordon_cmd "w1"));
    ("10.0.0.2", TIMER_START_PROBE)].
Proof. vm_compute. done. Qed.
