(* ===== verification/UpdatePlanFacts.v ===== *)
(** * hbird update-cluster: what the plan guarantees

    The environment's timeouts are numbers in range and safe shell words;
    [workers_to_run] is a suffix of the configured workers; a plan built by
    [from_args] has an address and a node name for every worker. *)

From S2P Require Import Prelude RustStr ConfigTypes SshOptions SshClient Effects VirtUri Shell.
From S2P Require Import VirtParse VirtConn Cp UpdatePlan UpdateNode UpdateGates UpdateFlow.

(** ** Timeouts *)

Lemma parse_u32_bound msg raw n : parse_u32 msg raw = Ok n → (n ≤ U32_MAX)%N.
Proof.
  unfold parse_u32. destruct (parse_uint U32_MAX raw) eqn:E; [|done]. intros [= <-].
  by eapply parse_uint_bound.
Qed.

Lemma req_u32_strict_pos_Ok name raw n :
  req_u32_strict_pos name raw = Ok n → (0 < n ≤ U32_MAX)%N.
Proof.
  unfold req_u32_strict_pos. destruct raw as [|a rest]; [done|].
  destruct (in_range 49 57 a) eqn:Ha; [|done].
  destruct (all_bytes is_ascii_digit rest); [|done]. cbn [negb orb]. intros Hp.
  split; [|by eapply parse_u32_bound]. revert Hp. unfold parse_u32, parse_uint.
  assert (Hd : is_ascii_digit a = true).
  { apply in_range_spec in Ha. apply in_range_spec. lia. }
  assert (Ascii.eqb a "+" = false) as ->.
  { apply Ascii.eqb_neq. intros ->. vm_compute in Ha. discriminate Ha. }
  cbn [parse_digits]. rewrite Hd.
  destruct (N.leb_spec (0 * 10 + (byte_val a - 48)) U32_MAX); [|done].
  destruct (parse_digits _ _ rest) eqn:E; [|done]. intros [= <-].
  apply parse_digits_bound in E; [|done]. apply in_range_spec in Ha. lia.
Qed.

Lemma req_u32_nonneg_Ok name raw n : req_u32_nonneg name raw = Ok n → (n ≤ U32_MAX)%N.
Proof. unfold req_u32_nonneg. destruct (_ || _); [done|]. apply parse_u32_bound. Qed.

Lemma strip_suffix_char_Some c s d : strip_suffix_char c s = Some d → s = d +:+ chr c.
Proof.
  revert d. induction s as [|a s IH]; intros d; cbn [strip_suffix_char]; [done|].
  destruct s as [|b s].
  - destruct (Ascii.eqb_spec a c) as [->|]; [|done]. by intros [= <-].
  - destruct (strip_suffix_char c (String b s)) as [d'|] eqn:E; [|done].
    intros [= <-]. rewrite (IH d' eq_refl). done.
Qed.

(** A digit string with an optional unit. *)
Definition go_duration (s : string) : Prop :=
  ∃ digits unit, s = digits +:+ unit ∧ is_empty digits = false
                 ∧ all_bytes is_ascii_digit digits = true ∧ unit ∈ [""; "s"; "m"; "h"].

Lemma drain_digits_app raw : ∃ unit, raw = drain_digits raw +:+ unit ∧ unit ∈ [""; "s"; "m"; "h"].
Proof.
  unfold drain_digits.
  destruct (strip_suffix_char "s" raw) as [d|] eqn:E1.
  { apply strip_suffix_char_Some in E1. exists "s". set_solver. }
  destruct (strip_suffix_char "m" raw) as [d|] eqn:E2.
  { apply strip_suffix_char_Some in E2. exists "m". set_solver. }
  destruct (strip_suffix_char "h" raw) as [d|] eqn:E3.
  { apply strip_suffix_char_Some in E3. exists "h". set_solver. }
  exists "". cbn [default]. rewrite app_nil_s. set_solver.
Qed.

Lemma req_drain_Ok raw d : req_drain raw = Ok d → d = raw ∧ go_duration raw.
Proof.
  unfold req_drain. destruct (is_empty (drain_digits raw)) eqn:Hne; [done|].
  destruct (all_bytes is_ascii_digit (drain_digits raw)) eqn:Hd; [|done]. cbn [negb orb].
  intros [= <-]. split; [done|]. destruct (drain_digits_app raw) as (unit & E & Hu).
  by exists (drain_digits raw), unit.
Qed.

Lemma go_duration_bare s : go_duration s → bare_word s = true.
Proof.
  intros (digits & unit & -> & Hne & Hd & Hu). unfold bare_word. apply andb_true_iff. split.
  - by destruct digits.
  - rewrite all_bytes_app. apply andb_true_iff. split.
    + eapply all_bytes_impl; [|exact Hd]. intros a Ha.
      unfold is_bare, is_ascii_alphanumeric. by rewrite Ha, orb_true_r.
    + rewrite !elem_of_cons in Hu. repeat destruct Hu as [->|Hu]; try done.
      by apply elem_of_nil in Hu.
Qed.

Lemma from_env_inv env t :
  from_env env = Ok t →
  go_duration (drain t)
  ∧ (0 < ready t ≤ U32_MAX)%N ∧ (0 < daemonset t ≤ U32_MAX)%N ∧ (0 < ssh_drop t ≤ U32_MAX)%N
  ∧ (apiserver t ≤ U32_MAX)%N ∧ (ssh_timeout t ≤ U32_MAX)%N ∧ (inter_node_sleep t ≤ U32_MAX)%N
  ∧ (ssh_command t ≤ U32_MAX)%N.
Proof.
  unfold from_env. intros Ht.
  repeat (let x := fresh "x" in let Hx := fresh "Hx" in apply bind_Ok in Ht as (x & Hx & Ht)).
  simplify_eq. cbn [drain ready daemonset ssh_drop apiserver ssh_timeout inter_node_sleep
    ssh_command].
  split_and!; first [ by eapply req_u32_strict_pos_Ok | by eapply req_u32_nonneg_Ok | idtac ].
  by apply req_drain_Ok in Hx as [-> ?].
Qed.


Definition env_30s : string → option string :=
  λ v, if bool_decide (v = "DRAIN_TIMEOUT") then Some "30s" else None.


(** ** The drain command *)

Definition drain_words (plan : Plan) (k8s_name : string) : list string :=
  ["drain"; k8s_name; "--ignore-daemonsets"; "--timeout=" +:+ drain (timeouts plan)]
  ++ (if no_delete_emptydir_data plan then [] else ["--delete-emptydir-data"]).

Lemma drain_cmd_words plan k8s_name :
  drain_cmd plan k8s_name = join " " (drain_words plan k8s_name).
Proof.
  unfold drain_cmd, drain_flags, drain_words. destruct (no_delete_emptydir_data plan);
    cbn [negb app join]; rewrite ?app_nil_s, <-?app_assoc_s; reflexivity.
Qed.

(** With timeouts from the environment and a node name that is an ordinary
    word, the drain command passes the metacharacter guard and the control
    plane runs [kubectl drain] with exactly the intended arguments. *)
Theorem drain_command_exact env plan k8s_name ctx
    (Henv : from_env env = Ok (timeouts plan)) (Hk : bare_word k8s_name = true) :
  reject_shell_metachars ctx (drain_cmd plan k8s_name) = Ok tt
  ∧ shell_words (remote_kubectl (drain_cmd plan k8s_name))
    = Some (["kubectl"; "--kubeconfig=/etc/kubernetes/admin.conf"] ++ drain_words plan k8s_name).
Proof.
  apply from_env_inv in Henv as [Hd%go_duration_bare _].
  assert (Hb : Forall (λ w, bare_word w = true) (drain_words plan k8s_name)).
  { unfold drain_words. assert (bare_word ("--timeout=" +:+ drain (timeouts plan)) = true).
    { unfold bare_word in *. apply andb_true_iff in Hd as [_ Hd]. rewrite all_bytes_app, Hd. done. }
    destruct (no_delete_emptydir_data plan); repeat constructor; done. }
  rewrite drain_cmd_words. destruct (bare_words_accepted ctx _ Hb) as [Hr Hw].
  split; [exact Hr|]. by apply Hw.
Qed.

Definition plan_30s : Plan :=
  mkPlan "c.conf" "cp" "10.0.0.1" ["w1"] ∅ ∅ "cp" false false false false false false None None 1
    None false (mkTimeouts "30s" 300 300 300 300 30 5 3600).

Lemma drain_command_exact_witness :
  reject_shell_metachars "cp_kubectl" (drain_cmd plan_30s "w1") = Ok tt
  ∧ shell_words (remote_kubectl (drain_cmd plan_30s "w1"))
    = Some (["kubectl"; "--kubeconfig=/etc/kubernetes/admin.conf"] ++ drain_words plan_30s "w1").
Proof.
  apply (drain_command_exact env_30s plan_30s "w1" "cp_kubectl"); vm_compute; reflexivity.
Defined.

(** ** Resuming *)

Lemma workers_from_true sf ws : workers_from sf true ws = ws.
Proof.
  induction ws as [|w ws IH]; cbn [workers_from]; [done|].
  destruct (bool_decide (w = sf)); by rewrite IH.
Qed.

Lemma workers_from_false sf ws :
  workers_from sf false ws = drop_while (λ w, negb (bool_decide (w = sf))) ws.
Proof.
  induction ws as [|w ws IH]; cbn [workers_from drop_while]; [done|].
  destruct (bool_decide (w = sf)); cbn [negb]; [by rewrite workers_from_true|done].
Qed.

(** [workers_to_run] keeps the configured order: it is everything from the
    first worker named by [--start-from] on, that worker included, and
    everything without [--start-from]. *)
Theorem workers_to_run_resumes p :
  match start_from p with
  | None => workers_to_run p = plan_worker_names p
  | Some sf =>
      sf ∈ plan_worker_names p →
      (∃ before after, plan_worker_names p = before ++ sf :: after ∧ (sf ∉ before)
                       ∧ workers_to_run p = sf :: after)
  end.
Proof.
  unfold workers_to_run. destruct (start_from p) as [sf|]; [|done]. intros Hsf.
  rewrite workers_from_false.
  set (f := λ w, negb (bool_decide (w = sf))).
  pose proof (take_drop_while f (plan_worker_names p)) as Happ.
  pose proof (take_while_all f (plan_worker_names p)) as Hall.
  assert (Hnot : sf ∉ take_while f (plan_worker_names p)).
  { intros Hin. rewrite Forall_forall in Hall. apply Hall in Hin. subst f. cbn in Hin.
    rewrite bool_decide_eq_true_2 in Hin by done. discriminate Hin. }
  destruct (drop_while f (plan_worker_names p)) as [|x after] eqn:E.
  - exfalso. rewrite app_nil_r in Happ. rewrite <-Happ in Hsf. done.
  - apply drop_while_head in E as Hx. subst f. cbn in Hx.
    apply negb_false_iff, bool_decide_eq_true in Hx as ->.
    eexists _, after. split_and!; [symmetry; exact Happ|done|done].
Qed.

(** ** The plan's invariant *)

(** What every plan satisfies. *)
Record plan_ok (p : Plan) : Prop := {
  ok_parallel : (1 ≤ parallel p)%N;
  ok_ip : ∀ w, w ∈ plan_worker_names p → is_Some (worker_ip_map p !! w);
  ok_k8s : ∀ w, w ∈ plan_worker_names p → is_Some (worker_k8s_name_map p !! w);
  ok_start : ∀ sf, start_from p = Some sf → sf ∈ plan_worker_names p;
  ok_modes : start_from p = None ∨ node_filter p = None;
  ok_workers_only : workers_only p = true → node_filter p = None;
}.

Lemma foldl_insert_Some kvs (m : gmap string string) k :
  is_Some (m !! k) ∨ k ∈ kvs.*1 → is_Some (foldl (λ m kv, <[kv.1 := kv.2]> m) m kvs !! k).
Proof.
  revert m. induction kvs as [|[k' v'] kvs IH]; intros m; cbn [foldl fmap list_fmap fst snd].
  - intros [?|?%elem_of_nil]; done.
  - intros Hk. apply IH. destruct (decide (k' = k)) as [->|Hne].
    + left. by rewrite lookup_insert_eq.
    + rewrite lookup_insert_ne by done. rewrite elem_of_cons in Hk. naive_solver.
Qed.

Lemma insert_all_Some kvs k : k ∈ kvs.*1 → is_Some (insert_all kvs !! k).
Proof. intros Hk. apply foldl_insert_Some. by right. Qed.

Lemma insert_all_names (f : string → string) ws w :
  w ∈ ws → is_Some (insert_all ((λ w, (w, f w)) <$> ws) !! w).
Proof.
  intros Hw. apply insert_all_Some. apply list_elem_of_fmap. exists (w, f w). split; [done|].
  apply list_elem_of_fmap. by exists w.
Qed.

Section invariant.
Context `{W : World}.

(** What follows from success alone, whatever the history. *)
Definition on_ok {A} (m : IO anyhow A) (P : A → Prop) : Prop :=
  emits m (λ r _, ∀ a, r = Ok a → P a).

Lemma on_ok_bind {A B} (m : IO anyhow A) (f : A → IO anyhow B) (P : A → Prop) (Q : B → Prop) :
  on_ok m P → (∀ a, P a → on_ok (f a) Q) → on_ok (m ≫= f) Q.
Proof.
  intros Hm Hf. eapply emits_io_bind; [exact Hm| |by intros ?? _ ? [=]].
  intros a e1 Ha. eapply emits_conseq; [apply Hf; by apply Ha|]. done.
Qed.

Lemma on_ok_ret {A} (a : A) (P : A → Prop) : P a → on_ok (mret a) P.
Proof. intros Ha h b [= <-]. done. Qed.

Lemma on_ok_any {A} (m : IO anyhow A) : on_ok m (λ _, True).
Proof. by intros h a _. Qed.

Lemma resolve_workers_ok kvm ws m (ks : list string) :
  (∀ k, k ∈ ks → is_Some (m !! k)) →
  on_ok (resolve_workers kvm ws m) (λ m', ∀ k, k ∈ ks ++ ws → is_Some (m' !! k)).
Proof.
  revert m ks. induction ws as [|w ws IH]; intros m ks Hm; cbn [resolve_workers].
  - apply on_ok_ret. intros k. rewrite app_nil_r. apply Hm.
  - eapply on_ok_bind; [apply on_ok_any|]. intros ip _.
    intros h a Ha k Hk. specialize (IH (<[w:=ip]> m) (ks ++ [w])).
    eapply IH; [|exact Ha|by rewrite <-app_assoc].
    intros k' [Hk'| ->%list_elem_of_singleton]%elem_of_app.
    + destruct (decide (w = k')) as [->|]; [by rewrite lookup_insert_eq|].
      rewrite lookup_insert_ne by done. by apply Hm.
    + by rewrite lookup_insert_eq.
Qed.

Lemma resolve_ips_ok a c ws :
  on_ok (resolve_ips a c ws) (λ r, ∀ w, w ∈ ws → is_Some (r.2 !! w)).
Proof.
  unfold resolve_ips. destruct (ua_dry_run a).
  { apply on_ok_ret. intros w Hw. by apply (insert_all_names (λ _, resolved_at_runtime)). }
  eapply on_ok_bind; [apply on_ok_any|]. intros ip _.
  apply (on_ok_bind _ _ (λ m : gmap string string, ∀ w, w ∈ ws → is_Some (m !! w))).
  - destruct (worker_ips c) as [ips|].
    + destruct (Nat.eqb_spec (length ips) (length ws)); [|by intros h ? [=]].
      apply on_ok_ret. intros w Hw. apply insert_all_Some.
      by rewrite fst_zip by lia.
    + intros h m Hm w Hw.
      eapply (resolve_workers_ok _ ws ∅ []); [by intros k ?%elem_of_nil|exact Hm|exact Hw].
  - intros m Hm. by apply on_ok_ret.
Qed.

(** The fields that are copied from the arguments and the config. *)
Record copied (a : UpdateClusterArgs) (c : ClusterConfig) (t : Timeouts) (p : Plan) : Prop := {
  copied_names : plan_cp_name p = cp_name c ∧ plan_worker_names p = resolved_worker_names c;
  copied_modes : node_filter p = ua_node a ∧ start_from p = ua_start_from a
                 ∧ workers_only p = ua_workers_only a;
  copied_flags : dry_run p = ua_dry_run a ∧ skip_drain p = ua_skip_drain a
                 ∧ skip_gates p = ua_skip_gates a ∧ continue_on_error p = ua_continue_on_error a;
  copied_timeouts : timeouts p = t;
  copied_jump : plan_kvm_host p = ua_kvm_host a;
}.

Lemma from_args_inv a c t :
  on_ok (from_args a c t) (λ p, plan_ok p ∧ copied a c t p).
Proof.
  unfold from_args.
  destruct (ua_workers_only a && bool_decide (is_Some (ua_node a))) eqn:H1; [by intros h ? [=]|].
  destruct (bool_decide (is_Some (ua_node a)) && bool_decide (is_Some (ua_start_from a))) eqn:H2;
    [by intros h ? [=]|].
  destruct (N.ltb_spec (default 1%N (ua_parallel a)) 1); [by intros h ? [=]|].
  eapply on_ok_bind; [apply resolve_ips_ok|]. intros [ip m] Hm. cbn [snd] in Hm.
  apply (on_ok_bind _ _ (λ _, ∀ sf, ua_start_from a = Some sf → sf ∈ resolved_worker_names c)).
  { destruct (ua_start_from a) as [sf|]; [|by intros h ? _].
    destruct (decide (sf ∈ resolved_worker_names c)) as [Hin|Hin];
      [rewrite bool_decide_eq_true_2 by done|rewrite bool_decide_eq_false_2 by done]; cbn [negb];
      [|by intros h ? [=]].
    intros h ? _ ? [= <-]. done. }
  intros _ Hsf. eapply on_ok_bind; [apply on_ok_any|]. intros ov _. apply on_ok_ret.
  split; [|by repeat split].
  constructor; cbn [parallel plan_worker_names worker_ip_map worker_k8s_name_map start_from
    node_filter workers_only]; [lia|done| |done| |].
  - intros w Hw. by apply (insert_all_names (λ w, default w (ov !! w))).
  - destruct (ua_node a), (ua_start_from a); auto. by rewrite !bool_decide_eq_true_2 in H2.
  - intros Hw. rewrite Hw in H1. destruct (ua_node a); [|done].
    by rewrite bool_decide_eq_true_2 in H1.
Qed.
End invariant.

(** Every plan [from_args] builds is consistent, whatever libvirt answers:
    parallelism is at least one; each worker has an address and a node name, so
    the "invariant broken" error of [run_one_worker] cannot occur; the worker to
    resume from exists; the single-node, resume and workers-only modes exclude
    each other as documented; and the flags are those of the command line (the
    jump host too, even when the config file names one). *)
Theorem from_args_plan_ok `{W : World} a c t :
  emits (from_args a c t) (λ r _, ∀ p, r = Ok p → plan_ok p ∧ copied a c t p).
Proof. apply from_args_inv. Qed.
