(* ===== verification/UpdateGatesFacts.v ===== *)
(** * hbird update-cluster: what the gates guarantee

    Properties of the waits of [UpdateGates.v]: they end within their time,
    with the number of probes the code documents, and what was observed when
    they succeed. *)

From S2P Require Import Prelude RustStr ConfigTypes SshOptions SshClient Effects Poll Cp UpdatePlan.
From S2P Require Import UpdateNode UpdateGates.

(** ** What a node helper may do

    Every event is printing, sleeping or an [ssh] call allowed by [C], without
    standard input. *)

Definition within (C : SshOptions → string → Prop) (e : event) : Prop :=
  match e with
  | EvOut _ | EvErr _ | EvSleep _ => True
  | EvSsh o c None _ => C o c
  | _ => False
  end.

Section within.
Context `{W : World} (plan : Plan) (pfx : string) (C : SshOptions → string → Prop).
Abbreviation quiet m := (only (within C) m).

Lemma quiet_log l : quiet (log pfx l).
Proof. by apply only_lift, only_emit. Qed.
Lemma quiet_log_err l : quiet (log_err pfx l).
Proof. by apply only_lift, only_emit. Qed.
Lemma quiet_log_text f text : (∀ l, quiet (f l)) → quiet (log_text f text).
Proof.
  intros Hf. unfold log_text. destruct (negb _); [|apply only_io_ret].
  apply only_for_each. auto.
Qed.
Lemma quiet_sleep d : quiet (lift (sleep d) : IO anyhow unit).
Proof. by apply only_lift, only_emit. Qed.
Lemma quiet_exec {E} o cmd (f : SshError → E) :
  C o cmd → quiet (io_map_err f (ssh_run o cmd None)).
Proof. intros HC. by apply only_map_err, only_ssh_run. Qed.
Lemma quiet_try {E F A} (m : IO E A) : quiet m → quiet (try m : IO F (result E A)).
Proof. intros H. by apply only_lift. Qed.
Lemma quiet_client o cmd : C o cmd → quiet (@exec (client_exec o) cmd None).
Proof. intros HC. by apply only_ssh_run. Qed.
End within.
#[export] Hint Resolve quiet_log quiet_log_err quiet_log_text quiet_sleep quiet_exec quiet_try
  quiet_client : effects.

(** Decomposes a computation of the helpers and discharges its pieces. *)
Ltac quiet_step :=
  match goal with
  | |- only _ (match ?x with _ => _ end) => destruct x
  | |- only _ (if ?x then _ else _) => destruct x
  | |- only _ (let '(_, _) := ?x in _) => destruct x
  | |- only _ (mbind _ _) => first [apply only_io_bind; [|intros ?]]
  | |- only _ (mret _) => apply only_io_ret
  | |- only _ (throw _) => apply only_throw
  | |- only _ (bail _) => apply only_throw
  | |- only _ (of_result _) => apply only_of_result
  | |- only _ (try _) => apply quiet_try
  | |- only _ (ssh_context _ _) => unfold ssh_context
  | |- only _ (io_map_err _ _) => apply only_map_err
  | |- only _ (poll _ _ _ _ _ _) => apply only_poll; intros ? ?
  | |- only _ (exec _ _) => apply quiet_client
  | |- only _ (ssh_run _ _ _) => apply only_ssh_run; intros ?
  | |- only _ (log_text _ _) => apply quiet_log_text; intros ?
  | |- only _ (log _ _) => apply quiet_log
  | |- only _ (log_err _ _) => apply quiet_log_err
  | |- only _ (lift (sleep _)) => apply quiet_sleep
  end.
Ltac quiet := cbv zeta; repeat quiet_step; auto.

(** *** The events of each helper *)

Section helpers.
Context `{W : World} (plan : Plan) (pfx : string) (C : SshOptions → string → Prop).
Abbreviation quiet m := (only (within C) m).
Abbreviation on_cp cmd := (C (plan_cp_ssh_opts plan) (remote_kubectl cmd)).
Abbreviation on_node ip cmd := (C (node_ssh_opts plan ip) cmd).

Lemma quiet_cp_kubectl cmd : on_cp cmd → quiet (cp_kubectl plan pfx cmd).
Proof. intros HC. unfold cp_kubectl, cp_kubectl_live. quiet. Qed.

Lemma quiet_timer_stop ip : on_node ip timer_stop_cmd → quiet (timer_stop plan pfx ip).
Proof. intros HC. unfold timer_stop, timer_stop_with_exec, node_client. quiet. Qed.

Lemma quiet_timer_start ip : on_node ip TIMER_START_PROBE → quiet (timer_start plan pfx ip).
Proof. intros HC. unfold timer_start, timer_start_with_exec, node_client. quiet. Qed.

Lemma quiet_capture_node_bootid node :
  on_cp (bootid_cmd node) → quiet (capture_node_bootid plan pfx node).
Proof.
  intros HC. unfold capture_node_bootid.
  assert (Hatt : ∀ n, quiet (capture_attempts plan pfx n node)).
  { induction n as [|n IH]; cbn [capture_attempts]; [apply only_io_ret|].
    pose proof (quiet_cp_kubectl _ HC). quiet. }
  quiet.
Qed.

(** The events of the waits. *)
Definition probe_opts (ip : string) : SshOptions :=
  with_connect_timeout (from_secs 3) (node_ssh_opts plan ip).

Lemma quiet_wait_ssh_drop ip : C (probe_opts ip) "true" → quiet (wait_ssh_drop plan pfx ip).
Proof.
  intros HC. unfold wait_ssh_drop, wait_ssh_drop_with, ssh_drop_round, probe_client. quiet.
Qed.
Lemma quiet_wait_ssh_back ip : C (probe_opts ip) "true" → quiet (wait_ssh_back plan pfx ip).
Proof.
  intros HC. unfold wait_ssh_back, wait_ssh_back_with, ssh_back_round, probe_client. quiet.
Qed.
Lemma quiet_wait_apiserver_back : on_cp "get --raw=/readyz" → quiet (wait_apiserver_back plan pfx).
Proof.
  intros HC%quiet_cp_kubectl. unfold wait_apiserver_back, apiserver_round. quiet.
Qed.
Lemma quiet_wait_node_ready node :
  on_cp ("get node " +:+ node +:+ " --no-headers") → quiet (wait_node_ready plan pfx node).
Proof.
  intros HC%quiet_cp_kubectl. unfold wait_node_ready, node_ready_round. quiet.
Qed.
Lemma quiet_wait_node_bootid_changed node pre :
  on_cp (bootid_cmd node) → quiet (wait_node_bootid_changed plan pfx node pre).
Proof.
  intros HC%quiet_cp_kubectl. unfold wait_node_bootid_changed, bootid_round. quiet.
Qed.
Lemma quiet_wait_node_daemonsets_ready node :
  on_cp (pods_cmd node) → on_cp (pods_ready_cmd node) →
  quiet (wait_node_daemonsets_ready plan pfx node).
Proof.
  intros HC%quiet_cp_kubectl HC'%quiet_cp_kubectl.
  unfold wait_node_daemonsets_ready, appear_round, daemonset_phase2, daemonset_round, unready_pods.
  quiet.
Qed.
End helpers.

(** ** [ssh] coming back *)

Section ssh_back.
Context `{W : World} (pfx : string) (o : SshOptions) (ip : string) (timeout : N).

(** A probe that failed, and the pause after it. *)
Definition missed (e : SshError) : history :=
  [EvSsh o "true" None (Err e); EvSleep (from_secs 5)].

Definition log_event (line : string) : event := EvOut (pfx +:+ "[update-cluster] " +:+ line).

(** The loop's invariant: so far every probe failed. *)
Definition all_missed (elapsed : N) (es : history) : Prop :=
  ∃ errs : list SshError,
    es = concat (missed <$> errs) ∧
    ((elapsed < timeout)%N → elapsed = (5 * N.of_nat (length errs))%N) ∧
    rounds timeout 5 = (length errs + rounds (timeout - elapsed) 5)%nat.

(** The transcript of the wait: [errs] are the answers of the probes that
    failed. *)
Definition ssh_back_run (r : result anyhow unit) (es : history) : Prop :=
  ∃ errs : list SshError,
    let waiting := log_event ("waiting for SSH to come back on " +:+ ip +:+ " (timeout "
                              +:+ s_of timeout +:+ ")") in
    (∃ out, r = Ok tt ∧ (length errs < rounds timeout 5)%nat ∧
       es = waiting :: concat (missed <$> errs)
            ++ [EvSsh o "true" None (Ok out);
                log_event ("SSH back on " +:+ ip +:+ " after ~"
                           +:+ s_of (5 * N.of_nat (length errs)))])
    ∨ (r = Err (anyhow_msg ("wait_ssh_back: SSH on " +:+ ip +:+ " did not come back within "
                            +:+ s_of timeout)) ∧
       length errs = rounds timeout 5 ∧ es = waiting :: concat (missed <$> errs)).

Lemma ssh_back_round_missed elapsed es :
  (timeout ≤ U32_MAX)%N → (elapsed < timeout)%N → all_missed elapsed es →
  emits (ssh_back_round pfx (client_exec o) ip elapsed tt) (λ r es',
    match r with
    | Ok (inl _) => ∃ errs out, (length errs < rounds timeout 5)%nat ∧
        es ++ es' = concat (missed <$> errs)
          ++ [EvSsh o "true" None (Ok out);
              log_event ("SSH back on " +:+ ip +:+ " after ~"
                         +:+ s_of (5 * N.of_nat (length errs)))]
    | Ok (inr _) => all_missed (saturating_add U32_MAX elapsed 5) (es ++ es')
    | Err _ => False
    end).
Proof.
  intros Ht He (errs & -> & Helapsed & Hrounds).
  rewrite (rounds_step timeout elapsed 5) in Hrounds by lia.
  unfold ssh_back_round, try, log. intros h. run_io.
  destruct (ssh_answer _ _ _ _) as [out|e]; run_io.
  - exists errs, out. split; [lia|]. by rewrite <-Helapsed.
  - exists (errs ++ [e]). rewrite fmap_app, concat_app, length_app. cbn [length].
    split_and!; [done| |lia]. unfold saturating_add. rewrite (Helapsed He). lia.
Qed.
End ssh_back.


