(* ===== verification/UpdateNodeFacts.v ===== *)
(** * hbird update-cluster: the bootc upgrade

    The [ssh] calls of [bootc_upgrade_apply] and the outcome it draws from
    their answers, as a specification of its own. *)

From S2P Require Import Prelude RustStr ConfigTypes SshOptions SshClient Effects Poll Cp UpdatePlan.
From S2P Require Import UpdateNode UpdateGates UpdateGatesFacts.

(** ** The [ssh] calls of a transcript *)

Abbreviation answer := (result SshError RunOutput).

(** The options it was run with, its command and its answer. *)
Abbreviation call := (SshOptions * string * answer)%type.

Definition call_of (e : event) : option call :=
  match e with EvSsh o c _ r => Some (o, c, r) | _ => None end.
Definition calls (es : history) : list call := omap call_of es.

Lemma calls_app es1 es2 : calls (es1 ++ es2) = calls es1 ++ calls es2.
Proof. apply omap_app. Qed.

Lemma calls_none es : Forall (within (λ _ _, False)) es → calls es = [].
Proof.
  induction 1 as [|e es He _ IH]; [done|]. unfold calls in *. cbn.
  destruct e as [| | | |o c [] r| | | | |]; done.
Qed.

(** ** The specification *)

Definition upgrade_apply_cmd : string := "bootc upgrade --apply".
Definition upgrade_cmd : string := "bootc upgrade".
Definition reboot_cmd : string := "systemctl reboot >/dev/null 2>&1".

Section spec.
Context (o : SshOptions).

(** Whether the host's [bootc] knows [--apply], from the probe's answer. *)
Inductive probed : answer → bool → Prop :=
| probed_yes out : probed (Ok out) true
| probed_no host stdout stderr : probed (Err (NonZeroExit host (Exited 1) stdout stderr)) false.

(** The calls that upgrade and reboot, and the answer that decides. *)
Inductive attempt : bool → list call → answer → Prop :=
| attempt_apply a : attempt true [(o, upgrade_apply_cmd, a)] a
| attempt_failed e : attempt false [(o, upgrade_cmd, Err e)] (Err e)
| attempt_reboot out a : attempt false [(o, upgrade_cmd, Ok out); (o, reboot_cmd, a)] a.

(** The digest that was booted before is non-empty and still booted. *)
Definition same_digest (pre post : RunOutput) : Prop :=
  trim (stdout_lossy pre) ≠ "" ∧ trim (stdout_lossy pre) = trim (stdout_lossy post).

(** The outcome drawn from the deciding answer and the later calls. *)
Inductive judged (pre : RunOutput)
    : answer → list call → result unit BootcUpgradeOutcome → Prop :=
| judged_current out post : same_digest pre post →
    judged pre (Ok out) [(o, digest_cmd, Ok post)] (Ok AlreadyCurrent)
| judged_changed out post : ¬ same_digest pre post →
    judged pre (Ok out) [(o, digest_cmd, Ok post)] (Ok Applied)
| judged_unknown out e : judged pre (Ok out) [(o, digest_cmd, Err e)] (Err tt)
| judged_rebooting host stdout stderr :
    judged pre (Err (NonZeroExit host (Exited 255) stdout stderr)) [] (Ok Applied)
| judged_failed host status stdout stderr : code status ≠ Some 255%Z →
    judged pre (Err (NonZeroExit host status stdout stderr)) [] (Ok UpgradeFailed)
| judged_transport e : (∀ host status stdout stderr, e ≠ NonZeroExit host status stdout stderr) →
    judged pre (Err e) [] (Err tt).

(** The calls of a whole upgrade and its outcome. *)
Inductive upgrade_calls : list call → result unit BootcUpgradeOutcome → Prop :=
| uc_no_digest e : upgrade_calls [(o, digest_cmd, Err e)] (Err tt)
| uc_no_probe pre a : (∀ b, ¬ probed a b) →
    upgrade_calls [(o, digest_cmd, Ok pre); (o, has_apply_cmd, a)] (Err tt)
| uc_upgrade pre p has_apply cs a later r :
    probed p has_apply → attempt has_apply cs a → judged pre a later r →
    upgrade_calls ((o, digest_cmd, Ok pre) :: (o, has_apply_cmd, p) :: cs ++ later) r.

End spec.

(** ** The implementation meets it *)

Definition forget {E A} (r : result E A) : result unit A := map_err (λ _, tt) r.

(** What the calls of [m] and its result satisfy. *)
Definition calling {E A} (m : IO E A) (Q : list call → result E A → Prop) : Prop :=
  emits m (λ r es, Q (calls es) r).

Lemma calling_bind {E A B} (m : IO E A) (f : A → IO E B) P Q :
  calling m P →
  (∀ a c1, P c1 (Ok a) → calling (f a) (λ c2 r, Q (c1 ++ c2) r)) →
  (∀ e c1, P c1 (Err e) → Q c1 (Err e)) →
  calling (m ≫= f : IO E B) Q.
Proof.
  intros Hm Hf He. eapply emits_io_bind; [exact Hm| |].
  - intros a e1 H1. eapply emits_conseq; [exact (Hf a (calls e1) H1)|]. intros r e2 H2. by rewrite calls_app.
  - intros e e1 H1. by apply He.
Qed.

(** A step without calls that succeeds. *)
Definition silent {E A} (m : IO E A) : Prop := calling m (λ cs r, cs = [] ∧ ∃ a, r = Ok a).

Lemma calling_silent_bind {E A B} (m : IO E A) (f : A → IO E B) Q :
  silent m → (∀ a, calling (f a) Q) → calling (m ≫= f : IO E B) Q.
Proof.
  intros Hm Hf. eapply (calling_bind _ _ (λ cs r, cs = [] ∧ ∃ a, r = Ok a)); [exact Hm| |intros e c1 [_ [a [=]]]].
  intros a c1 [-> _]. apply Hf.
Qed.

Lemma silent_log pfx l : silent (log pfx l).
Proof. intros h. split; [done|by eexists]. Qed.
Lemma silent_log_err pfx l : silent (log_err pfx l).
Proof. intros h. split; [done|by eexists]. Qed.
Lemma silent_log_text f text : (∀ l, silent (f l)) → silent (log_text f text).
Proof.
  intros Hf. unfold log_text. destruct (negb _); [|intros h; split; [done|by eexists]].
  induction (lines text) as [|l ls IH]; cbn [for_each]; [intros h; split; [done|by eexists]|].
  apply calling_silent_bind; [apply Hf|]. intros _. exact IH.
Qed.

Section upgrade.
Context `{W : World} (plan : Plan) (pfx : string) (o : SshOptions) (ip name : string).

Lemma calling_exec cmd Q :
  (∀ a, Q [(o, cmd, a)] a) → calling (@exec (client_exec o) cmd None) Q.
Proof. intros HQ h. apply HQ. Qed.

Lemma calling_try_exec {E} cmd (Q : list call → result E answer → Prop) :
  (∀ a, Q [(o, cmd, a)] (Ok a)) → calling (try (@exec (client_exec o) cmd None)) Q.
Proof. intros HQ h. apply HQ. Qed.

Lemma calling_digest :
  calling (bootc_booted_digest_with_exec (client_exec o) ip) (λ cs r,
    match r with
    | Ok d => ∃ out, cs = [(o, digest_cmd, Ok out)] ∧ d = trim (stdout_lossy out)
    | Err _ => ∃ e, cs = [(o, digest_cmd, Err e)]
    end).
Proof.
  unfold bootc_booted_digest_with_exec, calling. intros h. run_io.
  destruct (ssh_answer _ _ _ _) as [out|e]; run_io; cbn; eauto.
Qed.

Lemma calling_has_apply :
  calling (bootc_has_apply_with_exec (client_exec o) ip) (λ cs r,
    ∃ a, cs = [(o, has_apply_cmd, a)] ∧
    match r with Ok b => probed a b | Err _ => ∀ b, ¬ probed a b end).
Proof.
  unfold bootc_has_apply_with_exec.
  eapply calling_bind; [by apply (calling_try_exec _ (λ cs r, ∃ a, cs = [(o, has_apply_cmd, a)] ∧ r = Ok a)); eauto| |].
  2: by intros e c1 (a & _ & [=]).
  intros a c1 (a' & -> & [= <-]) h. exists a. cbn.
  destruct a as [out|[]]; try (split; [done|]; try constructor; intros b Hb; by inversion Hb).
  destruct status as [n|]; [|split; [done|intros b Hb; by inversion Hb]].
  destruct (decide (n = 1%Z)) as [->|Hn]; [by repeat constructor|].
  split.
  - by destruct n as [|[]|].
  - destruct n as [|[]|]; try done; intros b Hb; by inversion Hb.
Qed.

Lemma calling_run_upgrade has_apply :
  calling (run_upgrade pfx (client_exec o) name has_apply) (λ cs r,
    ∃ a, r = Ok a ∧ attempt o has_apply cs a).
Proof.
  unfold run_upgrade. destruct has_apply.
  { apply calling_try_exec. intros a. exists a. by split; [|constructor]. }
  apply calling_silent_bind; [apply silent_log|]. intros _.
  apply (calling_bind _ _ (λ cs r, ∃ a, cs = [(o, upgrade_cmd, a)] ∧ r = Ok a)).
  { apply calling_try_exec. eauto. }
  2: by intros e c1 (a & _ & [=]).
  intros a c1 (a' & -> & [= <-]). destruct a as [out|e].
  - apply calling_silent_bind; [apply silent_log_text; intros; apply silent_log_err|]. intros _.
    apply calling_try_exec. intros a. exists a. by split; [|constructor].
  - intros h. exists (Err e). by split; [|constructor].
Qed.

Lemma calling_classify pre a :
  calling (classify_upgrade pfx (client_exec o) ip name (trim (stdout_lossy pre)) a)
    (λ cs r, judged o pre a cs (forget r)).
Proof.
  unfold classify_upgrade. destruct a as [out|e].
  { apply calling_silent_bind; [apply silent_log_text; intros; apply silent_log_err|]. intros _.
    eapply calling_bind; [apply calling_digest| |].
    2: { intros e c1 (e' & ->). constructor. }
    intros d c1 (post & -> & ->).
    apply calling_silent_bind; [apply silent_log|]. intros _.
    destruct (negb _ && negb _ && bool_decide _) eqn:Hb.
    - apply calling_silent_bind; [apply silent_log|]. intros _ h. constructor.
      rewrite !andb_true_iff, !negb_true_iff, bool_decide_eq_true in Hb.
      split; [|tauto]. intros Heq. rewrite Heq in Hb. by destruct Hb as [[? _] _].
    - intros h. constructor. intros [Hne Heq]. rewrite <-Heq in Hb.
      rewrite bool_decide_eq_true_2 in Hb by done. rewrite andb_true_r, andb_diag in Hb.
      apply negb_false_iff in Hb. by destruct (trim (stdout_lossy pre)). }
  destruct e as [| | |host status stdout stderr| |]; try (intros h; by constructor).
  apply calling_silent_bind; [apply silent_log_text; intros; apply silent_log_err|]. intros _.
  destruct (code status) as [n|] eqn:Hc.
  - destruct status as [n'|]; [|done]. injection Hc as ->.
    destruct (decide (n = 255%Z)) as [->|Hn]; [intros h; constructor|].
    replace (match n with 255%Z => _ | _ => _ end) with
      (_ ← log pfx ("bootc upgrade on " +:+ name +:+ " exited unexpectedly (rc=" +:+ show_Z n +:+ ")");
       mret UpgradeFailed : IO anyhow BootcUpgradeOutcome).
    2: { destruct n as [|p|]; try done. do 8 (destruct p as [p|p|]; try done). }
    apply calling_silent_bind; [apply silent_log|]. intros _ h. constructor. cbn. by intros [= ->].
  - apply calling_silent_bind; [apply silent_log|]. intros _ h. constructor. by rewrite Hc.
Qed.
End upgrade.

Lemma bootc_upgrade_calls `{W : World} pfx o ip name :
  calling (bootc_upgrade_apply_with_exec pfx (client_exec o) ip name false)
    (λ cs r, upgrade_calls o cs (forget r)).
Proof.
  unfold bootc_upgrade_apply_with_exec.
  eapply calling_bind; [apply calling_digest| |].
  2: { intros e c1 (e' & ->). constructor. }
  intros d c1 (pre & -> & ->). apply calling_silent_bind; [apply silent_log|]. intros _.
  eapply calling_bind; [apply calling_has_apply| |].
  2: { intros e c1 (p & -> & Hp). by constructor. }
  intros has_apply c1 (p & -> & Hp).
  eapply calling_bind; [apply calling_run_upgrade| |].
  2: by intros e c1 (a & [=] & _).
  intros a cs (a' & [= <-] & Hatt).
  eapply emits_conseq; [apply calling_classify|]. intros r es Hj.
  exact (uc_upgrade o pre p has_apply cs a (calls es) _ Hp Hatt Hj).
Qed.

(** [bootc]'s commands on the node. *)
Lemma quiet_bootc_upgrade `{W : World} (C : SshOptions → string → Prop) plan pfx ip name :
  (∀ c, c ∈ [digest_cmd; has_apply_cmd; upgrade_apply_cmd; upgrade_cmd; reboot_cmd] →
     C (node_ssh_opts plan ip) c) →
  only (within C) (bootc_upgrade_apply plan pfx ip name).
Proof.
  intros HC. unfold bootc_upgrade_apply, bootc_upgrade_apply_with_exec.
  destruct (dry_run plan); [quiet|]. cbv zeta.
  apply only_io_bind; [|intros pre]. 2: apply only_io_bind; [apply quiet_log|intros _].
  2: apply only_io_bind; [|intros has_apply]. 3: apply only_io_bind; [|intros a].
  - unfold bootc_booted_digest_with_exec, node_client. quiet. apply HC. set_solver.
  - unfold bootc_has_apply_with_exec, node_client. quiet. apply HC. set_solver.
  - unfold run_upgrade, node_client. quiet; apply HC; set_solver.
  - unfold classify_upgrade, bootc_booted_digest_with_exec, node_client. quiet; apply HC; set_solver.
Qed.

(** C7: the upgrade of a node makes exactly the specified [ssh] calls, whatever
    their answers are, and draws the specified outcome: [AlreadyCurrent] only
    for a command that succeeded with the same non-empty digest booted before
    and after, [Applied] for a new or unknown digest or the exit status 255 of
    a connection cut by the reboot, [UpgradeFailed] for every other exit status
    or a signal, and an error when a call failed in any other way. *)
Theorem bootc_upgrade_outcome `{W : World} pfx o ip name :
  emits (bootc_upgrade_apply_with_exec pfx (client_exec o) ip name false)
    (λ r es, upgrade_calls o (calls es) (forget r)).
Proof. apply bootc_upgrade_calls. Qed.
