(* ===== verification/UpdateFlowFacts.v ===== *)
(** * hbird update-cluster: what updating a worker guarantees

    A worker is drained before it is upgraded, it is uncordoned only once the
    reboot was observed and the node is Ready, and the recovery hint is printed
    exactly when the node stays cordoned. *)

From S2P Require Import Prelude RustStr ConfigTypes SshOptions SshClient Effects Poll Cp UpdatePlan.
From S2P Require Import UpdateNode UpdateGates UpdateFlow UpdateFixtures UpdateGatesFacts.
From S2P Require Import UpdateNodeFacts.

(** ** Rules for computations that own an [InFlight] *)

(** After [m], run from state [s], [Q] holds of the result, the new state and
    the new events. *)
Definition tr_emits {A} (m : Tr A) (s : InFlight)
    (Q : result anyhow A → InFlight → history → Prop) : Prop :=
  ∀ h, Q (m s h).1.1 (m s h).1.2 (m s h).2.

Section rules.
Context {A B : Type}.

Lemma tr_conseq (m : Tr A) s (P Q : result anyhow A → InFlight → history → Prop) :
  tr_emits m s P → (∀ r s' es, P r s' es → Q r s' es) → tr_emits m s Q.
Proof. intros Hm HPQ h. apply HPQ, Hm. Qed.

Lemma tr_ret (a : A) s (Q : result anyhow A → InFlight → history → Prop) :
  Q (Ok a) s [] → tr_emits (mret a) s Q.
Proof. by intros ? h. Qed.

Lemma tr_bind (m : Tr A) (f : A → Tr B) s P (Q : result anyhow B → InFlight → history → Prop) :
  tr_emits m s P →
  (∀ a s1 e1, P (Ok a) s1 e1 → tr_emits (f a) s1 (λ r s2 e2, Q r s2 (e1 ++ e2))) →
  (∀ e s1 e1, P (Err e) s1 e1 → Q (Err e) s1 e1) →
  tr_emits (m ≫= f) s Q.
Proof.
  intros Hm Hf He h. unfold mbind, Tr_bind. specialize (Hm h).
  destruct (m s h) as [[[a|e] s1] e1]; cbn [fst snd] in Hm; [|by apply He].
  specialize (Hf a s1 e1 Hm (h ++ e1)). by destruct (f a s1 (h ++ e1)).
Qed.

Lemma tr_io (m : IO anyhow A) s (Q : result anyhow A → InFlight → history → Prop) :
  emits m (λ r es, Q r s es) → tr_emits (io m) s Q.
Proof. intros Hm h. unfold io. specialize (Hm h). by destruct (m h). Qed.

Lemma tr_modify f s (Q : result anyhow unit → InFlight → history → Prop) :
  Q (Ok tt) (f s) [] → tr_emits (modify f) s Q.
Proof. by intros ? h. Qed.

(** The events of the [Drop]. *)
Definition drop_events (s : InFlight) : history :=
  if if_drained s && negb (if_uncordoned s) && negb (is_empty (if_node s))
  then EvErr <$> hint s else [].

Lemma drop_in_flight_events s : emits (drop_in_flight s) (λ _ es, es = drop_events s).
Proof.
  unfold drop_in_flight, drop_events. destruct (_ && _ && _); [|by intros h].
  induction (hint s) as [|l ls IH]; cbn [for_each_M]; [by intros h|].
  eapply (emits_bind _ _ (λ _ es, es = [EvErr l])); [by intros h|].
  intros _ e1 ->. eapply emits_conseq; [exact IH|]. by intros _ e2 ->.
Qed.

Lemma emits_scoped init (body : Tr A) (Q : result anyhow A → history → Prop) :
  tr_emits body init (λ r s es, Q r (es ++ drop_events s)) → emits (scoped init body) Q.
Proof.
  intros Hb h. unfold scoped. specialize (Hb h). destruct (body init h) as [[r s] e1].
  pose proof (drop_in_flight_events s (h ++ e1)) as Hd.
  destruct (drop_in_flight s (h ++ e1)) as [u e2]. cbn [fst snd] in *. by rewrite Hd.
Qed.
End rules.

(** *** Computations all of whose events satisfy a predicate *)

Section tr_all.
Context (P : event → Prop).
Definition tr_only {A} (m : Tr A) : Prop := ∀ s, tr_emits m s (λ _ _ es, Forall P es).

Lemma tr_only_ret {A} (a : A) : tr_only (mret a).
Proof. intros s. by apply tr_ret. Qed.
Lemma tr_only_bind {A B} (m : Tr A) (f : A → Tr B) :
  tr_only m → (∀ a, tr_only (f a)) → tr_only (m ≫= f).
Proof.
  intros Hm Hf s. eapply tr_bind; [apply Hm| |done]. intros a s1 e1 H1.
  eapply tr_conseq; [apply Hf|]. intros r s2 e2 H2. by apply Forall_app.
Qed.
Lemma tr_only_io {A} (m : IO anyhow A) : only P m → tr_only (io m).
Proof. intros Hm s. by apply tr_io. Qed.
Lemma tr_only_modify f : tr_only (modify f).
Proof. intros s. by apply tr_modify. Qed.
End tr_all.

(** *** Computations that succeed only when something was seen *)

Section tr_passes.
Context (N : event → Prop).
Definition tr_passes {A} (K : history → Prop) (m : Tr A) : Prop :=
  ∀ s, tr_emits m s (λ r _ es, Forall N es ∧ ∀ a, r = Ok a → K es).

Lemma tr_passes_io {A} (K : history → Prop) (m : IO anyhow A) :
  only N m → emits m (λ r es, ∀ a, r = Ok a → K es) → tr_passes K (io m).
Proof. intros H1 H2 s. apply tr_io. by apply emits_and. Qed.

(** A step that adds nothing to [K]. *)
Lemma tr_passes_skip `{!Grows K} {A B} (m : Tr A) (f : A → Tr B) :
  tr_only N m → (∀ a, tr_passes K (f a)) → tr_passes K (m ≫= f).
Proof.
  intros Hm Hf s. eapply tr_bind; [apply Hm| |by intros e s1 e1 H1; split; [|by intros]].
  intros a s1 e1 H1. eapply tr_conseq; [apply Hf|]. intros r s2 e2 [H2 HK].
  split; [by apply Forall_app|]. intros b Hb. apply (grows_r K). by eapply HK.
Qed.

(** A step that contributes a part. *)
Lemma tr_passes_both K1 K2 `{!Grows K1, !Grows K2} {A B} (m : Tr A) (f : A → Tr B) :
  tr_passes K1 m → (∀ a, tr_passes K2 (f a)) → tr_passes (λ es, K1 es ∧ K2 es) (m ≫= f).
Proof.
  intros Hm Hf s. eapply tr_bind; [apply Hm| |by intros e s1 e1 [H1 _]; split; [|by intros]].
  intros a s1 e1 [H1 HK1]. eapply tr_conseq; [apply Hf|]. intros r s2 e2 [H2 HK].
  split; [by apply Forall_app|]. intros b Hb.
  split; [apply (grows_l K1); by eapply HK1|apply (grows_r K2); by eapply HK].
Qed.

Lemma tr_passes_all {A} (m : Tr A) : tr_only N m → tr_passes (λ _, True) m.
Proof. intros Hm s. eapply tr_conseq; [apply Hm|]. by intros. Qed.

Lemma tr_passes_impl {A} (K K' : history → Prop) (m : Tr A) :
  (∀ es, K es → K' es) → tr_passes K m → tr_passes K' m.
Proof.
  intros HK Hm s. eapply tr_conseq; [apply Hm|]. intros r s' es [H1 H2].
  split; [done|]. intros a Ha. eapply HK, H2, Ha.
Qed.
End tr_passes.

(** *** Invariants of the state and of what was emitted so far *)

Section tr_keeps.
Context (I : InFlight → history → Prop).
Definition tr_keeps {A} (m : Tr A) : Prop :=
  ∀ s es0, I s es0 → tr_emits m s (λ _ s' es, I s' (es0 ++ es)).

Lemma tr_keeps_ret {A} (a : A) : tr_keeps (mret a).
Proof. intros s es0 HI. apply tr_ret. by rewrite app_nil_r. Qed.
Lemma tr_keeps_bind {A B} (m : Tr A) (f : A → Tr B) :
  tr_keeps m → (∀ a, tr_keeps (f a)) → tr_keeps (m ≫= f).
Proof.
  intros Hm Hf s es0 HI. eapply tr_bind; [exact (Hm s es0 HI)| |done]. intros a s1 e1 H1.
  eapply tr_conseq; [exact (Hf a s1 (es0 ++ e1) H1)|]. intros r s2 e2 H2. by rewrite app_assoc.
Qed.
End tr_keeps.

(** *** Events that come only after a condition *)

Section tr_precedes.
Context (G : history → Prop) (T : event → Prop).
Abbreviation guarded m s := (tr_emits m s (λ _ _ es, precedes G T es)).

(** Before the condition is reached, no such event. *)
Lemma tr_precedes_before `{!Grows G} {A B} (m : Tr A) (f : A → Tr B) s :
  tr_only (λ e, ¬ T e) m → (∀ a s', guarded (f a) s') → guarded (m ≫= f) s.
Proof.
  intros Hm Hf. eapply tr_bind; [apply Hm| |by intros e s1 e1 H1%(precedes_none G)].
  intros a s1 e1 H1%(precedes_none G). eapply tr_conseq; [apply Hf|]. intros r s2 e2 H2.
  apply (precedes_app G T); auto.
Qed.

(** Once it is reached, anything. *)
Lemma tr_precedes_reach `{!Grows G} {A B} (m : Tr A) (f : A → Tr B) s :
  tr_emits m s (λ r _ es, precedes G T es ∧ ∀ a, r = Ok a → G es) → guarded (m ≫= f) s.
Proof.
  intros Hm. eapply tr_bind; [exact Hm| |by intros e s1 e1 [H1 _]].
  intros a s1 e1 [H1 HG] h. apply (precedes_app G T); eauto.
Qed.

Lemma guarded_scoped `{!Grows G} {A} init (body : Tr A) :
  (∀ l, ¬ T (EvErr l)) → guarded body init →
  emits (scoped init body) (λ _ es, precedes G T es).
Proof.
  intros HT Hb. apply emits_scoped. eapply tr_conseq; [exact Hb|].
  intros r s es Hes. apply (precedes_app G T); [done|]. right. apply precedes_none.
  unfold drop_events. destruct (_ && _ && _); [|constructor].
  apply Forall_fmap, Forall_true. intros l. apply HT.
Qed.
End tr_precedes.

(** ** Kinds of events *)

(** An [ssh] call that was answered, with an answer that satisfies [P]. *)
Definition answered (o : SshOptions) (cmd : string) (P : RunOutput → Prop) (e : event) : Prop :=
  match e with EvSsh o' c None (Ok out) => o' = o ∧ c = cmd ∧ P out | _ => False end.

(** An [ssh] call of one of [cmds], answered or not. *)
Definition runs (cmds : list string) (e : event) : Prop :=
  match e with EvSsh _ c _ _ => c ∈ cmds | _ => False end.

Definition upgrade_cmds : list string := [upgrade_apply_cmd; upgrade_cmd; reboot_cmd].

Lemma within_not_runs (C : SshOptions → string → Prop) cmds e :
  (∀ o c, C o c → c ∉ cmds) → within C e → ¬ runs cmds e.
Proof. intros HC. destruct e as [| | | |o c [] r| | | | |]; cbn; try tauto. apply HC. Qed.

Lemma remote_kubectl_not_in cmd cmds :
  forallb (λ c, negb (starts_with "k" c)) cmds = true → remote_kubectl cmd ∉ cmds.
Proof.
  intros Hall Hin. rewrite forallb_elem in Hall. specialize (Hall _ Hin).
  by vm_compute in Hall.
Qed.

(** Refutes that a command is one of a list of commands. *)
Ltac not_in :=
  first [by apply remote_kubectl_not_in; vm_compute
        |by apply (bool_decide_unpack _); vm_compute].

Lemma log_text_Ok f text :
  (∀ l, emits (f l) (λ r (_ : history), r = Ok tt)) →
  emits (log_text f text) (λ r (_ : history), r = Ok tt).
Proof.
  intros Hf. unfold log_text. destruct (negb _); [|by intros h].
  induction (lines text) as [|l ls IH]; cbn [for_each]; [by intros h|].
  eapply emits_io_bind; [apply Hf| |by intros]. intros _ e1 _. exact IH.
Qed.

Section worker.
Context `{W : World} (plan : Plan) (pfx : string).
Context (name ip k8s : string).
Abbreviation cp := (plan_cp_ssh_opts plan).

(** A [kubectl] call that returns was answered; one that fails was not. *)
Lemma cp_kubectl_answered cmd : dry_run plan = false →
  emits (cp_kubectl plan pfx cmd) (λ r es,
    match r with
    | Ok out => Exists (answered cp (remote_kubectl cmd) (λ o, stdout_lossy o = out)) es
    | Err _ => Forall (λ e, ∀ c P, ¬ answered cp c P e) es
    end).
Proof.
  intros Hdry. unfold cp_kubectl, cp_kubectl_live. rewrite Hdry.
  eapply (emits_io_bind _ _ (λ _ es, es = [])); [by apply emits_of_result| |by intros e e1 ->].
  intros _ e1 ->. cbn [app].
  eapply (emits_io_bind _ _ (λ r es, match r with
    | Ok out => es = [EvSsh cp (remote_kubectl cmd) None (Ok out)]
    | Err _ => Forall (λ e, ∀ c P, ¬ answered cp c P e) es end)).
  { intros h. run_io. destruct (ssh_answer _ _ _ _) as [out|e]; cbn; [done|].
    constructor; [|constructor]. intros c P []. }
  2: by intros e e1 H1.
  intros out e1 ->.
  eapply (emits_io_bind _ _ (λ r _, r = Ok tt)); [by apply log_text_Ok| |by intros].
  intros _ e2 _. eapply (emits_io_bind _ _ (λ r _, r = Ok tt)); [by apply log_text_Ok| |by intros].
  intros _ e3 _. apply emits_io_ret. by left.
Qed.

(** *** The worker is drained before it is upgraded *)

Definition drained : history → Prop :=
  Exists (answered cp (remote_kubectl (drain_cmd plan k8s)) (λ _, True)).

Lemma answered_impl o cmd (P Q : RunOutput → Prop) e :
  (∀ out, P out → Q out) → answered o cmd P e → answered o cmd Q e.
Proof. intros HPQ. destruct e as [| | | |? ? [] []| | | | |]; cbn; try tauto. naive_solver. Qed.

Lemma only_not_runs {A} (m : M A) cmds :
  only (within (λ _ c, c ∉ cmds)) m → only (λ e, ¬ runs cmds e) m.
Proof.
  intros Hm. eapply emits_conseq; [exact Hm|]. intros a es Hes.
  eapply Forall_impl; [exact Hes|]. intros e. by apply within_not_runs.
Qed.

Lemma tr_cp_kubectl cmd cmds s : dry_run plan = false → remote_kubectl cmd ∉ cmds →
  tr_emits (io (cp_kubectl plan pfx cmd)) s (λ r s' es,
    s' = s ∧ Forall (λ e, ¬ runs cmds e) es ∧
    ∀ a, r = Ok a → Exists (answered cp (remote_kubectl cmd) (λ _, True)) es).
Proof.
  intros Hdry Hcmd. apply tr_io.
  eapply emits_conseq; [apply emits_and; [by apply cp_kubectl_answered|]|].
  { by apply only_not_runs, quiet_cp_kubectl. }
  intros r es [HE H]. split_and!; [done|done|]. intros a ->.
  eapply Exists_impl; [exact HE|]. intros e. by apply answered_impl.
Qed.

Lemma drain_worker_drains s : dry_run plan = false → skip_drain plan = false →
  tr_emits (drain_worker plan pfx k8s) s
    (λ r _ es, precedes drained (runs upgrade_cmds) es ∧ ∀ a, r = Ok a → drained es).
Proof.
  intros Hdry Hskip. unfold drain_worker. rewrite Hskip. cbv zeta.
  eapply (tr_conseq _ _ (λ r _ es, Forall (λ e, ¬ runs upgrade_cmds e) es ∧
                                   ∀ a, r = Ok a → drained es)).
  2: { intros r s' es [H1 H2]. split; [by apply precedes_none|done]. }
  eapply (tr_bind _ _ _ (λ _ _ es, Forall (λ e, ¬ runs upgrade_cmds e) es)).
  { apply tr_only_io. by apply only_not_runs, quiet_log. }
  2: by intros e s1 e1 H1.
  intros _ s1 e1 H1. eapply tr_bind; [apply (tr_cp_kubectl _ upgrade_cmds); [done|not_in]| |].
  2: { intros e s2 e2 (_ & H2 & _). split; [by apply Forall_app|by intros]. }
  intros out s2 e2 (_ & H2 & HE) h. cbn. rewrite !app_nil_r. split; [by apply Forall_app|].
  intros _ _. apply Exists_app. right. by eapply HE.
Qed.
End worker.

(** C3: with draining on, every command that upgrades or reboots a worker comes
    after a [kubectl drain] of that worker was answered with success. *)
Theorem upgraded_only_drained `{W : World} plan pfx name ip k8s :
  dry_run plan = false → skip_drain plan = false →
  emits (update_worker plan pfx name ip k8s)
    (λ _ es, precedes (drained plan k8s) (runs upgrade_cmds) es).
Proof.
  intros Hdry Hskip. unfold update_worker, update_worker_body.
  apply guarded_scoped; [apply _|intros l []|].
  assert (Hq : ∀ m : IO anyhow unit, only (within (λ _ c, c ∉ upgrade_cmds)) m →
            tr_only (λ e, ¬ runs upgrade_cmds e) (io m)).
  { intros m Hm. by apply tr_only_io, only_not_runs. }
  apply tr_precedes_before; [apply _|apply Hq|intros _ s1].
  { unfold worker_banner. quiet. }
  apply tr_precedes_before; [apply _|apply Hq, quiet_timer_stop; not_in|intros _ s2].
  apply tr_precedes_reach; [apply _|]. by apply drain_worker_drains.
Qed.

Lemma upgraded_only_drained_witness :
  let W := live_world in
  (dry_run sample_plan = false ∧ skip_drain sample_plan = false) ∧
  emits (update_worker sample_plan "" "w1" "10.0.0.2" "w1")
    (λ _ es, precedes (drained sample_plan "w1") (runs upgrade_cmds) es).
Proof. split; [done|]. by apply upgraded_only_drained. Defined.

(** ** What the gates saw *)

Section seen.
Context `{W : World} (plan : Plan) (pfx : string) (k8s : string).
Context (Hdry : dry_run plan = false).
Abbreviation cp := (plan_cp_ssh_opts plan).

(** A [kubectl get node] that reported the node [Ready]. *)
Definition ready_seen : history → Prop :=
  Exists (answered cp (remote_kubectl ("get node " +:+ k8s +:+ " --no-headers"))
            (λ o, stdout_has_ready_status (stdout_lossy o) = true)).

(** A reading of the node's boot id. *)
Definition bootid_read (P : string → Prop) : event → Prop :=
  answered cp (remote_kubectl (bootid_cmd k8s)) (λ o, P (trim (stdout_lossy o))).

Lemma cp_kubectl_try cmd (Q : result anyhow string → history → Prop) :
  (∀ r es, match r with
           | Ok out => Exists (answered cp (remote_kubectl cmd) (λ o, stdout_lossy o = out)) es
           | Err _ => True
           end → Q r es) →
  emits (try (cp_kubectl plan pfx cmd) : IO anyhow (result anyhow string))
    (λ r es, ∃ r', r = Ok r' ∧ Q r' es).
Proof using Hdry.
  intros HQ. apply emits_lift. unfold catch.
  eapply emits_conseq; [by apply cp_kubectl_answered|]. intros r es Hr.
  exists r. split; [done|]. apply HQ. by destruct r.
Qed.

Lemma wait_node_ready_seen :
  emits (wait_node_ready plan pfx k8s) (λ r es, r = Ok tt → ready_seen es).
Proof using Hdry.
  unfold wait_node_ready. cbv zeta. rewrite Hdry.
  eapply (emits_io_bind _ _ (λ _ _, True)); [by intros h| |by intros].
  intros _ e1 _.
  eapply (emits_io_bind _ _ (λ r es, ∀ a, r = Ok (inl a) → ready_seen es)).
  - apply emits_poll_exit.
    { intros a es es' Hes. apply Exists_app. by right. }
    intros elapsed st. unfold node_ready_round.
    eapply (emits_io_bind _ _ (λ r es, ∃ r', r = Ok r' ∧ _)).
    { apply cp_kubectl_try. intros r es Hr. exact Hr. }
    2: by intros e es (r' & [=] & _).
    intros r es (r' & [= <-] & Hr).
    destruct r as [out|]; [|intros h a; run_io; by intros [=]].
    destruct (stdout_has_ready_status out) eqn:Hready; [|intros h a; run_io; by intros [=]].
    eapply (emits_io_bind _ _ (λ _ _, True)); [by intros h| |by intros ?? _ a [=]].
    intros _ e2 _. apply emits_io_ret. intros a _. rewrite app_nil_r. apply Exists_app. left.
    eapply Exists_impl; [exact Hr|]. intros e. apply answered_impl. by intros o <-.
  - intros [a|st] e2 H2.
    + apply emits_io_ret. intros _. rewrite app_nil_r. apply Exists_app. right. by eapply H2.
    + apply emits_throw. by intros [=].
  - by intros e e2 _ [=].
Qed.

Lemma bootid_read_impl (P Q : string → Prop) es :
  (∀ v, P v → Q v) → Exists (bootid_read P) es → Exists (bootid_read Q) es.
Proof.
  intros HPQ HE. eapply Exists_impl; [exact HE|]. intros e. apply answered_impl. auto.
Qed.

(** [cp_kubectl(..)] whose failures and whitespace are read as no boot id. *)
Lemma bootid_probe :
  emits (try (cp_kubectl plan pfx (bootid_cmd k8s)) : IO anyhow (result anyhow string))
    (λ r es, ∃ r', r = Ok r' ∧
       let val := match r' with Ok v => trim v | Err _ => "" end in
       val ≠ "" → Exists (bootid_read (λ v, v = val)) es).
Proof using Hdry.
  apply cp_kubectl_try. intros [out|e] es Hr; cbn; [|done]. intros _.
  eapply Exists_impl; [exact Hr|]. intros e. apply answered_impl. by intros o <-.
Qed.

Lemma capture_seen :
  emits (capture_node_bootid plan pfx k8s) (λ r es,
    ∀ pre, r = Ok pre → pre ≠ "" → Exists (bootid_read (λ v, v = pre)) es).
Proof using Hdry.
  unfold capture_node_bootid. rewrite Hdry.
  eapply (emits_io_bind _ _ (λ r es,
            ∀ pre, r = Ok (Some pre) → pre ≠ "" → Exists (bootid_read (λ v, v = pre)) es)).
  - generalize 3%nat; intros n; induction n as [|n IH]; cbn [capture_attempts]; [by intros h pre [=]|].
    eapply (emits_io_bind _ _ (λ r es, ∃ r', r = Ok r' ∧ _)); [apply bootid_probe| |].
    2: by intros e es (r' & [=] & _).
    intros r es (r' & [= <-] & Hr). cbv zeta in Hr |- *.
    destruct (is_empty (match r with Ok v => trim v | Err _ => "" end)) eqn:He; cbn [negb].
    + eapply (emits_io_bind _ _ (λ _ _, True)); [by intros h| |by intros ?? _ pre [=]].
      intros _ e2 _. eapply emits_conseq; [exact IH|].
      intros r2 e3 H3 pre Hpre Hne. rewrite !Exists_app. right. right. by eapply H3.
    + apply emits_io_ret. intros pre [= <-] Hne. rewrite app_nil_r. by apply Hr.
  - intros [pre|] es Hes.
    + apply emits_io_ret. intros v [= <-] Hne. rewrite app_nil_r. by eapply Hes.
    + eapply (emits_io_bind _ _ (λ _ _, True)); [by intros h| |by intros ?? _ pre [=]].
      intros _ e2 _. apply emits_io_ret. by intros pre [= <-].
  - by intros e es _ pre [=].
Qed.

(** The warning that there is no boot id to compare with. *)
Definition no_bootid_warning : event :=
  EvErr (pfx +:+ "[update-cluster] " +:+ "WARN: node " +:+ k8s
         +:+ ": pre-reboot bootID was empty; skipping bootID-changed gate").

(** Another boot id than [pre] was read, unless the comparison was waived. *)
Definition reboot_seen (pre : string) (es : history) : Prop :=
  skip_gates plan = true ∨ Exists (eq no_bootid_warning) es
  ∨ (pre ≠ "" ∧ Exists (bootid_read (λ v, v ≠ "" ∧ v ≠ pre)) es).

Lemma wait_bootid_seen pre :
  emits (wait_node_bootid_changed plan pfx k8s pre) (λ r es, r = Ok tt → reboot_seen pre es).
Proof using Hdry.
  unfold wait_node_bootid_changed. cbv zeta. destruct (skip_gates plan) eqn:Hskip.
  { intros h _. by left. }
  destruct (is_empty pre) eqn:Hpre.
  { intros h _. right. left. by left. }
  rewrite Hdry. eapply (emits_io_bind _ _ (λ _ _, True)); [by intros h| |by intros].
  intros _ e1 _.
  eapply (emits_io_bind _ _ (λ r es,
            ∀ a, r = Ok (inl a) → Exists (bootid_read (λ v, v ≠ "" ∧ v ≠ pre)) es)).
  - apply emits_poll_exit.
    { intros a es es' Hes. apply Exists_app. by right. }
    intros elapsed st. unfold bootid_round. cbv zeta.
    eapply (emits_io_bind _ _ (λ r es, ∃ r', r = Ok r' ∧ _)); [apply bootid_probe| |].
    2: by intros e es (r' & [=] & _).
    intros r es (r' & [= <-] & Hr). cbv zeta in Hr.
    set (val := match r with Ok v => trim v | Err _ => "" end) in *.
    destruct (is_empty val) eqn:He; cbn [negb andb];
      [|destruct (bool_decide (val = pre)) eqn:Hd; cbn [negb]].
    1,2: eapply (emits_io_bind _ _ (λ _ _, True)); [by intros h| |by intros ?? _ a [=]];
      intros _ e2 _; destruct (_ && _); intros h a; run_io; by intros [=].
    eapply (emits_io_bind _ _ (λ _ _, True)); [by intros h| |by intros ?? _ a [=]].
    intros _ e2 _. apply emits_io_ret. intros a _. rewrite app_nil_r. apply Exists_app. left.
    apply bool_decide_eq_false in Hd.
    assert (val ≠ "") as Hne by (by intros Hv; rewrite Hv in He).
    eapply bootid_read_impl; [|by apply Hr]. by intros v ->.
  - intros [a|st] e2 H2.
    + apply emits_io_ret. intros _. rewrite app_nil_r. right. right.
      split; [by intros ->|]. apply Exists_app. right. by eapply H2.
    + destruct st. eapply (emits_io_bind _ _ (λ _ _, True)); [by intros h| |by intros].
      intros _ e3 _. apply emits_throw. by intros [=].
  - by intros e e2 _ [=].
Qed.
End seen.

(** ** A worker is uncordoned only when it is back *)

Section uncordon.
Context `{W : World} (plan : Plan) (pfx name ip k8s : string).
Context (Hdry : dry_run plan = false).
Abbreviation uncordons := (runs [remote_kubectl (uncordon_cmd k8s)]).
Abbreviation node_opts := (node_ssh_opts plan ip).

(** The upgrade ran and left the same image booted. *)
Definition unchanged (es : history) : Prop :=
  ∃ cs, upgrade_calls node_opts cs (Ok AlreadyCurrent) ∧ cs `sublist_of` calls es.

#[export] Instance grows_unchanged : Grows unchanged.
Proof.
  intros es es1 es2 (cs & Hcs & Hs). exists cs. split; [done|].
  rewrite !calls_app. by apply sublist_inserts_l, sublist_inserts_r.
Qed.

(** Two readings of the boot id, the second one another. *)
Definition rebooted (es : history) : Prop :=
  ∃ k, (∃ e1 e2 pre, k = [e1; e2] ∧ bootid_read plan k8s (λ v, v = pre) e1
                     ∧ bootid_read plan k8s (λ v, v ≠ "" ∧ v ≠ pre) e2)
       ∧ k `sublist_of` es.

(** The node is back: it was seen [Ready], and with another boot id than
    before, unless the gate is off or no boot id could be read before. *)
Definition back (es : history) : Prop :=
  ready_seen plan k8s es ∧
  (skip_gates plan = true ∨ Exists (eq (no_bootid_warning pfx k8s)) es ∨ rebooted es).

Definition gates_seen (pre : string) (es : history) : Prop :=
  ready_seen plan k8s es ∧ reboot_seen plan pfx k8s pre es.

#[export] Instance grows_gates_seen pre : Grows (gates_seen pre).
Proof. unfold gates_seen, reboot_seen, ready_seen. apply _. Qed.
#[export] Instance grows_back : Grows back.
Proof. unfold back, rebooted, ready_seen. apply _. Qed.

Lemma gates_seen_back pre es1 es2 :
  (pre ≠ "" → Exists (bootid_read plan k8s (λ v, v = pre)) es1) →
  gates_seen pre es2 → back (es1 ++ es2).
Proof.
  intros H1 [Hready Hreboot]. split; [by apply Exists_app; right|].
  destruct Hreboot as [?|[?|[Hne H2]]]; [by left|right; left; by apply Exists_app; right|].
  right. right. destruct (exists_pair _ _ _ _ (H1 Hne) H2) as (e1 & e2 & He1 & He2 & Hs).
  exists [e1; e2]. split; [|done]. by exists e1, e2, pre.
Qed.

Lemma quiet_uncordons {A} (m : IO anyhow A) :
  only (within (λ _ c, c ∉ [remote_kubectl (uncordon_cmd k8s)])) m →
  tr_only (λ e, ¬ uncordons e) (io m).
Proof. intros Hm. by apply tr_only_io, only_not_runs. Qed.

(** [kubectl] commands with another verb *)
Lemma kubectl_not_uncordon cmd :
  starts_with "u" cmd = false → remote_kubectl cmd ∉ [remote_kubectl (uncordon_cmd k8s)].
Proof.
  intros Hu Hin%list_elem_of_singleton. unfold remote_kubectl in Hin.
  apply (inj _) in Hin. by subst cmd.
Qed.

Lemma quiet_context {A} (C : SshOptions → string → Prop) msg (m : IO anyhow A) :
  only (within C) m → only (within C) (with_context msg m).
Proof. apply only_map_err. Qed.

Lemma emits_context {A} msg (m : IO anyhow A) (K : history → Prop) :
  emits m (λ r es, ∀ a, r = Ok a → K es) → emits (with_context msg m) (λ r es, ∀ a, r = Ok a → K es).
Proof.
  intros Hm. apply emits_map_err. eapply emits_conseq; [exact Hm|].
  intros [a|e] es H b; [intros _; by eapply H|by intros [=]].
Qed.

Lemma worker_gates_reach pre :
  tr_passes (λ e, ¬ uncordons e) (gates_seen pre) (worker_gates plan pfx name ip k8s pre).
Proof using Hdry.
  unfold worker_gates. cbv zeta.
  apply tr_passes_skip; [apply _|apply quiet_uncordons, quiet_try, quiet_wait_ssh_drop; not_in|intros _].
  apply tr_passes_skip; [apply _|apply tr_only_modify|intros _].
  apply tr_passes_skip; [apply _| |intros _].
  { apply quiet_uncordons, quiet_context, quiet_wait_ssh_back. not_in. }
  apply tr_passes_skip; [apply _|apply tr_only_modify|intros _].
  apply (tr_passes_impl _ (λ es, reboot_seen plan pfx k8s pre es ∧ ready_seen plan k8s es ∧ True)).
  { intros es (H1 & H2 & _). by split. }
  apply tr_passes_both; [unfold reboot_seen; apply _|unfold ready_seen; apply _| |intros _].
  { apply tr_passes_io.
    - apply only_not_runs, quiet_context, quiet_wait_node_bootid_changed.
      by apply kubectl_not_uncordon.
    - apply emits_context. eapply emits_conseq; [by apply wait_bootid_seen|].
      intros r es H [] ->. by apply H. }
  apply tr_passes_both; [unfold ready_seen; apply _|apply _| |intros _].
  { apply tr_passes_io.
    - apply only_not_runs, quiet_context, quiet_wait_node_ready. by apply kubectl_not_uncordon.
    - apply emits_context. eapply emits_conseq; [by apply wait_node_ready_seen|].
      intros r es H [] ->. by apply H. }
  apply tr_passes_all.
  apply tr_only_bind; [apply tr_only_modify|intros _].
  apply tr_only_bind; [|intros _; apply tr_only_modify].
  by apply quiet_uncordons, quiet_context, quiet_wait_node_daemonsets_ready;
    apply kubectl_not_uncordon.
Qed.

Lemma upgrade_unchanged msg s :
  tr_emits (io (with_context msg (bootc_upgrade_apply plan pfx ip name))) s (λ r _ es,
    Forall (λ e, ¬ uncordons e) es ∧ (r = Ok AlreadyCurrent → unchanged es)).
Proof using Hdry.
  apply tr_io, emits_and.
  { apply only_not_runs, quiet_context, quiet_bootc_upgrade. intros c Hc.
    assert (∀ c', c' ∈ [digest_cmd; has_apply_cmd; upgrade_apply_cmd; upgrade_cmd; reboot_cmd] →
              starts_with "k" c' = false) as Hk.
    { intros c' Hc'. repeat (apply elem_of_cons in Hc' as [->|Hc']; [done|]).
      by apply elem_of_nil in Hc'. }
    intros ->%list_elem_of_singleton. by apply Hk in Hc. }
  unfold bootc_upgrade_apply. rewrite Hdry. apply emits_map_err.
  eapply emits_conseq; [apply bootc_upgrade_calls|].
  intros [a|e] es Hes; cbn [map_err forget]; [|by intros [=]].
  intros [= ->]. exists (calls es). by split.
Qed.

Lemma finish_worker_guarded pre outcome s :
  outcome ≠ AlreadyCurrent →
  tr_emits (finish_worker plan pfx name ip k8s pre outcome) s
    (λ _ _ es, precedes (gates_seen pre) uncordons es).
Proof using Hdry.
  destruct outcome; [|intros _; by intros h; apply precedes_none|done]. intros _.
  cbn [finish_worker].
  apply tr_precedes_reach; [apply _|].
  eapply tr_conseq; [apply worker_gates_reach|]. intros r s' es [H1 H2].
  split; [by apply precedes_none|]. intros a. by apply H2.
Qed.
End uncordon.



(** ** The recovery hint *)

Section recovery.
Context `{W : World} (plan : Plan) (pfx name ip k8s : string).
Abbreviation drain_call := (remote_kubectl (drain_cmd plan k8s)).
Abbreviation uncordon_call := (remote_kubectl (uncordon_cmd k8s)).

Definition uncordoned (es : history) : Prop :=
  Exists (answered (plan_cp_ssh_opts plan) uncordon_call (λ _, True)) es.

(** The worker was drained, and not uncordoned. *)
Definition left_cordoned (es : history) : Prop := drained plan k8s es ∧ ¬ uncordoned es.

(** While the worker is in flight, the flags record what was done. *)
Definition in_flight (s : InFlight) (es : history) : Prop :=
  if_node s = k8s ∧ if_cp_ip s = plan_cp_ip plan ∧
  (if_drained s = true ↔ drained plan k8s es) ∧ (if_uncordoned s = true ↔ uncordoned es) ∧
  (skip_drain plan = true → if_drained s = false).

Lemma not_answered cmds cmd es o P :
  cmd ∈ cmds → Forall (λ e, ¬ runs cmds e) es → ¬ Exists (answered o cmd P) es.
Proof.
  intros Hc Hes Hex. rewrite Exists_exists in Hex. destruct Hex as (e & He & Hans).
  rewrite Forall_forall in Hes. apply (Hes e He).
  destruct e as [| | | |o' c [] []| | | | |]; cbn in Hans |- *; try done.
  by destruct Hans as (_ & -> & _).
Qed.

Lemma in_flight_more s es0 es :
  Forall (λ e, ¬ runs [drain_call; uncordon_call] e) es →
  in_flight s es0 → in_flight s (es0 ++ es).
Proof.
  intros Hes (? & ? & Hd & Hu & ?). unfold in_flight, drained, uncordoned in *.
  rewrite !Exists_app, <-Hd, <-Hu. split_and!; try done.
  - split; [auto|intros [?|Hex]; [done|exfalso; revert Hex; eapply not_answered; set_solver]].
  - split; [auto|intros [?|Hex]; [done|exfalso; revert Hex; eapply not_answered; set_solver]].
Qed.

Lemma keeps_io {A} (m : IO anyhow A) :
  only (within (λ _ c, c ∉ [drain_call; uncordon_call])) m → tr_keeps in_flight (io m).
Proof.
  intros Hm s es0 HI. apply tr_io. eapply emits_conseq; [by apply only_not_runs|].
  intros r es Hes. by apply in_flight_more.
Qed.

Lemma keeps_phase p : tr_keeps in_flight (modify (set_phase p)).
Proof. intros s es0 HI. apply tr_modify. by rewrite app_nil_r. Qed.

Lemma kubectl_not_cordon cmd :
  starts_with "u" cmd = false → starts_with "d" cmd = false →
  remote_kubectl cmd ∉ [drain_call; uncordon_call].
Proof.
  intros Hu Hd. rewrite not_elem_of_cons, list_elem_of_singleton.
  split; intros Hin; apply (inj _) in Hin; by subst cmd.
Qed.

Context (Hdry : dry_run plan = false).

(** A [kubectl] call: the one call it makes, and whether it was answered. *)
Lemma kubectl_call cmd s :
  tr_emits (io (cp_kubectl plan pfx cmd)) s (λ r s' es, s' = s ∧
    (∀ c, c ≠ remote_kubectl cmd → Forall (λ e, ¬ runs [c] e) es) ∧
    match r with
    | Ok _ => Exists (answered (plan_cp_ssh_opts plan) (remote_kubectl cmd) (λ _, True)) es
    | Err _ => ∀ c P, ¬ Exists (answered (plan_cp_ssh_opts plan) c P) es
    end).
Proof using Hdry.
  apply tr_io. eapply emits_conseq.
  { apply emits_and; [by apply cp_kubectl_answered|].
    by apply (quiet_cp_kubectl _ _ (λ _ c, c = remote_kubectl cmd)). }
  intros r es [H1 H2]. split_and!; [done| |].
  - intros c Hc. eapply Forall_impl; [exact H2|]. intros e He.
    apply (within_not_runs (λ _ c, c = remote_kubectl cmd)); [|done].
    intros _ c' Hc' ->%list_elem_of_singleton. by apply Hc.
  - destruct r as [out|r].
    + eapply Exists_impl; [exact H1|]. intros e. by apply answered_impl.
    + intros c P. rewrite Exists_exists. intros (e & He & Hans). rewrite Forall_forall in H1.
      by eapply H1.
Qed.

Lemma drain_uncordon_ne : drain_call ≠ uncordon_call.
Proof. intros Heq. by apply (inj _) in Heq. Qed.

(** After a failed call nothing changed; after [kubectl drain] only that. *)
Lemma in_flight_failed s es0 es :
  (∀ c P, ¬ Exists (answered (plan_cp_ssh_opts plan) c P) es) →
  in_flight s es0 → in_flight s (es0 ++ es).
Proof.
  intros Hes (? & ? & Hd & Hu & ?). unfold in_flight, drained, uncordoned in *.
  rewrite !Exists_app, <-Hd, <-Hu. split_and!; naive_solver.
Qed.

Lemma in_flight_drained s es0 es :
  skip_drain plan = false → drained plan k8s es → ¬ uncordoned es →
  in_flight s es0 → in_flight (mark_drained s) (es0 ++ es).
Proof.
  intros Hskip Hes Hno (? & ? & Hd & Hu & ?). unfold in_flight, drained, uncordoned in *.
  rewrite !Exists_app, <-Hu. cbn. split_and!; try done; try tauto. by rewrite Hskip.
Qed.

Lemma in_flight_uncordoned s es0 es :
  uncordoned es → ¬ drained plan k8s es →
  in_flight s es0 → in_flight (mark_uncordoned s) (es0 ++ es).
Proof.
  intros Hes Hno (? & ? & Hd & Hu & ?). unfold in_flight, drained, uncordoned in *.
  rewrite !Exists_app, <-Hd. cbn. split_and!; try done; tauto.
Qed.

Lemma keeps_drain : tr_keeps in_flight (drain_worker plan pfx k8s).
Proof using Hdry.
  unfold drain_worker. cbv zeta. destruct (skip_drain plan) eqn:Hskip; [apply keeps_io; quiet|].
  apply tr_keeps_bind; [apply keeps_io; quiet|]. intros _ s es0 HI.
  eapply tr_bind; [apply kubectl_call| |].
  2: { intros e s1 e1 (-> & _ & Hr). by apply in_flight_failed. }
  intros out s1 e1 (-> & Hother & Hr) h. cbn. rewrite app_nil_r.
  apply in_flight_drained; [done|exact Hr| |done].
  eapply not_answered; [by apply list_elem_of_singleton|apply Hother].
  intros Heq. by apply drain_uncordon_ne.
Qed.

Lemma uncordon_marks s es0 : in_flight s es0 →
  tr_emits (uncordon_worker plan pfx k8s) s
    (λ r s' es, in_flight s' (es0 ++ es) ∧ (r = Ok tt → if_uncordoned s' = true)).
Proof using Hdry.
  intros HI. unfold uncordon_worker. cbv zeta.
  eapply tr_bind; [by apply keeps_io; [quiet|]| |by intros e s1 e1 H1; split; [|intros [=]]].
  intros u s1 e1 H1. cbn beta in H1. eapply tr_bind; [apply kubectl_call| |].
  2: { intros e s2 e2 (-> & _ & Hr). split; [|by intros [=]]. rewrite app_assoc.
       by apply in_flight_failed. }
  intros out s2 e2 (-> & Hother & Hr) h. cbn. rewrite app_nil_r, app_assoc. split; [|done].
  apply in_flight_uncordoned; [exact Hr| |done].
  eapply not_answered; [by apply list_elem_of_singleton|apply Hother, drain_uncordon_ne].
Qed.

(** How the update of a worker ends: with an error and the flags recorded, or
    with nothing left to restore. *)
Definition ended (r : result anyhow unit) (s : InFlight) (es : history) : Prop :=
  ((∃ e, r = Err e) ∧ in_flight s es) ∨ (if_node s = "" ∧ ¬ left_cordoned es).

(** The worker may be cleared. *)
Definition clearable (s : InFlight) (es : history) : Prop :=
  in_flight s es ∧ (skip_drain plan = true ∨ if_uncordoned s = true).

Lemma clearable_not_cordoned s es : clearable s es → ¬ left_cordoned es.
Proof.
  intros [(_ & _ & Hd & Hu & Hskip) Hor] [H1 H2]. apply Hd in H1. rewrite <-Hu in H2.
  destruct Hor as [Hs|?]; [|done]. by rewrite Hskip in H1.
Qed.

Lemma ended_io {A} (m : IO anyhow A) (f : A → Tr unit) s es0 :
  only (within (λ _ c, c ∉ [drain_call; uncordon_call])) m → in_flight s es0 →
  (∀ a es, in_flight s (es0 ++ es) →
     tr_emits (f a) s (λ r s' es', ended r s' ((es0 ++ es) ++ es'))) →
  tr_emits (io m ≫= f) s (λ r s' es, ended r s' (es0 ++ es)).
Proof.
  intros Hm HI Hf.
  eapply (tr_bind _ _ _ (λ _ s' es, s' = s ∧ in_flight s (es0 ++ es))).
  { apply tr_io. eapply emits_conseq; [by apply only_not_runs|]. intros r es Hes.
    split; [done|]. by apply in_flight_more. }
  2: { intros e s' es [-> H]. left. eauto. }
  intros a s' es [-> H]. eapply tr_conseq; [by apply Hf|]. intros r s' es'. by rewrite app_assoc.
Qed.

Lemma ended_timer (fin : Tr unit) s es0 :
  (∀ s' es, clearable s' es → tr_emits fin s' (λ r s'' es', ended r s'' (es ++ es'))) →
  clearable s es0 →
  tr_emits (_ ← io (timer_start plan pfx ip); fin) s (λ r s' es, ended r s' (es0 ++ es)).
Proof.
  intros Hfin [HI Hor]. apply ended_io; [|done|].
  { apply quiet_timer_start. not_in. }
  intros _ es H. by apply Hfin.
Qed.

Lemma left_cordoned_out es l : left_cordoned (es ++ [EvOut l]) → left_cordoned es.
Proof.
  intros [Hd Hu]. unfold left_cordoned, drained, uncordoned in *.
  rewrite Exists_app, Exists_cons, Exists_nil in *. cbn in *. tauto.
Qed.

Lemma ended_uncordon (rest : Tr unit) s es0 :
  (∀ s' es, clearable s' es → tr_emits rest s' (λ r s'' es', ended r s'' (es ++ es'))) →
  in_flight s es0 →
  tr_emits (_ ← uncordon_worker plan pfx k8s; rest) s (λ r s' es, ended r s' (es0 ++ es)).
Proof using Hdry.
  intros Hrest HI. eapply tr_bind; [by apply uncordon_marks| |].
  2: { intros e s' es [H _]. left. eauto. }
  intros [] s' es [H Hu]. eapply tr_conseq; [apply Hrest|].
  - split; [exact H|]. right. by apply Hu.
  - intros r s'' es'. by rewrite app_assoc.
Qed.

Lemma keeps_worker_gates pre : tr_keeps in_flight (worker_gates plan pfx name ip k8s pre).
Proof.
  unfold worker_gates. cbv zeta.
  repeat (apply tr_keeps_bind; [|intros _]); try apply keeps_phase; apply keeps_io;
    try apply quiet_context.
  - apply quiet_try, quiet_wait_ssh_drop. not_in.
  - apply quiet_wait_ssh_back. not_in.
  - apply quiet_wait_node_bootid_changed. by apply kubectl_not_cordon.
  - apply quiet_wait_node_ready. by apply kubectl_not_cordon.
  - by apply quiet_wait_node_daemonsets_ready; apply kubectl_not_cordon.
Qed.

Lemma ended_keeps {A} (m : Tr A) (f : A → Tr unit) s es0 :
  tr_keeps in_flight m → in_flight s es0 →
  (∀ a s' es, in_flight s' es → tr_emits (f a) s' (λ r s'' es', ended r s'' (es ++ es'))) →
  tr_emits (m ≫= f) s (λ r s' es, ended r s' (es0 ++ es)).
Proof.
  intros Hm HI Hf. eapply tr_bind; [by apply Hm| |by intros e s' es H; left; eauto].
  intros a s' es H. eapply tr_conseq; [exact (Hf a s' (es0 ++ es) H)|]. intros r s'' es'. by rewrite app_assoc.
Qed.

Lemma ended_finish pre outcome s es0 : in_flight s es0 →
  tr_emits (finish_worker plan pfx name ip k8s pre outcome) s (λ r s' es, ended r s' (es0 ++ es)).
Proof using Hdry.
  intros HI. destruct outcome; cbn [finish_worker].
  - apply ended_keeps; [apply keeps_worker_gates|exact HI|]. intros _ s1 es1 H1.
    apply ended_uncordon; [|done]. intros s2 es2. apply ended_timer.
    intros s3 es3 Hc h. right. split; [done|]. cbn.
    intros H%left_cordoned_out. by eapply clearable_not_cordoned.
  - intros h. left. split; [by eexists|]. cbn. by rewrite app_nil_r.
  - apply ended_io; [quiet|done|]. intros _ es1 H1.
    assert (Htail : ∀ s' es, clearable s' es → tr_emits
              (_ ← io (timer_start plan pfx ip); modify clear_in_flight) s'
              (λ r s'' es', ended r s'' (es ++ es'))).
    { intros s' es. apply ended_timer. intros s2 es2 Hc. apply tr_modify. rewrite app_nil_r.
      right. split; [done|]. by eapply clearable_not_cordoned. }
    destruct (skip_drain plan) eqn:Hskip; cbn [negb].
    + apply ended_keeps; [by apply tr_keeps_ret|done|]. intros _ s2 es2 H2. apply Htail.
      split; [done|by left].
    + by apply ended_uncordon.
Qed.

Lemma ended_body s : in_flight s [] →
  tr_emits (update_worker_body plan pfx name ip k8s) s ended.
Proof using Hdry.
  intros HI. unfold update_worker_body.
  apply (tr_conseq _ _ (λ r s' es, ended r s' ([] ++ es))); [|done].
  apply ended_keeps; [apply keeps_io; unfold worker_banner; quiet|done|intros _ s1 e1 H1].
  apply ended_keeps; [apply keeps_io, quiet_timer_stop; not_in|done|intros _ s2 e2 H2].
  apply ended_keeps; [apply keeps_drain|done|intros _ s3 e3 H3].
  apply ended_keeps; [|done|intros pre s4 e4 H4].
  { apply keeps_io, quiet_capture_node_bootid. by apply kubectl_not_cordon. }
  apply ended_keeps; [apply keeps_io; quiet|done|intros _ s5 e5 H5].
  apply ended_keeps; [apply keeps_io; quiet|done|intros _ s6 e6 H6].
  apply ended_keeps; [|done|intros outcome s7 e7 H7; by apply ended_finish].
  apply keeps_io, quiet_context, quiet_bootc_upgrade. intros c Hc.
  repeat (apply elem_of_cons in Hc as [->|Hc]; [not_in|]). by apply elem_of_nil in Hc.
Qed.
End recovery.

(** C4: the recovery hint is printed exactly when the update of a worker leaves
    it cordoned: after everything else, the lines that name the node and the
    command to restore it are printed when [kubectl drain] of the worker was
    answered with success and [kubectl uncordon] was not (the update has then
    failed), and nothing is printed otherwise. *)
Theorem recovery_hint_exact `{W : World} plan pfx name ip k8s :
  dry_run plan = false →
  emits (update_worker plan pfx name ip k8s) (λ r es, ∃ done tail, es = done ++ tail ∧
    ((left_cordoned plan k8s done ∧ k8s ≠ "" ∧ (∃ e, r = Err e) ∧
      ∃ phase, tail = EvErr <$> hint (mkInFlight k8s (plan_cp_ip plan) true false phase))
     ∨ ((¬ left_cordoned plan k8s done ∨ k8s = "") ∧ tail = []))).
Proof.
  intros Hdry. unfold update_worker. apply emits_scoped.
  eapply tr_conseq.
  { apply ended_body; [done|]. unfold in_flight, drained, uncordoned. cbn.
    rewrite !Exists_nil. by split_and!. }
  intros r s es H. exists es, (drop_events s). split; [done|]. unfold drop_events.
  destruct H as [[Herr (Hn & Hcp & Hd & Hu & _)]|[Hn Hno]].
  2: { right. rewrite Hn. cbn. rewrite andb_false_r. auto. }
  destruct s as [n c d u ph]. cbn in Hn, Hcp, Hd, Hu |- *. subst n c.
  destruct d; cbn [andb].
  2: { right. split; [|done]. left. intros [H _]. by apply Hd in H. }
  destruct u; cbn [negb andb].
  { right. split; [|done]. left. intros [_ H]. by apply H, Hu. }
  destruct (is_empty k8s) eqn:Hk; cbn [negb].
  { right. split; [|done]. right. by destruct k8s. }
  left. split_and!; [|by intros ->|done|by exists ph].
  split; [by apply Hd|]. by intros H%Hu.
Qed.

Lemma recovery_hint_exact_witness :
  let W := live_world in
  dry_run sample_plan = false ∧
  emits (update_worker sample_plan "" "w1" "10.0.0.2" "w1") (λ r es, ∃ done tail,
    es = done ++ tail ∧
    ((left_cordoned sample_plan "w1" done ∧ "w1" ≠ "" ∧ (∃ e, r = Err e) ∧
      ∃ phase, tail = EvErr <$> hint (mkInFlight "w1" "10.0.0.1" true false phase))
     ∨ ((¬ left_cordoned sample_plan "w1" done ∨ "w1" = "") ∧ tail = []))).
Proof. split; [done|]. by apply recovery_hint_exact. Defined.

(** ** The DaemonSet gate with an unreachable API server *)

Lemma cp_kubectl_down `{W : World} plan pfx cmd :
  dry_run plan = false →
  (∀ h, is_ok (ssh_answer h (plan_cp_ssh_opts plan) (remote_kubectl cmd) None) = false) →
  emits (try (cp_kubectl plan pfx cmd) : IO anyhow (result anyhow string))
    (λ r _, ∃ e, r = Ok (Err e)).
Proof.
  intros Hdry Hdown. apply emits_lift. unfold catch, cp_kubectl, cp_kubectl_live. rewrite Hdry.
  eapply (emits_io_bind _ _ (λ _ _, True)); [by intros h| |by intros e es _; exists e].
  intros _ e1 _. eapply (emits_io_bind _ _ (λ r _, ∃ e, r = Err e)).
  - intros h. run_io. specialize (Hdown h). destruct (ssh_answer _ _ _ _); [done|by eexists].
  - by intros out e2 [e [=]].
  - intros e e2 _. by exists e.
Qed.

(** The DaemonSet gate does not notice that [kubectl] fails: when every
    query for the readiness of the pods fails, no pod counts as unready, and the
    gate passes at its first poll. *)
Theorem daemonset_gate_passes_blind `{W : World} plan pfx node timeout :
  dry_run plan = false → (0 < timeout)%N →
  (∀ h, is_ok (ssh_answer h (plan_cp_ssh_opts plan) (remote_kubectl (pods_ready_cmd node)) None)
        = false) →
  emits (daemonset_phase2 plan pfx node timeout) (λ r es,
    r = Ok tt ∧
    EvOut (pfx +:+ "[update-cluster] " +:+ "node " +:+ node
           +:+ " kube-system DaemonSet pods all Ready after ~0s (excluding )") ∈ es).
Proof.
  intros Hdry Ht Hdown. unfold daemonset_phase2.
  assert (Hun : emits (unready_pods plan pfx node) (λ r _, r = Ok [])).
  { unfold unready_pods. eapply emits_io_bind; [by apply cp_kubectl_down| |by intros e es [? [=]]].
    intros r es [e [= ->]]. by apply emits_io_ret. }
  eapply emits_io_bind; [exact Hun| |by intros].
  intros baseline e1 [= ->]. eapply (emits_io_bind _ _ (λ r _, r = Ok tt));
    [by intros h| |by intros].
  intros _ e2 _. eapply (emits_io_bind _ _ (λ r _, r = Ok tt)); [by intros h| |by intros].
  intros _ e3 _. cbn [poll poll_fuel]. rewrite (proj2 (N.ltb_lt 0 timeout) Ht).
  eapply (emits_io_bind _ _ (λ r es, r = Ok (inl tt) ∧ _ ∈ es)).
  2: { intros [a|st] e4 [[=] Hin]. apply emits_io_ret. split; [done|].
       rewrite app_nil_r, !elem_of_app. do 3 right. exact Hin. }
  2: by intros e e4 [[=] _].
  eapply (emits_io_bind _ _ (λ r es, r = Ok (inl tt) ∧ _ ∈ es)).
  2: { intros [a|st] e4 [[=] Hin]. apply emits_io_ret. rewrite app_nil_r. by subst. }
  2: by intros e e4 [[=] _].
  unfold daemonset_round. eapply emits_io_bind; [exact Hun| |by intros].
  intros cur e4 [= ->]. cbn [new_unready filter list_filter]. intros h. split; [done|].
  apply elem_of_app. right. by left.
Qed.

(** A world where no host can be reached. *)
Definition dead_world : World := {|
  ssh_answer _ o _ _ := Err (Wait (host o) (IoError "no route to host"));
  local_answer _ _ := Err (IoError "no such program");
  stdout_answer _ _ := Ok tt;
  stderr_answer _ _ := Ok tt;
  file_answer _ _ := Err (IoError "no such file");
  fs_answer _ _ := Ok tt;
|}.

Lemma daemonset_gate_passes_blind_witness :
  let W := dead_world in
  (dry_run sample_plan = false ∧ (0 < 300)%N ∧
   ∀ h, is_ok (ssh_answer h (plan_cp_ssh_opts sample_plan)
                 (remote_kubectl (pods_ready_cmd "w1")) None) = false) ∧
  emits (daemonset_phase2 sample_plan "" "w1" 300) (λ r es,
    r = Ok tt ∧
    EvOut ("" +:+ "[update-cluster] " +:+ "node " +:+ "w1"
           +:+ " kube-system DaemonSet pods all Ready after ~0s (excluding )") ∈ es).
Proof. split; [done|]. by apply daemonset_gate_passes_blind. Defined.
