(* ===== verification/UpdateRunFacts.v ===== *)
(** * hbird update-cluster: what a run guarantees

    A dry run only prints; every node is accounted for exactly once, in order;
    a run succeeds only when every node was updated. *)

From S2P Require Import Prelude RustStr ConfigTypes ConfigLexer ConfigBuild SshOptions SshClient.
From S2P Require Import Effects Poll Cp UpdatePlan UpdateNode UpdateGates UpdateFlow UpdateLock.
From S2P Require Import UpdateRun UpdatePlanFacts UpdateGatesFacts UpdateNodeFacts UpdateFlowFacts.
From S2P Require Import UpdateFixtures.

(** ** Dry runs *)

Lemma announces_node_log pfx l : announces (log pfx l) (λ _, True).
Proof. intros h. split; [by exists tt|by repeat constructor]. Qed.

Lemma announces_context {A} msg (m : IO anyhow A) P :
  announces m P → announces (with_context msg m) P.
Proof.
  intros Hm. apply emits_map_err. eapply emits_conseq; [exact Hm|].
  intros r es [(a & -> & Ha) H]. split; [by exists a|done].
Qed.

Definition tr_announces {A} (m : Tr A) (s : InFlight) (Q : A → InFlight → Prop) : Prop :=
  tr_emits m s (λ r s' es, (∃ a, r = Ok a ∧ Q a s') ∧ Forall is_out es).

Lemma tr_announces_bind {A B} (m : Tr A) (f : A → Tr B) s P Q :
  tr_announces m s P → (∀ a s', P a s' → tr_announces (f a) s' Q) → tr_announces (m ≫= f) s Q.
Proof.
  intros Hm Hf. eapply tr_bind; [exact Hm| |by intros e s1 es [(a & [=] & _) _]].
  intros a s1 e1 [(a' & [= <-] & Ha) H1]. eapply tr_conseq; [by apply Hf|].
  intros r s2 e2 [Hr H2]. split; [done|]. by apply Forall_app.
Qed.

Lemma tr_announces_io {A} (m : IO anyhow A) s P :
  announces m P → tr_announces (io m) s (λ a s', P a ∧ s' = s).
Proof.
  intros Hm. apply tr_io. eapply emits_conseq; [exact Hm|].
  intros r es [(a & -> & Ha) H]. split; [by exists a|done].
Qed.

Lemma tr_announces_modify f s : tr_announces (modify f) s (λ _ s', s' = f s).
Proof. apply tr_modify. split; [by exists tt|constructor]. Qed.

Lemma tr_announces_modify_last f s (Q : unit → InFlight → Prop) :
  Q tt (f s) → tr_announces (modify f) s Q.
Proof. intros HQ. apply tr_modify. split; [by exists tt|constructor]. Qed.

Lemma tr_announces_ret {A} (a : A) s (Q : A → InFlight → Prop) : Q a s → tr_announces (mret a) s Q.
Proof. intros HQ. apply tr_ret. split; [by exists a|constructor]. Qed.

(** A step of which only the success matters. *)
Lemma tr_announces_step {A B} (m : IO anyhow A) (f : A → Tr B) s Q :
  announces m (λ _, True) → (∀ a, tr_announces (f a) s Q) → tr_announces (io m ≫= f) s Q.
Proof.
  intros Hm Hf. eapply tr_announces_bind; [by apply tr_announces_io|]. by intros a s' [_ ->].
Qed.

Lemma announces_scoped {A} init (body : Tr A) P :
  tr_announces body init (λ a s', P a ∧ drop_events s' = []) → announces (scoped init body) P.
Proof.
  intros Hb. apply emits_scoped. eapply tr_conseq; [exact Hb|].
  intros r s es [(a & -> & Ha & ->) H]. rewrite app_nil_r. split; [by exists a|done].
Qed.

Lemma tr_announces_last (m : IO anyhow unit) s (Q : unit → InFlight → Prop) :
  announces m (λ _, True) → Q tt s → tr_announces (io m) s Q.
Proof.
  intros Hm HQ. apply tr_io. eapply emits_conseq; [exact Hm|].
  intros r es [([] & -> & _) H]. split; [by exists tt|done].
Qed.

(** Decomposes a computation that only logs. *)
Ltac announce_step :=
  match goal with
  | |- announces (if ?x then _ else _) _ => destruct x
  | |- announces (match ?x with _ => _ end) _ => destruct x
  | |- announces (mbind _ _) _ => apply (announces_bind _ _ (λ _, True)); [|intros ? _]
  | |- announces (mret _) _ => by apply announces_ret
  | |- announces (log _ _) _ => apply announces_node_log
  | |- announces (log0 _) _ => apply announces_node_log
  end.
Ltac announce := cbv zeta; repeat announce_step.

Section dry.
Context `{W : World} (plan : Plan) (pfx : string) (Hdry : dry_run plan = true).

Lemma dry_cp_kubectl cmd : announces (cp_kubectl plan pfx cmd) (λ _, True).
Proof using Hdry. unfold cp_kubectl. rewrite Hdry. announce. Qed.
Lemma dry_timer_stop ip : announces (timer_stop plan pfx ip) (λ _, True).
Proof using Hdry. unfold timer_stop. rewrite Hdry. announce. Qed.
Lemma dry_timer_start ip : announces (timer_start plan pfx ip) (λ _, True).
Proof using Hdry. unfold timer_start. rewrite Hdry. announce. Qed.
Lemma dry_bootc_upgrade ip name : announces (bootc_upgrade_apply plan pfx ip name) (λ o, o = Applied).
Proof using Hdry.
  unfold bootc_upgrade_apply, bootc_upgrade_apply_with_exec. rewrite Hdry. announce.
Qed.
Lemma dry_capture_node_bootid node :
  announces (capture_node_bootid plan pfx node) (λ v, v = "<dry-run-bootid>").
Proof using Hdry. unfold capture_node_bootid. rewrite Hdry. announce. Qed.
Lemma dry_wait_ssh_drop ip : announces (wait_ssh_drop plan pfx ip) (λ _, True).
Proof using Hdry. unfold wait_ssh_drop, wait_ssh_drop_with. rewrite Hdry. announce. Qed.
Lemma dry_wait_ssh_back ip : announces (wait_ssh_back plan pfx ip) (λ _, True).
Proof using Hdry. unfold wait_ssh_back, wait_ssh_back_with. rewrite Hdry. announce. Qed.
Lemma dry_wait_apiserver_back : announces (wait_apiserver_back plan pfx) (λ _, True).
Proof using Hdry. unfold wait_apiserver_back. rewrite Hdry. announce. Qed.
Lemma dry_wait_node_ready node : announces (wait_node_ready plan pfx node) (λ _, True).
Proof using Hdry. unfold wait_node_ready. rewrite Hdry. announce. Qed.
Lemma dry_wait_node_bootid_changed node :
  announces (wait_node_bootid_changed plan pfx node "<dry-run-bootid>") (λ _, True).
Proof using Hdry. unfold wait_node_bootid_changed. rewrite Hdry. cbn [is_empty]. announce. Qed.
Lemma dry_wait_node_daemonsets_ready node :
  announces (wait_node_daemonsets_ready plan pfx node) (λ _, True).
Proof using Hdry. unfold wait_node_daemonsets_ready. rewrite Hdry. announce. Qed.

(** A step of a flow: a log line or one of the helpers, all of which only
    announce what they would do. *)
Ltac dry_step :=
  lazymatch goal with
  | |- tr_announces (mbind _ (io (capture_node_bootid _ _ _))) _ _ =>
      eapply tr_announces_bind;
      [by apply tr_announces_io, dry_capture_node_bootid|intros ? ? [-> ->]]
  | |- tr_announces (mbind _ (io (with_context _ (bootc_upgrade_apply _ _ _ _)))) _ _ =>
      eapply tr_announces_bind;
      [by apply tr_announces_io, announces_context, dry_bootc_upgrade|intros ? ? [-> ->]]
  | |- tr_announces (mbind _ (io _)) _ _ => apply tr_announces_step; [|intros ?]
  | |- tr_announces (io _) _ _ => apply tr_announces_last
  | |- tr_announces (mret _) _ _ => apply tr_announces_ret
  | |- tr_announces (modify _) _ _ => apply tr_announces_modify_last
  | |- tr_announces (mbind _ (modify _)) _ _ =>
      eapply tr_announces_bind; [apply tr_announces_modify|intros ? ? ->]
  | |- announces (with_context _ _) _ => apply announces_context
  | |- announces (try _) _ => eapply announces_any, announces_try
  | |- announces (timer_stop _ _ _) _ => by apply dry_timer_stop
  | |- announces (timer_start _ _ _) _ => by apply dry_timer_start
  | |- announces (cp_kubectl _ _ _) _ => by apply dry_cp_kubectl
  | |- announces (wait_ssh_drop _ _ _) _ => by apply dry_wait_ssh_drop
  | |- announces (wait_ssh_back _ _ _) _ => by apply dry_wait_ssh_back
  | |- announces (wait_apiserver_back _ _) _ => by apply dry_wait_apiserver_back
  | |- announces (wait_node_ready _ _ _) _ => by apply dry_wait_node_ready
  | |- announces (wait_node_bootid_changed _ _ _ _) _ => by apply dry_wait_node_bootid_changed
  | |- announces (wait_node_daemonsets_ready _ _ _) _ => by apply dry_wait_node_daemonsets_ready
  | |- announces _ _ => announce_step
  end.

Lemma dry_cp_gates s :
  tr_announces (cp_gates plan pfx "<dry-run-bootid>") s (λ _ s', if_drained s' = if_drained s).
Proof using Hdry. unfold cp_gates. cbv zeta. repeat dry_step. done. Qed.

Lemma dry_update_cp : announces (update_cp plan pfx) (λ _, True).
Proof using Hdry.
  unfold update_cp. apply announces_scoped. unfold update_cp_body, cp_banner. cbv zeta.
  repeat dry_step.
  eapply tr_announces_bind; [apply dry_cp_gates|]. intros ? s Hs. cbn beta in Hs.
  repeat dry_step. split; [done|]. unfold drop_events. by rewrite Hs.
Qed.

Lemma dry_worker_gates name ip k8s s :
  tr_announces (worker_gates plan pfx name ip k8s "<dry-run-bootid>") s (λ _ _, True).
Proof using Hdry. unfold worker_gates. cbv zeta. repeat dry_step. done. Qed.

Lemma dry_update_worker name ip k8s : announces (update_worker plan pfx name ip k8s) (λ _, True).
Proof using Hdry.
  unfold update_worker. apply announces_scoped. unfold update_worker_body, worker_banner.
  cbv zeta. repeat dry_step.
  eapply (tr_announces_bind _ _ _ (λ _ _, True)).
  { unfold drain_worker. cbv zeta. destruct (skip_drain plan); repeat dry_step; done. }
  intros ? s1 _. repeat dry_step. cbn [finish_worker].
  eapply tr_announces_bind; [apply dry_worker_gates|]. intros ? s2 _.
  eapply (tr_announces_bind _ _ _ (λ _ _, True)).
  { unfold uncordon_worker. cbv zeta. repeat dry_step. done. }
  intros ? s3 _. repeat dry_step. done.
Qed.
End dry.

(** *** The whole run *)

Section dry_run.
Context `{W : World} (plan : Plan) (Hdry : dry_run plan = true) (Hok : plan_ok plan).

Lemma dry_run_one_worker pfx w results :
  w ∈ plan_worker_names plan → announces (run_one_worker plan pfx w results) (λ r, failed r = failed results).
Proof using Hdry Hok.
  intros Hw. unfold run_one_worker. destruct (ok_ip _ Hok w Hw) as [ip ->]. cbn [ok_or].
  eapply (announces_bind _ _ (λ _, True)); [intros h; by split; [exists ip|constructor]|].
  intros ip' _. cbv zeta.
  eapply announces_bind; [by apply announces_try, dry_update_worker|].
  intros r (a & -> & _). by apply announces_ret.
Qed.

Lemma dry_run_workers prefix batch results :
  batch ⊆ plan_worker_names plan →
  announces (run_workers plan prefix batch results) (λ r, failed r = failed results).
Proof using Hdry Hok.
  revert results. induction batch as [|w ws IH]; intros results Hb; cbn [run_workers];
    [by apply announces_ret|].
  eapply announces_bind; [apply dry_run_one_worker; set_solver|]. intros r <-. apply IH. set_solver.
Qed.

Lemma dry_run_worker_batch batch results :
  batch ⊆ plan_worker_names plan →
  announces (run_worker_batch plan batch results) (λ r, failed r = failed results).
Proof using Hdry Hok.
  intros Hb. unfold run_worker_batch. destruct batch as [|w ws]; [by apply announces_ret|].
  destruct (_ || _); [by apply dry_run_workers|].
  eapply announces_bind; [apply announces_node_log|]. intros _ _. rewrite Hdry. cbn [negb].
  eapply (announces_bind _ _ (λ _, True)); [by apply announces_ret|]. intros _ _.
  by apply dry_run_workers.
Qed.

Lemma dry_walk fuel rest results :
  rest ⊆ plan_worker_names plan → announces (walk fuel plan rest results) (λ r, failed r = failed results).
Proof using Hdry Hok.
  revert rest results. induction fuel as [|fuel IH]; intros rest results Hr; cbn [walk];
    [by apply announces_ret|].
  destruct rest as [|w ws]; [by apply announces_ret|]. cbv zeta.
  eapply announces_bind; [apply dry_run_worker_batch|].
  { intros x Hx. apply Hr.
    rewrite <-(take_drop (N.to_nat (parallel plan)) (w :: ws)). apply elem_of_app. by left. }
  intros r <-. eapply (announces_bind _ _ (λ _, True)).
  { unfold pause_between. rewrite Hdry. cbn [negb]. announce. }
  intros _ _. apply IH. intros x Hx. apply Hr.
  rewrite <-(take_drop (N.to_nat (parallel plan)) (w :: ws)). apply elem_of_app. by right.
Qed.

Lemma workers_to_run_sub : workers_to_run plan ⊆ plan_worker_names plan.
Proof.
  unfold workers_to_run. destruct (start_from plan) as [sf|]; [|done].
  rewrite workers_from_false. intros x Hx.
  rewrite <-(take_drop_while (λ w, negb (bool_decide (w = sf))) (plan_worker_names plan)).
  apply elem_of_app. by right.
Qed.

Lemma announces_summary results : failed results = [] → announces (summary results) (λ _, True).
Proof. intros Hf. unfold summary. rewrite Hf. cbv beta iota. announce. Qed.

Lemma announces_log_plan : announces (log_plan plan) (λ _, True).
Proof.
  unfold log_plan. cbv zeta.
  do 2 (eapply announces_bind; [apply announces_node_log|intros _ _]).
  eapply announces_bind; [apply announces_for_each; intros; unfold log_resolved; announce|].
  intros _ _. announce.
Qed.

Lemma dry_run_nodes :
  emits (run_nodes plan) (λ r es, Forall is_out es ∧
    ((∃ res, r = Ok res ∧ failed res = [])
     ∨ ∃ node, node_filter plan = Some node ∧ r = Err (anyhow_msg (
         "--node=" +:+ node +:+ " did not match CP_NAME or any WORKER_NAMES entry")))).
Proof using Hdry Hok.
  assert (Hann : ∀ m : IO anyhow Results, announces m (λ res, failed res = []) →
    emits m (λ r es, Forall is_out es ∧ ((∃ res, r = Ok res ∧ failed res = []) ∨
      ∃ node, node_filter plan = Some node ∧ r = Err (anyhow_msg (
         "--node=" +:+ node +:+ " did not match CP_NAME or any WORKER_NAMES entry"))))).
  { intros m Hm. eapply emits_conseq; [exact Hm|]. intros r es [H1 H2]. auto. }
  unfold run_nodes. destruct (node_filter plan) as [node|] eqn:Hnode.
  - unfold run_single. destruct (bool_decide (node = plan_cp_name plan)).
    { apply Hann. eapply announces_bind; [by apply dry_update_cp|]. intros _ _.
      by apply announces_ret. }
    destruct (bool_decide (node ∈ plan_worker_names plan)) eqn:Hw.
    { apply Hann. apply dry_run_one_worker. by apply bool_decide_eq_true in Hw. }
    intros h. split; [constructor|]. right. by exists node.
  - apply Hann. eapply (announces_bind _ _ (λ res, failed res = [])).
    + unfold run_cp. destruct (workers_only plan); cbn [negb].
      { eapply announces_bind; [apply announces_node_log|]. intros _ _. by apply announces_ret. }
      destruct (start_from plan).
      { eapply announces_bind; [apply announces_node_log|]. intros _ _. by apply announces_ret. }
      eapply announces_bind; [by apply dry_update_cp|]. intros _ _. by apply announces_ret.
    + intros res Hres. rewrite <-Hres. apply dry_walk, workers_to_run_sub.
Qed.

Lemma dry_run_plan :
  emits (run_plan plan) (λ r es, Forall is_out es ∧
    (r = Ok tt ∨ ∃ node, node_filter plan = Some node ∧ r = Err (anyhow_msg (
       "--node=" +:+ node +:+ " did not match CP_NAME or any WORKER_NAMES entry")))).
Proof using Hdry Hok.
  unfold run_plan.
  eapply emits_io_bind; [apply announces_log_plan| |by intros e es [(a & [=] & _) _]].
  intros _ e1 [_ H1].
  eapply emits_io_bind; [apply dry_run_nodes| |].
  2: { intros e e2 [H2 [(res & [=] & _)|Hn]]. split; [by apply Forall_app|]. right.
       destruct Hn as (node & ? & [= ->]). eauto. }
  intros res e2 [H2 [(res' & [= <-] & Hf)|(node & _ & [=])]].
  eapply emits_conseq; [by apply announces_summary|].
  intros r e3 [([] & -> & _) H3]. split; [by rewrite !Forall_app|by left].
Qed.
End dry_run.

Lemma parse_config_silent `{W : World} path : emits (parse_config path) (λ _ es, es = []).
Proof. intros h. unfold parse_config. run_io. by destruct (parse _ _). Qed.

Lemma from_args_dry `{W : World} a c t : ua_dry_run a = true →
  emits (from_args a c t) (λ r es, es = [] ∧ ∀ p, r = Ok p → plan_ok p ∧ copied a c t p).
Proof.
  intros Hdry. apply emits_and; [|apply from_args_inv].
  assert (Hnil : ∀ A (m : IO anyhow A), only (λ _, False) m → emits m (λ _ es, es = [])).
  { intros A m Hm. eapply emits_conseq; [exact Hm|]. intros r [|e es] He; [done|]. by inversion He. }
  apply Hnil. unfold from_args, resolve_ips. rewrite Hdry. cbv zeta.
  destruct (_ && _); [apply only_throw|]. destruct (_ && _); [apply only_throw|].
  destruct (_ <? _)%N; [apply only_throw|].
  apply only_io_bind; [apply only_io_ret|intros [ip m]].
  apply only_io_bind; [|intros _].
  { destruct (ua_start_from a); [|apply only_io_ret].
    destruct (negb _); [apply only_throw|apply only_io_ret]. }
  apply only_io_bind; [apply only_of_result|intros ov]. apply only_io_ret.
Qed.



(** ** Every node is accounted for *)

(** A node, and why it failed if it did. *)
Abbreviation mark := (string * option string)%type.
Definition ok_names (marks : list mark) : list string :=
  omap (λ m, match m.2 with None => Some m.1 | Some _ => None end) marks.
Definition failures (marks : list mark) : list string :=
  omap (λ m, (λ reason, m.1 +:+ ": " +:+ reason) <$> m.2) marks.

(** The nodes a run updates, in order. *)
Definition nodes_of (p : Plan) : list string :=
  match node_filter p with
  | Some node => [node]
  | None => (if workers_only p || bool_decide (is_Some (start_from p))
             then [] else [plan_cp_name p]) ++ workers_to_run p
  end.

Section accounts.
Context `{W : World} (p : Plan).

(** From [res] to [res'] exactly the nodes [ws] were processed, in order;
    without [--continue-on-error] all of them succeeded. *)
Definition extends (ws : list string) (res res' : Results) : Prop :=
  ∃ marks : list mark, marks.*1 = ws ∧
    (continue_on_error p = false → Forall (λ m, m.2 = None) marks) ∧
    succeeded res' = succeeded res ++ ok_names marks ∧ failed res' = failed res ++ failures marks.

Lemma extends_nil res : extends [] res res.
Proof. exists []. cbn. rewrite !app_nil_r. split_and!; try done. Qed.

Lemma extends_app ws1 ws2 a b c :
  extends ws1 a b → extends ws2 b c → extends (ws1 ++ ws2) a c.
Proof.
  intros (m1 & <- & Hc1 & Hs1 & Hf1) (m2 & <- & Hc2 & Hs2 & Hf2). exists (m1 ++ m2).
  unfold ok_names, failures in *. rewrite fmap_app, !omap_app, Hs2, Hf2, Hs1, Hf1, <-!app_assoc.
  split_and!; try done. intros Hc. apply Forall_app. auto.
Qed.

Lemma extends_one w res : extends [w] res (push_ok w res).
Proof. exists [(w, None)]. cbn. rewrite app_nil_r. split_and!; try done. by repeat constructor. Qed.

Lemma run_one_worker_extends pfx w res :
  on_ok (run_one_worker p pfx w res) (extends [w] res).
Proof.
  unfold run_one_worker. eapply on_ok_bind; [apply on_ok_any|]. intros ip _. cbv zeta.
  eapply on_ok_bind; [apply on_ok_any|]. intros [[]|e] _; [apply on_ok_ret, extends_one|].
  destruct (continue_on_error p) eqn:Hc; [|by intros h ? [=]].
  eapply on_ok_bind; [apply on_ok_any|]. intros _ _.
  eapply on_ok_bind; [apply on_ok_any|]. intros _ _. apply on_ok_ret.
  exists [(w, Some (show_anyhow e))]. cbn. rewrite app_nil_r. split_and!; try done. by rewrite Hc.
Qed.

Lemma run_workers_extends prefix batch res :
  on_ok (run_workers p prefix batch res) (extends batch res).
Proof.
  revert res. induction batch as [|w ws IH]; intros res; cbn [run_workers];
    [apply on_ok_ret, extends_nil|].
  eapply on_ok_bind; [apply run_one_worker_extends|]. intros res1 H1.
  eapply emits_conseq; [apply IH|]. intros r es H res2 Hr.
  apply (extends_app [w] ws _ res1); auto.
Qed.

Lemma run_worker_batch_extends batch res :
  on_ok (run_worker_batch p batch res) (extends batch res).
Proof.
  unfold run_worker_batch. destruct batch as [|w ws]; [apply on_ok_ret, extends_nil|].
  destruct (_ || _); [apply run_workers_extends|].
  do 2 (eapply on_ok_bind; [apply on_ok_any|]; intros _ _). apply run_workers_extends.
Qed.

(** The fuel of [walk], one unit per worker, is enough. *)
Lemma walk_extends fuel rest res :
  (1 ≤ parallel p)%N → (length rest ≤ fuel)%nat →
  on_ok (walk fuel p rest res) (extends rest res).
Proof.
  intros Hp. revert rest res. induction fuel as [|fuel IH]; intros rest res Hlen; cbn [walk].
  { destruct rest; [apply on_ok_ret, extends_nil|cbn in Hlen; lia]. }
  destruct rest as [|w ws] eqn:Hrest; [apply on_ok_ret, extends_nil|]. rewrite <-Hrest. cbv zeta.
  eapply on_ok_bind; [apply run_worker_batch_extends|]. intros res1 H1.
  eapply on_ok_bind; [apply on_ok_any|]. intros _ _.
  eapply emits_conseq; [apply IH|].
  - rewrite length_drop, Hrest in *. cbn in *. lia.
  - intros r es H res2 Hr. rewrite <-(take_drop (N.to_nat (parallel p)) rest).
    eapply extends_app; [exact H1|auto].
Qed.

Lemma run_nodes_extends :
  (1 ≤ parallel p)%N → on_ok (run_nodes p) (extends (nodes_of p) (mkResults [] [])).
Proof.
  intros Hp. unfold run_nodes, nodes_of. destruct (node_filter p) as [node|].
  - unfold run_single. destruct (bool_decide (node = plan_cp_name p)) eqn:Hn.
    + apply bool_decide_eq_true in Hn as ->.
      eapply on_ok_bind; [apply on_ok_any|]. intros _ _. apply on_ok_ret, extends_one.
    + destruct (bool_decide (node ∈ plan_worker_names p)); [apply run_one_worker_extends|by intros h ? [=]].
  - eapply (on_ok_bind _ _ (extends (if workers_only p || bool_decide (is_Some (start_from p))
                                     then [] else [plan_cp_name p]) (mkResults [] []))).
    + unfold run_cp. destruct (workers_only p); cbn [negb orb].
      { eapply on_ok_bind; [apply on_ok_any|]. intros _ _. apply on_ok_ret, extends_nil. }
      destruct (start_from p) as [sf|]; cbn;
        (eapply on_ok_bind; [apply on_ok_any|]; intros _ _; apply on_ok_ret);
        [apply extends_nil|apply extends_one].
    + intros res H1. eapply emits_conseq; [by apply walk_extends|].
      intros r es H res2 Hr. eapply extends_app; [exact H1|auto].
Qed.
End accounts.

(** *** The footer *)

Definition out0 (line : string) : event := EvOut ("" +:+ "[update-cluster] " +:+ line).
Definition or_none (l : list string) : string := match l with [] => "<none>" | s :: l' => join " " (s :: l') end.

Definition footer (marks : list mark) : history :=
  [out0 rule_line; out0 "Rolling update complete.";
   out0 ("  succeeded (" +:+ show_nat (length (ok_names marks)) +:+ "): "
         +:+ or_none (ok_names marks))]
  ++ match failures marks with
     | [] => []
     | l => out0 ("  FAILED (" +:+ show_nat (length l) +:+ "):")
            :: ((λ entry, out0 ("    - " +:+ entry)) <$> l)
     end
  ++ [out0 rule_line].

Definition verdict (marks : list mark) : result anyhow unit :=
  match failures marks with [] => Ok tt | _ => Err (anyhow_msg partial_failure) end.

Lemma for_each_log0 (f : string → string) l h :
  for_each (λ x, log0 (f x)) l h = (Ok tt, (λ x, out0 (f x)) <$> l).
Proof.
  revert h. induction l as [|x l IH]; intros h; cbn [for_each]; [done|].
  unfold log0, log. run_io. by rewrite IH.
Qed.

Lemma run_bind {A B} (m : IO anyhow A) (f : A → IO anyhow B) h a e1 r e2 :
  m h = (Ok a, e1) → f a (h ++ e1) = (r, e2) → (m ≫= f : IO anyhow B) h = (r, e1 ++ e2).
Proof. intros Hm Hf. unfold mbind, IO_bind. by rewrite Hm, Hf. Qed.

Lemma run_log0 {B} l (f : unit → IO anyhow B) h r e2 :
  f tt (h ++ [out0 l]) = (r, e2) → (log0 l ≫= f : IO anyhow B) h = (r, out0 l :: e2).
Proof. apply (run_bind (log0 l) f h tt [out0 l]). done. Qed.

Lemma summary_footer marks h :
  summary (mkResults (ok_names marks) (failures marks)) h = (verdict marks, footer marks).
Proof.
  unfold summary, footer, verdict, or_none. cbn [succeeded failed app].
  do 3 apply run_log0. apply (run_bind _ _ _ tt).
  { destruct (failures marks); [done|]. apply run_log0.
    apply (for_each_log0 (λ entry, "    - " +:+ entry)). }
  apply run_log0. by destruct (failures marks).
Qed.

(** C6: a run accounts for every node exactly once, in order.  When no update of
    a node ends the run, the nodes updated are those of the arguments, all of
    them successfully without [--continue-on-error]; the run ends with the
    footer that lists the successes and the failures with their reasons, and it
    succeeds exactly when there are no failures.  An error that ends the run is
    returned at once, with nothing after it. *)
Theorem run_accounts `{W : World} p h : (1 ≤ parallel p)%N →
  let el := (log_plan p h).2 in
  match run_nodes p (h ++ el) with
  | (Err e, en) => run_plan p h = (Err e, el ++ en)
  | (Ok _, en) => ∃ marks : list mark, marks.*1 = nodes_of p ∧
      (continue_on_error p = false → Forall (λ m, m.2 = None) marks) ∧
      run_plan p h = (verdict marks, el ++ en ++ footer marks)
  end.
Proof.
  intros Hp el.
  assert (Hlog : log_plan p h = (Ok tt, el)).
  { destruct (announces_log_plan p h) as [([] & Hr & _) _]. unfold el.
    destruct (log_plan p h) as [r e]. cbn in *. by rewrite Hr. }
  pose proof (run_nodes_extends p Hp (h ++ el)) as Hext.
  destruct (run_nodes p (h ++ el)) as [[res|e] en] eqn:Hrun; cbn [fst] in Hext.
  - destruct (Hext res eq_refl) as (marks & Hm & Hc & Hs & Hf). exists marks.
    split_and!; [done|done|]. unfold run_plan.
    apply (run_bind _ _ _ tt); [done|]. apply (run_bind _ _ _ res); [done|].
    destruct res as [s f]. cbn in Hs, Hf. subst. apply summary_footer.
  - unfold run_plan. apply (run_bind _ _ _ tt); [done|].
    unfold mbind, IO_bind. by rewrite Hrun.
Qed.

Lemma run_accounts_witness :
  let W := live_world in
  (1 ≤ parallel sample_plan)%N ∧
  let el := (log_plan sample_plan []).2 in
  match run_nodes sample_plan ([] ++ el) with
  | (Err e, en) => run_plan sample_plan [] = (Err e, el ++ en)
  | (Ok _, en) => ∃ marks : list mark, marks.*1 = nodes_of sample_plan ∧
      (continue_on_error sample_plan = false → Forall (λ m, m.2 = None) marks) ∧
      run_plan sample_plan [] = (verdict marks, el ++ en ++ footer marks)
  end.
Proof. split; [done|]. by apply (run_accounts sample_plan []). Defined.
