(* ===== verification/UpdateRollingFacts.v ===== *)
(** * hbird update-cluster: the update is a rolling one

    Over a whole run at most one node is out of service at any time: between the
    first attempt to drain a worker and the answer to its [kubectl uncordon], no
    other worker is drained.  With [--continue-on-error] the workers that may
    stay cordoned are among those the run reports as failed. *)

From S2P Require Import Prelude RustStr ConfigTypes SshOptions SshClient Effects Poll Cp UpdatePlan.
From S2P Require Import UpdateNode UpdateGates UpdateFlow UpdateRun UpdateFixtures UpdateGatesFacts.
From S2P Require Import UpdatePlanFacts UpdateNodeFacts UpdateFlowFacts UpdateRunFacts.

Lemma only_scoped P {A} init (body : Tr A) :
  (∀ l, P (EvErr l)) → tr_only P body → only P (scoped init body).
Proof.
  intros HP Hb. apply emits_scoped. eapply tr_conseq; [apply Hb|].
  intros r s es Hes. apply Forall_app. split; [done|].
  unfold drop_events. destruct (_ && _ && _); [|constructor].
  apply Forall_fmap, Forall_true. intros l. apply HP.
Qed.

Section rolling.
Context `{W : World} (plan : Plan).
Abbreviation drain_call k := (remote_kubectl (drain_cmd plan k)).
Abbreviation uncordon_call k := (remote_kubectl (uncordon_cmd k)).

(** ** Nodes that may be cordoned *)

(** A drain of the node was tried, whatever came of it, and since then no
    [kubectl uncordon] of it was answered. *)
Definition may_be_cordoned (k : string) (es : history) : Prop :=
  ∃ pre e post, es = pre ++ e :: post ∧ runs [drain_call k] e ∧ ¬ uncordoned plan k post.

Definition cordon_cmds (k : string) : list string := [drain_call k; uncordon_call k].

Lemma drained_in_either k es1 es2 :
  may_be_cordoned k (es1 ++ es2) → may_be_cordoned k es1 ∨ may_be_cordoned k es2.
Proof.
  intros (pre & e & post & Heq & He & Hu).
  apply app_eq_inv in Heq as [(l & -> & Heq)|(l & -> & ->)].
  - destruct l as [|e' l]; cbn in Heq.
    + right. subst es2. by exists [], e, post.
    + injection Heq as <- ->. left. exists pre, e, l. split_and!; [done|done|].
      intros Hl. apply Hu. unfold uncordoned. apply Exists_app. by left.
  - right. by exists l, e, post.
Qed.

Lemma never_drained k es : Forall (λ e, ¬ runs [drain_call k] e) es → ¬ may_be_cordoned k es.
Proof.
  intros Hes (pre & e & post & -> & He & _). apply Forall_app in Hes as [_ Hes].
  by inversion Hes.
Qed.

(** An uncordon after the last drain *)
Lemma uncordoned_last k es1 es2 :
  Forall (λ e, ¬ runs [drain_call k] e) es2 → uncordoned plan k es2 →
  ¬ may_be_cordoned k (es1 ++ es2).
Proof.
  intros Hd Hu (pre & e & post & Heq & He & Hn).
  apply app_eq_inv in Heq as [(l & -> & Heq)|(l & -> & ->)].
  - destruct l as [|e' l]; cbn in Heq; [subst es2; by inversion Hd|].
    injection Heq as <- ->. apply Hn. unfold uncordoned in *. apply Exists_app. by right.
  - apply Forall_app in Hd as [_ Hd]. by inversion Hd.
Qed.

#[local] Instance uncordoned_grows k : Grows (uncordoned plan k).
Proof. apply grows_exists. Qed.

(** The calls that leave alone the nodes in [F]. *)
Definition sparing (F : string → Prop) (o : SshOptions) (c : string) : Prop :=
  ∀ k, F k → c ∉ cordon_cmds k.

Lemma spares_kubectl F o cmd :
  starts_with "u" cmd = false → starts_with "d" cmd = false → sparing F o (remote_kubectl cmd).
Proof. intros Hu Hd k _. by apply kubectl_not_cordon. Qed.

Lemma spares_other F o c : starts_with "k" c = false → sparing F o c.
Proof.
  intros Hk k _ [->| ->%list_elem_of_singleton]%elem_of_cons; by vm_compute in Hk.
Qed.

Lemma spares_own k8s o c :
  c = drain_call k8s ∨ c = uncordon_call k8s → sparing (λ k, k ≠ k8s) o c.
Proof.
  intros Hc k Hk Hin. apply Hk. unfold cordon_cmds in Hin.
  rewrite elem_of_cons, list_elem_of_singleton in Hin.
  unfold drain_cmd, uncordon_cmd in *.
  destruct Hc as [->| ->], Hin as [Heq|Heq]; apply (inj _) in Heq; try done.
  - apply (inj _), app_inj_last in Heq. done.
  - by apply (inj _) in Heq.
Qed.

(** A node is not drained when the calls spare it. *)
Lemma spared_never (F : string → Prop) k es :
  F k → Forall (within (sparing F)) es → ¬ may_be_cordoned k es.
Proof.
  intros Hk Hes. apply never_drained. eapply Forall_impl; [exact Hes|]. intros e.
  apply within_not_runs. intros o c Hc Hin%list_elem_of_singleton. subst c. apply (Hc k Hk).
  by left.
Qed.

(** ** One node *)

Section node.
Context (pfx name ip k8s : string).

Ltac spare := first [apply spares_kubectl; reflexivity|apply spares_other; reflexivity
                    |apply spares_own; by auto].

(** The helpers of UpdateNode.v and UpdateGates.v *)
Lemma spares_upgrade F n nm : only (within (sparing F)) (bootc_upgrade_apply plan pfx n nm).
Proof.
  apply quiet_bootc_upgrade. intros c Hc.
  repeat (apply elem_of_cons in Hc as [->|Hc]; [spare|]). by apply elem_of_nil in Hc.
Qed.

Ltac spares :=
  lazymatch goal with
  | |- only _ (with_context _ _) => apply quiet_context; spares
  | |- only _ (try (wait_ssh_drop _ _ _)) => apply quiet_try, quiet_wait_ssh_drop; spare
  | |- only _ (cp_kubectl _ _ _) => apply quiet_cp_kubectl; spare
  | |- only _ (timer_stop _ _ _) => apply quiet_timer_stop; spare
  | |- only _ (timer_start _ _ _) => apply quiet_timer_start; spare
  | |- only _ (capture_node_bootid _ _ _) => apply quiet_capture_node_bootid; spare
  | |- only _ (wait_ssh_back _ _ _) => apply quiet_wait_ssh_back; spare
  | |- only _ (wait_apiserver_back _ _) => apply quiet_wait_apiserver_back; spare
  | |- only _ (wait_node_ready _ _ _) => apply quiet_wait_node_ready; spare
  | |- only _ (wait_node_bootid_changed _ _ _ _) => apply quiet_wait_node_bootid_changed; spare
  | |- only _ (wait_node_daemonsets_ready _ _ _) => apply quiet_wait_node_daemonsets_ready; spare
  | |- only _ (bootc_upgrade_apply _ _ _ _) => apply spares_upgrade
  | |- _ => unfold worker_banner, cp_banner; quiet
  end.

(** Descends into the flow. *)
Ltac flow :=
  repeat first [apply tr_only_bind; [|intros ?]|apply tr_only_modify|apply tr_only_ret
               |apply tr_only_io|case_match]; cbv zeta; spares.

Lemma update_worker_spares :
  only (within (sparing (λ k, k ≠ k8s))) (update_worker plan pfx name ip k8s).
Proof.
  apply only_scoped; [done|].
  unfold update_worker_body, finish_worker, worker_gates, drain_worker, uncordon_worker.
  flow.
Qed.

Lemma update_cp_spares : only (within (sparing (λ _, True))) (update_cp plan pfx).
Proof.
  apply only_scoped; [done|]. unfold update_cp_body, cp_gates. flow.
Qed.

(** Nothing but [drain_worker] drains. *)
Lemma spared_not_drained {A} (m : Tr A) :
  tr_only (within (sparing (λ _, True))) m → tr_only (λ e, ¬ runs [drain_call k8s] e) m.
Proof.
  intros Hm s. eapply tr_conseq; [apply Hm|]. intros r s' es Hes.
  eapply Forall_impl; [exact Hes|]. intros e. apply within_not_runs. intros o c Hc Hin.
  apply (Hc k8s); [done|]. apply list_elem_of_singleton in Hin as ->. by left.
Qed.

Lemma uncordon_passes : dry_run plan = false →
  tr_passes (λ e, ¬ runs [drain_call k8s] e) (uncordoned plan k8s) (uncordon_worker plan pfx k8s).
Proof.
  intros Hdry. unfold uncordon_worker.
  apply tr_passes_skip; [apply _|apply spared_not_drained; flow|intros _ s].
  eapply tr_bind; [by apply kubectl_call| |].
  - intros out s1 e1 (-> & Hother & Hr). apply tr_modify. rewrite app_nil_r.
    split; [|by intros]. apply Hother, drain_uncordon_ne.
  - intros e s1 e1 (-> & Hother & _). split; [apply Hother, drain_uncordon_ne|by intros].
Qed.

(** After an upgrade the flow drains nothing, and it succeeds only with an
    answered uncordon. *)
Lemma finish_worker_uncordons pre outcome : dry_run plan = false → skip_drain plan = false →
  tr_passes (λ e, ¬ runs [drain_call k8s] e) (uncordoned plan k8s)
    (finish_worker plan pfx name ip k8s pre outcome).
Proof.
  intros Hdry Hskip.
  assert (Hu : ∀ rest : Tr unit, tr_only (within (sparing (λ _, True))) rest →
            tr_passes (λ e, ¬ runs [drain_call k8s] e) (uncordoned plan k8s)
              (_ ← uncordon_worker plan pfx k8s; rest)).
  { intros rest Hrest.
    apply (tr_passes_impl _ (λ es, uncordoned plan k8s es ∧ True)); [by intros es []|].
    apply tr_passes_both; [apply _|apply _|by apply uncordon_passes|].
    intros _. by apply tr_passes_all, spared_not_drained. }
  destruct outcome; cbn [finish_worker].
  - apply tr_passes_skip; [apply _| |intros _; apply Hu; flow].
    apply spared_not_drained. unfold worker_gates. flow.
  - intros s h. by cbn.
  - rewrite Hskip. cbn [negb].
    apply tr_passes_skip; [apply _| |intros _; apply Hu; flow].
    apply spared_not_drained. flow.
Qed.

(** When [m] succeeds the node is not cordoned, whatever was done before. *)
Definition restores (m : Tr unit) : Prop :=
  ∀ s, tr_emits m s (λ r _ es, r = Ok tt → ∀ es0, ¬ may_be_cordoned k8s (es0 ++ es)).

Lemma restores_bind {A} (m : Tr A) (f : A → Tr unit) : (∀ a, restores (f a)) → restores (m ≫= f).
Proof.
  intros Hf s. eapply (tr_bind _ _ _ (λ _ _ _, True)); [by intros h| |by intros].
  intros a s1 e1 _. eapply tr_conseq; [apply Hf|]. intros r s2 e2 H Hr es0.
  rewrite app_assoc. by apply H.
Qed.

Lemma body_restores : dry_run plan = false → skip_drain plan = false →
  restores (update_worker_body plan pfx name ip k8s).
Proof.
  intros Hdry Hskip. unfold update_worker_body. do 7 (apply restores_bind; intros ?).
  intros s. eapply tr_conseq; [by apply finish_worker_uncordons|].
  intros r s' es [Hes Hu] -> es0. by apply uncordoned_last; [|eapply Hu].
Qed.

Lemma body_skips : dry_run plan = false → skip_drain plan = true →
  tr_only (λ e, ¬ runs [drain_call k8s] e) (update_worker_body plan pfx name ip k8s).
Proof.
  intros Hdry Hskip. unfold update_worker_body, drain_worker, finish_worker. rewrite Hskip. cbn [negb].
  assert (Hu : tr_only (λ e, ¬ runs [drain_call k8s] e) (uncordon_worker plan pfx k8s)).
  { intros s. eapply tr_conseq; [by apply uncordon_passes|]. by intros r s' es []. }
  repeat (apply tr_only_bind; [apply spared_not_drained; flow|intros ?]).
  case_match; [|apply spared_not_drained; flow..].
  apply tr_only_bind; [apply spared_not_drained; unfold worker_gates; flow|intros _].
  apply tr_only_bind; [exact Hu|intros _]. apply spared_not_drained. flow.
Qed.

(** After a successful update the node is not left cordoned. *)
Lemma update_worker_restores : dry_run plan = false →
  emits (update_worker plan pfx name ip k8s) (λ r es, r = Ok tt → ¬ may_be_cordoned k8s es).
Proof.
  intros Hdry. apply emits_scoped.
  assert (Hdrop : ∀ s, ¬ may_be_cordoned k8s (drop_events s)).
  { intros s. apply never_drained. unfold drop_events. destruct (_ && _ && _); [|constructor].
    apply Forall_fmap, Forall_true. by intros l []. }
  assert (Hbody : tr_emits (update_worker_body plan pfx name ip k8s)
            (mkInFlight k8s (plan_cp_ip plan) false false "pre-drain")
            (λ r _ es, r = Ok tt → ¬ may_be_cordoned k8s es)).
  { destruct (skip_drain plan) eqn:Hskip.
    - eapply tr_conseq; [by apply body_skips|]. intros r s es Hes _. by apply never_drained.
    - eapply tr_conseq; [by apply body_restores|]. intros r s es H Hr. exact (H Hr []). }
  eapply tr_conseq; [exact Hbody|]. intros r s es H Hr [Hm|Hm]%drained_in_either.
  - by apply H.
  - by apply Hdrop in Hm.
Qed.
End node.

(** ** The run *)

(** The [kubectl] name of a worker *)
Definition node_of (w : string) : string := default w (worker_k8s_name_map plan !! w).

(** At no moment two nodes are out of service. *)
Definition one_at_a_time (es : history) : Prop :=
  ∀ pre k1 k2, pre `prefix_of` es → may_be_cordoned k1 pre → may_be_cordoned k2 pre → k1 = k2.

(** [m] keeps that, and succeeds only with all nodes in service. *)
Definition rolls {A} (m : IO anyhow A) : Prop :=
  emits m (λ r es, one_at_a_time es ∧ ∀ a, r = Ok a → ∀ k, ¬ may_be_cordoned k es).

Lemma rolls_spared {A} (m : IO anyhow A) : only (within (sparing (λ _, True))) m → rolls m.
Proof.
  intros Hm. eapply emits_conseq; [exact Hm|]. intros r es Hes.
  assert (Hno : ∀ k pre, pre `prefix_of` es → ¬ may_be_cordoned k pre).
  { intros k pre [post ->]. apply Forall_app in Hes as [Hes _].
    by eapply (spared_never (λ _, True)). }
  split; [|intros a _ k; by apply Hno].
  intros pre k1 k2 Hp H1. by apply Hno in H1.
Qed.

Lemma rolls_bind {A B} (m : IO anyhow A) (f : A → IO anyhow B) :
  rolls m → (∀ a, rolls (f a)) → rolls (m ≫= f).
Proof.
  intros Hm Hf. eapply emits_io_bind; [exact Hm| |by intros e es [H _]].
  intros a e1 [H1 Ha]. eapply emits_conseq; [apply Hf|]. intros r e2 [H2 Hb].
  assert (Hnone : ∀ k e, may_be_cordoned k (e1 ++ e) → may_be_cordoned k e).
  { intros k e [Hk|Hk]%drained_in_either; [by apply (Ha a eq_refl) in Hk|done]. }
  split; [|intros b Hb' k Hk%Hnone; by eapply Hb].
  intros pre k1 k2 [post Heq] Hk1 Hk2. apply app_eq_inv in Heq as [(l & -> & ->)|(l & -> & ->)].
  - apply (H1 pre); [by exists l|done..].
  - apply (H2 l); [by exists post|by apply Hnone..].
Qed.
Lemma update_worker_rolls pfx name ip k8s : dry_run plan = false →
  rolls (update_worker plan pfx name ip k8s).
Proof.
  intros Hdry. eapply emits_conseq.
  { apply emits_and; [apply update_worker_spares|by apply update_worker_restores]. }
  intros r es [Hes Hr].
  assert (Hother : ∀ k pre, pre `prefix_of` es → may_be_cordoned k pre → k = k8s).
  { intros k pre [post ->] Hk. destruct (decide (k = k8s)) as [|Hne]; [done|]. exfalso. revert Hk.
    apply Forall_app in Hes as [Hes _]. by eapply (spared_never (λ k, k ≠ k8s)). }
  split; [intros pre k1 k2 Hp H1 H2; trans k8s; [|symmetry]; by eapply Hother|].
  intros [] -> k Hk. assert (k = k8s) as -> by (by eapply Hother). by apply Hr.
Qed.

Context (Hdry : dry_run plan = false) (Hcont : continue_on_error plan = false).

Lemma run_one_worker_rolls pfx w res : rolls (run_one_worker plan pfx w res).
Proof using Hdry Hcont.
  unfold run_one_worker. apply rolls_bind; [apply rolls_spared; by apply only_of_result|].
  intros ip. cbv zeta. rewrite Hcont.
  eapply (emits_io_bind _ _ (λ r es, ∃ r' : result anyhow unit, r = Ok r' ∧ one_at_a_time es ∧
                                       (r' = Ok tt → ∀ k, ¬ may_be_cordoned k es))).
  - apply emits_lift. eapply emits_conseq; [by apply update_worker_rolls|].
    intros r es [H1 H2]. exists r. split_and!; [done|done|]. intros ->. by eapply H2.
  - intros r e1 (? & [= <-] & H1 & H2) h. destruct r as [[]|e]; cbn; rewrite app_nil_r;
      (split; [done|]); [|by intros]. intros _ _. by apply H2.
  - by intros e e1 (? & [=] & _).
Qed.

Lemma run_workers_rolls prefix batch res : rolls (run_workers plan prefix batch res).
Proof using Hdry Hcont.
  revert res. induction batch as [|w ws IH]; intros res; cbn [run_workers].
  - apply rolls_spared. quiet.
  - apply rolls_bind; [apply run_one_worker_rolls|exact IH].
Qed.

Lemma run_worker_batch_rolls batch res : rolls (run_worker_batch plan batch res).
Proof using Hdry Hcont.
  unfold run_worker_batch. destruct batch as [|w ws]; [apply rolls_spared; quiet|].
  destruct (_ || _); [apply run_workers_rolls|].
  do 2 (apply rolls_bind; [apply rolls_spared; quiet|intros _]). apply run_workers_rolls.
Qed.

Lemma walk_rolls fuel rest res : rolls (walk fuel plan rest res).
Proof using Hdry Hcont.
  revert rest res. induction fuel as [|fuel IH]; intros rest res; cbn [walk];
    [apply rolls_spared; quiet|].
  destruct rest as [|w ws]; [apply rolls_spared; quiet|]. cbv zeta.
  apply rolls_bind; [apply run_worker_batch_rolls|intros res1].
  apply rolls_bind; [|intros _; apply IH]. apply rolls_spared. unfold pause_between. quiet.
Qed.

Lemma run_nodes_rolls : rolls (run_nodes plan).
Proof using Hdry Hcont.
  assert (Hcp : rolls (update_cp plan "")) by apply rolls_spared, update_cp_spares.
  unfold run_nodes, run_single, run_cp, log0. destruct (node_filter plan) as [node|].
  - repeat case_match; [|apply run_one_worker_rolls|apply rolls_spared; quiet].
    apply rolls_bind; [done|intros _]. apply rolls_spared. quiet.
  - apply rolls_bind; [|intros res; apply walk_rolls].
    repeat case_match; try (apply rolls_spared; solve [quiet]).
    apply rolls_bind; [done|intros _]. apply rolls_spared. quiet.
Qed.

Lemma run_plan_rolls : rolls (run_plan plan).
Proof using Hdry Hcont.
  unfold run_plan, log_plan, summary, log_resolved, log0.
  apply rolls_bind; [|intros _; apply rolls_bind; [apply run_nodes_rolls|intros res]].
  all: apply rolls_spared; quiet; apply only_for_each; intros ? _; quiet.
Qed.
End rolling.

(** *** Which nodes stay cordoned *)

Section failed.
Context `{W : World} (plan : Plan) (Hdry : dry_run plan = false).

(** Every node that may be cordoned belongs to a worker recorded as failed. *)
Definition accounted (res : Results) (es : history) : Prop :=
  ∀ k, may_be_cordoned plan k es → ∃ w reason, k = node_of plan w ∧ (w +:+ ": " +:+ reason) ∈ failed res.

(** [m] turns the results [res] into results that account for what it does. *)
Definition accounts (m : IO anyhow Results) (res : Results) : Prop :=
  emits m (λ r es, ∀ res', r = Ok res' → ∀ es0, accounted res es0 → accounted res' (es0 ++ es)).

Lemma accounts_ret res : accounts (mret res) res.
Proof. apply emits_io_ret. intros ? [= <-] es0 H. by rewrite app_nil_r. Qed.

Lemma accounts_bind (m : IO anyhow Results) (f : Results → IO anyhow Results) res :
  accounts m res → (∀ res1, accounts (f res1) res1) → accounts (m ≫= f) res.
Proof.
  intros Hm Hf. eapply emits_io_bind; [exact Hm| |by intros].
  intros res1 e1 H1. eapply emits_conseq; [apply Hf|]. intros r e2 H2 res' Hr es0 H0.
  rewrite app_assoc. apply H2; [done|]. by apply H1.
Qed.

(** Steps that spare all nodes change nothing. *)
Lemma accounts_spared {A} (m : IO anyhow A) (f : A → IO anyhow Results) res :
  only (within (sparing plan (λ _, True))) m → (∀ a, accounts (f a) res) → accounts (m ≫= f) res.
Proof.
  intros Hm Hf. eapply emits_io_bind; [apply rolls_spared, Hm| |by intros].
  intros a e1 [_ H1]. eapply emits_conseq; [apply Hf|]. intros r e2 H2 res' Hr es0 H0.
  rewrite app_assoc. apply H2; [done|]. intros k [Hk|Hk]%drained_in_either; [by apply H0|].
  by apply (H1 a) in Hk.
Qed.

Lemma run_one_worker_accounts pfx w res : accounts (run_one_worker plan pfx w res) res.
Proof using Hdry.
  unfold run_one_worker. apply accounts_spared; [by apply only_of_result|].
  intros ip. cbv zeta.
  eapply (emits_io_bind _ _ (λ r es, ∃ r' : result anyhow unit, r = Ok r' ∧
            ∀ k, may_be_cordoned plan k es → k = node_of plan w ∧ r' ≠ Ok tt)).
  { apply emits_lift. eapply emits_conseq.
    { apply emits_and; [apply update_worker_rolls, Hdry|apply update_worker_spares]. }
    intros r es [[_ Hr] Hes]. exists r. split; [done|]. intros k Hk.
    split; [|intros ->; by eapply Hr]. destruct (decide (k = node_of plan w)) as [|Hne]; [done|].
    exfalso. revert Hk. by eapply (spared_never _ (λ k, k ≠ _)). }
  2: by intros e e1 (? & [=] & _).
  intros r e1 (? & [= <-] & H1). destruct r as [[]|e].
  - intros h. cbn. rewrite app_nil_r. intros ? [= <-] es0 H0 k [Hk|Hk]%drained_in_either; [by apply H0|].
    by apply H1 in Hk as [_ []].
  - destruct (continue_on_error plan); [|intros h; by cbn].
    set (res1 := push_failed _ res).
    eapply emits_conseq.
    { apply (emits_and _ (λ _ es, Forall (within (sparing plan (λ _, True))) es)
                         (λ r _, ∀ a, r = Ok a → a = res1)).
      - apply only_io_bind; [quiet|intros _]. apply only_io_bind; [|intros r; apply only_io_ret].
        apply quiet_try, quiet_timer_start. by apply spares_other.
      - do 2 (eapply on_ok_bind; [apply on_ok_any|]; intros ? _). by apply on_ok_ret. }
    intros r e2 [H2 Hr] res' Hr' es0 H0 k Hk. rewrite (Hr _ Hr').
    apply drained_in_either in Hk as [Hk|[Hk|Hk]%drained_in_either].
    + destruct (H0 k Hk) as (w' & reason & -> & Hin). exists w', reason. split; [done|].
      apply elem_of_app. by left.
    + apply H1 in Hk as [-> _]. exists w, (show_anyhow e). split; [done|].
      apply elem_of_app. right. by left.
    + exfalso. revert Hk. by eapply (spared_never _ (λ _, True)).
Qed.
Lemma run_workers_accounts prefix batch res : accounts (run_workers plan prefix batch res) res.
Proof using Hdry.
  revert res. induction batch as [|w ws IH]; intros res; cbn [run_workers]; [apply accounts_ret|].
  apply accounts_bind; [apply run_one_worker_accounts|exact IH].
Qed.

Lemma run_worker_batch_accounts batch res : accounts (run_worker_batch plan batch res) res.
Proof using Hdry.
  unfold run_worker_batch. destruct batch as [|w ws]; [apply accounts_ret|].
  destruct (_ || _); [apply run_workers_accounts|].
  do 2 (apply accounts_spared; [quiet|intros _]). apply run_workers_accounts.
Qed.

Lemma walk_accounts fuel rest res : accounts (walk fuel plan rest res) res.
Proof using Hdry.
  revert rest res. induction fuel as [|fuel IH]; intros rest res; cbn [walk]; [apply accounts_ret|].
  destruct rest as [|w ws]; [apply accounts_ret|]. cbv zeta.
  apply accounts_bind; [apply run_worker_batch_accounts|intros res1].
  apply accounts_spared; [unfold pause_between; quiet|intros _; apply IH].
Qed.

Lemma run_nodes_accounts :
  emits (run_nodes plan) (λ r es, ∀ res, r = Ok res → accounted res es).
Proof using Hdry.
  assert (H0 : ∀ m, accounts m (mkResults [] []) →
            emits m (λ r es, ∀ res, r = Ok res → accounted res es)).
  { intros m Hm. eapply emits_conseq; [exact Hm|]. intros r es H res Hr. apply (H res Hr []).
    by intros k (pre & e & post & Heq%(f_equal length) & _); rewrite length_app in Heq; cbn in Heq; lia. }
  assert (Hok : ∀ res w, failed res = [] → accounts (mret (push_ok w res)) (mkResults [] [])).
  { intros res w Hf. apply emits_io_ret. intros ? [= <-] es0 H. rewrite app_nil_r.
    intros k Hk. destruct (H k Hk) as (? & ? & _ & Hin). by apply elem_of_nil in Hin. }
  apply H0. unfold run_nodes, run_single, run_cp, log0.
  assert (Hcp := update_cp_spares plan "").
  destruct (node_filter plan) as [node|].
  - repeat case_match; [|apply run_one_worker_accounts|by intros h].
    apply accounts_spared; [done|intros _]. by apply Hok.
  - apply accounts_bind; [|intros res; apply walk_accounts].
    repeat case_match; (apply accounts_spared; [first [done|quiet]|intros _]);
      first [apply accounts_ret|by apply Hok].
Qed.
End failed.


