(* ===== verification/Cache.v ===== *)
(** * The image cache: build ids, sidecar files and the freshness policy

    [crates/hbird-cli/src/cache.rs].  The file system is a map from paths (as
    spelled) to contents; a write can stop half way ([crash]).  [git] and
    [podman] are parameters. *)

From S2P Require Import Prelude RustStr ConfigTypes SshOptions SshClient VirtUri.

(** ** The policy *)

Inductive CacheAssessResult : Set := Reuse | Rebuild | StrictFail.
#[export] Instance CacheAssessResult_eq_dec : EqDecision CacheAssessResult.
Proof. solve_decision. Defined.

(** [s.split(':').next().unwrap_or(..)] *)
Definition source_prefix (s : string) : string := default "" (head (split_char ":" s)).

Definition assess_qcow2_cache (cached_ref expected_ref : option string) (strict : bool)
    : CacheAssessResult :=
  match cached_ref, expected_ref with
  | Some cached, Some expected =>
      if is_empty cached || is_empty expected then (if strict then StrictFail else Reuse)
      else if negb (bool_decide (source_prefix cached = source_prefix expected)) then Reuse
      else if bool_decide (cached = expected) then Reuse
      else if strict then StrictFail else Rebuild
  | _, _ => if strict then StrictFail else Reuse
  end.

Definition build_id (source id : string) : option string :=
  if is_empty id then None else Some (source +:+ ":" +:+ id).

(** ** [fnv1a_64] and [containerfile_hash] *)

Definition OFFSET_BASIS : N := 14695981039346656037.
Definition PRIME : N := 1099511628211.

Fixpoint fnv1a_go (hash : N) (data : string) : N :=
  match data with
  | EmptyString => hash
  | String byte data' => fnv1a_go (wrapping_mul64 (N.lxor hash (byte_val byte)) PRIME) data'
  end.
Definition fnv1a_64 (data : string) : N := fnv1a_go OFFSET_BASIS data.

(** [{:0k x}] of a number with at most [k] hexadecimal digits. *)
Fixpoint hex_padded (k : nat) (n : N) (acc : string) : string :=
  match k with
  | O => acc
  | S k' => hex_padded k' (n / 16) (String (hex_digit (n mod 16)) acc)
  end.

(** [read] is [std::fs::read(path)]. *)
Definition containerfile_hash (read : string → option string) (path : string) : option string :=
  contents ← read path;
  Some (hex_padded 12 (N.land (fnv1a_64 contents) 281474976710655) "").

(** ** Sidecar files *)

Abbreviation fs := (gmap string string).

(** [Path::parent] of a path whose last component is an ordinary name. *)
Definition path_parent (path : string) : string :=
  match rsplit_once "/" path with
  | Some (dir, _) => let d := trim_end_char "/" dir in if is_empty d then "/" else d
  | None => ""
  end.

Definition sidecar_path (qcow : string) : string := qcow +:+ ".build-ref".

Definition read_sidecar (s : fs) (qcow : string) : option string :=
  raw ← s !! sidecar_path qcow;
  let trimmed := trim raw in
  if is_empty trimmed then None else Some trimmed.

Inductive fs_op : Set :=
| Create (path : string)
| Append (path bytes : string)
| SyncAll (path : string)
| Rename (from to : string).

Definition apply_op (op : fs_op) (s : fs) : fs :=
  match op with
  | Create path => <[path := ""]> s
  | Append path bytes => match s !! path with Some old => <[path := old +:+ bytes]> s | None => s end
  | SyncAll _ => s
  | Rename from to => match s !! from with Some c => <[to := c]> (delete from s) | None => s end
  end.

Definition tmp_path (pid : N) (qcow : string) : string :=
  path_join (path_parent (sidecar_path qcow)) (".build-ref-tmp-" +:+ show_N pid).

(** What [write_sidecar] does when nothing fails; the first failing operation
    ends it with its error. *)
Definition write_sidecar_ops (pid : N) (qcow id : string) : list fs_op :=
  if is_empty id then []
  else [Create (tmp_path pid qcow); Append (tmp_path pid qcow) (id +:+ NL);
        SyncAll (tmp_path pid qcow); Rename (tmp_path pid qcow) (sidecar_path qcow)].

Fixpoint run_ops (answer : fs_op → result io_error unit) (ops : list fs_op) (s : fs)
    : result io_error unit * fs :=
  match ops with
  | [] => (Ok tt, s)
  | op :: ops' =>
      match answer op with
      | Ok _ => run_ops answer ops' (apply_op op s)
      | Err e => (Err e, s)
      end
  end.

Definition write_sidecar (answer : fs_op → result io_error unit) (pid : N) (qcow id : string) (s : fs)
    : result io_error unit * fs := run_ops answer (write_sidecar_ops pid qcow id) s.

(** ** Freshness of a pulled image *)

Inductive ImageFreshness : Set := InSync | Drifted | Unverifiable.
Inductive GhcrAssessResult : Set :=
| Fresh
| Warn (message : string)
| GhcrStrictFail (message : string).

Definition assess_ghcr_image (freshness : ImageFreshness) (label vcs_ref containerfiles : string)
    (strict : bool) : GhcrAssessResult :=
  match freshness, strict with
  | InSync, _ => Fresh
  | Drifted, true =>
      GhcrStrictFail ("pulled " +:+ label +:+ " (vcs-ref " +:+ vcs_ref +:+ ") predates on-disk "
        +:+ containerfiles +:+ " — STRICT_CACHE=1 refuses a stale boot-test. Rebuild from source: "
        +:+ "IMAGE_SOURCE=local FORCE_REBUILD=1.")
  | Drifted, false =>
      Warn ("WARN: pulled " +:+ label +:+ " (vcs-ref " +:+ vcs_ref
        +:+ ") does NOT reflect on-disk " +:+ containerfiles
        +:+ "; this deploy tests the PUBLISHED image, not your local "
        +:+ "change. Use IMAGE_SOURCE=local FORCE_REBUILD=1 to test local edits. (#373)")
  | Unverifiable, true =>
      GhcrStrictFail ("cannot prove freshness under STRICT_CACHE=1; rebuild with FORCE_REBUILD=1. "
        +:+ "(Freshness needs the repo: run from a checkout or pass --repo-root.)")
  | Unverifiable, false => Fresh
  end.

(** [podman image inspect]: [None] when it cannot be spawned. *)
Definition image_vcs_ref (podman : list string → option RunOutput) (image : string) : option string :=
  out ← podman ["image"; "inspect"; "--format";
                "{{ index .Config.Labels " +:+ DQ +:+ "org.opencontainers.image.revision" +:+ DQ
                +:+ " }}"; image];
  if negb (success (status out)) then None
  else
    let s := trim (stdout_lossy out) in
    if is_empty s || bool_decide (s = "<no value>") then None else Some s.

(** [git args] in the repository: [None] when it cannot be spawned. *)
Definition containerfile_changed_since (git : list string → option RunOutput) (vcs_ref : string)
    (containerfiles : list string) : ImageFreshness :=
  let succeeds args := match git args with Some out => success (status out) | None => false end in
  if is_empty vcs_ref then Unverifiable
  else if negb (succeeds ["rev-parse"; "--is-inside-work-tree"]) then Unverifiable
  else if negb (succeeds ["cat-file"; "-e"; vcs_ref +:+ "^{commit}"]) then Unverifiable
  else if succeeds (["diff"; "--quiet"; vcs_ref; "--"] ++ containerfiles) then InSync
  else Drifted.

(** ** The policy on build ids *)

Lemma source_prefix_build_id source id :
  contains_char ":" source = false → source_prefix (source +:+ ":" +:+ id) = source.
Proof.
  intros Hs. unfold source_prefix. change (":" +:+ id) with (String ":" id).
  rewrite split_char_app by done. done.
Qed.

(** Two ids made by [build_id] from sources without a colon: the template is
    rebuilt, or refused under strict mode, exactly when both ids are known, the
    source is the same and the ids differ; strict mode also refuses when an id
    is unknown. *)
Theorem assess_build_ids source id source' id' strict
    (Hs : contains_char ":" source = false) (Hs' : contains_char ":" source' = false) :
  let stale := source = source' ∧ id ≠ id' in
  let known := id ≠ "" ∧ id' ≠ "" in
  match assess_qcow2_cache (build_id source id) (build_id source' id') strict with
  | Rebuild => strict = false ∧ known ∧ stale
  | StrictFail => strict = true ∧ (¬ known ∨ stale)
  | Reuse => (¬ known ∧ strict = false) ∨ (known ∧ ¬ stale)
  end.
Proof.
  cbv zeta. unfold build_id.
  destruct id as [|a id]; [destruct strict, (is_empty id'); cbn; naive_solver|].
  destruct id' as [|a' id']; [destruct strict; cbn; naive_solver|].
  cbn [is_empty assess_qcow2_cache].
  assert (He : ∀ s t, is_empty (s +:+ ":" +:+ t) = false) by (intros [|??] ?; reflexivity).
  rewrite !He. cbn [orb]. rewrite !source_prefix_build_id by done.
  case_bool_decide as Hsrc; cbn [negb]; [subst source'|right; naive_solver].
  case_bool_decide as Hid.
  - right. split; [done|]. intros [_ Hne]. apply Hne.
    by apply app_inj_s in Hid; injection Hid as -> ->.
  - assert (String a id ≠ String a' id') by congruence. by destruct strict; auto.
Qed.

(** ** Sidecars survive a crash *)

(** The process dies before an operation, or inside a write. *)
Inductive crash : list fs_op → fs → fs → Prop :=
| crash_here ops s : crash ops s s
| crash_within path written lost ops s :
    crash (Append path (written +:+ lost) :: ops) s (apply_op (Append path written) s)
| crash_later op ops s s' : crash ops (apply_op op s) s' → crash (op :: ops) s s'.

Lemma crash_nil s s' : crash [] s s' → s' = s.
Proof. by inversion 1. Qed.
Lemma crash_cons op ops s s' :
  crash (op :: ops) s s' →
  s' = s ∨ (∃ path w lost, op = Append path (w +:+ lost) ∧ s' = apply_op (Append path w) s)
  ∨ crash ops (apply_op op s) s'.
Proof. inversion 1; subst; eauto 7. Qed.

(** A failing operation leaves one of these states. *)
Lemma run_ops_crash answer ops s : crash ops s (run_ops answer ops s).2.
Proof.
  revert s. induction ops as [|op ops IH]; intros s; cbn [run_ops]; [constructor|].
  destruct (answer op); [apply crash_later, IH|apply crash_here].
Qed.

Lemma path_join_suffix dir file : ∃ d, path_join dir file = d +:+ file.
Proof.
  unfold path_join. destruct (strip_suffix_char "/" dir); [by eexists|].
  destruct (is_empty dir); [by exists ""|]. exists (dir +:+ "/"). by rewrite <-app_assoc_s.
Qed.

(** The temporary file is never the sidecar: its name ends with a digit. *)
Lemma tmp_path_ne pid qcow : tmp_path pid qcow ≠ sidecar_path qcow.
Proof.
  unfold tmp_path, sidecar_path.
  destruct (path_join_suffix (path_parent (qcow +:+ ".build-ref")) (".build-ref-tmp-" +:+ show_N pid))
    as [d ->].
  destruct (show_N_last pid) as (u & a & -> & Ha).
  change ".build-ref" with (".build-re" +:+ chr "f"). rewrite !app_assoc_s. intros E%last_char.
  by subst a.
Qed.

Lemma append_created tmp w (s : fs) : apply_op (Append tmp w) (<[tmp := ""]> s) = <[tmp := w]> s.
Proof. cbn [apply_op]. rewrite lookup_insert_eq. cbn. by rewrite insert_insert_eq. Qed.
Lemma rename_written tmp path w (s : fs) :
  apply_op (Rename tmp path) (<[tmp := w]> s) = <[path := w]> (delete tmp s).
Proof. cbn [apply_op]. by rewrite lookup_insert_eq, delete_insert_eq. Qed.

(** Whenever [write_sidecar] dies, inside a write or between two operations,
    the sidecar is complete: it holds what it held before, or the new id; and no
    file but the temporary one differs otherwise. *)
Theorem write_sidecar_atomic pid qcow id s s'
    (Hcrash : crash (write_sidecar_ops pid qcow id) s s') :
  ∀ path, path ≠ tmp_path pid qcow →
    s' !! path = s !! path ∨ (path = sidecar_path qcow ∧ s' !! path = Some (id +:+ NL)).
Proof.
  intros path Hp. revert Hcrash. unfold write_sidecar_ops.
  set (tmp := tmp_path pid qcow) in *. pose proof (tmp_path_ne pid qcow) as Hne. fold tmp in Hne.
  destruct (is_empty id); intros Hc.
  { inversion Hc; subst. by left. }
  assert (Hfin : ∀ w, (<[tmp := w]> s) !! path = s !! path) by (intros; by rewrite lookup_insert_ne).
  apply crash_cons in Hc as [->|[(? & ? & ? & [=] & _)|Hc]]; [by left|].
  change (apply_op (Create tmp) s) with (<[tmp := ""]> s) in Hc.
  apply crash_cons in Hc as [->|[(q & w & lost & [= <- _] & ->)|Hc]];
    [by left; rewrite Hfin|by left; rewrite append_created, Hfin|].
  rewrite append_created in Hc.
  apply crash_cons in Hc as [->|[(? & ? & ? & [=] & _)|Hc]]; [by left; rewrite Hfin|].
  change (apply_op (SyncAll tmp) ?x) with x in Hc.
  apply crash_cons in Hc as [->|[(? & ? & ? & [=] & _)|Hc]]; [by left; rewrite Hfin|].
  rewrite rename_written in Hc. apply crash_nil in Hc as ->.
  destruct (decide (path = sidecar_path qcow)) as [->|Hq]; [right|left].
  - by rewrite lookup_insert_eq.
  - by rewrite lookup_insert_ne, lookup_delete_ne.
Qed.

Lemma write_sidecar_atomic_witness :
  let s' := apply_op (Append (tmp_path 7 "/pool/t.qcow2") "ghcr")
              (apply_op (Create (tmp_path 7 "/pool/t.qcow2")) ∅) in
  crash (write_sidecar_ops 7 "/pool/t.qcow2" "ghcr:abc") ∅ s'
  ∧ ∀ path, path ≠ tmp_path 7 "/pool/t.qcow2" →
      s' !! path = (∅ : fs) !! path
      ∨ (path = sidecar_path "/pool/t.qcow2" ∧ s' !! path = Some ("ghcr:abc" +:+ NL)).
Proof.
  intros s'. assert (Hc : crash (write_sidecar_ops 7 "/pool/t.qcow2" "ghcr:abc") ∅ s')
    by (apply crash_later, (crash_within _ "ghcr" (":abc" +:+ NL))).
  split; [exact Hc|]. apply (write_sidecar_atomic 7 "/pool/t.qcow2" "ghcr:abc" ∅ s' Hc).
Defined.

(** ** Reading a sidecar back *)

Lemma trim_snoc_nl id : complete_chars id = true → trim (id +:+ NL) = trim id.
Proof.
  intros Hid. unfold trim. rewrite chars_app by done. change (chars NL) with [NL].
  destruct (forallb is_whitespace (chars id)) eqn:Hall.
  - rewrite (drop_while_app_all _ (chars id) [NL]), <-(app_nil_r (chars id)).
    2: { apply Forall_forall. intros x Hx. eapply forallb_elem in Hall; [exact Hall|done]. }
    rewrite drop_while_app_all; [done|].
    apply Forall_forall. intros x Hx. eapply forallb_elem in Hall; [exact Hall|done].
  - assert (∀ l k, forallb is_whitespace l = false →
              drop_while is_whitespace (l ++ k) = drop_while is_whitespace l ++ k) as Hd.
    { clear. intros l k. induction l as [|x l IH]; cbn; [done|].
      by destruct (is_whitespace x); cbn; [apply IH|]. }
    rewrite Hd by done. by rewrite rev_app_distr.
Qed.

(** Written and read back: after success the sidecar reads as the new id without
    the white space around it (no id is written when it is empty), after a
    failure as what it was before. *)
Theorem sidecar_roundtrip answer pid qcow id s (Hid : complete_chars id = true) :
  let '(r, s') := write_sidecar answer pid qcow id s in
  read_sidecar s' qcow =
  match r with
  | Ok _ =>
      if is_empty id then read_sidecar s qcow
      else if is_empty (trim id) then None else Some (trim id)
  | Err _ => read_sidecar s qcow
  end.
Proof.
  unfold write_sidecar, write_sidecar_ops. destruct (is_empty id); [done|].
  pose proof (tmp_path_ne pid qcow) as Hne. set (tmp := tmp_path pid qcow) in *.
  assert (Hr : ∀ w, read_sidecar (<[tmp := w]> s) qcow = read_sidecar s qcow)
    by (intros; unfold read_sidecar; by rewrite lookup_insert_ne).
  cbn [run_ops]. destruct (answer (Create tmp)); [|done].
  change (apply_op (Create tmp) s) with (<[tmp := ""]> s).
  destruct (answer (Append _ _)); [|by rewrite Hr]. rewrite append_created.
  destruct (answer (SyncAll _)); [|by rewrite Hr].
  change (apply_op (SyncAll tmp) ?x) with x.
  destruct (answer (Rename _ _)); [|by rewrite Hr]. rewrite rename_written.
  unfold read_sidecar. rewrite lookup_insert_eq. cbn [mbind option_bind].
  by rewrite trim_snoc_nl.
Qed.

(** The hash of a Containerfile is 12 hexadecimal digits. *)
Definition is_hex (a : ascii) : bool := is_ascii_digit a || in_range 97 102 a.

Lemma hex_digit_is_hex n : (n < 16)%N → is_hex (hex_digit n) = true.
Proof.
  intros Hn. unfold hex_digit, is_hex. destruct (N.ltb_spec n 10) as [H|H].
  - by rewrite digit_is_digit.
  - apply orb_true_iff. right. apply in_range_spec. rewrite byte_val_ascii_of_N; lia.
Qed.

Theorem containerfile_hash_12_hex read path h :
  containerfile_hash read path = Some h → String.length h = 12%nat ∧ all_bytes is_hex h = true.
Proof.
  unfold containerfile_hash. intros Hh. apply bind_Some in Hh as (c & _ & [= <-]).
  assert (H : ∀ k n acc, all_bytes is_hex acc = true →
            String.length (hex_padded k n acc) = (k + String.length acc)%nat
            ∧ all_bytes is_hex (hex_padded k n acc) = true).
  { induction k as [|k IH]; intros n acc Hacc; cbn [hex_padded]; [done|].
    destruct (IH (n / 16)%N (String (hex_digit (n mod 16)) acc)) as [Hl Ha].
    { cbn [all_bytes]. by rewrite hex_digit_is_hex by (apply N.mod_lt; done). }
    split; [|done]. rewrite Hl. cbn [String.length]. lia. }
  exact (H 12%nat _ "" eq_refl).
Qed.
