(* ===== verification/VirtCalls.v ===== *)
(** * The calls of a connection in the history

    What the history of a computation over [build_connection] shows: each verb
    leaves one event, [call_of] reads off it where the command ran, the words
    the shell saw and what came of it, and [answers] relates that to the
    verb's result. *)

From S2P Require Import Prelude RustStr ConfigTypes SshOptions SshClient Effects Poll VirtUri.
From S2P Require Import Shell VirtParse VirtConn.

(** The command exited with 0, ended otherwise, or could not be run. *)
Inductive outcome : Set :=
| Done (stdout : string)
| Failed (exit_code : option Z)
| Unreachable.
#[export] Instance outcome_eq_dec : EqDecision outcome.
Proof. solve_decision. Defined.

(** Over [ssh] with these options, or on this machine. *)
Abbreviation place := (option SshOptions).

Definition is_done (o : outcome) : Prop := match o with Done _ => True | _ => False end.
Definition is_failed (o : outcome) : Prop := match o with Failed _ => True | _ => False end.

#[export] Instance is_done_dec o : Decision (is_done o).
Proof. destruct o; apply _. Defined.

Definition ssh_outcome (r : result SshError RunOutput) : outcome :=
  match r with
  | Ok out => Done (stdout_lossy out)
  | Err (NonZeroExit _ status _ _) => Failed (code status)
  | Err _ => Unreachable
  end.
Definition local_outcome (r : result io_error RunOutput) : outcome :=
  match r with
  | Ok out => if success (status out) then Done (stdout_lossy out) else Failed (code (status out))
  | Err _ => Unreachable
  end.

Definition call_of (e : event) : option (place * list string * outcome) :=
  match e with
  | EvSsh o cmd None r => (λ ws, (Some o, ws, ssh_outcome r)) <$> shell_words cmd
  | EvLocal ["sh"; "-c"; cmd] r => (λ ws, (None, ws, local_outcome r)) <$> shell_words cmd
  | _ => None
  end.

Definition place_of (kvm_host : option string) : place := new <$> non_empty kvm_host.

(** The result of a verb that sends one command and reads its output with [k]. *)
Definition answers {A} (k : string → result VirtError A) (o : outcome) (r : result VirtError A)
    : Prop :=
  match o with
  | Done s => r = k s
  | Failed _ => ∃ command stderr, r = Err (VirshFailed command stderr)
  | Unreachable => ∃ t, r = Err (Ssh t)
  end.

Definition virsh_argv (args : list string) : list string := "virsh" :: "-c" :: "qemu:///system" :: args.

Section calls.
Context `{W : World} (kvm : option string).
#[local] Abbreviation c := (build_connection kvm).

(** The connection's URI has no part in where the command goes. *)
Lemma build_connection_uri : QemuSshUri.remote_uri (conn_uri c) = "qemu:///system".
Proof. unfold build_connection. destruct kvm as [host|]; [destruct (is_empty host)|]; done. Qed.

(** [SshClient::run] of the connection. *)
Lemma vrun_call host cmd ws :
  shell_words cmd = Some ws →
  emits (@vrun (conn_ssh c) host cmd) (λ r es, ∃ e o,
    es = [e] ∧ call_of e = Some (place_of kvm, ws, o)
    ∧ match o with
      | Done s => r = Ok s
      | Failed k => ∃ at_ stderr, r = Err (RemoteExit at_ cmd k stderr)
      | Unreachable => ∃ at_ m, r = Err (Transport at_ m)
      end).
Proof.
  intros Hw h. unfold build_connection, place_of, non_empty.
  destruct kvm as [alias|]; [destruct (negb (is_empty alias))|];
    cbn [conn_ssh vrun new_local local_client cli_ssh_bridge fmap option_fmap option_map].
  1: { unfold ssh_run. exists (EvSsh (new alias) cmd None (ssh_answer h (new alias) cmd None)).
       eexists. cbn [call_of]. rewrite Hw. cbn. split_and!; [by destruct (ssh_answer _ _ _ _) as [|[]]|done|].
       destruct (ssh_answer _ _ _ _) as [|[]]; cbn; eauto. }
  all: unfold local_run; exists (EvLocal ["sh"; "-c"; cmd] (local_answer h ["sh"; "-c"; cmd]));
    eexists; cbn [call_of]; rewrite Hw; cbn; split_and!;
    [by destruct (local_answer _ _)|done|];
    destruct (local_answer _ _) as [out|]; cbn; [destruct (success (status out))|]; eauto.
Qed.

Lemma conn_run_call cmd ws :
  shell_words cmd = Some ws →
  emits (conn_run c cmd) (λ r es, ∃ e o,
    es = [e] ∧ call_of e = Some (place_of kvm, ws, o) ∧ answers Ok o r).
Proof.
  intros Hw. apply emits_map_err. eapply emits_conseq; [by apply vrun_call|].
  intros r es (e & o & -> & He & Ho). exists e, o. split_and!; [done..|].
  destruct o as [s|k|]; cbn; [by subst|naive_solver..].
Qed.

Lemma sends_call {A} (m : IO VirtError A) ws k :
  sends c m ws k →
  emits m (λ r es, ∃ e o, es = [e] ∧ call_of e = Some (place_of kvm, ws, o) ∧ answers k o r).
Proof.
  intros (cmd & Hw & Hm) h. rewrite Hm. destruct (conn_run_call cmd ws Hw h) as (e & o & He & Hc & Ho).
  destruct (conn_run c cmd h) as [r es]. cbn in He, Ho |- *. exists e, o. split_and!; [done..|].
  destruct o; cbn in *; [by subst|naive_solver..].
Qed.

Lemma remote_path_exists_call path :
  emits (remote_path_exists c path) (λ r es, ∃ e o,
    es = [e] ∧ call_of e = Some (place_of kvm, ["test"; "-e"; path], o)
    ∧ match o with
      | Done _ => r = Ok true
      | Failed (Some 1%Z) => r = Ok false
      | _ => ∃ err, r = Err err
      end).
Proof.
  intros h. unfold remote_path_exists.
  destruct (vrun_call (QemuSshUri.ssh_target (conn_uri c)) _ _ (test_e_words path) h)
    as (e & o & He & Hc & Ho).
  destruct (vrun _ _ h) as [r es]. cbn in He, Ho |- *. exists e, o. split_and!; [done..|].
  destruct o as [s|k|]; [by subst|destruct Ho as (a & t & ->)|destruct Ho as (a & t & ->); eauto].
  destruct k as [[|[]|]|]; eauto.
Qed.
End calls.

(** ** The calls of a whole run *)

(** Only printed lines and calls of one place: the words and the outcome of
    each, in order. *)
Inductive said (pl : place) : history → list (list string * outcome) → Prop :=
| said_nil : said pl [] []
| said_out line es cs : said pl es cs → said pl (EvOut line :: es) cs
| said_call e ws o es cs :
    call_of e = Some (pl, ws, o) → said pl es cs → said pl (e :: es) ((ws, o) :: cs).

Lemma said_app pl es1 cs1 es2 cs2 : said pl es1 cs1 → said pl es2 cs2 → said pl (es1 ++ es2) (cs1 ++ cs2).
Proof. induction 1; intros H2; cbn; [done|by apply said_out; auto|by eapply said_call; auto]. Qed.

Lemma said_one pl e ws o : call_of e = Some (pl, ws, o) → said pl [e] [(ws, o)].
Proof. intros He. eapply said_call; [exact He|constructor]. Qed.

Definition tells {A} (pl : place) (m : IO anyhow A)
    (Q : result anyhow A → list (list string * outcome) → Prop) : Prop :=
  emits m (λ r es, ∃ cs, said pl es cs ∧ Q r cs).

Section tells.
Context {A B : Type} (pl : place).

Lemma tells_ret (a : A) (Q : result anyhow A → _ → Prop) : Q (Ok a) [] → tells pl (mret a) Q.
Proof. intros HQ h. exists []. split; [constructor|done]. Qed.

Lemma tells_throw (e : anyhow) (Q : result anyhow A → _ → Prop) : Q (Err e) [] → tells pl (throw e) Q.
Proof. intros HQ h. exists []. split; [constructor|done]. Qed.

Lemma tells_conseq (m : IO anyhow A) (P Q : result anyhow A → _ → Prop) :
  tells pl m P → (∀ r cs, P r cs → Q r cs) → tells pl m Q.
Proof. intros Hm HPQ. eapply emits_conseq; [exact Hm|]. intros r es (cs & Hs & HP). eauto. Qed.

Lemma tells_bind (m : IO anyhow A) (f : A → IO anyhow B) (P : result anyhow A → _ → Prop) Q :
  tells pl m P → (∀ a c1, P (Ok a) c1 → tells pl (f a) (λ r c2, Q r (c1 ++ c2))) →
  (∀ e c1, P (Err e) c1 → Q (Err e) c1) → tells pl (m ≫= f : IO anyhow B) Q.
Proof.
  intros Hm Hf He. eapply emits_io_bind; [exact Hm|..].
  - intros a e1 (c1 & Hs & HP). eapply emits_conseq; [by apply Hf|].
    intros r e2 (c2 & Hs2 & HQ). exists (c1 ++ c2). split; [by apply said_app|done].
  - intros e e1 (c1 & Hs & HP). eauto.
Qed.

(** What is printed is not a call. *)
Lemma tells_print line (m : IO anyhow A) Q :
  tells pl m Q → tells pl (_ ← lift (println line); m) Q.
Proof.
  intros Hm. eapply emits_io_bind with (P := λ r es, r = Ok tt ∧ es = [EvOut line]);
    [by intros h| |by intros e es [[=] _]].
  intros [] e1 [_ ->]. eapply emits_conseq; [exact Hm|].
  intros r es (cs & Hs & HQ). exists cs. split; [by constructor|done].
Qed.
End tells.

Lemma tells_try_sends `{World} {A} kvm (m : IO VirtError A) ws k :
  sends (build_connection kvm) m ws k →
  tells (place_of kvm) (try m) (λ r cs, ∃ r' o, r = Ok r' ∧ cs = [(ws, o)] ∧ answers k o r').
Proof.
  intros Hm. apply emits_lift. eapply emits_conseq; [by apply sends_call|].
  intros r es (e & o & -> & He & Hr). exists [(ws, o)]. split; [by apply said_one|].
  by exists r, o.
Qed.
