(* ===== verification/Destroy.v ===== *)
(** * hbird destroy-cluster

    [crates/hbird-cli/src/commands/destroy_cluster.rs]: the plan, the teardown
    of one VM, the scratch directory and [run].  Everything goes through the
    [Connection] of [VirtConn.v].  An error of [hbird-virt] inside an [anyhow]
    error is represented by its text. *)

From S2P Require Import Prelude RustStr ConfigTypes ConfigLexer ConfigBuild SshOptions SshClient.
From S2P Require Import Effects VirtUri Shell VirtParse VirtConn Cp.

Definition RESERVATION_NET : string := "default".

Record DestroyClusterArgs : Set := mkDestroyClusterArgs {
  da_config : string;
  da_kvm_host : option string;
  da_no_sudo : bool;
  da_dry_run : bool;
}.

Record Plan : Set := mkPlan {
  config_path : string;
  plan_cp_name : string;
  plan_worker_names : list string;
  plan_pool_dir : string;
  plan_kvm_host : option string;
  dry_run : bool;
}.
#[export] Instance Plan_eq_dec : EqDecision Plan.
Proof. solve_decision. Defined.

(** [Plan::from_args]: no default for the workers. *)
Definition from_args (a : DestroyClusterArgs) (c : ClusterConfig) : Plan :=
  mkPlan (da_config a) (cp_name c) (default [] (worker_names c)) (pool_dir c)
    (or_else (da_kvm_host a) (kvm_host c)) (da_dry_run a).

Definition vms (p : Plan) : list string := plan_cp_name p :: plan_worker_names p.
Definition artifact_paths (p : Plan) (name : string) : list string :=
  [plan_pool_dir p +:+ "/" +:+ name +:+ ".qcow2";
   plan_pool_dir p +:+ "/" +:+ name +:+ "-seed.iso";
   plan_pool_dir p +:+ "/" +:+ name +:+ "-cloud-init.iso"].
Definition scratch_dir (p : Plan) : string := plan_pool_dir p +:+ "/deploy-cluster".

(** [log] and [log_warn] print to the same channel. *)
Definition log (line : string) : IO anyhow unit := lift (println ("[destroy-cluster] " +:+ line)).
Definition log_warn (line : string) : IO anyhow unit :=
  lift (println ("[destroy-cluster] " +:+ line)).

(** [if let Err(e) = m { log_warn(msg(e)); warnings += 1; }]: the number of
    warnings it adds. *)
Definition warn_on_err {A} (m : IO VirtError A) (msg : string → string) : IO anyhow nat :=
  r ← try m;
  match (r : result VirtError A) with
  | Ok _ => mret 0%nat
  | Err e => _ ← log_warn (msg (show_virt_error e)); mret 1%nat
  end.

(** ** One VM *)

Section connection.
Context (c : Connection) (p : Plan).

(** Step 1: any failure of a command that ran counts as an absent domain. *)
Definition probe_exists (name : string) : IO anyhow bool :=
  r ← try (dominfo c name);
  match (r : result VirtError DomainInfo) with
  | Ok _ => mret true
  | Err (VirshFailed _ _) => mret false
  | Err e =>
      throw (context ("dominfo probe for " +:+ name +:+ " failed (transport, not domain-absence)")
               (mkAnyhow [] (ROther (show_virt_error e))))
  end.

(** Step 3b: the DHCP reservation. *)
Definition remove_reservation (name : string) : IO anyhow nat :=
  r ← try (net_dumpxml c RESERVATION_NET);
  match (r : result VirtError string) with
  | Ok net_xml =>
      match find_ip_dhcp_host_by_name net_xml name with
      | Some host_xml =>
          r ← try (net_update_delete_ip_dhcp_host c RESERVATION_NET host_xml);
          match (r : result VirtError unit) with
          | Ok _ =>
              _ ← log ("removed DHCP reservation on '" +:+ RESERVATION_NET +:+ "' for " +:+ name);
              mret 0%nat
          | Err e =>
              _ ← log_warn ("WARN: could not remove DHCP reservation for " +:+ name +:+ ": "
                            +:+ show_virt_error e);
              mret 1%nat
          end
      | None => mret 0%nat
      end
  | Err e =>
      _ ← log_warn ("WARN: could not read network '" +:+ RESERVATION_NET
                    +:+ "' to check for a DHCP reservation for " +:+ name +:+ ": "
                    +:+ show_virt_error e);
      mret 0%nat
  end.

(** Steps 2 and 3. *)
Definition remove_domain (name : string) : IO anyhow nat :=
  _ ← log ("destroying " +:+ name);
  w1 ← warn_on_err (destroy_domain c name)
         (λ e, "WARN: virsh destroy returned non-zero for " +:+ name +:+ ": " +:+ e);
  w2 ← warn_on_err (undefine_domain c name)
         (λ e, "WARN: virsh undefine returned non-zero for " +:+ name +:+ ": " +:+ e);
  w3 ← remove_reservation name;
  mret (w1 + w2 + w3)%nat.

(** Step 4, for one path. *)
Definition remove_artifact (path : string) : IO anyhow nat :=
  r ← try (remote_path_exists c path);
  match (r : result VirtError bool) with
  | Ok false => mret 0%nat
  | Err e =>
      _ ← log_warn ("WARN: could not check existence of " +:+ path +:+ ": " +:+ show_virt_error e);
      mret 1%nat
  | Ok true =>
      warn_on_err (remote_rm_f c path)
        (λ e, "WARN: could not remove " +:+ path +:+ ": " +:+ e
              +:+ ". If pre-#305 root-owned, run once as root: sudo rm -f " +:+ path)
  end.

Fixpoint remove_artifacts (paths : list string) : IO anyhow nat :=
  match paths with
  | [] => mret 0%nat
  | path :: paths' =>
      w ← remove_artifact path;
      ws ← remove_artifacts paths';
      mret (w + ws)%nat
  end.

(** [destroy_one]: the number of warnings, or a fatal transport error. *)
Definition destroy_one (name : string) : IO anyhow nat :=
  exists_ ← probe_exists name;
  w ← (if (exists_ : bool) then remove_domain name
       else _ ← log (name +:+ ": no such domain (already torn down)"); mret 0%nat);
  ws ← remove_artifacts (artifact_paths p name);
  mret (w + ws)%nat.

Definition cleanup_scratch_dir : IO anyhow unit :=
  let scratch := scratch_dir p in
  r ← try (remote_path_exists c scratch);
  match (r : result VirtError bool) with
  | Ok false => mret tt
  | Err e =>
      log_warn ("WARN: could not check existence of " +:+ scratch +:+ ": " +:+ show_virt_error e)
  | Ok true =>
      _ ← log ("removing scratch dir " +:+ scratch);
      r ← try (remote_rm_rf c scratch);
      match (r : result VirtError unit) with
      | Ok _ => mret tt
      | Err e =>
          log_warn ("WARN: could not fully remove " +:+ scratch +:+ ": " +:+ show_virt_error e
                    +:+ ". If pre-#305 root-owned, run once as root: sudo rm -rf " +:+ scratch)
      end
  end.

Definition abort_msg (vm : string) : string :=
  "destroy-cluster aborting on " +:+ vm +:+ ": fatal SSH/transport failure; cluster state "
  +:+ "unknown — check --kvm-host + network reachability before re-running".

(** [for vm in plan.vms() { .. }]: the sum of the warnings. *)
Fixpoint destroy_all (names : list string) : IO anyhow nat :=
  match names with
  | [] => mret 0%nat
  | vm :: names' =>
      w ← io_map_err (context (abort_msg vm)) (destroy_one vm);
      ws ← destroy_all names';
      mret (w + ws)%nat
  end.

Definition warnings_msg (n : nat) : string :=
  "destroy-cluster: " +:+ show_nat n +:+ " step(s) had warnings — see WARN log lines above".

(** [run] after the plan and the connection are there. *)
Definition run_live : IO anyhow unit :=
  _ ← log ("config: " +:+ config_path p);
  _ ← log ("tearing down cluster defined in " +:+ config_path p);
  total_warnings ← destroy_all (vms p);
  _ ← cleanup_scratch_dir;
  _ ← log "done.";
  if (0 <? total_warnings)%nat then bail (warnings_msg total_warnings) else mret tt.
End connection.

(** ** [run] *)

Definition dry_run_vm (p : Plan) (vm : string) : IO anyhow unit :=
  _ ← log ("DRY-RUN would virsh dominfo " +:+ vm +:+ " (existence probe)");
  _ ← log ("DRY-RUN if defined: would virsh destroy + undefine --nvram " +:+ vm);
  for_each (λ path, log ("DRY-RUN would rm -f " +:+ path +:+ " (if present)"))
    (artifact_paths p vm).

Definition run_dry_run (p : Plan) : IO anyhow unit :=
  _ ← log ("config: " +:+ config_path p);
  _ ← log ("DRY-RUN tearing down cluster defined in " +:+ config_path p);
  _ ← for_each (dry_run_vm p) (vms p);
  _ ← log ("DRY-RUN would rm -rf " +:+ scratch_dir p +:+ " (if present)");
  log "DRY-RUN done.".

Definition run `{World} (args : DestroyClusterArgs) : IO anyhow unit :=
  config ← parse_config (da_config args);
  let plan := from_args args config in
  if dry_run plan then run_dry_run plan
  else run_live (build_connection (plan_kvm_host plan)) plan.
