(* ===== verification/DestroyFacts.v ===== *)
(** * What [hbird destroy-cluster] does and reports

    Which commands it may run ([teardown_step]), what success and each failure
    say about the cluster, and that disks go after their domain. *)

From S2P Require Import Prelude RustStr ConfigTypes ConfigLexer ConfigBuild SshOptions SshClient.
From S2P Require Import Effects Poll VirtUri Shell VirtParse VirtConn VirtCalls Cp Destroy.

(** ** The commands of a teardown *)

(** What is done to one VM: its domain, the DHCP reservation that carries its
    name, its files. *)
Inductive vm_step (p : Plan) (vm : string) : list string → Prop :=
| step_domain args :
    args ∈ [["dominfo"; vm]; ["destroy"; vm]; ["undefine"; "--nvram"; vm];
            ["net-dumpxml"; "default"]] →
    vm_step p vm (virsh_argv args)
| step_reservation xml :
    starts_with "<host " xml = true → contains ("name='" +:+ vm +:+ "'") xml = true →
    vm_step p vm (virsh_argv ["net-update"; "default"; "delete"; "ip-dhcp-host"; xml;
                              "--live"; "--config"])
| step_file path args :
    path ∈ artifact_paths p vm → args ∈ [["test"; "-e"; path]; ["rm"; "-f"; "--"; path]] →
    vm_step p vm args.

Definition vms_step (p : Plan) (names : list string) (ws : list string) : Prop :=
  ∃ vm, vm ∈ names ∧ vm_step p vm ws.

(** The scratch directory: removed only when the guard of [rm -rf] accepts it. *)
Definition scratch_step (p : Plan) (ws : list string) : Prop :=
  ws = ["test"; "-e"; scratch_dir p]
  ∨ ws = ["rm"; "-rf"; "--"; scratch_dir p] ∧ reject_destructive_path (scratch_dir p) = Ok tt.

(** A printed line, or a call of the plan's host with one of the commands [S]. *)
Definition calls (p : Plan) (S : list string → Prop) (e : event) : Prop :=
  match e with
  | EvOut _ => True
  | _ => ∃ ws o, call_of e = Some (place_of (plan_kvm_host p), ws, o) ∧ S ws
  end.

Lemma calls_impl p (S S' : list string → Prop) e :
  (∀ ws, S ws → S' ws) → calls p S e → calls p S' e.
Proof. intros HS. destruct e; cbn; naive_solver. Qed.

Lemma find_ip_dhcp_host_by_name_Some net_xml name x :
  find_ip_dhcp_host_by_name net_xml name = Some x →
  starts_with "<host " x = true ∧ contains ("name='" +:+ name +:+ "'") x = true.
Proof.
  unfold find_ip_dhcp_host_by_name. intros Hx.
  apply head_Some_elem_of, list_elem_of_filter in Hx as [Hx _]. by apply andb_true_iff in Hx.
Qed.

(** ** The conditions on the history *)

(** The host was asked to run [ws], and what came of it satisfies [Q]. *)
Definition asked (pl : place) (ws : list string) (Q : outcome → Prop) (es : history) : Prop :=
  Exists (λ e, ∃ o, call_of e = Some (pl, ws, o) ∧ Q o) es.
#[export] Instance asked_grows pl ws Q : Grows (asked pl ws Q).
Proof. apply grows_exists. Qed.

Lemma asked_one pl ws o (Q : outcome → Prop) e :
  call_of e = Some (pl, ws, o) → Q o → asked pl ws Q [e].
Proof. intros He HQ. constructor. by exists o. Qed.

(** The domain is gone: it was not there, or both commands succeeded. *)
Definition domain_gone (pl : place) (vm : string) (es : history) : Prop :=
  asked pl (virsh_argv ["dominfo"; vm]) is_failed es
  ∨ (asked pl (virsh_argv ["dominfo"; vm]) is_done es
     ∧ asked pl (virsh_argv ["destroy"; vm]) is_done es
     ∧ asked pl (virsh_argv ["undefine"; "--nvram"; vm]) is_done es).

Definition file_gone (pl : place) (path : string) (es : history) : Prop :=
  asked pl ["test"; "-e"; path] (λ o, o = Failed (Some 1%Z)) es
  ∨ asked pl ["rm"; "-f"; "--"; path] is_done es.

Definition torn_down (p : Plan) (vm : string) (es : history) : Prop :=
  domain_gone (place_of (plan_kvm_host p)) vm es
  ∧ ∀ path, path ∈ artifact_paths p vm → file_gone (place_of (plan_kvm_host p)) path es.

#[export] Instance domain_gone_grows pl vm : Grows (domain_gone pl vm).
Proof. unfold domain_gone. apply _. Qed.
#[export] Instance file_gone_grows pl path : Grows (file_gone pl path).
Proof. unfold file_gone. apply _. Qed.
#[export] Instance torn_down_grows p vm : Grows (torn_down p vm).
Proof.
  intros es es1 es2 [Hd Hf]. split; [by apply grows|]. intros path Hp. by apply grows, Hf.
Qed.

(** A step that was run and did not do its work.  A network that cannot be read
    is not one of them. *)
Definition step_failed (ws : list string) (o : outcome) : bool :=
  match o, ws with
  | Done _, _ => false
  | _, "virsh" :: _ :: _ :: verb :: _ => bool_decide (verb ∈ ["destroy"; "undefine"; "net-update"])
  | Failed (Some 1%Z), "test" :: _ => false
  | _, "test" :: _ | _, "rm" :: _ => true
  | _, _ => false
  end.
Definition failed_step (e : event) : bool :=
  match call_of e with Some (_, ws, o) => step_failed ws o | None => false end.
Definition failed_steps (es : history) : nat := length (filter (λ e, failed_step e = true) es).

Lemma failed_steps_app es1 es2 : failed_steps (es1 ++ es2) = (failed_steps es1 + failed_steps es2)%nat.
Proof. unfold failed_steps. by rewrite filter_app, length_app. Qed.

Lemma failed_steps_one e pl ws o :
  call_of e = Some (pl, ws, o) → failed_steps [e] = if step_failed ws o then 1%nat else 0%nat.
Proof.
  intros He. unfold failed_steps. rewrite filter_cons. unfold failed_step. rewrite He.
  by destruct (step_failed ws o).
Qed.

(** ** Computations that succeed, and whose events satisfy [E] *)

Definition safely {A} (E : event → Prop) (m : IO anyhow A) (Q : A → history → Prop) : Prop :=
  emits m (λ r es, ∃ a, r = Ok a ∧ Forall E es ∧ Q a es).

Section safely.
Context {A B : Type} (E : event → Prop).

Lemma safely_ret (a : A) (Q : A → history → Prop) : Q a [] → safely E (mret a) Q.
Proof. intros HQ. apply emits_io_ret. by exists a. Qed.

Lemma safely_bind (m : IO anyhow A) (f : A → IO anyhow B) P Q :
  safely E m P → (∀ a e1, P a e1 → safely E (f a) (λ b e2, Q b (e1 ++ e2))) →
  safely E (m ≫= f) Q.
Proof.
  intros Hm Hf. eapply emits_io_bind; [exact Hm| |by intros e es (a & [=] & _)].
  intros a e1 (? & [= <-] & He & HP). eapply emits_conseq; [by apply Hf|].
  intros r e2 (b & -> & He2 & HQ). exists b. split_and!; [done|by apply Forall_app|done].
Qed.

Lemma safely_conseq (m : IO anyhow A) (P Q : A → history → Prop) :
  safely E m P → (∀ a es, P a es → Q a es) → safely E m Q.
Proof.
  intros Hm HPQ. eapply emits_conseq; [exact Hm|]. intros r es (a & -> & ? & ?). exists a. auto.
Qed.

Lemma safely_weaken (E' : event → Prop) (m : IO anyhow A) Q :
  (∀ e, E e → E' e) → safely E m Q → safely E' m Q.
Proof.
  intros HE Hm. eapply emits_conseq; [exact Hm|]. intros r es (a & -> & ? & ?). exists a.
  split_and!; [done| |done]. by eapply Forall_impl.
Qed.

Lemma safely_keep (m : IO anyhow A) Q :
  safely E m Q → safely E m (λ a es, Q a es ∧ Forall E es).
Proof. intros Hm. eapply emits_conseq; [exact Hm|]. intros r es (a & -> & ? & ?). exists a. auto. Qed.

Lemma safely_print (m : IO anyhow A) line P Q :
  (∀ l, E (EvOut l)) → safely E m P → (∀ a es, P a es → Q a (EvOut line :: es)) →
  safely E (_ ← lift (println line); m) Q.
Proof.
  intros HE Hm HPQ. eapply emits_io_bind with (P := λ r es, r = Ok tt ∧ es = [EvOut line]);
    [by intros h| |by intros e es [[=] _]].
  intros [] e1 [_ ->]. eapply emits_conseq; [exact Hm|].
  intros r es (a & -> & ? & ?). exists a. split_and!; [done|by constructor|by apply HPQ].
Qed.
End safely.

Lemma failed_steps_out line es : failed_steps (EvOut line :: es) = failed_steps es.
Proof. done. Qed.

(** ** One verb *)

Section teardown.
Context `{W : World} (p : Plan) (E : event → Prop) (HE : ∀ l, E (EvOut l)).
#[local] Abbreviation pl := (place_of (plan_kvm_host p)).
#[local] Abbreviation c := (build_connection (plan_kvm_host p)).

(** The calls of [ws] are allowed by [E]. *)
Definition allows (ws : list string) : Prop := ∀ e o, call_of e = Some (pl, ws, o) → E e.

Lemma try_call {A} (m : IO VirtError A) ws (Q : result VirtError A → outcome → Prop) :
  allows ws →
  emits m (λ r es, ∃ e o, es = [e] ∧ call_of e = Some (pl, ws, o) ∧ Q r o) →
  safely E (try m) (λ r es, ∃ e o, es = [e] ∧ call_of e = Some (pl, ws, o) ∧ Q r o).
Proof using Type.
  intros Hws Hm. apply emits_lift. eapply emits_conseq; [exact Hm|].
  intros r es (e & o & -> & He & HQ). exists r. split_and!; [done| |by exists e, o].
  constructor; [by eapply Hws|constructor].
Qed.

Lemma try_sends {A} (m : IO VirtError A) ws k :
  sends c m ws k → allows ws →
  safely E (try m) (λ r es, ∃ e o, es = [e] ∧ call_of e = Some (pl, ws, o) ∧ answers k o r).
Proof using Type. intros Hm Hws. apply try_call; [done|by apply sends_call]. Qed.

(** A command whose failure is a warning. *)
Definition warns (ws : list string) : Prop := ∀ o, step_failed ws o = true ↔ ¬ is_done o.

Lemma safely_warn_on_err (m : IO VirtError unit) ws msg :
  sends c m ws (λ _, Ok tt) → allows ws → warns ws →
  safely E (warn_on_err m msg) (λ n es, failed_steps es = n ∧ asked pl ws (λ _, True) es
                                      ∧ (n = 0%nat → asked pl ws is_done es)).
Proof using HE.
  intros Hm Hws Hf. eapply safely_bind; [by apply (try_sends m ws (λ _, Ok tt))|].
  cbn beta. intros r es (e & o & -> & He & Hr).
  assert (Hn : failed_steps [e] = if step_failed ws o then 1%nat else 0%nat)
    by (by eapply failed_steps_one).
  assert (Ha : asked pl ws (λ _, True) [e]) by (by eapply asked_one).
  destruct r as [[]|err].
  - assert (Hd : is_done o) by (destruct o; naive_solver).
    apply safely_ret. rewrite app_nil_r, Hn. split_and!; [|done|intros _; by eapply asked_one].
    destruct (step_failed ws o) eqn:Hs; [by apply Hf in Hs|done].
  - assert (Hd : step_failed ws o = true) by (apply Hf; destruct o; naive_solver).
    apply (safely_print E _ _ (λ n es, n = 1%nat ∧ es = [])); [done|by apply safely_ret|].
    intros a es [-> ->]. rewrite failed_steps_app, Hn, Hd.
    split_and!; [done|by apply grows_l; [apply _|]|done].
Qed.

Lemma warns_virsh verb args :
  verb ∈ ["destroy"; "undefine"; "net-update"] → warns (virsh_argv (verb :: args)).
Proof using Type.
  intros Hv [s|[[|[]|]|]|]; cbn; rewrite ?bool_decide_true by done; naive_solver.
Qed.
Lemma warns_rm args : warns ("rm" :: args).
Proof using Type. intros [s|[[|[]|]|]|]; cbn; naive_solver. Qed.
End teardown.

(** ** The parts of [destroy_one] *)

Section parts.
Context `{W : World} (p : Plan).
#[local] Abbreviation pl := (place_of (plan_kvm_host p)).
#[local] Abbreviation c := (build_connection (plan_kvm_host p)).

Lemma calls_allows (S : list string → Prop) ws : S ws → allows p (calls p S) ws.
Proof. intros HS e o He. destruct e; try done; by exists ws, o. Qed.

Lemma virsh_u args :
  "virsh" :: "-c" :: QemuSshUri.remote_uri (conn_uri c) :: args = virsh_argv args.
Proof. by rewrite build_connection_uri. Qed.

Definition file_step (path : string) (ws : list string) : Prop :=
  ws ∈ [["test"; "-e"; path]; ["rm"; "-f"; "--"; path]].

Lemma safely_remove_artifact path :
  safely (calls p (file_step path)) (remove_artifact c path)
    (λ n es, failed_steps es = n ∧ (n = 0%nat → file_gone pl path es)).
Proof.
  eapply safely_bind; [apply (try_call p); [|apply remote_path_exists_call]|].
  { apply calls_allows. by left. }
  cbn beta. intros r es (e & o & -> & He & Hr).
  pose proof (failed_steps_one _ _ _ _ He) as Hn.
  destruct o as [s|k|]; [subst r| |destruct Hr as [err ->]].
  - eapply safely_conseq; [apply (safely_warn_on_err p _ (λ _, I));
      [apply sends_remote_rm_f|apply calls_allows; right; by left|apply warns_rm]|].
    cbn beta. intros n es (Hn' & _ & Hd). rewrite failed_steps_app, Hn. split; [done|].
    intros H0. right. by apply grows_r; [apply _|auto].
  - destruct (decide (k = Some 1%Z)) as [->|Hk].
    + subst r. apply safely_ret. rewrite app_nil_r, Hn. split; [done|]. intros _. left. by eapply asked_one.
    + assert (step_failed ["test"; "-e"; path] (Failed k) = true) as Hs
        by (destruct k as [[|[]|]|]; done).
      assert (∃ err, r = Err err) as [err ->] by (destruct k as [[|[]|]|]; done).
      apply (safely_print _ _ _ (λ n es, n = 1%nat ∧ es = [])); [done|by apply safely_ret|].
      intros a es [-> ->]. by rewrite failed_steps_app, Hn, Hs.
  - apply (safely_print _ _ _ (λ n es, n = 1%nat ∧ es = [])); [done|by apply safely_ret|].
    intros a es [-> ->]. by rewrite failed_steps_app, Hn.
Qed.

Lemma safely_remove_artifacts paths :
  safely (calls p (λ ws, ∃ path, path ∈ paths ∧ file_step path ws)) (remove_artifacts c paths)
    (λ n es, failed_steps es = n ∧ (n = 0%nat → ∀ path, path ∈ paths → file_gone pl path es)).
Proof.
  induction paths as [|path paths IH]; cbn [remove_artifacts].
  { apply safely_ret. split; [done|]. intros _ path []%elem_of_nil. }
  eapply safely_bind; [eapply safely_weaken, safely_remove_artifact|]; cbn beta.
  { intros e. apply calls_impl. set_solver. }
  intros n e1 [Hn1 H1]. eapply safely_bind; [eapply safely_weaken, IH|]; cbn beta.
  { intros e. apply calls_impl. set_solver. }
  intros ns e2 [Hn2 H2]. apply safely_ret. rewrite app_nil_r, failed_steps_app. split; [lia|].
  intros H0 q [->|Hq]%elem_of_cons.
  - apply grows_l; [apply _|]. apply H1. lia.
  - apply grows_r; [apply _|]. apply H2; [lia|done].
Qed.

Definition domain_step (vm : string) (ws : list string) : Prop :=
  (∃ args, ws = virsh_argv args
           ∧ args ∈ [["destroy"; vm]; ["undefine"; "--nvram"; vm]; ["net-dumpxml"; "default"]])
  ∨ ∃ xml, starts_with "<host " xml = true ∧ contains ("name='" +:+ vm +:+ "'") xml = true
           ∧ ws = virsh_argv ["net-update"; "default"; "delete"; "ip-dhcp-host"; xml;
                              "--live"; "--config"].

Lemma safely_remove_reservation vm :
  safely (calls p (domain_step vm)) (remove_reservation c vm) (λ n es, failed_steps es = n).
Proof.
  assert (Hstep : ∀ args, args ∈ [["destroy"; vm]; ["undefine"; "--nvram"; vm];
                                  ["net-dumpxml"; "default"]] →
                  allows p (calls p (domain_step vm)) (virsh_argv args))
    by (intros; apply calls_allows; left; eauto).
  eapply safely_bind; [apply (try_sends p _ _ (virsh_argv ["net-dumpxml"; "default"]) Ok);
    [rewrite <-virsh_u; apply sends_net_dumpxml|apply Hstep; set_solver]|].
  cbn beta. intros r es (e & o & -> & He & Hr).
  assert (Hn : failed_steps [e] = 0%nat).
  { rewrite (failed_steps_one _ _ _ _ He). by destruct o as [|[[|[]|]|]|]. }
  destruct r as [xml|err].
  2: { apply (safely_print _ _ _ (λ n es, n = 0%nat ∧ es = [])); [done|by apply safely_ret|].
       intros a es [-> ->]. by rewrite failed_steps_app, Hn. }
  destruct (find_ip_dhcp_host_by_name xml vm) as [x|] eqn:Hx.
  2: { apply safely_ret. by rewrite app_nil_r. }
  apply find_ip_dhcp_host_by_name_Some in Hx as [Hx1 Hx2].
  eapply safely_bind; [apply (try_sends p _ _ (virsh_argv ["net-update"; "default"; "delete";
    "ip-dhcp-host"; x; "--live"; "--config"]) (λ _, Ok tt));
    [rewrite <-virsh_u; apply sends_net_update_delete|apply calls_allows; right; eauto]|].
  cbn beta. intros r es (e' & o' & -> & He' & Hr').
  pose proof (failed_steps_one _ _ _ _ He') as Hn'.
  destruct r as [[]|err].
  - apply (safely_print _ _ _ (λ n es, n = 0%nat ∧ es = [])); [done|by apply safely_ret|].
    intros a es [-> ->]. rewrite !failed_steps_app, Hn, Hn'.
    destruct o'; cbn in Hr'; naive_solver.
  - apply (safely_print _ _ _ (λ n es, n = 1%nat ∧ es = [])); [done|by apply safely_ret|].
    intros a es [-> ->]. rewrite !failed_steps_app, Hn, Hn'.
    destruct o' as [|[[|[]|]|]|]; cbn in Hr'; naive_solver.
Qed.

(** What [remove_domain] leaves when it counts [n] warnings. *)
Definition domain_removed (vm : string) (n : nat) (es : history) : Prop :=
  failed_steps es = n ∧ asked pl (virsh_argv ["undefine"; "--nvram"; vm]) (λ _, True) es
  ∧ (n = 0%nat → asked pl (virsh_argv ["destroy"; vm]) is_done es
                 ∧ asked pl (virsh_argv ["undefine"; "--nvram"; vm]) is_done es).

Lemma safely_remove_domain vm :
  safely (calls p (domain_step vm)) (remove_domain c vm) (domain_removed vm).
Proof.
  assert (Hstep : ∀ args, args ∈ [["destroy"; vm]; ["undefine"; "--nvram"; vm]] →
                  allows p (calls p (domain_step vm)) (virsh_argv args))
    by (intros args Ha; apply calls_allows; left; set_solver).
  apply (safely_print _ _ _ (domain_removed vm)); [done| |].
  2: { intros n es (Hn & Ha & Hd). split_and!; [done|by apply (grows_r _ _ [_])|].
       intros H0. split; apply (grows_r _ _ [_]); by apply Hd. }
  eapply safely_bind; [apply (safely_warn_on_err p _ (λ _, I) _ (virsh_argv ["destroy"; vm]));
    [rewrite <-virsh_u; apply sends_destroy_domain|apply Hstep; by left|by apply warns_virsh; left]|].
  cbn beta. intros w1 e1 (Hn1 & _ & H1).
  eapply safely_bind; [apply (safely_warn_on_err p _ (λ _, I) _
      (virsh_argv ["undefine"; "--nvram"; vm]));
    [rewrite <-virsh_u; apply sends_undefine_domain|apply Hstep; by right; left
    |by apply warns_virsh; right; left]|].
  cbn beta. intros w2 e2 (Hn2 & Ha & H2).
  eapply safely_bind; [apply safely_remove_reservation|]. cbn beta. intros w3 e3 Hn3.
  apply safely_ret. rewrite app_nil_r. split_and!.
  - rewrite !failed_steps_app, Hn1, Hn2, Hn3. lia.
  - by apply grows.
  - intros H0. split; [apply grows_l; [apply _|apply H1; lia]|apply grows, H2; lia].
Qed.

(** The probe: the answer it takes for a present, and for an absent domain. *)
Lemma probe_exists_spec vm :
  emits (probe_exists c vm) (λ r es, ∃ e o,
    es = [e] ∧ call_of e = Some (pl, virsh_argv ["dominfo"; vm], o)
    ∧ match r with
      | Ok true => is_done o
      | Ok false => is_failed o
      | Err _ => ¬ is_failed o
      end).
Proof.
  eapply emits_io_bind; [apply (try_sends p (λ _, True) _ _ _ (sends_dominfo c vm)); by intros ???| |
    by intros e es (? & [=] & _)].
  intros r es (? & [= <-] & _ & e & o & -> & He & Hr). rewrite virsh_u in He.
  assert (is_failed o ↔ ∃ a b, r = Err (VirshFailed a b)) as Hf.
  { destruct o as [s| |]; cbn in *; [|naive_solver..]. subst r. split; [done|].
    intros (a & b & H). revert H. unfold parse_dominfo.
    repeat (case_match || (unfold ok_or; cbn)); congruence. }
  destruct r as [d|err].
  - apply emits_io_ret. exists e, o. split_and!; [done..|].
    destruct o; cbn in *; naive_solver.
  - destruct err; (apply emits_io_ret || apply emits_throw); exists e, o; rewrite ?app_nil_r;
      split_and!; try done; rewrite Hf; naive_solver.
Qed.
End parts.

(** ** Disks go after their domain *)

#[export] Instance grows_ex {A} (G : A → history → Prop) :
  (∀ x, Grows (G x)) → Grows (λ es, ∃ x, G x es).
Proof. intros HG es es1 es2 [x Hx]. exists x. by apply HG. Qed.

Section whole.
Context `{W : World} (p : Plan).
#[local] Abbreviation pl := (place_of (plan_kvm_host p)).
#[local] Abbreviation c := (build_connection (plan_kvm_host p)).

(** A VM that owns the file was reported absent or was undefined (the attempt
    counts: a failure is a warning). *)
Definition released (path : string) (es : history) : Prop :=
  ∃ vm, path ∈ artifact_paths p vm
        ∧ (asked pl (virsh_argv ["dominfo"; vm]) is_failed es
           ∨ asked pl (virsh_argv ["undefine"; "--nvram"; vm]) (λ _, True) es).
#[local] Instance released_grows path : Grows (released path).
Proof. unfold released. apply _. Qed.

Definition removes (path : string) (e : event) : Prop :=
  ∃ o, call_of e = Some (pl, ["rm"; "-f"; "--"; path], o).
Definition disk_order (es : history) : Prop :=
  ∀ path, precedes (released path) (removes path) es.

Lemma calls_removes (S : list string → Prop) path es :
  Forall (calls p S) es → ¬ S ["rm"; "-f"; "--"; path] → Forall (λ e, ¬ removes path e) es.
Proof.
  intros Hes HS. eapply Forall_impl; [exact Hes|]. intros e He [o Ho]. apply HS.
  destruct e; cbn in *; destruct_and?; try done; destruct He as (? & ? & ? & ?); naive_solver.
Qed.

Lemma disk_order_none (S : list string → Prop) es :
  Forall (calls p S) es → (∀ path, ¬ S ["rm"; "-f"; "--"; path]) → disk_order es.
Proof. intros Hes HS path. eapply precedes_none, calls_removes; eauto. Qed.

Lemma disk_order_app es1 es2 : disk_order es1 → disk_order es2 → disk_order (es1 ++ es2).
Proof. intros H1 H2 path. apply precedes_app; [apply _|apply H1|right; apply H2]. Qed.

(** ** One VM, all VMs *)

(** The last event is the probe of [vm], which gave no usable answer. *)
Definition probe_broken (vm : string) (es : history) : Prop :=
  ∃ e o, es = [e] ∧ call_of e = Some (pl, virsh_argv ["dominfo"; vm], o) ∧ ¬ is_failed o.

Lemma domain_step_vm vm ws : domain_step vm ws → vm_step p vm ws.
Proof.
  intros [(args & -> & Ha)|(xml & Hs & Hc & ->)]; [apply step_domain|by apply step_reservation].
  set_solver.
Qed.

(** The probe's event is a step of the VM, and no failed one. *)
Lemma probe_event vm e o :
  call_of e = Some (pl, virsh_argv ["dominfo"; vm], o) →
  Forall (calls p (vm_step p vm)) [e] ∧ disk_order [e] ∧ failed_steps [e] = 0%nat.
Proof.
  intros He. assert (Hc : Forall (calls p (eq (virsh_argv ["dominfo"; vm]))) [e])
    by (constructor; [by eapply calls_allows|constructor]).
  split_and!; [|by eapply disk_order_none|].
  - eapply Forall_impl; [exact Hc|]. intros e'. apply calls_impl. intros ? <-.
    apply step_domain. set_solver.
  - rewrite (failed_steps_one _ _ _ _ He). by destruct o as [|[[|[]|]|]|].
Qed.

Lemma domain_phase vm (b : bool) e o :
  call_of e = Some (pl, virsh_argv ["dominfo"; vm], o) →
  (if b then is_done o else is_failed o) →
  safely (calls p (domain_step vm))
    (if b then remove_domain c vm
     else _ ← log (vm +:+ ": no such domain (already torn down)"); mret 0%nat)
    (λ n es, failed_steps es = n ∧ (n = 0%nat → domain_gone pl vm ([e] ++ es))
             ∧ ∀ path, path ∈ artifact_paths p vm → released path ([e] ++ es)).
Proof.
  intros He Hb. assert (Hask : ∀ Q : outcome → Prop, Q o → asked pl (virsh_argv ["dominfo"; vm]) Q [e])
    by (intros; by eapply asked_one).
  destruct b.
  - eapply safely_conseq; [apply safely_remove_domain|]. intros n es (Hn & Ha & Hd).
    split_and!; [done| |].
    + intros H0. destruct (Hd H0). right.
      split_and!; [by apply (grows_l (asked _ _ _)), Hask|by apply (grows_r (asked _ _ _))..].
    + intros path Hp. exists vm. split; [done|]. right. by apply (grows_r (asked _ _ _)).
  - apply (safely_print _ _ _ (λ n es, n = 0%nat ∧ es = [])); [done|by apply safely_ret|].
    intros n es [-> ->]. split_and!; [done| |].
    + intros _. left. by apply (grows_l (asked _ _ _)), Hask.
    + intros path Hp. exists vm. split; [done|]. left. by apply (grows_l (asked _ _ _)), Hask.
Qed.

(** The files of a VM, once its domain was dealt with. *)
Lemma files_order vm es1 es2 :
  disk_order es1 → (∀ path, path ∈ artifact_paths p vm → released path es1) →
  Forall (calls p (λ ws, ∃ path, path ∈ artifact_paths p vm ∧ file_step path ws)) es2 →
  disk_order (es1 ++ es2).
Proof.
  intros H1 Hrel H2 path. apply precedes_app; [apply _|apply H1|].
  destruct (decide (path ∈ artifact_paths p vm)) as [Hp|Hp]; [left; by apply Hrel|right].
  eapply precedes_none, calls_removes; [exact H2|]. intros (q & Hq & Hs).
  apply Hp. unfold file_step in Hs. set_solver.
Qed.

Lemma destroy_one_spec vm :
  emits (destroy_one c p vm) (λ r es,
    Forall (calls p (vm_step p vm)) es ∧ disk_order es
    ∧ match r with
      | Ok n => failed_steps es = n ∧ (n = 0%nat → torn_down p vm es)
      | Err _ => probe_broken vm es
      end).
Proof.
  eapply emits_io_bind; [apply probe_exists_spec| |].
  2: { intros err es (e & o & -> & He & Hr). destruct (probe_event vm e o He) as (? & ? & _).
       split_and!; [done..|]. by exists e, o. }
  cbn beta. intros b e1 (e & o & -> & He & Hr). destruct (probe_event vm e o He) as (Hc1 & Ho1 & Hn1).
  eapply emits_io_bind; [apply safely_keep, (domain_phase vm b e o He); by destruct b| |
    by intros err es (? & [=] & _)].
  intros n1 e2 (? & [= <-] & _ & (Hn2 & Hd & Hrel) & Hc2).
  eapply emits_io_bind; [apply safely_keep, safely_remove_artifacts| |by intros err es (? & [=] & _)].
  intros n2 e3 (? & [= <-] & _ & (Hn3 & Hf) & Hc3).
  apply emits_io_ret. rewrite app_nil_r, app_assoc, !failed_steps_app, Hn1, Hn2, Hn3. split_and!.
  - rewrite !Forall_app. split_and!; [done|eapply Forall_impl; [exact Hc2|]
      |eapply Forall_impl; [exact Hc3|]]; intros e'; apply calls_impl; [apply domain_step_vm|].
    intros ws (path & Hp & Hs). by eapply step_file.
  - apply files_order with vm; [|done|done]. apply disk_order_app; [done|].
    eapply disk_order_none; [exact Hc2|]. intros path [(args & [=] & _)|(xml & _ & _ & [=])].
  - lia.
  - intros H0. split.
    + apply (grows_l (domain_gone _ _)), Hd. lia.
    + intros path Hp. apply (grows_r (file_gone _ _)), Hf; [lia|done].
Qed.

Lemma vms_step_weaken names names' e :
  names ⊆ names' → calls p (vms_step p names) e → calls p (vms_step p names') e.
Proof. intros Hsub. apply calls_impl. intros ws (vm & Hvm & Hs). exists vm. auto. Qed.

(** The run stopped at the probe of [vm], the first after [before]. *)
Definition stopped_at (before : list string) (vm : string) (err : anyhow) (es : history) : Prop :=
  (∃ err', err = context (abort_msg vm) err')
  ∧ (∃ es1 es2, es = es1 ++ es2 ∧ probe_broken vm es2)
  ∧ Forall (calls p (vms_step p (before ++ [vm]))) es.

Lemma emits_map_err_ex {E F A} (f : E → F) (m : IO E A) Q :
  emits m Q → emits (io_map_err f m) (λ x es, ∃ r, x = map_err f r ∧ Q r es).
Proof. intros Hm. apply emits_map_err. eapply emits_conseq; [exact Hm|]. eauto. Qed.

Lemma destroy_all_spec names :
  emits (destroy_all c p names) (λ r es,
    Forall (calls p (vms_step p names)) es ∧ disk_order es
    ∧ match r with
      | Ok n => failed_steps es = n ∧ (n = 0%nat → ∀ vm, vm ∈ names → torn_down p vm es)
      | Err err => ∃ before vm after, names = before ++ vm :: after ∧ stopped_at before vm err es
      end).
Proof.
  induction names as [|vm names IH]; cbn [destroy_all].
  { apply emits_io_ret. split_and!; [done|intros path; by apply precedes_none|done|].
    intros _ vm []%elem_of_nil. }
  assert (Hvm : ∀ names' es, vm ∈ names' → Forall (calls p (vm_step p vm)) es →
            Forall (calls p (vms_step p names')) es).
  { intros names' es Hin Hes. eapply Forall_impl; [exact Hes|]. intros e. apply calls_impl.
    intros ws Hs. by exists vm. }
  eapply emits_io_bind; [apply emits_map_err_ex, destroy_one_spec| |].
  - intros n e1 ([n'|err] & [=] & Hc1 & Ho1 & Hn1 & Ht1). subst n'.
    eapply emits_io_bind; [exact IH| |].
    + intros ns e2 (Hc2 & Ho2 & Hn2 & Ht2). apply emits_io_ret. rewrite app_nil_r.
      split_and!; [|by apply disk_order_app|rewrite failed_steps_app; lia|].
      * apply Forall_app. split; [by apply Hvm; [left|]|].
        eapply Forall_impl; [exact Hc2|]. intros e. apply vms_step_weaken. set_solver.
      * intros H0 q [->|Hq]%elem_of_cons; [apply (grows_l (torn_down _ _)), Ht1|
          apply (grows_r (torn_down _ _)), Ht2]; solve [lia|done].
    + intros err e2 (Hc2 & Ho2 & before & q & after & -> & (err' & ->) & (k1 & k2 & -> & Hk) & Hs).
      split_and!; [|by apply disk_order_app|].
      * apply Forall_app. split; [by apply Hvm; [left|]|].
        eapply Forall_impl; [exact Hc2|]. intros e. apply vms_step_weaken. set_solver.
      * exists (vm :: before), q, after. split; [done|]. unfold stopped_at.
        split_and!; [by exists err'|exists (e1 ++ k1), k2; by rewrite app_assoc|].
        apply Forall_app. split; [by apply Hvm; [left|]|].
        eapply Forall_impl; [exact Hs|]. intros e. apply vms_step_weaken. set_solver.
  - intros err e1 ([n'|err'] & [=] & Hc1 & Ho1 & Hp). subst err.
    split_and!; [by apply Hvm; [left|]|done|]. exists [], vm, names.
    split; [done|]. unfold stopped_at.
    split_and!; [by exists err'|by exists [], e1|]. by apply Hvm; [left|].
Qed.

Lemma safely_cleanup : safely (calls p (scratch_step p)) (cleanup_scratch_dir c p) (λ _ _, True).
Proof.
  eapply safely_bind; [apply (try_call p); [|apply remote_path_exists_call]|].
  { apply calls_allows. by left. }
  intros [[]|err] e1 _.
  - pose proof (sends_remote_rm_rf c (scratch_dir p)) as Hrm.
    eapply safely_print with (P := λ _ _, True); [done| |done].
    destruct (reject_destructive_path (scratch_dir p)) as [[]|err] eqn:Hg.
    + eapply safely_bind; [apply (try_sends p _ _ _ _ Hrm), calls_allows; by right|].
      intros [[]|err] e2 _; [by apply safely_ret|].
      intros h. eexists. split_and!; [done| |done]. by constructor.
    + intros h. unfold mbind, IO_bind, try, lift, catch. rewrite Hrm. cbn.
      eexists. split_and!; [done| |done]. by constructor.
  - by apply safely_ret.
  - intros h. eexists. split_and!; [done| |done]. by constructor.
Qed.

(** The whole live run: the commands it may send, the order, and what its
    result says. *)
Definition live_outcome (r : result anyhow unit) (es : history) : Prop :=
  Forall (calls p (λ ws, vms_step p (vms p) ws ∨ scratch_step p ws)) es ∧ disk_order es
  ∧ ((∃ before vm after err, vms p = before ++ vm :: after ∧ r = Err err
                             ∧ stopped_at before vm err es)
     ∨ ∃ es1 es2, es = es1 ++ es2 ∧ Forall (calls p (scratch_step p)) es2
         ∧ if decide (failed_steps es1 = 0%nat)
           then r = Ok tt ∧ ∀ vm, vm ∈ vms p → torn_down p vm es1
           else r = Err (anyhow_msg (warnings_msg (failed_steps es1)))).

Lemma stopped_at_more before vm err es es' :
  Forall (calls p (vms_step p (before ++ [vm]))) es' →
  stopped_at before vm err es → stopped_at before vm err (es' ++ es).
Proof.
  intros Hes (He & (k1 & k2 & -> & Hk) & Hs). unfold stopped_at.
  split_and!; [done|exists (es' ++ k1), k2; by rewrite app_assoc|by apply Forall_app].
Qed.

Lemma run_live_spec_aux : emits (run_live c p) live_outcome.
Proof.
  assert (Hlog : ∀ l, emits (log l) (λ r es, r = Ok tt ∧ ∃ l', es = [EvOut l'])) by (intros l h; eauto).
  assert (Hout : ∀ S l, Forall (calls p S) [EvOut l]) by by repeat constructor.
  assert (Hord : ∀ l, disk_order [EvOut l])
    by (intros l; apply (disk_order_none (λ _, False)); [apply Hout|intros path []]).
  eapply emits_io_bind; [apply Hlog| |by intros e es [[=] _]]. intros _ e1 [_ [l1 ->]].
  eapply emits_io_bind; [apply Hlog| |by intros e es [[=] _]]. intros _ e2 [_ [l2 ->]].
  eapply emits_io_bind; [apply destroy_all_spec| |].
  2: { intros err es (Hc & Ho & before & vm & after & Hvms & Hs). split_and!.
       - do 2 (apply (Forall_app_2 _ [_]); [apply Hout|]). eapply Forall_impl; [exact Hc|].
         intros e. apply calls_impl. by left.
       - do 2 (apply (disk_order_app [_]); [apply Hord|]). done.
       - left. exists before, vm, after, err. split_and!; [done..|].
         do 2 (apply (stopped_at_more _ _ _ _ [_]); [apply Hout|]). done. }
  intros n es (Hc & Ho & Hn & Ht).
  eapply emits_io_bind; [apply safely_cleanup| |by intros err e4 (? & [=] & _)].
  intros _ e3 (_ & _ & Hc3 & _).
  eapply emits_io_bind; [apply Hlog| |by intros e e4 [[=] _]]. intros _ e4 [_ [l4 ->]].
  apply emits_conseq with (P := λ r e5, e5 = [] ∧ r = if decide (n = 0%nat) then Ok tt
                                        else Err (anyhow_msg (warnings_msg n))).
  { intros h. by destruct n. }
  intros r e5 [-> ->].
  assert (Ho3 : disk_order e3).
  { eapply disk_order_none; [exact Hc3|]. by intros path [[=]|[[=] _]]. }
  split_and!.
  - rewrite !Forall_app. split_and!; try done; eapply Forall_impl; try done;
      intros e; apply calls_impl; auto.
  - do 2 (apply (disk_order_app [_]); [apply Hord|]). apply disk_order_app; [done|].
    apply disk_order_app; [done|]. apply Hord.
  - right. exists ([EvOut l1] ++ [EvOut l2] ++ es), (e3 ++ [EvOut l4]).
    split_and!; [by rewrite <-!app_assoc|by apply Forall_app|].
    rewrite !failed_steps_app, Hn. change (failed_steps [EvOut ?l]) with 0%nat.
    rewrite !Nat.add_0_l. destruct (decide (n = 0%nat)); [|done]. split; [done|].
    intros vm Hvm. do 2 apply (grows_r (torn_down p vm) _ [_]). by apply Ht.
Qed.
End whole.

(** ** [run] *)

Lemma announces_destroy_log line : announces (log line) (λ _, True).
Proof. intros h. split; [by exists tt|by repeat constructor]. Qed.

Lemma announces_dry_run p : announces (run_dry_run p) (λ _, True).
Proof.
  repeat first [apply announces_destroy_log | eapply announces_bind; [|intros _ _]
               | apply announces_for_each; intros ? _].
Qed.

Lemma run_unfold `{W : World} args h :
  run args h =
  match parse (λ _, file_answer h (da_config args)) (da_config args) with
  | Ok cfg =>
      let p := from_args args cfg in
      (if dry_run p then run_dry_run p else run_live (build_connection (plan_kvm_host p)) p) h
  | Err e => (Err (anyhow_msg (show_config_error e)), [])
  end.
Proof.
  unfold run, parse_config. run_io. destruct (parse _ _) as [cfg|e]; [|done].
  cbv zeta. rewrite app_nil_r. by case_match.
Qed.

(** C18: the only thing [hbird destroy-cluster] ever runs are the steps of the
    teardown of the configured cluster, on the configured KVM host: it touches no
    other domain, no other file, and of the DHCP reservations only those that
    carry the name of one of its VMs; a disk is removed only after a VM it
    belongs to was reported absent or was undefined; and a dry run, or one whose
    config does not parse, only prints. *)
Theorem destroy_only_its_cluster `{W : World} args h :
  let es := (run args h).2 in
  match parse (λ _, file_answer h (da_config args)) (da_config args) with
  | Ok cfg =>
      let p := from_args args cfg in
      if da_dry_run args then Forall is_out es
      else Forall (calls p (λ ws, vms_step p (vms p) ws ∨ scratch_step p ws)) es ∧ disk_order p es
  | Err _ => es = []
  end.
Proof.
  cbv zeta. rewrite run_unfold. destruct (parse _ _) as [cfg|e]; [|done].
  change (da_dry_run args) with (dry_run (from_args args cfg)).
  cbv zeta. destruct (dry_run (from_args args cfg)).
  - apply announces_dry_run.
  - destruct (run_live_spec_aux (from_args args cfg) h) as (? & ? & _). done.
Qed.


(** ** Runs on a concrete cluster *)

Definition destroy_config : string :=
  "CP_NAME=hbird-cp1" +:+ NL +:+ "SSH_PUBKEY_FILE=/k" +:+ NL
  +:+ "WORKER_NAMES=(hbird-w1 hbird-w2)" +:+ NL +:+ "POOL_DIR=/mnt/pool" +:+ NL.

Definition destroy_args (dry : bool) : DestroyClusterArgs :=
  mkDestroyClusterArgs "cluster.local.conf" (Some "geary") false dry.

Definition out_lines (es : history) : list string :=
  omap (λ e, match e with EvOut l => Some l | _ => None end) es.

(** [fixtures/dry_run_destroy.txt] *)
Example dry_run_destroy_fixture :
  let '(r, es) := @run (calm_world destroy_config) (destroy_args true) [] in
  r = Ok tt ∧ out_lines es = [
    "[destroy-cluster] config: cluster.local.conf";
    "[destroy-cluster] DRY-RUN tearing down cluster defined in cluster.local.conf";
    "[destroy-cluster] DRY-RUN would virsh dominfo hbird-cp1 (existence probe)";
    "[destroy-cluster] DRY-RUN if defined: would virsh destroy + undefine --nvram hbird-cp1";
    "[destroy-cluster] DRY-RUN would rm -f /mnt/pool/hbird-cp1.qcow2 (if present)";
    "[destroy-cluster] DRY-RUN would rm -f /mnt/pool/hbird-cp1-seed.iso (if present)";
    "[destroy-cluster] DRY-RUN would rm -f /mnt/pool/hbird-cp1-cloud-init.iso (if present)";
    "[destroy-cluster] DRY-RUN would virsh dominfo hbird-w1 (existence probe)";
    "[destroy-cluster] DRY-RUN if defined: would virsh destroy + undefine --nvram hbird-w1";
    "[destroy-cluster] DRY-RUN would rm -f /mnt/pool/hbird-w1.qcow2 (if present)";
    "[destroy-cluster] DRY-RUN would rm -f /mnt/pool/hbird-w1-seed.iso (if present)";
    "[destroy-cluster] DRY-RUN would rm -f /mnt/pool/hbird-w1-cloud-init.iso (if present)";
    "[destroy-cluster] DRY-RUN would virsh dominfo hbird-w2 (existence probe)";
    "[destroy-cluster] DRY-RUN if defined: would virsh destroy + undefine --nvram hbird-w2";
    "[destroy-cluster] DRY-RUN would rm -f /mnt/pool/hbird-w2.qcow2 (if present)";
    "[destroy-cluster] DRY-RUN would rm -f /mnt/pool/hbird-w2-seed.iso (if present)";
    "[destroy-cluster] DRY-RUN would rm -f /mnt/pool/hbird-w2-cloud-init.iso (if present)";
    "[destroy-cluster] DRY-RUN would rm -rf /mnt/pool/deploy-cluster (if present)";
    "[destroy-cluster] DRY-RUN done."].
Proof. vm_compute. done. Qed.

(** A KVM host whose libvirt does not answer: every [virsh] exits with 1, the
    file commands work. *)
Definition libvirt_down : World := {|
  ssh_answer _ o cmd _ :=
    if starts_with "virsh " cmd
    then Err (NonZeroExit (host o) (Exited 1) "" "error: failed to connect to the hypervisor")
    else Ok (mkRunOutput (Exited 0) "" "");
  local_answer _ _ := Err (IoError "unused");
  stdout_answer _ _ := Ok tt;
  stderr_answer _ _ := Ok tt;
  file_answer _ _ := Ok destroy_config;
  fs_answer _ _ := Ok tt;
|}.

(** There the disks are removed, no domain was stopped, and the run succeeds. *)
Example libvirt_down_succeeds :
  let '(r, es) := @run libvirt_down (destroy_args false) [] in
  r = Ok tt
  ∧ (Some (new "geary"), ["rm"; "-f"; "--"; "/mnt/pool/hbird-cp1.qcow2"], Done "") ∈ omap call_of es
  ∧ Forall (λ cl, cl.1.2 ≠ virsh_argv ["destroy"; "hbird-cp1"]) (omap call_of es).
Proof. vm_compute. split_and!; [done| |by repeat constructor]. by repeat constructor. Qed.
