(* ===== verification/CleanVms.v ===== *)
(** * hbird clean-vms

    [crates/hbird-cli/src/commands/clean_vms.rs]: the matchers, the plan, the
    sweep of the domains, of the files in the pool directory, and the refresh of
    the pool.  Everything goes through the [Connection] of [VirtConn.v]. *)

From S2P Require Import Prelude RustStr ConfigTypes ConfigLexer ConfigBuild SshOptions SshClient.
From S2P Require Import Effects VirtUri Shell VirtParse VirtConn Cp.

Record CleanVmsArgs : Set := mkCleanVmsArgs {
  cv_config : option string;
  cv_kvm_host : option string;
  cv_pool_dir : option string;
  cv_pool_name : option string;
  cv_dry_run : bool;
}.

Definition log (line : string) : IO anyhow unit := lift (println ("[clean-vms] " +:+ line)).

(** The order of Rust's [String] is that of the bytes. *)
Definition byte_le (a b : string) : Prop := String.leb a b = true.
#[export] Instance byte_le_dec : RelDecision byte_le := λ a b, decide (String.leb a b = true).

(** ** Matchers *)

Definition DEFAULT_POOL_DIR : string := "/var/lib/libvirt/images".
Definition DEFAULT_POOL_NAME : string := "default".
Definition HUMMINGBIRD_PREFIX : string := "hummingbird-".
Definition STRAGGLER_SUFFIXES : list string := [".qcow2"; "-seed.iso"; "-cloud-init.iso"].

Definition is_hummingbird_domain (name : string) : bool := starts_with HUMMINGBIRD_PREFIX name.

Definition is_straggler_artifact (name : string) : bool :=
  if negb (starts_with HUMMINGBIRD_PREFIX name) then false
  else existsb (λ suffix, ends_with suffix name) STRAGGLER_SUFFIXES.

(** ** The plan *)

Record Plan : Set := mkPlan {
  plan_pool_dir : string;
  plan_pool_name : string;
  plan_kvm_host : option string;
  dry_run : bool;
}.

Definition from_args (a : CleanVmsArgs) (config : option ClusterConfig) : Plan :=
  let '(cfg_pool_dir, cfg_kvm_host) :=
    match config with
    | Some c => (Some (pool_dir c), kvm_host c)
    | None => (None, None)
    end in
  mkPlan (default DEFAULT_POOL_DIR (or_else (non_empty (cv_pool_dir a)) cfg_pool_dir))
    (default DEFAULT_POOL_NAME (non_empty (cv_pool_name a)))
    (or_else (non_empty (cv_kvm_host a)) cfg_kvm_host)
    (cv_dry_run a).

Definition pool_path (p : Plan) (name : string) : string :=
  trim_end_char "/" (plan_pool_dir p) +:+ "/" +:+ name.

(** ** The sweep *)

(** [anyhow::Error::new(e).context(m)] *)
Definition virt_context {A} (m : string) (e : VirtError) : IO anyhow A :=
  throw (context m (mkAnyhow [] (ROther (show_virt_error e)))).

Section connection.
Context (c : Connection) (p : Plan).

(** [if let Err(e) = m { log(msg(e)); warnings += 1; }] *)
Definition warn_on_err (m : IO VirtError unit) (msg : string → string) : IO anyhow nat :=
  r ← try m;
  match (r : result VirtError unit) with
  | Ok _ => mret 0%nat
  | Err e => _ ← log (msg (show_virt_error e)); mret 1%nat
  end.

(** The sum of the warnings of [f x] over the list. *)
Fixpoint count_warnings {A} (f : A → IO anyhow nat) (l : list A) : IO anyhow nat :=
  match l with
  | [] => mret 0%nat
  | x :: l' => w ← f x; ws ← count_warnings f l'; mret (w + ws)%nat
  end.

(** The body of the loop of [sweep_domains]. *)
Definition sweep_domain (name : string) : IO anyhow nat :=
  if dry_run p then
    _ ← log ("DRY-RUN would destroy + undefine --remove-all-storage " +:+ name);
    mret 0%nat
  else
    _ ← log ("destroying " +:+ name);
    w1 ← warn_on_err (destroy_domain c name)
           (λ e, "WARN: virsh destroy returned non-zero for " +:+ name
                 +:+ " (already shut off?): " +:+ e);
    w2 ← warn_on_err (undefine_domain_remove_all_storage c name)
           (λ e, "WARN: virsh undefine --remove-all-storage returned non-zero for " +:+ name
                 +:+ ": " +:+ e);
    mret (w1 + w2)%nat.

Definition hummingbird_domains (all : list Domain) : list string :=
  filter (λ n, is_hummingbird_domain n = true) (domain_name <$> all).

Definition sweep_domains : IO anyhow nat :=
  r ← try (domains c);
  match (r : result VirtError (list Domain)) with
  | Err e =>
      virt_context ("clean-vms: could not list libvirt domains — check --kvm-host reachability "
                    +:+ "and libvirt-group membership before re-running") e
  | Ok all => count_warnings sweep_domain (hummingbird_domains all)
  end.

(** The body of the loop of [sweep_stragglers]. *)
Definition sweep_straggler (name : string) : IO anyhow nat :=
  let path := pool_path p name in
  if dry_run p then _ ← log ("DRY-RUN would rm -f " +:+ path); mret 0%nat
  else
    _ ← log ("removing " +:+ path);
    warn_on_err (remote_rm_f c path) (λ e, "WARN: could not remove " +:+ path +:+ ": " +:+ e).

(** [filter(..).collect(); matched.sort()] *)
Definition stragglers (entries : list string) : list string :=
  merge_sort byte_le
    (filter (λ n, is_straggler_artifact n = true) entries).

Definition sweep_stragglers : IO anyhow nat :=
  r ← try (remote_ls c (plan_pool_dir p));
  match (r : result VirtError (list string)) with
  | Ok entries => count_warnings sweep_straggler (stragglers entries)
  | Err (VirshFailed _ stderr) =>
      _ ← log ("WARN: could not list " +:+ plan_pool_dir p +:+ " (" +:+ trim stderr
               +:+ "); skipping straggler sweep");
      mret 1%nat
  | Err e => virt_context ("clean-vms: transport failure listing " +:+ plan_pool_dir p) e
  end.

Definition refresh_pool : IO anyhow nat :=
  if dry_run p then
    _ ← log ("DRY-RUN would virsh pool-refresh " +:+ plan_pool_name p); mret 0%nat
  else
    warn_on_err (virsh_pool_refresh c (plan_pool_name p))
      (λ e, "WARN: virsh pool-refresh " +:+ plan_pool_name p +:+ " returned non-zero: " +:+ e).

Definition warned_msg (n : nat) : string :=
  show_nat n +:+ " step(s) warned — see WARN lines above (non-fatal, matching the bash twin)".

(** [run] after the plan and the connection are there. *)
Definition run_plan : IO anyhow unit :=
  w1 ← sweep_domains;
  w2 ← sweep_stragglers;
  w3 ← refresh_pool;
  let warnings := (w1 + w2 + w3)%nat in
  _ ← (if (0 <? warnings)%nat then log (warned_msg warnings) else mret tt);
  log "done.".
End connection.

Definition run `{World} (args : CleanVmsArgs) : IO anyhow unit :=
  config ← match cv_config args with
           | Some path =>
               c ← io_map_err (context ("clean-vms: could not read config " +:+ path))
                     (parse_config path);
               mret (Some c)
           | None => mret None
           end;
  let plan := from_args args config in
  run_plan (build_connection (plan_kvm_host plan)) plan.
