(* ===== verification/CleanVmsFacts.v ===== *)
(** * What [hbird clean-vms] does

    The names the matchers accept, and the exact sequence of the calls of a run:
    only [hummingbird-] domains and files are touched. *)

From S2P Require Import Prelude RustStr ConfigTypes ConfigLexer ConfigBuild SshOptions SshClient.
From S2P Require Import Effects Poll VirtUri Shell VirtParse VirtConn VirtCalls Cp CleanVms.

(** ** The matchers *)

Lemma is_hummingbird_domain_spec name :
  is_hummingbird_domain name = true ↔ ∃ rest, name = "hummingbird-" +:+ rest.
Proof.
  unfold is_hummingbird_domain, starts_with, HUMMINGBIRD_PREFIX.
  destruct (strip_prefix _ name) as [t|] eqn:E.
  - apply strip_prefix_Some in E. split; [by exists t|done].
  - split; [done|]. intros [t Ht%strip_prefix_Some]. congruence.
Qed.

Lemma app_split a b c d : a +:+ b = c +:+ d →
  (∃ k, c = a +:+ k ∧ b = k +:+ d) ∨ (∃ k, a = c +:+ k ∧ d = k +:+ b).
Proof.
  revert c. induction a as [|x a IH]; intros [|y c]; cbn; intros E.
  - left. by exists "".
  - left. by exists (String y c).
  - right. by exists (String x a).
  - injection E as -> E. destruct (IH _ E) as [(k & -> & ->)|(k & -> & ->)]; [left|right]; by exists k.
Qed.

(** The files of the sweep: the globs [hummingbird-*.qcow2],
    [hummingbird-*-seed.iso] and [hummingbird-*-cloud-init.iso], and two names
    where the prefix and the suffix share the dash. *)
Theorem straggler_names name :
  is_straggler_artifact name = true
  ↔ (∃ stem suffix, suffix ∈ STRAGGLER_SUFFIXES ∧ name = "hummingbird-" +:+ stem +:+ suffix)
    ∨ name ∈ ["hummingbird-seed.iso"; "hummingbird-cloud-init.iso"].
Proof.
  unfold is_straggler_artifact. split.
  - destruct (starts_with _ _) eqn:Hp; [|done]. apply is_hummingbird_domain_spec in Hp as [rest ->].
    intros (suffix & Hs%list_elem_of_In & [b Hb]%ends_with_spec)%existsb_exists.
    destruct (app_split _ _ _ _ Hb) as [(k & -> & ->)|(k & Hk & Hs')].
    { left. by exists k, suffix. }
    revert Hs Hs'. unfold STRAGGLER_SUFFIXES. rewrite !elem_of_cons, elem_of_nil.
    intros Hs Hs'. cbn in Hk.
    repeat match type of Hk with
           | _ = ?b +:+ _ => is_var b; destruct b as [|? ?]; cbn in Hk; [|try discriminate Hk; injection Hk as <- Hk]
           end; try done; subst k; destruct Hs as [->|[->|[->|[]]]]; cbn in Hs'; try done.
    all: first [injection Hs' as <-; right; set_solver | subst rest; left; exists ""; eexists;
      split; [|reflexivity]; unfold STRAGGLER_SUFFIXES; set_solver].
  - intros [(stem & suffix & Hs & ->)|H].
    + assert (starts_with HUMMINGBIRD_PREFIX ("hummingbird-" +:+ stem +:+ suffix) = true) as ->
        by (apply is_hummingbird_domain_spec; eauto).
      apply existsb_exists. exists suffix. split; [by apply list_elem_of_In|].
      apply ends_with_spec. exists ("hummingbird-" +:+ stem). by rewrite app_assoc_s.
    + revert H. rewrite !elem_of_cons, elem_of_nil. by intros [->|[->|[]]].
Qed.

(** The sorted stragglers are the entries that match. *)
Lemma elem_of_stragglers f entries :
  f ∈ stragglers entries ↔ f ∈ entries ∧ is_straggler_artifact f = true.
Proof. unfold stragglers. rewrite merge_sort_Permutation, list_elem_of_filter. tauto. Qed.

(** ** The sequence of the calls *)

Definition list_call : list string := virsh_argv ["list"; "--all"; "--name"].
Definition domain_calls (d : string) : list (list string) :=
  [virsh_argv ["destroy"; d]; virsh_argv ["undefine"; d; "--remove-all-storage"; "--nvram"]].
Definition ls_call (p : Plan) : list string := ["ls"; "-1"; "--"; plan_pool_dir p].
Definition rm_call (p : Plan) (f : string) : list string := ["rm"; "-f"; "--"; pool_path p f].
Definition refresh_call (p : Plan) : list string := virsh_argv ["pool-refresh"; plan_pool_name p].

(** What the calls of a listing are made of. *)
Definition listed_domains (out : string) : list string := hummingbird_domains (parse_domain_list out).
Definition listed_files (o : outcome) : list string :=
  match o with Done out => stragglers (trimmed_lines out) | _ => [] end.

(** The calls of a live run, and whether it succeeds. *)
Inductive sweep (p : Plan) : bool → list (list string * outcome) → Prop :=
| sweep_no_list o : ¬ is_done o → sweep p false [(list_call, o)]
| sweep_no_host out cs :
    cs.*1 = listed_domains out ≫= domain_calls →
    sweep p false ((list_call, Done out) :: cs ++ [(ls_call p, Unreachable)])
| sweep_all out cs o cs' :
    cs.*1 = listed_domains out ≫= domain_calls → o ≠ Unreachable →
    cs'.*1 = (rm_call p <$> listed_files o) ++ [refresh_call p] →
    sweep p true ((list_call, Done out) :: cs ++ (ls_call p, o) :: cs').

(** The calls that did not do their work. *)
Definition warned (cs : list (list string * outcome)) : nat := length (filter (λ c, ¬ is_done c.2) cs).

Lemma warned_app cs1 cs2 : warned (cs1 ++ cs2) = (warned cs1 + warned cs2)%nat.
Proof. unfold warned. by rewrite filter_app, length_app. Qed.

Section sweep.
Context `{W : World} (p : Plan) (Hlive : dry_run p = false).
#[local] Abbreviation pl := (place_of (plan_kvm_host p)).
#[local] Abbreviation c := (build_connection (plan_kvm_host p)).

(** Exactly the calls [ws]; the result counts the ones that failed. *)
Definition counted (ws : list (list string)) (r : result anyhow nat)
    (cs : list (list string * outcome)) : Prop := cs.*1 = ws ∧ r = Ok (warned cs).

Lemma clean_virsh_u args : "virsh" :: "-c" :: QemuSshUri.remote_uri (conn_uri c) :: args = virsh_argv args.
Proof using Type. by rewrite build_connection_uri. Qed.

Lemma tells_warn_on_err (m : IO VirtError unit) ws msg :
  sends c m ws (λ _, Ok tt) → tells pl (warn_on_err m msg) (counted [ws]).
Proof using Type.
  intros Hm. eapply tells_bind; [by apply tells_try_sends| |by intros e c1 (? & ? & [=] & _)].
  intros r c1 (? & o & [= <-] & -> & Hr). destruct o as [s| |]; cbn in Hr.
  - subst r. by apply tells_ret.
  - destruct Hr as (? & ? & ->). apply tells_print, tells_ret. done.
  - destruct Hr as (? & ->). apply tells_print, tells_ret. done.
Qed.

Lemma tells_seq (m1 m2 : IO anyhow nat) ws1 ws2 :
  tells pl m1 (counted ws1) → tells pl m2 (counted ws2) →
  tells pl (a ← m1; b ← m2; mret (a + b)%nat) (counted (ws1 ++ ws2)).
Proof using Type.
  intros H1 H2. eapply tells_bind; [exact H1| |by intros e c1 [_ [=]]].
  intros a c1 [Hw1 [= ->]]. eapply tells_bind; [exact H2| |by intros e c2 [_ [=]]].
  intros b c2 [Hw2 [= ->]]. apply tells_ret. rewrite app_nil_r. split.
  - by rewrite fmap_app, Hw1, Hw2.
  - by rewrite warned_app.
Qed.

Lemma tells_count_warnings {A} (f : A → IO anyhow nat) ws l :
  (∀ x, x ∈ l → tells pl (f x) (counted (ws x))) →
  tells pl (count_warnings f l) (counted (l ≫= ws)).
Proof using Type.
  induction l as [|x l IH]; intros Hf; cbn [count_warnings].
  { by apply tells_ret. }
  apply (tells_seq _ _ (ws x)); [apply Hf; by left|]. apply IH. intros y Hy. apply Hf. by right.
Qed.

Lemma tells_sweep_domain d : tells pl (sweep_domain c p d) (counted (domain_calls d)).
Proof using Hlive.
  unfold sweep_domain. rewrite Hlive. apply tells_print, (tells_seq _ _ [_] [_]);
    apply tells_warn_on_err; rewrite <-clean_virsh_u; [apply sends_destroy_domain|apply sends_undefine_all].
Qed.

Lemma tells_sweep_straggler f : tells pl (sweep_straggler c p f) (counted [rm_call p f]).
Proof using Hlive.
  unfold sweep_straggler. rewrite Hlive. apply tells_print, tells_warn_on_err, sends_remote_rm_f.
Qed.

Lemma tells_refresh : tells pl (refresh_pool c p) (counted [refresh_call p]).
Proof using Hlive.
  unfold refresh_pool. rewrite Hlive. apply tells_warn_on_err.
  unfold refresh_call. rewrite <-clean_virsh_u. apply sends_pool_refresh.
Qed.

Lemma tells_sweep_domains :
  tells pl (sweep_domains c p) (λ r cs,
    (∃ out cs', cs = (list_call, Done out) :: cs' ∧ counted (listed_domains out ≫= domain_calls) r cs')
    ∨ ∃ o e, cs = [(list_call, o)] ∧ ¬ is_done o ∧ r = Err e).
Proof using Hlive.
  eapply tells_bind; [by apply tells_try_sends, sends_domains| |by intros e c1 (? & ? & [=] & _)].
  rewrite clean_virsh_u. intros r c1 (? & o & [= <-] & -> & Hr). destruct o as [s| |]; cbn in Hr.
  - subst r. eapply tells_conseq; [apply tells_count_warnings; intros d _; apply tells_sweep_domain|].
    intros r cs Hc. left. by exists s, cs.
  - destruct Hr as (? & ? & ->). apply tells_throw. right. eexists _, _; split_and!; [done|by intros []|done].
  - destruct Hr as (? & ->). apply tells_throw. right. eexists _, _; split_and!; [done|by intros []|done].
Qed.

Lemma bind_singleton {A B} (f : A → B) l : l ≫= (λ x, [f x]) = f <$> l.
Proof using Type. induction l as [|x l IH]; [done|]. cbn. by rewrite <-IH. Qed.

Lemma tells_sweep_stragglers :
  tells pl (sweep_stragglers c p) (λ r cs,
    (∃ o cs', cs = (ls_call p, o) :: cs' ∧ o ≠ Unreachable ∧ cs'.*1 = rm_call p <$> listed_files o
              ∧ r = Ok (warned cs))
    ∨ ∃ e, cs = [(ls_call p, Unreachable)] ∧ r = Err e).
Proof using Hlive.
  eapply tells_bind; [by apply tells_try_sends, sends_remote_ls| |by intros e c1 (? & ? & [=] & _)].
  intros r c1 (? & o & [= <-] & -> & Hr). destruct o as [s|k|]; cbn in Hr.
  - subst r. eapply tells_conseq; [apply tells_count_warnings; intros d _; apply tells_sweep_straggler|].
    intros r cs [Hw ->]. left. exists (Done s), cs. by rewrite <-bind_singleton.
  - destruct Hr as (? & ? & ->). apply tells_print, tells_ret. left. by exists (Failed k), [].
  - destruct Hr as (? & ->). apply tells_throw. right. by eexists.
Qed.

(** The lines at the end of a run with [n] warnings. *)
Definition closing (n : nat) : history :=
  (if (0 <? n)%nat then [EvOut ("[clean-vms] " +:+ warned_msg n)] else [])
  ++ [EvOut "[clean-vms] done."].

Lemma run_plan_sweep :
  emits (run_plan c p) (λ r es, ∃ cs, said pl es cs ∧ sweep p (is_ok r) cs
    ∧ (is_ok r = true → ∃ es', es = es' ++ closing (warned cs))).
Proof using Hlive.
  eapply emits_io_bind; [apply tells_sweep_domains|..].
  2: { intros e es (cs & Hs & [(out & cs' & -> & _ & [=])|(o & e' & -> & Ho & _)]).
       eexists. split; [exact Hs|]. split; [by constructor|done]. }
  intros w1 e1 (cs1 & Hs1 & [(out & cs1' & -> & Hc1 & [= ->])|(o & e' & _ & _ & [=])]).
  eapply emits_io_bind; [apply tells_sweep_stragglers|..].
  2: { intros e es (cs & Hs & [(o & cs' & _ & _ & _ & [=])|(e' & -> & _)]).
       eexists. split; [by apply said_app|]. split; [by constructor|done]. }
  intros w2 e2 (cs2 & Hs2 & [(o & cs2' & -> & Ho & Hc2 & [= ->])|(? & _ & [=])]).
  eapply emits_io_bind; [by apply tells_refresh|..|by intros e es (? & _ & _ & [=])].
  intros w3 e3 (cs3 & Hs3 & Hc3 & [= ->]).
  set (n := (warned cs1' + warned ((ls_call p, o) :: cs2') + warned cs3)%nat).
  apply (emits_conseq _ (λ r es, r = Ok tt ∧ es = closing n)).
  { intros h. unfold closing. by destruct (0 <? n)%nat. }
  intros r es [-> ->]. exists (((list_call, Done out) :: cs1') ++ ((ls_call p, o) :: cs2') ++ cs3).
  split; [|split].
  - rewrite !app_assoc. rewrite <-(app_nil_r (_ ++ cs3)). apply said_app.
    + rewrite <-!app_assoc. repeat apply said_app; done.
    + unfold closing. destruct (0 <? n)%nat; repeat constructor.
  - cbn [app]. apply sweep_all; [done..|]. by rewrite fmap_app, Hc2, Hc3.
  - intros _. exists (e1 ++ e2 ++ e3). rewrite <-!app_assoc. do 4 f_equal.
    rewrite !warned_app. unfold n. change (warned ((list_call, Done out) :: cs1')) with (warned cs1').
    by rewrite Nat.add_assoc.
Qed.
End sweep.

(** ** A dry run *)

Section dry.
Context `{W : World} (p : Plan) (Hdry : dry_run p = true).
#[local] Abbreviation pl := (place_of (plan_kvm_host p)).
#[local] Abbreviation c := (build_connection (plan_kvm_host p)).

Lemma tells_dry_count {A} (f : A → IO anyhow nat) l :
  (∀ x, tells pl (f x) (λ r cs, r = Ok 0%nat ∧ cs = [])) →
  tells pl (count_warnings f l) (λ r cs, r = Ok 0%nat ∧ cs = []).
Proof using Type.
  intros Hf. induction l as [|x l IH]; cbn [count_warnings]; [by apply tells_ret|].
  eapply tells_bind; [apply Hf| |by intros e c1 [[=] _]]. intros a c1 [[= ->] ->].
  eapply tells_bind; [apply IH| |by intros e c1 [[=] _]]. intros b c2 [[= ->] ->]. by apply tells_ret.
Qed.

(** It lists the domains and the files. *)
Lemma run_plan_dry :
  tells pl (run_plan c p) (λ r cs, cs.*1 = [list_call] ∧ is_ok r = false
                                   ∨ cs.*1 = [list_call; ls_call p]).
Proof using Hdry.
  eapply tells_bind with (P := λ r cs, cs.*1 = [list_call]); [| |by left].
  { eapply tells_bind; [by apply tells_try_sends, sends_domains| |by intros e c1 (? & ? & [=] & _)].
    rewrite clean_virsh_u. intros [ds|e] c1 (? & o & [= <-] & -> & Hr); [|by apply tells_throw].
    eapply tells_conseq; [apply tells_dry_count|by intros r cs [_ ->]].
    intros d. unfold sweep_domain. rewrite Hdry. by apply tells_print, tells_ret. }
  intros w1 c1 H1. eapply tells_bind with (P := λ r cs, cs.*1 = [ls_call p]).
  { eapply tells_bind; [by apply tells_try_sends, sends_remote_ls| |by intros e c2 (? & ? & [=] & _)].
    intros [fs|e] c2 (? & o & [= <-] & -> & Hr).
    - eapply tells_conseq; [apply tells_dry_count|by intros r cs [_ ->]].
      intros d. unfold sweep_straggler. rewrite Hdry. by apply tells_print, tells_ret.
    - destruct e; try by apply tells_throw. by apply tells_print, tells_ret. }
  2: { intros e c2 H2. right. by rewrite fmap_app, H1, H2. }
  intros w2 c2 H2. apply tells_conseq with (P := λ r cs, cs = []).
  2: { intros r cs ->. right. by rewrite app_nil_r, fmap_app, H1, H2. }
  unfold refresh_pool. rewrite Hdry. eapply tells_bind with (P := λ r cs, cs = []); [| |done].
  - by apply tells_print, tells_ret.
  - intros w3 c3 ->. eapply tells_bind with (P := λ r cs, cs = []); [|intros _ c4 ->|done].
    + destruct (0 <? _)%nat; [|by apply tells_ret].
      intros h. eexists. split; [apply said_out; constructor|done].
    + intros h. eexists. split; [apply said_out; constructor|done].
Qed.
End dry.

(** ** [run] *)

Lemma clean_run_unfold `{World} args h :
  match config_at (cv_config args) h with
  | Some cfg => run args h = let p := from_args args cfg in
                             run_plan (build_connection (plan_kvm_host p)) p h
  | None => is_ok (run args h).1 = false ∧ (run args h).2 = []
  end.
Proof. apply (with_config_at (cv_config args)). Qed.

(** C19: the exact sequence of the calls of [hbird clean-vms], all of them on the
    configured host.  A live run lists the domains; destroys and undefines each
    listed [hummingbird-] domain, in the order of the listing, whatever fails;
    lists the pool directory; removes each matching entry in byte order; and
    refreshes the pool.  It fails exactly when the domains cannot be listed or the
    host is unreachable when the directory is to be listed, with nothing done
    after that; a directory that cannot be read is skipped.  When it succeeds it
    ends with the number of the failed calls.  A dry run lists and does nothing
    else; without a readable config nothing is called. *)
Theorem clean_vms_sweep `{World} args h :
  let '(r, es) := run args h in
  match config_at (cv_config args) h with
  | None => is_ok r = false ∧ es = []
  | Some cfg =>
      let p := from_args args cfg in
      ∃ cs, said (place_of (plan_kvm_host p)) es cs
        ∧ if cv_dry_run args
          then cs.*1 = [list_call] ∧ is_ok r = false ∨ cs.*1 = [list_call; ls_call p]
          else sweep p (is_ok r) cs
               ∧ (is_ok r = true → ∃ es', es = es' ++ closing (warned cs))
  end.
Proof.
  pose proof (clean_run_unfold args h) as Hrun. destruct (config_at (cv_config args) h) as [cfg|].
  2: by destruct (run args h).
  rewrite Hrun. cbv zeta. set (p := from_args args cfg).
  assert (Hd : dry_run p = cv_dry_run args) by by destruct cfg.
  destruct (cv_dry_run args).
  - pose proof (run_plan_dry p Hd h) as Hs. by destruct (run_plan _ p h).
  - pose proof (run_plan_sweep p Hd h) as Hs. by destruct (run_plan _ p h).
Qed.

(** What a run may ask its host to do. *)
Inductive clean_step (p : Plan) : list string → Prop :=
| step_look ws : ws ∈ [list_call; ls_call p] → clean_step p ws
| step_refresh : dry_run p = false → clean_step p (refresh_call p)
| step_vm rest ws :
    dry_run p = false → ws ∈ domain_calls ("hummingbird-" +:+ rest) → clean_step p ws
| step_artifact rest :
    dry_run p = false →
    clean_step p ["rm"; "-f"; "--"; trim_end_char "/" (plan_pool_dir p) +:+ "/hummingbird-" +:+ rest].

Lemma sweep_steps p b cs : dry_run p = false → sweep p b cs → Forall (clean_step p) cs.*1.
Proof.
  intros Hlive Hs.
  assert (Hdom : ∀ out, Forall (clean_step p) (listed_domains out ≫= domain_calls)).
  { intros out. apply Forall_forall. intros ws (d & Hws & Hd)%list_elem_of_bind.
    apply list_elem_of_filter in Hd as [[rest ->]%is_hummingbird_domain_spec _].
    by eapply step_vm. }
  assert (Hlook : ∀ ws, ws ∈ [list_call; ls_call p] → clean_step p ws) by (intros; by constructor).
  destruct Hs as [o _|out cs Hcs|out cs o cs' Hcs _ Hcs']; cbn [fmap list_fmap fst];
    rewrite ?fmap_app; cbn [fmap list_fmap fst]; rewrite ?Hcs.
  - constructor; [apply Hlook; by left|constructor].
  - constructor; [apply Hlook; by left|]. apply Forall_app. split; [apply Hdom|].
    constructor; [apply Hlook; by right; left|constructor].
  - constructor; [apply Hlook; by left|]. apply Forall_app. split; [apply Hdom|].
    constructor; [apply Hlook; by right; left|]. rewrite Hcs'. apply Forall_app.
    split; [|constructor; [by constructor|constructor]]. apply Forall_fmap, Forall_forall. intros f Hf. cbn.
    destruct o as [s| |]; try by apply elem_of_nil in Hf.
    apply elem_of_stragglers in Hf as [_ Hf]. unfold is_straggler_artifact in Hf.
    destruct (starts_with _ f) eqn:Hp; [|done]. apply is_hummingbird_domain_spec in Hp as [rest ->].
    by apply step_artifact.
Qed.

(** [hbird clean-vms] touches nothing but Hummingbird VMs: of the domains it
    destroys and undefines, and of the files in the pool directory it removes,
    each name begins with [hummingbird-]; apart from that it only lists and
    refreshes the pool, all on the configured host.  A dry run only lists. *)
Theorem clean_vms_only_hummingbird `{World} args h cfg
    (Hcfg : config_at (cv_config args) h = Some cfg) :
  let p := from_args args cfg in
  Forall (λ e, is_out e ∨ ∃ ws o, call_of e = Some (place_of (plan_kvm_host p), ws, o)
                                  ∧ clean_step p ws) (run args h).2.
Proof.
  pose proof (clean_run_unfold args h) as Hrun. rewrite Hcfg in Hrun. rewrite Hrun.
  cbv zeta. set (p := from_args args cfg).
  assert (Hs : ∃ cs, said (place_of (plan_kvm_host p))
                       (run_plan (build_connection (plan_kvm_host p)) p h).2 cs
                     ∧ Forall (clean_step p) cs.*1).
  { destruct (dry_run p) eqn:Hd.
    - destruct (run_plan_dry p Hd h) as (cs & Hs & Hcs). exists cs. split; [done|].
      destruct Hcs as [[-> _]| ->]; repeat (constructor; [constructor; set_solver|]); constructor.
    - destruct (run_plan_sweep p Hd h) as (cs & Hs & Hcs & _). exists cs. split; [done|].
      by eapply sweep_steps. }
  destruct Hs as (cs & Hs & Hcs). revert Hcs. induction Hs as [|l es cs _ IH|e ws o es cs He _ IH];
    intros Hcs; constructor; auto.
  - left. done.
  - right. exists ws, o. by inversion Hcs.
  - apply IH. by inversion Hcs.
Qed.

(** A host with a production VM, two clusters' worth of files and a domain that
    is already shut off. *)
Definition mixed_host : World := {|
  ssh_answer _ o cmd _ :=
    if contains "list --all" cmd
    then Ok (mkRunOutput (Exited 0) ("hbird-geary-1" +:+ NL +:+ "hummingbird-k8s" +:+ NL) "")
    else if starts_with "ls " cmd
    then Ok (mkRunOutput (Exited 0)
               ("hummingbird-k8s.qcow2" +:+ NL +:+ "hbird-geary-1-seed.iso" +:+ NL
                +:+ "hummingbird-k8s-seed.iso" +:+ NL) "")
    else if contains " destroy " cmd
    then Err (NonZeroExit (host o) (Exited 1) "" "error: domain is not running")
    else Ok (mkRunOutput (Exited 0) "" "");
  local_answer _ _ := Err (IoError "unused");
  stdout_answer _ _ := Ok tt;
  stderr_answer _ _ := Ok tt;
  file_answer _ _ := Err (IoError "unused");
  fs_answer _ _ := Ok tt;
|}.
Definition clean_args (dry : bool) : CleanVmsArgs :=
  mkCleanVmsArgs None (Some "geary") (Some "/mnt/pool/") None dry.

Lemma clean_vms_only_hummingbird_witness :
  Forall (λ e, is_out e ∨ ∃ ws o, call_of e = Some (Some (new "geary"), ws, o)
               ∧ clean_step (from_args (clean_args false) None) ws) (@run mixed_host (clean_args false) []).2
  ∧ (λ x, (x.1.2, x.2)) <$> omap call_of (@run mixed_host (clean_args false) []).2 = [
      (virsh_argv ["list"; "--all"; "--name"],
       Done ("hbird-geary-1" +:+ NL +:+ "hummingbird-k8s" +:+ NL));
      (virsh_argv ["destroy"; "hummingbird-k8s"], Failed (Some 1%Z));
      (virsh_argv ["undefine"; "hummingbird-k8s"; "--remove-all-storage"; "--nvram"], Done "");
      (["ls"; "-1"; "--"; "/mnt/pool/"],
       Done ("hummingbird-k8s.qcow2" +:+ NL +:+ "hbird-geary-1-seed.iso" +:+ NL
                +:+ "hummingbird-k8s-seed.iso" +:+ NL));
      (["rm"; "-f"; "--"; "/mnt/pool/hummingbird-k8s-seed.iso"], Done "");
      (["rm"; "-f"; "--"; "/mnt/pool/hummingbird-k8s.qcow2"], Done "");
      (virsh_argv ["pool-refresh"; "default"], Done "")].
Proof.
  split; [|vm_compute; reflexivity].
  apply (@clean_vms_only_hummingbird mixed_host (clean_args false) [] None). reflexivity.
Defined.
