(* ===== verification/Transcript.v ===== *)
(** * Transcripts: what a flow does to the outside, against a script

    The events of a run without what it prints, each with its success
    ([transcript]); scripts of steps that must or may succeed or have a
    recovery; and the relation [follows] between a script, the success of the
    run and its transcript, with rules for the monad. *)

From S2P Require Import Prelude RustStr ConfigTypes SshOptions SshClient Effects.

(** ** Steps *)

Inductive step : Type :=
| Cmd (o : SshOptions) (command : string) (stdin : option string)
| Run (argv : list string)
| Wait (d : Duration)
| Fs (op : fs_call).

(** A local program is successful when it could be run and exited with 0. *)
Definition local_ok (r : result io_error RunOutput) : bool :=
  match r with Ok out => success (status out) | Err _ => false end.

Definition step_of (e : event) : option (step * bool) :=
  match e with
  | EvSsh o c i r => Some (Cmd o c i, is_ok r)
  | EvLocal argv r => Some (Run argv, local_ok r)
  | EvSleep d => Some (Wait d, true)
  | EvFs op r => Some (Fs op, is_ok r)
  | _ => None
  end.
Definition transcript (es : history) : list (step * bool) := omap step_of es.

Lemma transcript_app es1 es2 : transcript (es1 ++ es2) = transcript es1 ++ transcript es2.
Proof. apply omap_app. Qed.

Lemma transcript_quiet es : Forall (λ e, step_of e = None) es → transcript es = [].
Proof. induction 1 as [|e es He _ IH]; [done|]. cbn. by rewrite He. Qed.

(** ** Scripts *)

Inductive stage : Type :=
(** the run stops when it fails *)
| Must (s : step)
(** the run may go on when it fails *)
| May (s : step)
(** when it fails, [recovery] is tried and the run stops *)
| Guarded (s recovery : step)
(** the run goes on only when it fails *)
| Unless (s : step)
(** any number of steps that satisfy the predicate *)
| Some_of (S : step → Prop).

(** The run of [script] that ended with success [b] left the transcript. *)
Inductive follows : list stage → bool → list (step * bool) → Prop :=
| follows_done : follows [] true []
| follows_stop script : follows script false []
| follows_must s script b ts :
    follows script b ts → follows (Must s :: script) b ((s, true) :: ts)
| follows_must_fail s script : follows (Must s :: script) false [(s, false)]
| follows_may s ok script b ts :
    follows script b ts → follows (May s :: script) b ((s, ok) :: ts)
| follows_guarded s r script b ts :
    follows script b ts → follows (Guarded s r :: script) b ((s, true) :: ts)
| follows_recover s r ok script :
    follows (Guarded s r :: script) false [(s, false); (r, ok)]
| follows_unless s script b ts :
    follows script b ts → follows (Unless s :: script) b ((s, false) :: ts)
| follows_unless_stop s ok script : follows (Unless s :: script) false [(s, ok)]
| follows_some_done S script b ts : follows script b ts → follows (Some_of S :: script) b ts
| follows_some_step (S : step → Prop) s ok script b ts :
    S s → follows (Some_of S :: script) b ts → follows (Some_of S :: script) b ((s, ok) :: ts).
#[export] Hint Constructors follows : effects.

Lemma follows_app s1 s2 b ts1 ts2 :
  follows s1 true ts1 → follows s2 b ts2 → follows (s1 ++ s2) b (ts1 ++ ts2).
Proof.
  intros H1 H2. remember true as t eqn:E. induction H1; simplify_eq/=; eauto with effects.
Qed.

Lemma follows_app_l s1 s2 ts : follows s1 false ts → follows (s1 ++ s2) false ts.
Proof.
  intros H1. remember false as t eqn:E. induction H1; simplify_eq/=; eauto with effects.
Qed.

(** A script whose steps must all succeed: after success all did. *)
Lemma follows_all_ok steps ts :
  follows (Must <$> steps) true ts → ts = (λ s, (s, true)) <$> steps.
Proof.
  revert ts. induction steps as [|s steps IH]; intros ts H; inversion H; subst; [done|].
  cbn. f_equal. by apply IH.
Qed.

(** A failed run did a prefix; only the last step can have failed. *)
Lemma follows_prefix steps b ts :
  follows (Must <$> steps) b ts →
  ∃ k, ts = ((λ s, (s, true)) <$> take k steps)
     ∨ ∃ s, steps !! k = Some s ∧ ts = ((λ s, (s, true)) <$> take k steps) ++ [(s, false)].
Proof.
  revert ts. induction steps as [|s steps IH]; intros ts H; inversion H; subst; cbn.
  - exists 0%nat. by left.
  - exists 0%nat. by left.
  - exists 0%nat. by left.
  - match goal with H : follows _ _ _ |- _ => destruct (IH _ H) as (k & [->|(s' & Hs & ->)]) end.
    + exists (S k). by left.
    + exists (S k). right. by exists s'.
  - exists 0%nat. right. by exists s.
Qed.

Lemma follows_elem steps b ts s ok :
  follows (Must <$> steps) b ts → (s, ok) ∈ ts → s ∈ steps.
Proof.
  revert ts. induction steps as [|s' steps IH]; intros ts H; inversion H; subst.
  - by intros ?%elem_of_nil.
  - by intros ?%elem_of_nil.
  - by intros ?%elem_of_nil.
  - intros [[= -> ->]|Hs]%elem_of_cons; [by left|]. right. by eapply IH.
  - intros [= -> ->]%list_elem_of_singleton. by left.
Qed.

Lemma transcript_elem e s ok es : e ∈ es → step_of e = Some (s, ok) → (s, ok) ∈ transcript es.
Proof. intros He Hs. apply list_elem_of_omap. by exists e. Qed.

(** ** Computations against scripts *)

(** [m] follows the script, and what it returns satisfies [P]. *)
Definition scripted {E A} (script : list stage) (m : IO E A) (P : A → Prop) : Prop :=
  emits m (λ r es, follows script (is_ok r) (transcript es) ∧ ∀ a, r = Ok a → P a).

Section rules.
Context {E F A B : Type}.

Lemma scripted_ret (a : A) (P : A → Prop) : P a → scripted [] (mret a : IO E A) P.
Proof. intros HP h. split; [constructor|by intros ? [= <-]]. Qed.

Lemma scripted_throw script (e : E) (P : A → Prop) : scripted script (throw e) P.
Proof. intros h. split; [constructor|done]. Qed.

Lemma scripted_bind s1 s2 (m : IO E A) (f : A → IO E B) P Q :
  scripted s1 m P → (∀ a, P a → scripted s2 (f a) Q) → scripted (s1 ++ s2) (m ≫= f : IO E B) Q.
Proof.
  intros Hm Hf. eapply emits_io_bind; [exact Hm|..].
  - intros a e1 [H1 HP]. eapply emits_conseq; [by apply Hf, HP|].
    intros r e2 [H2 HQ]. split; [|done]. rewrite transcript_app. by apply follows_app.
  - intros e e1 [H1 _]. split; [by apply follows_app_l|done].
Qed.

(** The first computation does nothing to the outside. *)
Lemma scripted_quietly s2 (m : IO E A) (f : A → IO E B) P Q :
  scripted [] m P → (∀ a, P a → scripted s2 (f a) Q) → scripted s2 (m ≫= f : IO E B) Q.
Proof. apply (scripted_bind []). Qed.

(** What follows does nothing to the outside. *)
Lemma scripted_last s (m : IO E A) (f : A → IO E B) P Q :
  scripted s m P → (∀ a, P a → scripted [] (f a) Q) → scripted s (m ≫= f : IO E B) Q.
Proof. rewrite <-(app_nil_r s) at 2. apply (scripted_bind s []). Qed.

(** The same for a postcondition that does not look at what is printed. *)
Definition quiet_closed {X} (Q : X → history → Prop) : Prop :=
  ∀ r es1 es, transcript es1 = [] → Q r es → Q r (es1 ++ es).

Lemma emits_quietly (m : IO E A) (f : A → IO E B) P (Q : result E B → history → Prop) :
  quiet_closed Q → (∀ e, Q (Err e) []) → scripted [] m P → (∀ a, P a → emits (f a) Q) →
  emits (m ≫= f : IO E B) Q.
Proof.
  intros HQ He Hm Hf. eapply emits_io_bind; [exact Hm|..].
  - intros a es [H HP]. eapply emits_conseq; [by apply Hf, HP|]. intros r e2 H2.
    apply HQ; [by inversion H|done].
  - intros e es [H _]. rewrite <-(app_nil_r es). apply HQ; [by inversion H|done].
Qed.

(** The first computation is the first stage. *)
Lemma scripted_step s s2 (m : IO E A) (f : A → IO E B) P Q :
  scripted [s] m P → (∀ a, P a → scripted s2 (f a) Q) → scripted (s :: s2) (m ≫= f : IO E B) Q.
Proof. apply (scripted_bind [s]). Qed.

Lemma scripted_any script (m : IO E A) P : scripted script m P → scripted script m (λ _, True).
Proof. intros Hm. eapply emits_conseq; [exact Hm|]. by intros r es [H _]. Qed.

Lemma scripted_conseq script (m : IO E A) (P Q : A → Prop) :
  scripted script m P → (∀ a, P a → Q a) → scripted script m Q.
Proof.
  intros Hm HPQ. eapply emits_conseq; [exact Hm|]. intros r es [H HP]. split; [done|].
  intros a Ha. by apply HPQ, HP.
Qed.

Lemma scripted_of_result (r : result E A) (P : A → Prop) :
  (∀ a, r = Ok a → P a) → scripted [] (of_result r) P.
Proof. intros HP h. split; [|exact HP]. destruct r; constructor. Qed.

Lemma scripted_map_err script (f : E → F) (m : IO E A) P :
  scripted script m P → scripted script (io_map_err f m) P.
Proof.
  intros Hm. apply emits_map_err. eapply emits_conseq; [exact Hm|].
  intros [a|e] es [H HP]; (split; [done|]); [by intros ? [= <-]; apply HP|done].
Qed.

(** Events that are not steps. *)
Lemma scripted_quiet (m : M A) :
  only (λ e, step_of e = None) m → scripted [] (lift m : IO E A) (λ _, True).
Proof.
  intros Hm. apply emits_lift. eapply emits_conseq; [exact Hm|]. intros a es Hes.
  split; [|done]. rewrite transcript_quiet by done. constructor.
Qed.

(** A look at the surroundings. *)
Lemma scripted_pure (m : IO E A) (P : A → Prop) :
  (∀ h, (m h).2 = [] ∧ ∀ a, (m h).1 = Ok a → P a) → scripted [] m P.
Proof.
  intros Hm h. destruct (Hm h) as [-> HP]. split; [|exact HP]. destruct (m h).1; constructor.
Qed.
End rules.

(** *** Scripts with values that are known only during the run *)

Section unknown.
Context {E A B X : Type} (P : X → Prop).

(** [m] follows one of the scripts [S x], for an [x] that satisfies [P]. *)
Definition scripted_ex (S : X → list stage) (m : IO E A) : Prop :=
  emits m (λ r es, ∃ x, P x ∧ follows (S x) (is_ok r) (transcript es)).

Lemma scripted_ex_intro x S (m : IO E A) Q : P x → scripted (S x) m Q → scripted_ex S m.
Proof. intros Hx Hm. eapply emits_conseq; [exact Hm|]. intros r es [H _]. by exists x. Qed.
End unknown.

Lemma scripted_ex_step {E A B X} (P : X → Prop) x0 s S (m : IO E A) (f : A → IO E B) Q :
  P x0 → scripted [s] m Q → (∀ a, Q a → scripted_ex P S (f a)) →
  scripted_ex P (λ x, s :: S x) (m ≫= f : IO E B).
Proof.
  intros Hx Hm Hf. eapply emits_io_bind; [exact Hm|..].
  - intros a e1 [H1 HQ]. eapply emits_conseq; [by apply Hf, HQ|].
    intros r e2 (x & HP & H). exists x. split; [done|]. rewrite transcript_app.
    by apply (follows_app [s]).
  - intros e es [H _]. exists x0. split; [done|]. by apply (follows_app_l [s]).
Qed.

Lemma scripted_ex_quietly {E A B X} (P : X → Prop) x0 S (m : IO E A) (f : A → IO E B) Q :
  P x0 → scripted [] m Q → (∀ a, Q a → scripted_ex P S (f a)) → scripted_ex P S (m ≫= f : IO E B).
Proof.
  intros Hx Hm Hf. eapply emits_quietly; [| |exact Hm|exact Hf].
  - intros r es1 es Hes (x & HP & H). exists x. by rewrite transcript_app, Hes.
  - intros e. exists x0. split; [done|constructor].
Qed.

(** A property of the value and of the history, which only grows. *)
Lemma emits_then {E A B} (m : IO E A) (f : A → IO E B) (R : B → history → Prop) :
  (∀ b es1 es, R b es → R b (es1 ++ es)) →
  (∀ a, emits (f a) (λ r es, ∀ b, r = Ok b → R b es)) →
  emits (m ≫= f : IO E B) (λ r es, ∀ b, r = Ok b → R b es).
Proof.
  intros HR Hf. eapply emits_io_bind with (P := λ _ _, True); [done| |done].
  intros a e1 _. eapply emits_conseq; [apply Hf|]. intros r e2 H b Hb. by apply HR, H.
Qed.

(** *** Scripts that depend on the results *)

Section runs.
Context {E A B : Type}.

(** [m] follows one of the scripts that [S] allows for its result; a run that
    fails follows one that is allowed for some result. *)
Definition runs (S : A → list stage → Prop) (m : IO E A) : Prop :=
  emits m (λ r es, ∃ a s, S a s ∧ (∀ a', r = Ok a' → a' = a) ∧ follows s (is_ok r) (transcript es)).

Lemma runs_scripted s (m : IO E A) P a0 :
  P a0 → scripted s m P → runs (λ a s', P a ∧ s' = s) m.
Proof.
  intros H0 Hm. eapply emits_conseq; [exact Hm|]. intros [a|e] es [H HP].
  - exists a, s. split; [split; [by apply HP|done]|]. split; [by intros ? [= <-]|done].
  - exists a0, s. by split.
Qed.

Lemma runs_conseq (S S' : A → list stage → Prop) (m : IO E A) :
  runs S m → (∀ a s, S a s → S' a s) → runs S' m.
Proof.
  intros Hm HS. eapply emits_conseq; [exact Hm|]. intros r es (a & s & H & Ha & Hf).
  exists a, s. split; [by apply HS|done].
Qed.
End runs.

Lemma runs_bind {E A B} (S : A → list stage → Prop) (T : A → B → list stage → Prop)
    (m : IO E A) (f : A → IO E B) :
  runs S m → (∀ a, (∃ s, S a s) → runs (T a) (f a)) →
  (∀ a, (∃ s, S a s) → ∃ b s, T a b s) →
  runs (λ b s, ∃ a s1 s2, S a s1 ∧ T a b s2 ∧ s = s1 ++ s2) (m ≫= f : IO E B).
Proof.
  intros Hm Hf Hi. eapply emits_io_bind; [exact Hm|..].
  - intros a e1 (a' & s1 & H1 & Ha & Hs1). rewrite <-(Ha a eq_refl) in H1.
    eapply emits_conseq; [apply Hf; by exists s1|]. intros r e2 (b & s2 & H2 & Hb & Hs2).
    exists b, (s1 ++ s2). split; [by exists a, s1, s2|]. split; [done|].
    rewrite transcript_app. by apply follows_app.
  - intros e e1 (a & s1 & H1 & _ & Hs1). destruct (Hi a) as (b & s2 & H2); [by exists s1|].
    exists b, (s1 ++ s2). split; [by exists a, s1, s2|]. split; [done|]. by apply follows_app_l.
Qed.

(** The first computation has one script. *)
Lemma runs_then {E A B} s1 P a0 (T : A → B → list stage → Prop) (m : IO E A) (f : A → IO E B) :
  scripted s1 m P → P a0 → (∀ a, P a → runs (T a) (f a)) → (∀ a, P a → ∃ b s, T a b s) →
  runs (λ b s, ∃ a s2, P a ∧ T a b s2 ∧ s = s1 ++ s2) (m ≫= f : IO E B).
Proof.
  intros Hm H0 Hf Hi. eapply runs_conseq.
  - eapply (runs_bind (λ a s', P a ∧ s' = s1) T); [by eapply runs_scripted|..].
    + intros a (? & HP & _). by apply Hf.
    + intros a (? & HP & _). by apply Hi.
  - intros b s (a & ? & s2 & [HP ->] & HT & ->). by exists a, s2.
Qed.

(** What follows does not depend on the result. *)
Lemma runs_next {E A B} s1 P a0 (T : B → list stage → Prop) (m : IO E A) (f : A → IO E B) :
  scripted s1 m P → P a0 → (∀ a, P a → runs T (f a)) → (∃ b s, T b s) →
  runs (λ b s, ∃ s2, T b s2 ∧ s = s1 ++ s2) (m ≫= f : IO E B).
Proof.
  intros Hm H0 Hf Hi. eapply runs_conseq; [eapply (runs_then s1 P a0 (λ _, T)); eauto|].
  intros b s (a & s2 & _ & HT & ->). by exists s2.
Qed.

Lemma runs_quietly {E A B} P a0 (T : B → list stage → Prop) (m : IO E A) (f : A → IO E B) :
  scripted [] m P → P a0 → (∀ a, P a → runs T (f a)) → (∃ b s, T b s) →
  runs T (m ≫= f : IO E B).
Proof.
  intros Hm H0 Hf Hi. eapply runs_conseq; [eapply (runs_then [] P a0 (λ _, T)); eauto|].
  intros b s (a & s2 & _ & HT & ->). done.
Qed.

(** *** Any number of steps of a kind *)

Definition step_in (S : step → Prop) (e : event) : Prop :=
  ∀ s ok, step_of e = Some (s, ok) → S s.

Lemma follows_some_of (S : step → Prop) script b ts1 ts2 :
  Forall (λ t, S t.1) ts1 → follows script b ts2 → follows (Some_of S :: script) b (ts1 ++ ts2).
Proof.
  induction 1 as [|[s ok] ts1 Hs _ IH]; intros H2; [by constructor|].
  cbn. apply follows_some_step; [done|by apply IH].
Qed.

Lemma steps_in (S : step → Prop) es : Forall (step_in S) es → Forall (λ t, S t.1) (transcript es).
Proof.
  induction 1 as [|e es He _ IH]; [constructor|]. cbn. unfold step_in in He.
  destruct (step_of e) as [[s ok]|]; [|done]. constructor; [by eapply He|done].
Qed.

Lemma scripted_some {E A} (S : step → Prop) (m : IO E A) :
  only (step_in S) m → scripted [Some_of S] m (λ _, True).
Proof.
  intros Hm. eapply emits_conseq; [exact Hm|]. intros r es Hes. split; [|done].
  rewrite <-(app_nil_r (transcript es)). apply follows_some_of; [by apply steps_in|].
  destruct r; constructor.
Qed.

Section steps.
Context `{W : World} {E : Type}.

Lemma scripted_ssh o c i :
  scripted [Must (Cmd o c i)] (ssh_run o c i) (λ out, ∃ h, ssh_answer h o c i = Ok out).
Proof.
  intros h. cbn. split; [|by intros out Hr; exists h].
  destruct (ssh_answer h o c i); repeat constructor.
Qed.

Lemma scripted_try_ssh o c i :
  scripted [May (Cmd o c i)] (try (ssh_run o c i) : IO E (result SshError RunOutput))
    (λ r, ∃ h, ssh_answer h o c i = r).
Proof. intros h. cbn. split; [repeat constructor|]. intros r [= <-]. by exists h. Qed.

(** A step whose error ends the run. *)
Lemma scripted_try_must {A} o c i script (f : result SshError RunOutput → IO E A) P :
  (∀ out, scripted script (f (Ok out)) P) → (∀ e, scripted [] (f (Err e)) P) →
  (∀ e h, is_ok (f (Err e) h).1 = false) →
  scripted (Must (Cmd o c i) :: script) (r ← try (ssh_run o c i); f r) P.
Proof.
  intros Hok Herr Hf h. cbv [mbind IO_bind try lift catch ssh_run].
  destruct (ssh_answer h o c i) as [out|e] eqn:Ea.
  - specialize (Hok out (h ++ [EvSsh o c i (Ok out)])).
    destruct (f (Ok out) _) as [r es]. destruct Hok as [H HP]. split; [|done].
    cbn. by constructor.
  - specialize (Herr e (h ++ [EvSsh o c i (Err e)])).
    specialize (Hf e (h ++ [EvSsh o c i (Err e)])).
    destruct (f (Err e) _) as [r es]. destruct Herr as [H HP]. cbn in *. split; [|done].
    rewrite Hf in *. inversion H; subst. constructor.
Qed.

Lemma scripted_sleep d : scripted [Must (Wait d)] (lift (sleep d) : IO E unit) (λ _, True).
Proof. intros h. cbn. split; [repeat constructor|done]. Qed.

Lemma scripted_fs op : scripted [Must (Fs op)] (fs_run op) (λ _, True).
Proof. intros h. cbn. split; [|done]. destruct (fs_answer h op); repeat constructor. Qed.
End steps.

Lemma quiet_emit e : step_of e = None → only (λ e, step_of e = None) (emit e).
Proof. intros He. by apply (only_emit (λ e, step_of e = None)). Qed.
#[export] Hint Resolve quiet_emit : effects.

(** ** Transcripts as relations *)

(** [Q] holds of the result and of what was done to the outside. *)
Definition leaves {E A} (m : IO E A) (Q : result E A → list (step * bool) → Prop) : Prop :=
  emits m (λ r es, Q r (transcript es)).

Section leaves.
Context {E F A B : Type}.

Lemma leaves_ret (a : A) (Q : result E A → list (step * bool) → Prop) :
  Q (Ok a) [] → leaves (mret a) Q.
Proof. by intros HQ h. Qed.

Lemma leaves_throw (e : E) (Q : result E A → list (step * bool) → Prop) :
  Q (Err e) [] → leaves (throw e) Q.
Proof. by intros HQ h. Qed.

Lemma leaves_conseq (m : IO E A) (P Q : result E A → list (step * bool) → Prop) :
  leaves m P → (∀ r ts, P r ts → Q r ts) → leaves m Q.
Proof. intros Hm HPQ h. apply HPQ, Hm. Qed.

Lemma leaves_bind (m : IO E A) (f : A → IO E B) P Q :
  leaves m P → (∀ a t1, P (Ok a) t1 → leaves (f a) (λ r t2, Q r (t1 ++ t2))) →
  (∀ e t1, P (Err e) t1 → Q (Err e) t1) → leaves (m ≫= f : IO E B) Q.
Proof.
  intros Hm Hf He. eapply emits_io_bind; [exact Hm| |intros e es; apply He].
  intros a e1 H1. eapply emits_conseq; [exact (Hf a _ H1)|]. intros r e2. by rewrite transcript_app.
Qed.

Lemma leaves_try (m : IO F A) Q :
  leaves m Q → leaves (try m : IO E _) (λ r ts, ∃ r', r = Ok r' ∧ Q r' ts).
Proof. intros Hm. apply emits_lift. eapply emits_conseq; [exact Hm|]. intros r es H. by exists r. Qed.

Lemma leaves_map_err (f : F → E) (m : IO F A) Q :
  leaves m (λ r ts, Q (map_err f r) ts) → leaves (io_map_err f m) Q.
Proof. apply (emits_map_err f m (λ r es, Q r (transcript es))). Qed.

(** What does nothing to the outside. *)
Lemma leaves_quietly (m : IO E A) (f : A → IO E B) Q :
  scripted [] m (λ _, True) → (∀ a, leaves (f a) Q) → (∀ e, Q (Err e) []) →
  leaves (m ≫= f : IO E B) Q.
Proof.
  intros Hm Hf He. eapply leaves_bind with (P := λ _ ts, ts = []).
  - eapply emits_conseq; [exact Hm|]. intros r es [H _]. by inversion H.
  - intros a t1 ->. apply Hf.
  - intros e t1 ->. apply He.
Qed.
End leaves.

(** The elements of a list one after the other, until one fails. *)
Inductive each {A} (P : A → bool → list (step * bool) → Prop)
    : list A → bool → list (step * bool) → Prop :=
| each_nil : each P [] true []
| each_stop x l ts : P x false ts → each P (x :: l) false ts
| each_cons x l b t1 t2 : P x true t1 → each P l b t2 → each P (x :: l) b (t1 ++ t2).

Lemma leaves_for_each {E A} (f : A → IO E unit) P l :
  (∀ x, x ∈ l → leaves (f x) (λ r ts, P x (is_ok r) ts)) →
  leaves (for_each f l) (λ r ts, each P l (is_ok r) ts).
Proof.
  induction l as [|x l IH]; intros Hf; cbn [for_each].
  { apply leaves_ret. constructor. }
  eapply leaves_bind; [apply Hf; by left|..].
  - intros a t1 H1. eapply leaves_conseq; [apply IH; intros y Hy; apply Hf; by right|].
    intros r t2 H2. by apply each_cons.
  - intros e t1 H1. by apply each_stop.
Qed.

(** ** The calls themselves *)

(** What a run does to the outside, with the answers. *)
Definition acts (es : history) : history := filter (λ e, is_Some (step_of e)) es.

Lemma acts_app es1 es2 : acts (es1 ++ es2) = acts es1 ++ acts es2.
Proof. apply filter_app. Qed.
Lemma transcript_acts es : transcript (acts es) = transcript es.
Proof.
  unfold acts, transcript. induction es as [|e es IH]; [done|].
  destruct (step_of e) as [[s ok]|] eqn:E.
  - rewrite filter_cons_True by (rewrite E; eauto). cbn [omap list_omap]. by rewrite E, IH.
  - rewrite filter_cons_False by (rewrite E; by intros []). cbn [omap list_omap]. by rewrite E.
Qed.

Definition does {E A} (m : IO E A) (Q : result E A → history → Prop) : Prop :=
  emits m (λ r es, Q r (acts es)).

Section does.
Context {E F A B : Type}.

Lemma does_ret (a : A) (Q : result E A → history → Prop) : Q (Ok a) [] → does (mret a) Q.
Proof. by intros HQ h. Qed.
Lemma does_throw (e : E) (Q : result E A → history → Prop) : Q (Err e) [] → does (throw e) Q.
Proof. by intros HQ h. Qed.
Lemma does_conseq (m : IO E A) (P Q : result E A → history → Prop) :
  does m P → (∀ r es, P r es → Q r es) → does m Q.
Proof. intros Hm HPQ h. apply HPQ, Hm. Qed.

Lemma does_bind (m : IO E A) (f : A → IO E B) P Q :
  does m P → (∀ a e1, P (Ok a) e1 → does (f a) (λ r e2, Q r (e1 ++ e2))) →
  (∀ e e1, P (Err e) e1 → Q (Err e) e1) → does (m ≫= f : IO E B) Q.
Proof.
  intros Hm Hf He. eapply emits_io_bind; [exact Hm| |intros e es; apply He].
  intros a e1 H1. eapply emits_conseq; [exact (Hf a _ H1)|]. intros r e2. by rewrite acts_app.
Qed.

Lemma does_try (m : IO F A) Q :
  does m Q → does (try m : IO E _) (λ r es, ∃ r', r = Ok r' ∧ Q r' es).
Proof. intros Hm. apply emits_lift. eapply emits_conseq; [exact Hm|]. intros r es H. by exists r. Qed.

Lemma does_leaves (m : IO E A) Q : leaves m Q → does m (λ r es, Q r (transcript es)).
Proof. intros Hm. eapply emits_conseq; [exact Hm|]. intros r es. by rewrite transcript_acts. Qed.

(** Something that is printed first. *)
Lemma does_quietly e (m : IO E B) Q :
  step_of e = None → does m Q → does (_ ← lift (emit e); m) Q.
Proof.
  intros He Hm h. specialize (Hm (h ++ [e])). unfold mbind, IO_bind, lift, emit.
  destruct (m _) as [r es]. cbn [fst snd] in *. change ([e] ++ es) with (e :: es).
  unfold acts. rewrite filter_cons_False; [done|]. rewrite He. by intros [].
Qed.
(** The same for a computation that only prints. *)
Lemma does_printing {X} (m1 : M X) (f : X → IO E B) Q :
  only (λ e, step_of e = None) m1 → (∀ x, does (f x) Q) → does (x ← lift m1; f x) Q.
Proof.
  intros Hm Hf. eapply (emits_io_bind (lift m1)) with (P := λ r es, is_ok r = true ∧ acts es = []).
  - apply emits_lift. eapply emits_conseq; [exact Hm|]. intros x es Hes. split; [done|].
    unfold acts. induction Hes as [|e es He _ IH]; [done|].
    rewrite filter_cons_False; [done|]. rewrite He. by intros [].
  - intros x e1 [_ H1]. eapply emits_conseq; [apply Hf|]. intros r e2. by rewrite acts_app, H1.
  - by intros e e1 [? _].
Qed.
Lemma does_println line (m : IO E B) Q : does m Q → does (_ ← lift (println line); m) Q.
Proof. by apply does_quietly. Qed.
Lemma does_eprintln line (m : IO E B) Q : does m Q → does (_ ← lift (eprintln line); m) Q.
Proof. by apply does_quietly. Qed.
End does.

Lemma does_ssh `{World} o cmd stdin :
  does (ssh_run o cmd stdin) (λ r es, es = [EvSsh o cmd stdin r]).
Proof. by intros h. Qed.

(** ** Polls *)

(** At most [n] times the step [s] with pauses in between, until it succeeds for
    good ([true]) or the tries are used up ([false]). *)
Inductive polled (s pause : step) : nat → bool → list (step * bool) → Prop :=
| polled_none : polled s pause 0 false []
| polled_hit n : polled s pause (S n) true [(s, true)]
| polled_last ok : polled s pause 1 false [(s, ok)]
| polled_again n ok b ts :
    polled s pause (S n) b ts → polled s pause (S (S n)) b ((s, ok) :: (pause, true) :: ts).
