(* ===== verification/ConnSteps.v ===== *)
(** * The commands of a connection as steps

    Each command of [build_connection] is one step of the transcript ([sh]): an
    [ssh] call or a local shell.  Rules for the verbs of [VirtConn.v]. *)

From S2P Require Import Prelude RustStr ConfigTypes SshOptions SshClient Effects VirtUri Shell.
From S2P Require Import VirtParse VirtConn Transcript.

(** ** The host's shell *)

Section host.
Context `{W : World} (kvm : option string).
#[local] Abbreviation c := (build_connection kvm).

(** A command line that the connection runs. *)
Definition sh (cmd : string) : step :=
  match non_empty kvm with Some host => Cmd (new host) cmd None | None => Run ["sh"; "-c"; cmd] end.

(** One command leaves one step, and its result says whether it succeeded. *)
Lemma conn_run_step cmd :
  emits (conn_run c cmd) (λ r es, transcript es = [(sh cmd, is_ok r)]
    ∧ (is_ok r = false → (∃ stderr, r = Err (VirshFailed cmd stderr)) ∨ ∃ t, r = Err (Ssh t))).
Proof.
  intros h. rewrite build_connection_routes. unfold sh. destruct (non_empty kvm) as [host|].
  - destruct (ssh_answer h (new host) cmd None) as [out|[]]; cbn; split; eauto; done.
  - set (r := local_answer h _). cbv zeta. unfold transcript. cbn [omap list_omap step_of fst snd].
    destruct r as [out|e]; cbn [local_ok fst snd]; [|split; eauto; done].
    destruct (success (status out)); split; eauto; done.
Qed.

Lemma scripted_conn_run cmd : scripted [Must (sh cmd)] (conn_run c cmd) (λ _, True).
Proof.
  eapply emits_conseq; [apply conn_run_step|]. intros r es [-> _]. split; [|done].
  destruct (is_ok r); repeat constructor.
Qed.

(** The same with a reading of the output that may fail. *)
Lemma scripted_verb {A} cmd (k : string → IO VirtError A) :
  (∀ s, scripted [] (k s) (λ _, True)) →
  scripted [Must (sh cmd)] (s ← conn_run c cmd; k s) (λ _, True).
Proof. intros Hk. eapply (scripted_step _ []); [apply scripted_conn_run|]. intros s _. apply Hk. Qed.

Lemma scripted_run_ cmd : scripted [Must (sh cmd)] (run_ c cmd) (λ _, True).
Proof. apply scripted_verb. intros s. by apply scripted_ret. Qed.

(** A command whose failure does not matter. *)
Lemma scripted_best_effort {A} cmd (k : string → IO VirtError A) :
  (∀ s, scripted [] (k s) (λ _, True)) →
  scripted [May (sh cmd)] (try (s ← conn_run c cmd; k s) : IO anyhow _) (λ _, True).
Proof.
  intros Hk. apply emits_lift. eapply emits_io_bind; [apply conn_run_step|..].
  - intros s e1 [H1 _]. eapply emits_conseq; [apply Hk|]. intros r e2 [H2 _]. split; [|done].
    rewrite transcript_app, H1. inversion H2; subst; repeat constructor.
  - intros e e1 [H1 _]. rewrite H1. split; [repeat constructor|done].
Qed.

Lemma scripted_try_conn_run cmd :
  scripted [May (sh cmd)] (try (conn_run c cmd) : IO anyhow _) (λ _, True).
Proof.
  apply emits_lift. eapply emits_conseq; [apply conn_run_step|]. intros r es [-> _].
  split; [repeat constructor|done].
Qed.

(** A command and its success. *)
Lemma leaves_conn_run cmd :
  leaves (conn_run c cmd) (λ r ts, ts = [(sh cmd, is_ok r)]
    ∧ (is_ok r = false → (∃ stderr, r = Err (VirshFailed cmd stderr)) ∨ ∃ t, r = Err (Ssh t))).
Proof. apply conn_run_step. Qed.

Lemma leaves_run_ cmd : leaves (run_ c cmd) (λ r ts, ts = [(sh cmd, is_ok r)]).
Proof.
  eapply leaves_bind; [apply leaves_conn_run|..].
  - intros s t1 [-> _]. by apply leaves_ret.
  - by intros e t1 [-> _].
Qed.

(** A best-effort command. *)
Lemma leaves_try_conn_run {E} cmd :
  leaves (try (conn_run c cmd) : IO E _) (λ r ts, ∃ r', r = Ok r' ∧ ts = [(sh cmd, is_ok r')]).
Proof.
  eapply leaves_conseq; [apply leaves_try, leaves_conn_run|].
  intros r ts (r' & -> & -> & _). by exists r'.
Qed.

Lemma leaves_path_exists path :
  leaves (remote_path_exists c path) (λ r ts, ∃ ok, ts = [(sh ("test -e " +:+ shell_quote path), ok)]
                                                  ∧ (r = Ok true → ok = true)).
Proof.
  intros h. unfold remote_path_exists, sh, build_connection, non_empty.
  destruct kvm as [host|]; [destruct (negb (is_empty host))|];
    cbn [conn_ssh vrun new_local local_client cli_ssh_bridge].
  1: { unfold ssh_run. destruct (ssh_answer _ _ _ _) as [out|[]]; cbn; eexists; (split; [done|]); try done;
       repeat case_match; done. }
  all: unfold local_run; set (r := local_answer h _); clearbody r;
    destruct r as [out|e]; [|by exists false];
    exists (success (status out)); (split; [by unfold transcript; cbn|]); cbn;
    destruct (success (status out)); [done|]; repeat case_match; done.
Qed.
End host.
