(* ===== verification/Host.v ===== *)
(** * The operator's machine: what the commands look up on it

    Questions whose answers change nothing: the file system, the environment,
    and programs that are run for their output only.  The answers may change
    with the history. *)

From S2P Require Import Prelude RustStr ConfigTypes SshOptions SshClient Effects.

Class Host : Type := {
  path_exists : history → string → bool;
  path_is_dir : history → string → bool;
  current_dir : history → result io_error string;
  env_var : string → option string;
  process_id : N;
  (** [git args] in a directory, [podman args] and [openssl passwd -6 text];
      [None]: the program cannot be run *)
  git_in : history → string → list string → option RunOutput;
  podman_query : history → list string → option RunOutput;
  openssl_passwd : history → string → option RunOutput;
}.

(** A machine without files where no program can be run. *)
Definition bare_host : Host := {|
  path_exists _ _ := false;
  path_is_dir _ _ := false;
  current_dir _ := Ok "/";
  env_var _ := None;
  process_id := 1;
  git_in _ _ _ := None;
  podman_query _ _ := None;
  openssl_passwd _ _ := None;
|}.

(** [Path::parent] of a path without empty components and without a slash at
    its end, other than the root. *)
Definition parent_dir (path : string) : option string :=
  match rsplit_once "/" path with
  | Some (EmptyString, EmptyString) => None
  | Some (EmptyString, _) => Some "/"
  | Some (dir, _) => Some dir
  | None => if is_empty path then None else Some EmptyString
  end.
