(* ===== verification/DeploySha.v ===== *)
(** * hbird deploy-cluster: SHA-256

    [sha256_hex] of [crates/hbird-cli/src/commands/deploy_cluster.rs], on 32-bit
    words as [N] with the wrap-around written out, and its equality with the
    standard (FIPS 180-4): padding by formula, message schedule by recurrence,
    constants from the roots of the first primes. *)

From Stdlib Require Import ZifyNat.
From S2P Require Import Prelude RustStr.

(** ** 32-bit words *)

Definition wrapping_add32 (a b : N) : N := ((a + b) mod 4294967296)%N.
Definition rotate_right (x k : N) : N :=
  N.lor (N.shiftr x k) (N.shiftl x (32 - k) mod 4294967296).
(** [!x] *)
Definition not32 (x : N) : N := N.lxor x U32_MAX.

(** [u32::from_be_bytes] and [u64::to_be_bytes] *)
Definition from_be_bytes (bs : list N) : N := foldl (λ acc b, acc * 256 + b)%N 0%N bs.
Fixpoint to_be_bytes (k : nat) (n : N) : list N :=
  match k with O => [] | S k' => to_be_bytes k' (n / 256) ++ [(n mod 256)%N] end.

(** The constants, eight hexadecimal digits a word. *)
Definition hex_value (a : ascii) : N :=
  if is_ascii_digit a then (byte_val a - 48)%N else (byte_val a - 87)%N.
Fixpoint hex_words (digits : nat) (acc : N) (s : string) : list N :=
  match s with
  | EmptyString => []
  | String a s' =>
      let acc := (acc * 16 + hex_value a)%N in
      match digits with
      | O => acc :: hex_words 7 0 s'
      | S d => hex_words d acc s'
      end
  end.
Definition K : list N := Eval vm_compute in hex_words 7 0
  ("428a2f9871374491b5c0fbcfe9b5dba53956c25b59f111f1923f82a4"
   +:+ "ab1c5ed5d807aa9812835b01243185be550c7dc372be5d7480deb1fe"
   +:+ "9bdc06a7c19bf174e49b69c1efbe47860fc19dc6240ca1cc2de92c6f"
   +:+ "4a7484aa5cb0a9dc76f988da983e5152a831c66db00327c8bf597fc7"
   +:+ "c6e00bf3d5a7914706ca63511429296727b70a852e1b21384d2c6dfc"
   +:+ "53380d13650a7354766a0abb81c2c92e92722c85a2bfe8a1a81a664b"
   +:+ "c24b8b70c76c51a3d192e819d6990624f40e3585106aa07019a4c116"
   +:+ "1e376c082748774c34b0bcb5391c0cb34ed8aa4a5b9cca4f682e6ff3"
   +:+ "748f82ee78a5636f84c878148cc7020890befffaa4506cebbef9a3f7"
   +:+ "c67178f2").
Definition H_INIT : list N := Eval vm_compute in hex_words 7 0
  "6a09e667bb67ae853c6ef372a54ff53a510e527f9b05688c1f83d9ab5be0cd19".

(** ** The code *)

(** [while msg.len() % 64 != 56 { msg.push(0); }] *)
Fixpoint push_zeros (fuel : nat) (msg : list N) : list N :=
  match fuel with
  | O => msg
  | S fuel => if (length msg mod 64 =? 56)%nat then msg else push_zeros fuel (msg ++ [0%N])
  end.

Definition padded (data : list N) : list N :=
  let bit_len := wrapping_mul64 (N.of_nat (length data)) 8 in
  push_zeros 64 (data ++ [128%N]) ++ to_be_bytes 8 bit_len.

(** [chunks_exact(n)] of a list whose length is a multiple of [n]. *)
Fixpoint chunks_exact (fuel n : nat) (l : list N) : list (list N) :=
  match fuel with
  | O => []
  | S fuel => if (length l <? n)%nat then [] else take n l :: chunks_exact fuel n (drop n l)
  end.
Definition words_of (chunk : list N) : list N :=
  from_be_bytes <$> chunks_exact (length chunk) 4 chunk.

Definition at_ (l : list N) (i : nat) : N := default 0%N (l !! i).

(** One round of the loop over [16..64]. *)
Definition extend (w : list N) (i : nat) : list N :=
  let w15 := at_ w (i - 15) in
  let w2 := at_ w (i - 2) in
  let s0 := N.lxor (N.lxor (rotate_right w15 7) (rotate_right w15 18)) (N.shiftr w15 3) in
  let s1 := N.lxor (N.lxor (rotate_right w2 17) (rotate_right w2 19)) (N.shiftr w2 10) in
  <[i := wrapping_add32 (wrapping_add32 (wrapping_add32 (at_ w (i - 16)) s0) (at_ w (i - 7))) s1]> w.
(** [w], which the code declares once: every chunk writes all of it. *)
Definition schedule (chunk : list N) : list N :=
  foldl extend (words_of chunk ++ replicate 48 0%N) (seq 16 48).

Record vars : Set := mkVars { va : N; vb : N; vc : N; vd : N; ve : N; vf : N; vg : N; vh : N }.

Definition round (w : list N) (v : vars) (i : nat) : vars :=
  let s1 := N.lxor (N.lxor (rotate_right (ve v) 6) (rotate_right (ve v) 11)) (rotate_right (ve v) 25) in
  let ch := N.lxor (N.land (ve v) (vf v)) (N.land (not32 (ve v)) (vg v)) in
  let t1 := wrapping_add32 (wrapping_add32 (wrapping_add32 (wrapping_add32 (vh v) s1) ch)
                              (at_ K i)) (at_ w i) in
  let s0 := N.lxor (N.lxor (rotate_right (va v) 2) (rotate_right (va v) 13)) (rotate_right (va v) 22) in
  let maj := N.lxor (N.lxor (N.land (va v) (vb v)) (N.land (va v) (vc v))) (N.land (vb v) (vc v)) in
  let t2 := wrapping_add32 s0 maj in
  mkVars (wrapping_add32 t1 t2) (va v) (vb v) (vc v) (wrapping_add32 (vd v) t1) (ve v) (vf v) (vg v).

Definition vars_of (h : list N) : vars :=
  mkVars (at_ h 0) (at_ h 1) (at_ h 2) (at_ h 3) (at_ h 4) (at_ h 5) (at_ h 6) (at_ h 7).
Definition list_of (v : vars) : list N := [va v; vb v; vc v; vd v; ve v; vf v; vg v; vh v].

Definition compress (h chunk : list N) : list N :=
  zip_with wrapping_add32 h (list_of (foldl (round (schedule chunk)) (vars_of h) (seq 0 64))).

(** [format!("{x:08x}")] *)
Fixpoint hex_of (k : nat) (n : N) : string :=
  match k with O => "" | S k' => hex_of k' (n / 16) +:+ chr (hex_digit (n mod 16)) end.

Fixpoint bytes_of (s : string) : list N :=
  match s with EmptyString => [] | String a s' => byte_val a :: bytes_of s' end.

Definition sha256_hex (data : string) : string :=
  let msg := padded (bytes_of data) in
  concat_str (hex_of 8 <$> foldl compress H_INIT (chunks_exact (length msg) 64 msg)).

(** Test vectors of the standard: one block, none, two. *)
Example sha256_abc :
  sha256_hex "abc" = "ba7816bf8f01cfea414140de5dae2223b00361a396177a9cb410ff61f20015ad".
Proof. vm_compute. reflexivity. Qed.
Example sha256_empty :
  sha256_hex "" = "e3b0c44298fc1c149afbf4c8996fb92427ae41e4649b934ca495991b7852b855".
Proof. vm_compute. reflexivity. Qed.
Example sha256_two_blocks :
  sha256_hex "abcdbcdecdefdefgefghfghighijhijkijkljklmklmnlmnomnopnopq"
  = "248d6a61d20638b8e5c026930c3e6039a33ce45964ff2167f6ecedd419db06c1".
Proof. vm_compute. reflexivity. Qed.

(** ** The standard *)

Definition is_prime (n : nat) : bool := forallb (λ d, negb (n mod d =? 0)%nat) (seq 2 (n - 2)).
Definition primes : list N := N.of_nat <$> filter (λ n, is_prime n = true) (seq 2 310).

(** The largest [r] below [2^bits] more than [acc] with [r^3 <= n]. *)
Fixpoint cube_root (bits : nat) (acc n : N) : N :=
  match bits with
  | O => acc
  | S b => let acc' := (acc + 2 ^ N.of_nat b)%N in
           cube_root b (if (acc' ^ 3 <=? n)%N then acc' else acc) n
  end.
(** The first 32 bits of the fractional part of a root. *)
Definition cube_root_bits (p : N) : N := (cube_root 40 0 (p * 2 ^ 96) mod 2 ^ 32)%N.
Definition square_root_bits (p : N) : N := (N.sqrt (p * 2 ^ 64) mod 2 ^ 32)%N.

(** A one bit, [k] zero bits with [k] least, and the length in bits. *)
Definition fips_padded (data : list N) : list N :=
  data ++ [128%N] ++ replicate ((119 - length data mod 64) mod 64) 0%N
  ++ to_be_bytes 8 (8 * N.of_nat (length data)).

Definition sigma0 (x : N) : N := N.lxor (N.lxor (rotate_right x 7) (rotate_right x 18)) (N.shiftr x 3).
Definition sigma1 (x : N) : N := N.lxor (N.lxor (rotate_right x 17) (rotate_right x 19)) (N.shiftr x 10).

(** The first [t] words of the message schedule of a block. *)
Fixpoint fips_schedule (block : list N) (t : nat) : list N :=
  match t with
  | O => []
  | S t =>
      let W := fips_schedule block t in
      W ++ [if (t <? 16)%nat then at_ block t
            else wrapping_add32 (wrapping_add32 (wrapping_add32 (at_ W (t - 16)) (sigma0 (at_ W (t - 15))))
                                   (at_ W (t - 7))) (sigma1 (at_ W (t - 2)))]
  end.

(** The compression with the constants [Ks]; a state is [(a, b, .., h)]. *)
Fixpoint fips_rounds (Ks W : list N) (v : vars) : vars :=
  match Ks, W with
  | k :: Ks, w :: W =>
      let 'mkVars a b c d e f g h := v in
      let S1 := N.lxor (N.lxor (rotate_right e 6) (rotate_right e 11)) (rotate_right e 25) in
      let S0 := N.lxor (N.lxor (rotate_right a 2) (rotate_right a 13)) (rotate_right a 22) in
      let Ch := N.lxor (N.land e f) (N.land (not32 e) g) in
      let Maj := N.lxor (N.lxor (N.land a b) (N.land a c)) (N.land b c) in
      let T1 := wrapping_add32 (wrapping_add32 (wrapping_add32 (wrapping_add32 h S1) Ch) k) w in
      let T2 := wrapping_add32 S0 Maj in
      fips_rounds Ks W (mkVars (wrapping_add32 T1 T2) a b c (wrapping_add32 d T1) e f g)
  | _, _ => v
  end.

(** The [i]-th word of 32 bits, the [i]-th block of 512 bits. *)
Definition fips_words (block : list N) : list N :=
  (λ i, from_be_bytes (take 4 (drop (4 * i) block))) <$> seq 0 16.
Definition fips_blocks (msg : list N) : list (list N) :=
  (λ i, take 64 (drop (64 * i) msg)) <$> seq 0 (length msg / 64).

Definition fips_block (h block : list N) : list N :=
  zip_with wrapping_add32 h
    (list_of (fips_rounds (cube_root_bits <$> primes) (fips_schedule (fips_words block) 64) (vars_of h))).

Definition fips_sha256 (data : list N) : list N :=
  foldl fips_block (square_root_bits <$> take 8 primes) (fips_blocks (fips_padded data)).

(** ** The code computes it *)

Lemma constants : K = cube_root_bits <$> primes ∧ H_INIT = square_root_bits <$> take 8 primes.
Proof. split; vm_compute; reflexivity. Qed.

Lemma to_be_bytes_mod k n : to_be_bytes k (n mod 256 ^ N.of_nat k) = to_be_bytes k n.
Proof.
  revert n. induction k as [|k IH]; intros n; [done|]. cbn [to_be_bytes].
  rewrite Nat2N.inj_succ, N.pow_succ_r'. f_equal.
  - rewrite <-(IH (n / 256)%N). f_equal. rewrite N.Div0.mod_mul_r, N.mul_comm.
    rewrite N.add_comm, N.div_add_l by done. rewrite (N.div_small (n mod 256)), N.add_0_r; [done|].
    by apply N.mod_lt.
  - f_equal. rewrite N.Div0.mod_mul_r, N.mul_comm, N.Div0.mod_add. apply N.Div0.mod_mod.
Qed.

Lemma push_zeros_spec fuel msg :
  ((120 - length msg mod 64) mod 64 < fuel)%nat →
  push_zeros fuel msg = msg ++ replicate ((120 - length msg mod 64) mod 64) 0%N.
Proof.
  revert msg. induction fuel as [|fuel IH]; intros msg Hf; [lia|]. cbn [push_zeros].
  assert (Hm : (length msg mod 64 < 64)%nat) by (apply Nat.mod_upper_bound; lia).
  destruct (Nat.eqb_spec (length msg mod 64) 56) as [E|E].
  - rewrite E. change ((120 - 56) mod 64)%nat with 0%nat. cbn. by rewrite app_nil_r.
  - assert (Hs : ((120 - length msg mod 64) mod 64
                  = S ((120 - length (msg ++ [0%N]) mod 64) mod 64))%nat).
    { rewrite length_app, Nat.add_1_r. cbn [length]. revert Hm E. generalize (length msg). intros n Hm E.
      zify. Z.to_euclidean_division_equations. lia. }
    rewrite IH by lia. rewrite <-app_assoc, Hs. done.
Qed.

Lemma padded_fips data : padded data = fips_padded data.
Proof.
  unfold padded, fips_padded. rewrite push_zeros_spec.
  - rewrite length_app, <-!app_assoc. cbn [length]. do 3 f_equal.
    + f_equal. generalize (length data). intros n. zify. Z.to_euclidean_division_equations. lia.
    + unfold wrapping_mul64. change (U64_MAX + 1)%N with (256 ^ N.of_nat 8)%N.
      by rewrite to_be_bytes_mod, N.mul_comm.
  - pose proof (Nat.mod_upper_bound (120 - length (data ++ [128%N]) mod 64) 64). lia.
Qed.

Lemma chunks_exact_blocks n k : ∀ fuel l,
  (0 < n)%nat → length l = (n * k)%nat → (k <= fuel)%nat →
  chunks_exact fuel n l = (λ i, take n (drop (n * i) l)) <$> seq 0 k.
Proof.
  induction k as [|k IH]; intros fuel l Hn Hl Hf.
  - destruct fuel; cbn [chunks_exact]; [done|]. by rewrite (proj2 (Nat.ltb_lt _ _)) by lia.
  - destruct fuel as [|fuel]; [lia|]. cbn [chunks_exact].
    rewrite (proj2 (Nat.ltb_ge _ _)) by lia. cbn [seq fmap list_fmap].
    rewrite Nat.mul_0_r, drop_0. f_equal. rewrite IH by (rewrite ?length_drop; lia).
    rewrite <-fmap_S_seq, <-list_fmap_compose. apply list_fmap_ext. intros _ i _. cbn.
    rewrite drop_drop. do 2 f_equal. lia.
Qed.

Lemma fips_padded_length data : ∃ k, length (fips_padded data) = (64 * k)%nat.
Proof.
  unfold fips_padded. rewrite !length_app, length_replicate. cbn [length].
  assert (length (to_be_bytes 8 (8 * N.of_nat (length data))) = 8%nat) as ->.
  { cbn [to_be_bytes]. by rewrite !length_app. }
  exists ((length data + (1 + ((119 - length data mod 64) mod 64 + 8))) / 64)%nat.
  generalize (length data). intros n. zify. Z.to_euclidean_division_equations. lia.
Qed.

Lemma words_fips chunk : length chunk = 64%nat → words_of chunk = fips_words chunk.
Proof.
  intros Hl. unfold words_of, fips_words. rewrite (chunks_exact_blocks 4 16) by lia.
  by rewrite <-list_fmap_compose.
Qed.

(** ** The message schedule *)

Lemma fips_schedule_length block t : length (fips_schedule block t) = t.
Proof. induction t as [|t IH]; [done|]. cbn [fips_schedule]. rewrite length_app, IH. cbn. lia. Qed.

Lemma fips_schedule_block block t :
  length block = 16%nat → (t <= 16)%nat → fips_schedule block t = take t block.
Proof.
  intros Hb. induction t as [|t IH]; intros Ht; [done|]. cbn [fips_schedule].
  rewrite (proj2 (Nat.ltb_lt t 16)), IH by lia. unfold at_.
  destruct (lookup_lt_is_Some_2 block t) as [x Hx]; [lia|]. rewrite Hx. cbn.
  by rewrite (take_S_r _ _ _ Hx).
Qed.

Lemma at_app_l (l k : list N) i : (i < length l)%nat → at_ (l ++ k) i = at_ l i.
Proof. intros H. unfold at_. by rewrite lookup_app_l. Qed.

Lemma extend_fips block t :
  (16 <= t)%nat → (t < 64)%nat →
  extend (fips_schedule block t ++ replicate (64 - t) 0%N) t
  = fips_schedule block (S t) ++ replicate (64 - S t) 0%N.
Proof.
  intros H1 H2. pose proof (fips_schedule_length block t) as Hl. unfold extend.
  rewrite !at_app_l by lia. cbn [fips_schedule]. rewrite (proj2 (Nat.ltb_ge t 16)) by done.
  rewrite insert_app_r_alt, Hl, Nat.sub_diag by lia.
  replace (64 - t)%nat with (S (64 - S t)) by lia. cbn [replicate].
  rewrite <-app_assoc. reflexivity.
Qed.

Lemma schedule_loop block n : ∀ t,
  (16 <= t)%nat → (t + n <= 64)%nat →
  foldl extend (fips_schedule block t ++ replicate (64 - t) 0%N) (seq t n)
  = fips_schedule block (t + n) ++ replicate (64 - (t + n)) 0%N.
Proof.
  induction n as [|n IH]; intros t H1 H2; [by rewrite Nat.add_0_r|].
  cbn [seq foldl]. rewrite extend_fips, IH by lia. by replace (S t + n)%nat with (t + S n)%nat by lia.
Qed.

Lemma schedule_fips chunk :
  length chunk = 64%nat → schedule chunk = fips_schedule (fips_words chunk) 64.
Proof.
  intros Hl. assert (H16 : length (fips_words chunk) = 16%nat)
    by (unfold fips_words; by rewrite length_fmap, length_seq).
  pose proof (schedule_loop (fips_words chunk) 48 16) as H. cbn [Nat.add] in H.
  unfold schedule. rewrite words_fips by done.
  rewrite (fips_schedule_block _ 16), (take_ge (fips_words chunk)) in H by lia.
  change (64 - 16)%nat with 48%nat in H. rewrite H by lia.
  change (64 - 64)%nat with 0%nat. by rewrite app_nil_r.
Qed.

(** ** The rounds *)

Lemma rounds_fips w Ks W : ∀ i v,
  K = take i K ++ Ks → w = take i w ++ W → length Ks = length W → (i <= length w)%nat →
  (i <= length K)%nat →
  foldl (round w) v (seq i (length Ks)) = fips_rounds Ks W v.
Proof.
  revert W. induction Ks as [|k Ks IH]; intros W i v HK Hw Hl Hi HiK; [done|].
  destruct W as [|x W]; [done|]. cbn [length seq foldl fips_rounds].
  assert (HKi : K !! i = Some k).
  { rewrite HK, lookup_app_r; rewrite length_take, Nat.min_l by done; [|done]. by rewrite Nat.sub_diag. }
  assert (Hwi : w !! i = Some x).
  { rewrite Hw, lookup_app_r; rewrite length_take, Nat.min_l by done; [|done]. by rewrite Nat.sub_diag. }
  destruct v as [a b c d e f g h]. rewrite (IH W (S i)).
  - unfold round at 1. cbn [va vb vc vd ve vf vg vh]. unfold at_. by rewrite HKi, Hwi.
  - rewrite (take_S_r _ _ _ HKi), <-app_assoc. exact HK.
  - rewrite (take_S_r _ _ _ Hwi), <-app_assoc. exact Hw.
  - by injection Hl.
  - apply lookup_lt_Some in Hwi. lia.
  - apply lookup_lt_Some in HKi. lia.
Qed.

Lemma compress_fips h chunk : length chunk = 64%nat → compress h chunk = fips_block h chunk.
Proof.
  intros Hl. unfold compress, fips_block. do 2 f_equal. rewrite <-(proj1 constants).
  rewrite schedule_fips by done.
  pose proof (fips_schedule_length (fips_words chunk) 64) as Hw. revert Hw.
  generalize (fips_schedule (fips_words chunk) 64), (vars_of h). clear. intros w v Hw.
  change (seq 0 64) with (seq 0 (length K)).
  apply rounds_fips; [done|done|by rewrite Hw|apply Nat.le_0_l|apply Nat.le_0_l].
Qed.

(** C33: [sha256_hex] is SHA-256: the hexadecimal form of the digest that the
    standard defines, for every text. *)
Theorem sha256_hex_fips data :
  sha256_hex data = concat_str (hex_of 8 <$> fips_sha256 (bytes_of data)).
Proof.
  unfold sha256_hex, fips_sha256. rewrite padded_fips. f_equal. f_equal.
  destruct (fips_padded_length (bytes_of data)) as [k Hk].
  set (msg := fips_padded (bytes_of data)) in *.
  rewrite (chunks_exact_blocks 64 k) by lia. unfold fips_blocks.
  rewrite <-(proj2 constants). replace (length msg / 64)%nat with k.
  2: { rewrite Hk. symmetry. rewrite Nat.mul_comm. by apply Nat.div_mul. }
  assert (Hb : Forall (λ b, length b = 64%nat) ((λ i, take 64 (drop (64 * i) msg)) <$> seq 0 k)).
  { apply Forall_fmap, Forall_forall. intros i Hi%elem_of_seq. cbn. rewrite length_take, length_drop. lia. }
  generalize H_INIT. induction Hb as [|b bs Hb _ IH]; intros h; [done|]. cbn [foldl].
  by rewrite compress_fips.
Qed.
