(* ===== verification/DeployPlan.v ===== *)
(** * hbird deploy-cluster: arguments and plan

    [DeployClusterArgs], [Plan::from_args] and the search for the repository in
    [crates/hbird-cli/src/commands/deploy_cluster.rs]. *)

From S2P Require Import Prelude RustStr ConfigTypes SshOptions SshClient Effects VirtConn Host.

Record DeployClusterArgs : Set := mkDeployClusterArgs {
  dc_config : string;
  dc_kvm_host : option string;
  dc_no_sudo : bool;
  dc_dry_run : bool;
  dc_bib : string;
  dc_podman_root : option string;
  dc_podman_runroot : option string;
  dc_storage_driver : option string;
  dc_force_rebuild : bool;
  dc_strict_cache : bool;
  dc_repo_root : option string;
  dc_cp_ready_retries : N;
  dc_cp_ready_sleep_secs : N;
  dc_token_ttl : string;
}.

(** The values taken from the config are those of [config]; the rest of the
    fields are the arguments. *)
Record Plan : Set := mkPlan {
  args : DeployClusterArgs;
  config : ClusterConfig;
  plan_workers : list string;
  plan_extra_network : option string;
  plan_repo_root : string;
}.

(** ** The repository *)

Section host.
Context `{Host}.

Definition path_has_repo_markers (h : history) (p : string) : bool :=
  path_exists h (path_join p "Makefile") && path_is_dir h (path_join p "containers").

(** The walk from the current directory; [fuel] is its number of components. *)
Fixpoint walk_up (fuel : nat) (h : history) (dir : string) : option string :=
  if path_has_repo_markers h dir then Some dir
  else
    match fuel, parent_dir dir with
    | S fuel, Some parent => walk_up fuel h parent
    | _, _ => None
    end.

Definition git_toplevel (h : history) : option string :=
  out ← git_in h "." ["rev-parse"; "--show-toplevel"];
  if success (status out) then
    let path := trim (stdout_lossy out) in
    if negb (is_empty path) && path_has_repo_markers h path then Some path else None
  else None.

Definition find_repo_root (h : history) : string :=
  match git_toplevel h with
  | Some p => p
  | None =>
      match current_dir h with
      | Ok cwd => default "." (walk_up (String.length cwd) h cwd)
      | Err _ => "."
      end
  end.

Definition no_repo_root (cwd : string) : string :=
  "IMAGE_SOURCE=local needs the hummingbird-k8s repo to run `make image-*`, but the repo root "
  +:+ "could not be located from the current directory (" +:+ cwd +:+ "). Either run hbird from "
  +:+ "inside a checkout, or pass --repo-root <path> (env: REPO_ROOT).".

(** [Plan::from_args] *)
Definition from_args (h : history) (a : DeployClusterArgs) (c : ClusterConfig) : result anyhow Plan :=
  repo_root ←
    match dc_repo_root a with
    | Some root => Ok root
    | None =>
        if bool_decide (image_source c = "local") then
          let root := find_repo_root h in
          if negb (path_has_repo_markers h root)
          then Err (anyhow_msg (no_repo_root (match current_dir h with Ok d => d | Err _ => "?" end)))
          else Ok root
        else Ok (match current_dir h with Ok d => d | Err _ => "." end)
    end;
  Ok (mkPlan a c (resolved_worker_names c) (non_empty (extra_network c)) repo_root).
End host.

(** The fields of the code's [Plan] that this one takes from its parts. *)
Definition dry_run (p : Plan) : bool := dc_dry_run (args p).
Definition strict_cache (p : Plan) : bool := dc_strict_cache (args p).
Definition plan_cp (p : Plan) : string := cp_name (config p).
Definition pool (p : Plan) : string := pool_dir (config p).

(** A control plane and one worker, with derived first MACs and a second
    network. *)
Definition example_deployment : Plan :=
  let c := mkClusterConfig "cp" "/k.pub" None "ghcr" "latest" 1 true false 4096 2 2048 2 "/pool"
             false None None None (Some ["w1"]) None None (Some "10.244.0.0/16")
             (Some "10.96.0.0/12") None None (Some "lan") (Some "52:54:00:AA:00:01")
             (Some "10.0.0.241/24") (Some ["52:54:00:aa:00:02"]) (Some ["10.0.0.242/24"]) [] in
  mkPlan (mkDeployClusterArgs "c.conf" None false false "bib" None None None false false None 3 1 "1h")
    c ["w1"] (Some "lan") ".".
