(* ===== verification/DeployNet.v ===== *)
(** * hbird deploy-cluster: the identity of the network interfaces

    MAC addresses (given or derived from the name), DHCP reservations, CIDR
    ranges and the checks of the second interface, from
    [crates/hbird-cli/src/commands/deploy_cluster.rs]. *)

From S2P Require Import Prelude RustStr ConfigTypes SshOptions SshClient Effects VirtUri VirtParse.
From S2P Require Import VirtConn Host DeploySha DeployPlan.

(** ** The primary interface *)

(** [&h\[a..b\]] *)
Definition slice (a b : nat) (s : string) : string := str_take (b - a) (str_drop a s).

Definition derive_primary_mac (name : string) : string :=
  let h := sha256_hex name in
  "52:54:00:" +:+ slice 0 2 h +:+ ":" +:+ slice 2 4 h +:+ ":" +:+ slice 4 6 h.

Definition is_ascii_hexdigit (a : ascii) : bool :=
  is_ascii_digit a || in_range 65 70 a || in_range 97 102 a.

Definition is_valid_mac (s : string) : bool :=
  let parts := split_char ":" s in
  (length parts =? 6)%nat
  && forallb (λ p, (String.length p =? 2)%nat && all_bytes is_ascii_hexdigit p) parts.

Record PrimaryMacs : Set := mkPrimaryMacs { cp_primary : string; worker_primaries : list string }.
#[export] Instance PrimaryMacs_eq_dec : EqDecision PrimaryMacs.
Proof. solve_decision. Defined.

(** [v.get(i)] of an optional list, when it is not empty. *)
Definition entry (v : option (list string)) (i : nat) : option string :=
  non_empty (v ≫= λ l, l !! i).

Definition malformed_worker_mac (i : nat) (mac : string) : string :=
  "WORKER_MACS[" +:+ show_nat i +:+ "] is malformed (need aa:bb:cc:dd:ee:ff): '" +:+ mac +:+ "'".
Definition mac_collision (w other mac : string) : string :=
  "primary-NIC MAC collision: " +:+ w +:+ " and " +:+ other +:+ " would both use " +:+ mac
  +:+ " — set CP_MAC/WORKER_MACS explicitly to break the tie".

(** The loop over the workers, from index [i]; [seen] maps the MACs so far, in
    lower case, to their owners. *)
Fixpoint resolve_workers (worker_macs : option (list string)) (i : nat) (names : list string)
    (seen : gmap string string) : result anyhow (list string) :=
  match names with
  | [] => Ok []
  | w :: names' =>
      let mac := default (derive_primary_mac w) (entry worker_macs i) in
      if negb (is_valid_mac mac) then Err (anyhow_msg (malformed_worker_mac i mac))
      else
        match seen !! to_ascii_lowercase mac with
        | Some other => Err (anyhow_msg (mac_collision w other mac))
        | None =>
            macs ← resolve_workers worker_macs (S i) names' (<[to_ascii_lowercase mac := w]> seen);
            Ok (mac :: macs)
        end
  end.

Definition resolve_primary_macs (cp_name : string) (cp_mac : option string)
    (worker_names : list string) (worker_macs : option (list string)) : result anyhow PrimaryMacs :=
  let cp := default (derive_primary_mac cp_name) (non_empty cp_mac) in
  if negb (is_valid_mac cp) then
    Err (anyhow_msg ("CP_MAC is malformed (need aa:bb:cc:dd:ee:ff): '" +:+ cp +:+ "'"))
  else
    workers ← resolve_workers worker_macs 0 worker_names {[ to_ascii_lowercase cp := cp_name ]};
    Ok (mkPrimaryMacs cp workers).

Definition worker_ip (p : Plan) (i : nat) : option string := entry (worker_ips (config p)) i.
Definition worker_mac_configured (p : Plan) (i : nat) : bool :=
  match entry (worker_macs (config p)) i with Some _ => true | None => false end.

Inductive ReservationCheck : Set := AlreadyPresent | IpTakenByOtherMac | Absent.
#[export] Instance ReservationCheck_eq_dec : EqDecision ReservationCheck.
Proof. solve_decision. Defined.

Definition classify_dhcp_reservation (net_xml mac ip : string) : ReservationCheck :=
  if contains ("mac='" +:+ to_ascii_lowercase mac +:+ "'") (to_ascii_lowercase net_xml)
  then AlreadyPresent
  else if contains ("ip='" +:+ ip +:+ "'") net_xml then IpTakenByOtherMac
  else Absent.

(** ** Address ranges *)

Definition is_decimal_in_range (s : string) (max : N) : bool :=
  if is_empty s || (3 <? String.length s)%nat || negb (all_bytes is_ascii_digit s) then false
  else if (1 <? String.length s)%nat && starts_with_char "0" s then false
  else match parse_uint U32_MAX s with Ok v => (v <=? max)%N | Err _ => false end.

Definition is_valid_cidr (s : string) : bool :=
  match split_once "/" s with
  | None => false
  | Some (addr, prefix) =>
      let octets := split_char "." addr in
      if negb (length octets =? 4)%nat || negb (forallb (λ o, is_decimal_in_range o 255) octets)
      then false
      else is_decimal_in_range prefix 32
  end.

(** [to_u32]: the loop over the parts, [n] of them read. *)
Fixpoint to_u32_go (out n : N) (parts : list string) : option N :=
  match parts with
  | [] => if (n =? 4)%N then Some out else None
  | part :: parts' =>
      match parse_uint 255 part with
      | Ok v => to_u32_go (N.lor (N.shiftl out 8 mod 4294967296) v) (n + 1) parts'
      | Err _ => None
      end
  end.
Definition to_u32 (a : string) : option N := to_u32_go 0 0 (split_char "." a).

Definition ip_in_cidr (addr cidr : string) : bool :=
  match split_once "/" cidr with
  | None => false
  | Some (base, prefix) =>
      match to_u32 addr, to_u32 base, parse_uint U32_MAX prefix with
      | Some a, Some c, Ok p =>
          if (p =? 0)%N then true
          else if (32 <? p)%N then false
          else
            let mask := (N.shiftl U32_MAX (32 - p) mod 4294967296)%N in
            (N.land a mask =? N.land c mask)%N
      | _, _, _ => false
      end
  end.

(** ** The second interface *)

Record Net2 : Set := mkNet2 { net2_network : string; net2_mac : string; net2_ip : string }.
#[export] Instance Net2_eq_dec : EqDecision Net2.
Proof. solve_decision. Defined.

Definition any_set (v : option (list string)) : bool :=
  match v with Some l => existsb (λ s, negb (is_empty s)) l | None => false end.
Definition is_set (o : option string) : bool :=
  match o with Some s => negb (is_empty s) | None => false end.

(** The first element that does not pass the check, with its index. *)
Fixpoint first_bad (f : string → bool) (i : nat) (l : list string) : option (nat * string) :=
  match l with
  | [] => None
  | x :: l' => if f x then first_bad f (S i) l' else Some (i, x)
  end.

(** [for m in .. { if !seen.insert(..) .. }] over the MACs. *)
Fixpoint check_macs (primary_by_mac : gmap string string) (seen : gset string) (l : list string)
    : result anyhow unit :=
  match l with
  | [] => Ok tt
  | m :: l' =>
      let mk := to_ascii_lowercase m in
      if bool_decide (mk ∈ seen) then
        Err (anyhow_msg ("duplicate MAC in the EXTRA_NET_* family: '" +:+ m
                         +:+ "' — every NIC needs a unique MAC"))
      else
        match primary_by_mac !! mk with
        | Some owner =>
            Err (anyhow_msg ("EXTRA_NET MAC '" +:+ m +:+ "' collides with the primary-NIC MAC of "
                             +:+ owner +:+ " — every NIC on the host needs a unique MAC"))
        | None => check_macs primary_by_mac ({[ mk ]} ∪ seen) l'
        end
  end.

(** [a.split('/').next()] *)
Definition bare_address (a : string) : string := default a (head (split_char "/" a)).

Fixpoint check_addresses (seen : gset string) (l : list string) : result anyhow unit :=
  match l with
  | [] => Ok tt
  | a :: l' =>
      let bare := bare_address a in
      if bool_decide (bare ∈ seen) then
        Err (anyhow_msg ("duplicate address in the EXTRA_NET_* family: '" +:+ bare
                         +:+ "' — every NIC needs a unique address"))
      else check_addresses ({[ bare ]} ∪ seen) l'
  end.

Definition range_error (bare range_name range : string) : string :=
  "EXTRA_NET address " +:+ bare +:+ " falls inside " +:+ range_name +:+ "=" +:+ range
  +:+ " — traffic to it would be swallowed by the cluster network. "
  +:+ "Pick ranges that overlap neither.".

Fixpoint check_ranges_of (bare : string) (ranges : list (string * option string))
    : result anyhow unit :=
  match ranges with
  | [] => Ok tt
  | (range_name, range) :: ranges' =>
      match non_empty range with
      | Some range =>
          if ip_in_cidr bare range then Err (anyhow_msg (range_error bare range_name range))
          else check_ranges_of bare ranges'
      | None => check_ranges_of bare ranges'
      end
  end.
Fixpoint check_ranges (ranges : list (string * option string)) (l : list string)
    : result anyhow unit :=
  match l with
  | [] => Ok tt
  | a :: l' => _ ← check_ranges_of (bare_address a) ranges; check_ranges ranges l'
  end.

(** The primary MACs in lower case and their owners. *)
Definition primary_map (cp_name : string) (names : list string) (m : PrimaryMacs) : gmap string string :=
  foldl (λ acc '(mac, w), <[to_ascii_lowercase mac := w]> acc)
    {[ to_ascii_lowercase (cp_primary m) := cp_name ]} (zip (worker_primaries m) names).

Definition parallel_msg (knob : string) (n k : nat) : string :=
  knob +:+ " has " +:+ show_nat n +:+ " entries but WORKER_NAMES has " +:+ show_nat k
  +:+ " — the arrays must be parallel".

Definition validate_extra_network (p : Plan) (primary_macs : PrimaryMacs)
    : result anyhow (option (Net2 * list Net2)) :=
  let c := config p in
  match non_empty (plan_extra_network p) with
  | None =>
      if is_set (extra_net_cp_mac c) || is_set (extra_net_cp_ip c)
         || any_set (extra_net_worker_macs c) || any_set (extra_net_worker_ips c)
      then Err (anyhow_msg ("EXTRA_NET_* values are set but EXTRA_NETWORK is empty — set "
                            +:+ "EXTRA_NETWORK=<libvirt network> or clear the family"))
      else Ok None
  | Some net =>
      let cp_mac := default "" (extra_net_cp_mac c) in
      let cp_ip := default "" (extra_net_cp_ip c) in
      let w_macs := default [] (extra_net_worker_macs c) in
      let w_ips := default [] (extra_net_worker_ips c) in
      let workers := length (plan_workers p) in
      if negb (is_valid_mac cp_mac) then
        Err (anyhow_msg ("EXTRA_NETWORK is set but EXTRA_NET_CP_MAC is missing/malformed (need "
                         +:+ "aa:bb:cc:dd:ee:ff): '" +:+ cp_mac +:+ "'"))
      else if negb (is_valid_cidr cp_ip) then
        Err (anyhow_msg ("EXTRA_NETWORK is set but EXTRA_NET_CP_IP is missing/malformed (need CIDR "
                         +:+ "like 10.0.0.241/24): '" +:+ cp_ip +:+ "'"))
      else if negb (length w_macs =? workers)%nat then
        Err (anyhow_msg (parallel_msg "EXTRA_NET_WORKER_MACS" (length w_macs) workers))
      else if negb (length w_ips =? workers)%nat then
        Err (anyhow_msg (parallel_msg "EXTRA_NET_WORKER_IPS" (length w_ips) workers))
      else
        match first_bad is_valid_mac 0 w_macs, first_bad is_valid_cidr 0 w_ips with
        | Some (i, m), _ =>
            Err (anyhow_msg ("EXTRA_NET_WORKER_MACS[" +:+ show_nat i +:+ "] malformed: '" +:+ m +:+ "'"))
        | None, Some (i, a) =>
            Err (anyhow_msg ("EXTRA_NET_WORKER_IPS[" +:+ show_nat i +:+ "] malformed: '" +:+ a +:+ "'"))
        | None, None =>
            _ ← check_macs (primary_map (plan_cp p) (plan_workers p) primary_macs) ∅ (cp_mac :: w_macs);
            _ ← check_addresses ∅ (cp_ip :: w_ips);
            _ ← check_ranges [("POD_CIDR", pod_cidr c); ("SERVICE_CIDR", service_cidr c)]
                  (cp_ip :: w_ips);
            Ok (Some (mkNet2 net cp_mac cp_ip,
                      zip_with (λ m a, mkNet2 net m a) w_macs w_ips))
        end
  end.

(** ** What the host says about a network *)

Definition net_info_reports_active (net_info : string) : bool :=
  match head (omap (strip_prefix "Active:") (lines net_info)) with
  | Some v => eq_ignore_ascii_case (trim v) "yes"
  | None => false
  end.

(** [s.matches(p).count()]: matches that do not overlap, from the left. *)
Fixpoint count_matches (fuel : nat) (p s : string) : nat :=
  match fuel with
  | O => 0
  | S fuel =>
      match s with
      | EmptyString => 0
      | String _ s' =>
          match strip_prefix p s with
          | Some rest => S (count_matches fuel p rest)
          | None => count_matches fuel p s'
          end
      end
  end.

Definition hostdev_vf_count (net_xml : string) : option nat :=
  if negb (contains "forward mode='hostdev'" net_xml) then None
  else Some (count_matches (String.length net_xml) "<address type='pci'" net_xml).
