(* ===== verification/DeployNetFacts.v ===== *)
(** * hbird deploy-cluster: what the interface checks guarantee

    Derived MACs are valid, an accepted deployment has distinct MACs and
    addresses on all interfaces, and the range checks are arithmetic on
    addresses. *)

From S2P Require Import Prelude RustStr ConfigTypes SshOptions SshClient Effects VirtUri VirtParse.
From S2P Require Import VirtConn Host DeploySha DeployPlan DeployNet.

(** ** Derived MACs *)

Lemma hex_digit_hex n : (n < 16)%N → is_ascii_hexdigit (hex_digit n) = true.
Proof.
  intros Hn. assert (Hc : forallb (λ k, is_ascii_hexdigit (hex_digit (N.of_nat k))) (seq 0 16) = true)
    by (vm_compute; reflexivity).
  rewrite forallb_elem in Hc. specialize (Hc (N.to_nat n)). cbv beta in Hc. rewrite N2Nat.id in Hc.
  apply Hc, elem_of_seq. lia.
Qed.

Lemma hex_of_hex k n :
  String.length (hex_of k n) = k ∧ all_bytes is_ascii_hexdigit (hex_of k n) = true.
Proof.
  revert n. induction k as [|k IH]; intros n; [done|]. cbn [hex_of].
  destruct (IH (n / 16)%N) as [Hl Hb]. rewrite string_length_app, all_bytes_app, Hl, Hb. cbn.
  rewrite hex_digit_hex by (apply N.mod_lt; done). split; [lia|done].
Qed.

Lemma concat_hex ws :
  String.length (concat_str (hex_of 8 <$> ws)) = (8 * length ws)%nat
  ∧ all_bytes is_ascii_hexdigit (concat_str (hex_of 8 <$> ws)) = true.
Proof.
  induction ws as [|w ws [Hl Hb]]; [done|]. cbn [fmap list_fmap concat_str length].
  destruct (hex_of_hex 8 w) as [Hl1 Hb1].
  rewrite string_length_app, all_bytes_app, Hl1, Hb1, Hb. split; [|done].
  change (concat_str (list_fmap _ _ (hex_of 8) ws)) with (concat_str (hex_of 8 <$> ws)).
  rewrite Hl. lia.
Qed.

Lemma compress_length h chunk : length h = 8%nat → length (compress h chunk) = 8%nat.
Proof. intros Hh. unfold compress. rewrite length_zip_with, Hh. done. Qed.

Lemma sha256_hex_hex s :
  String.length (sha256_hex s) = 64%nat ∧ all_bytes is_ascii_hexdigit (sha256_hex s) = true.
Proof.
  unfold sha256_hex.
  assert (Hl : ∀ chunks h, length h = 8%nat → length (foldl compress h chunks) = 8%nat).
  { induction chunks as [|c cs IH]; intros h Hh; [done|]. by apply IH, compress_length. }
  match goal with |- context [foldl compress H_INIT ?cs] =>
    destruct (concat_hex (foldl compress H_INIT cs)) as [H1 H2]; rewrite Hl in H1 by done end.
  done.
Qed.

Lemma str_take_drop_bytes f s : ∀ a n, all_bytes f s = true →
  all_bytes f (str_take n (str_drop a s)) = true.
Proof.
  induction s as [|c s IH]; intros a n; cbn [all_bytes]; [by destruct a, n|].
  intros [Hc Hs]%andb_true_iff. destruct a as [|a]; [|by apply IH].
  destruct n as [|n]; [done|]. cbn. rewrite Hc. specialize (IH 0%nat n Hs).
  by destruct s.
Qed.

Lemma str_take_drop_length s : ∀ a n, (a + n <= String.length s)%nat →
  String.length (str_take n (str_drop a s)) = n.
Proof.
  induction s as [|c s IH]; intros a n; cbn; [intros; destruct a, n; done || lia|].
  intros H. destruct a as [|a]; [|apply IH; cbn; lia]. destruct n as [|n]; [done|].
  cbn. f_equal. specialize (IH 0%nat n). cbn in IH. apply IH. lia.
Qed.

Definition hex_pair (p : string) : bool :=
  (String.length p =? 2)%nat && all_bytes is_ascii_hexdigit p.

Lemma slice_pair s a b :
  b = (a + 2)%nat → (b <= String.length s)%nat → all_bytes is_ascii_hexdigit s = true →
  hex_pair (slice a b s) = true.
Proof.
  intros -> Hl Hs. unfold hex_pair, slice. replace (a + 2 - a)%nat with 2%nat by lia.
  rewrite str_take_drop_length by done. by rewrite str_take_drop_bytes.
Qed.

Lemma hex_pair_no_colon p : hex_pair p = true → contains_char ":" p = false.
Proof.
  unfold hex_pair. intros [_ H]%andb_true_iff. by eapply all_bytes_not_contains; [|exact H].
Qed.

Lemma split_pair p s :
  hex_pair p = true → split_char ":" (p +:+ ":" +:+ s) = p :: split_char ":" s.
Proof. intros Hp. by apply (split_char_app ":" p s), hex_pair_no_colon. Qed.

(** A text made of six pairs. *)
Lemma mac_of_pairs a b c d e f :
  forallb hex_pair [a; b; c; d; e; f] = true →
  is_valid_mac (a +:+ ":" +:+ b +:+ ":" +:+ c +:+ ":" +:+ d +:+ ":" +:+ e +:+ ":" +:+ f) = true.
Proof.
  cbn [forallb]. rewrite !andb_true_iff. intros (Ha & Hb & Hc & Hd & He & Hf & _).
  unfold is_valid_mac. rewrite !split_pair by done.
  rewrite split_char_single by by apply hex_pair_no_colon.
  cbn [length Nat.eqb forallb andb]. unfold hex_pair in *. by rewrite Ha, Hb, Hc, Hd, He, Hf.
Qed.

Lemma derive_primary_mac_valid name : is_valid_mac (derive_primary_mac name) = true.
Proof.
  destruct (sha256_hex_hex name) as [Hl Hb].
  apply (mac_of_pairs "52" "54" "00"). cbn [forallb].
  rewrite !slice_pair by (done || rewrite Hl; lia). done.
Qed.

(** ** The primary MACs of a deployment *)

(** The MAC that a worker is to have. *)
Definition worker_mac (macs : option (list string)) (i : nat) (w : string) : string :=
  default (derive_primary_mac w) (entry macs i).
Fixpoint worker_macs_from (macs : option (list string)) (i : nat) (names : list string) : list string :=
  match names with
  | [] => []
  | w :: names' => worker_mac macs i w :: worker_macs_from macs (S i) names'
  end.
(** All of them, the control plane's first. *)
Definition wanted_macs (cp : string) (cp_mac : option string) (names : list string)
    (macs : option (list string)) : list string :=
  default (derive_primary_mac cp) (non_empty cp_mac) :: worker_macs_from macs 0 names.

Lemma resolve_workers_Ok macs names : ∀ i (seen : gmap string string) ws,
  resolve_workers macs i names seen = Ok ws ↔
  ws = worker_macs_from macs i names ∧ Forall (λ m, is_valid_mac m = true) ws
  ∧ NoDup (to_ascii_lowercase <$> ws) ∧ ∀ m, m ∈ ws → seen !! to_ascii_lowercase m = None.
Proof.
  induction names as [|w names IH]; intros i seen ws; cbn [resolve_workers worker_macs_from].
  { split; [intros [= <-]|by intros [-> _]]. split; [done|]. split; [constructor|].
    split; [constructor|by intros m ?%elem_of_nil]. }
  fold (worker_mac macs i w). set (mac := worker_mac macs i w).
  destruct (is_valid_mac mac) eqn:Hv; cbn [negb].
  2: { split; [done|]. intros (-> & [Hv' _]%Forall_cons & _). congruence. }
  destruct (seen !! to_ascii_lowercase mac) as [other|] eqn:Hs.
  { split; [done|]. intros (-> & _ & _ & H). rewrite (H mac) in Hs; [done|by left]. }
  rewrite bind_Ok. setoid_rewrite IH. split.
  - intros (ws' & (-> & HF & HN & Hm) & [= <-]). split; [done|]. split; [by constructor|].
    split.
    + cbn. constructor; [|done]. intros (m & Hl & Hin)%list_elem_of_fmap.
      specialize (Hm m Hin). rewrite <-Hl, lookup_insert_eq in Hm. done.
    + intros m [->|Hin]%elem_of_cons; [done|]. specialize (Hm m Hin).
      by apply lookup_insert_None in Hm as [? _].
  - intros (-> & [_ HF]%Forall_cons & HN & Hm). eexists. split; [|done]. split; [done|].
    split; [done|]. cbn in HN. apply NoDup_cons in HN as [Hni HN]. split; [done|].
    intros m Hin. apply lookup_insert_None. split; [apply Hm; by right|].
    intros E. apply Hni, list_elem_of_fmap. by exists m.
Qed.

(** A deployment's primary MACs are accepted exactly when every one of them,
    the configured one or else the one derived from the name, is well formed
    and no two are equal up to case; they are then used as they are. *)
Theorem resolve_primary_macs_Ok cp cp_mac names macs m :
  resolve_primary_macs cp cp_mac names macs = Ok m ↔
  let wanted := wanted_macs cp cp_mac names macs in
  cp_primary m :: worker_primaries m = wanted
  ∧ Forall (λ x, is_valid_mac x = true) wanted ∧ NoDup (to_ascii_lowercase <$> wanted).
Proof.
  unfold resolve_primary_macs, wanted_macs. cbv zeta.
  set (c := default (derive_primary_mac cp) (non_empty cp_mac)).
  destruct (is_valid_mac c) eqn:Hv; cbn [negb].
  2: { split; [done|]. intros (_ & [Hv' _]%Forall_cons & _). congruence. }
  rewrite bind_Ok. setoid_rewrite resolve_workers_Ok. split.
  - intros (ws & (-> & HF & HN & Hm) & [= <-]). cbn. split; [done|]. split; [by constructor|].
    constructor; [|done]. intros (x & Hl & Hin)%list_elem_of_fmap.
    specialize (Hm x Hin). rewrite <-Hl, lookup_singleton_eq in Hm. done.
  - destruct m as [c' ws']. cbn. intros ([= -> ->] & [_ HF]%Forall_cons & [Hni HN]%NoDup_cons).
    eexists. split; [|done]. split; [done|]. split; [done|]. split; [done|].
    intros x Hin. apply lookup_singleton_None. intros E. apply Hni, list_elem_of_fmap. by exists x.
Qed.

(** ** Address ranges *)

(** Every text of one to three digits, checked. *)
Definition decimal_ok (s : string) : bool :=
  (is_empty s || ((1 <? String.length s)%nat && starts_with_char "0" s))
  || match parse_uint U32_MAX s with
     | Ok n => bool_decide (show_N n = s) && (n <=? 999)%N
     | Err _ => false
     end.

Lemma decimal_ok_all :
  forallb (λ a, decimal_ok (chr a)
    && forallb (λ b, decimal_ok (String a (chr b))
      && forallb (λ c, decimal_ok (String a (String b (chr c)))) digits) digits) digits = true.
Proof. vm_compute. reflexivity. Qed.

Lemma decimal_ok_short s :
  (String.length s <= 3)%nat → all_bytes is_ascii_digit s = true → decimal_ok s = true.
Proof.
  pose proof decimal_ok_all as Hall. rewrite forallb_elem in Hall. intros Hlen Hd.
  destruct s as [|a [|b [|c [|d s]]]]; [done|..]; cbn [all_bytes] in Hd;
    rewrite ?andb_true_iff in Hd; [..|cbn in Hlen; lia];
    specialize (Hall a ltac:(apply digit_in_digits; tauto)); cbv beta in Hall;
    apply andb_true_iff in Hall as [Ha Hall]; [done|..];
    rewrite forallb_elem in Hall;
    specialize (Hall b ltac:(apply digit_in_digits; tauto)); cbv beta in Hall;
    apply andb_true_iff in Hall as [Hb Hall]; [done|].
  rewrite forallb_elem in Hall. apply Hall. apply digit_in_digits; tauto.
Qed.

(** The numerals up to 255 as they print. *)
Lemma show_N_short n : (n <= 255)%N →
  is_empty (show_N n) = false ∧ (String.length (show_N n) <= 3)%nat
  ∧ ((1 <? String.length (show_N n))%nat && starts_with_char "0" (show_N n)) = false.
Proof.
  intros Hn.
  assert (Hc : forallb (λ k, let s := show_N (N.of_nat k) in
      negb (is_empty s) && (String.length s <=? 3)%nat
      && negb ((1 <? String.length s)%nat && starts_with_char "0" s)) (seq 0 256) = true)
    by (vm_compute; reflexivity).
  rewrite forallb_elem in Hc. specialize (Hc (N.to_nat n)). cbv beta zeta in Hc.
  rewrite N2Nat.id in Hc. specialize (Hc ltac:(apply elem_of_seq; lia)).
  apply andb_true_iff in Hc as [[H1%negb_true_iff H2%Nat.leb_le]%andb_true_iff H3%negb_true_iff]. done.
Qed.

Lemma is_decimal_in_range_spec s max :
  (max <= 255)%N → is_decimal_in_range s max = true ↔ ∃ n, (n <= max)%N ∧ s = show_N n.
Proof.
  intros Hmax. unfold is_decimal_in_range. split.
  - destruct (is_empty s || _ || _) eqn:E; [done|].
    apply orb_false_iff in E as [[He Hlen%Nat.ltb_ge]%orb_false_iff Hd%negb_false_iff].
    destruct ((1 <? String.length s)%nat && starts_with_char "0" s) eqn:E0; [done|].
    pose proof (decimal_ok_short s Hlen Hd) as Hok. unfold decimal_ok in Hok.
    rewrite He, E0 in Hok. cbn [orb] in Hok.
    destruct (parse_uint U32_MAX s) as [n|]; [|done]. intros Hn%N.leb_le.
    apply andb_true_iff in Hok as [Hs%bool_decide_eq_true _]. by exists n.
  - intros (n & Hn & ->). destruct (show_N_short n) as (He & Hlen & H0); [lia|].
    rewrite He, (proj2 (Nat.ltb_ge _ _)), QemuSshUri.show_N_digits, H0 by done. cbn [orb negb].
    rewrite parse_show_N by (unfold U32_MAX; lia). by apply N.leb_le.
Qed.

Definition octets_ok (i : Ipv4) : Prop :=
  (oct_a i <= 255 ∧ oct_b i <= 255 ∧ oct_c i <= 255 ∧ oct_d i <= 255)%N.
(** The text of an address range. *)
Definition show_cidr (i : Ipv4) (p : N) : string := show_ipv4 i +:+ "/" +:+ show_N p.

Lemma show_N_no c n : is_ascii_digit c = false → contains_char c (show_N n) = false.
Proof. intros Hc. eapply all_bytes_not_contains; [exact Hc|apply QemuSshUri.show_N_digits]. Qed.

Lemma show_ipv4_no_slash i : contains_char "/" (show_ipv4 i) = false.
Proof. eapply all_bytes_not_contains; [|apply show_ipv4_bare]. done. Qed.

Lemma split_show_ipv4 i :
  split_char "." (show_ipv4 i) = [show_N (oct_a i); show_N (oct_b i); show_N (oct_c i); show_N (oct_d i)].
Proof.
  assert (E : ∀ n s, split_char "." (show_N n +:+ "." +:+ s) = show_N n :: split_char "." s)
    by (intros n s; by apply (split_char_app "."), show_N_no).
  unfold show_ipv4. by rewrite !E, split_char_single by by apply show_N_no.
Qed.

Lemma split_show_cidr i p : split_once "/" (show_cidr i p) = Some (show_ipv4 i, show_N p).
Proof. apply split_once_Some. split; [done|apply show_ipv4_no_slash]. Qed.

(** The ranges that are accepted are exactly the texts of an IPv4 address and
    a prefix length: four numbers up to 255 and one up to 32, in decimal without
    leading zeros. *)
Theorem is_valid_cidr_spec s :
  is_valid_cidr s = true ↔ ∃ i p, octets_ok i ∧ (p <= 32)%N ∧ s = show_cidr i p.
Proof.
  unfold is_valid_cidr. split.
  - destruct (split_once "/" s) as [[addr prefix]|] eqn:E; [|done].
    apply split_once_Some in E as [-> _].
    destruct (length (split_char "." addr) =? 4)%nat eqn:El; [|done]. cbn [negb orb].
    destruct (forallb _ _) eqn:Ef; [|done]. cbn [negb].
    intros (p & Hp & ->)%is_decimal_in_range_spec; [|done].
    rewrite <-(join_split_char "." addr).
    destruct (split_char "." addr) as [|a [|b [|c [|d [|]]]]]; try done.
    cbn [forallb] in Ef. rewrite !andb_true_iff in Ef. destruct Ef as (Ha & Hb & Hc & Hd & _).
    apply is_decimal_in_range_spec in Ha as (na & Ha & ->); [|done].
    apply is_decimal_in_range_spec in Hb as (nb & Hb & ->); [|done].
    apply is_decimal_in_range_spec in Hc as (nc & Hc & ->); [|done].
    apply is_decimal_in_range_spec in Hd as (nd & Hd & ->); [|done].
    exists (mkIpv4 na nb nc nd), p. done.
  - intros (i & p & (Ha & Hb & Hc & Hd) & Hp & ->). rewrite split_show_cidr, split_show_ipv4.
    cbn [length Nat.eqb negb orb forallb].
    rewrite !(proj2 (is_decimal_in_range_spec _ 255 ltac:(done))) by eauto.
    cbn [negb andb]. apply is_decimal_in_range_spec; [done|]. eauto.
Qed.

(** The number of an address. *)
Definition ipv4_value (i : Ipv4) : N :=
  (((oct_a i * 256 + oct_b i) * 256 + oct_c i) * 256 + oct_d i)%N.

Lemma lor_byte out v : (out < 16777216)%N → (v < 256)%N →
  N.lor (N.shiftl out 8 mod 4294967296) v = (out * 256 + v)%N.
Proof.
  intros Ho Hv. rewrite N.shiftl_mul_pow2. change (2 ^ 8)%N with 256%N.
  rewrite N.mod_small by lia. change 256%N with (2 ^ 8)%N at 1. rewrite <-N.shiftl_mul_pow2.
  rewrite <-N.lxor_lor, <-N.add_nocarry_lxor; [by rewrite N.shiftl_mul_pow2|..];
    apply N.bits_inj; intros k; rewrite N.land_spec, N.bits_0;
    (destruct (N.lt_ge_cases k 8); [by rewrite N.shiftl_spec_low|]);
    (destruct (N.eq_dec v 0) as [->|]; [by rewrite N.bits_0, andb_false_r|]);
    rewrite (N.bits_above_log2 v k), andb_false_r; [done| |done|];
    assert (N.log2 v < 8)%N by (apply N.log2_lt_pow2; [lia|]; change (2 ^ 8)%N with 256%N; lia); lia.
Qed.

Lemma to_u32_show i : octets_ok i → to_u32 (show_ipv4 i) = Some (ipv4_value i).
Proof.
  intros (Ha & Hb & Hc & Hd). unfold to_u32. rewrite split_show_ipv4. cbn [to_u32_go].
  rewrite !parse_show_N by done. cbn [N.add N.eqb Pos.eqb].
  rewrite (lor_byte 0), (lor_byte (0 * 256 + _)) by lia.
  rewrite (lor_byte ((0 * 256 + _) * 256 + _)), (lor_byte (((0 * 256 + _) * 256 + _) * 256 + _)) by lia.
  done.
Qed.

Lemma ipv4_value_bound i : octets_ok i → (ipv4_value i < 4294967296)%N.
Proof. unfold octets_ok, ipv4_value. lia. Qed.

(** Masking keeps the quotient. *)
Lemma land_mask a k : (a < 4294967296)%N → (k < 32)%N →
  N.land a (N.shiftl U32_MAX k mod 4294967296) = N.shiftl (N.shiftr a k) k.
Proof.
  intros Ha Hk. change 4294967296%N with (2 ^ 32)%N in *. change U32_MAX with (N.ones 32).
  apply N.bits_inj. intros j. rewrite N.land_spec.
  destruct (N.lt_ge_cases j k) as [Hj|Hj].
  { rewrite N.shiftl_spec_low by done. rewrite N.mod_pow2_bits_low by lia.
    by rewrite N.shiftl_spec_low, andb_false_r. }
  rewrite N.shiftl_spec_high' by done. rewrite N.shiftr_spec'. rewrite N.sub_add by done.
  destruct (N.lt_ge_cases j 32) as [H32|H32].
  - rewrite N.mod_pow2_bits_low by done. rewrite N.shiftl_spec_high' by done.
    rewrite N.ones_spec_low by lia. apply andb_true_r.
  - rewrite N.mod_pow2_bits_high by done. rewrite andb_false_r. symmetry.
    destruct (N.eq_dec a 0) as [->|]; [apply N.bits_0|]. apply N.bits_above_log2.
    apply N.lt_le_trans with 32%N; [|done]. apply N.log2_lt_pow2; [lia|done].
Qed.

(** An address is in a range when the two numbers agree in the first [p]
    bits, for every address, base and prefix length. *)
Theorem ip_in_cidr_spec i j p (Hi : octets_ok i) (Hj : octets_ok j) (Hp : (p <= 32)%N) :
  ip_in_cidr (show_ipv4 i) (show_cidr j p) = true ↔
  (ipv4_value i / 2 ^ (32 - p) = ipv4_value j / 2 ^ (32 - p))%N.
Proof.
  unfold ip_in_cidr. rewrite split_show_cidr, !to_u32_show by done.
  rewrite parse_show_N by (unfold U32_MAX; lia).
  pose proof (ipv4_value_bound i Hi) as Bi. pose proof (ipv4_value_bound j Hj) as Bj.
  destruct (N.eqb_spec p 0) as [->|Hp0].
  - rewrite !N.div_small by (change (2 ^ (32 - 0))%N with 4294967296%N; done). done.
  - rewrite (proj2 (N.ltb_ge 32 p)) by done. cbv zeta. rewrite !land_mask by (done || lia).
    rewrite N.eqb_eq, !N.shiftl_mul_pow2, !N.shiftr_div_pow2.
    rewrite N.mul_cancel_r by (by apply N.pow_nonzero). done.
Qed.

Lemma ip_in_cidr_spec_witness :
  let i := mkIpv4 10 244 3 7 in let j := mkIpv4 10 244 0 0 in
  octets_ok i ∧ octets_ok j ∧ (16 <= 32)%N
  ∧ (ip_in_cidr (show_ipv4 i) (show_cidr j 16) = true ↔
     (ipv4_value i / 2 ^ (32 - 16) = ipv4_value j / 2 ^ (32 - 16))%N).
Proof.
  intros i j. assert (Hi : octets_ok i) by (repeat split; vm_compute; discriminate).
  assert (Hj : octets_ok j) by (repeat split; vm_compute; discriminate).
  split; [exact Hi|]. split; [exact Hj|]. split; [vm_compute; discriminate|].
  apply (ip_in_cidr_spec i j 16 Hi Hj). vm_compute. discriminate.
Defined.

(** ** The second interfaces *)

Lemma first_bad_None f l : ∀ i, first_bad f i l = None ↔ Forall (λ x, f x = true) l.
Proof.
  induction l as [|x l IH]; intros i; cbn [first_bad]; [split; [constructor|done]|].
  destruct (f x) eqn:E; rewrite ?IH, Forall_cons; [tauto|]. split; [done|]. intros [? _]. congruence.
Qed.

Lemma check_macs_Ok owners l : ∀ seen,
  check_macs owners seen l = Ok tt ↔
  NoDup (to_ascii_lowercase <$> l)
  ∧ ∀ m, m ∈ l → (to_ascii_lowercase m ∉ seen) ∧ owners !! to_ascii_lowercase m = None.
Proof.
  induction l as [|m l IH]; intros seen; cbn [check_macs].
  { split; [intros _; split; [constructor|by intros m ?%elem_of_nil]|done]. }
  case_bool_decide as Hin.
  { split; [done|]. intros [_ H]. by destruct (H m ltac:(by left)). }
  destruct (owners !! to_ascii_lowercase m) as [w|] eqn:Ho.
  { split; [done|]. intros [_ H]. destruct (H m ltac:(by left)) as [_ H']. congruence. }
  rewrite IH. cbn [fmap list_fmap]. rewrite NoDup_cons. split.
  - intros [HN H]. split; [split; [|done]|].
    + intros (x & Hx & Hi)%list_elem_of_fmap. destruct (H x Hi) as [Hx' _]. rewrite <-Hx in Hx'. set_solver.
    + intros x [->|Hi]%elem_of_cons; [done|]. destruct (H x Hi). split; [set_solver|done].
  - intros [[Hni HN] H]. split; [done|]. intros x Hi. destruct (H x ltac:(by right)) as [H1 H2].
    split; [|done]. intros [E%elem_of_singleton|?]%elem_of_union; [|done].
    apply Hni, list_elem_of_fmap. by exists x.
Qed.

Lemma check_addresses_Ok l : ∀ seen,
  check_addresses seen l = Ok tt ↔
  NoDup (bare_address <$> l) ∧ ∀ a, a ∈ l → bare_address a ∉ seen.
Proof.
  induction l as [|a l IH]; intros seen; cbn [check_addresses].
  { split; [intros _; split; [constructor|by intros m ?%elem_of_nil]|done]. }
  case_bool_decide as Hin.
  { split; [done|]. intros [_ H]. by destruct (H a ltac:(by left)). }
  rewrite IH. cbn [fmap list_fmap]. rewrite NoDup_cons. split.
  - intros [HN H]. split; [split; [|done]|].
    + intros (x & Hx & Hi)%list_elem_of_fmap. specialize (H x Hi). rewrite <-Hx in H. set_solver.
    + intros x [->|Hi]%elem_of_cons; [done|]. specialize (H x Hi). set_solver.
  - intros [[Hni HN] H]. split; [done|]. intros x Hi [E%elem_of_singleton|?]%elem_of_union;
      [|by apply (H x ltac:(by right))].
    apply Hni, list_elem_of_fmap. by exists x.
Qed.

(** No address is in one of the ranges that are set. *)
Definition outside (ranges : list (string * option string)) (a : string) : Prop :=
  ∀ name range, (name, Some range) ∈ ranges → is_empty range = false → ip_in_cidr (bare_address a) range = false.

Lemma non_empty_value o s : non_empty o = Some s ↔ o = Some s ∧ is_empty s = false.
Proof.
  unfold non_empty. destruct o as [t|]; [|by split; [|intros [? _]]].
  destruct (is_empty t) eqn:E; cbn [negb]; split; try done.
  - intros [[= ->] H]. congruence.
  - by intros [= <-].
  - by intros [[= ->] _].
Qed.

Lemma check_ranges_of_Ok a ranges :
  check_ranges_of (bare_address a) ranges = Ok tt ↔ outside ranges a.
Proof.
  unfold outside. induction ranges as [|[name range] ranges IH]; cbn [check_ranges_of].
  { split; [|done]. intros _ name range ?%elem_of_nil. done. }
  destruct (non_empty range) as [r|] eqn:E.
  - apply non_empty_value in E as [-> He]. destruct (ip_in_cidr (bare_address a) r) eqn:Ei.
    + split; [done|]. intros H. by rewrite (H name r ltac:(by left) He) in Ei.
    + rewrite IH. split.
      * intros H n' r' [[= -> ->]|Hin]%elem_of_cons ?; [done|by eapply H].
      * intros H n' r' Hin ?. by eapply H; [right|].
  - rewrite IH. split.
    + intros H n' r' [[= -> <-]|Hin]%elem_of_cons Hr; [|by eapply H].
      unfold non_empty in E. by rewrite Hr in E.
    + intros H n' r' Hin ?. by eapply H; [right|].
Qed.

Lemma check_ranges_Ok ranges l : check_ranges ranges l = Ok tt ↔ Forall (outside ranges) l.
Proof.
  induction l as [|a l IH]; cbn [check_ranges]; [split; [constructor|done]|].
  rewrite Forall_cons, <-IH, <-check_ranges_of_Ok.
  destruct (check_ranges_of _ _) as [[]|]; cbn; naive_solver.
Qed.

Lemma primary_map_owner cp names m x :
  length (worker_primaries m) = length names →
  x ∈ cp_primary m :: worker_primaries m →
  is_Some (primary_map cp names m !! to_ascii_lowercase x).
Proof.
  intros Hl Hx. unfold primary_map. destruct m as [c ws]. cbn [cp_primary worker_primaries] in *.
  assert (H : to_ascii_lowercase x ∈ dom ({[to_ascii_lowercase c := cp]} : gmap string string) ∨ x ∈ ws).
  { apply elem_of_cons in Hx as [->|]; [left; set_solver|by right]. }
  clear Hx. revert names Hl H. generalize ({[to_ascii_lowercase c := cp]} : gmap string string).
  induction ws as [|w ws IH]; intros acc [|n names] Hl H; try done; cbn [zip zip_with foldl] in *.
  - destruct H as [H|H%elem_of_nil]; [|done]. by apply elem_of_dom in H.
  - apply IH; [by injection Hl|]. destruct H as [H|[->|H]%elem_of_cons]; [left|left|by right];
      rewrite dom_insert; set_solver.
Qed.

Lemma worker_macs_from_length macs i names : length (worker_macs_from macs i names) = length names.
Proof. revert i. induction names as [|w names IH]; intros i; cbn; auto. Qed.

Definition cluster_ranges (c : ClusterConfig) : list (string * option string) :=
  [("POD_CIDR", pod_cidr c); ("SERVICE_CIDR", service_cidr c)].

Lemma zip_net2 net ms ips : length ms = length ips →
  net2_mac <$> zip_with (λ m a, mkNet2 net m a) ms ips = ms
  ∧ net2_ip <$> zip_with (λ m a, mkNet2 net m a) ms ips = ips.
Proof.
  revert ips. induction ms as [|m ms IH]; intros [|a ips] Hl; try done.
  cbn. destruct (IH ips) as [-> ->]; [by injection Hl|done].
Qed.

Lemma validate_extra_network_Some p m cp ws :
  validate_extra_network p m = Ok (Some (cp, ws)) →
  let c := config p in
  let macs := net2_mac <$> cp :: ws in
  let ips := net2_ip <$> cp :: ws in
  Forall (λ n, Some (net2_network n) = plan_extra_network p) (cp :: ws)
  ∧ length ws = length (plan_workers p)
  ∧ Forall (λ x, is_valid_mac x = true) macs ∧ Forall (λ x, is_valid_cidr x = true) ips
  ∧ check_macs (primary_map (plan_cp p) (plan_workers p) m) ∅ macs = Ok tt
  ∧ check_addresses ∅ ips = Ok tt ∧ check_ranges (cluster_ranges c) ips = Ok tt.
Proof.
  unfold validate_extra_network. cbv zeta.
  destruct (non_empty (plan_extra_network p)) as [net|] eqn:Hn; [|by destruct (_ || _)].
  apply non_empty_value in Hn as [Hn _].
  set (cm := default "" (extra_net_cp_mac (config p))). set (ci := default "" (extra_net_cp_ip (config p))).
  set (wm := default [] (extra_net_worker_macs (config p))).
  set (wi := default [] (extra_net_worker_ips (config p))).
  destruct (is_valid_mac cm) eqn:Hm; [|done]. destruct (is_valid_cidr ci) eqn:Hc; [|done]. cbn [negb].
  destruct (Nat.eqb_spec (length wm) (length (plan_workers p))) as [Hlm|]; [|done]. cbn [negb].
  destruct (Nat.eqb_spec (length wi) (length (plan_workers p))) as [Hli|]; [|done]. cbn [negb].
  destruct (first_bad is_valid_mac 0 wm) as [[]|] eqn:Hfm; [done|].
  destruct (first_bad is_valid_cidr 0 wi) as [[]|] eqn:Hfi; [done|].
  apply first_bad_None in Hfm, Hfi.
  intros H. apply bind_Ok in H as ([] & H1 & H). apply bind_Ok in H as ([] & H2 & H).
  apply bind_Ok in H as ([] & H3 & H). injection H as <- <-.
  destruct (zip_net2 net wm wi) as [Em Ei]; [by rewrite Hlm, Hli|].
  rewrite !fmap_cons, Em, Ei. cbn [net2_mac net2_ip]. split.
  - constructor; [done|]. apply Forall_forall. intros n Hin.
    apply elem_of_lookup_zip_with in Hin as (i & x & y & -> & _). by rewrite Hn.
  - split; [rewrite length_zip_with; lia|]. split; [by constructor|]. split; [by constructor|]. done.
Qed.


