(* ===== verification/DeployText.v ===== *)
(** * hbird deploy-cluster: the texts it builds

    Shell commands, the cloud-init files and the image builder's configuration,
    from [crates/hbird-cli/src/commands/deploy_cluster.rs]: pure functions of
    the plan. *)

From S2P Require Import Prelude RustStr ConfigTypes SshOptions SshClient Effects VirtUri Shell.
From S2P Require Import VirtParse VirtConn Host DeployPlan.

(** ** Quoting *)

Definition is_unquoted_path (a : ascii) : bool :=
  is_ascii_alphanumeric a || bool_decide (a ∈ ["-"; "_"; "."; "/"; ":"]%char).

(** The loop over the characters is the one of [shell_quote]. *)
Definition sh_quote (s : string) : string :=
  if is_empty s then "''"
  else if all_bytes is_unquoted_path s then s
  else "'" +:+ quote_chars s +:+ "'".

(** ** Commands *)

Definition podman_storage_prefix (p : Plan) : string :=
  let opt flag o := match o with Some v => [flag +:+ " " +:+ sh_quote v] | None => [] end in
  let parts := opt "--storage-driver" (dc_storage_driver (args p))
               ++ opt "--root" (dc_podman_root (args p))
               ++ opt "--runroot" (dc_podman_runroot (args p)) in
  match parts with [] => "" | _ => join " " parts +:+ " " end.

Definition podman_pull_cmd (p : Plan) (image_ref : string) : string :=
  "podman " +:+ podman_storage_prefix p +:+ "pull " +:+ sh_quote image_ref.

Definition make_image_cmd (repo_root target : string) : string :=
  "ENABLE_CLOUD_INIT=1 make -C " +:+ sh_quote repo_root +:+ " " +:+ target.

Definition bib_run_cmd (p : Plan) (image_ref bib_config_path : string) : string :=
  let storage_src := default "/var/lib/containers/storage" (dc_podman_root (args p)) in
  "podman " +:+ podman_storage_prefix p +:+ "run --rm --privileged --pull=newer "
  +:+ "--security-opt label=type:unconfined_t"
  +:+ match dc_storage_driver (args p) with
      | Some d => " -e STORAGE_DRIVER=" +:+ sh_quote d
      | None => ""
      end
  +:+ " -v " +:+ sh_quote bib_config_path +:+ ":/config.toml:ro"
  +:+ " -v " +:+ sh_quote (pool p) +:+ ":/output"
  +:+ " -v " +:+ sh_quote storage_src +:+ ":/var/lib/containers/storage"
  +:+ " " +:+ sh_quote (dc_bib (args p))
  +:+ " --type qcow2 --rootfs ext4 --local " +:+ sh_quote image_ref.

Definition podman_inspect_vcs_ref_cmd (p : Plan) (image_ref : string) : string :=
  "podman " +:+ podman_storage_prefix p +:+ "image inspect --format '{{ index .Config.Labels "
  +:+ DQ +:+ "org.opencontainers.image.revision" +:+ DQ +:+ " }}' " +:+ sh_quote image_ref.

Definition git_diff_cmd (repo_root git_ref containerfile : string) : string :=
  "git -C " +:+ sh_quote repo_root +:+ " diff --quiet " +:+ sh_quote git_ref +:+ " -- "
  +:+ sh_quote containerfile.

Definition derive_privkey_path (pubkey_file : string) : string :=
  default pubkey_file (strip_suffix ".pub" pubkey_file).

Definition cp_ssh_cmd (privkey_path cp_ip remote_cmd : string) : string :=
  "ssh -i " +:+ sh_quote privkey_path
  +:+ " -o StrictHostKeyChecking=no -o UserKnownHostsFile=/dev/null root@" +:+ cp_ip +:+ " "
  +:+ sh_quote remote_cmd.

(** [(cp_ref, worker_ref)] *)
Definition GHCR_REGISTRY : string := "ghcr.io".
Definition FORGEJO_REGISTRY : string := "forgejo.atchison.io".
Definition image_refs (image_source tag : string) : option (string * string) :=
  if bool_decide (image_source = "ghcr") then
    Some (GHCR_REGISTRY +:+ "/aatchison/hummingbird-k8s:" +:+ tag,
          GHCR_REGISTRY +:+ "/aatchison/hummingbird-k8s-worker:" +:+ tag)
  else if bool_decide (image_source = "forgejo") then
    Some (FORGEJO_REGISTRY +:+ "/aatchison/hummingbird-k8s:" +:+ tag,
          FORGEJO_REGISTRY +:+ "/aatchison/hummingbird-k8s-worker:" +:+ tag)
  else if bool_decide (image_source = "local") then
    Some ("localhost/hummingbird-k8s:latest", "localhost/hummingbird-k8s-worker:latest")
  else None.

(** ** cloud-init *)

Definition net2_ipv6_off_runcmd (mac : string) : list string :=
  ["  - |";
   "    # Disable IPv6 on the second NIC (accept-ra/dhcp6 do not survive the NM renderer).";
   "    dev=$(ip -o link | awk -v m=" +:+ mac +:+ " 'tolower($0) ~ tolower(m) {gsub(/:/," +:+ DQ
     +:+ DQ +:+ ",$2); print $2; exit}')";
   "    [ -n " +:+ DQ +:+ "$dev" +:+ DQ +:+ " ] || { echo " +:+ DQ
     +:+ "hbird: no interface with MAC " +:+ mac +:+ DQ +:+ " >&2; exit 0; }";
   "    con=$(nmcli -g GENERAL.CONNECTION device show " +:+ DQ +:+ "$dev" +:+ DQ +:+ ")";
   "    [ -n " +:+ DQ +:+ "$con" +:+ DQ +:+ " ] || { echo " +:+ DQ
     +:+ "hbird: no NM connection on $dev" +:+ DQ +:+ " >&2; exit 0; }";
   "    nmcli connection modify " +:+ DQ +:+ "$con" +:+ DQ +:+ " ipv6.method disabled";
   "    nmcli connection up " +:+ DQ +:+ "$con" +:+ DQ +:+ " >/dev/null"].

Definition render_net2_network_config (mac ip : string) : string :=
  text_of [
    "version: 2"; "ethernets:"; "  primary:"; "    match:"; "      name: enp1s0";
    "    dhcp4: true"; "  net2:"; "    match:";
    "      macaddress: " +:+ DQ +:+ mac +:+ DQ;
    "    dhcp4: false"; "    dhcp6: false"; "    accept-ra: false"; "    addresses:";
    "      - " +:+ DQ +:+ ip +:+ DQ].

Record CpOverrides : Set := mkCpOverrides {
  ov_update_schedule : option string;
  ov_update_repo_k8s : option string;
  ov_pod_cidr : option string;
  ov_service_cidr : option string;
  ov_net2_mac : option string;
}.

(** One file of [write_files]. *)
Definition file_entry (path permissions : string) (content : list string) : list string :=
  ["  - path: " +:+ path; "    owner: root:root"; "    permissions: '" +:+ permissions +:+ "'";
   "    content: |"] ++ content.
Definition schedule_file (schedule : option string) : list string :=
  match schedule with
  | Some s => file_entry "/etc/systemd/system/bootc-semver-update.timer.d/schedule.conf" "0644"
                ["      [Timer]"; "      OnCalendar="; "      OnCalendar=" +:+ s]
  | None => []
  end.
Definition repo_file (repo : option string) : list string :=
  match repo with
  | Some r => file_entry "/etc/hummingbird/bootc-update.env" "0644"
                ["      REPO=" +:+ r; "      PREFIX=v"]
  | None => []
  end.
Definition setting (name : string) (v : option string) : list string :=
  match v with Some v => ["      " +:+ name +:+ "=" +:+ v] | None => [] end.

Definition user_data_head (name pubkey_contents : string) : list string :=
  ["#cloud-config"; "hostname: " +:+ name; "disable_root: false"; "users:"; "  - name: root";
   "    ssh_authorized_keys:"; "      - " +:+ pubkey_contents].

Definition is_some (o : option string) : bool := match o with Some _ => true | None => false end.
(** The lines [l] when [b] holds. *)
Definition when (b : bool) (l : list string) : list string := if b then l else [].
Definition net2_off (mac : option string) : list string :=
  match mac with Some m => net2_ipv6_off_runcmd m | None => [] end.
Definition restart_timer : list string :=
  ["  - [ systemctl, daemon-reload ]"; "  - [ systemctl, restart, bootc-semver-update.timer ]"].

Definition cp_user_data (cp_name pubkey_contents : string) (switch_to_ghcr : bool) (ghcr_tag : string)
    (auto_update_cp : bool) (o : CpOverrides) : list string :=
  let schedule := non_empty (ov_update_schedule o) in
  let repo := non_empty (ov_update_repo_k8s o) in
  let pod := non_empty (ov_pod_cidr o) in
  let svc := non_empty (ov_service_cidr o) in
  user_data_head cp_name pubkey_contents
  ++ when (is_some schedule || is_some repo || is_some pod || is_some svc)
       (["write_files:"] ++ schedule_file schedule ++ repo_file repo
        ++ when (is_some pod || is_some svc)
             (file_entry "/etc/hummingbird/k8s-init-local.env" "0600"
                (setting "POD_CIDR" pod ++ setting "SERVICE_CIDR" svc)))
  ++ ["runcmd:"]
  ++ net2_off (non_empty (ov_net2_mac o))
  ++ when switch_to_ghcr
       ["  - [ bootc, switch, ghcr.io/aatchison/hummingbird-k8s:" +:+ ghcr_tag +:+ " ]"]
  ++ (if auto_update_cp
      then ["  - [ systemctl, enable, --now, bootc-semver-update.timer ]";
            "  - [ systemctl, disable, --now, bootc-fetch-apply-updates.timer ]"]
      else ["  - [ systemctl, disable, --now, bootc-semver-update.timer ]"])
  ++ when (auto_update_cp && is_some schedule) restart_timer.
Definition render_cp_user_data (cp_name pubkey_contents : string) (switch_to_ghcr : bool)
    (ghcr_tag : string) (auto_update_cp : bool) (o : CpOverrides) : string :=
  text_of (cp_user_data cp_name pubkey_contents switch_to_ghcr ghcr_tag auto_update_cp o).

Record WorkerOverrides : Set := mkWorkerOverrides {
  wo_update_schedule : option string;
  wo_update_repo_worker : option string;
  wo_net2_mac : option string;
}.

Definition worker_user_data (worker_name pubkey_contents join_cmd : string) (switch_to_ghcr : bool)
    (ghcr_tag : string) (o : WorkerOverrides) : list string :=
  let schedule := non_empty (wo_update_schedule o) in
  let repo := non_empty (wo_update_repo_worker o) in
  let mac := non_empty (wo_net2_mac o) in
  user_data_head worker_name pubkey_contents
  ++ ["write_files:"]
  ++ file_entry "/etc/hummingbird/worker-join.env" "0600" ["      " +:+ join_cmd]
  ++ schedule_file schedule ++ repo_file repo
  ++ when (switch_to_ghcr || is_some schedule || is_some mac)
       (["runcmd:"] ++ net2_off mac
        ++ when switch_to_ghcr
             ["  - [ bootc, switch, ghcr.io/aatchison/hummingbird-k8s-worker:" +:+ ghcr_tag +:+ " ]"]
        ++ when (is_some schedule) restart_timer).
Definition render_worker_user_data (worker_name pubkey_contents join_cmd : string)
    (switch_to_ghcr : bool) (ghcr_tag : string) (o : WorkerOverrides) : string :=
  text_of (worker_user_data worker_name pubkey_contents join_cmd switch_to_ghcr ghcr_tag o).

(** The seed's builder, for one of the ISO tools. *)
Definition iso_tool (tool iso_q nc_isofile : string) : string :=
  tool +:+ " -output " +:+ iso_q +:+ " -volid cidata -joliet -rock " +:+ DQ +:+ "$_tmp/user-data"
  +:+ DQ +:+ " " +:+ DQ +:+ "$_tmp/meta-data" +:+ DQ +:+ nc_isofile +:+ " >/dev/null 2>&1; ".

Definition cloud_init_seed_cmd (hostname ud_tmp out_iso : string) (net_cfg_tmp : option string)
    : string :=
  let hostname_q := sh_quote hostname in
  let ud_q := sh_quote ud_tmp in
  let iso_q := sh_quote out_iso in
  let network_config := DQ +:+ "$_tmp/network-config" +:+ DQ in
  let '(stage_nc, nc_localds, nc_isofile, rm_nc) :=
    match net_cfg_tmp with
    | Some nc => ("cp " +:+ sh_quote nc +:+ " " +:+ network_config +:+ "; ",
                  " --network-config " +:+ network_config, " " +:+ network_config,
                  "; rm -f -- " +:+ sh_quote nc)
    | None => ("", "", "", "")
    end in
  "set -euo pipefail; _tmp=$(mktemp -d -t hbird-ci-XXXXXX); "
  +:+ "cp " +:+ ud_q +:+ " " +:+ DQ +:+ "$_tmp/user-data" +:+ DQ +:+ "; "
  +:+ stage_nc +:+ "printf 'instance-id: hbird-%s-%s\nlocal-hostname: %s\n' "
  +:+ DQ +:+ "$(date +%s)" +:+ DQ +:+ " " +:+ DQ +:+ "$$" +:+ DQ +:+ " " +:+ hostname_q
  +:+ " > " +:+ DQ +:+ "$_tmp/meta-data" +:+ DQ +:+ "; "
  +:+ "if command -v cloud-localds >/dev/null 2>&1; then "
  +:+ "cloud-localds" +:+ nc_localds +:+ " " +:+ iso_q +:+ " " +:+ DQ +:+ "$_tmp/user-data" +:+ DQ
  +:+ " " +:+ DQ +:+ "$_tmp/meta-data" +:+ DQ +:+ "; "
  +:+ "elif command -v genisoimage >/dev/null 2>&1; then " +:+ iso_tool "genisoimage" iso_q nc_isofile
  +:+ "elif command -v mkisofs >/dev/null 2>&1; then " +:+ iso_tool "mkisofs" iso_q nc_isofile
  +:+ "elif command -v xorrisofs >/dev/null 2>&1; then " +:+ iso_tool "xorrisofs" iso_q nc_isofile
  +:+ "else echo 'build_cloud_init_seed: need cloud-localds / genisoimage / mkisofs / xorrisofs' "
  +:+ ">&2; exit 1; fi; rm -rf -- " +:+ DQ +:+ "$_tmp" +:+ DQ +:+ "; rm -f -- " +:+ ud_q +:+ rm_nc.

(** [cat > tmp << 'EOF'] with the content and the end mark. *)
Definition heredoc (target mark content : string) : string :=
  "cat > " +:+ target +:+ " << '" +:+ mark +:+ "'" +:+ NL +:+ content +:+ NL +:+ mark.

(** ** The image builder's configuration *)

(** [s.replace('\\', "\\\\").replace('"', "\\\"")] *)
Fixpoint toml_escape (s : string) : string :=
  match s with
  | EmptyString => ""
  | String a s' =>
      if Ascii.eqb a backslash || Ascii.eqb a dquote then String backslash (String a (toml_escape s'))
      else String a (toml_escape s')
  end.

Definition groups_line (groups : option string) (user_name : string) : string :=
  match groups with
  | Some groups =>
      if bool_decide (user_name = "root") then ""
      else
        match filter (λ s, negb (is_empty s)) (trim <$> split_char "," groups) with
        | [] => ""
        | items => "groups = [" +:+ join ", " ((λ s, DQ +:+ toml_escape s +:+ DQ) <$> items) +:+ "]"
        end
  | None => ""
  end.

Section host.
Context `{Host}.

Definition password_line (h : history) (password : option string) : string :=
  match password with
  | Some pw =>
      if is_empty pw then ""
      else
        match openssl_passwd h (trim pw) with
        | Some out =>
            if success (status out) then
              let pwd_str := trim (stdout_lossy out) in
              if is_empty pwd_str then "" else "password = " +:+ DQ +:+ pwd_str +:+ DQ
            else ""
        | None => ""
        end
  | None => ""
  end.

Definition TQ : string := DQ +:+ DQ +:+ DQ.
Definition root_section (enable_root_ssh pubkey_contents : string) : string :=
  if bool_decide (enable_root_ssh = "0") then ""
  else NL +:+ "[[customizations.user]]" +:+ NL +:+ "name = " +:+ DQ +:+ "root" +:+ DQ +:+ NL
       +:+ "key = " +:+ TQ +:+ trim pubkey_contents +:+ TQ.

Definition bib_config (user_name pubkey_contents groups_str password_str root_section : string)
    : string :=
  "[[customizations.user]]" +:+ NL +:+ "name = " +:+ DQ +:+ user_name +:+ DQ +:+ NL
  +:+ "key = " +:+ TQ +:+ pubkey_contents +:+ TQ +:+ NL +:+ groups_str +:+ NL
  +:+ password_str +:+ root_section.

Definition render_bib_config (h : history) (pubkey_contents : string) : string :=
  let user_name := default "core" (env_var "VM_USER") in
  let groups_str := groups_line (env_var "VM_USER_GROUPS") user_name in
  let password_str := password_line h (env_var "VM_PASSWORD") in
  let enable_root_ssh := default "1" (env_var "ENABLE_ROOT_SSH") in
  bib_config user_name pubkey_contents groups_str password_str
    (root_section enable_root_ssh pubkey_contents).

Definition render_bib_config_with (h : history) (pubkey_contents user_name : string)
    (groups password : option string) (enable_root_ssh : string) : string :=
  bib_config user_name pubkey_contents (groups_line groups user_name) (password_line h password)
    (root_section enable_root_ssh pubkey_contents).
End host.
