(* ===== verification/Deploy.v ===== *)
(** * hbird deploy-cluster: the steps and the run

    The [plan_*] functions, their helpers and [run] of
    [crates/hbird-cli/src/commands/deploy_cluster.rs].  Every step has a branch
    for [--dry-run] that only prints.  An error of [hbird-virt] inside an
    [anyhow] error is represented by its text. *)

From S2P Require Import Prelude RustStr ConfigTypes ConfigLexer ConfigBuild SshOptions SshClient.
From S2P Require Import Effects VirtUri Shell VirtParse VirtConn Cp Cache Host.
From S2P Require Import DeployPlan DeployNet DeployText.

Definition log (line : string) : IO anyhow unit := lift (println ("[deploy-cluster] " +:+ line)).

(** [impl Display for Warning] *)
Definition show_config_warning (w : Warning) : string :=
  let 'UnknownKey key line_no := w in
  "unknown key " +:+ debug_str key +:+ " at line " +:+ show_nat line_no +:+ " (ignored)".

(** [plan.cp_ready_retries * plan.cp_ready_sleep_secs as u32], which wraps in
    the release profile. *)
Definition max_wait_secs (p : Plan) : N :=
  ((dc_cp_ready_retries (args p) * (dc_cp_ready_sleep_secs (args p) mod 4294967296))
   mod 4294967296)%N.
Definition retries (p : Plan) : nat := N.to_nat (dc_cp_ready_retries (args p)).
Definition sleep_secs (p : Plan) : N := dc_cp_ready_sleep_secs (args p).

(** [poll::retry] with a closure that keeps what it found in a cell. *)
Fixpoint retry_find {E A} (left : nat) (sleep_secs : N) (f : IO E (option A)) : IO E (option A) :=
  match left with
  | O => mret None
  | S left' =>
      r ← f;
      match r with
      | Some x => mret (Some x)
      | None =>
          _ ← (if (0 <? left')%nat && (0 <? sleep_secs)%N
               then lift (sleep (from_secs sleep_secs)) else mret tt);
          retry_find left' sleep_secs f
      end
  end.

Section deploy.
Context `{W : World} `{Hst : Host} (c : Connection) (p : Plan).

(** [conn.exec_shell(cmd).map_err(|e| anyhow!("{what}: {e}"))] *)
Definition or_fail {A} (what : string) (m : IO VirtError A) : IO anyhow A :=
  io_map_err (λ e, anyhow_msg (what +:+ ": " +:+ show_virt_error e)) m.
(** [let _ = m;] *)
Definition best_effort {A} (m : IO VirtError A) : IO anyhow unit := _ ← try m; mret tt.

(** ** Images *)

Definition source : string := image_source (config p).
Definition from_registry : bool :=
  bool_decide (source = "ghcr") || bool_decide (source = "forgejo").

(** The first match of [plan_image_acquisition]. *)
Definition acquisition_refs : result anyhow (string * string) :=
  let tag := ghcr_tag (config p) in
  if bool_decide (source = "ghcr") then
    Ok (GHCR_REGISTRY +:+ "/aatchison/hummingbird-k8s:" +:+ tag,
        GHCR_REGISTRY +:+ "/aatchison/hummingbird-k8s-worker:" +:+ tag)
  else if bool_decide (source = "forgejo") then
    Ok (FORGEJO_REGISTRY +:+ "/aatchison/hummingbird-k8s:" +:+ tag,
        FORGEJO_REGISTRY +:+ "/aatchison/hummingbird-k8s-worker:" +:+ tag)
  else if bool_decide (source = "local") then
    Ok ("localhost/hummingbird-k8s:latest", "localhost/hummingbird-k8s-worker:latest")
  else Err (anyhow_msg ("IMAGE_SOURCE must be 'ghcr', 'forgejo', or 'local' (got '" +:+ source
                        +:+ "')")).

(** One round of the loop over the pulled images. *)
Definition check_freshness (image label containerfile : string) : IO anyhow unit :=
  vcs ← ask (λ h, default "" (image_vcs_ref (podman_query h) image));
  freshness ← ask (λ h,
    if is_empty vcs then Unverifiable
    else containerfile_changed_since (git_in h (plan_repo_root p)) vcs [containerfile]);
  match assess_ghcr_image freshness label vcs containerfile (strict_cache p) with
  | Fresh => mret tt
  | Warn msg => log msg
  | GhcrStrictFail msg => bail msg
  end.

Definition CP_CONTAINERFILE : string := "containers/k8s/Containerfile".
Definition WORKER_CONTAINERFILE : string := "containers/k8s-worker/Containerfile".
Definition CP_TARGET : string := "image-k8s-with-cloud-init".
Definition WORKER_TARGET : string := "image-worker-with-cloud-init".

Definition plan_image_acquisition : IO anyhow (string * string) :=
  refs ← of_result acquisition_refs;
  let '(cp_ref, worker_ref) := refs in
  if dry_run p then
    _ ← (if from_registry then
           _ ← log ("DRY-RUN would podman pull " +:+ cp_ref);
           log ("DRY-RUN would podman pull " +:+ worker_ref)
         else
           _ ← log ("DRY-RUN would build local image " +:+ cp_ref +:+ " via 'make " +:+ CP_TARGET
                    +:+ "'");
           log ("DRY-RUN would build local image " +:+ worker_ref +:+ " via 'make "
                +:+ WORKER_TARGET +:+ "'"));
    mret (cp_ref, worker_ref)
  else
    _ ← (if from_registry then
           _ ← or_fail ("podman pull " +:+ cp_ref +:+ " failed")
                 (exec_shell c (podman_pull_cmd p cp_ref));
           _ ← or_fail ("podman pull " +:+ worker_ref +:+ " failed")
                 (exec_shell c (podman_pull_cmd p worker_ref));
           _ ← check_freshness cp_ref "CP image" CP_CONTAINERFILE;
           check_freshness worker_ref "worker image" WORKER_CONTAINERFILE
         else
           _ ← or_fail ("make " +:+ CP_TARGET +:+ " failed")
                 (exec_shell c (make_image_cmd (plan_repo_root p) CP_TARGET));
           _ ← or_fail ("make " +:+ WORKER_TARGET +:+ " failed")
                 (exec_shell c (make_image_cmd (plan_repo_root p) WORKER_TARGET));
           mret tt);
    mret (cp_ref, worker_ref).

(** ** Templates *)

Definition compute_expected_build_id (image_ref : string) : IO anyhow (option string) :=
  if from_registry then
    r ← try (exec_shell c (podman_inspect_vcs_ref_cmd p image_ref));
    mret match (r : result VirtError string) with
         | Ok out => build_id source (trim out)
         | Err _ => None
         end
  else if bool_decide (source = "local") then
    let cf_path := path_join (plan_repo_root p)
                     (if contains "worker" image_ref then WORKER_CONTAINERFILE else CP_CONTAINERFILE) in
    ask (λ h, containerfile_hash (λ path, match file_answer h path with
                                          | Ok contents => Some contents
                                          | Err _ => None
                                          end) cf_path ≫= build_id "local")
  else mret None.

(** [cache::read_sidecar] on this machine's files. *)
Definition read_local_sidecar (qcow : string) : IO anyhow (option string) :=
  r ← try (read_to_string (sidecar_path qcow));
  mret match (r : result io_error string) with
       | Ok raw => read_sidecar {[ sidecar_path qcow := raw ]} qcow
       | Err _ => None
       end.

Definition bib_config_tmp : string := "/tmp/hbird-bib-config-" +:+ show_N process_id +:+ ".toml".

(** The part of [build_one_qcow2] after the cache's verdict. *)
Definition rebuild_qcow2 (image_ref qcow_path : string) (expected_id : option string)
    : IO anyhow unit :=
  let pubkey_file := ssh_pubkey_file (config p) in
  pubkey_contents ← or_fail ("could not read SSH_PUBKEY_FILE " +:+ pubkey_file)
                      (exec_shell c ("cat -- " +:+ sh_quote pubkey_file));
  content ← ask (λ h, render_bib_config h (trim pubkey_contents));
  _ ← or_fail ("could not write bib config to " +:+ bib_config_tmp)
        (exec_shell c (heredoc (sh_quote bib_config_tmp) "HBIRD_BIB_EOF" content));
  _ ← or_fail ("BIB build failed for " +:+ image_ref)
        (exec_shell c (bib_run_cmd p image_ref bib_config_tmp));
  let staging_qcow := pool p +:+ "/qcow2/disk.qcow2" in
  _ ← or_fail ("could not move " +:+ staging_qcow +:+ " → " +:+ qcow_path)
        (exec_shell c ("mv -- " +:+ sh_quote staging_qcow +:+ " " +:+ sh_quote qcow_path));
  _ ← or_fail "could not remove BIB staging dir"
        (exec_shell c ("rm -rf -- " +:+ sh_quote (pool p +:+ "/qcow2")));
  _ ← best_effort (exec_shell c ("rm -f -- " +:+ sh_quote bib_config_tmp));
  _ ← best_effort (exec_shell c "virsh pool-refresh default 2>/dev/null || true");
  _ ← best_effort (exec_shell c "virsh pool-refresh mass2 2>/dev/null || true");
  match expected_id with
  | Some id =>
      best_effort (exec_shell c ("printf '%s\n' " +:+ sh_quote id +:+ " > "
                                 +:+ sh_quote (qcow_path +:+ ".build-ref")))
  | None => mret tt
  end.

Definition build_one_qcow2 (image_ref qcow_path : string) : IO anyhow unit :=
  expected_id ← compute_expected_build_id image_ref;
  present ← ask (λ h, path_exists h qcow_path);
  if (present : bool) && negb (dc_force_rebuild (args p)) then
    cached_id ← read_local_sidecar qcow_path;
    match assess_qcow2_cache cached_id expected_id (strict_cache p) with
    | Reuse => log ("cache: reusing " +:+ qcow_path +:+ " (build-ref matches or unverifiable)")
    | Rebuild =>
        _ ← log ("WARN: cache: " +:+ qcow_path +:+ " is stale — rebuilding (STRICT_CACHE=0)");
        rebuild_qcow2 image_ref qcow_path expected_id
    | StrictFail =>
        bail ("cache: " +:+ qcow_path +:+ " is confirmed stale and STRICT_CACHE=1. "
              +:+ "Set FORCE_REBUILD=1 to override, or clear the qcow2 manually.")
    end
  else rebuild_qcow2 image_ref qcow_path expected_id.

Definition cp_template : string := pool p +:+ "/hummingbird-k8s-deploy.qcow2".
Definition worker_template : string := pool p +:+ "/hummingbird-k8s-worker-deploy.qcow2".

Definition plan_build_qcow2 (cp_ref worker_ref : string) : IO anyhow (string * string) :=
  if dry_run p then
    _ ← log ("DRY-RUN would render bib config + build " +:+ cp_template +:+ " from " +:+ cp_ref);
    _ ← log ("DRY-RUN would render bib config + build " +:+ worker_template +:+ " from "
             +:+ worker_ref);
    _ ← log ("  (bib invocation requires rootful podman — see #311; the live path will honor "
             +:+ "`FORCE_REBUILD=1` to override #311(d)'s skip-if-exists shortcut landed in PR #336)");
    mret (cp_template, worker_template)
  else
    _ ← build_one_qcow2 cp_ref cp_template;
    _ ← build_one_qcow2 worker_ref worker_template;
    mret (cp_template, worker_template).

(** ** The control plane *)

Definition write_net2_config_tmp (net2 : option Net2) (tag : string) : IO anyhow (option string) :=
  match net2 with
  | None => mret None
  | Some n =>
      let nc_tmp := "/tmp/hbird-netcfg-" +:+ tag +:+ ".yaml" in
      let content := render_net2_network_config (net2_mac n) (net2_ip n) in
      _ ← or_fail ("could not write net2 network-config to " +:+ nc_tmp)
            (exec_shell c (heredoc ("'" +:+ nc_tmp +:+ "'") "HBIRD_CI_EOF" content));
      mret (Some nc_tmp)
  end.

Definition qcow_of (vm : string) : string := pool p +:+ "/" +:+ vm +:+ ".qcow2".
Definition seed_of (vm : string) : string := pool p +:+ "/" +:+ vm +:+ "-seed.iso".

Definition show_bool (b : bool) : string := if b then "true" else "false".

Definition cp_overrides (net2 : option Net2) : CpOverrides :=
  mkCpOverrides (bootc_update_schedule (config p)) (bootc_update_repo_k8s (config p))
    (pod_cidr (config p)) (service_cidr (config p)) (net2_mac <$> net2).
Definition cp_ud_tmp : string := "/tmp/hbird-cp-ud-" +:+ show_N process_id +:+ ".yaml".

Definition plan_cp_seed (pubkey_contents : string) (net2 : option Net2) : IO anyhow string :=
  let cfg := config p in
  let cp_seed := seed_of (plan_cp p) in
  if dry_run p then
    _ ← log ("DRY-RUN would render CP cloud-init user-data (auto-update-cp="
             +:+ show_bool (auto_update_cp cfg) +:+ ", switch-to-ghcr="
             +:+ show_bool (switch_to_ghcr cfg) +:+ ", ghcr-tag=" +:+ ghcr_tag cfg +:+ ")");
    _ ← match net2 with
        | Some n =>
            log ("DRY-RUN would render net2 network-config for " +:+ plan_cp p +:+ " (mac="
                 +:+ net2_mac n +:+ ", ip=" +:+ net2_ip n +:+ ") into the seed")
        | None => mret tt
        end;
    _ ← log ("DRY-RUN would build CP cloud-init seed " +:+ cp_seed);
    mret cp_seed
  else
    let user_data := render_cp_user_data (plan_cp p) pubkey_contents (switch_to_ghcr cfg)
                       (ghcr_tag cfg) (auto_update_cp cfg) (cp_overrides net2) in
    _ ← or_fail ("could not write CP user-data to " +:+ cp_ud_tmp)
          (exec_shell c (heredoc ("'" +:+ cp_ud_tmp +:+ "'") "HBIRD_CI_EOF" user_data));
    nc_tmp ← write_net2_config_tmp net2 ("cp-" +:+ show_N process_id);
    _ ← or_fail "cloud-init seed build for CP failed"
          (exec_shell c (cloud_init_seed_cmd (plan_cp p) cp_ud_tmp cp_seed nc_tmp));
    mret cp_seed.

(** Never fatal. *)
Definition ensure_dhcp_reservation (net mac ip name : string) : IO anyhow unit :=
  r ← try (net_dumpxml c net);
  let net_xml := match (r : result VirtError string) with Ok xml => xml | Err _ => "" end in
  match classify_dhcp_reservation net_xml mac ip with
  | AlreadyPresent =>
      log ("DHCP reservation for " +:+ name +:+ " (" +:+ mac +:+ " -> " +:+ ip
           +:+ ") already present on network '" +:+ net +:+ "'")
  | IpTakenByOtherMac =>
      log ("WARN: " +:+ ip +:+ " is already reserved on network '" +:+ net
           +:+ "' under a different MAC — skipping reservation for " +:+ name
           +:+ ". Pick a free CP_IP/WORKER_IPS value or clear the stale entry.")
  | Absent =>
      r ← try (net_update_add_ip_dhcp_host c net mac name ip);
      match (r : result VirtError unit) with
      | Ok _ =>
          log ("added DHCP reservation on '" +:+ net +:+ "': " +:+ name +:+ " " +:+ mac +:+ " -> "
               +:+ ip)
      | Err _ =>
          log ("WARN: could not add a DHCP reservation for " +:+ name +:+ " on '" +:+ net
               +:+ "' (continuing — the pinned MAC still makes the lease sticky)")
      end
  end.

(** The probe before a VM is created: it must not be defined. *)
Definition refuse_defined (name defined probe_failed : string) : IO anyhow unit :=
  r ← try (dominfo c name);
  match (r : result VirtError DomainInfo) with
  | Ok _ => bail defined
  | Err (VirshFailed _ _) => mret tt
  | Err e => bail (probe_failed +:+ ": " +:+ show_virt_error e)
  end.

Definition clone_failed (template qcow : string) : string :=
  "reflink clone " +:+ template +:+ " -> " +:+ qcow +:+ " failed".
Definition nic_of (net2 : option Net2) : option ExtraNic :=
  (λ n, mkExtraNic (net2_network n) (net2_mac n)) <$> net2.

Definition mac_note (configured : bool) (mac : string) : string :=
  if configured then ", primary mac=" +:+ mac else "".
Definition log_second_nic (net2 : option Net2) : IO anyhow unit :=
  match net2 with
  | Some n => log ("DRY-RUN would attach second NIC: network=" +:+ net2_network n +:+ ",mac="
                   +:+ net2_mac n)
  | None => mret tt
  end.
Definition log_reservation (name mac : string) (ip : option string) : IO anyhow unit :=
  match ip with
  | Some ip => log ("DRY-RUN would ensure DHCP reservation on 'default': " +:+ name +:+ " " +:+ mac
                    +:+ " -> " +:+ ip)
  | None => mret tt
  end.
Definition reserve (name mac : string) (ip : option string) : IO anyhow unit :=
  match ip with Some ip => ensure_dhcp_reservation "default" mac ip name | None => mret tt end.

Definition cp_spec (cp_seed : string) (macs : PrimaryMacs) (net2 : option Net2) : VmSpec :=
  mkVmSpec (plan_cp p) (cp_memory (config p)) (cp_vcpus (config p)) (qcow_of (plan_cp p))
    (Some cp_seed) (Some (cp_primary macs)) (nic_of net2).

Definition plan_cp_virt_install (cp_template cp_seed : string) (macs : PrimaryMacs)
    (net2 : option Net2) : IO anyhow string :=
  let cfg := config p in
  let name := plan_cp p in
  let cp_qcow := qcow_of name in
  let ip := non_empty (cp_ip cfg) in
  if dry_run p then
    _ ← log ("DRY-RUN would refuse to overwrite if CP VM '" +:+ name +:+ "' already defined");
    _ ← log ("DRY-RUN would clone " +:+ cp_template +:+ " -> " +:+ cp_qcow +:+ " (reflink=auto)");
    _ ← log_reservation name (cp_primary macs) ip;
    _ ← log_second_nic net2;
    _ ← log ("DRY-RUN would virt-install " +:+ name +:+ " (memory=" +:+ show_N (cp_memory cfg)
             +:+ " vcpus=" +:+ show_N (cp_vcpus cfg)
             +:+ mac_note (is_set (cp_mac cfg)) (cp_primary macs) +:+ ") attaching " +:+ cp_qcow
             +:+ " + " +:+ cp_seed);
    mret cp_qcow
  else
    _ ← refuse_defined name
          ("CP VM '" +:+ name +:+ "' is already defined — refusing to overwrite")
          "dominfo probe for CP failed";
    _ ← log ("cloning CP qcow2 -> " +:+ cp_qcow);
    _ ← or_fail (clone_failed cp_template cp_qcow) (remote_cp_reflink c cp_template cp_qcow);
    _ ← reserve name (cp_primary macs) ip;
    _ ← log ("virt-install " +:+ name +:+ " (memory=" +:+ show_N (cp_memory cfg) +:+ " vcpus="
             +:+ show_N (cp_vcpus cfg) +:+ ", primary mac=" +:+ cp_primary macs +:+ ")");
    _ ← or_fail ("virt-install " +:+ name +:+ " failed") (virt_install_vm c (cp_spec cp_seed macs net2));
    mret cp_qcow.

(** [conn.domifaddr(..)] inside the poll: an error counts as no address. *)
Definition probe_cp_ip : IO anyhow (option Ipv4) :=
  r ← try (domifaddr c (plan_cp p));
  mret match (r : result VirtError (option Ipv4)) with Ok ip => ip | Err _ => None end.

(** A command whose success is the answer. *)
Definition probe_ok (cmd : string) : IO anyhow bool :=
  r ← try (exec_shell c cmd);
  mret match (r : result VirtError string) with Ok _ => true | Err _ => false end.

Definition any_ready_cmd : string :=
  "kubectl --kubeconfig=/etc/kubernetes/admin.conf get nodes --no-headers 2>/dev/null "
  +:+ "| awk '$2==" +:+ DQ +:+ "Ready" +:+ DQ +:+ "' | grep -q .".

Definition plan_cp_ready (privkey_path : string) : IO anyhow string :=
  if dry_run p then
    _ ← log ("DRY-RUN would resolve CP IP via 'virsh domifaddr " +:+ plan_cp p
             +:+ "' (timeout ~5min)");
    _ ← log "DRY-RUN would poll 'kubectl get nodes' on CP until Ready (timeout ~600s)";
    mret "<resolved-at-runtime>"
  else
    _ ← log "waiting for CP IP to appear via DHCP...";
    found ← retry_find (retries p) (sleep_secs p) probe_cp_ip;
    match (found : option Ipv4) with
    | None => bail ("could not resolve CP IP after ~" +:+ show_N (max_wait_secs p / 60) +:+ "min")
    | Some ip =>
        let cp_ip := show_ipv4 ip in
        _ ← log ("CP IP: " +:+ cp_ip);
        _ ← log ("polling kubectl until CP Ready (max ~" +:+ show_N (max_wait_secs p) +:+ "s)");
        cp_ready ← retry (retries p) (sleep_secs p)
                     (probe_ok (cp_ssh_cmd privkey_path cp_ip any_ready_cmd));
        if negb (cp_ready : bool) then bail "CP never reached Ready"
        else
          _ ← log "CP Ready";
          mret cp_ip
    end.

Definition token_cmd (privkey_path cp_ip : string) : string :=
  cp_ssh_cmd privkey_path cp_ip
    ("kubeadm token create --ttl " +:+ dc_token_ttl (args p) +:+ " --print-join-command").

Definition plan_join_token (cp_ip privkey_path : string) : IO anyhow string :=
  if dry_run p then
    _ ← log ("DRY-RUN would mint 2h-TTL kubeadm join token via 'ssh root@" +:+ cp_ip
             +:+ " kubeadm token create --print-join-command'");
    mret "<join-cmd-at-runtime>"
  else
    _ ← log ("minting " +:+ dc_token_ttl (args p) +:+ "-TTL kubeadm join token from CP");
    out ← or_fail "kubeadm token create failed" (exec_shell c (token_cmd privkey_path cp_ip));
    let join_cmd := trim out in
    if negb (starts_with "kubeadm join" join_cmd)
    then bail ("expected 'kubeadm join ...' from CP, got: " +:+ debug_str join_cmd)
    else mret join_cmd.

(** ** The workers *)

Definition worker_net2 (net2s : option (list Net2)) (i : nat) : option Net2 := net2s ≫= λ v, v !! i.
(** [macs.workers\[i\]]; there is one for every worker ([deployment_nics]). *)
Definition worker_mac_at (macs : PrimaryMacs) (i : nat) : string :=
  default "" (worker_primaries macs !! i).

Definition plan_one_worker (worker_template : string) (macs : PrimaryMacs)
    (net2s : option (list Net2)) (i : nat) (w : string) : IO anyhow unit :=
  let cfg := config p in
  let mac := worker_mac_at macs i in
  _ ← log ("DRY-RUN would refuse to overwrite if worker VM '" +:+ w +:+ "' already defined");
  _ ← match worker_net2 net2s i with
      | Some n =>
          log ("DRY-RUN would render net2 network-config for " +:+ w +:+ " (mac=" +:+ net2_mac n
               +:+ ", ip=" +:+ net2_ip n +:+ ") into the seed")
      | None => mret tt
      end;
  _ ← log ("DRY-RUN would render worker cloud-init user-data with join command + build seed "
           +:+ seed_of w);
  _ ← log ("DRY-RUN would clone " +:+ worker_template +:+ " -> " +:+ qcow_of w +:+ " (reflink=auto)");
  _ ← log_reservation w mac (worker_ip p i);
  _ ← log_second_nic (worker_net2 net2s i);
  log ("DRY-RUN would virt-install " +:+ w +:+ " (memory=" +:+ show_N (worker_memory cfg)
       +:+ " vcpus=" +:+ show_N (worker_vcpus cfg) +:+ mac_note (worker_mac_configured p i) mac
       +:+ ") attaching " +:+ qcow_of w +:+ " + " +:+ seed_of w +:+ " [parallel]").

Definition worker_overrides (net2 : option Net2) : WorkerOverrides :=
  mkWorkerOverrides (bootc_update_schedule (config p)) (bootc_update_repo_worker (config p))
    (net2_mac <$> net2).
Definition worker_ud_tmp (w : string) : string :=
  "/tmp/hbird-w-ud-" +:+ show_N process_id +:+ "-" +:+ w +:+ ".yaml".
Definition worker_spec (macs : PrimaryMacs) (net2 : option Net2) (i : nat) (w : string) : VmSpec :=
  mkVmSpec w (worker_memory (config p)) (worker_vcpus (config p)) (qcow_of w) (Some (seed_of w))
    (Some (worker_mac_at macs i)) (nic_of net2).

Definition spawn_worker (worker_template join_cmd pubkey_contents : string) (macs : PrimaryMacs)
    (net2s : option (list Net2)) (i : nat) (w : string) : IO anyhow unit :=
  let cfg := config p in
  let net2 := worker_net2 net2s i in
  _ ← refuse_defined w ("worker VM '" +:+ w +:+ "' already defined — refusing to overwrite")
        ("dominfo probe for worker " +:+ w);
  let user_data := render_worker_user_data w pubkey_contents join_cmd (switch_to_ghcr cfg)
                     (ghcr_tag cfg) (worker_overrides net2) in
  _ ← or_fail ("could not write worker user-data to " +:+ worker_ud_tmp w)
        (exec_shell c (heredoc ("'" +:+ worker_ud_tmp w +:+ "'") "HBIRD_CI_EOF" user_data));
  nc_tmp ← write_net2_config_tmp net2 ("w-" +:+ show_N process_id +:+ "-" +:+ w);
  _ ← or_fail ("cloud-init seed build for " +:+ w +:+ " failed")
        (exec_shell c (cloud_init_seed_cmd w (worker_ud_tmp w) (seed_of w) nc_tmp));
  _ ← log ("cloning worker qcow2 -> " +:+ qcow_of w);
  _ ← or_fail (clone_failed worker_template (qcow_of w))
        (remote_cp_reflink c worker_template (qcow_of w));
  _ ← reserve w (worker_mac_at macs i) (worker_ip p i);
  _ ← log ("virt-install " +:+ w +:+ " (memory=" +:+ show_N (worker_memory cfg) +:+ " vcpus="
           +:+ show_N (worker_vcpus cfg) +:+ ", primary mac=" +:+ worker_mac_at macs i +:+ ") [bg]");
  or_fail ("virt-install " +:+ w +:+ " failed") (virt_install_vm c (worker_spec macs net2 i w)).

(** [for (i, w) in names.iter().enumerate() { f(i, w)?; }] *)
Fixpoint for_each_i {A} (f : nat → A → IO anyhow unit) (i : nat) (l : list A) : IO anyhow unit :=
  match l with
  | [] => mret tt
  | x :: l' => _ ← f i x; for_each_i f (S i) l'
  end.

Definition plan_worker_spawn (worker_template join_cmd pubkey_contents : string)
    (macs : PrimaryMacs) (net2s : option (list Net2)) : IO anyhow unit :=
  match plan_workers p with
  | [] =>
      if dry_run p then log "DRY-RUN WORKER_NAMES=() — CP-only deploy, no workers to spawn"
      else mret tt
  | names =>
      if dry_run p then
        _ ← for_each_i (plan_one_worker worker_template macs net2s) 0 names;
        log ("DRY-RUN would wait for " +:+ show_nat (length names)
             +:+ " parallel virt-install processes")
      else for_each_i (spawn_worker worker_template join_cmd pubkey_contents macs net2s) 0 names
  end.

(** ** The end of the run *)

Definition node_ready_cmd (privkey_path cp_ip node_name : string) : string :=
  cp_ssh_cmd privkey_path cp_ip
    ("kubectl --kubeconfig=/etc/kubernetes/admin.conf get node '" +:+ node_name
     +:+ "' --no-headers 2>/dev/null | awk '$2==" +:+ DQ +:+ "Ready" +:+ DQ +:+ "{print " +:+ DQ
     +:+ "yes" +:+ DQ +:+ "}'").
Definition says_yes (out : string) : bool := contains "yes" (trim out).
Definition probe_yes (cmd : string) : IO anyhow bool :=
  r ← try (exec_shell c cmd);
  mret match (r : result VirtError string) with Ok out => says_yes out | Err _ => false end.

Definition await_node (cp_ip privkey_path node_name : string) : IO anyhow unit :=
  _ ← log ("polling '" +:+ node_name +:+ "' Ready (max ~" +:+ show_N (max_wait_secs p) +:+ "s)");
  ready ← retry (retries p) (sleep_secs p) (probe_yes (node_ready_cmd privkey_path cp_ip node_name));
  if negb (ready : bool) then bail ("node '" +:+ node_name +:+ "' never reached Ready") else mret tt.

Definition expected_nodes : list string := plan_cp p :: plan_workers p.

Definition plan_cluster_ready (cp_ip privkey_path : string) : IO anyhow unit :=
  let expected := show_nat (length expected_nodes) in
  if dry_run p then
    log ("DRY-RUN would poll cluster until " +:+ expected +:+ " nodes Ready (timeout ~600s)")
  else
    _ ← for_each (await_node cp_ip privkey_path) expected_nodes;
    log ("cluster Ready: all " +:+ expected +:+ " named nodes Ready").

Definition verify_argv (cp_ip : string) : list string :=
  ["hbird"; "verify"; "app-deploy"; "--config"; dc_config (args p); "--cp-ip"; cp_ip]
  ++ match non_empty (dc_kvm_host (args p)) with
     | Some kvm_host => ["--kvm-host"; kvm_host]
     | None => []
     end.

Definition plan_verify (cp_ip : string) : IO anyhow unit :=
  if negb (run_verify (config p)) then mret tt
  else if dry_run p then
    log "DRY-RUN RUN_VERIFY=true — would run 'hbird verify app-deploy' after Ready (post-#353)"
  else
    status_ ← try (local_run (verify_argv cp_ip));
    match (status_ : result io_error RunOutput) with
    | Err e =>
        if strict_cache p
        then bail ("hbird verify app-deploy not found on PATH (required under STRICT_CACHE=1): "
                   +:+ io_message e)
        else log "hbird verify app-deploy not found on PATH; skipping"
    | Ok s =>
        if success (status s) then mret tt
        else if strict_cache p
        then bail "hbird verify app-deploy exited non-zero — deploy fails under STRICT_CACHE=1"
        else log ("hbird verify app-deploy exited non-zero (cluster is up; verifier failure is "
                  +:+ "informational)")
    end.

Definition workers_text : string :=
  match plan_workers p with [] => "<none>" | names => join " " names end.
Definition rule : string := "==============================================================".
Definition plan_summary (cp_ip : string) : IO anyhow unit :=
  for_each log
    [""; rule;
     if dry_run p then "DRY-RUN plan complete. No VMs were created." else "Cluster deployed.";
     "  CP:         " +:+ plan_cp p +:+ " (" +:+ cp_ip +:+ ")";
     "  Workers:    " +:+ workers_text;
     "  Image src:  " +:+ source +:+ " (tag=" +:+ ghcr_tag (config p) +:+ ")";
     "  Kubeconfig: root@" +:+ cp_ip +:+ ":/etc/kubernetes/admin.conf"; rule].

(** ** The second interface's network *)

Definition check_extra_network_on_host (net : string) : IO anyhow unit :=
  info ← io_map_err (λ _, anyhow_msg ("EXTRA_NETWORK='" +:+ net
           +:+ "' is not a defined libvirt network on this host — define it first (see "
           +:+ "cluster.example.conf for a VF-pool example)")) (net_info c net);
  if negb (net_info_reports_active info) then
    bail ("EXTRA_NETWORK='" +:+ net +:+ "' is defined but NOT active — run 'virsh net-start " +:+ net
          +:+ "' (and net-autostart) first")
  else
    r ← try (net_dumpxml c net);
    match hostdev_vf_count (match (r : result VirtError string) with Ok xml => xml | Err _ => "" end) with
    | Some vf_count =>
        let workers := length (plan_workers p) in
        let need := (1 + workers)%nat in
        if (vf_count <? need)%nat then
          bail ("EXTRA_NETWORK='" +:+ net +:+ "' is a hostdev pool with " +:+ show_nat vf_count
                +:+ " VF(s) but this deploy needs " +:+ show_nat need +:+ " (1 CP + "
                +:+ show_nat workers +:+ " worker(s))")
        else mret tt
    | None => mret tt
    end.

(** ** [run] *)

(** What [run] does with its connection. *)
Definition deploy_over (macs : PrimaryMacs) (net2 : option (Net2 * list Net2)) : IO anyhow unit :=
  let cp_net2 := fst <$> net2 in
  let worker_net2s := snd <$> net2 in
  _ ← match cp_net2 with
      | Some n =>
          if dry_run p then
            log ("DRY-RUN would verify EXTRA_NETWORK '" +:+ net2_network n
                 +:+ "' is defined + active (and has enough VFs when it is a hostdev pool)")
          else check_extra_network_on_host (net2_network n)
      | None => mret tt
      end;
  let pubkey_file := ssh_pubkey_file (config p) in
  pubkey_contents ← (if dry_run p then mret ""
                     else or_fail ("cannot read SSH_PUBKEY_FILE " +:+ pubkey_file)
                            (exec_shell c ("cat -- " +:+ sh_quote pubkey_file)));
  let privkey_path := derive_privkey_path pubkey_file in
  refs ← plan_image_acquisition;
  templates ← plan_build_qcow2 refs.1 refs.2;
  cp_seed ← plan_cp_seed pubkey_contents cp_net2;
  _ ← plan_cp_virt_install templates.1 cp_seed macs cp_net2;
  cp_ip ← plan_cp_ready privkey_path;
  join_cmd ← plan_join_token cp_ip privkey_path;
  _ ← plan_worker_spawn templates.2 join_cmd pubkey_contents macs worker_net2s;
  _ ← plan_cluster_ready cp_ip privkey_path;
  _ ← plan_verify cp_ip;
  plan_summary cp_ip.
End deploy.

Definition cidr_error (knob v : string) : anyhow :=
  anyhow_msg (knob +:+ " is malformed (need CIDR like 10.244.0.0/16): '" +:+ v +:+ "'").
Fixpoint check_cidrs (l : list (string * option string)) : result anyhow unit :=
  match l with
  | [] => Ok tt
  | (knob, v) :: l' =>
      match non_empty v with
      | Some v => if negb (is_valid_cidr v) then Err (cidr_error knob v) else check_cidrs l'
      | None => check_cidrs l'
      end
  end.

Section run.
Context `{W : World} `{Hst : Host}.

(** [run] after the plan. *)
Definition run_plan (p : Plan) : IO anyhow unit :=
  let cfg := config p in
  if negb (enable_cloud_init cfg =? 1)%N then
    bail ("ENABLE_CLOUD_INIT must be 1 for this flow (got '" +:+ show_N (enable_cloud_init cfg)
          +:+ "'). The deploy-cluster path requires cloud-init in the image to inject per-VM "
          +:+ "hostname + worker join + bootc switch.")
  else
    _ ← log ("config: " +:+ dc_config (args p));
    _ ← for_each (λ w, log ("WARN: config: " +:+ show_config_warning w)) (warnings cfg);
    macs ← of_result (resolve_primary_macs (plan_cp p) (cp_mac cfg) (plan_workers p)
                        (worker_macs cfg));
    _ ← of_result (check_cidrs [("POD_CIDR", pod_cidr cfg); ("SERVICE_CIDR", service_cidr cfg)]);
    net2 ← of_result (validate_extra_network p macs);
    _ ← log ("config OK: CP=" +:+ plan_cp p +:+ ", workers=(" +:+ workers_text p +:+ "), source="
             +:+ image_source cfg +:+ ", tag=" +:+ ghcr_tag cfg
             +:+ match fst <$> (net2 : option (Net2 * list Net2)) with
                 | Some n => ", extra-net=" +:+ net2_network n
                 | None => ""
                 end);
    deploy_over (build_connection (dc_kvm_host (args p))) p macs net2.

Definition run (a : DeployClusterArgs) : IO anyhow unit :=
  config ← parse_config (dc_config a);
  h ← ask id;
  p ← of_result (from_args h a config);
  run_plan p.
End run.
