(* ===== verification/DeployTextFacts.v ===== *)
(** * The texts of [hbird deploy-cluster]

    The shell reads the commands as they are meant, the cloud-init files keep
    their structure, and the helpers for the tests agree with the code in use. *)

From S2P Require Import Prelude RustStr ConfigTypes SshOptions SshClient Effects VirtUri Shell.
From S2P Require Import VirtParse VirtConn Host DeployPlan DeployText Deploy.

(** ** Commands *)

Lemma unquoted_path_bare a : is_unquoted_path a = true → is_bare a = true.
Proof.
  unfold is_unquoted_path, is_bare. rewrite !orb_true_iff, !bool_decide_eq_true. set_solver.
Qed.

Lemma sh_quote_spells s : spells (sh_quote s) s.
Proof.
  unfold sh_quote. destruct (is_empty s) eqn:Hne.
  - destruct s; [|done]. intros cur rest. by rewrite app_nil_s.
  - destruct (all_bytes is_unquoted_path s) eqn:Hs.
    + apply spells_bare; [done|]. eapply all_bytes_impl; [|done]. apply unquoted_path_bare.
    + intros cur rest. rewrite <-!app_assoc_s.
      change ("'" +:+ quote_chars s +:+ "'" +:+ rest)
        with (String squote (quote_chars s +:+ String squote rest)).
      by rewrite lex_open_quote, lex_quote_chars.
Qed.
#[export] Hint Resolve sh_quote_spells : shell.

(** The storage options of [podman]. *)
Definition storage_words (p : Plan) : list string :=
  let opt flag o := match o with Some v => [flag; v] | None => [] end in
  opt "--storage-driver" (dc_storage_driver (args p)) ++ opt "--root" (dc_podman_root (args p))
  ++ opt "--runroot" (dc_podman_runroot (args p)).
Definition storage_spelling (p : Plan) : list string :=
  let opt flag o := match o with Some v => [flag; sh_quote v] | None => [] end in
  opt "--storage-driver" (dc_storage_driver (args p)) ++ opt "--root" (dc_podman_root (args p))
  ++ opt "--runroot" (dc_podman_runroot (args p)).

Lemma storage_spells p : Forall2 spells (storage_spelling p) (storage_words p).
Proof.
  unfold storage_spelling, storage_words.
  destruct (dc_storage_driver _), (dc_podman_root _), (dc_podman_runroot _);
    repeat constructor; auto with shell.
Qed.

Lemma podman_join p words :
  words ≠ [] →
  "podman " +:+ podman_storage_prefix p +:+ join " " words
  = join " " (["podman"] ++ storage_spelling p ++ words).
Proof.
  intros Hne. destruct words as [|w words]; [done|]. unfold podman_storage_prefix, storage_spelling.
  destruct (dc_storage_driver _), (dc_podman_root _), (dc_podman_runroot _);
    cbn [app join]; rewrite <-?app_assoc_s; reflexivity.
Qed.

Lemma podman_words p cmd qs ws :
  cmd = "podman " +:+ podman_storage_prefix p +:+ join " " qs → qs ≠ [] → Forall2 spells qs ws →
  shell_words cmd = Some (["podman"] ++ storage_words p ++ ws).
Proof.
  intros -> Hne Hq. rewrite podman_join by done. apply shell_words_join.
  constructor; [auto with shell|]. apply Forall2_app; [apply storage_spells|done].
Qed.

Lemma spells_show_ipv4 i : spells (show_ipv4 i) (show_ipv4 i).
Proof. unfold show_ipv4. auto 20 with shell. Qed.
#[export] Hint Resolve spells_show_ipv4 : shell.

(** What [bootc-image-builder] is run with. *)
Definition bib_words (p : Plan) (image bib_config_path : string) : list string :=
  ["run"; "--rm"; "--privileged"; "--pull=newer"; "--security-opt"; "label=type:unconfined_t"]
  ++ match dc_storage_driver (args p) with Some d => ["-e"; "STORAGE_DRIVER=" +:+ d] | None => [] end
  ++ ["-v"; bib_config_path +:+ ":/config.toml:ro"; "-v"; pool p +:+ ":/output";
      "-v"; default "/var/lib/containers/storage" (dc_podman_root (args p))
            +:+ ":/var/lib/containers/storage";
      dc_bib (args p); "--type"; "qcow2"; "--rootfs"; "ext4"; "--local"; image].

Lemma bib_run_cmd_words p image path :
  shell_words (bib_run_cmd p image path) = Some (["podman"] ++ storage_words p ++ bib_words p image path).
Proof.
  eapply (podman_words p _ (["run"; "--rm"; "--privileged"; "--pull=newer"; "--security-opt";
      "label=type:unconfined_t"]
      ++ match dc_storage_driver (args p) with
         | Some d => ["-e"; "STORAGE_DRIVER=" +:+ sh_quote d] | None => [] end
      ++ ["-v"; sh_quote path +:+ ":/config.toml:ro"; "-v"; sh_quote (pool p) +:+ ":/output";
          "-v"; sh_quote (default "/var/lib/containers/storage" (dc_podman_root (args p)))
                +:+ ":/var/lib/containers/storage";
          sh_quote (dc_bib (args p)); "--type"; "qcow2"; "--rootfs"; "ext4"; "--local";
          sh_quote image])).
  - unfold bib_run_cmd. cbv zeta. destruct (dc_storage_driver (args p));
      cbn [app join]; rewrite <-?app_assoc_s; reflexivity.
  - done.
  - unfold bib_words. apply Forall2_app; [repeat constructor; auto with shell|].
    apply Forall2_app; [destruct (dc_storage_driver _)|]; repeat constructor; auto with shell.
Qed.

(** The shell of the KVM host reads each of the deployment's commands as one
    program with the intended arguments, whatever bytes the operator's values
    hold: image references, storage options, paths, the builder image; and the
    command for the control plane arrives there as one argument of [ssh]. *)
Theorem deploy_commands_words p image path key ip remote root ref file target
    (Ht : target ∈ [CP_TARGET; WORKER_TARGET]) :
  shell_words (podman_pull_cmd p image) = Some (["podman"] ++ storage_words p ++ ["pull"; image])
  ∧ shell_words (bib_run_cmd p image path)
    = Some (["podman"] ++ storage_words p ++ bib_words p image path)
  ∧ shell_words (podman_inspect_vcs_ref_cmd p image)
    = Some (["podman"] ++ storage_words p ++ ["image"; "inspect"; "--format";
             "{{ index .Config.Labels " +:+ DQ +:+ "org.opencontainers.image.revision" +:+ DQ
             +:+ " }}"; image])
  ∧ shell_words (make_image_cmd root target) = Some ["ENABLE_CLOUD_INIT=1"; "make"; "-C"; root; target]
  ∧ shell_words (git_diff_cmd root ref file)
    = Some ["git"; "-C"; root; "diff"; "--quiet"; ref; "--"; file]
  ∧ shell_words (cp_ssh_cmd key (show_ipv4 ip) remote)
    = Some ["ssh"; "-i"; key; "-o"; "StrictHostKeyChecking=no"; "-o"; "UserKnownHostsFile=/dev/null";
            "root@" +:+ show_ipv4 ip; remote].
Proof.
  split; [|split; [|split; [|split; [|split]]]].
  - apply (podman_words p _ ["pull"; sh_quote image]); [reflexivity|done|].
    repeat constructor; auto with shell.
  - apply bib_run_cmd_words.
  - eapply (podman_words p _ ["image"; "inspect"; "--format"; "'{{ index .Config.Labels "
        +:+ DQ +:+ "org.opencontainers.image.revision" +:+ DQ +:+ " }}'"; sh_quote image]);
      [reflexivity|done|]. repeat constructor; auto with shell.
    apply (sh_quote_spells ("{{ index .Config.Labels " +:+ DQ
             +:+ "org.opencontainers.image.revision" +:+ DQ +:+ " }}")).
  - shell_words_by ["ENABLE_CLOUD_INIT=1"; "make"; "-C"; sh_quote root; target].
    repeat (apply elem_of_cons in Ht as [->|Ht]; [auto with shell|]). by apply elem_of_nil in Ht.
  - shell_words_by ["git"; "-C"; sh_quote root; "diff"; "--quiet"; sh_quote ref; "--"; sh_quote file].
  - shell_words_by ["ssh"; "-i"; sh_quote key; "-o"; "StrictHostKeyChecking=no"; "-o";
      "UserKnownHostsFile=/dev/null"; "root@" +:+ show_ipv4 ip; sh_quote remote].
Qed.

Lemma deploy_commands_words_witness :
  shell_words (make_image_cmd "/src/my repo" CP_TARGET)
  = Some ["ENABLE_CLOUD_INIT=1"; "make"; "-C"; "/src/my repo"; CP_TARGET].
Proof.
  apply (deploy_commands_words example_deployment "i" "p" "k" (mkIpv4 10 0 0 1) "r" "/src/my repo"
           "ref" "f" CP_TARGET). left.
Defined.

(** ** cloud-init *)

(** The lines of a YAML text that start a top-level entry. *)
Definition top_lines (text : string) : list string :=
  filter (λ l, negb (is_empty l) && negb (starts_with_char " " l) = true) (split_char nl text).

Lemma split_char_line c l rest :
  split_char c (l +:+ String c rest) = split_char c l ++ split_char c rest.
Proof.
  induction l as [|a l IH]; cbn [String.append split_char].
  - by rewrite ascii_eqb_refl.
  - change (String a l +:+ String c rest) with (String a (l +:+ String c rest)). cbn [split_char].
    rewrite IH. destruct (Ascii.eqb a c); [done|].
    pose proof (split_char_ne c l) as Hne. by destruct (split_char c l).
Qed.

Lemma top_lines_cons l ls : top_lines (text_of (l :: ls)) = top_lines l ++ top_lines (text_of ls).
Proof.
  unfold top_lines, text_of. rewrite fmap_cons. cbn [concat_str]. rewrite <-app_assoc_s.
  change (NL +:+ ?r) with (String nl r). by rewrite split_char_line, filter_app.
Qed.

Lemma top_lines_app ls1 ls2 :
  top_lines (text_of (ls1 ++ ls2)) = top_lines (text_of ls1) ++ top_lines (text_of ls2).
Proof.
  induction ls1 as [|l ls1 IH]; [done|]. cbn [app]. by rewrite !top_lines_cons, IH, app_assoc.
Qed.

Definition one_line (s : string) : bool := negb (contains_char nl s).

Lemma top_indented l : one_line l = true → top_lines (String " " l) = [].
Proof.
  intros H%negb_true_iff. unfold top_lines. rewrite split_char_single; [done|].
  by rewrite contains_char_cons, H.
Qed.
Lemma top_line l :
  one_line l = true → is_empty l = false → starts_with_char " " l = false → top_lines l = [l].
Proof.
  intros H%negb_true_iff He Hs. unfold top_lines. rewrite split_char_single by done.
  rewrite filter_cons_True; [done|]. by rewrite He, Hs.
Qed.
Lemma one_line_app s t : one_line (s +:+ t) = one_line s && one_line t.
Proof. unfold one_line, contains_char. by rewrite any_byte_app, negb_orb. Qed.

(** A key as it is read from its file: one line, with its line end or without. *)
Definition key_file (s : string) : Prop := ∃ k, one_line k = true ∧ (s = k ∨ s = k +:+ NL).

Definition opt_line (o : option string) : bool := match o with Some s => one_line s | None => true end.
Lemma opt_line_non_empty o : opt_line o = true → opt_line (non_empty o) = true.
Proof. destruct o as [s|]; [|done]. cbn. by destruct (negb (is_empty s)). Qed.

(** A text that adds nothing at the top. *)
Definition nested (ls : list string) : Prop := top_lines (text_of ls) = [].

Lemma nested_nil : nested [].
Proof. done. Qed.
Lemma nested_app ls1 ls2 : nested ls1 → nested ls2 → nested (ls1 ++ ls2).
Proof. unfold nested. intros H1 H2. by rewrite top_lines_app, H1, H2. Qed.
Lemma nested_cons l ls :
  starts_with_char " " l = true → one_line l = true → nested ls → nested (l :: ls).
Proof.
  unfold nested. intros Hs Hl H. rewrite top_lines_cons, H. destruct l as [|a l]; [done|].
  apply Ascii.eqb_eq in Hs as ->. rewrite top_indented; [done|].
  unfold one_line in *. rewrite contains_char_cons in Hl. by destruct (contains_char nl l).
Qed.
Lemma nested_when b ls : nested ls → nested (when b ls).
Proof. by destruct b. Qed.
Create HintDb yaml.
#[local] Hint Resolve nested_nil nested_app nested_when : yaml.

(** Lines that start with a blank: constants, and constants with one-line values. *)
Ltac one_line :=
  rewrite ?one_line_app; repeat match goal with H : one_line _ = true |- _ => rewrite H end;
  reflexivity.
Ltac nested_lines :=
  repeat (apply nested_cons; [reflexivity|one_line|]); try apply nested_nil.

Lemma nested_schedule o : opt_line o = true → nested (schedule_file o).
Proof. destruct o; cbn [opt_line]; intros H; [|done]. unfold schedule_file, file_entry. cbn [app]. nested_lines. Qed.
Lemma nested_repo o : opt_line o = true → nested (repo_file o).
Proof. destruct o; cbn [opt_line]; intros H; [|done]. unfold repo_file, file_entry. cbn [app]. nested_lines. Qed.
Lemma nested_setting name o :
  one_line name = true → opt_line o = true → nested (setting name o).
Proof.
  destruct o as [v|]; cbn [opt_line]; intros Hn H; [|done]. unfold setting.
  nested_lines.
Qed.
Lemma nested_net2_off o : opt_line o = true → nested (net2_off o).
Proof.
  destruct o; cbn [opt_line]; intros H; [|done]. unfold net2_off, net2_ipv6_off_runcmd. nested_lines.
Qed.
Lemma nested_restart : nested restart_timer.
Proof. done. Qed.
#[local] Hint Resolve nested_schedule nested_repo nested_setting nested_net2_off nested_restart
  opt_line_non_empty : yaml.

Lemma top_head name key :
  one_line name = true → key_file key →
  top_lines (text_of (user_data_head name key))
  = ["#cloud-config"; "hostname: " +:+ name; "disable_root: false"; "users:"].
Proof.
  intros Hn (k & Hk & Hkey). unfold user_data_head. rewrite !top_lines_cons.
  rewrite (top_line ("hostname: " +:+ name)); [|by rewrite one_line_app|done..].
  assert (E : top_lines ("      - " +:+ key) = []).
  { destruct Hkey as [->| ->].
    - apply (top_indented ("     - " +:+ k)). by rewrite one_line_app, Hk.
    - rewrite app_assoc_s. unfold top_lines. change NL with (String nl "").
      rewrite split_char_line, filter_app.
      change (top_lines ("      - " +:+ k) ++ [] = []). rewrite app_nil_r.
      apply (top_indented ("     - " +:+ k)). by rewrite one_line_app, Hk. }
  rewrite E. done.
Qed.

Lemma top_when b key rest :
  nested rest → top_lines (text_of (when b (key :: rest))) = when b (top_lines key).
Proof. intros H. destruct b; [|done]. cbn [when]. by rewrite top_lines_cons, H, app_nil_r. Qed.

Lemma nested_file path permissions content :
  one_line path = true → one_line permissions = true → nested content →
  nested (file_entry path permissions content).
Proof. intros Hp Hq Hc. unfold file_entry. cbn [app]. nested_lines. exact Hc. Qed.

Lemma nested_switch b img tag :
  one_line img = true → one_line tag = true →
  nested (when b [("  - [ bootc, switch, " +:+ img) +:+ tag +:+ " ]"]).
Proof. intros Hi Ht. apply nested_when. nested_lines. Qed.



(** ** The helpers of the tests *)

Lemma render_bib_config_twin `{Host} h key :
  render_bib_config h key
  = render_bib_config_with h key (default "core" (env_var "VM_USER")) (env_var "VM_USER_GROUPS")
      (env_var "VM_PASSWORD") (default "1" (env_var "ENABLE_ROOT_SSH")).
Proof. done. Qed.

Lemma image_refs_twin p :
  image_refs (image_source (config p)) (ghcr_tag (config p))
  = match acquisition_refs p with Ok refs => Some refs | Err _ => None end.
Proof. unfold acquisition_refs, image_refs, source. by repeat destruct (bool_decide _). Qed.

(** The private key of [key.pub] is [key]; another path is its own. *)
Lemma derive_privkey_path_pub key : derive_privkey_path (key +:+ ".pub") = key.
Proof.
  unfold derive_privkey_path. enough (strip_suffix ".pub" (key +:+ ".pub") = Some key) as ->; [done|].
  induction key as [|a key IH]; [done|].
  change (String a key +:+ ".pub") with (String a (key +:+ ".pub")). cbn [strip_suffix].
  rewrite bool_decide_false, IH; [done|].
  intros E. apply (f_equal String.length) in E. cbn in E. rewrite string_length_app in E. cbn in E. lia.
Qed.
