(* ===== verification/DeployFixtures.v ===== *)
(** * hbird deploy-cluster: an example

    A host where the deployment of [example_deployment] succeeds, for the
    theorems' witnesses. *)

From S2P Require Import Prelude RustStr ConfigTypes SshOptions SshClient Effects VirtConn Host.
From S2P Require Import DeployPlan DeployNet DeployText Deploy.

(** No VM is defined, the address is there at once, everything else works. *)
Definition obliging_answer (cmd : string) : RunOutput :=
  if contains "dominfo" cmd then mkRunOutput (Exited 1) "" "no such domain"
  else if contains "domifaddr" cmd then
    mkRunOutput (Exited 0)
      ("-" +:+ NL +:+ "-" +:+ NL +:+ "vnet0 52:54:00:aa:bb:cc ipv4 192.168.122.10/24" +:+ NL) ""
  else if contains "kubeadm token" cmd then mkRunOutput (Exited 0) "kubeadm join 192.168.122.10" ""
  else if contains "net-info" cmd then mkRunOutput (Exited 0) "Active: yes" ""
  else mkRunOutput (Exited 0) "yes" "".
Definition obliging_world : World := {|
  ssh_answer _ _ cmd _ := Ok (obliging_answer cmd);
  local_answer _ argv := Ok (obliging_answer (default "" (last argv)));
  stdout_answer _ _ := Ok tt;
  stderr_answer _ _ := Ok tt;
  file_answer _ _ := Ok "";
  fs_answer _ _ := Ok tt;
|}.

Example obliging_run :
  is_ok (@run_plan obliging_world bare_host example_deployment []).1 = true.
Proof. vm_compute. reflexivity. Qed.
