(* ===== verification/DeployFacts.v ===== *)
(** * What [hbird deploy-cluster] does

    The script of a deployment and that every run follows it; a dry run only
    prints; what success says about the nodes. *)

From S2P Require Import Prelude RustStr ConfigTypes ConfigLexer ConfigBuild SshOptions SshClient.
From S2P Require Import Effects VirtUri Shell VirtParse VirtConn Cp Cache Transcript ConnSteps Host.
From S2P Require Import DeployPlan DeployNet DeployText Deploy DeployFixtures.

Section host.
Context `{W : World}.

Lemma scripted_or_fail {A} s what (m : IO VirtError A) P :
  scripted s m P → scripted s (or_fail what m) P.
Proof. apply scripted_map_err. Qed.

Lemma scripted_deploy_log line : scripted [] (log line) (λ _, True).
Proof. apply scripted_quiet. by apply quiet_emit. Qed.

Lemma scripted_look {A} (f : history → A) : scripted [] (ask f : IO anyhow A) (λ _, True).
Proof. by apply scripted_pure. Qed.
End host.

Create HintDb deploy.
#[export] Hint Resolve scripted_conn_run scripted_run_ scripted_try_conn_run scripted_or_fail
  scripted_deploy_log scripted_look : deploy.

(** ** The scripts *)

Section scripts.
Context `{W : World} `{Hst : Host} (p : Plan).
#[local] Abbreviation kvm := (dc_kvm_host (args p)).
#[local] Abbreviation c := (build_connection kvm).
#[local] Abbreviation sh_ := (sh kvm).

(** A poll: tries of one command, with pauses; the run goes on only after one
    that succeeded. *)
Definition poll_script (cmd : string) : list stage :=
  [Some_of (λ s, s = sh_ cmd ∨ s = Wait (from_secs (sleep_secs p))); Must (sh_ cmd)].

Definition acquisition_script (cp_ref worker_ref : string) : list stage :=
  if from_registry p
  then [Must (sh_ (podman_pull_cmd p cp_ref)); Must (sh_ (podman_pull_cmd p worker_ref))]
  else [Must (sh_ (make_image_cmd (plan_repo_root p) CP_TARGET));
        Must (sh_ (make_image_cmd (plan_repo_root p) WORKER_TARGET))].

Definition cat_pubkey : string := "cat -- " +:+ sh_quote (ssh_pubkey_file (config p)).

(** The template is reused ([None]) or built from a configuration, and marked
    with its build id when that is known. *)
Definition built_script (image qcow bib_config : string) (id : option string) : list stage :=
  [Must (sh_ cat_pubkey);
   Must (sh_ (heredoc (sh_quote bib_config_tmp) "HBIRD_BIB_EOF" bib_config));
   Must (sh_ (bib_run_cmd p image bib_config_tmp));
   Must (sh_ ("mv -- " +:+ sh_quote (pool p +:+ "/qcow2/disk.qcow2") +:+ " " +:+ sh_quote qcow));
   Must (sh_ ("rm -rf -- " +:+ sh_quote (pool p +:+ "/qcow2")));
   May (sh_ ("rm -f -- " +:+ sh_quote bib_config_tmp));
   May (sh_ "virsh pool-refresh default 2>/dev/null || true");
   May (sh_ "virsh pool-refresh mass2 2>/dev/null || true")]
  ++ match id with
     | Some id => [May (sh_ ("printf '%s\n' " +:+ sh_quote id +:+ " > "
                             +:+ sh_quote (qcow +:+ ".build-ref")))]
     | None => []
     end.
Definition build_part (image qcow : string) (built : option (string * option string)) : list stage :=
  match built with
  | None => []
  | Some (bib_config, id) => built_script image qcow bib_config id
  end.
Definition template_script (image qcow : string) (built : option (string * option string))
    : list stage :=
  (if from_registry p then [May (sh_ (podman_inspect_vcs_ref_cmd p image))] else [])
  ++ build_part image qcow built.

(** The seed of a VM: its user-data, its network configuration, the ISO. *)
Definition seed_script (name ud_tmp user_data tag : string) (net2 : option Net2) : list stage :=
  let nc_tmp := "/tmp/hbird-netcfg-" +:+ tag +:+ ".yaml" in
  [Must (sh_ (heredoc ("'" +:+ ud_tmp +:+ "'") "HBIRD_CI_EOF" user_data))]
  ++ match net2 with
     | Some n => [Must (sh_ (heredoc ("'" +:+ nc_tmp +:+ "'") "HBIRD_CI_EOF"
                               (render_net2_network_config (net2_mac n) (net2_ip n))))]
     | None => []
     end
  ++ [Must (sh_ (cloud_init_seed_cmd name ud_tmp (seed_of p name) ((λ _, nc_tmp) <$> net2)))].

(** The VM must not be defined. *)
Definition absent_script (name : string) : list stage :=
  [Unless (sh_ (virsh c ("dominfo " +:+ shell_quote name)))].

(** The VM itself: its disk, its DHCP reservation, [virt-install]. *)
Definition create_script (template : string) (ip : option string) (spec : VmSpec) : list stage :=
  let net := virsh c ("net-dumpxml " +:+ shell_quote "default") in
  let add mac ip := virsh c ("net-update " +:+ shell_quote "default" +:+ " add ip-dhcp-host "
                             +:+ shell_quote (host_xml mac (vm_name spec) ip) +:+ " --live --config") in
  [Must (sh_ ("cp --reflink=auto " +:+ shell_quote template +:+ " "
              +:+ shell_quote (disk_path spec)))]
  ++ match ip with
     | Some ip => [Some_of (λ s, s = sh_ net ∨ s = sh_ (add (default "" (primary_mac spec)) ip))]
     | None => []
     end
  ++ [Must (sh_ (virt_install_cmd c spec))].

Definition cp_script (pubkey : string) (macs : PrimaryMacs) (net2 : option Net2) : list stage :=
  let cfg := config p in
  let name := plan_cp p in
  seed_script name cp_ud_tmp
    (render_cp_user_data name pubkey (switch_to_ghcr cfg) (ghcr_tag cfg) (auto_update_cp cfg)
       (cp_overrides p net2)) ("cp-" +:+ show_N process_id) net2
  ++ absent_script name
  ++ create_script (cp_template p) (non_empty (cp_ip cfg)) (cp_spec p (seed_of p name) macs net2).

Definition worker_script (pubkey join_cmd : string) (macs : PrimaryMacs) (net2s : option (list Net2))
    (i : nat) (w : string) : list stage :=
  let cfg := config p in
  let net2 := worker_net2 net2s i in
  absent_script w
  ++ seed_script w (worker_ud_tmp w)
       (render_worker_user_data w pubkey join_cmd (switch_to_ghcr cfg) (ghcr_tag cfg)
          (worker_overrides p net2)) ("w-" +:+ show_N process_id +:+ "-" +:+ w) net2
  ++ create_script (worker_template p) (worker_ip p i) (worker_spec p macs net2 i w).

(** The control plane has an address and answers there. *)
Definition cp_ready_script (privkey cp_ip : string) : list stage :=
  poll_script (virsh c ("domifaddr " +:+ shell_quote (plan_cp p)))
  ++ poll_script (cp_ssh_cmd privkey cp_ip any_ready_cmd).

Definition verify_script (cp_ip : string) : list stage :=
  if run_verify (config p) then [May (Run (verify_argv p cp_ip))] else [].

Definition network_script (net2 : option Net2) : list stage :=
  match net2 with
  | Some n => [Must (sh_ (virsh c ("net-info " +:+ shell_quote (net2_network n))));
               May (sh_ (virsh c ("net-dumpxml " +:+ shell_quote (net2_network n))))]
  | None => []
  end.

(** What the run learns on the way. *)
Record learned : Type := mkLearned {
  pubkey : string;
  cp_built : option (string * option string);
  worker_built : option (string * option string);
  cp_address : string;
  join_command : string;
}.

Definition workers_script (l : learned) (macs : PrimaryMacs) (net2s : option (list Net2))
    (i : nat) (names : list string) : list stage :=
  mjoin (imap (λ k w, worker_script (pubkey l) (join_command l) macs net2s (i + k) w) names).

Definition refs_of : string * string :=
  default ("", "") (image_refs (image_source (config p)) (ghcr_tag (config p))).

Definition deployment (l : learned) (macs : PrimaryMacs) (net2 : option (Net2 * list Net2))
    : list stage :=
  let privkey := derive_privkey_path (ssh_pubkey_file (config p)) in
  let refs := refs_of in
  network_script (fst <$> net2)
  ++ [Must (sh_ cat_pubkey)]
  ++ acquisition_script refs.1 refs.2
  ++ template_script refs.1 (cp_template p) (cp_built l)
  ++ template_script refs.2 (worker_template p) (worker_built l)
  ++ cp_script (pubkey l) macs (fst <$> net2)
  ++ cp_ready_script privkey (cp_address l)
  ++ [Must (sh_ (token_cmd p privkey (cp_address l)))]
  ++ workers_script l macs (snd <$> net2) 0 (plan_workers p)
  ++ mjoin ((λ n, poll_script (node_ready_cmd privkey (cp_address l) n)) <$> expected_nodes p)
  ++ verify_script (cp_address l).

(** *** The steps follow their scripts *)

Lemma parse_dominfo_err out cmd e : parse_dominfo out cmd = Err e → ∃ r, e = UnparseableOutput cmd r.
Proof.
  unfold parse_dominfo. destruct (foldl _ _ _) as [[] [] [] []]; cbn; naive_solver.
Qed.

Lemma scripted_refuse_defined name d f :
  scripted (absent_script name) (refuse_defined c name d f) (λ _, True).
Proof.
  unfold refuse_defined, absent_script. set (cmd := virsh c _).
  eapply emits_io_bind with (P := λ r es, ∃ ok, transcript es = [(sh_ cmd, ok)]
    ∧ ∃ r', r = Ok r' ∧ (ok = true → ∀ k e, r' ≠ Err (VirshFailed k e))).
  - apply emits_lift. eapply emits_io_bind; [apply conn_run_step|..].
    + intros out e1 [H1 _] h. exists true. split; [by rewrite app_nil_r|].
      eexists; split; [done|]. intros _ k e Hr.
      change (parse_dominfo out cmd = Err (VirshFailed k e)) in Hr.
      by apply parse_dominfo_err in Hr as [? [=]].
    + intros e e1 [H1 _]. exists false. split; [done|]. by eexists.
  - intros r es (ok & Hes & r' & [= <-] & Hok). destruct r as [i|[]]; try (intros h; cbn;
      rewrite app_nil_r, Hes; split; [constructor|done]).
    intros h. cbn. rewrite app_nil_r, Hes. split; [|done]. destruct ok; [|repeat constructor].
    by destruct (Hok eq_refl command stderr).
  - intros e es (ok & _ & r' & [=] & _).
Qed.

Lemma only_verb {A} (S : step → Prop) cmd (k : string → IO VirtError A) :
  S (sh_ cmd) → (∀ s, only (step_in S) (k s)) →
  only (step_in S) (try (s ← conn_run c cmd; k s) : IO anyhow _).
Proof.
  intros Hs Hk. apply only_lift, only_catch, only_io_bind; [|done].
  eapply emits_conseq; [apply conn_run_step|]. intros r es [H _].
  apply Forall_forall. intros e He s ok Hse. pose proof (transcript_elem e s ok es He Hse) as Hin.
  rewrite H in Hin. by apply list_elem_of_singleton in Hin as [= -> _].
Qed.

Lemma only_try_conn_run (S : step → Prop) cmd :
  S (sh_ cmd) → only (step_in S) (try (conn_run c cmd) : IO anyhow _).
Proof.
  intros Hs. apply only_lift, only_catch. eapply emits_conseq; [apply conn_run_step|].
  intros r es [H _]. apply Forall_forall. intros e He s ok Hse.
  pose proof (transcript_elem e s ok es He Hse) as Hin.
  rewrite H in Hin. by apply list_elem_of_singleton in Hin as [= -> _].
Qed.

Lemma only_log (S : step → Prop) line : only (step_in S) (log line).
Proof. apply only_lift, only_emit. by intros s ok. Qed.

Lemma scripted_reserve name mac ip (spec : VmSpec) :
  vm_name spec = name → primary_mac spec = Some mac →
  scripted (match ip with
            | Some ip => [Some_of (λ s,
                s = sh_ (virsh c ("net-dumpxml " +:+ shell_quote "default"))
                ∨ s = sh_ (virsh c ("net-update " +:+ shell_quote "default" +:+ " add ip-dhcp-host "
                    +:+ shell_quote (host_xml (default "" (primary_mac spec)) (vm_name spec) ip)
                    +:+ " --live --config")))]
            | None => []
            end) (reserve c name mac ip) (λ _, True).
Proof.
  intros <- ->. unfold reserve. destruct ip as [ip|]; [|by apply scripted_ret].
  apply scripted_some. unfold ensure_dhcp_reservation.
  apply only_io_bind; [apply only_try_conn_run; by left|]. intros r.
  destruct (classify_dhcp_reservation _ _ _); [apply only_log..|].
  apply only_io_bind; [apply only_verb; [by right|intros; apply only_io_ret]|].
  intros [[]|]; apply only_log.
Qed.

Lemma scripted_create {A} template ip spec mac what line (k : IO anyhow A) P :
  primary_mac spec = Some mac →
  scripted [Must (sh_ (virt_install_cmd c spec))] k P →
  scripted (create_script template ip spec)
    (_ ← or_fail what (remote_cp_reflink c template (disk_path spec));
     _ ← reserve c (vm_name spec) mac ip;
     _ ← log line; k) P.
Proof.
  intros Hm Hk. unfold create_script. cbv zeta.
  eapply scripted_bind; [apply scripted_or_fail, scripted_run_|]. intros _ _.
  eapply scripted_bind; [by apply scripted_reserve|]. intros _ _.
  eapply scripted_quietly; [apply scripted_deploy_log|]. intros _ _. exact Hk.
Qed.

Lemma scripted_seed {A} name ud_tmp user_data tag net2 what1 what2 s (k : IO anyhow A) P :
  scripted s k P →
  scripted (seed_script name ud_tmp user_data tag net2 ++ s)
    (_ ← or_fail what1 (exec_shell c (heredoc ("'" +:+ ud_tmp +:+ "'") "HBIRD_CI_EOF" user_data));
     nc_tmp ← write_net2_config_tmp c net2 tag;
     _ ← or_fail what2 (exec_shell c (cloud_init_seed_cmd name ud_tmp (seed_of p name) nc_tmp));
     k) P.
Proof.
  intros Hk. unfold seed_script. cbv zeta. rewrite <-!app_assoc.
  eapply scripted_bind; [apply scripted_or_fail, scripted_conn_run|]. intros _ _.
  eapply scripted_bind with
    (P := λ r, r = (λ _, "/tmp/hbird-netcfg-" +:+ tag +:+ ".yaml") <$> net2).
  { destruct net2 as [n|]; cbn [write_net2_config_tmp]; [|by apply scripted_ret].
    eapply (scripted_step _ []); [apply scripted_or_fail, scripted_conn_run|]. intros _ _.
    by apply scripted_ret. }
  intros nc ->. eapply scripted_bind; [apply scripted_or_fail, scripted_conn_run|]. by intros _ _.
Qed.

Hypothesis Hlive : dry_run p = false.

Lemma scripted_cp_seed k net2 :
  let cfg := config p in
  let name := plan_cp p in
  scripted (seed_script name cp_ud_tmp
              (render_cp_user_data name k (switch_to_ghcr cfg) (ghcr_tag cfg) (auto_update_cp cfg)
                 (cp_overrides p net2)) ("cp-" +:+ show_N process_id) net2)
    (plan_cp_seed c p k net2) (λ x, x = seed_of p name).
Proof using Hlive.
  cbv zeta. unfold plan_cp_seed. rewrite Hlive. cbv zeta.
  rewrite <-(app_nil_r (seed_script _ _ _ _ _)). eapply scripted_seed. by apply scripted_ret.
Qed.

Lemma scripted_cp_install macs net2 :
  let name := plan_cp p in
  scripted (absent_script name
            ++ create_script (cp_template p) (non_empty (cp_ip (config p)))
                 (cp_spec p (seed_of p name) macs net2))
    (plan_cp_virt_install c p (cp_template p) (seed_of p name) macs net2) (λ _, True).
Proof using Hlive.
  cbv zeta. unfold plan_cp_virt_install. rewrite Hlive. cbv zeta.
  eapply scripted_bind; [apply scripted_refuse_defined|]. intros _ _.
  eapply scripted_quietly; [apply scripted_deploy_log|]. intros _ _.
  set (spec := cp_spec p (seed_of p (plan_cp p)) macs net2).
  apply (scripted_create _ _ spec (cp_primary macs)); [done|].
  eapply (scripted_step _ []); [apply scripted_or_fail, scripted_run_|]. intros _ _.
  by apply scripted_ret.
Qed.

Lemma scripted_worker k j macs net2s i w :
  scripted (worker_script k j macs net2s i w)
    (spawn_worker c p (worker_template p) j k macs net2s i w) (λ _, True).
Proof.
  unfold worker_script, spawn_worker. cbv zeta.
  eapply scripted_bind; [apply scripted_refuse_defined|]. intros _ _.
  eapply scripted_seed. eapply scripted_quietly; [apply scripted_deploy_log|]. intros _ _.
  set (spec := worker_spec p macs (worker_net2 net2s i) i w).
  apply (scripted_create _ _ spec (worker_mac_at macs i)); [done|].
  apply scripted_or_fail, scripted_run_.
Qed.

(** *** Polls *)

Lemma retry_find_retry {E A} n s (f : IO E (option A)) h :
  retry n s (x ← f; mret (bool_decide (is_Some x))) h
  = let '(r, es) := retry_find n s f h in
    (match r with Ok x => Ok (bool_decide (is_Some x)) | Err e => Err e end, es).
Proof.
  set (g := (x ← f; mret (bool_decide (is_Some x))) : IO E bool).
  assert (Hg : ∀ h, g h = let '(r, es) := f h in
      (match r with Ok x => Ok (bool_decide (is_Some x)) | Err e => Err e end, es)).
  { intros h'. unfold g, mbind, IO_bind. destruct (f h') as [[x|e] es]; cbn; by rewrite ?app_nil_r. }
  clearbody g. revert h. induction n as [|n IH]; intros h; cbn [retry retry_find]; [done|].
  generalize ((0 <? n)%nat && (0 <? s)%N) as again. intros again.
  cbv [mbind IO_bind mret IO_ret lift sleep emit]. rewrite Hg.
  destruct (f h) as [[[x|]|e] es]; cbn; [done| |done].
  destruct again; rewrite IH; by destruct (retry_find _ _ _ _).
Qed.

(** One try of [cmd]; [true] only when the command succeeded. *)
Definition probes (cmd : string) (f : IO anyhow bool) : Prop :=
  emits f (λ r es, ∃ ok, transcript es = [(sh_ cmd, ok)] ∧ (r = Ok true → ok = true)).

Lemma retry_steps cmd f n :
  probes cmd f →
  emits (retry n (sleep_secs p) f) (λ r es, ∃ tries,
    Forall (λ t, t.1 = sh_ cmd ∨ t.1 = Wait (from_secs (sleep_secs p))) tries
    ∧ (r = Ok true ∧ transcript es = tries ++ [(sh_ cmd, true)]
       ∨ r ≠ Ok true ∧ transcript es = tries)).
Proof.
  intros Hf. induction n as [|n IH]; cbn [retry].
  { apply emits_io_ret. exists []. split; [constructor|]. by right. }
  eapply emits_io_bind; [exact Hf|..].
  - intros [] e1 (ok & H1 & Hok).
    + intros h. exists []. split; [constructor|]. left. split; [done|].
      cbn. rewrite app_nil_r, H1. by rewrite Hok.
    + eapply emits_io_bind with (P := λ _ es,
        Forall (λ t, t.1 = sh_ cmd ∨ t.1 = Wait (from_secs (sleep_secs p))) (transcript es)).
      * destruct (_ && _); [|by apply emits_io_ret]. intros h. apply Forall_singleton. by right.
      * intros _ e2 H2. eapply emits_conseq; [exact IH|].
        intros r es (tries & Ht & Hr).
        exists ((sh_ cmd, ok) :: transcript e2 ++ tries). split.
        { constructor; [by left|]. by apply Forall_app. }
        rewrite !transcript_app, H1.
        destruct Hr as [[-> ->]|[Hr ->]]; [left|right]; (split; [done|]).
        -- by list_simplifier.
        -- done.
      * intros e e2 H2. exists ((sh_ cmd, ok) :: transcript e2). split; [constructor; [by left|done]|].
        right. split; [done|]. by rewrite transcript_app, H1.
  - intros e e1 (ok & H1 & _). exists [(sh_ cmd, ok)]. split; [apply Forall_singleton; by left|]. by right.
Qed.

Lemma follows_poll_ok cmd tries s b ts :
  Forall (λ t, t.1 = sh_ cmd ∨ t.1 = Wait (from_secs (sleep_secs p))) tries →
  follows s b ts → follows (poll_script cmd ++ s) b ((tries ++ [(sh_ cmd, true)]) ++ ts).
Proof.
  intros Ht Hs. rewrite <-app_assoc. by apply follows_some_of, follows_must.
Qed.
Lemma follows_poll_stop cmd tries s :
  Forall (λ t, t.1 = sh_ cmd ∨ t.1 = Wait (from_secs (sleep_secs p))) tries →
  follows (poll_script cmd ++ s) false tries.
Proof.
  intros Ht. rewrite <-(app_nil_r tries). by apply follows_some_of; [|constructor].
Qed.

Lemma scripted_retry {A} cmd f n msg s (k : IO anyhow A) P :
  probes cmd f → scripted s k P →
  scripted (poll_script cmd ++ s)
    (ready ← retry n (sleep_secs p) f; if negb ready then bail msg else k) P.
Proof.
  intros Hf Hk. eapply emits_io_bind; [by apply retry_steps|..].
  - intros ready e1 (tries & Ht & [[[= ->] H1]|[Hr H1]]).
    + cbn [negb]. eapply emits_conseq; [exact Hk|]. intros r e2 [H2 HP]. split; [|done].
      rewrite transcript_app, H1. by apply follows_poll_ok.
    + destruct ready; [done|]. intros h. cbn. rewrite app_nil_r, H1.
      split; [by apply follows_poll_stop|done].
  - intros e e1 (tries & Ht & [[[=] _]|[_ ->]]). split; [by apply follows_poll_stop|done].
Qed.

Lemma runs_find {A B} `{!Inhabited A} cmd (f : IO anyhow (option A)) n msg
    (k : A → IO anyhow B) (T : A → B → list stage → Prop) :
  probes cmd (x ← f; mret (bool_decide (is_Some x))) →
  (∀ x, runs (T x) (k x)) → (∀ x, ∃ b s, T x b s) →
  runs (λ b s, ∃ x s2, T x b s2 ∧ s = poll_script cmd ++ s2)
    (found ← retry_find n (sleep_secs p) f; match found with Some x => k x | None => bail msg end).
Proof.
  intros Hf Hk Hi. destruct (Hi inhabitant) as (b0 & s0 & H0).
  eapply emits_io_bind with (P := λ r es, ∃ tries,
    Forall (λ t, t.1 = sh_ cmd ∨ t.1 = Wait (from_secs (sleep_secs p))) tries
    ∧ ((∃ x, r = Ok (Some x)) ∧ transcript es = tries ++ [(sh_ cmd, true)]
       ∨ (∀ x, r ≠ Ok (Some x)) ∧ transcript es = tries)).
  { intros h. destruct (retry_steps cmd _ n Hf h) as (tries & Ht & Hr).
    rewrite retry_find_retry in Hr. destruct (retry_find n _ f h) as [r es].
    exists tries. split; [done|]. cbn [fst snd] in Hr |- *.
    destruct r as [[x|]|e], Hr as [[? ->]|[? ->]]; simplify_eq; eauto; by right. }
  - intros found e1 (tries & Ht & Hr). destruct found as [x|].
    + destruct Hr as [[_ H1]|[Hr _]]; [|by destruct (Hr x)].
      eapply emits_conseq; [apply Hk|]. intros r e2 (b & s & HT & Hb & H2).
      exists b, (poll_script cmd ++ s). split; [by exists x, s|]. split; [done|].
      rewrite transcript_app, H1. by apply follows_poll_ok.
    + destruct Hr as [[[x [=]] _]|[_ H1]]. intros h. exists b0, (poll_script cmd ++ s0).
      split; [by exists inhabitant, s0|]. split; [done|]. cbn. rewrite app_nil_r, H1.
      by apply follows_poll_stop.
  - intros e e1 (tries & Ht & [[[x [=]] _]|[_ ->]]). exists b0, (poll_script cmd ++ s0).
    split; [by exists inhabitant, s0|]. split; [done|]. by apply follows_poll_stop.
Qed.

(** *** Images and templates *)

Lemma scripted_check_freshness image label file :
  scripted [] (check_freshness p image label file) (λ _, True).
Proof.
  eapply scripted_quietly; [apply scripted_look|]. intros vcs _.
  eapply scripted_quietly; [apply scripted_look|]. intros fresh _.
  destruct (assess_ghcr_image _ _ _ _ _); [by apply scripted_ret|apply scripted_deploy_log|].
  apply scripted_throw.
Qed.

Lemma acquisition_refs_spec :
  acquisition_refs p = Ok (refs_of) ∨ ∃ e, acquisition_refs p = Err e.
Proof.
  unfold acquisition_refs, refs_of, image_refs, source.
  repeat (destruct (bool_decide _); [by left|]). by right; eexists.
Qed.

Lemma scripted_acquisition :
  scripted (acquisition_script refs_of.1 refs_of.2) (plan_image_acquisition c p) (λ r, r = refs_of).
Proof using Hlive.
  unfold plan_image_acquisition. destruct acquisition_refs_spec as [->|[e ->]].
  2: { eapply scripted_quietly with (P := λ _, False); [by apply scripted_of_result|]. done. }
  eapply scripted_quietly with (P := λ r, r = refs_of).
  { apply scripted_of_result. by intros ? [= <-]. }
  intros ? ->. destruct refs_of as [cp_ref worker_ref]. cbn [fst snd]. rewrite Hlive.
  eapply scripted_last with (P := λ _, True); [|intros ? _; by apply scripted_ret].
  unfold acquisition_script. destruct (from_registry p).
  - eapply scripted_step; [apply scripted_or_fail, scripted_conn_run|]. intros _ _.
    eapply (scripted_step _ []); [apply scripted_or_fail, scripted_conn_run|]. intros _ _.
    eapply scripted_quietly; [apply scripted_check_freshness|]. intros _ _.
    apply scripted_check_freshness.
  - eapply scripted_step; [apply scripted_or_fail, scripted_conn_run|]. intros _ _.
    eapply (scripted_step _ []); [apply scripted_or_fail, scripted_conn_run|]. intros _ _.
    by apply scripted_ret.
Qed.

Lemma scripted_build_id image :
  scripted (if from_registry p then [May (sh_ (podman_inspect_vcs_ref_cmd p image))] else [])
    (compute_expected_build_id c p image) (λ _, True).
Proof.
  unfold compute_expected_build_id. destruct (from_registry p).
  - eapply (scripted_step _ []); [apply scripted_try_conn_run|]. intros r _. by apply scripted_ret.
  - destruct (bool_decide _); [apply scripted_look|by apply scripted_ret].
Qed.

Lemma scripted_best_effort_ cmd : scripted [May (sh_ cmd)] (best_effort (exec_shell c cmd)) (λ _, True).
Proof.
  eapply (scripted_step _ []); [apply scripted_try_conn_run|]. intros r _. by apply scripted_ret.
Qed.

Lemma scripted_mark qcow id :
  scripted (match id with
            | Some id => [May (sh_ ("printf '%s\n' " +:+ sh_quote id +:+ " > "
                                    +:+ sh_quote (qcow +:+ ".build-ref")))]
            | None => []
            end)
    (match id with
     | Some id => best_effort (exec_shell c ("printf '%s\n' " +:+ sh_quote id +:+ " > "
                                             +:+ sh_quote (qcow +:+ ".build-ref")))
     | None => mret tt
     end) (λ _, True).
Proof. destruct id; [apply scripted_best_effort_|by apply scripted_ret]. Qed.

Lemma runs_rebuild image qcow id :
  runs (λ _ s, ∃ content, s = built_script image qcow content id) (rebuild_qcow2 c p image qcow id).
Proof.
  unfold rebuild_qcow2, built_script. cbv zeta. eapply runs_conseq.
  - eapply (runs_then _ _ ""); [apply scripted_or_fail, scripted_conn_run|done| |].
    + intros k _. eapply (runs_then _ _ ""); [apply scripted_look|done| |].
      * intros content _. eapply (runs_scripted _ _ (λ _, True) tt); [done|].
        do 4 (eapply scripted_step; [apply scripted_or_fail, scripted_conn_run|]; intros _ _).
        do 3 (eapply scripted_step; [apply scripted_best_effort_|]; intros _ _).
        apply scripted_mark.
      * intros content _. by eexists tt, _.
    + intros k _. by eexists tt, _, "", _.
  - intros [] s (k & s1 & _ & (content & s2 & _ & [_ ->] & ->) & ->). by exists content.
Qed.

Definition may_build (image qcow : string) (_ : unit) (s : list stage) : Prop :=
  ∃ built, s = build_part image qcow built.

Lemma runs_may_rebuild image qcow id :
  runs (may_build image qcow) (rebuild_qcow2 c p image qcow id).
Proof.
  eapply runs_conseq; [apply runs_rebuild|]. intros [] s (content & ->).
  by exists (Some (content, id)).
Qed.
Lemma runs_no_build image qcow (m : IO anyhow unit) :
  scripted [] m (λ _, True) → runs (may_build image qcow) m.
Proof.
  intros Hm. eapply runs_conseq; [by eapply (runs_scripted _ _ (λ _, True) tt)|].
  intros [] s [_ ->]. by exists None.
Qed.

Lemma scripted_read_sidecar qcow : scripted [] (read_local_sidecar qcow) (λ _, True).
Proof.
  apply scripted_pure. intros h. unfold read_local_sidecar. by run_io.
Qed.

Lemma runs_template image qcow :
  runs (λ _ s, ∃ built, s = template_script image qcow built) (build_one_qcow2 c p image qcow).
Proof.
  assert (Hi : ∃ b s, may_build image qcow b s) by (by eexists tt, _, None).
  unfold build_one_qcow2, template_script. eapply runs_conseq.
  - eapply (runs_then _ (λ _, True) None (λ _, may_build image qcow));
      [apply scripted_build_id|done| |done].
    intros id _. eapply (runs_quietly (λ _, True) true); [apply scripted_look|done| |done].
    intros present _. destruct (_ && _); [|apply runs_may_rebuild].
    eapply (runs_quietly (λ _, True) None); [apply scripted_read_sidecar|done| |done].
    intros cached _. destruct (assess_qcow2_cache _ _ _).
    + apply runs_no_build, scripted_deploy_log.
    + eapply (runs_quietly (λ _, True) tt); [apply scripted_deploy_log|done| |done].
      intros _ _. apply runs_may_rebuild.
    + apply runs_no_build, scripted_throw.
  - intros [] s (id & s2 & _ & [built ->] & ->). by exists built.
Qed.

(** *** The workers and the end of the run *)

Lemma scripted_for_each {A} (f : A → IO anyhow unit) (s : A → list stage) l :
  (∀ x, scripted (s x) (f x) (λ _, True)) →
  scripted (mjoin (s <$> l)) (for_each f l) (λ _, True).
Proof.
  intros Hf. induction l as [|x l IH]; [by apply scripted_ret|].
  eapply scripted_bind; [apply Hf|]. by intros _ _.
Qed.

Lemma scripted_for_each_i {A} (f : nat → A → IO anyhow unit) (s : nat → A → list stage) l : ∀ i,
  (∀ k x, scripted (s k x) (f k x) (λ _, True)) →
  scripted (mjoin (imap (λ k x, s (i + k)%nat x) l)) (for_each_i f i l) (λ _, True).
Proof.
  induction l as [|x l IH]; intros i Hf; [by apply scripted_ret|].
  cbn [for_each_i imap mjoin list_join]. eapply scripted_bind.
  - rewrite Nat.add_0_r. apply Hf.
  - intros _ _. specialize (IH (S i) Hf).
    assert (E : imap ((λ k x, s (i + k)%nat x) ∘ S) l = imap (λ k x, s (S i + k)%nat x) l).
    { apply imap_ext. intros k y _. cbn. by rewrite Nat.add_succ_r. }
    by rewrite E.
Qed.

Lemma scripted_workers l macs net2s :
  scripted (workers_script l macs net2s 0 (plan_workers p))
    (plan_worker_spawn c p (worker_template p) (join_command l) (pubkey l) macs net2s) (λ _, True).
Proof using Hlive.
  unfold plan_worker_spawn, workers_script. rewrite Hlive.
  destruct (plan_workers p) as [|w ws]; [by apply scripted_ret|].
  apply (scripted_for_each_i (spawn_worker c p (worker_template p) (join_command l) (pubkey l) macs net2s)
           (worker_script (pubkey l) (join_command l) macs net2s)).
  apply scripted_worker.
Qed.

Lemma probe_tries {A} cmd (g : result VirtError string → A) (f : IO anyhow A) :
  f = (r ← try (exec_shell c cmd); mret (g r)) →
  emits f (λ r es, ∃ r', r = Ok (g r') ∧ transcript es = [(sh_ cmd, is_ok r')]).
Proof.
  intros ->. eapply emits_io_bind with (P := λ r es, ∃ r', r = Ok r' ∧ transcript es = [(sh_ cmd, is_ok r')]).
  - apply emits_lift. eapply emits_conseq; [apply conn_run_step|]. intros r es [H _]. by exists r.
  - intros r es (r' & [= <-] & H) h. exists r. split; [done|]. cbn. by rewrite app_nil_r.
  - intros e es (r' & [=] & _).
Qed.

Lemma probe_ok_probes cmd : probes cmd (probe_ok c cmd).
Proof.
  eapply emits_conseq; [by eapply probe_tries|]. cbn beta.
  intros r es (r' & -> & H). exists (is_ok r'). split; [done|]. by destruct r'.
Qed.
Lemma probe_yes_probes cmd : probes cmd (probe_yes c cmd).
Proof.
  eapply emits_conseq; [by eapply probe_tries|]. cbn beta.
  intros r es (r' & -> & H). exists (is_ok r'). split; [done|]. by destruct r'.
Qed.

Lemma scripted_await_nodes privkey ip :
  scripted (mjoin ((λ n, poll_script (node_ready_cmd privkey ip n)) <$> expected_nodes p))
    (plan_cluster_ready c p ip privkey) (λ _, True).
Proof using Hlive.
  unfold plan_cluster_ready. rewrite Hlive. eapply scripted_last; [|intros _ _; apply scripted_deploy_log].
  apply (scripted_for_each (await_node c p ip privkey)). intros n. unfold await_node.
  eapply scripted_quietly; [apply scripted_deploy_log|]. intros _ _.
  rewrite <-(app_nil_r (poll_script _)). apply scripted_retry; [apply probe_yes_probes|].
  by apply scripted_ret.
Qed.

Lemma scripted_verify ip : scripted (verify_script ip) (plan_verify p ip) (λ _, True).
Proof using Hlive.
  unfold verify_script, plan_verify. destruct (run_verify _); [|by apply scripted_ret].
  rewrite Hlive. cbn [negb]. eapply (scripted_step _ []) with (P := λ _, True).
  - intros h. split; [|done]. cbn. repeat constructor.
  - intros r _. destruct r as [out|e]; [destruct (success _); [by apply scripted_ret|]|];
      (destruct (strict_cache p); [apply scripted_throw|apply scripted_deploy_log]).
Qed.

Lemma scripted_summary ip : scripted [] (plan_summary p ip) (λ _, True).
Proof.
  unfold plan_summary.
  match goal with |- context [for_each _ ?l] => generalize l end.
  intros l. induction l as [|x l IH]; [by apply scripted_ret|].
  eapply scripted_quietly; [apply scripted_deploy_log|]. by intros _ _.
Qed.

(** *** The whole run *)

#[local] Instance Ipv4_inhabited : Inhabited Ipv4 := populate (mkIpv4 0 0 0 0).

Lemma probe_cp_ip_probes :
  probes (virsh c ("domifaddr " +:+ shell_quote (plan_cp p)))
    (x ← probe_cp_ip c p; mret (bool_decide (is_Some x))).
Proof.
  unfold probes, probe_cp_ip, domifaddr. set (cmd := virsh c _). intros h.
  pose proof (conn_run_step kvm cmd h) as H. cbv [mbind IO_bind try lift catch of_result mret IO_ret].
  destruct (conn_run c cmd h) as [[out|e] es]; cbn [fst snd] in *; destruct H as [H _].
  - exists true. split; [|done]. destruct (parse_domifaddr out cmd); cbn; by rewrite !app_nil_r.
  - exists false. cbn. rewrite !app_nil_r. by split.
Qed.

Lemma runs_cp_ready privkey :
  runs (λ ip s, s = cp_ready_script privkey ip) (plan_cp_ready c p privkey).
Proof using Hlive.
  unfold plan_cp_ready. rewrite Hlive. eapply (runs_quietly (λ _, True) tt);
    [apply scripted_deploy_log|exact I| |by eexists "", _].
  intros _ _. eapply runs_conseq.
  - apply (runs_find (virsh c ("domifaddr " +:+ shell_quote (plan_cp p))) (probe_cp_ip c p) _ _ _
             (λ x b s, b = show_ipv4 x ∧ s = poll_script (cp_ssh_cmd privkey (show_ipv4 x) any_ready_cmd))).
    + apply probe_cp_ip_probes.
    + intros x. eapply runs_scripted; [done|]. cbv zeta.
      eapply scripted_quietly; [apply scripted_deploy_log|]. intros _ _.
      eapply scripted_quietly; [apply scripted_deploy_log|]. intros _ _.
      rewrite <-(app_nil_r (poll_script _)). apply scripted_retry; [apply probe_ok_probes|].
      eapply scripted_quietly; [apply scripted_deploy_log|]. intros _ _. by apply scripted_ret.
    + intros x. by eexists _, _.
  - intros ip s (x & s2 & [-> ->] & ->). done.
Qed.

Lemma scripted_token ip privkey :
  scripted [Must (sh_ (token_cmd p privkey ip))] (plan_join_token c p ip privkey) (λ _, True).
Proof using Hlive.
  unfold plan_join_token. rewrite Hlive. eapply scripted_quietly; [apply scripted_deploy_log|]. intros _ _.
  eapply (scripted_step _ []); [apply scripted_or_fail, scripted_conn_run|]. intros out _.
  destruct (negb _); [apply scripted_throw|by apply scripted_ret].
Qed.

Lemma scripted_network net2 :
  scripted (network_script net2)
    match net2 with
    | Some n =>
        if dry_run p then log ("DRY-RUN would verify EXTRA_NETWORK '" +:+ net2_network n
              +:+ "' is defined + active (and has enough VFs when it is a hostdev pool)")
        else check_extra_network_on_host c p (net2_network n)
    | None => mret tt
    end (λ _, True).
Proof using Hlive.
  destruct net2 as [n|]; [|by apply scripted_ret]. rewrite Hlive.
  eapply scripted_step; [apply scripted_map_err, scripted_conn_run|]. intros info _.
  destruct (negb _); [apply scripted_throw|].
  eapply (scripted_step _ []); [apply scripted_try_conn_run|]. intros r _.
  destruct (hostdev_vf_count _) as [k|]; [|by apply scripted_ret].
  cbv zeta. destruct (Nat.ltb _ _); [apply scripted_throw|by apply scripted_ret].
Qed.

(** After the control plane answered: everything is known. *)
Lemma scripted_end l macs net2s privkey ip :
  scripted (workers_script l macs net2s 0 (plan_workers p)
            ++ mjoin ((λ n, poll_script (node_ready_cmd privkey ip n)) <$> expected_nodes p)
            ++ verify_script ip)
    (_ ← plan_worker_spawn c p (worker_template p) (join_command l) (pubkey l) macs net2s;
     _ ← plan_cluster_ready c p ip privkey;
     _ ← plan_verify p ip;
     plan_summary p ip) (λ _, True).
Proof using Hlive.
  eapply scripted_bind; [apply scripted_workers|]. intros _ _.
  eapply scripted_bind; [apply scripted_await_nodes|]. intros _ _.
  eapply scripted_last; [apply scripted_verify|]. intros _ _. apply scripted_summary.
Qed.

Definition ready_part (l : learned) (macs : PrimaryMacs) (net2s : option (list Net2)) : list stage :=
  let privkey := derive_privkey_path (ssh_pubkey_file (config p)) in
  cp_ready_script privkey (cp_address l)
  ++ [Must (sh_ (token_cmd p privkey (cp_address l)))]
  ++ workers_script l macs net2s 0 (plan_workers p)
  ++ mjoin ((λ n, poll_script (node_ready_cmd privkey (cp_address l) n)) <$> expected_nodes p)
  ++ verify_script (cp_address l).

Lemma runs_ready k b1 b2 macs net2s :
  let privkey := derive_privkey_path (ssh_pubkey_file (config p)) in
  runs (λ _ s, ∃ ip join, s = ready_part (mkLearned k b1 b2 ip join) macs net2s)
    (cp_ip ← plan_cp_ready c p privkey;
     join_cmd ← plan_join_token c p cp_ip privkey;
     _ ← plan_worker_spawn c p (worker_template p) join_cmd k macs net2s;
     _ ← plan_cluster_ready c p cp_ip privkey;
     _ ← plan_verify p cp_ip;
     plan_summary p cp_ip).
Proof using Hlive.
  intros privkey. unfold ready_part. fold privkey. cbn [cp_address]. eapply runs_conseq.
  - eapply runs_bind; [apply runs_cp_ready| |].
    + intros ip _. eapply (runs_then _ (λ _, True) ""); [apply scripted_token|done| |].
      * intros join _. eapply (runs_scripted _ _ (λ _, True) tt); [done|].
        apply (scripted_end (mkLearned k b1 b2 ip join) macs net2s privkey ip).
      * intros join _. by eexists tt, _.
    + intros ip _. by eexists tt, _, "", _.
  - intros [] s (ip & s1 & s2 & -> & (join & s3 & _ & [_ ->] & ->) & ->). by exists ip, join.
Qed.

Lemma runs_build :
  runs (λ t s, t = (cp_template p, worker_template p)
               ∧ ∃ b1 b2, s = template_script refs_of.1 (cp_template p) b1
                              ++ template_script refs_of.2 (worker_template p) b2)
    (plan_build_qcow2 c p refs_of.1 refs_of.2).
Proof using Hlive.
  unfold plan_build_qcow2. rewrite Hlive. eapply runs_conseq.
  - eapply runs_bind; [apply runs_template| |].
    + intros ? _. eapply runs_bind; [apply runs_template| |].
      * intros ? _. apply (runs_scripted [] _ (λ t, t = (cp_template p, worker_template p))
          (cp_template p, worker_template p)); [done|by apply scripted_ret].
      * intros ? _. by eexists _, _.
    + intros ? _. eexists _, _, tt, _, _. split; [by exists None|done].
  - intros t s (_ & s1 & s2 & [b1 ->] & (_ & s3 & s4 & [b2 ->] & [-> ->] & ->) & ->).
    split; [done|]. exists b1, b2. by rewrite app_nil_r.
Qed.

(** Everything after the images are there. *)
Definition build_and_ready (l : learned) macs net2 : list stage :=
  (template_script refs_of.1 (cp_template p) (cp_built l)
   ++ template_script refs_of.2 (worker_template p) (worker_built l))
  ++ cp_script (pubkey l) macs (fst <$> net2) ++ ready_part l macs (snd <$> net2).

Lemma runs_cp_and_ready k macs (net2 : option (Net2 * list Net2)) :
  let privkey := derive_privkey_path (ssh_pubkey_file (config p)) in
  runs (λ _ s, ∃ ip join, s = cp_script k macs (fst <$> net2)
                              ++ ready_part (mkLearned k None None ip join) macs (snd <$> net2))
    (cp_seed ← plan_cp_seed c p k (fst <$> net2);
     _ ← plan_cp_virt_install c p (cp_template p) cp_seed macs (fst <$> net2);
     cp_ip ← plan_cp_ready c p privkey;
     join_cmd ← plan_join_token c p cp_ip privkey;
     _ ← plan_worker_spawn c p (worker_template p) join_cmd k macs (snd <$> net2);
     _ ← plan_cluster_ready c p cp_ip privkey;
     _ ← plan_verify p cp_ip;
     plan_summary p cp_ip).
Proof using Hlive.
  intros privkey. unfold cp_script. cbv zeta. eapply runs_conseq.
  - eapply (runs_next _ _ (seed_of p (plan_cp p))); [apply scripted_cp_seed|done| |].
    + intros ? ->. eapply (runs_next _ (λ _, True) ""); [apply scripted_cp_install|done| |].
      * intros _ _. apply (runs_ready k None None).
      * by eexists tt, _, "", "".
    + eexists tt, _, _. split; [|done]. by exists "", "".
  - intros [] s (s3 & (s4 & (ip & join & ->) & ->) & ->).
    exists ip, join. by rewrite <-!app_assoc.
Qed.

Lemma runs_build_and_ready k macs (net2 : option (Net2 * list Net2)) :
  let privkey := derive_privkey_path (ssh_pubkey_file (config p)) in
  runs (λ _ s, ∃ l, pubkey l = k ∧ s = build_and_ready l macs net2)
    (templates ← plan_build_qcow2 c p refs_of.1 refs_of.2;
     cp_seed ← plan_cp_seed c p k (fst <$> net2);
     _ ← plan_cp_virt_install c p templates.1 cp_seed macs (fst <$> net2);
     cp_ip ← plan_cp_ready c p privkey;
     join_cmd ← plan_join_token c p cp_ip privkey;
     _ ← plan_worker_spawn c p templates.2 join_cmd k macs (snd <$> net2);
     _ ← plan_cluster_ready c p cp_ip privkey;
     _ ← plan_verify p cp_ip;
     plan_summary p cp_ip).
Proof using Hlive.
  intros privkey. unfold build_and_ready. eapply runs_conseq.
  - eapply (runs_bind _ (λ _ _ s, ∃ ip join, s = cp_script k macs (fst <$> net2)
              ++ ready_part (mkLearned k None None ip join) macs (snd <$> net2)));
      [apply runs_build| |].
    + intros ? (? & -> & _). apply runs_cp_and_ready.
    + intros ? _. by eexists tt, _, "", "".
  - intros [] s (? & ? & ? & (-> & b1 & b2 & ->) & (ip & join & ->) & ->).
    by exists (mkLearned k b1 b2 ip join).
Qed.

Lemma runs_deploy_over macs net2 :
  runs (λ _ s, ∃ l, s = deployment l macs net2) (deploy_over c p macs net2).
Proof using Hlive.
  unfold deploy_over, deployment. cbv zeta. eapply runs_conseq.
  - eapply (runs_next _ (λ _, True) tt); [apply scripted_network|done| |].
    + intros _ _. eapply (runs_then _ (λ _, True) ""); [|done| |].
      * rewrite Hlive. apply scripted_or_fail, scripted_conn_run.
      * intros k _. eapply (runs_next _ _ refs_of); [apply scripted_acquisition|done| |].
        -- intros ? ->. apply runs_build_and_ready.
        -- by eexists tt, _, (mkLearned k None None "" "").
      * intros k _. eexists tt, _, _. split; [|done]. by exists (mkLearned k None None "" "").
    + eexists tt, _, "", _. split; [done|]. split; [|done].
      eexists _. split; [|done]. by exists (mkLearned "" None None "" "").
  - intros [] s (? & (k & ? & _ & (? & (l & <- & ->) & ->) & ->) & ->).
    exists l. unfold build_and_ready. by rewrite <-!app_assoc.
Qed.
End scripts.

(** What the interface checks of [run] accept: the first MACs and the second
    interfaces. *)
Definition accepted (p : Plan) : result anyhow (PrimaryMacs * option (Net2 * list Net2)) :=
  let cfg := config p in
  if negb (enable_cloud_init cfg =? 1)%N then Err (anyhow_msg "ENABLE_CLOUD_INIT")
  else
    macs ← resolve_primary_macs (plan_cp p) (cp_mac cfg) (plan_workers p) (worker_macs cfg);
    _ ← check_cidrs [("POD_CIDR", pod_cidr cfg); ("SERVICE_CIDR", service_cidr cfg)];
    net2 ← validate_extra_network p macs;
    Ok (macs, net2).

Section run.
Context `{W : World} `{Hst : Host}.

Lemma silent_warnings ws :
  scripted [] (for_each (λ w, log ("WARN: config: " +:+ show_config_warning w)) ws) (λ _, True).
Proof.
  induction ws as [|w ws IH]; [by apply scripted_ret|].
  eapply scripted_quietly; [apply scripted_deploy_log|]. by intros _ _.
Qed.

Lemma scripted_refused p e :
  accepted p = Err e → scripted [] (run_plan p) (λ _, False).
Proof.
  unfold run_plan, accepted. destruct (negb _); [intros _; apply scripted_throw|]. intros He.
  eapply scripted_quietly; [apply scripted_deploy_log|]. intros _ _.
  eapply scripted_quietly; [apply silent_warnings|]. intros _ _.
  destruct (resolve_primary_macs _ _ _ _) as [macs|];
    [|by eapply scripted_quietly with (P := λ _, False); [apply scripted_of_result|]].
  eapply scripted_quietly with (P := λ m, m = macs); [apply scripted_of_result; by intros ? [= <-]|].
  intros ? ->. destruct (check_cidrs _) as [[]|];
    [|by eapply scripted_quietly with (P := λ _, False); [apply scripted_of_result|]].
  eapply scripted_quietly with (P := λ _, True); [by apply scripted_of_result|]. intros _ _.
  cbn in He. destruct (validate_extra_network p macs) as [net2|]; [done|].
  by eapply scripted_quietly with (P := λ _, False); [apply scripted_of_result|].
Qed.

Lemma runs_accepted p macs net2 :
  dry_run p = false → accepted p = Ok (macs, net2) →
  runs (λ _ s, ∃ l, s = deployment p l macs net2) (run_plan p).
Proof.
  unfold run_plan, accepted. intros Hlive. destruct (negb _); [done|].
  intros (m & Em & H)%bind_Ok. apply bind_Ok in H as ([] & Ec & H).
  apply bind_Ok in H as (n & En & [= -> ->]).
  assert (Hi : ∃ b s, (λ (_ : unit) s, ∃ l, s = deployment p l macs net2) b s)
    by (by eexists tt, _, (mkLearned "" None None "" "")).
  eapply (runs_quietly (λ _, True) tt); [apply scripted_deploy_log|done| |done]. intros _ _.
  eapply (runs_quietly (λ _, True) tt); [apply silent_warnings|done| |done]. intros _ _.
  eapply (runs_quietly (λ x, x = macs) macs); [|done| |done].
  { apply scripted_of_result. by rewrite Em; intros ? [= <-]. }
  intros ? ->. rewrite Ec.
  eapply (runs_quietly (λ _, True) tt); [by apply scripted_of_result|done| |done]. intros _ _.
  eapply (runs_quietly (λ x, x = net2) net2); [|done| |done].
  { apply scripted_of_result. by rewrite En; intros ? [= <-]. }
  intros ? ->. eapply (runs_quietly (λ _, True) tt); [apply scripted_deploy_log|done| |done]. intros _ _.
  by apply runs_deploy_over.
Qed.


(** ** A dry run *)

Lemma is_out_log line : only is_out (log line).
Proof. by apply only_lift, only_emit. Qed.
#[local] Hint Resolve is_out_log : effects.
#[local] Hint Extern 1 (only _ (ask _)) => (intros h; constructor) : effects.

Lemma is_out_for_each {A} (f : A → IO anyhow unit) l :
  (∀ x, only is_out (f x)) → only is_out (for_each f l).
Proof. intros Hf. apply only_for_each. auto. Qed.

Lemma is_out_for_each_i {A} (f : nat → A → IO anyhow unit) l : ∀ i,
  (∀ k x, only is_out (f k x)) → only is_out (for_each_i f i l).
Proof.
  induction l as [|x l IH]; intros i Hf; [apply only_io_ret|].
  apply only_io_bind; [apply Hf|]. intros _. by apply IH.
Qed.
#[local] Hint Resolve is_out_for_each is_out_for_each_i : effects.

(** Takes a computation that only prints apart. *)
Ltac prints :=
  repeat first
    [ apply is_out_log | apply only_io_ret | apply only_throw | apply only_of_result
    | apply is_out_for_each; intros ? | apply is_out_for_each_i; intros ? ?
    | apply only_io_bind; [|intros ?]
    | case_match | progress cbv zeta ].

Lemma dry_run_over p c macs net2 :
  dry_run p = true → only is_out (deploy_over c p macs net2).
Proof.
  intros Hd. unfold deploy_over, plan_image_acquisition, plan_build_qcow2, plan_cp_seed,
    plan_cp_virt_install, plan_cp_ready, plan_join_token, plan_worker_spawn, plan_cluster_ready,
    plan_verify, plan_summary, plan_one_worker, log_reservation, log_second_nic.
  rewrite !Hd. prints.
Qed.

Lemma dry_run_plan_prints p : dry_run p = true → only is_out (run_plan p).
Proof.
  intros Hd. unfold run_plan. destruct (negb _); [apply only_throw|].
  apply only_io_bind; [apply is_out_log|]. intros _.
  apply only_io_bind; [apply is_out_for_each; intros; apply is_out_log|]. intros _.
  do 3 (apply only_io_bind; [apply only_of_result|]; intros ?).
  apply only_io_bind; [apply is_out_log|]. intros _. by apply dry_run_over.
Qed.

Lemma from_args_parts h a cfg p : from_args h a cfg = Ok p → args p = a ∧ config p = cfg.
Proof. unfold from_args. intros (root & _ & [= <-])%bind_Ok. done. Qed.

(** A dry run of a deployment, whatever the configuration, only prints: no
    command is run on the KVM host or on this machine, and there is no pause. *)
Theorem deploy_dry_run_only_prints a (Hd : dc_dry_run a = true) :
  emits (run a) (λ _ es, Forall is_out es).
Proof.
  unfold run. apply only_io_bind.
  { intros h. unfold parse_config. run_io. by destruct (parse _ _). }
  intros cfg. apply only_io_bind; [intros h; by apply Forall_nil|]. intros h0 h.
  cbv [mbind IO_bind of_result]. destruct (from_args h0 a cfg) as [p|e] eqn:Hp; [|by apply Forall_nil].
  apply from_args_parts in Hp as [<- _].
  pose proof (dry_run_plan_prints p Hd (h ++ [])) as H. by destruct (run_plan p (h ++ [])).
Qed.

End run.


Lemma deploy_dry_run_only_prints_witness :
  let a := mkDeployClusterArgs "c.conf" (Some "kvm") false true "bib" None None None true true None 60 10
             "2h" in
  Forall is_out (@run (calm_world ("CP_NAME=cp" +:+ NL +:+ "SSH_PUBKEY_FILE=/k.pub" +:+ NL)) bare_host a []).2.
Proof.
  intros a. apply (@deploy_dry_run_only_prints
    (calm_world ("CP_NAME=cp" +:+ NL +:+ "SSH_PUBKEY_FILE=/k.pub" +:+ NL)) bare_host a). reflexivity.
Defined.
