(* ===== verification/DeployReady.v ===== *)
(** * hbird deploy-cluster: what success says, and that readiness is noticed

    After success every node has reported [Ready]; and when the nodes do become
    ready in time, the polls notice. *)

From S2P Require Import Prelude RustStr ConfigTypes SshOptions SshClient Effects Poll VirtUri Shell.
From S2P Require Import VirtParse VirtConn Cp Transcript ConnSteps Host DeployPlan DeployNet DeployText Deploy.
From S2P Require Import DeployFixtures DeployFacts.

(** ** Answers in the history *)

Definition answer_text (e : event) : string :=
  match e with
  | EvSsh _ _ _ (Ok out) | EvLocal _ (Ok out) => stdout_lossy out
  | _ => ""
  end.

(** The KVM host ran [cmd] with success and its output satisfies [P]. *)
Definition answered (kvm : option string) (cmd : string) (P : string → bool) (es : history) : Prop :=
  Exists (λ e, step_of e = Some (sh kvm cmd, true) ∧ P (answer_text e) = true) es.
#[export] Instance answered_grows kvm cmd P : Grows (answered kvm cmd P).
Proof. apply grows_exists. Qed.

Section answers.
Context `{W : World} (kvm : option string).
#[local] Abbreviation c := (build_connection kvm).

Lemma conn_run_answered cmd P :
  emits (conn_run c cmd) (λ r es, ∀ out, r = Ok out → P out = true → answered kvm cmd P es).
Proof.
  intros h. rewrite build_connection_routes. unfold answered, sh.
  destruct (non_empty kvm) as [host|].
  - destruct (ssh_answer h (new host) cmd None) as [out|[]]; cbn [fst snd]; intros o [= <-] HP.
    by constructor.
  - destruct (local_answer h _) as [out|e]; cbn [fst snd]; [|done]. intros o Ho HP. constructor.
    cbn [step_of local_ok answer_text]. destruct (success (status out)); [|done].
    injection Ho as <-. done.
Qed.

(** A poll that ended well had its answer. *)
Lemma retry_true {E} (G : history → Prop) `{!Grows G} n s (f : IO E bool) :
  emits f (λ r es, r = Ok true → G es) → emits (retry n s f) (λ r es, r = Ok true → G es).
Proof.
  intros Hf. induction n as [|n IH]; cbn [retry]; [by apply emits_io_ret|].
  eapply emits_io_bind; [exact Hf| |by intros e es _ [=]].
  intros [] e1 H1; [intros h _; cbn; rewrite app_nil_r; by apply H1|].
  eapply emits_io_bind with (P := λ _ _, True); [done| |by intros e es _ [=]].
  intros [] e2 _. eapply emits_conseq; [exact IH|]. intros r es H Hr.
  exact (grows_r G _ _ (grows_r G _ _ (H Hr))).
Qed.

Lemma probe_yes_answered cmd :
  emits (probe_yes c cmd) (λ r es, r = Ok true → answered kvm cmd says_yes es).
Proof.
  intros h. unfold probe_yes. pose proof (conn_run_answered cmd says_yes h) as H.
  cbv [mbind IO_bind try lift catch exec_shell mret IO_ret].
  destruct (conn_run c cmd h) as [[out|e] es]; cbn [fst snd] in *; [|done].
  intros [= Hy]. rewrite app_nil_r. by apply (H out).
Qed.
End answers.

(** ** Success *)

Section ready.
Context `{W : World} `{Hst : Host}.

Lemma await_node_answered c kvm p ip privkey n :
  c = build_connection kvm →
  emits (await_node c p ip privkey n)
    (λ r es, is_ok r = true → answered kvm (node_ready_cmd privkey ip n) says_yes es).
Proof.
  intros ->. unfold await_node. eapply emits_io_bind with (P := λ _ _, True); [done| |done].
  intros _ e1 _. eapply emits_io_bind; [apply retry_true, probe_yes_answered; apply _| |done].
  intros [] e2 H2; [|done]. intros h _. cbn. rewrite app_nil_r.
  apply grows_r; [apply _|]. by apply H2.
Qed.

Lemma await_all_answered c kvm p ip privkey l :
  c = build_connection kvm →
  emits (for_each (await_node c p ip privkey) l)
    (λ r es, is_ok r = true → ∀ n, n ∈ l → answered kvm (node_ready_cmd privkey ip n) says_yes es).
Proof.
  intros Hc. induction l as [|x l IH]; cbn [for_each].
  { intros h _ n Hn. by apply elem_of_nil in Hn. }
  eapply emits_io_bind; [by apply await_node_answered| |done].
  intros [] e1 H1. eapply emits_conseq; [exact IH|]. intros r e2 H2 Hr n [->|Hn]%elem_of_cons.
  - apply grows_l; [apply _|]. by apply H1.
  - apply grows_r; [apply _|]. by apply H2.
Qed.

(** Every node has answered, at the one address of the control plane. *)
Definition all_ready (p : Plan) (es : history) : Prop :=
  ∃ ip, ∀ n, n ∈ expected_nodes p →
    answered (dc_kvm_host (args p))
      (node_ready_cmd (derive_privkey_path (ssh_pubkey_file (config p))) ip n) says_yes es.
#[export] Instance all_ready_grows p : Grows (all_ready p).
Proof. intros es es1 es2 [ip H]. exists ip. intros n Hn. by apply grows, H. Qed.

Lemma ok_then {E A B} (G : history → Prop) `{!Grows G} (m : IO E A) (f : A → IO E B) :
  (∀ a, emits (f a) (λ r es, is_ok r = true → G es)) →
  emits (m ≫= f : IO E B) (λ r es, is_ok r = true → G es).
Proof.
  intros Hf. eapply emits_io_bind with (P := λ _ _, True); [done| |done].
  intros a e1 _. eapply emits_conseq; [apply Hf|]. intros r es H Hr. by apply (grows_r G), H.
Qed.

Lemma ok_first {E A B} (G : history → Prop) `{!Grows G} (m : IO E A) (f : A → IO E B) :
  emits m (λ r es, is_ok r = true → G es) →
  emits (m ≫= f : IO E B) (λ r es, is_ok r = true → G es).
Proof.
  intros Hm. eapply emits_io_bind; [exact Hm| |done].
  intros a e1 H1 h _. by apply (grows_l G), H1.
Qed.

(** C12: a deployment that succeeds has every node of the cluster, the control
    plane and all the workers, reported as Ready by the new control plane. *)
Theorem deployed_nodes_ready p (Hlive : dry_run p = false) :
  emits (run_plan p) (λ r es, is_ok r = true → all_ready p es).
Proof.
  unfold run_plan. destruct (negb _); [done|].
  do 6 (apply ok_then; [apply _|]; intros ?). unfold deploy_over. cbv zeta.
  do 9 (apply ok_then; [apply _|]; intros ?).
  unfold plan_cluster_ready. rewrite Hlive.
  apply ok_first; [apply _|]. apply ok_first; [apply _|].
  eapply emits_conseq; [by apply await_all_answered|]. intros r es H Hr. eexists. by apply H.
Qed.
End ready.

(** ** Readiness is noticed *)

(** The seconds slept so far. *)
Definition slept (h : history) : N :=
  foldr (λ e n, match e with EvSleep d => as_secs d | _ => 0 end + n)%N 0%N h.

Lemma slept_app h1 h2 : slept (h1 ++ h2) = (slept h1 + slept h2)%N.
Proof. unfold slept. induction h1 as [|e h1 IH]; cbn; [done|]. rewrite IH. lia. Qed.

(** From time [t] on, [f] answers yes; before, it answers. *)
Definition yes_from {E} (t : N) (f : IO E bool) : Prop :=
  ∀ h, is_ok (f h).1 = true ∧ ((t ≤ slept h)%N → (f h).1 = Ok true).

(** Then a poll that goes on until [t] succeeds, and only takes time. *)
Lemma retry_live {E} t n s (f : IO E bool) h :
  yes_from t f → (1 ≤ n)%nat → (t ≤ slept h + N.of_nat (n - 1) * s)%N →
  (retry n s f h).1 = Ok true.
Proof.
  intros Hf. revert h. induction n as [|n IH]; intros h Hn Ht; [lia|]. cbn [retry].
  destruct (Hf h) as [Hok Hyes]. unfold mbind, IO_bind at 1.
  destruct (f h) as [[[]|] e1]; [done| |done]. cbn [fst] in Hyes.
  destruct n as [|n].
  { rewrite Nat.sub_diag in Ht. discriminate Hyes. lia. }
  assert (Hgo : ∀ e2, (s ≤ slept e2)%N → (retry (S n) s f ((h ++ e1) ++ e2)).1 = Ok true).
  { intros e2 H2. apply IH; [lia|]. rewrite !slept_app. lia. }
  unfold IO_bind. destruct (0 <? s)%N eqn:Es; cbn [Nat.ltb Nat.leb andb].
  - cbn [lift sleep emit]. specialize (Hgo [EvSleep (from_secs s)]).
    destruct (retry (S n) s f _) as [r es]. cbn in Hgo |- *. apply Hgo.
    unfold as_secs, from_secs. cbn. rewrite N.div_mul by done. lia.
  - apply N.ltb_ge in Es. specialize (Hgo []). cbn [mret IO_ret] in *.
    destruct (retry (S n) s f _) as [r es]. cbn in Hgo |- *. apply Hgo. lia.
Qed.

Section live.
Context `{W : World}.

Lemma probe_yes_from c cmd t :
  (∀ h, (t ≤ slept h)%N → ∃ out, (exec_shell c cmd h).1 = Ok out ∧ says_yes out = true) →
  yes_from t (probe_yes c cmd).
Proof.
  intros Hc h. unfold probe_yes. specialize (Hc h).
  cbv [mbind IO_bind try lift catch mret IO_ret]. destruct (exec_shell c cmd h) as [r es].
  cbn [fst] in *. split; [done|]. intros Ht. destruct (Hc Ht) as (out & -> & Hy). by rewrite Hy.
Qed.

Lemma await_node_live c p ip privkey n t h :
  (∀ h, (t ≤ slept h)%N → ∃ out,
     (exec_shell c (node_ready_cmd privkey ip n) h).1 = Ok out ∧ says_yes out = true) →
  (1 ≤ retries p)%nat → (t ≤ slept h + N.of_nat (retries p - 1) * sleep_secs p)%N →
  (await_node c p ip privkey n h).1 = Ok tt.
Proof.
  intros Hc Hr Ht. unfold await_node. set (f := probe_yes c _).
  assert (Hl : ∀ line, (retry (retries p) (sleep_secs p) f (h ++ [EvOut line])).1 = Ok true).
  { intros line. apply (retry_live t); [by apply probe_yes_from|done|]. rewrite slept_app. cbn. lia. }
  cbv [mbind IO_bind log lift println emit]. specialize (Hl ("[deploy-cluster] " +:+
    ("polling '" +:+ n +:+ "' Ready (max ~" +:+ show_N (max_wait_secs p) +:+ "s)"))).
  destruct (retry _ _ f (h ++ _)) as [r es]. cbn [fst] in Hl. by subst r.
Qed.

(** C13: if from some time on the host reports every node as Ready, and the
    configured retries and pauses last until that time, then the wait for the
    cluster ends with success: the polls cannot miss it, and a failed probe
    before (a connection refused, say) does not end them. *)
Theorem cluster_ready_live c p ip privkey t h
    (Hready : ∀ n h, n ∈ expected_nodes p → (t ≤ slept h)%N → ∃ out,
       (exec_shell c (node_ready_cmd privkey ip n) h).1 = Ok out ∧ says_yes out = true)
    (Hr : (1 ≤ retries p)%nat)
    (Ht : (t ≤ slept h + N.of_nat (retries p - 1) * sleep_secs p)%N) :
  (plan_cluster_ready c p ip privkey h).1 = Ok tt.
Proof.
  unfold plan_cluster_ready. destruct (dry_run p); [done|].
  assert (Hall : ∀ l h, (∀ n, n ∈ l → n ∈ expected_nodes p) →
            (t ≤ slept h + N.of_nat (retries p - 1) * sleep_secs p)%N →
            (for_each (await_node c p ip privkey) l h).1 = Ok tt).
  { induction l as [|n l IH]; intros h' Hl Ht'; [done|]. cbn [for_each].
    assert (Hn : (await_node c p ip privkey n h').1 = Ok tt).
    { apply (await_node_live c p ip privkey n t); [|done..]. intros h2. apply Hready, Hl. by left. }
    unfold mbind, IO_bind. destruct (await_node c p ip privkey n h') as [r e1]. cbn [fst] in Hn. subst r.
    specialize (IH (h' ++ e1)). destruct (for_each _ l (h' ++ e1)) as [r e2]. apply IH.
    - intros n' Hn'. apply Hl. by right.
    - rewrite slept_app. lia. }
  specialize (Hall (expected_nodes p) h (λ n Hn, Hn) Ht). unfold mbind, IO_bind.
  destruct (for_each _ _ h) as [r es]. cbn [fst] in Hall. by subst r.
Qed.
End live.

Lemma deployed_nodes_ready_witness :
  all_ready example_deployment (@run_plan obliging_world bare_host example_deployment []).2.
Proof.
  apply (@deployed_nodes_ready obliging_world bare_host example_deployment); [reflexivity|].
  exact obliging_run.
Defined.

(** A host that answers only after two seconds. *)
Definition slow_host : Connection :=
  mkConnection (system_uri "kvm") {| vrun _ _ h :=
    (if (2 <=? slept h)%N then Ok "yes" else Err (Transport "kvm" "connection refused"), []) |}.

Lemma cluster_ready_live_witness :
  (plan_cluster_ready slow_host example_deployment "192.168.122.10" "/k" []).1 = Ok tt.
Proof.
  apply (cluster_ready_live slow_host example_deployment "192.168.122.10" "/k" 2 []).
  - intros n h _ Hh. exists "yes". split; [|reflexivity].
    unfold exec_shell, conn_run, io_map_err. cbn [slow_host conn_ssh vrun].
    by rewrite (proj2 (N.leb_le 2 (slept h)) Hh).
  - apply leb_complete. reflexivity.
  - apply N.leb_le. reflexivity.
Defined.
