(* ===== verification/Spawn.v ===== *)
(** * hbird spawn-workers

    [crates/hbird-cli/src/commands/spawn_workers.rs]: the plan, the commands for
    [guestfish] and [virt-customize], the injection of the join command into a
    disk, the loop over the workers and [run].  An error of [hbird-virt] inside
    an [anyhow] error is represented by its text. *)

From S2P Require Import Prelude RustStr ConfigTypes ConfigLexer ConfigBuild SshOptions SshClient.
From S2P Require Import Effects VirtUri Shell VirtParse VirtConn Cp Host.
From S2P Require Import DeployText Deploy.

Record SpawnWorkersArgs : Set := mkSpawnWorkersArgs {
  sw_config : string;
  sw_count : N;
  sw_kvm_host : option string;
  sw_no_sudo : bool;
  sw_dry_run : bool;
  sw_cp_ssh_retries : N;
  sw_cp_ssh_retry_sleep_secs : N;
  sw_token_ttl : string;
  sw_force_rebuild : bool;
  sw_force_switch : bool;
}.

Definition log (line : string) : IO anyhow unit := lift (println ("[spawn-workers] " +:+ line)).

(** ** The plan *)

Record Plan : Set := mkPlan {
  plan_config_path : string;
  plan_cp_name : string;
  plan_pool_dir : string;
  count : N;
  plan_worker_memory : N;
  plan_worker_vcpus : N;
  token_ttl : string;
  plan_kvm_host : option string;
  no_sudo : bool;
  dry_run : bool;
  cp_ssh_retries : N;
  cp_ssh_retry_sleep_secs : N;
  force_rebuild : bool;
  force_switch : bool;
  plan_ssh_pubkey_file : string;
}.

Definition from_args (a : SpawnWorkersArgs) (c : ClusterConfig) : Plan :=
  mkPlan (sw_config a) (cp_name c) (pool_dir c) (sw_count a) (worker_memory c) (worker_vcpus c)
    (sw_token_ttl a) (or_else (sw_kvm_host a) (kvm_host c)) (sw_no_sudo a) (sw_dry_run a)
    (sw_cp_ssh_retries a) (sw_cp_ssh_retry_sleep_secs a) (sw_force_rebuild a) (sw_force_switch a)
    (ssh_pubkey_file c).

Definition worker_name (i : N) : string := "hummingbird-k8s-worker-" +:+ show_N i.
Definition template_path (p : Plan) : string := plan_pool_dir p +:+ "/hummingbird-k8s-worker.qcow2".

(** [1..=plan.count] *)
Definition indices (p : Plan) : list N := N.of_nat <$> seq 1 (N.to_nat (count p)).

Inductive Injector : Set := Guestfish | VirtCustomize.
#[export] Instance Injector_eq_dec : EqDecision Injector.
Proof. solve_decision. Defined.

(** ** Commands *)

Definition guestfish_ls_stateroot_cmd (qcow : string) : string :=
  "guestfish --ro -a " +:+ sh_quote qcow
  +:+ " run : mount /dev/sda4 / : ls /ostree/deploy 2>/dev/null | grep -v '^$' | head -1".

Definition guestfish_ls_deploy_cmd (qcow stateroot : string) : string :=
  "guestfish --ro -a " +:+ sh_quote qcow +:+ " run : mount /dev/sda4 / : ls /ostree/deploy/"
  +:+ sh_quote stateroot +:+ "/deploy 2>/dev/null | grep -v '\.origin$' | grep -v '^$' | head -1".

Definition guestfish_inject_cmd (qcow etc_path tmpfile : string) : string :=
  "guestfish --rw -a " +:+ sh_quote qcow +:+ " <<'GUESTFISH_HBIRD_EOF'" +:+ NL
  +:+ "run" +:+ NL +:+ "mount /dev/sda4 /" +:+ NL
  +:+ "mkdir-p " +:+ etc_path +:+ NL
  +:+ "upload " +:+ sh_quote tmpfile +:+ " " +:+ etc_path +:+ "/worker-join.env" +:+ NL
  +:+ "chmod 0600 " +:+ etc_path +:+ "/worker-join.env" +:+ NL
  +:+ "chown 0 0 " +:+ etc_path +:+ "/worker-join.env" +:+ NL
  +:+ "GUESTFISH_HBIRD_EOF".

Definition virt_customize_inject_cmd (qcow tmpfile : string) : string :=
  "virt-customize -a " +:+ sh_quote qcow +:+ " --mkdir /etc/hummingbird --upload '" +:+ tmpfile
  +:+ ":/etc/hummingbird/worker-join.env'"
  +:+ " --run-command 'chmod 0600 /etc/hummingbird/worker-join.env'"
  +:+ " --run-command 'chown root:root /etc/hummingbird/worker-join.env'".

Definition write_join_tmp_cmd (join_cmd tmpfile : string) : string :=
  "printf '%s\n' " +:+ sh_quote join_cmd +:+ " > " +:+ sh_quote tmpfile.

Definition probe_injector_cmd : string :=
  "command -v guestfish && echo guestfish || (command -v virt-customize && echo virt-customize) "
  +:+ "|| echo none".
Definition dnf_cmd : string :=
  "command -v dnf >/dev/null 2>&1 && (dnf install -y libguestfs-tools-c >/dev/null 2>&1 || "
  +:+ "dnf install -y libguestfs-tools >/dev/null 2>&1) || true".

(** [Path::file_stem] of a path whose last component is a name. *)
Definition file_stem (path : string) : string :=
  let name := match rsplit_once "/" path with Some (_, name) => name | None => path end in
  match rsplit_once "." name with
  | Some (EmptyString, _) | None => name
  | Some (stem, _) => stem
  end.

Definition BOOTC_IMAGE : string := "ghcr.io/aatchison/hummingbird-k8s-worker:latest".

Section spawn.
Context `{W : World} `{Hst : Host} (c : Connection) (p : Plan).

(** [conn.exec_shell(cmd).unwrap_or_default()] *)
Definition output_of (cmd : string) : IO anyhow string :=
  r ← try (exec_shell c cmd);
  mret match (r : result VirtError string) with Ok out => out | Err _ => "" end.

Definition retries : nat := N.to_nat (cp_ssh_retries p).

(** ** The address of the control plane *)

(** [conn.domifaddr(..)] in the closure: an error counts as no address. *)
Definition probe_ip : IO anyhow (option Ipv4) :=
  r ← try (domifaddr c (plan_cp_name p));
  mret match (r : result VirtError (option Ipv4)) with Ok ip => ip | Err _ => None end.

Definition plan_cp_ip_resolve : IO anyhow string :=
  if dry_run p then
    _ ← log ("DRY-RUN would resolve CP IP via 'virsh domifaddr " +:+ plan_cp_name p +:+ "'");
    mret "<resolved-at-runtime>"
  else
    _ ← log ("waiting for CP IP via virsh domifaddr " +:+ plan_cp_name p +:+ "...");
    found ← retry_find retries (cp_ssh_retry_sleep_secs p) probe_ip;
    match (found : option Ipv4) with
    | None => bail ("could not resolve CP IP via virsh domifaddr after " +:+ show_N (cp_ssh_retries p)
                    +:+ " retries")
    | Some ip => _ ← log ("CP IP: " +:+ show_ipv4 ip); mret (show_ipv4 ip)
    end.

(** ** The injector *)

Definition injector_in (probe : string) : option Injector :=
  let probe := trim probe in
  if contains "guestfish" probe then Some Guestfish
  else if contains "virt-customize" probe then Some VirtCustomize
  else None.

Definition plan_injector_detect : IO anyhow Injector :=
  if dry_run p then
    _ ← log ("DRY-RUN would probe for guestfish (preferred for bootc/ostree) or virt-customize "
             +:+ "(fallback) on the KVM host");
    mret Guestfish
  else
    probe ← output_of probe_injector_cmd;
    match injector_in probe with
    | Some i => mret i
    | None =>
        _ ← log "guestfish/virt-customize not found — attempting dnf install...";
        _ ← best_effort (exec_shell c dnf_cmd);
        probe2 ← output_of probe_injector_cmd;
        match injector_in probe2 with
        | Some i => mret i
        | None => bail ("guestfish/virt-customize unavailable and auto-install failed; "
                        +:+ "install libguestfs-tools-c (or libguestfs-tools) on the KVM host")
        end
    end.

(** ** The injection *)

Definition join_tmp (qcow : string) : string :=
  "/tmp/hbird-join-" +:+ show_N process_id +:+ "-" +:+ file_stem qcow +:+ ".env".

Definition etc_path_of (stateroot deploy_hash : string) : string :=
  if negb (is_empty stateroot) && negb (is_empty deploy_hash)
  then "/ostree/deploy/" +:+ stateroot +:+ "/deploy/" +:+ deploy_hash +:+ "/etc/hummingbird"
  else "/etc/hummingbird".

Definition inject_with (qcow tmpfile : string) (injector : Injector) : IO anyhow string :=
  match injector with
  | Guestfish =>
      out ← output_of (guestfish_ls_stateroot_cmd qcow);
      let stateroot := trim out in
      deploy_hash ← (if negb (is_empty stateroot)
                     then out ← output_of (guestfish_ls_deploy_cmd qcow stateroot); mret (trim out)
                     else mret "");
      or_fail "guestfish inject failed"
        (exec_shell c (guestfish_inject_cmd qcow (etc_path_of stateroot deploy_hash) tmpfile))
  | VirtCustomize =>
      or_fail "virt-customize inject failed" (exec_shell c (virt_customize_inject_cmd qcow tmpfile))
  end.

Definition inject_join_env (qcow join_cmd : string) (injector : Injector) : IO anyhow unit :=
  let tmpfile := join_tmp qcow in
  _ ← or_fail ("could not write join tmpfile " +:+ tmpfile)
        (exec_shell c (write_join_tmp_cmd join_cmd tmpfile));
  result ← try (inject_with qcow tmpfile injector);
  _ ← best_effort (exec_shell c ("rm -f -- " +:+ sh_quote tmpfile));
  match (result : Prelude.result anyhow string) with Ok _ => mret tt | Err e => throw e end.

(** ** One worker *)

Definition qcow_of (name : string) : string := plan_pool_dir p +:+ "/" +:+ name +:+ ".qcow2".
Definition nth_of (i : N) : string := show_N i +:+ "/" +:+ show_N (count p).

Definition join_token_cmd (cp_ip privkey_path : string) : string :=
  cp_ssh_cmd privkey_path cp_ip
    ("kubeadm token create --ttl " +:+ token_ttl p +:+ " --print-join-command").

(** The closure of the retry: the join command, when it is one. *)
Definition probe_join (cmd : string) : IO anyhow (option string) :=
  r ← try (exec_shell c cmd);
  mret match (r : result VirtError string) with
       | Ok out => let trimmed := trim out in
                   if starts_with "kubeadm join" trimmed then Some trimmed else None
       | Err _ => None
       end.

Definition dry_run_worker (cp_ip : string) (i : N) : IO anyhow unit :=
  let name := worker_name i in
  let template := template_path p in
  let qcow := qcow_of name in
  for_each (λ line, log ("DRY-RUN worker " +:+ nth_of i +:+ ": would " +:+ line))
    ["skip " +:+ name +:+ " if 'virsh dominfo " +:+ name
       +:+ "' succeeds (re-uses existing VM via 'virsh start')";
     "clone " +:+ template +:+ " -> " +:+ qcow +:+ " (reflink=auto), chmod 0644";
     "mint " +:+ token_ttl p +:+ "-TTL kubeadm join token via 'ssh root@" +:+ cp_ip
       +:+ " kubeadm token create --print-join-command' (with retry)";
     "inject join command into " +:+ qcow +:+ " at /etc/hummingbird/worker-join.env via guestfish "
       +:+ "(bootc-aware: discovers /ostree/deploy/<stateroot>/deploy/<commit>.0)";
     "virt-install " +:+ name +:+ " (memory=" +:+ show_N (plan_worker_memory p) +:+ " vcpus="
       +:+ show_N (plan_worker_vcpus p) +:+ ") attaching " +:+ qcow].

(** The part of the loop's body for a worker that is not defined. *)
Definition create_worker (cp_ip privkey_path : string) (injector : Injector) (i : N)
    : IO anyhow unit :=
  let name := worker_name i in
  let template := template_path p in
  let qcow := qcow_of name in
  _ ← log ("worker " +:+ nth_of i +:+ ": cloning " +:+ template +:+ " -> " +:+ qcow);
  _ ← or_fail ("reflink clone " +:+ template +:+ " -> " +:+ qcow +:+ " failed")
        (remote_cp_reflink c template qcow);
  _ ← log ("worker " +:+ nth_of i +:+ ": minting " +:+ token_ttl p +:+ "-TTL kubeadm join token from CP");
  minted ← retry_find retries (cp_ssh_retry_sleep_secs p)
             (probe_join (join_token_cmd cp_ip privkey_path));
  match (minted : option string) with
  | None =>
      _ ← best_effort (remote_rm_f c qcow);
      bail ("could not mint kubeadm join token from CP after " +:+ show_N (cp_ssh_retries p)
            +:+ " retries")
  | Some join_cmd =>
      _ ← log ("worker " +:+ nth_of i +:+ ": injecting join env into " +:+ qcow);
      r ← try (inject_join_env qcow join_cmd injector);
      match (r : result anyhow unit) with
      | Err e =>
          _ ← best_effort (remote_rm_f c qcow);
          bail ("inject_join_env for " +:+ name +:+ " failed: " +:+ show_anyhow e)
      | Ok _ =>
          _ ← log ("worker " +:+ nth_of i +:+ ": virt-install " +:+ name +:+ " (memory="
                   +:+ show_N (plan_worker_memory p) +:+ " vcpus="
                   +:+ show_N (plan_worker_vcpus p) +:+ ")");
          or_fail ("virt-install " +:+ name +:+ " failed")
            (virt_install c name (plan_worker_memory p) (plan_worker_vcpus p) qcow None)
      end
  end.

(** The body of the loop in the live branch. *)
Definition spawn_worker (cp_ip privkey_path : string) (injector : Injector) (i : N)
    : IO anyhow unit :=
  let name := worker_name i in
  r ← try (dominfo c name);
  match (r : result VirtError DomainInfo) with
  | Ok _ =>
      _ ← log ("worker " +:+ nth_of i +:+ ": " +:+ name +:+ " already defined — starting");
      r ← try (start_domain c name);
      match (r : result VirtError unit) with
      | Ok _ => mret tt
      | Err e => log ("WARN: virsh start " +:+ name +:+ " failed (may already be running): "
                      +:+ show_virt_error e)
      end
  | Err (VirshFailed _ _) => create_worker cp_ip privkey_path injector i
  | Err e => bail ("dominfo probe for " +:+ name +:+ ": " +:+ show_virt_error e)
  end.

Definition check_template : IO anyhow unit :=
  let template := template_path p in
  r ← try (remote_path_exists c template);
  match (r : result VirtError bool) with
  | Ok true => log ("worker template qcow2: " +:+ template)
  | Ok false => bail ("worker template qcow2 " +:+ template +:+ " does not exist. Build it first "
                      +:+ "(`make image-worker` + bib, or `make spawn-workers` which builds it), "
                      +:+ "or point POOL_DIR at the directory that holds it.")
  | Err e => bail ("could not stat worker template qcow2 " +:+ template +:+ ": "
                   +:+ show_virt_error e)
  end.

Definition plan_worker_loop (cp_ip privkey_path : string) (injector : Injector) : IO anyhow unit :=
  if dry_run p then
    _ ← log ("DRY-RUN worker template qcow2: " +:+ template_path p
             +:+ " (must exist; bash twin fails fast when missing)");
    _ ← for_each (dry_run_worker cp_ip) (indices p);
    log ("DRY-RUN would virsh pool-refresh after spawning " +:+ show_N (count p) +:+ " worker(s)")
  else
    _ ← check_template;
    _ ← for_each (spawn_worker cp_ip privkey_path injector) (indices p);
    r ← try (virsh_pool_refresh c "mass2");
    match (r : result VirtError unit) with
    | Ok _ => mret tt
    | Err e => log ("WARN: virsh pool-refresh mass2 failed: " +:+ show_virt_error e)
    end.

(** ** The switch to the registry's image *)

Definition switch_cmd (privkey_path : string) (ip : Ipv4) : string :=
  cp_ssh_cmd privkey_path (show_ipv4 ip) ("bootc switch " +:+ BOOTC_IMAGE).

Definition switch_worker (privkey_path : string) (i : N) : IO anyhow unit :=
  let name := worker_name i in
  r ← try (domifaddr c name);
  match (match (r : result VirtError (option Ipv4)) with Ok ip => ip | Err _ => None end) with
  | Some ip =>
      r ← try (exec_shell c (switch_cmd privkey_path ip));
      match (r : result VirtError string) with
      | Ok _ => mret tt
      | Err e => log ("WARN: bootc switch failed for " +:+ name +:+ ": " +:+ show_virt_error e
                      +:+ " (VM still tracks localhost:latest)")
      end
  | None => log ("WARN: could not resolve IP for " +:+ name +:+ "; skipping bootc switch")
  end.

Definition plan_bootc_switch (privkey_path : string) : IO anyhow unit :=
  if bool_decide (env_var "BOOTC_SWITCH_TO_GHCR" = Some "0") then
    log "skipped (BOOTC_SWITCH_TO_GHCR=0)"
  else if dry_run p then
    for_each (λ i, log ("DRY-RUN would run 'scripts/switch-to-ghcr.sh " +:+ worker_name i +:+ " "
                        +:+ BOOTC_IMAGE +:+ "' (best-effort per worker)")) (indices p)
  else if force_rebuild p && negb (force_switch p) then
    log "WARN: FORCE_REBUILD=1 — skipping post-spawn bootc switch (#375)"
  else for_each (switch_worker privkey_path) (indices p).

Definition summary (cp_ip : string) : IO anyhow unit :=
  for_each log
    [""; rule; "DRY-RUN plan complete. No VMs were created.";
     "  CP:        " +:+ plan_cp_name p +:+ " (" +:+ cp_ip +:+ ")";
     "  Count:     " +:+ show_N (count p) +:+ " worker(s) to spawn";
     "  Worker:    memory=" +:+ show_N (plan_worker_memory p) +:+ " vcpus="
       +:+ show_N (plan_worker_vcpus p); rule].

(** [run] after the plan and the connection are there. *)
Definition run_plan : IO anyhow unit :=
  _ ← log ("config: " +:+ plan_config_path p);
  _ ← log ("config OK: CP=" +:+ plan_cp_name p +:+ ", count=" +:+ show_N (count p) +:+ ", pool_dir="
           +:+ plan_pool_dir p);
  let privkey_path := derive_privkey_path (plan_ssh_pubkey_file p) in
  cp_ip ← plan_cp_ip_resolve;
  injector ← plan_injector_detect;
  _ ← plan_worker_loop cp_ip privkey_path injector;
  _ ← plan_bootc_switch privkey_path;
  if dry_run p then summary cp_ip else mret tt.
End spawn.

Definition run `{World} `{Host} (a : SpawnWorkersArgs) : IO anyhow unit :=
  if (sw_count a =? 0)%N then
    bail ("--count must be > 0 (got " +:+ show_N (sw_count a) +:+ "); bash twin defaults to 2")
  else
    config ← parse_config (sw_config a);
    let p := from_args a config in
    run_plan (build_connection (plan_kvm_host p)) p.
