(* ===== verification/SpawnFacts.v ===== *)
(** * What [hbird spawn-workers] does

    The calls of a live run: a disk is used only when a join command was minted
    and injected into it, and is removed again otherwise.  A dry run only
    prints. *)

From S2P Require Import Prelude RustStr ConfigTypes ConfigLexer ConfigBuild SshOptions SshClient.
From S2P Require Import Effects VirtUri Shell VirtParse VirtConn Cp Transcript ConnSteps Host.
From S2P Require Import DeployText Deploy DeployTextFacts Spawn.

#[local] Abbreviation trace := (list (step * bool)).

(** ** The calls *)

Section spec.
Context `{W : World} `{Hst : Host} (p : Plan).
#[local] Abbreviation kvm := (plan_kvm_host p).
#[local] Abbreviation c := (build_connection kvm).
#[local] Abbreviation sh_ := (sh kvm).

Definition pause_step : step := Wait (from_secs (cp_ssh_retry_sleep_secs p)).

(** Tries of one command with pauses in between, [n] of them. *)
Inductive tries (cmd : string) : nat → trace → Prop :=
| tries_none : tries cmd 0 []
| tries_one n ok ts : tries cmd n ts → tries cmd (S n) ((sh_ cmd, ok) :: ts)
| tries_pause n ts : tries cmd n ts → tries cmd n ((pause_step, true) :: ts).

(** The command worked within the retries, or failed that often. *)
Definition answered (cmd : string) (b : bool) (ts : trace) : Prop :=
  if b then ∃ n before, (n < retries p)%nat ∧ tries cmd n before ∧ ts = before ++ [(sh_ cmd, true)]
  else tries cmd (retries p) ts.

Definition addr_cmd (name : string) : string := virsh c ("domifaddr " +:+ shell_quote name).

(** Which injector there is, after an attempt to install one. *)
Inductive detected : option Injector → trace → Prop :=
| found_at_once i : detected (Some i) [(sh_ probe_injector_cmd, true)]
| found_later i x y :
    detected (Some i) [(sh_ probe_injector_cmd, x); (sh_ dnf_cmd, y); (sh_ probe_injector_cmd, true)]
| found_none x y z :
    detected None [(sh_ probe_injector_cmd, x); (sh_ dnf_cmd, y); (sh_ probe_injector_cmd, z)].

(** The file goes where the image's deployment is, or to [/etc/hummingbird] when
    there is none. *)
Inductive injector_run (qcow : string) : Injector → bool → trace → Prop :=
| run_plain x b :
    injector_run qcow Guestfish b
      [(sh_ (guestfish_ls_stateroot_cmd qcow), x);
       (sh_ (guestfish_inject_cmd qcow "/etc/hummingbird" (join_tmp qcow)), b)]
| run_no_hash root x b :
    root ≠ "" →
    injector_run qcow Guestfish b
      [(sh_ (guestfish_ls_stateroot_cmd qcow), true);
       (sh_ (guestfish_ls_deploy_cmd qcow root), x);
       (sh_ (guestfish_inject_cmd qcow "/etc/hummingbird" (join_tmp qcow)), b)]
| run_ostree root hash b :
    root ≠ "" → hash ≠ "" →
    injector_run qcow Guestfish b
      [(sh_ (guestfish_ls_stateroot_cmd qcow), true);
       (sh_ (guestfish_ls_deploy_cmd qcow root), true);
       (sh_ (guestfish_inject_cmd qcow
               ("/ostree/deploy/" +:+ root +:+ "/deploy/" +:+ hash +:+ "/etc/hummingbird")
               (join_tmp qcow)), b)]
| run_customize b :
    injector_run qcow VirtCustomize b [(sh_ (virt_customize_inject_cmd qcow (join_tmp qcow)), b)].

(** The temporary file is removed again, whatever the injector did. *)
Inductive injection (qcow join_cmd : string) (i : Injector) : bool → trace → Prop :=
| no_tmp_file :
    injection qcow join_cmd i false [(sh_ (write_join_tmp_cmd join_cmd (join_tmp qcow)), false)]
| injected b ts x :
    injector_run qcow i b ts →
    injection qcow join_cmd i b
      ((sh_ (write_join_tmp_cmd join_cmd (join_tmp qcow)), true) :: ts
       ++ [(sh_ ("rm -f -- " +:+ sh_quote (join_tmp qcow)), x)]).

Definition clone_cmd (qcow : string) : string :=
  "cp --reflink=auto " +:+ shell_quote (template_path p) +:+ " " +:+ shell_quote qcow.
Definition remove_cmd (qcow : string) : string := "rm -f -- " +:+ shell_quote qcow.
Definition install_cmd (i : N) : string :=
  virt_install_cmd c (mkVmSpec (worker_name i) (plan_worker_memory p) (plan_worker_vcpus p)
                        (qcow_of p (worker_name i)) None None None).

(** The disk of worker [i], from the template to the VM. *)
Inductive created (cp_ip key : string) (inj : Injector) (i : N) : bool → trace → Prop :=
| no_clone : created cp_ip key inj i false [(sh_ (clone_cmd (qcow_of p (worker_name i))), false)]
| no_token ts x :
    answered (join_token_cmd p cp_ip key) false ts →
    created cp_ip key inj i false
      ((sh_ (clone_cmd (qcow_of p (worker_name i))), true) :: ts
       ++ [(sh_ (remove_cmd (qcow_of p (worker_name i))), x)])
| no_injection join_cmd t1 t2 x :
    answered (join_token_cmd p cp_ip key) true t1 →
    starts_with "kubeadm join" join_cmd = true →
    injection (qcow_of p (worker_name i)) join_cmd inj false t2 →
    created cp_ip key inj i false
      ((sh_ (clone_cmd (qcow_of p (worker_name i))), true) :: t1 ++ t2
       ++ [(sh_ (remove_cmd (qcow_of p (worker_name i))), x)])
| with_join join_cmd t1 t2 b :
    answered (join_token_cmd p cp_ip key) true t1 →
    starts_with "kubeadm join" join_cmd = true →
    injection (qcow_of p (worker_name i)) join_cmd inj true t2 →
    created cp_ip key inj i b
      ((sh_ (clone_cmd (qcow_of p (worker_name i))), true) :: t1 ++ t2
       ++ [(sh_ (install_cmd i), b)]).

Definition dominfo_cmd (i : N) : string := virsh c ("dominfo " +:+ shell_quote (worker_name i)).
Definition start_cmd (i : N) : string := virsh c ("start " +:+ shell_quote (worker_name i)).

(** A worker that is defined is started; one that is not is created. *)
Inductive spawned (cp_ip key : string) (inj : Injector) (i : N) : bool → trace → Prop :=
| already_there x :
    spawned cp_ip key inj i true [(sh_ (dominfo_cmd i), true); (sh_ (start_cmd i), x)]
| probe_failed x : spawned cp_ip key inj i false [(sh_ (dominfo_cmd i), x)]
| newly_created b ts :
    created cp_ip key inj i b ts → spawned cp_ip key inj i b ((sh_ (dominfo_cmd i), false) :: ts).

(** The switch to the registry's image never fails the run. *)
Inductive switched (key : string) (i : N) : bool → trace → Prop :=
| no_switch x : switched key i true [(sh_ (addr_cmd (worker_name i)), x)]
| switch_tried ip x :
    switched key i true [(sh_ (addr_cmd (worker_name i)), true); (sh_ (switch_cmd key ip), x)].
Definition switching (key : string) (ts : trace) : Prop :=
  if bool_decide (env_var "BOOTC_SWITCH_TO_GHCR" = Some "0")
     || force_rebuild p && negb (force_switch p)
  then ts = [] else each (switched key) (indices p) true ts.

Definition template_cmd : string := "test -e " +:+ shell_quote (template_path p).
Definition refresh_cmd : string := virsh c ("pool-refresh " +:+ shell_quote "mass2").
Definition key_path : string := derive_privkey_path (plan_ssh_pubkey_file p).

(** A live run, and whether it succeeds. *)
Inductive live_run : bool → trace → Prop :=
| no_address ts : answered (addr_cmd (plan_cp_name p)) false ts → live_run false ts
| no_injector t1 t2 :
    answered (addr_cmd (plan_cp_name p)) true t1 → detected None t2 → live_run false (t1 ++ t2)
| no_template inj t1 t2 x :
    answered (addr_cmd (plan_cp_name p)) true t1 → detected (Some inj) t2 →
    live_run false (t1 ++ t2 ++ [(sh_ template_cmd, x)])
| worker_failed inj ip t1 t2 t3 :
    answered (addr_cmd (plan_cp_name p)) true t1 → detected (Some inj) t2 →
    each (spawned (show_ipv4 ip) key_path inj) (indices p) false t3 →
    live_run false (t1 ++ t2 ++ (sh_ template_cmd, true) :: t3)
| all_spawned inj ip t1 t2 t3 x t4 :
    answered (addr_cmd (plan_cp_name p)) true t1 → detected (Some inj) t2 →
    each (spawned (show_ipv4 ip) key_path inj) (indices p) true t3 →
    switching key_path t4 →
    live_run true (t1 ++ t2 ++ (sh_ template_cmd, true) :: t3 ++ (sh_ refresh_cmd, x) :: t4).

(** ** The parts follow it *)

Lemma leaves_log {A} line (m : IO anyhow A) Q : leaves m Q → leaves (_ ← log line; m) Q.
Proof.
  intros Hm h. specialize (Hm (h ++ [EvOut ("[spawn-workers] " +:+ line)])).
  unfold mbind, IO_bind, log, lift, println, emit. by destruct (m _).
Qed.
Lemma leaves_log_last line Q : Q (Ok tt) [] → leaves (log line) Q.
Proof. by intros HQ h. Qed.

Lemma leaves_best_effort {A B} (m : IO VirtError A) (k : IO anyhow B) s Q :
  leaves m (λ r ts, ts = [(s, is_ok r)]) → (∀ x, leaves k (λ r ts, Q r ((s, x) :: ts))) →
  leaves (_ ← best_effort m; k) Q.
Proof.
  intros Hm Hk. eapply leaves_bind with (P := λ r ts, r = Ok tt ∧ ∃ x, ts = [(s, x)]).
  - eapply leaves_bind; [by apply leaves_try| |by intros e t1 (? & [=] & _)].
    intros r t1 (r' & _ & ->). apply leaves_ret. eauto.
  - intros [] t1 [_ [x ->]]. apply Hk.
  - by intros e t1 [[=] _].
Qed.

Lemma leaves_or_fail {A} what (m : IO VirtError A) s :
  leaves m (λ r ts, ts = [(s, is_ok r)]) → leaves (or_fail what m) (λ r ts, ts = [(s, is_ok r)]).
Proof. intros Hm. apply leaves_map_err. eapply leaves_conseq; [exact Hm|]. by intros []. Qed.

Lemma leaves_exec cmd : leaves (exec_shell c cmd) (λ r ts, ts = [(sh_ cmd, is_ok r)]).
Proof. eapply leaves_conseq; [apply leaves_conn_run|]. by intros r ts [-> _]. Qed.

Lemma leaves_output_of cmd :
  leaves (output_of c cmd) (λ r ts, ∃ out ok, r = Ok out ∧ ts = [(sh_ cmd, ok)] ∧ (ok = false → out = "")).
Proof.
  eapply leaves_bind; [apply leaves_try_conn_run| |by intros e t1 (? & [=] & _)].
  intros r t1 (? & [= <-] & ->). apply leaves_ret. eexists _, _. split; [done|]. split; [done|].
  by destruct r.
Qed.

(** A poll for a value that satisfies [Good]. *)
Definition probes {A} (cmd : string) (f : IO anyhow (option A)) (Good : A → Prop) : Prop :=
  leaves f (λ r ts, ∃ o ok, r = Ok o ∧ ts = [(sh_ cmd, ok)] ∧ ∀ x, o = Some x → ok = true ∧ Good x).

Lemma leaves_retry_find {A} cmd (f : IO anyhow (option A)) Good n :
  probes cmd f Good →
  leaves (retry_find n (cp_ssh_retry_sleep_secs p) f) (λ r ts, ∃ o, r = Ok o ∧
    match o with
    | Some x => Good x ∧ ∃ k before, (k < n)%nat ∧ tries cmd k before
                                     ∧ ts = before ++ [(sh_ cmd, true)]
    | None => tries cmd n ts
    end).
Proof.
  unfold probes. intros Hf. induction n as [|n IH]; cbn [retry_find].
  { apply leaves_ret. exists None. split; [done|constructor]. }
  eapply leaves_bind; [exact Hf| |by intros e t1 (? & ? & [=] & _)].
  intros [x|] t1 (? & ok & [= <-] & -> & Hx).
  { destruct (Hx x eq_refl) as [-> HG]. apply leaves_ret. exists (Some x). split; [done|].
    split; [done|]. exists 0%nat, []. split; [lia|]. split; [constructor|done]. }
  eapply leaves_bind with (P := λ r ts, r = Ok tt ∧ ts ∈ [[]; [(pause_step, true)]]).
  { destruct (_ && _); intros h; (split; [done|]); [right|]; by left. }
  2: by intros e t1 [[=] _].
  intros [] t1 [_ Ht1]. eapply leaves_conseq; [exact IH|].
  assert (Hpause : ∀ k ts, tries cmd k ts → tries cmd k (t1 ++ ts)).
  { apply elem_of_cons in Ht1 as [Ht1|Ht1%list_elem_of_singleton]; subst t1; [done|].
    intros. by apply tries_pause. }
  intros r ts (o & -> & Ho). exists o. split; [done|]. destruct o as [x|].
  - destruct Ho as (HG & k & before & Hk & Hb & ->). split; [done|].
    exists (S k), ((sh_ cmd, ok) :: t1 ++ before). split; [lia|].
    split; [by apply tries_one, Hpause|]. cbn. by rewrite <-app_assoc.
  - by apply tries_one, Hpause.
Qed.

(** A verb that reads its output. *)
Lemma leaves_verb {A} cmd (k : string → result VirtError A) :
  leaves (s ← conn_run c cmd; of_result (k s))
    (λ r ts, ∃ ok, ts = [(sh_ cmd, ok)] ∧ (is_ok r = true → ok = true)
                   ∧ (ok = true → ∃ s, r = k s)).
Proof.
  eapply leaves_bind; [apply leaves_conn_run|..].
  - intros s t1 [-> _] h. exists true. cbn. split_and!; [done..|]. intros _. by exists s.
  - intros e t1 [-> _]. by exists false.
Qed.

Lemma probes_addr name :
  probes (addr_cmd name) (r ← try (domifaddr c name);
    mret match (r : result VirtError (option Ipv4)) with Ok ip => ip | Err _ => None end)
    (λ _, True).
Proof.
  eapply leaves_bind; [apply leaves_try, leaves_verb| |by intros e t1 (? & [=] & _)].
  intros r t1 (? & [= <-] & ok & -> & Hok & _). apply leaves_ret. eexists _, ok.
  split; [done|]. split; [done|]. intros x Hx. split; [|done]. apply Hok. by destruct r.
Qed.

Lemma probes_join cmd : probes cmd (probe_join c cmd) (λ j, starts_with "kubeadm join" j = true).
Proof.
  eapply leaves_bind; [apply leaves_try_conn_run| |by intros e t1 (? & [=] & _)].
  intros r t1 (? & [= <-] & ->). apply leaves_ret. eexists _, _. split; [done|]. split; [done|].
  intros x Hx. destruct r as [out|]; [|done]. cbv zeta in Hx.
  destruct (starts_with _ _) eqn:E; [|done]. by injection Hx as <-.
Qed.

Hypothesis Hlive : dry_run p = false.

Lemma leaves_address :
  leaves (plan_cp_ip_resolve c p) (λ r ts,
    answered (addr_cmd (plan_cp_name p)) (is_ok r) ts ∧ ∀ ip, r = Ok ip → ∃ a, ip = show_ipv4 a).
Proof using Hlive.
  unfold plan_cp_ip_resolve. rewrite Hlive. apply leaves_log.
  eapply leaves_bind; [apply leaves_retry_find, probes_addr| |by intros e t1 (? & [=] & _)].
  intros found t1 (? & [= <-] & Ho). destruct found as [ip|].
  - apply leaves_log, leaves_ret. rewrite app_nil_r. split; [by destruct Ho|].
    intros ? [= <-]. by exists ip.
  - apply leaves_throw. by rewrite app_nil_r.
Qed.

Lemma injector_in_empty : injector_in "" = None.
Proof. done. Qed.

Lemma leaves_detect :
  leaves (plan_injector_detect c p) (λ r ts,
    detected (match r with Ok i => Some i | Err _ => None end) ts).
Proof using Hlive.
  unfold plan_injector_detect. rewrite Hlive.
  eapply leaves_bind; [apply leaves_output_of| |by intros e t1 (? & ? & [=] & _)].
  intros out t1 (? & ok & [= <-] & -> & Hout). destruct (injector_in out) as [i|] eqn:Ei.
  { apply leaves_ret. destruct ok; [constructor|]. by rewrite Hout in Ei. }
  apply leaves_log, (leaves_best_effort _ _ (sh_ dnf_cmd)); [apply leaves_exec|]. intros x.
  eapply leaves_bind; [apply leaves_output_of| |by intros e t1 (? & ? & [=] & _)].
  intros out2 t2 (? & ok2 & [= <-] & -> & Hout2). destruct (injector_in out2) as [i|] eqn:Ei2.
  - apply leaves_ret. destruct ok2; [constructor|]. by rewrite Hout2 in Ei2.
  - apply leaves_throw. constructor.
Qed.

Lemma leaves_inject_with qcow i :
  leaves (inject_with c qcow (join_tmp qcow) i) (λ r ts, injector_run qcow i (is_ok r) ts).
Proof.
  destruct i; cbn [inject_with].
  2: { eapply leaves_conseq; [apply leaves_or_fail, leaves_exec|]. intros r ts ->. constructor. }
  eapply leaves_bind; [apply leaves_output_of| |by intros e t1 (? & ? & [=] & _)].
  intros out t1 (? & ok & [= <-] & -> & Hout). cbv zeta. set (root := trim out).
  destruct (is_empty root) eqn:Hr; cbn [negb].
  - eapply leaves_bind with (P := λ r ts, r = Ok "" ∧ ts = []); [by apply leaves_ret| |by intros ? ? [[=] _]].
    intros hash t2 [[= ->] ->]. eapply leaves_conseq; [apply leaves_or_fail, leaves_exec|].
    intros r ts ->. unfold etc_path_of. rewrite Hr. constructor.
  - assert (ok = true) as ->.
    { destruct ok; [done|]. unfold root in Hr. by rewrite Hout in Hr. }
    assert (Hroot : root ≠ "") by by intros E; rewrite E in Hr.
    eapply leaves_bind with (P := λ r ts, ∃ hash ok, r = Ok hash
      ∧ ts = [(sh_ (guestfish_ls_deploy_cmd qcow root), ok)] ∧ (ok = false → hash = "")).
    { eapply leaves_bind; [apply leaves_output_of| |by intros e t1 (? & ? & [=] & _)].
      intros o t1 (? & ok & [= <-] & -> & Ho). apply leaves_ret. eexists _, ok.
      split; [done|]. split; [done|]. intros E. by rewrite Ho. }
    2: by intros e t1 (? & ? & [=] & _).
    intros hash t2 (? & ok & [= <-] & -> & Hh).
    eapply leaves_conseq; [apply leaves_or_fail, leaves_exec|]. intros r ts ->.
    unfold etc_path_of. rewrite Hr. destruct (is_empty hash) eqn:Eh; cbn [negb andb].
    + by apply run_no_hash.
    + assert (ok = true) as -> by (destruct ok; [done|]; by rewrite Hh in Eh).
      apply run_ostree; [done|]. intros E. by rewrite E in Eh.
Qed.

Lemma leaves_inject qcow join_cmd i :
  leaves (inject_join_env c qcow join_cmd i) (λ r ts, injection qcow join_cmd i (is_ok r) ts).
Proof.
  unfold inject_join_env. cbv zeta. eapply leaves_bind; [apply leaves_or_fail, leaves_exec|..].
  2: { intros e t1 ->. constructor. }
  intros ? t1 ->. eapply leaves_bind; [apply leaves_try, leaves_inject_with| |by intros ? ? (? & [=] & _)].
  intros r t2 (? & [= <-] & Hr).
  apply (leaves_best_effort _ _ (sh_ ("rm -f -- " +:+ sh_quote (join_tmp qcow)))); [apply leaves_exec|].
  intros x. destruct r as [out|e]; [apply leaves_ret|apply leaves_throw]; by apply injected.
Qed.

Lemma leaves_remote_rm_f path : leaves (remote_rm_f c path) (λ r ts, ts = [(sh_ (remove_cmd path), is_ok r)]).
Proof. apply leaves_run_. Qed.

Lemma leaves_create ip key inj i :
  leaves (create_worker c p ip key inj i) (λ r ts, created ip key inj i (is_ok r) ts).
Proof.
  unfold create_worker. cbv zeta. apply leaves_log.
  eapply leaves_bind; [apply leaves_or_fail, leaves_run_|..].
  2: { intros e t1 ->. constructor. }
  intros ? t1 ->. apply leaves_log.
  eapply leaves_bind; [apply leaves_retry_find, probes_join| |by intros e t1 (? & [=] & _)].
  intros minted t1 (? & [= <-] & Ho). destruct minted as [join_cmd|].
  2: { eapply leaves_best_effort; [apply leaves_remote_rm_f|]. intros x. apply leaves_throw.
       by apply no_token. }
  destruct Ho as [Hj Ho]. apply leaves_log.
  eapply leaves_bind; [apply leaves_try, leaves_inject| |by intros ? ? (? & [=] & _)].
  intros r t2 (? & [= <-] & Hr). destruct r as [[]|e].
  - apply leaves_log. eapply leaves_conseq; [apply leaves_or_fail, leaves_run_|]. intros r ts ->.
    by eapply with_join.
  - eapply leaves_best_effort; [apply leaves_remote_rm_f|]. intros x. apply leaves_throw.
    by eapply no_injection.
Qed.

Lemma parse_dominfo_no_virsh out cmd k e : parse_dominfo out cmd ≠ Err (VirshFailed k e).
Proof. unfold parse_dominfo. destruct (foldl _ _ _) as [[] [] [] []]; done. Qed.

Lemma leaves_spawn ip key inj i :
  leaves (spawn_worker c p ip key inj i) (λ r ts, spawned ip key inj i (is_ok r) ts).
Proof.
  unfold spawn_worker. cbv zeta.
  eapply leaves_bind; [apply leaves_try, leaves_verb| |by intros ? ? (? & [=] & _)].
  intros r t1 (? & [= <-] & ok & -> & Hok & Hp). destruct r as [info|e].
  { rewrite Hok by done. apply leaves_log.
    eapply leaves_bind; [apply leaves_try, leaves_run_| |by intros ? ? (? & [=] & _)].
    intros r t1 (? & [= <-] & ->).
    destruct r; [apply leaves_ret|apply leaves_log_last]; constructor. }
  destruct e; try (apply leaves_throw; rewrite app_nil_r || cbn; by constructor).
  assert (ok = false) as ->.
  { destruct ok; [|done]. destruct (Hp eq_refl) as [out Hout]. symmetry in Hout.
    by apply parse_dominfo_no_virsh in Hout. }
  eapply leaves_conseq; [apply leaves_create|]. intros r ts. apply newly_created.
Qed.

Lemma leaves_check_template :
  leaves (check_template c p) (λ r ts, ∃ x, ts = [(sh_ template_cmd, x)] ∧ (is_ok r = true → x = true)).
Proof.
  unfold check_template. cbv zeta.
  eapply leaves_bind; [apply leaves_try, leaves_path_exists| |by intros ? ? (? & [=] & _)].
  intros r t1 (? & [= <-] & ok & -> & Hok). destruct r as [[]|e].
  - apply leaves_log_last. exists ok. split; [done|]. intros _. by apply Hok.
  - apply leaves_throw. by exists ok.
  - apply leaves_throw. by exists ok.
Qed.

Lemma leaves_switch_worker key i :
  leaves (switch_worker c key i) (λ r ts, is_ok r = true ∧ switched key i true ts).
Proof.
  unfold switch_worker. cbv zeta.
  eapply leaves_bind; [apply leaves_try, leaves_verb| |by intros ? ? (? & [=] & _)].
  intros r t1 (? & [= <-] & ok & -> & Hok & _).
  destruct r as [[ip|]|e]; [|apply leaves_log_last; split; [done|constructor]..].
  rewrite Hok by done.
  eapply leaves_bind; [apply leaves_try_conn_run| |by intros ? ? (? & [=] & _)].
  intros r t1 (? & [= <-] & ->).
  destruct r; [apply leaves_ret|apply leaves_log_last]; (split; [done|constructor]).
Qed.

Lemma leaves_switching key :
  leaves (plan_bootc_switch c p key) (λ r ts, is_ok r = true ∧ switching key ts).
Proof using Hlive.
  unfold plan_bootc_switch, switching. rewrite Hlive. destruct (bool_decide _); cbn [orb].
  { by apply leaves_log_last. }
  destruct (_ && _); [by apply leaves_log_last|].
  eapply leaves_conseq; [apply leaves_for_each with
    (P := λ i b ts, b = true ∧ switched key i true ts);
    intros i _; apply leaves_switch_worker|]. cbn beta.
  intros r ts H. induction H as [|x l ts [[=] _]|x l b t1 t2 [_ H1] _ [-> IH]].
  - split; [done|constructor].
  - split; [done|by apply each_cons].
Qed.

Lemma leaves_refresh :
  leaves (r ← try (virsh_pool_refresh c "mass2");
          match (r : result VirtError unit) with
          | Ok _ => mret tt
          | Err e => log ("WARN: virsh pool-refresh mass2 failed: " +:+ show_virt_error e)
          end : IO anyhow unit) (λ r ts, r = Ok tt ∧ ∃ x, ts = [(sh_ refresh_cmd, x)]).
Proof.
  eapply leaves_bind; [apply leaves_try, leaves_run_| |by intros ? ? (? & [=] & _)].
  intros r t1 (? & [= <-] & ->). destruct r; [apply leaves_ret|apply leaves_log_last]; eauto.
Qed.

Lemma leaves_run_plan : leaves (run_plan c p) (λ r ts, live_run (is_ok r) ts).
Proof using Hlive.
  unfold run_plan. apply leaves_log, leaves_log. cbv zeta.
  eapply leaves_bind; [apply leaves_address| |].
  2: { intros e t1 [H _]. by apply no_address. }
  intros ? t1 [H1 Hip]. destruct (Hip _ eq_refl) as [ip ->].
  eapply leaves_bind; [apply leaves_detect| |].
  2: { intros e t2 H2. by apply no_injector. }
  intros inj t2 H2. unfold plan_worker_loop. rewrite Hlive.
  eapply leaves_bind with (P := λ r t3,
    if is_ok r then ∃ t x, t3 = (sh_ template_cmd, true) :: t ++ [(sh_ refresh_cmd, x)]
      ∧ each (spawned (show_ipv4 ip) key_path inj) (indices p) true t
    else ∃ x t, t3 = (sh_ template_cmd, x) :: t
      ∧ (t = [] ∨ x = true ∧ each (spawned (show_ipv4 ip) key_path inj) (indices p) false t)).
  - eapply leaves_bind; [apply leaves_check_template| |].
    2: { intros e t3 (x & -> & _). exists x, []. split; [done|by left]. }
    intros ? t3 (x & -> & Hx). rewrite Hx by done.
    eapply leaves_bind; [apply leaves_for_each; intros i _; apply leaves_spawn| |].
    2: { intros e t4 H4. exists true, t4. split; [done|by right]. }
    intros ? t4 H4. eapply leaves_conseq; [apply leaves_refresh|].
    intros r t5 [-> [y ->]]. by exists t4, y.
  - intros ? t3 (t & x & -> & H3). eapply leaves_bind; [apply leaves_switching| |by intros e t4 [[=] _]].
    intros ? t4 [_ H4]. apply leaves_ret. rewrite app_nil_r.
    replace (t1 ++ t2 ++ _ ++ t4) with
      (t1 ++ t2 ++ (sh_ template_cmd, true) :: t ++ (sh_ refresh_cmd, x) :: t4);
      [exact (all_spawned inj ip _ _ _ _ _ H1 H2 H3 H4)|].
    by list_simplifier.
  - intros e t3 (x & t & -> & Ht). destruct Ht as [->|[-> Ht]].
    + exact (no_template inj _ _ _ H1 H2).
    + exact (worker_failed inj ip _ _ _ H1 H2 Ht).
Qed.
End spec.

(** ** A dry run *)

Lemma announces_spawn_log line : announces (log line) (λ _, True).
Proof. intros h. split; [by exists tt|by repeat constructor]. Qed.
#[local] Hint Resolve announces_spawn_log : core.

Lemma announces_run_plan `{World} `{Host} c p : dry_run p = true → announces (run_plan c p) (λ _, True).
Proof.
  intros Hd. unfold run_plan, plan_cp_ip_resolve, plan_injector_detect, plan_worker_loop,
    plan_bootc_switch, summary. rewrite Hd. cbv zeta.
  repeat first
    [ apply announces_spawn_log | eapply announces_bind with (P := λ _, True); [|intros ? _]
    | apply announces_for_each; intros ? _ | by apply announces_ret
    | destruct (bool_decide _) ].
Qed.

(** C15: [hbird spawn-workers], from the arguments to the last call.  With a count
    of 0 or a config that does not parse nothing is called.  A dry run only
    prints.  A live run is one of [live_run]: the address of the control plane is
    polled, an injector is found, the template exists, and then each worker in
    turn is started if it is defined, or else created ([created]): its disk is
    cloned, a join command is minted within the retries, written into the disk,
    and only then is the VM installed; when no command is minted or the injection
    fails the disk is removed and the run ends.  The temporary file with the
    token is removed in either case.  The final refresh and the switches never
    fail the run. *)
Theorem spawn_workers_run `{World} `{Host} args h :
  let '(r, es) := run args h in
  if (sw_count args =? 0)%N then is_ok r = false ∧ es = []
  else match parse (λ _, file_answer h (sw_config args)) (sw_config args) with
       | Err e => r = Err (anyhow_msg (show_config_error e)) ∧ es = []
       | Ok cfg =>
           if sw_dry_run args then r = Ok tt ∧ Forall is_out es
           else live_run (from_args args cfg) (is_ok r) (transcript es)
       end.
Proof.
  unfold run. destruct (sw_count args =? 0)%N; [done|].
  unfold parse_config. run_io. destruct (parse _ _) as [cfg|e]; [|done].
  cbv zeta. rewrite app_nil_r. set (p := from_args args cfg).
  assert (Hd : dry_run p = sw_dry_run args) by done.
  destruct (run_plan _ p h) as [r es] eqn:E. cbn [app]. destruct (sw_dry_run args).
  - pose proof (announces_run_plan (build_connection (plan_kvm_host p)) p Hd h) as [([] & Hr & _) Hes].
    rewrite E in Hr, Hes. done.
  - pose proof (leaves_run_plan p Hd h) as Hr. by rewrite E in Hr.
Qed.

(** ** The temporary file of the join command *)

Lemma worker_name_plain i c :
  c ∈ ["/"; "."; "'"]%char → contains_char c (worker_name i) = false.
Proof.
  intros Hc. unfold worker_name. rewrite contains_char_app, show_N_plain; revert Hc;
    rewrite !elem_of_cons, elem_of_nil; by intros [->|[->|[->|[]]]].
Qed.

Lemma file_stem_worker dir i : file_stem (dir +:+ "/" +:+ worker_name i +:+ ".qcow2") = worker_name i.
Proof.
  unfold file_stem.
  rewrite (proj2 (rsplit_once_Some "/" _ dir (worker_name i +:+ ".qcow2"))).
  2: { split; [done|]. rewrite contains_char_app, worker_name_plain; [done|by left]. }
  rewrite (proj2 (rsplit_once_Some "." _ (worker_name i) "qcow2")) by done. done.
Qed.

(** The name of the temporary file does not depend on the pool directory, and has
    no quote in it, so that the single quotes [virt_customize_inject_cmd] puts
    around it are enough: [virt-customize] sees the disk and the file as single
    arguments, whatever the pool directory is called. *)
Theorem virt_customize_words `{Host} p i :
  let disk := qcow_of p (worker_name i) in
  let tmp := "/tmp/hbird-join-" +:+ show_N process_id +:+ "-" +:+ worker_name i +:+ ".env" in
  join_tmp disk = tmp
  ∧ shell_words (virt_customize_inject_cmd disk (join_tmp disk))
    = Some ["virt-customize"; "-a"; disk; "--mkdir"; "/etc/hummingbird"; "--upload";
            tmp +:+ ":/etc/hummingbird/worker-join.env";
            "--run-command"; "chmod 0600 /etc/hummingbird/worker-join.env";
            "--run-command"; "chown root:root /etc/hummingbird/worker-join.env"].
Proof.
  cbv zeta. assert (Ht : join_tmp (qcow_of p (worker_name i))
    = "/tmp/hbird-join-" +:+ show_N process_id +:+ "-" +:+ worker_name i +:+ ".env").
  { unfold join_tmp, qcow_of. by rewrite file_stem_worker. }
  split; [done|]. rewrite Ht. unfold virt_customize_inject_cmd.
  set (tmp := _ +:+ show_N _ +:+ _). set (disk := qcow_of _ _).
  assert (Htmp : contains_char "'" (tmp +:+ ":/etc/hummingbird/worker-join.env") = false).
  { unfold tmp. by rewrite !contains_char_app, worker_name_plain, show_N_plain by (done || right; right; by left). }
  clearbody tmp disk.
  transitivity (shell_words (join " " ["virt-customize"; "-a"; sh_quote disk; "--mkdir";
    "/etc/hummingbird"; "--upload"; "'" +:+ (tmp +:+ ":/etc/hummingbird/worker-join.env") +:+ "'";
    "--run-command"; "'chmod 0600 /etc/hummingbird/worker-join.env'";
    "--run-command"; "'chown root:root /etc/hummingbird/worker-join.env'"])).
  { f_equal. cbn [join]. rewrite <-!app_assoc_s. done. }
  apply shell_words_join. repeat constructor; try (by apply spells_bare).
  - apply sh_quote_spells.
  - by apply spells_quoted.
  - by apply (spells_quoted "chmod 0600 /etc/hummingbird/worker-join.env").
  - by apply (spells_quoted "chown root:root /etc/hummingbird/worker-join.env").
Qed.

(** ** Runs on concrete hosts *)

Definition spawn_args (dry : bool) (count : N) : SpawnWorkersArgs :=
  mkSpawnWorkersArgs "cluster.local.conf" count (Some "geary") false dry 5 10 "2h" false false.

Definition spawn_config : string :=
  "CP_NAME=hbird-cp1" +:+ NL +:+ "SSH_PUBKEY_FILE=/k.pub" +:+ NL +:+ "POOL_DIR=/mnt/pool" +:+ NL.

(** [fixtures/dry_run_spawn.txt], for one worker *)
Example dry_run_spawn_fixture :
  let '(r, es) := @run (calm_world spawn_config) bare_host (spawn_args true 1) [] in
  r = Ok tt ∧ omap (λ e, match e with EvOut l => Some l | _ => None end) es = [
    "[spawn-workers] config: cluster.local.conf";
    "[spawn-workers] config OK: CP=hbird-cp1, count=1, pool_dir=/mnt/pool";
    "[spawn-workers] DRY-RUN would resolve CP IP via 'virsh domifaddr hbird-cp1'";
    "[spawn-workers] DRY-RUN would probe for guestfish (preferred for bootc/ostree) or virt-customize (fallback) on the KVM host";
    "[spawn-workers] DRY-RUN worker template qcow2: /mnt/pool/hummingbird-k8s-worker.qcow2 (must exist; bash twin fails fast when missing)";
    "[spawn-workers] DRY-RUN worker 1/1: would skip hummingbird-k8s-worker-1 if 'virsh dominfo hummingbird-k8s-worker-1' succeeds (re-uses existing VM via 'virsh start')";
    "[spawn-workers] DRY-RUN worker 1/1: would clone /mnt/pool/hummingbird-k8s-worker.qcow2 -> /mnt/pool/hummingbird-k8s-worker-1.qcow2 (reflink=auto), chmod 0644";
    "[spawn-workers] DRY-RUN worker 1/1: would mint 2h-TTL kubeadm join token via 'ssh root@<resolved-at-runtime> kubeadm token create --print-join-command' (with retry)";
    "[spawn-workers] DRY-RUN worker 1/1: would inject join command into /mnt/pool/hummingbird-k8s-worker-1.qcow2 at /etc/hummingbird/worker-join.env via guestfish (bootc-aware: discovers /ostree/deploy/<stateroot>/deploy/<commit>.0)";
    "[spawn-workers] DRY-RUN worker 1/1: would virt-install hummingbird-k8s-worker-1 (memory=4096 vcpus=2) attaching /mnt/pool/hummingbird-k8s-worker-1.qcow2";
    "[spawn-workers] DRY-RUN would virsh pool-refresh after spawning 1 worker(s)";
    "[spawn-workers] DRY-RUN would run 'scripts/switch-to-ghcr.sh hummingbird-k8s-worker-1 ghcr.io/aatchison/hummingbird-k8s-worker:latest' (best-effort per worker)";
    "[spawn-workers] ";
    "[spawn-workers] ==============================================================";
    "[spawn-workers] DRY-RUN plan complete. No VMs were created.";
    "[spawn-workers]   CP:        hbird-cp1 (<resolved-at-runtime>)";
    "[spawn-workers]   Count:     1 worker(s) to spawn";
    "[spawn-workers]   Worker:    memory=4096 vcpus=2";
    "[spawn-workers] =============================================================="].
Proof. vm_compute. done. Qed.

(** A host where the injection of the join command fails: the disk is removed
    again and no VM is installed. *)
Definition no_injection_world : World := {|
  ssh_answer _ o cmd _ :=
    if starts_with "guestfish --rw" cmd || contains "dominfo" cmd
    then Err (NonZeroExit (host o) (Exited 1) "" "failed")
    else Ok (mkRunOutput (Exited 0)
               (if contains "domifaddr" cmd
                then "vnet0 52:54:00:aa:bb:cc ipv4 192.168.122.10/24" +:+ NL
                else if contains "kubeadm token" cmd then "kubeadm join 192.168.122.10:6443"
                else if contains "ostree" cmd then "" else "guestfish") "");
  local_answer _ _ := Err (IoError "unused");
  stdout_answer _ _ := Ok tt;
  stderr_answer _ _ := Ok tt;
  file_answer _ _ := Ok spawn_config;
  fs_answer _ _ := Ok tt;
|}.

Example failed_injection_cleans_up :
  let '(r, es) := @run no_injection_world bare_host (spawn_args false 2) [] in
  is_ok r = false
  ∧ last (transcript es)
    = Some (Cmd (new "geary") "rm -f -- '/mnt/pool/hummingbird-k8s-worker-1.qcow2'" None, true)
  ∧ length (transcript es) = 11%nat.
Proof. vm_compute. done. Qed.
