(* ===== verification/Switch.v ===== *)
(** * hbird switch-to-ghcr

    [crates/hbird-cli/src/commands/switch_to_ghcr.rs]: the plan, the waits, the
    switch of one VM and the two modes.  The JSON reader is MiniJson.v.  The
    clock is the real one: a sleep is an event.  An error of [hbird-virt] inside
    an [anyhow] error is represented by its text. *)

From S2P Require Import Prelude RustStr ConfigTypes ConfigLexer ConfigBuild SshOptions SshClient.
From S2P Require Import Effects VirtUri Shell VirtParse VirtConn Cp MiniJson.

Record SwitchToGhcrArgs : Set := mkSwitchToGhcrArgs {
  sg_vm : option string;
  sg_ghcr_ref : option string;
  sg_config : option string;
  sg_kvm_host : option string;
  sg_ghcr_org : option string;
  sg_ghcr_tag : option string;
  bootc_switch_to_ghcr : bool;
  sg_force_rebuild : bool;
  sg_force_switch : bool;
  sg_dry_run : bool;
}.

Definition log (line : string) : IO anyhow unit := lift (println ("[switch-to-ghcr] " +:+ line)).

Definition DEFAULT_GHCR_ORG : string := "ghcr.io/aatchison".
Definition DEFAULT_GHCR_TAG : string := "latest".
Definition HUMMINGBIRD_PREFIX : string := "hummingbird-".
Definition WAIT_TRIES : nat := 30.
Definition WAIT_INTERVAL_SECS : N := 2.
Definition PROBE_CONNECT_TIMEOUT_SECS : N := 5.
Definition SWITCH_CONNECT_TIMEOUT_SECS : N := 10.

(** [WAIT_TRIES * WAIT_INTERVAL_SECS] *)
Definition waited_secs : string := show_N (N.of_nat WAIT_TRIES * WAIT_INTERVAL_SECS).

Definition flavor_for_vm (name : string) : option string :=
  if bool_decide (name = "hummingbird-k8s") then Some "hummingbird-k8s"
  else if starts_with "hummingbird-k8s-worker-" name then Some "hummingbird-k8s-worker"
  else None.

Definition ghcr_ref_for (org flavor tag : string) : string :=
  trim_end_char "/" org +:+ "/" +:+ flavor +:+ ":" +:+ tag.

(** ** The waits *)

(** [for attempt in 0..tries], with [left] attempts left: a pause between two
    attempts, none after the last. *)
Fixpoint attempts {E A} (left : nat) (f : IO E (option A)) : IO E (option A) :=
  match left with
  | O => mret None
  | S left' =>
      r ← f;
      match r with
      | Some x => mret (Some x)
      | None =>
          _ ← (if (0 <? left')%nat then lift (sleep (from_secs WAIT_INTERVAL_SECS)) else mret tt);
          attempts left' f
      end
  end.

Definition ip_attempt (c : Connection) (name : string) : IO anyhow (option Ipv4) :=
  r ← try (domifaddr c name);
  mret match (r : result VirtError (option Ipv4)) with Ok (Some ip) => Some ip | _ => None end.
Definition wait_for_ip_with (c : Connection) (name : string) (tries : nat) : IO anyhow (option Ipv4) :=
  attempts tries (ip_attempt c name).

Definition ssh_attempt (ssh : SshExec) : IO anyhow (option unit) :=
  r ← try (@exec ssh "true" None);
  mret match (r : result SshError RunOutput) with Ok _ => Some tt | Err _ => None end.
Definition wait_for_ssh_with (ssh : SshExec) (tries : nat) : IO anyhow bool :=
  r ← attempts tries (ssh_attempt ssh);
  mret match (r : option unit) with Some _ => true | None => false end.

(** ** One VM *)

Definition BOOTC_STATUS_CMD : string := "bootc status --json 2>/dev/null".

Definition current_image_ref_with_exec (ssh : SshExec) : IO anyhow (option string) :=
  r ← try (@exec ssh BOOTC_STATUS_CMD None);
  mret match (r : result SshError RunOutput) with
       | Ok out => parse_booted_image (stdout_lossy out)
       | Err (NonZeroExit _ _ stdout _) => parse_booted_image stdout
       | Err _ => None
       end.

Inductive SwitchOutcome : Set :=
| AlreadyTracking
| Switched (before after : option string).
#[export] Instance SwitchOutcome_eq_dec : EqDecision SwitchOutcome.
Proof. solve_decision. Defined.

Definition or_unknown (value : option string) : string := default "<unknown>" value.

Definition bootc_switch_cmd (ghcr_ref : string) : string :=
  "bootc switch " +:+ shell_single_quote ghcr_ref.

Definition switch_one_with_exec (ssh : SshExec) (name ghcr_ref : string) : IO anyhow SwitchOutcome :=
  before ← current_image_ref_with_exec ssh;
  if bool_decide (before = Some ghcr_ref) then
    _ ← log (name +:+ ": already tracking " +:+ ghcr_ref +:+ "; nothing to do.");
    mret AlreadyTracking
  else
    _ ← log (name +:+ ": switching from '" +:+ or_unknown before +:+ "' to '" +:+ ghcr_ref +:+ "'...");
    r ← try (@exec ssh (bootc_switch_cmd ghcr_ref) None);
    match (r : result SshError RunOutput) with
    | Err e =>
        _ ← log (name +:+ ": bootc switch failed (image may not exist on GHCR yet). "
                 +:+ show_ssh_error e);
        bail (name +:+ ": bootc switch to " +:+ ghcr_ref +:+ " failed: " +:+ show_ssh_error e)
    | Ok _ =>
        after ← current_image_ref_with_exec ssh;
        _ ← log (name +:+ ": now tracking '" +:+ or_unknown after +:+ "' (was '" +:+ or_unknown before
                 +:+ "').");
        mret (Switched before after)
    end.

(** ** The plan *)

Record Plan : Set := mkPlan {
  plan_ghcr_org : string;
  plan_ghcr_tag : string;
  plan_kvm_host : option string;
  force_rebuild : bool;
  force_switch : bool;
  dry_run : bool;
}.

Definition from_args (a : SwitchToGhcrArgs) (config : option ClusterConfig) : Plan :=
  let '(cfg_tag, cfg_kvm_host) :=
    match config with
    | Some c => (Some (ghcr_tag c), kvm_host c)
    | None => (None, None)
    end in
  mkPlan (default DEFAULT_GHCR_ORG (non_empty (sg_ghcr_org a)))
    (default DEFAULT_GHCR_TAG (or_else (non_empty (sg_ghcr_tag a)) cfg_tag))
    (or_else (non_empty (sg_kvm_host a)) cfg_kvm_host)
    (sg_force_rebuild a) (sg_force_switch a) (sg_dry_run a).

Definition vm_ssh_opts (p : Plan) (ip : string) (connect_timeout_secs : N) : SshOptions :=
  let opts := with_connect_timeout (from_secs connect_timeout_secs) (with_user "root" (new ip)) in
  match plan_kvm_host p with
  | Some jump => with_proxy_jump jump opts
  | None => opts
  end.

Section switch.
Context `{W : World} (c : Connection) (p : Plan).

Definition switch_vm (name ghcr_ref : string) : IO anyhow SwitchOutcome :=
  if dry_run p then
    _ ← log (name +:+ ": DRY-RUN would resolve IP via virsh domifaddr, wait for sshd, then run: "
             +:+ "bootc switch " +:+ shell_single_quote ghcr_ref);
    mret AlreadyTracking
  else
    _ ← log (name +:+ ": resolving IP...");
    found ← wait_for_ip_with c name WAIT_TRIES;
    match (found : option Ipv4) with
    | None =>
        _ ← log (name +:+ ": no DHCP lease after " +:+ waited_secs +:+ "s; SKIP.");
        bail (name +:+ ": no DHCP lease")
    | Some ip =>
        _ ← log (name +:+ ": ip=" +:+ show_ipv4 ip +:+ "; waiting for sshd...");
        let ip := show_ipv4 ip in
        up ← wait_for_ssh_with (client_exec (vm_ssh_opts p ip PROBE_CONNECT_TIMEOUT_SECS)) WAIT_TRIES;
        if negb (up : bool) then
          _ ← log (name +:+ ": sshd never came up after " +:+ waited_secs +:+ "s; SKIP.");
          bail (name +:+ ": sshd never came up")
        else
          switch_one_with_exec (client_exec (vm_ssh_opts p ip SWITCH_CONNECT_TIMEOUT_SECS)) name ghcr_ref
    end.

(** [switch_vm(..).is_err()] *)
Definition switch_failed (name ghcr_ref : string) : IO anyhow bool :=
  r ← try (switch_vm name ghcr_ref);
  mret match (r : result anyhow SwitchOutcome) with Ok _ => false | Err _ => true end.

Definition single_ref (vm : string) (explicit_ref : option string) : option string :=
  match non_empty explicit_ref with
  | Some r => Some r
  | None => (λ flavor, ghcr_ref_for (plan_ghcr_org p) flavor (plan_ghcr_tag p)) <$> flavor_for_vm vm
  end.

Definition run_single_vm (vm : string) (explicit_ref : option string) : IO anyhow unit :=
  if force_rebuild p && negb (force_switch p) then
    _ ← log ("WARN: FORCE_REBUILD=1 — skipping switch of '" +:+ vm
             +:+ "' to GHCR so it keeps tracking its freshly-built install-time image (#375).");
    log ("WARN: set FORCE_SWITCH=1 to switch anyway, or unset FORCE_REBUILD for normal "
         +:+ "GHCR-tracking behavior.")
  else
    match single_ref vm explicit_ref with
    | None =>
        _ ← log ("ERROR: cannot infer GHCR ref for VM '" +:+ vm +:+ "' (unknown flavor).");
        bail ("switch-to-ghcr: cannot infer GHCR ref for VM '" +:+ vm +:+ "' (unknown flavor)")
    | Some ghcr_ref =>
        failed ← switch_failed vm ghcr_ref;
        if (failed : bool) then
          log ("WARN: switch failed for " +:+ vm +:+ "; VM still tracks its install-time image.")
        else mret tt
    end.

(** The loop of [run_all_vms]: how many switches failed. *)
Fixpoint switch_each (vms : list string) : IO anyhow nat :=
  match vms with
  | [] => mret 0%nat
  | vm :: vms =>
      match flavor_for_vm vm with
      | None => _ ← log (vm +:+ ": unknown flavor; SKIP."); switch_each vms
      | Some flavor =>
          failed ← switch_failed vm (ghcr_ref_for (plan_ghcr_org p) flavor (plan_ghcr_tag p));
          n ← switch_each vms;
          mret (if (failed : bool) then S n else n)
      end
  end.

Definition hummingbird_vms (running : list Domain) : list string :=
  filter (λ n, starts_with HUMMINGBIRD_PREFIX n = true) (domain_name <$> running).

Definition run_all_vms : IO anyhow unit :=
  r ← try (running_domains c);
  match (r : result VirtError (list Domain)) with
  | Err e =>
      throw (context ("switch-to-ghcr: could not list running libvirt domains — check --kvm-host "
                      +:+ "reachability and libvirt-group membership before re-running")
               (mkAnyhow [] (ROther (show_virt_error e))))
  | Ok running =>
      let vms := hummingbird_vms running in
      match vms with
      | [] => log "no running hummingbird-* VMs found."
      | _ =>
          failed ← switch_each vms;
          if (0 <? failed)%nat then
            bail ("switch-to-ghcr: " +:+ show_nat failed
                  +:+ " VM(s) failed to switch — see the SKIP/failure lines above")
          else mret tt
      end
  end.

(** [run] after the plan and the connection are there. *)
Definition run_plan (vm explicit_ref : option string) : IO anyhow unit :=
  _ ← (if dry_run p then log "DRY-RUN mode: no VM will be modified." else mret tt);
  r ← try (match non_empty vm with
           | Some vm => run_single_vm vm explicit_ref
           | None => run_all_vms
           end);
  _ ← (if dry_run p && is_ok (r : result anyhow unit) then log "DRY-RUN done." else mret tt);
  of_result r.
End switch.

Definition run `{World} (a : SwitchToGhcrArgs) : IO anyhow unit :=
  if negb (bootc_switch_to_ghcr a) then log "BOOTC_SWITCH_TO_GHCR=0; skipping."
  else
    config ← match sg_config a with
             | Some path =>
                 c ← io_map_err (context ("switch-to-ghcr: could not read config " +:+ path))
                       (parse_config path);
                 mret (Some c)
             | None => mret None
             end;
    let p := from_args a config in
    run_plan (build_connection (plan_kvm_host p)) p (sg_vm a) (sg_ghcr_ref a).
