(* ===== verification/SwitchFacts.v ===== *)
(** * What [hbird switch-to-ghcr] does

    The calls for one VM, and of a whole run in both modes, with the exit codes
    of the module's table. *)

From S2P Require Import Prelude RustStr ConfigTypes ConfigLexer ConfigBuild SshOptions SshClient.
From S2P Require Import Effects VirtUri Shell VirtParse VirtConn VirtCalls Cp Transcript ConnSteps.
From S2P Require Import MiniJson Switch.

Section spec.
Context `{W : World} (p : Plan).
#[local] Abbreviation kvm := (plan_kvm_host p).
#[local] Abbreviation c := (build_connection kvm).

Definition pause : step := Wait (from_secs 2).
Definition addr_step (name : string) : step := sh kvm (virsh c ("domifaddr " +:+ shell_quote name)).
Definition probe_opts (ip : Ipv4) : SshOptions := vm_ssh_opts p (show_ipv4 ip) 5.
Definition switch_opts (ip : Ipv4) : SshOptions := vm_ssh_opts p (show_ipv4 ip) 10.

(** What the answer to [bootc status] says, from whatever came out. *)
Definition booted_ref (answer : result SshError RunOutput) : option string :=
  match answer with
  | Ok out => parse_booted_image (stdout_lossy out)
  | Err (NonZeroExit _ _ stdout _) => parse_booted_image stdout
  | Err _ => None
  end.

(** The status is read, and only when it is another one, or is not known, the VM
    is switched and read again. *)
Inductive switch_calls (o : SshOptions) (ref : string) : result anyhow SwitchOutcome → history → Prop :=
| calls_tracking a :
    booted_ref a = Some ref →
    switch_calls o ref (Ok AlreadyTracking) [EvSsh o BOOTC_STATUS_CMD None a]
| calls_failed a e msg :
    booted_ref a ≠ Some ref →
    switch_calls o ref (Err msg)
      [EvSsh o BOOTC_STATUS_CMD None a; EvSsh o (bootc_switch_cmd ref) None (Err e)]
| calls_switched a out a' :
    booted_ref a ≠ Some ref →
    switch_calls o ref (Ok (Switched (booted_ref a) (booted_ref a')))
      [EvSsh o BOOTC_STATUS_CMD None a; EvSsh o (bootc_switch_cmd ref) None (Ok out);
       EvSsh o BOOTC_STATUS_CMD None a'].

(** One VM: its lease, its [sshd], the switch. *)
Inductive vm_calls (name ref : string) : bool → history → Prop :=
| no_lease es : polled (addr_step name) pause 30 false (transcript es) → vm_calls name ref false es
| no_sshd ip e1 e2 :
    polled (addr_step name) pause 30 true (transcript e1) →
    polled (Cmd (probe_opts ip) "true" None) pause 30 false (transcript e2) →
    vm_calls name ref false (e1 ++ e2)
| reached ip e1 e2 r e3 :
    polled (addr_step name) pause 30 true (transcript e1) →
    polled (Cmd (probe_opts ip) "true" None) pause 30 true (transcript e2) →
    switch_calls (switch_opts ip) ref r e3 →
    vm_calls name ref (is_ok r) (e1 ++ e2 ++ e3).

(** The VMs of a known flavor, one after the other, whatever fails; [n] fail. *)
Inductive all_calls : list string → nat → history → Prop :=
| all_none : all_calls [] 0 []
| all_unknown vm vms n es : flavor_for_vm vm = None → all_calls vms n es → all_calls (vm :: vms) n es
| all_known vm flavor vms n b e1 e2 :
    flavor_for_vm vm = Some flavor →
    vm_calls vm (ghcr_ref_for (plan_ghcr_org p) flavor (plan_ghcr_tag p)) b e1 →
    all_calls vms n e2 →
    all_calls (vm :: vms) (if b then n else S n) (e1 ++ e2).

(** ** The parts *)

Lemma leaves_attempts {A} s (f : IO anyhow (option A)) n :
  leaves f (λ r ts, ∃ o ok, r = Ok o ∧ ts = [(s, ok)] ∧ (is_Some o → ok = true)) →
  leaves (attempts n f) (λ r ts, ∃ o, r = Ok o ∧ polled s pause n (bool_decide (is_Some o)) ts).
Proof.
  intros Hf. induction n as [|n IH]; cbn [attempts].
  { apply leaves_ret. exists None. split; [done|constructor]. }
  eapply leaves_bind; [exact Hf| |by intros e t1 (? & ? & [=] & _)].
  intros [x|] t1 (? & ok & [= <-] & -> & Hx).
  { apply leaves_ret. exists (Some x). split; [done|]. rewrite Hx by done. constructor. }
  destruct n as [|n].
  - cbn [Nat.ltb Nat.leb attempts]. eapply leaves_bind; [by apply leaves_ret with (Q := λ r ts, r = Ok tt ∧ ts = [])| |].
    2: by intros ? ? [[=] _].
    intros [] t2 [_ ->]. apply leaves_ret. exists None. split; [done|constructor].
  - cbn [Nat.ltb Nat.leb]. eapply leaves_bind with (P := λ r ts, r = Ok tt ∧ ts = [(pause, true)]).
    { by intros h. } 2: by intros ? ? [[=] _].
    intros [] t2 [_ ->]. eapply leaves_conseq; [exact IH|]. intros r ts (o & -> & Ho).
    exists o. split; [done|]. cbn. by constructor.
Qed.

Lemma leaves_ip name :
  leaves (wait_for_ip_with c name WAIT_TRIES)
    (λ r ts, ∃ o, r = Ok o ∧ polled (addr_step name) pause 30 (bool_decide (is_Some o)) ts).
Proof.
  apply leaves_attempts. unfold ip_attempt, domifaddr.
  eapply leaves_bind with (P := λ r ts, ∃ r' ok, r = Ok r' ∧ ts = [(addr_step name, ok)]
                                            ∧ (is_ok r' = true → ok = true)).
  - eapply leaves_conseq; [apply leaves_try; eapply leaves_bind; [apply leaves_conn_run|..]|].
    + intros s t1 [-> _]. instantiate (1 := λ r ts, ∃ ok, ts = [(addr_step name, ok)] ∧ (is_ok r = true → ok = true)).
      intros h. by exists true.
    + intros e t1 [-> _]. by exists false.
    + intros r ts (r' & -> & ok & -> & Hok). eauto.
  - intros r t1 (? & ok & [= <-] & -> & Hok). apply leaves_ret. eexists _, ok. split; [done|].
    split; [done|]. destruct r as [[ip|]|e]; [|by intros []..]. intros _. by apply Hok.
  - by intros e t1 (? & ? & [=] & _).
Qed.

Lemma leaves_ssh ip :
  leaves (wait_for_ssh_with (client_exec (probe_opts ip)) WAIT_TRIES)
    (λ r ts, ∃ b, r = Ok b ∧ polled (Cmd (probe_opts ip) "true" None) pause 30 b ts).
Proof.
  eapply leaves_bind.
  - eapply leaves_attempts with (s := Cmd (probe_opts ip) "true" None). intros h. cbn.
    eexists _, _. split; [done|]. split; [done|]. by destruct (ssh_answer _ _ _ _).
  - intros o t1 (? & [= <-] & Ho). apply leaves_ret. eexists. split; [done|]. rewrite app_nil_r.
    by destruct o.
  - by intros e t1 (? & [=] & _).
Qed.

Lemma does_image o :
  does (current_image_ref_with_exec (client_exec o)) (λ r es, ∃ a,
    r = Ok (booted_ref a) ∧ es = [EvSsh o BOOTC_STATUS_CMD None a]).
Proof. intros h. by exists (ssh_answer h o BOOTC_STATUS_CMD None). Qed.

Lemma does_switch_one o name ref :
  does (switch_one_with_exec (client_exec o) name ref) (switch_calls o ref).
Proof.
  eapply does_bind; [apply does_image| |by intros e e1 (? & [=] & _)].
  intros before e1 (a & [= ->] & ->). destruct (bool_decide _) eqn:Hb.
  { apply bool_decide_eq_true in Hb. apply does_println, does_ret. by constructor. }
  apply bool_decide_eq_false in Hb. apply does_println.
  eapply does_bind; [apply does_try, does_ssh| |by intros e e1 (? & [=] & _)].
  intros r e1 (? & [= <-] & ->). destruct r as [out|e].
  - eapply does_bind; [apply does_image| |by intros e e1 (? & [=] & _)].
    intros after e1 (a' & [= ->] & ->). apply does_println, does_ret. by constructor.
  - apply does_println, does_throw. by constructor.
Qed.

Hypothesis Hlive : dry_run p = false.

Lemma does_switch_vm name ref : does (switch_vm c p name ref) (λ r es, vm_calls name ref (is_ok r) es).
Proof using Hlive.
  unfold switch_vm. rewrite Hlive. apply does_println.
  eapply does_bind; [apply does_leaves, leaves_ip| |by intros e e1 (? & [=] & _)].
  intros found e1 (? & [= <-] & H1). destruct found as [ip|].
  2: { apply does_println, does_throw. rewrite app_nil_r. by constructor. }
  apply does_println. cbv zeta.
  eapply does_bind; [apply does_leaves, (leaves_ssh ip)| |by intros e e2 (? & [=] & _)].
  intros up e2 (? & [= <-] & H2). destruct up; cbn [negb].
  - eapply does_conseq; [apply does_switch_one|]. intros r e3 H3. by eapply reached.
  - apply does_println, does_throw. rewrite app_nil_r. by eapply no_sshd.
Qed.

Lemma does_switch_failed name ref :
  does (switch_failed c p name ref) (λ r es, ∃ b, r = Ok (negb b) ∧ vm_calls name ref b es).
Proof using Hlive.
  eapply does_bind; [apply does_try, does_switch_vm| |by intros e e1 (? & [=] & _)].
  intros r e1 (? & [= <-] & H1). apply does_ret. rewrite app_nil_r. eexists. split; [|exact H1].
  by destruct r.
Qed.

Lemma does_switch_each vms :
  does (switch_each c p vms) (λ r es, ∃ n, r = Ok n ∧ all_calls vms n es).
Proof using Hlive.
  induction vms as [|vm vms IH]; cbn [switch_each].
  { apply does_ret. exists 0%nat. split; [done|constructor]. }
  destruct (flavor_for_vm vm) as [flavor|] eqn:Hf.
  - eapply does_bind; [apply does_switch_failed| |by intros e e1 (? & [=] & _)].
    intros failed e1 (b & [= ->] & H1).
    eapply does_bind; [exact IH| |by intros e e2 (? & [=] & _)].
    intros n e2 (? & [= <-] & H2). apply does_ret. rewrite app_nil_r. eexists. split; [done|].
    pose proof (all_known vm flavor vms n b e1 e2 Hf H1 H2) as H. by destruct b.
  - apply does_println. eapply does_conseq; [exact IH|]. intros r es (n & -> & Hn).
    exists n. split; [done|]. by constructor.
Qed.
End spec.

(** ** A run *)

Definition list_words : list string := ["virsh"; "-c"; "qemu:///system"; "list"; "--name"].
Definition listed_vms (out : string) : list string := hummingbird_vms (parse_domain_list out).

Section run.
Context `{W : World} (p : Plan).
#[local] Abbreviation kvm := (plan_kvm_host p).
#[local] Abbreviation c := (build_connection kvm).

(** The listing of the VMs, as an event. *)
Definition listing (e : event) (o : outcome) : Prop := call_of e = Some (place_of kvm, list_words, o).

Lemma does_running {B} (k : result VirtError (list Domain) → IO anyhow B) Q :
  (∀ e out, listing e (Done out) →
     does (k (Ok (parse_domain_list out))) (λ r es, Q r (e :: es))) →
  (∀ e o err, listing e o → ¬ is_done o → does (k (Err err)) (λ r es, Q r (e :: es))) →
  does (r ← try (running_domains c); k r) Q.
Proof.
  intros Hok Herr. eapply does_bind with (P := λ r es, ∃ e o r', r = Ok r' ∧ es = [e] ∧ listing e o
    ∧ answers (λ s, Ok (parse_domain_list s)) o r').
  - eapply does_conseq; [apply does_try with (Q := λ r es, ∃ e o, es = [e] ∧ listing e o
      ∧ answers (λ s, Ok (parse_domain_list s)) o r)|].
    + eapply emits_conseq; [apply (sends_call kvm), (sends_running_domains c)|].
      intros r es (e & o & -> & He & Ho). exists e, o. rewrite build_connection_uri in He.
      split; [|done]. unfold acts. rewrite filter_cons_True; [done|].
      destruct e as [| | | | | | | | |]; try done; cbn; eauto.
    + intros r es (r' & -> & e & o & -> & He & Ho). by exists e, o, r'.
  - intros r e1 (e & o & ? & [= <-] & -> & He & Ho). destruct o as [out|x|].
    + cbn in Ho. subst r. by apply Hok.
    + destruct Ho as (? & ? & ->). eapply Herr; [exact He|by intros []].
    + destruct Ho as (? & ->). eapply Herr; [exact He|by intros []].
  - by intros e e1 (? & ? & ? & [=] & _).
Qed.
(** Single-VM mode, and whether it succeeds. *)
Definition single_run (vm : string) (ref : option string) (b : bool) (es : history) : Prop :=
  if force_rebuild p && negb (force_switch p) then b = true ∧ es = []
  else match single_ref p vm ref with
       | None => b = false ∧ es = []
       | Some r => b = true ∧ if dry_run p then es = [] else ∃ x, vm_calls p vm r x es
       end.

(** All-VMs mode. *)
Inductive all_run : bool → history → Prop :=
| not_listed e o : listing e o → ¬ is_done o → all_run false [e]
| listed_dry e out : dry_run p = true → listing e (Done out) → all_run true [e]
| listed_live e out n es :
    dry_run p = false → listing e (Done out) → all_calls p (listed_vms out) n es →
    all_run (n =? 0)%nat (e :: es).

Lemma dry_switch_failed name ref :
  dry_run p = true → does (switch_failed c p name ref) (λ r es, r = Ok false ∧ es = []).
Proof. intros Hd h. unfold switch_failed, switch_vm. by rewrite Hd. Qed.

Lemma dry_switch_each vms :
  dry_run p = true → does (switch_each c p vms) (λ r es, r = Ok 0%nat ∧ es = []).
Proof.
  intros Hd. induction vms as [|vm vms IH]; cbn [switch_each]; [by apply does_ret|].
  destruct (flavor_for_vm vm).
  - eapply does_bind; [by apply dry_switch_failed| |by intros e e1 [[=] _]].
    intros ? e1 [[= ->] ->]. eapply does_bind; [exact IH| |by intros e e1 [[=] _]].
    intros ? e2 [[= ->] ->]. by apply does_ret.
  - by apply does_println.
Qed.

Lemma does_single vm ref : does (run_single_vm c p vm ref) (λ r es, single_run vm ref (is_ok r) es).
Proof.
  unfold run_single_vm, single_run. destruct (_ && _); [by intros h|].
  destruct (single_ref p vm ref) as [rf|]; [|by apply does_println, does_throw].
  eapply does_bind with (P := λ r es, ∃ b, r = Ok b ∧ if dry_run p then es = [] else ∃ x, vm_calls p vm rf x es).
  - destruct (dry_run p) eqn:Hd.
    + eapply does_conseq; [by apply dry_switch_failed|]. intros r es [-> ->]. eauto.
    + eapply does_conseq; [by apply does_switch_failed|]. intros r es (b & -> & H). eauto.
  - intros b e1 (? & [= <-] & H). destruct b; [|apply does_ret; by rewrite app_nil_r].
    intros h. cbn. by rewrite app_nil_r.
  - by intros e e1 (? & [=] & _).
Qed.

Lemma does_all : does (run_all_vms c p) (λ r es, all_run (is_ok r) es).
Proof.
  unfold run_all_vms. apply does_running.
  2: { intros e o err He Ho. apply does_throw. by eapply not_listed. }
  intros e out He. cbv zeta.
  assert (Hn : ∀ n es, dry_run p = true ∧ n = 0%nat ∧ es = []
                       ∨ dry_run p = false ∧ all_calls p (listed_vms out) n es →
             all_run (n =? 0)%nat (e :: es)).
  { intros n es [(Hd & -> & ->)|[Hd Hc]]; [by eapply listed_dry|by eapply listed_live]. }
  assert (Hall : does (failed ← switch_each c p (listed_vms out);
      if (0 <? failed)%nat then
        bail ("switch-to-ghcr: " +:+ show_nat failed
              +:+ " VM(s) failed to switch — see the SKIP/failure lines above")
      else mret tt : IO anyhow unit) (λ r es, all_run (is_ok r) (e :: es))).
  { eapply does_bind with (P := λ r es, ∃ n, r = Ok n ∧ (dry_run p = true ∧ n = 0%nat ∧ es = []
                       ∨ dry_run p = false ∧ all_calls p (listed_vms out) n es)).
    - destruct (dry_run p) eqn:Hd.
      + eapply does_conseq; [by apply dry_switch_each|]. intros r es [-> ->]. eauto 6.
      + eapply does_conseq; [by apply does_switch_each|]. intros r es (n & -> & H). eauto 6.
    - intros n e1 (? & [= <-] & H). apply Hn in H.
      destruct n; [apply does_ret|apply does_throw]; by rewrite app_nil_r.
    - by intros ? e1 (? & [=] & _). }
  unfold listed_vms in Hall, Hn. destruct (hummingbird_vms (parse_domain_list out)) as [|vm vms] eqn:Hv.
  - intros h. cbn. apply (Hn 0%nat []). destruct (dry_run p); [by left|right; split; [done|constructor]].
  - exact Hall.
Qed.

Lemma does_run_plan vm ref :
  does (run_plan c p vm ref) (λ r es,
    match non_empty vm with
    | Some vm => single_run vm ref (is_ok r) es
    | None => all_run (is_ok r) es
    end).
Proof.
  assert (Hlog : ∀ {A} (b : bool) line (m : IO anyhow A) Q, does m Q →
            does (_ ← (if b then log line else mret tt); m) Q).
  { intros A [] line m Q Hm; [by apply does_println|].
    intros h. specialize (Hm h). unfold mbind, IO_bind, mret, IO_ret. cbn.
    rewrite app_nil_r. by destruct (m h). }
  unfold run_plan. apply Hlog.
  assert (Hm : does (match non_empty vm with
                     | Some vm => run_single_vm c p vm ref
                     | None => run_all_vms c p
                     end) (λ r es, match non_empty vm with
                                   | Some vm => single_run vm ref (is_ok r) es
                                   | None => all_run (is_ok r) es
                                   end)).
  { destruct (non_empty vm); [apply does_single|apply does_all]. }
  eapply does_bind; [apply does_try, Hm| |by intros e e1 (? & [=] & _)].
  intros r e1 (? & [= <-] & H). apply Hlog. intros h. cbn. by rewrite app_nil_r.
Qed.
End run.


(** The switch command is one [bootc switch] with the reference as it is. *)
Lemma bootc_switch_words ref : shell_words (bootc_switch_cmd ref) = Some ["bootc"; "switch"; ref].
Proof.
  apply (shell_words_join ["bootc"; "switch"; shell_single_quote ref] ["bootc"; "switch"; ref]).
  repeat constructor; try (by apply spells_bare). apply spells_single_quote.
Qed.

(** ** Concrete runs *)

(** What [bootc status] prints, as far as it matters. *)
Definition status_doc (image : string) : string :=
  "{ " +:+ DQ +:+ "spec" +:+ DQ +:+ ": [1, -2.5e+3, " +:+ DQ +:+ "\u00e9\ud83d\ude00 \\ path" +:+ DQ +:+ "],"
  +:+ NL +:+ " " +:+ DQ +:+ "status" +:+ DQ +:+ ": {" +:+ DQ +:+ "staged" +:+ DQ +:+ ": null, "
  +:+ DQ +:+ "booted" +:+ DQ +:+ ": {" +:+ DQ +:+ "image" +:+ DQ +:+ ": {" +:+ DQ +:+ "image" +:+ DQ
  +:+ ": {" +:+ DQ +:+ "image" +:+ DQ +:+ ": " +:+ DQ +:+ image +:+ DQ +:+ "}}}} }" +:+ NL.

Example status_doc_read :
  parse_booted_image (status_doc "localhost/hummingbird-k8s:latest")
  = Some "localhost/hummingbird-k8s:latest"
  ∧ parse_booted_image (status_doc "") = None ∧ parse_booted_image "{}" = None.
Proof. vm_compute. done. Qed.

(** The grammar is a little larger than JSON's. *)
Example lenient_documents :
  minijson.parse "01" = Some (minijson.Number "01")
  ∧ minijson.parse (DQ +:+ "\u+041" +:+ DQ) = Some (minijson.Str "A").
Proof. vm_compute. done. Qed.

(** Two VMs, one of them switched already, one of an unknown flavor; [bootc
    switch] works, and the booted image stays what it is until a reboot. *)
Definition two_vms : World := {|
  ssh_answer _ o cmd _ :=
    if contains "list --name" cmd
    then Ok (mkRunOutput (Exited 0) ("hummingbird-k8s" +:+ NL +:+ "hummingbird-k8s-worker-1" +:+ NL
                                     +:+ "hummingbird-other" +:+ NL +:+ "geary" +:+ NL) "")
    else if contains "domifaddr" cmd
    then Ok (mkRunOutput (Exited 0)
               ("header" +:+ NL +:+ " vnet0 52:54:00:11:22:33 ipv4 "
                +:+ (if contains "worker" cmd then "10.0.0.6/24" else "10.0.0.5/24") +:+ NL) "")
    else if contains "bootc status" cmd
    then Ok (mkRunOutput (Exited 0)
               (status_doc (if bool_decide (host o = "10.0.0.6")
                            then "ghcr.io/aatchison/hummingbird-k8s-worker:latest"
                            else "localhost/hummingbird-k8s:latest")) "")
    else Ok (mkRunOutput (Exited 0) "" "");
  local_answer _ _ := Err (IoError "No such file or directory (os error 2)");
  stdout_answer _ _ := Ok tt;
  stderr_answer _ _ := Ok tt;
  file_answer _ _ := Ok "";
  fs_answer _ _ := Ok tt;
|}.

Example switch_all_two_vms :
  let '(r, es) := @run two_vms
    (mkSwitchToGhcrArgs None None None (Some "geary") None None true false false false) [] in
  r = Ok tt ∧ omap (λ e, match e with EvOut l => Some l | _ => None end) es = [
    "[switch-to-ghcr] hummingbird-k8s: resolving IP...";
    "[switch-to-ghcr] hummingbird-k8s: ip=10.0.0.5; waiting for sshd...";
    "[switch-to-ghcr] hummingbird-k8s: switching from 'localhost/hummingbird-k8s:latest' to 'ghcr.io/aatchison/hummingbird-k8s:latest'...";
    "[switch-to-ghcr] hummingbird-k8s: now tracking 'localhost/hummingbird-k8s:latest' (was 'localhost/hummingbird-k8s:latest').";
    "[switch-to-ghcr] hummingbird-k8s-worker-1: resolving IP...";
    "[switch-to-ghcr] hummingbird-k8s-worker-1: ip=10.0.0.6; waiting for sshd...";
    "[switch-to-ghcr] hummingbird-k8s-worker-1: already tracking ghcr.io/aatchison/hummingbird-k8s-worker:latest; nothing to do.";
    "[switch-to-ghcr] hummingbird-other: unknown flavor; SKIP."].
Proof. vm_compute. done. Qed.
