(* ===== verification/Preflight.v ===== *)
(** * hbird preflight

    [crates/hbird-cli/src/commands/preflight.rs]: the compatibility check of the
    pinned Cilium against the pinned Kubernetes.  [process::exit] is an [ending];
    the matrix is the one of the source. *)

From S2P Require Import Prelude RustStr ConfigTypes SshOptions SshClient Effects.
From S2P Require Import VirtUri Shell VirtParse VirtConn Cp Host.

Definition EXIT_STRICT_MISMATCH : Z := 1.
Definition EXIT_INPUT_ERROR : Z := 2.

Record CiliumArgs : Set := mkCiliumArgs {
  pf_cilium : option string;
  pf_k8s : option string;
  pf_strict : bool;
  pf_repo_root : option string;
  pf_dry_run : bool;
}.
Inductive PreflightSubcommand : Set := Cilium (a : CiliumArgs).

Definition MATRIX_REVIEWED_AS_OF : string := "2026-05-27".

(** ** The matrix *)

Record MatrixRow : Set := mkMatrixRow {
  row_cilium_minor : string;
  row_k8s_minors : list string;
  source_url : string;
}.

Definition COMPAT_MATRIX : list MatrixRow := [
  mkMatrixRow "1.14" ["1.19"; "1.20"; "1.21"; "1.22"; "1.23"; "1.24"; "1.25"; "1.26"; "1.27"]
    "https://docs.cilium.io/en/v1.14/network/kubernetes/compatibility/";
  mkMatrixRow "1.15" ["1.26"; "1.27"; "1.28"; "1.29"]
    "https://docs.cilium.io/en/v1.15/network/kubernetes/compatibility/";
  mkMatrixRow "1.16" ["1.27"; "1.28"; "1.29"; "1.30"]
    "https://docs.cilium.io/en/v1.16/network/kubernetes/compatibility/";
  mkMatrixRow "1.17" ["1.29"; "1.30"; "1.31"; "1.32"]
    "https://docs.cilium.io/en/v1.17/network/kubernetes/compatibility/";
  mkMatrixRow "1.18" ["1.30"; "1.31"; "1.32"; "1.33"]
    "https://docs.cilium.io/en/v1.18/network/kubernetes/compatibility/"].

Definition lookup_row (cilium_minor : string) : option MatrixRow :=
  List.find (λ row, bool_decide (row_cilium_minor row = cilium_minor)) COMPAT_MATRIX.

(** ** Versions *)

(** [s.strip_prefix('v').unwrap_or(s)] *)
Definition strip_v (s : string) : string := default s (strip_prefix "v" s).

Definition parse_minor_pair (s : string) : option (N * N) :=
  match split_char "." (strip_v s) with
  | major :: minor :: _ =>
      match parse_uint U64_MAX major, parse_uint U64_MAX minor with
      | Ok major, Ok minor => Some (major, minor)
      | _, _ => None
      end
  | _ => None
  end.

(** [Ord] of pairs *)
Definition pair_compare (a b : N * N) : comparison :=
  match (a.1 ?= b.1)%N with Eq => (a.2 ?= b.2)%N | c => c end.

Definition minor_compare (a b : string) : comparison :=
  match parse_minor_pair a, parse_minor_pair b with
  | Some pa, Some pb => pair_compare pa pb
  | Some _, None => Lt
  | None, Some _ => Gt
  | None, None => String.compare a b
  end.

(** [iter.min_by(compare)]: the first of the least elements. *)
Fixpoint min_by {A} (compare : A → A → comparison) (best : A) (l : list A) : A :=
  match l with
  | [] => best
  | x :: l => min_by compare (match compare best x with Gt => x | _ => best end) l
  end.

Definition lowest_supported_minor (k8s_minors : list string) : option string :=
  match k8s_minors with [] => None | m :: ms => Some (min_by minor_compare m ms) end.

Definition is_below_window (k8s_minor lowest : string) : bool :=
  match parse_minor_pair k8s_minor, parse_minor_pair lowest with
  | Some k, Some lo => match pair_compare k lo with Lt => true | _ => false end
  | _, _ => false
  end.

(** ** The pins in the files *)

Fixpoint take_digits (s : string) : string :=
  match s with
  | String a s' => if is_ascii_digit a then String a (take_digits s') else ""
  | EmptyString => ""
  end.

(** The loop of [leading_dotted_number]: [first] tells [i = 0]. *)
Fixpoint dotted_go (first : bool) (components : nat) (s : string) : option string :=
  match components with
  | O => Some ""
  | S components =>
      rest ← (if first then Some s else strip_prefix "." s);
      let digits := take_digits rest in
      if is_empty digits then None
      else
        more ← dotted_go false components (str_drop (String.length digits) rest);
        Some ((if first then "" else ".") +:+ digits +:+ more)
  end.
Definition leading_dotted_number (s : string) (components : nat) : option string :=
  dotted_go true components s.

(** [s.trim_start_matches(..)] for a set of ASCII characters *)
Fixpoint trim_start_matches (f : ascii → bool) (s : string) : string :=
  match s with
  | String a s' => if f a then trim_start_matches f s' else s
  | EmptyString => ""
  end.

Definition is_blank (a : ascii) : bool := Ascii.eqb a " " || Ascii.eqb a "009".
Definition is_version_sep (a : ascii) : bool := is_blank a || Ascii.eqb a "=".

(** At least one byte of the set, dropped. *)
Definition skip_some (f : ascii → bool) (s : string) : option string :=
  let t := trim_start_matches f s in
  if (String.length t =? String.length s)%nat then None else Some t.

Definition cilium_pin_of_line (line : string) : option string :=
  rest ← strip_prefix "--version" (trim_start line);
  value ← skip_some is_version_sep rest;
  leading_dotted_number (strip_v value) 3.

Definition k8s_pin_of_line (line : string) : option string :=
  rest ← strip_prefix "ARG" line;
  rest ← skip_some is_blank rest;
  rest ← strip_prefix "K8S_VERSION" rest;
  rest ← strip_prefix "=" (trim_start_matches is_blank rest);
  leading_dotted_number (strip_v (trim_start_matches is_blank rest)) 2.

(** [for line in ls { .. }]: the first line that has a pin. *)
Fixpoint first_pin (pin_of_line : string → option string) (ls : list string) : option string :=
  match ls with
  | [] => None
  | l :: ls => match pin_of_line l with Some v => Some v | None => first_pin pin_of_line ls end
  end.

Definition extract_cilium_pin (content : string) : option string :=
  first_pin cilium_pin_of_line (lines content).
Definition extract_k8s_pin (content : string) : option string :=
  first_pin k8s_pin_of_line (lines content).

Definition normalize_k8s_minor (raw : string) : string :=
  default raw (leading_dotted_number (strip_v raw) 2).
Definition cilium_minor_of (version : string) : string :=
  default version (leading_dotted_number version 2).

(** ** The repository *)

Definition K8S_INIT_REL : string := "containers/k8s/k8s-init.sh".
Definition CONTAINERFILE_REL : string := "containers/k8s/Containerfile".

(** [Path::is_file] on the operator's machine *)
Class Files : Type := { path_is_file : history → string → bool }.

(** The walk to the root; a parent is shorter, so the length of the path is
    enough fuel. *)
Fixpoint walk_to_root `{Files} (fuel : nat) (h : history) (dir : string) : option string :=
  if path_is_file h (path_join dir CONTAINERFILE_REL) then Some dir
  else
    match fuel, parent_dir dir with
    | S fuel, Some parent => walk_to_root fuel h parent
    | _, _ => None
    end.
Definition find_repo_root `{Files} (h : history) (start : string) : option string :=
  walk_to_root (String.length start) h start.

(** ** The pins *)

Record Pins : Set := mkPins {
  cilium_version : string;
  pin_cilium_minor : string;
  pin_k8s_minor : string;
  cilium_source : string;
  k8s_source : string;
}.
#[export] Instance Pins_eq_dec : EqDecision Pins.
Proof. solve_decision. Defined.

(** [PinError] is its text. *)
Definition PinError : Set := string.

(** The pin of one file: its content by [read_file], the text of both errors. *)
Definition file_pin (read_file : string → IO io_error string) (extract : string → option string)
    (path what not_found : string) : IO PinError (string * string) :=
  content ← io_map_err (λ _, "ERROR: cannot read " +:+ path +:+ " to extract " +:+ what)
              (read_file path);
  v ← of_result (ok_or not_found (extract content));
  mret (v, path).

Definition resolve_pins (read_file : string → IO io_error string) (args : CiliumArgs)
    (repo_root : string) : IO PinError Pins :=
  let k8s_init := path_join repo_root K8S_INIT_REL in
  let containerfile := path_join repo_root CONTAINERFILE_REL in
  '(version, source) ←
    match non_empty (pf_cilium args) with
    | Some v => mret (v, "--cilium")
    | None => file_pin read_file extract_cilium_pin k8s_init "Cilium pin"
                "ERROR: could not extract Cilium --version from k8s-init.sh"
    end;
  '(minor, k8s_source) ←
    match non_empty (pf_k8s args) with
    | Some v => mret (normalize_k8s_minor v, "--k8s")
    | None => file_pin read_file extract_k8s_pin containerfile "K8S_VERSION pin"
                "ERROR: could not extract K8S_VERSION from Containerfile"
    end;
  mret (mkPins version (cilium_minor_of version) minor source k8s_source).

(** ** The verdict *)

Inductive Verdict : Set :=
| Supported (supported : string)
| MatrixStale
| Mismatch (supported lowest : string) (below_window : bool) (url : string).
#[export] Instance Verdict_eq_dec : EqDecision Verdict.
Proof. solve_decision. Defined.

Definition classify (p : Pins) : Verdict :=
  match lookup_row (pin_cilium_minor p) with
  | None => MatrixStale
  | Some row =>
      let supported := join " " (row_k8s_minors row) in
      if bool_decide (pin_k8s_minor p ∈ row_k8s_minors row) then Supported supported
      else
        let lowest := default "" (lowest_supported_minor (row_k8s_minors row)) in
        Mismatch supported lowest (is_below_window (pin_k8s_minor p) lowest) (source_url row)
  end.

Definition verdict_exit_code (v : Verdict) (strict : bool) : Z :=
  match v with
  | Supported _ => 0
  | MatrixStale | Mismatch _ _ _ _ => if strict then EXIT_STRICT_MISMATCH else 0
  end.

(** What goes to the standard output and to the standard error. *)
Definition render_verdict (p : Pins) (v : Verdict) : list string * list string :=
  match v with
  | Supported supported =>
      (["OK: Cilium " +:+ cilium_version p +:+ " supports K8s " +:+ pin_k8s_minor p
        +:+ " (supported: " +:+ supported +:+ ")."], [])
  | MatrixStale =>
      ([], ["WARN: Cilium minor " +:+ pin_cilium_minor p +:+ " (pinned " +:+ cilium_version p
            +:+ ") is not in the embedded compat matrix.";
            "      Refresh the matrix in rust/crates/hbird-cli/src/commands/preflight.rs from:";
            "      https://docs.cilium.io/en/v" +:+ pin_cilium_minor p
            +:+ "/network/kubernetes/compatibility/";
            "      K8s pin: " +:+ pin_k8s_minor p])
  | Mismatch supported lowest below url =>
      ([], ["WARN: Cilium " +:+ cilium_version p +:+ " does NOT list K8s " +:+ pin_k8s_minor p
            +:+ " as a supported minor.";
            "      Cilium " +:+ pin_cilium_minor p +:+ ".x supported K8s minors: " +:+ supported]
           ++ (if below
               then ["      K8s " +:+ pin_k8s_minor p +:+ " is BELOW Cilium " +:+ pin_cilium_minor p
                     +:+ ".x's window (lowest: " +:+ lowest +:+ ").";
                     "      Downgrade Cilium to a minor that supports K8s " +:+ pin_k8s_minor p
                     +:+ ", OR upgrade K8s into range."]
               else ["      Bump Cilium first (see docs/cilium-migration.md) OR pick a K8s minor in range."])
           ++ ["      Upstream matrix: " +:+ url;
               "      See also: docs/k8s-version-upgrade.md " +:+ DQ +:+ "Pre-flight checklist"
               +:+ DQ +:+ "."])
  end.

Definition verdict_name (v : Verdict) : string :=
  match v with
  | Supported _ => "OK"
  | MatrixStale => "WARN (matrix stale)"
  | Mismatch _ _ _ _ => "WARN (mismatch)"
  end.

Definition render_dry_run_plan (p : Pins) (v : Verdict) (strict : bool) : list string := [
  "[preflight-cilium] DRY-RUN cilium pin: " +:+ cilium_version p +:+ " (minor "
  +:+ pin_cilium_minor p +:+ ") from " +:+ cilium_source p;
  "[preflight-cilium] DRY-RUN k8s pin:    " +:+ pin_k8s_minor p +:+ " from " +:+ k8s_source p;
  "[preflight-cilium] DRY-RUN strict: " +:+ (if strict then "true" else "false");
  "[preflight-cilium] DRY-RUN matrix rows: " +:+ join " " (row_cilium_minor <$> COMPAT_MATRIX)
  +:+ " (reviewed as of " +:+ MATRIX_REVIEWED_AS_OF +:+ ")";
  "[preflight-cilium] DRY-RUN would emit: " +:+ verdict_name v +:+ " and exit "
  +:+ show_Z (verdict_exit_code v strict)].

(** ** The command *)

Section run.
Context `{World} `{Host} `{Files}.

Definition preflight_root (h : history) (args : CiliumArgs) : string :=
  match pf_repo_root args with
  | Some p => p
  | None =>
      let cwd := match current_dir h with Ok cwd => cwd | Err _ => "." end in
      default cwd (find_repo_root h cwd)
  end.

Definition run_cilium (args : CiliumArgs) : M ending :=
  repo_root ← (λ h, (preflight_root h args, []));
  pins ← catch (resolve_pins read_to_string args repo_root);
  match (pins : result PinError Pins) with
  | Err msg => _ ← eprintln msg; mret (Exits EXIT_INPUT_ERROR)
  | Ok pins =>
      let verdict := classify pins in
      if pf_dry_run args then
        _ ← for_each_M println (render_dry_run_plan pins verdict (pf_strict args));
        mret (Returns (Ok tt))
      else
        let '(out, err) := render_verdict pins verdict in
        _ ← for_each_M println out;
        _ ← for_each_M eprintln err;
        mret (let code := verdict_exit_code verdict (pf_strict args) in
              if (code =? 0)%Z then Returns (Ok tt) else Exits code)
  end.

Definition run (command : PreflightSubcommand) : M ending :=
  match command with Cilium a => run_cilium a end.
End run.
