(* ===== verification/PreflightFacts.v ===== *)
(** * hbird preflight: what is proved

    The pins are found exactly where the patterns of the documentation match,
    the walk finds the nearest repository, the window is compared numerically,
    and the exit code is the documented one. *)

From S2P Require Import Prelude RustStr ConfigTypes SshOptions SshClient Effects.
From S2P Require Import VirtUri Shell VirtParse VirtConn Cp Host Preflight.

(** ** Versions in a text *)

Definition all_digits (s : string) : Prop := s ≠ "" ∧ all_bytes is_ascii_digit s = true.

(** [n] numbers with dots between them *)
Definition dotted (n : nat) (v : string) : Prop :=
  ∃ parts, length parts = n ∧ Forall all_digits parts ∧ v = join "." parts.

(** The text does not begin with a byte of the set. *)
Definition not_at (f : ascii → bool) (s : string) : Prop :=
  match s with String a _ => f a = false | EmptyString => True end.

Lemma take_digits_split s :
  ∃ r, s = take_digits s +:+ r ∧ all_bytes is_ascii_digit (take_digits s) = true ∧ not_at is_ascii_digit r.
Proof.
  induction s as [|a s (r & Hs & Hd & Hr)]; [by exists ""|]. cbn. destruct (is_ascii_digit a) eqn:E.
  - exists r. cbn. rewrite E, Hd. by rewrite <-Hs.
  - by exists (String a s).
Qed.

Lemma take_digits_app d r :
  all_bytes is_ascii_digit d = true → not_at is_ascii_digit r → take_digits (d +:+ r) = d.
Proof.
  induction d as [|a d IH]; cbn.
  - intros _ Hr. destruct r as [|b r]; cbn in *; [done|]. by rewrite Hr.
  - intros [-> Hd]%andb_true_iff Hr. by rewrite IH.
Qed.

(** The text of the components that [dotted_go] reads. *)
Fixpoint dotted_text (first : bool) (parts : list string) : string :=
  match parts with
  | [] => ""
  | p :: ps => (if first then "" else ".") +:+ p +:+ dotted_text false ps
  end.

Lemma dotted_text_join p ps : dotted_text true (p :: ps) = join "." (p :: ps).
Proof.
  revert p. induction ps as [|q ps IH]; intros p; [apply app_nil_s|].
  change (join "." (p :: q :: ps)) with (p +:+ "." +:+ join "." (q :: ps)). by rewrite <-IH.
Qed.

Lemma dotted_go_iff first n s v :
  dotted_go first n s = Some v ↔
  ∃ parts r, length parts = n ∧ Forall all_digits parts ∧ v = dotted_text first parts ∧ s = v +:+ r
    ∧ (n ≠ 0%nat → not_at is_ascii_digit r).
Proof.
  revert first s v. induction n as [|n IH]; intros first s v.
  { cbn. split.
    - intros [= <-]. by exists [], s.
    - by intros ([|] & r & Hl & _ & -> & _). }
  cbn [dotted_go]. split.
  - intros (rest & Hrest & H)%bind_Some.
    assert (s = (if first then "" else ".") +:+ rest) as ->.
    { destruct first; [by simplify_eq/=|]. by apply strip_prefix_Some. }
    clear Hrest. destruct (take_digits_split rest) as (r & Hr & Hd & Hn).
    destruct (is_empty _) eqn:He; [done|].
    apply bind_Some in H as (more & Hm & [= <-]). set (d := take_digits rest) in *.
    rewrite Hr, str_drop_app in Hm. apply IH in Hm as (parts & r' & Hl & Hp & -> & Hr' & Hn').
    exists (d :: parts), r'. cbn. rewrite Hl.
    repeat split; try done.
    + constructor; [|done]. split; [by intros ->|done].
    + rewrite Hr, Hr'. by rewrite <-!app_assoc_s.
    + intros _. destruct n; [|by apply Hn']. destruct parts; [|done]. by subst r.
  - intros ([|d parts] & r & [= <-] & Hp & -> & -> & Hn); inversion_clear Hp as [|? ? [He Hd] Hps].
    cbn [dotted_text]. set (t := dotted_text false parts).
    assert (not_at is_ascii_digit (t +:+ r)) as Hq.
    { destruct parts; [by apply Hn|done]. }
    rewrite bind_Some. exists (d +:+ t +:+ r). split.
    { destruct first; cbn; f_equal; by rewrite <-app_assoc_s. }
    rewrite (take_digits_app d) by done. destruct d as [|a d]; [done|]. cbn [is_empty].
    rewrite bind_Some. exists t. split; [|by destruct first].
    rewrite str_drop_app. apply IH. exists parts, r. repeat split; try done. intros _. by apply Hn.
Qed.

Lemma leading_dotted_iff s n v :
  leading_dotted_number s (S n) = Some v ↔
  dotted (S n) v ∧ ∃ r, s = v +:+ r ∧ not_at is_ascii_digit r.
Proof.
  unfold leading_dotted_number. rewrite dotted_go_iff. split.
  - intros ([|p ps] & r & [= <-] & Hp & -> & -> & Hn).
    split; [|exists r; auto]. exists (p :: ps). by rewrite dotted_text_join.
  - intros [([|p ps] & [= <-] & Hp & ->) (r & -> & Hn)]. exists (p :: ps), r.
    by rewrite dotted_text_join.
Qed.

Lemma dotted_starts n v : dotted (S n) v → ∃ a t, v = String a t ∧ is_ascii_digit a = true.
Proof.
  intros ([|p ps] & [= <-] & Hp & ->). inversion_clear Hp as [|? ? [He Hd] _].
  destruct p as [|a p]; [done|]. apply andb_true_iff in Hd as [Ha _].
  destruct ps; [by exists a, p|]. cbn [join]. rewrite app_cons_s. eauto.
Qed.

(** ** Optional and repeated parts of a line *)

Lemma strip_v_spec s : ∃ u, u ∈ [""; "v"] ∧ s = u +:+ strip_v s.
Proof.
  unfold strip_v. destruct (strip_prefix "v" s) as [t|] eqn:E.
  - exists "v". split; [set_solver|]. by apply strip_prefix_Some.
  - exists "". split; [set_solver|done].
Qed.

Lemma strip_v_app u n v r : u ∈ [""; "v"] → dotted (S n) v → strip_v (u +:+ v +:+ r) = v +:+ r.
Proof.
  intros Hu (a & t & -> & Ha)%dotted_starts.
  apply elem_of_cons in Hu as [->|[->|[]%not_elem_of_nil]%elem_of_cons].
  - unfold strip_v. destruct (strip_prefix "v" _) as [k|] eqn:E; [|done].
    apply strip_prefix_Some in E. injection E as -> _. discriminate Ha.
  - unfold strip_v. by rewrite strip_prefix_app.
Qed.

Lemma trim_matches_split f s :
  ∃ w, s = w +:+ trim_start_matches f s ∧ all_bytes f w = true ∧ not_at f (trim_start_matches f s).
Proof.
  induction s as [|a s (w & Hs & Hw & Hn)]; [by exists ""|]. cbn. destruct (f a) eqn:E.
  - exists (String a w). cbn. by rewrite E, Hw, <-Hs.
  - by exists "".
Qed.

Lemma trim_matches_app f w s :
  all_bytes f w = true → not_at f s → trim_start_matches f (w +:+ s) = s.
Proof.
  induction w as [|a w IH]; cbn.
  - intros _ Hs. destruct s; cbn in *; [done|]. by rewrite Hs.
  - intros [-> Hw]%andb_true_iff Hs. by apply IH.
Qed.

Lemma skip_some_iff f s t :
  skip_some f s = Some t ↔ ∃ w, w ≠ "" ∧ all_bytes f w = true ∧ s = w +:+ t ∧ not_at f t.
Proof.
  unfold skip_some. split.
  - destruct (trim_matches_split f s) as (w & Hs & Hw & Hn).
    destruct (_ =? _)%nat eqn:E; [done|]. intros [= <-]. exists w. repeat split; try done.
    intros ->. apply Nat.eqb_neq in E. by rewrite Hs in E at 2.
  - intros (w & He & Hw & -> & Hn). rewrite trim_matches_app by done.
    rewrite string_length_app. destruct w; [done|].
    assert ((String.length t =? _)%nat = false) as -> by (apply Nat.eqb_neq; cbn; lia). done.
Qed.

(** ** The lines that carry a pin *)

Definition blanks : string → Prop := λ w, all_bytes is_blank w = true.

(** [^ARG[ \t]+K8S_VERSION[ \t]*=[ \t]*v?([0-9]+\.[0-9]+)] *)
Definition k8s_line (line v : string) : Prop :=
  ∃ w1 w2 w3 u r,
    line = "ARG" +:+ w1 +:+ "K8S_VERSION" +:+ w2 +:+ "=" +:+ w3 +:+ u +:+ v +:+ r
    ∧ (w1 ≠ "" ∧ blanks w1) ∧ blanks w2 ∧ blanks w3 ∧ u ∈ [""; "v"]
    ∧ dotted 2 v ∧ not_at is_ascii_digit r.

(** [^\s*--version[ \t=]+v?([0-9]+\.[0-9]+\.[0-9]+)], [\s*] being all the
    white space in front *)
Definition cilium_line (line v : string) : Prop :=
  ∃ w u r,
    trim_start line = "--version" +:+ w +:+ u +:+ v +:+ r
    ∧ (w ≠ "" ∧ all_bytes is_version_sep w = true) ∧ u ∈ [""; "v"]
    ∧ dotted 3 v ∧ not_at is_ascii_digit r.

(** A byte set that has no digit and no [v] *)
Lemma not_at_version f u n v r :
  f "v"%char = false → (∀ a, is_ascii_digit a = true → f a = false) →
  u ∈ [""; "v"] → dotted (S n) v → not_at f (u +:+ v +:+ r).
Proof.
  intros Hv Hd Hu (a & t & -> & Ha)%dotted_starts.
  apply elem_of_cons in Hu as [->|[->|[]%not_elem_of_nil]%elem_of_cons]; [by apply Hd|done].
Qed.

Lemma blank_no_digit a : is_ascii_digit a = true → is_blank a = false.
Proof. by destruct a as [[] [] [] [] [] [] [] []]. Qed.
Lemma sep_no_digit a : is_ascii_digit a = true → is_version_sep a = false.
Proof. by destruct a as [[] [] [] [] [] [] [] []]. Qed.

Lemma version_after_v s n v :
  leading_dotted_number (strip_v s) (S n) = Some v ↔
  ∃ u r, s = u +:+ v +:+ r ∧ u ∈ [""; "v"] ∧ dotted (S n) v ∧ not_at is_ascii_digit r.
Proof.
  rewrite leading_dotted_iff. split.
  - intros [Hv (r & Hs & Hr)]. destruct (strip_v_spec s) as (u & Hu & Hus).
    exists u, r. by rewrite <-Hs.
  - intros (u & r & -> & Hu & Hv & Hr). split; [done|]. exists r. by rewrite (strip_v_app u n).
Qed.

Lemma cilium_line_iff line v : cilium_pin_of_line line = Some v ↔ cilium_line line v.
Proof.
  unfold cilium_pin_of_line, cilium_line. rewrite bind_Some. setoid_rewrite strip_prefix_Some.
  setoid_rewrite bind_Some. setoid_rewrite skip_some_iff. setoid_rewrite version_after_v. split.
  - intros (s & -> & t & (w & He & Hw & -> & _) & u & r & -> & Hu & Hv & Hr). by exists w, u, r.
  - intros (w & u & r & -> & [He Hw] & Hu & Hv & Hr). eexists; split; [done|].
    exists (u +:+ v +:+ r). split; [|by exists u, r]. exists w. repeat split; try done.
    by eapply not_at_version; [|apply sep_no_digit|..].
Qed.

Lemma k8s_line_iff line v : k8s_pin_of_line line = Some v ↔ k8s_line line v.
Proof.
  unfold k8s_pin_of_line, k8s_line. do 4 setoid_rewrite bind_Some.
  setoid_rewrite strip_prefix_Some. setoid_rewrite skip_some_iff. setoid_rewrite version_after_v.
  split.
  - intros (s & -> & t & (w1 & He & Hw1 & -> & _) & s2 & -> & s3 & H3 & u & r & H4 & Hu & Hv & Hr).
    destruct (trim_matches_split is_blank s2) as (w2 & Hs2 & Hw2 & _).
    destruct (trim_matches_split is_blank s3) as (w3 & Hs3 & Hw3 & _).
    exists w1, w2, w3, u, r. by rewrite Hs2, H3, Hs3, H4.
  - intros (w1 & w2 & w3 & u & r & -> & [He Hw1] & Hw2 & Hw3 & Hu & Hv & Hr).
    eexists; split; [done|]. eexists; split; [by exists w1|].
    eexists; split; [done|]. eexists; split; [by apply trim_matches_app|].
    exists u, r. repeat split; try done. apply trim_matches_app; [done|].
    by eapply not_at_version; [|apply blank_no_digit|..].
Qed.

(** The first line of a text that is of the kind. *)
Definition first_line (of_kind : string → string → Prop) (content v : string) : Prop :=
  ∃ before line after, lines content = before ++ line :: after ∧ of_kind line v
    ∧ ∀ l w, l ∈ before → ¬ of_kind l w.

Lemma first_pin_iff f (R : string → string → Prop) content v :
  (∀ l w, f l = Some w ↔ R l w) → first_pin f (lines content) = Some v ↔ first_line R content v.
Proof.
  intros Hf. unfold first_line. generalize (lines content). induction l as [|l ls IH].
  { split; [done|]. by intros ([|] & ? & ? & ? & _). }
  cbn [first_pin]. destruct (f l) as [w|] eqn:E.
  - split.
    + intros [= <-]. exists [], l, ls. split; [done|]. split; [by apply Hf|]. by intros ? ? ?%elem_of_nil.
    + intros (before & line & after & Hl & HR & Hn). destruct before as [|b before]; simplify_eq/=.
      * apply Hf in HR. congruence.
      * destruct (Hn b w); [left|by apply Hf].
  - rewrite IH. split.
    + intros (before & line & after & -> & HR & Hn). exists (l :: before), line, after.
      split; [done|]. split; [done|]. intros l' w [->|Hl]%elem_of_cons; [|by apply Hn].
      intros ?%Hf. congruence.
    + intros (before & line & after & Hl & HR & Hn). destruct before as [|b before]; simplify_eq/=.
      * apply Hf in HR. congruence.
      * exists before, line, after. split; [done|]. split; [done|]. intros l' w Hl'. apply Hn. by right.
Qed.

Lemma cilium_pin_iff content v : extract_cilium_pin content = Some v ↔ first_line cilium_line content v.
Proof. apply first_pin_iff, cilium_line_iff. Qed.
Lemma k8s_pin_iff content v : extract_k8s_pin content = Some v ↔ first_line k8s_line content v.
Proof. apply first_pin_iff, k8s_line_iff. Qed.

(** The pins are found exactly where the two documented patterns match: a text
    has a pin [v] exactly when [v] is the version on the first line of the
    pattern, read as far as its digits go, and no line before it is one. *)
Theorem pins_extracted content v :
  (extract_cilium_pin content = Some v ↔ first_line cilium_line content v)
  ∧ (extract_k8s_pin content = Some v ↔ first_line k8s_line content v).
Proof. split; [apply cilium_pin_iff|apply k8s_pin_iff]. Qed.

(** ** The window *)

Definition pair_lt (a b : N * N) : Prop := (a.1 < b.1 ∨ a.1 = b.1 ∧ a.2 < b.2)%N.

Lemma pair_compare_spec a b :
  match pair_compare a b with Eq => a = b | Lt => pair_lt a b | Gt => pair_lt b a end.
Proof.
  destruct a as [a1 a2], b as [b1 b2]. unfold pair_compare, pair_lt. cbn [fst snd].
  destruct (N.compare_spec a1 b1); [|lia..]. subst. destruct (N.compare_spec a2 b2); [by subst|lia..].
Qed.

Definition numeric (m : string) : Prop := is_Some (parse_minor_pair m).
(** [a] is not above [b]. *)
Definition minor_le (a b : string) : Prop :=
  ∃ p q, parse_minor_pair a = Some p ∧ parse_minor_pair b = Some q ∧ ¬ pair_lt q p.

Lemma minor_le_refl a : numeric a → minor_le a a.
Proof. intros [p Hp]. exists p, p. repeat split; [done..|]. unfold pair_lt. lia. Qed.
Lemma minor_le_trans a b c : minor_le a b → minor_le b c → minor_le a c.
Proof.
  intros (p & q & Hp & Hq & H1) (q' & r & Hq' & Hr & H2). simplify_eq. exists p, r.
  split; [done|]. split; [done|]. unfold pair_lt in *. lia.
Qed.

Lemma minor_compare_spec a b :
  numeric a → numeric b →
  match minor_compare a b with Gt => minor_le b a | _ => minor_le a b end.
Proof.
  intros [p Hp] [q Hq]. unfold minor_compare, minor_le. rewrite Hp, Hq.
  pose proof (pair_compare_spec p q) as H. unfold pair_lt in *.
  destruct (pair_compare p q); [exists p, q|exists p, q|exists q, p]; (split; [done|split; [done|]]);
    subst; lia.
Qed.

Lemma min_by_least l : ∀ best, Forall numeric (best :: l) →
  min_by minor_compare best l ∈ best :: l ∧ ∀ m, m ∈ best :: l → minor_le (min_by minor_compare best l) m.
Proof.
  induction l as [|x l IH]; intros best Hall.
  { inversion_clear Hall. cbn. split; [by left|].
    intros m ->%list_elem_of_singleton. by apply minor_le_refl. }
  inversion_clear Hall as [|? ? Hb Hxl]. inversion_clear Hxl as [|? ? Hx Hl].
  cbn [min_by]. pose proof (minor_compare_spec best x Hb Hx) as Hc.
  destruct (minor_compare best x);
    match goal with |- context [min_by _ ?b l] => destruct (IH b) as [Hin Hle]; [by constructor|] end;
    (split; [set_solver|]); intros m Hm;
    apply elem_of_cons in Hm as [->|[->|Hm]%elem_of_cons]; try (apply Hle; set_solver);
    (eapply minor_le_trans; [apply Hle; by left|done]).
Qed.

Lemma lowest_least ms lo :
  Forall numeric ms → lowest_supported_minor ms = Some lo →
  lo ∈ ms ∧ ∀ m, m ∈ ms → minor_le lo m.
Proof. destruct ms as [|m ms]; [done|]. intros Hn [= <-]. by apply min_by_least. Qed.

Lemma matrix_numeric row : row ∈ COMPAT_MATRIX → row_k8s_minors row ≠ [] ∧ Forall numeric (row_k8s_minors row).
Proof.
  revert row. apply Forall_forall. repeat constructor; cbn; try done; by eexists.
Qed.

(** The minor [k] is numerically below every minor of the window. *)
Definition below_all (k : string) (ms : list string) : Prop :=
  ∃ p, parse_minor_pair k = Some p
    ∧ ∀ m, m ∈ ms → ∃ q, parse_minor_pair m = Some q ∧ pair_lt p q.

Lemma is_below_window_iff k ms lo :
  Forall numeric ms → lowest_supported_minor ms = Some lo → is_below_window k lo = true ↔ below_all k ms.
Proof.
  intros Hn (Hin & Hle)%lowest_least; [|done]. unfold is_below_window, below_all. split.
  - destruct (parse_minor_pair k) as [p|]; [|done]. destruct (parse_minor_pair lo) as [q|] eqn:Hq; [|done].
    pose proof (pair_compare_spec p q) as Hc. destruct (pair_compare p q); [done| |done]. intros _.
    exists p. split; [done|]. intros m (q' & r & Hq' & Hr & Hl)%Hle. simplify_eq.
    exists r. split; [done|]. unfold pair_lt in *. lia.
  - intros (p & -> & H). destruct (H lo Hin) as (q & -> & Hlt).
    pose proof (pair_compare_spec p q) as Hc. unfold pair_lt in *.
    destruct (pair_compare p q); [subst; lia|done|lia].
Qed.

(** The matrix lists the pair. *)
Definition row_of (minor : string) (row : MatrixRow) : Prop :=
  row ∈ COMPAT_MATRIX ∧ row_cilium_minor row = minor.

Lemma lookup_row_spec minor :
  match lookup_row minor with
  | Some row => row_of minor row ∧ ∀ row', row_of minor row' → row' = row
  | None => ∀ row, ¬ row_of minor row
  end.
Proof.
  unfold lookup_row, row_of.
  assert (NoDup (row_cilium_minor <$> COMPAT_MATRIX)) as Hnd by (vm_compute; repeat constructor; set_solver).
  revert Hnd. generalize COMPAT_MATRIX as l. induction l as [|r l IH]; intros Hnd.
  { intros row [[]%elem_of_nil _]. }
  cbn [List.find]. cbn in Hnd. apply NoDup_cons in Hnd as [Hr Hnd]. case_bool_decide as E.
  - split; [split; [by left|done]|]. intros row' [[->|Hin]%elem_of_cons Hm]; [done|].
    destruct Hr. rewrite E, <-Hm. by apply list_elem_of_fmap_2.
  - specialize (IH Hnd). destruct (List.find _ _) as [row|].
    + destruct IH as [[Hin Hm] Hu]. split; [split; [by right|done]|].
      intros row' [[->|Hin']%elem_of_cons Hm']; [done|]. by apply Hu.
    + intros row [[->|Hin]%elem_of_cons Hm]; [done|]. by apply (IH row).
Qed.

(** What the verdict says. *)
Lemma classify_spec p :
  match classify p with
  | MatrixStale => ∀ row, ¬ row_of (pin_cilium_minor p) row
  | Supported s =>
      ∃ row, row_of (pin_cilium_minor p) row ∧ pin_k8s_minor p ∈ row_k8s_minors row
        ∧ s = join " " (row_k8s_minors row)
  | Mismatch s lo below url =>
      ∃ row, row_of (pin_cilium_minor p) row ∧ (pin_k8s_minor p ∉ row_k8s_minors row)
        ∧ s = join " " (row_k8s_minors row) ∧ url = source_url row
        ∧ lo ∈ row_k8s_minors row ∧ (∀ m, m ∈ row_k8s_minors row → minor_le lo m)
        ∧ (below = true ↔ below_all (pin_k8s_minor p) (row_k8s_minors row))
  end.
Proof.
  unfold classify. pose proof (lookup_row_spec (pin_cilium_minor p)) as H.
  destruct (lookup_row _) as [row|]; [|done]. destruct H as [[Hin Hm] _].
  case_bool_decide as Hk; [by exists row|].
  destruct (matrix_numeric row Hin) as [Hne Hnum].
  destruct (lowest_supported_minor (row_k8s_minors row)) as [lo|] eqn:Hlo; [|by destruct (row_k8s_minors row)].
  destruct (lowest_least _ _ Hnum Hlo) as [Hl1 Hl2]. exists row. cbn [default].
  repeat split; try done; by apply is_below_window_iff.
Qed.

(** ** The repository *)

Section nearest.
Context `{Files} (h : history).

Definition has_containerfile (dir : string) : Prop :=
  path_is_file h (path_join dir CONTAINERFILE_REL) = true.

(** [d] is the nearest directory on the way from [p] to the root. *)
Inductive nearest : string → string → Prop :=
| nearest_here p : has_containerfile p → nearest p p
| nearest_up p q d : ¬ has_containerfile p → parent_dir p = Some q → nearest q d → nearest p d.

Lemma parent_shorter p q : parent_dir p = Some q → (String.length q < String.length p)%nat.
Proof.
  unfold parent_dir. destruct (rsplit_once "/" p) as [[l r]|] eqn:E.
  - apply rsplit_once_Some in E as [-> _]. rewrite string_length_app. cbn.
    destruct l as [|a l]; [destruct r; [done|]|]; intros [= <-]; cbn; lia.
  - destruct p; [done|]. intros [= <-]. cbn. lia.
Qed.

Lemma walk_to_root_iff fuel p d :
  (String.length p ≤ fuel)%nat → walk_to_root fuel h p = Some d ↔ nearest p d.
Proof.
  revert p. induction fuel as [|fuel IH]; intros p Hf; cbn [walk_to_root];
    destruct (path_is_file h _) eqn:E.
  1, 3: split; [intros [= <-]; by apply nearest_here|]; intros Hn; destruct Hn as [|? ? ? Hn]; [done|];
    by destruct Hn.
  - split; [done|]. intros Hn. destruct Hn as [p Hn|p q d _ Hp]; [unfold has_containerfile in *; congruence|].
    apply parent_shorter in Hp. lia.
  - destruct (parent_dir p) as [q|] eqn:Hp.
    + rewrite IH by (apply parent_shorter in Hp; lia). split.
      * intros Hn. eapply nearest_up; [|done..]. unfold has_containerfile. congruence.
      * intros Hn. destruct Hn as [p Hn|p q' d _ Hq Hn]; [unfold has_containerfile in *; congruence|].
        congruence.
    + split; [done|]. intros Hn. destruct Hn as [p Hn|p q' d _ Hq Hn]; [|congruence].
      unfold has_containerfile in *; congruence.
Qed.

Lemma find_repo_root_iff p d : find_repo_root h p = Some d ↔ nearest p d.
Proof. by apply walk_to_root_iff. Qed.
End nearest.

(** ** The run *)

Lemma println_each ls h : for_each_M println ls h = (tt, EvOut <$> ls).
Proof.
  revert h. induction ls as [|l ls IH]; intros h; [done|].
  cbn [for_each_M]. cbv [mbind M_bind println emit]. fold println. by rewrite IH.
Qed.
Lemma eprintln_each ls h : for_each_M eprintln ls h = (tt, EvErr <$> ls).
Proof.
  revert h. induction ls as [|l ls IH]; intros h; [done|].
  cbn [for_each_M]. cbv [mbind M_bind eprintln emit]. fold eprintln. by rewrite IH.
Qed.

Section run.
Context `{World} `{Host} `{Files} (args : CiliumArgs) (h : history).

(** The root of the repository. *)
Definition located (root : string) : Prop :=
  match pf_repo_root args with
  | Some p => root = p
  | None =>
      let cwd := match current_dir h with Ok cwd => cwd | Err _ => "." end in
      nearest h cwd root ∨ (root = cwd ∧ ∀ d, ¬ nearest h cwd d)
  end.

(** A version is given by its flag, or else found in its file. *)
Definition known (flag : option string) (given : string → string)
    (of_kind : string → string → Prop) (path v : string) : Prop :=
  match non_empty flag with
  | Some f => v = given f
  | None => ∃ content, file_answer h path = Ok content ∧ first_line of_kind content v
  end.
Definition cilium_known (root : string) : string → Prop :=
  known (pf_cilium args) id cilium_line (path_join root K8S_INIT_REL).
Definition k8s_known (root : string) : string → Prop :=
  known (pf_k8s args) normalize_k8s_minor k8s_line (path_join root CONTAINERFILE_REL).

Lemma preflight_root_located : located (preflight_root h args).
Proof.
  unfold located, preflight_root. destruct (pf_repo_root args); [done|].
  set (cwd := match current_dir h with Ok cwd => cwd | Err _ => "." end).
  destruct (find_repo_root h cwd) as [d|] eqn:E; cbn [default].
  - left. by apply find_repo_root_iff.
  - right. split; [done|]. intros d Hd%find_repo_root_iff. congruence.
Qed.

Lemma file_pin_spec extract of_kind path what msg :
  (∀ content v, extract content = Some v ↔ first_line of_kind content v) →
  (∃ v, file_pin read_to_string extract path what msg h = (Ok (v, path), [])
     ∧ known None id of_kind path v)
  ∨ (∃ e, file_pin read_to_string extract path what msg h = (Err e, [])
     ∧ ∀ v, ¬ known None id of_kind path v).
Proof.
  intros Hx. unfold file_pin. run_io. unfold known. cbn [non_empty].
  destruct (file_answer h path) as [content|e]; cbn [map_err].
  - destruct (extract content) as [v|] eqn:E; cbn [ok_or].
    + left. exists v. split; [done|]. exists content. split; [done|]. by apply Hx.
    + right. eexists. split; [done|]. intros v (c & [= <-] & Hv). apply Hx in Hv. congruence.
  - right. eexists. split; [done|]. by intros v (c & ? & _).
Qed.

(** Both versions, or the error of the first that cannot be had. *)
Lemma resolve_pins_spec root :
  (∃ p, resolve_pins read_to_string args root h = (Ok p, [])
     ∧ cilium_known root (cilium_version p) ∧ k8s_known root (pin_k8s_minor p)
     ∧ pin_cilium_minor p = cilium_minor_of (cilium_version p))
  ∨ (∃ msg, resolve_pins read_to_string args root h = (Err msg, [])
     ∧ ((∀ v, ¬ cilium_known root v) ∨ ∀ v, ¬ k8s_known root v)).
Proof.
  unfold resolve_pins, cilium_known, k8s_known.
  pose proof (file_pin_spec extract_cilium_pin cilium_line (path_join root K8S_INIT_REL) "Cilium pin"
    "ERROR: could not extract Cilium --version from k8s-init.sh" cilium_pin_iff) as Hc.
  pose proof (file_pin_spec extract_k8s_pin k8s_line (path_join root CONTAINERFILE_REL) "K8S_VERSION pin"
    "ERROR: could not extract K8S_VERSION from Containerfile" k8s_pin_iff) as Hk.
  unfold known in *. cbn [non_empty] in *.
  destruct (non_empty (pf_cilium args)) as [c|];
    [rewrite (io_bind_ok _ _ (c, "--cilium") h eq_refl)
    |destruct Hc as [(c & E & Hc)|(e & E & Hc)];
       [rewrite (io_bind_ok _ _ _ _ E)|right; exists e; rewrite (io_bind_err _ _ _ _ _ E); auto]];
  (destruct (non_empty (pf_k8s args)) as [k|];
    [rewrite (io_bind_ok _ _ (normalize_k8s_minor k, "--k8s") h eq_refl); left; eexists; split; [reflexivity|by cbn]
    |destruct Hk as [(k & E' & Hk)|(e & E' & Hk)];
       [rewrite (io_bind_ok _ _ _ _ E'); left; eexists; split; [reflexivity|by cbn]|right; exists e; rewrite (io_bind_err _ _ _ _ _ E'); auto]]).
Qed.

(** The matrix says that the Cilium version supports the Kubernetes minor. *)
Definition covered (c k : string) : Prop :=
  ∃ row, row_of (cilium_minor_of c) row ∧ k ∈ row_k8s_minors row.

Lemma classify_covered p :
  pin_cilium_minor p = cilium_minor_of (cilium_version p) →
  (covered (cilium_version p) (pin_k8s_minor p) ↔ ∃ s, classify p = Supported s).
Proof.
  intros Hp. unfold covered. rewrite <-Hp. pose proof (classify_spec p) as Hs.
  destruct (classify p) as [s| |s lo below url].
  - destruct Hs as (row & ? & ? & _). split; [by exists s|by exists row].
  - split; [by intros (row & ? & _); destruct (Hs row)|by intros []].
  - destruct Hs as (row & [Hrow Hm] & Hk & _). split; [|by intros []].
    intros (row' & Hrow' & Hk'). pose proof (lookup_row_spec (pin_cilium_minor p)) as Hl.
    destruct (lookup_row _) as [r|]; [|by destruct (Hl row)].
    destruct Hl as [_ Hu]. rewrite (Hu row') in Hk' by done. rewrite (Hu row) in Hk by done. done.
Qed.

End run.

(** ** Concrete runs *)

Definition init_text : string :=
  "cilium install \" +:+ NL +:+ "    --version 1.16.5 \" +:+ NL +:+ "    --set kubeProxyReplacement=true" +:+ NL.
Definition containerfile_text : string :=
  "FROM base" +:+ NL +:+ " ARG K8S_VERSION=v1.99" +:+ NL +:+ "ARG K8S_VERSION = v1.35.2" +:+ NL.

Example pins_of_texts :
  extract_cilium_pin init_text = Some "1.16.5" ∧ extract_k8s_pin containerfile_text = Some "1.35"
  ∧ extract_cilium_pin "ARG CILIUM_CLI_VERSION=v0.16.22" = None
  ∧ extract_cilium_pin "--versionfoo 1.2.3" = None.
Proof. vm_compute. done. Qed.

(** The order is numeric: 1.9 is below 1.10. *)
Example numeric_order :
  lowest_supported_minor ["1.10"; "1.9"; "1.11"] = Some "1.9" ∧ is_below_window "1.9" "1.10" = true.
Proof. vm_compute. done. Qed.

Definition pinned_world : World := {|
  ssh_answer _ _ _ _ := Err (IdentityFileMissing "unused");
  local_answer _ _ := Err (IoError "unused");
  stdout_answer _ _ := Ok tt;
  stderr_answer _ _ := Ok tt;
  file_answer _ p :=
    if bool_decide (p = "/repo/containers/k8s/k8s-init.sh") then Ok init_text
    else if bool_decide (p = "/repo/containers/k8s/Containerfile") then Ok containerfile_text
    else Err (IoError "No such file or directory (os error 2)");
  fs_answer _ _ := Ok tt;
|}.
Definition repo_host : Host := {|
  path_exists _ _ := false;
  path_is_dir _ _ := false;
  current_dir _ := Ok "/repo/docs/runbooks";
  env_var _ := None;
  process_id := 1;
  git_in _ _ _ := None;
  podman_query _ _ := None;
  openssl_passwd _ _ := None;
|}.
Definition repo_files : Files :=
  {| path_is_file _ p := bool_decide (p = "/repo/containers/k8s/Containerfile") |}.

(** The pins of the files are a mismatch, the flags override them. *)
Example strict_run :
  @run pinned_world repo_host repo_files (Cilium (mkCiliumArgs None None true None false)) []
  = (Exits 1, EvErr <$> [
      "WARN: Cilium 1.16.5 does NOT list K8s 1.35 as a supported minor.";
      "      Cilium 1.16.x supported K8s minors: 1.27 1.28 1.29 1.30";
      "      Bump Cilium first (see docs/cilium-migration.md) OR pick a K8s minor in range.";
      "      Upstream matrix: https://docs.cilium.io/en/v1.16/network/kubernetes/compatibility/";
      "      See also: docs/k8s-version-upgrade.md " +:+ DQ +:+ "Pre-flight checklist" +:+ DQ +:+ "."])
  ∧ @run pinned_world repo_host repo_files
      (Cilium (mkCiliumArgs (Some "1.17.16") (Some "v1.32.1") true None false)) []
    = (Returns (Ok tt), [EvOut "OK: Cilium 1.17.16 supports K8s 1.32 (supported: 1.29 1.30 1.31 1.32)."])
  ∧ @run pinned_world repo_host repo_files (Cilium (mkCiliumArgs None None false (Some "/x") false)) []
    = (Exits 2, [EvErr "ERROR: cannot read /x/containers/k8s/k8s-init.sh to extract Cilium pin"]).
Proof. vm_compute. done. Qed.
