(* ===== verification/CpCalls.v ===== *)
(** * The calls of the control plane

    What [Cp.v]'s ways to run something on the control plane leave in the
    history: the guard refuses the command, or one call is made. *)

From S2P Require Import Prelude RustStr ConfigTypes ConfigLexer ConfigBuild SshOptions SshClient.
From S2P Require Import Effects VirtUri Shell VirtParse VirtConn Cp Transcript.

(** The guard lets the command pass. *)
Definition shell_safe (cmd : string) : Prop :=
  all_bytes (λ a, negb (is_metachar a)) cmd = true ∧ contains "$(" cmd = false.

(** What came out of a command that ran. *)
Definition lenient (a : result SshError RunOutput) : option CpExecOutput :=
  match a with
  | Ok out => Some (mkCpExecOutput true (stdout_lossy out) (stderr_lossy out))
  | Err (NonZeroExit _ _ stdout stderr) => Some (mkCpExecOutput false stdout stderr)
  | Err _ => None
  end.

Definition value_of {E A} (r : result E A) : option A := match r with Ok a => Some a | Err _ => None end.

(** It ran and exited with 0. *)
Definition good (o : option CpExecOutput) : Prop := ∃ out, o = Some out ∧ ce_success out = true.

(** One command, with text for its standard input or not: refused by the guard,
    or sent; and what came out. *)
Inductive asked_with (i : option string) (o : SshOptions) (cmd : string)
    : option CpExecOutput → history → Prop :=
| refused : ¬ shell_safe cmd → asked_with i o cmd None []
| answered a :
    shell_safe cmd → asked_with i o cmd (lenient a) [EvSsh o (remote_kubectl cmd) i a].
Abbreviation asked := (asked_with None).

Lemma asked_some i o cmd out es : asked_with i o cmd (Some out) es → shell_safe cmd.
Proof. intros H. by inversion H. Qed.

(** A command that passes the guard is sent. *)
Lemma asked_sent i o cmd x es :
  shell_safe cmd → asked_with i o cmd x es →
  ∃ a, es = [EvSsh o (remote_kubectl cmd) i a] ∧ x = lenient a.
Proof. intros Hs [Hn|a _]; [done|eauto]. Qed.

(** The address in what [virsh domifaddr] prints *)
Definition lease_of (answer : result SshError RunOutput) : option string :=
  match answer with
  | Ok out => parse_first_domifaddr_ipv4 (stdout_lossy out)
  | Err (NonZeroExit _ _ stdout _) => parse_first_domifaddr_ipv4 stdout
  | Err _ => None
  end.

(** *** The guard on texts put together *)

Lemma starts_with_app p s t : starts_with p s = true → starts_with p (s +:+ t) = true.
Proof.
  unfold starts_with. destruct (strip_prefix p s) as [r|] eqn:E; [|done].
  apply strip_prefix_Some in E as ->. by rewrite <-app_assoc_s, strip_prefix_app.
Qed.
Lemma contains_app_l p s t : contains p s = true → contains p (s +:+ t) = true.
Proof.
  induction s as [|a s IH].
  - cbn [contains]. rewrite orb_false_r. intros H. destruct p; [|done]. by destruct t.
  - rewrite app_cons_s. cbn [contains]. intros [H|H]%orb_true_iff; apply orb_true_iff.
    + left. by apply (starts_with_app p (String a s) t).
    + right. by apply IH.
Qed.
Lemma shell_safe_l s t : shell_safe (s +:+ t) → shell_safe s.
Proof.
  unfold shell_safe. rewrite all_bytes_app. intros [[? _]%andb_true_iff Hc]. split; [done|].
  destruct (contains "$(" s) eqn:E; [|done]. apply (contains_app_l _ _ t) in E. congruence.
Qed.
(** The second text begins with something else than a parenthesis. *)
Lemma contains_app_sep s b t :
  Ascii.eqb "(" b = false → contains "$(" s = false → contains "$(" (String b t) = false →
  contains "$(" (s +:+ String b t) = false.
Proof.
  intros Hb. induction s as [|a s IH]; [done|]. cbn [contains]. intros [H1 H2]%orb_false_iff Ht.
  rewrite app_cons_s. cbn [contains]. apply orb_false_iff. split; [|by apply IH].
  unfold starts_with in *. cbn [strip_prefix] in *. destruct (Ascii.eqb "$" a); [|done].
  destruct s as [|a' s]; [|rewrite app_cons_s; by destruct (Ascii.eqb "(" a')]. 
  change (match (if Ascii.eqb "(" b then Some t else None) with Some _ => true | None => false end = false).
  by rewrite Hb.
Qed.
Lemma shell_safe_app s b t :
  Ascii.eqb "(" b = false → shell_safe s → shell_safe (String b t) → shell_safe (s +:+ String b t).
Proof.
  intros Hb [H1 H2] [H3 H4]. split; [|by apply contains_app_sep].
  by rewrite all_bytes_app, H1, H3.
Qed.

(** ** The rules *)

Section rules.
Context `{W : World}.

Lemma does_fold_exit ctx o cmd i :
  does (fold_exit ctx (ssh_run o cmd i)) (λ r es, ∃ a, es = [EvSsh o cmd i a] ∧ value_of r = lenient a).
Proof.
  unfold fold_exit.
  eapply does_bind; [apply (does_try (F:=SshError)), does_ssh| |by intros ? ? (? & [=] & _)].
  intros r e1 (? & [= <-] & ->).
  destruct r as [out|[]]; first [apply does_ret|apply does_throw]; eauto.
Qed.

(** The guard in front of a call *)
Lemma does_guarded {A} ctx i o cmd (m : IO anyhow A) (Q : result anyhow A → option CpExecOutput → Prop) :
  does m (λ r es, ∃ a, es = [EvSsh o (remote_kubectl cmd) i a] ∧ Q r (lenient a)) →
  (∀ e, Q (Err e) None) →
  does (_ ← of_result (reject_shell_metachars ctx cmd); m) (λ r es, ∃ x, Q r x ∧ asked_with i o cmd x es).
Proof.
  intros Hm He. destruct (reject_shell_metachars _ cmd) as [[]|e] eqn:Hg.
  - apply reject_shell_metachars_Ok in Hg. intros h. rewrite (io_bind_ok _ _ tt h eq_refl).
    destruct (Hm h) as (a & Hes & HQ). exists (lenient a). split; [done|]. rewrite Hes. by apply answered.
  - intros h. rewrite (io_bind_err _ _ e [] h eq_refl). exists None. split; [apply He|]. apply refused.
    intros Hs%(reject_shell_metachars_Ok ctx). congruence.
Qed.

Lemma does_kubectl_lenient o ip cmd :
  does (cp_kubectl_lenient_with_exec (client_exec o) ip cmd) (λ r es, asked o cmd (value_of r) es).
Proof.
  eapply does_conseq; [apply (does_guarded _ None o cmd _ (λ r x, value_of r = x))|].
  - apply does_fold_exit.
  - done.
  - by intros r es (x & <- & Hx).
Qed.

Lemma does_kubectl_stdin t cmd stdin :
  does (cp_kubectl_with_stdin_lenient t cmd stdin)
    (λ r es, asked_with (Some stdin) (cp_ssh_opts t) cmd (value_of r) es).
Proof.
  eapply does_conseq; [apply (does_guarded _ (Some stdin) (cp_ssh_opts t) cmd _ (λ r x, value_of r = x))|].
  - apply does_fold_exit.
  - done.
  - by intros r es (x & <- & Hx).
Qed.

Lemma good_lenient a : good (lenient a) ↔ is_ok a = true.
Proof.
  unfold good. destruct a as [out|[]]; cbn; split; try done; try (by intros (? & [=] & _));
    try (by intros (? & [= <-] & ?)); by eexists.
Qed.

Lemma does_kubectl_raw t cmd :
  does (cp_kubectl_raw t cmd) (λ r es, ∃ x, (is_ok r = true ↔ good x) ∧ asked (cp_ssh_opts t) cmd x es).
Proof.
  apply (does_guarded _ None (cp_ssh_opts t) cmd _ (λ r x, is_ok r = true ↔ good x)).
  - apply emits_map_err. eapply emits_conseq; [apply does_ssh|]. intros r es ->. exists r.
    split; [done|]. rewrite good_lenient. by destruct r.
  - intros e. split; [done|]. by intros (? & ? & _).
Qed.

Lemma does_cp_ssh t cmd :
  does (cp_ssh_lenient t cmd) (λ r es, ∃ a, es = [EvSsh (cp_ssh_opts t) cmd None a] ∧ value_of r = lenient a).
Proof. apply does_fold_exit. Qed.
End rules.
