(* ===== verification/KubeBench.v ===== *)
(** * hbird kube-bench

    [crates/hbird-cli/src/commands/kube_bench.rs]: the targets, the plan, the
    Jobs and their cleanup, the summary, the dry run and [run].  A
    [process::exit] inside a function leaves it, and its callers, with an
    [ending]. *)

From S2P Require Import Prelude RustStr ConfigTypes ConfigLexer ConfigBuild SshOptions SshClient.
From S2P Require Import Effects VirtUri Shell VirtParse VirtConn Cp.

Definition EXIT_PRECONDITION : Z := 2.
Definition BASE_URL : string := "https://raw.githubusercontent.com/aquasecurity/kube-bench".

Record KubeBenchArgs : Set := mkKubeBenchArgs {
  kb_config : option string;
  kb_cp_name : option string;
  kb_kvm_host : option string;
  kb_cp_ip : option string;
  kube_bench_version : string;
  kb_timeout : string;
  kb_namespace : string;
  kb_targets : string;
  kb_dry_run : bool;
}.

Definition log {E} (line : string) : IO E unit := lift (eprintln ("[run-kube-bench] " +:+ line)).

(** ** Targets *)

Inductive BenchTarget : Set := Master | Node.
#[export] Instance BenchTarget_eq_dec : EqDecision BenchTarget.
Proof. solve_decision. Defined.

Definition target_name (t : BenchTarget) : string := match t with Master => "master" | Node => "node" end.
Definition job_name (t : BenchTarget) : string := "kube-bench-" +:+ target_name t.
Definition job_url (t : BenchTarget) (version : string) : string :=
  BASE_URL +:+ "/" +:+ version +:+ "/job-" +:+ target_name t +:+ ".yaml".

(** [s.split(..)] at each byte of a set *)
Fixpoint split_at (f : ascii → bool) (s : string) : list string :=
  match s with
  | EmptyString => [EmptyString]
  | String a s' =>
      if f a then EmptyString :: split_at f s'
      else match split_at f s' with [] => [chr a] | p :: ps => String a p :: ps end
  end.
Definition is_target_sep (a : ascii) : bool :=
  Ascii.eqb a " " || Ascii.eqb a "009" || Ascii.eqb a nl || Ascii.eqb a ",".

(** The loop over the tokens *)
Fixpoint targets_of (toks : list string) : result string (list BenchTarget) :=
  match toks with
  | [] => Ok []
  | tok :: toks =>
      t ← (if bool_decide (tok = "master") then Ok Master
           else if bool_decide (tok = "node") then Ok Node
           else Err ("FAIL: unknown target '" +:+ tok +:+ "' (expected master or node)"));
      ts ← targets_of toks;
      Ok (t :: ts)
  end.
Definition target_tokens (raw : string) : list string :=
  filter (λ s, is_empty s = false) (split_at is_target_sep raw).
Definition parse_targets (raw : string) : result string (list BenchTarget) :=
  ts ← targets_of (target_tokens raw);
  match ts with
  | [] => Err "FAIL: no targets requested (expected master and/or node)"
  | _ => Ok ts
  end.

(** ** The plan *)

Record BenchPlan : Set := mkBenchPlan {
  bp_target : CpTarget;
  bp_cp_name : string;
  version : string;
  timeout : string;
  namespace : string;
  targets : list BenchTarget;
  dry_run : bool;
}.

Definition ns_flag (p : BenchPlan) : string := "-n " +:+ namespace p.

Section world.
Context `{W : World}.

Definition resolve_cp_ip (cp_name : string) (kvm_host : option string) : IO anyhow string :=
  match kvm_host with
  | Some host => resolve_cp_ip_via_ssh (client_exec (new host)) host cp_name
  | None =>
      r ← try (domifaddr (build_connection None) cp_name);
      match (r : result VirtError (option Ipv4)) with
      | Ok (Some ip) => mret (show_ipv4 ip)
      | Ok None =>
          bail ("kube-bench: libvirt domain '" +:+ cp_name +:+ "' has no IPv4 lease yet (queried on this host). "
                +:+ "Set CP_IP=<ip> in your CONFIG, or export KVM_HOST=<ssh-alias> to query libvirt "
                +:+ "on the KVM host over SSH.")
      | Err e =>
          bail ("kube-bench: could not resolve IPv4 for domain '" +:+ cp_name +:+ "' via local "
                +:+ "`virsh domifaddr`: " +:+ show_virt_error e
                +:+ ". Set CP_IP=<ip> in your CONFIG, or export KVM_HOST=<ssh-alias>.")
      end
  end.

(** An [anyhow] error that [run] returns. *)
Definition returned (e : anyhow) : ending := Returns (Err e).

Definition config_context (path : string) (e : anyhow) : ending :=
  returned (anyhow_msg ("kube-bench: failed to parse --config " +:+ path +:+ ": " +:+ show_anyhow e)).

(** What the plan takes from the arguments and the config *)
Definition bench_cp_name (a : KubeBenchArgs) (c : option ClusterConfig) : string :=
  default "hummingbird-k8s" (or_else (kb_cp_name a) (cp_name <$> c)).
Definition bench_kvm_host (a : KubeBenchArgs) (c : option ClusterConfig) : option string :=
  non_empty (or_else (kb_kvm_host a) (c ≫= kvm_host)).
Definition explicit_ip (a : KubeBenchArgs) (c : option ClusterConfig) : option string :=
  non_empty (or_else (non_empty (kb_cp_ip a)) (c ≫= cp_ip)).

Definition from_args (a : KubeBenchArgs) : IO ending BenchPlan :=
  targets ← match parse_targets (kb_targets a) with
            | Ok ts => mret ts
            | Err msg => _ ← log msg; throw (Exits EXIT_PRECONDITION)
            end;
  config ← match kb_config a with
           | Some path => c ← io_map_err (config_context path) (parse_config path); mret (Some c)
           | None => mret None
           end;
  let kvm_host := bench_kvm_host a config in
  cp_ip ← match explicit_ip a config with
          | Some ip => mret ip
          | None =>
              if kb_dry_run a then mret "<resolved-at-runtime>"
              else io_map_err returned (resolve_cp_ip (bench_cp_name a config) kvm_host)
          end;
  mret (mkBenchPlan (mkCpTarget cp_ip kvm_host) (bench_cp_name a config) (kube_bench_version a)
          (kb_timeout a) (kb_namespace a) targets (kb_dry_run a)).
End world.

(** ** The report *)

Record Summary : Set := mkSummary { findings : list string; tallies : list string }.

Definition is_finding (line : string) : bool := starts_with "[FAIL]" line || starts_with "[WARN]" line.
Definition is_tally (line : string) : bool :=
  contains "checks PASS" line || contains "checks FAIL" line || contains "checks WARN" line
  || contains "checks INFO" line.

Definition summarize (all_logs : string) : Summary :=
  mkSummary (filter (λ l, is_finding l = true) (lines all_logs))
    (filter (λ l, is_tally l = true) (lines all_logs)).

Definition render_summary (s : Summary) : list string :=
  ["" ; "=== kube-bench summary ==="] ++ findings s ++ ["---"] ++ tallies s.

Definition rule : string := concat_str (replicate 60 "#").
Definition target_banner (t : BenchTarget) : string :=
  rule +:+ NL +:+ "# kube-bench target: " +:+ target_name t +:+ NL +:+ rule.

Definition first_node_name (raw : string) : option string :=
  List.find (λ l, negb (is_empty l)) (trim <$> lines raw).

(** ** The Jobs *)

Definition version_cmd : string := "version --request-timeout=10s".
Definition nodes_cmd : string := "get nodes -l node-role.kubernetes.io/control-plane -o name".

Section jobs.
Context (ssh : SshExec) (p : BenchPlan).

Definition kubectl (command : string) : IO anyhow CpExecOutput :=
  cp_kubectl_lenient_with_exec ssh (cp_ip_ (bp_target p)) command.

Definition wipe_cmd (job : string) : string :=
  ns_flag p +:+ " delete job " +:+ job +:+ " --ignore-not-found=true".
Definition apply_cmd (url : string) : string := ns_flag p +:+ " apply -f " +:+ url.
Definition wait_cmd (job : string) : string :=
  ns_flag p +:+ " wait --for=condition=complete --timeout=" +:+ timeout p +:+ " job/" +:+ job.
Definition pods_cmd (job : string) : string :=
  ns_flag p +:+ " get pods -l job-name=" +:+ job +:+ " -o wide".
Definition tail_cmd (job : string) : string := ns_flag p +:+ " logs job/" +:+ job +:+ " --tail=100".
Definition logs_cmd (job : string) : string := ns_flag p +:+ " logs job/" +:+ job.
Definition cleanup_cmd (job : string) : string :=
  ns_flag p +:+ " delete job " +:+ job +:+ " --ignore-not-found=true --wait=false".

Definition cluster_reachable_with_exec {E} : IO E bool :=
  r ← try (kubectl version_cmd);
  mret match (r : result anyhow CpExecOutput) with Ok out => ce_success out | Err _ => false end.

Definition log_control_plane_node_with_exec {E} : IO E unit :=
  r ← try (kubectl nodes_cmd);
  let raw := match (r : result anyhow CpExecOutput) with
             | Ok out => if ce_success out then ce_stdout out else ""
             | Err _ => ""
             end in
  match first_node_name raw with
  | Some node => log ("control-plane node: " +:+ node)
  | None => log "WARN: no node labeled node-role.kubernetes.io/control-plane found"
  end.

(** [if let Ok(out) = .. { eprint!("{}", out.stdout) }] *)
Definition show_output (command : string) : IO anyhow unit :=
  r ← try (kubectl command);
  match (r : result anyhow CpExecOutput) with
  | Ok out => lift (eprint (ce_stdout out))
  | Err _ => mret tt
  end.

Definition run_target_with_exec (t : BenchTarget) : IO anyhow string :=
  let job := job_name t in
  let url := job_url t (version p) in
  let tag := "[" +:+ target_name t +:+ "] " in
  _ ← (try (kubectl (wipe_cmd job)) : IO anyhow (result anyhow CpExecOutput));
  _ ← log (tag +:+ "applying " +:+ url);
  applied ← kubectl (apply_cmd url);
  _ ← (if is_empty (ce_stdout applied) then mret tt else lift (eprint (ce_stdout applied)));
  if negb (ce_success applied) then
    _ ← lift (eprint (ce_stderr applied));
    bail (tag +:+ "FAIL: could not apply " +:+ url)
  else
    _ ← log (tag +:+ "waiting up to " +:+ timeout p +:+ " for Job/" +:+ job);
    waited ← kubectl (wait_cmd job);
    if negb (ce_success waited) then
      _ ← log (tag +:+ "FAIL: Job did not complete within " +:+ timeout p);
      _ ← log (tag +:+ "--- pod status ---");
      _ ← show_output (pods_cmd job);
      _ ← log (tag +:+ "--- last logs ---");
      _ ← show_output (tail_cmd job);
      bail (tag +:+ "FAIL: Job did not complete within " +:+ timeout p)
    else
      _ ← log (tag +:+ "fetching logs");
      logs ← kubectl (logs_cmd job);
      if is_empty (trim (ce_stdout logs)) then
        _ ← log (tag +:+ "FAIL: kube-bench produced no log output");
        bail (tag +:+ "FAIL: kube-bench produced no log output")
      else
        mret (target_banner t +:+ NL +:+ trim_end_char nl (ce_stdout logs) +:+ NL +:+ NL).

Fixpoint cleanup_with_exec {E} (created : list string) : IO E unit :=
  match created with
  | [] => mret tt
  | job :: created =>
      _ ← log ("cleaning up Job/" +:+ job +:+ " in ns/" +:+ namespace p);
      _ ← (try (kubectl (cleanup_cmd job)) : IO E (result anyhow CpExecOutput));
      cleanup_with_exec created
  end.

(** The loop over the targets: the Jobs created, and the report or the error. *)
Fixpoint run_targets (ts : list BenchTarget) : IO anyhow (list string * result anyhow string) :=
  match ts with
  | [] => mret ([], Ok "")
  | t :: ts =>
      r ← try (run_target_with_exec t);
      match (r : result anyhow string) with
      | Ok block =>
          _ ← lift (print block);
          '(created, logs) ← run_targets ts;
          mret (job_name t :: created, (λ rest, block +:+ rest) <$> logs)
      | Err e => mret ([job_name t], Err e)
      end
  end.

Definition run_all_with_exec : IO anyhow string :=
  '(created, logs) ← run_targets (targets p);
  _ ← cleanup_with_exec created;
  of_result logs.
End jobs.

(** ** The dry run *)

Definition render_dry_run_plan (p : BenchPlan) : list string :=
  ["DRY-RUN kube-bench version: " +:+ version p;
   "DRY-RUN cp: " +:+ cp_ip_ (bp_target p) +:+ " (" +:+ bp_cp_name p +:+ ")"
   +:+ match target_kvm_host (bp_target p) with Some h => " via " +:+ h | None => "" end;
   "DRY-RUN namespace: " +:+ namespace p;
   "DRY-RUN timeout:   " +:+ timeout p;
   "DRY-RUN targets:   " +:+ join " " (target_name <$> targets p);
   "DRY-RUN would run: kubectl version --request-timeout=10s";
   "DRY-RUN would run: kubectl get nodes -l node-role.kubernetes.io/control-plane -o name"]
  ++ (targets p ≫= λ t,
        ["DRY-RUN would run: kubectl " +:+ ns_flag p +:+ " delete job " +:+ job_name t
         +:+ " --ignore-not-found=true";
         "DRY-RUN would run: kubectl " +:+ ns_flag p +:+ " apply -f " +:+ job_url t (version p);
         "DRY-RUN would run: kubectl " +:+ ns_flag p +:+ " wait --for=condition=complete --timeout="
         +:+ timeout p +:+ " job/" +:+ job_name t;
         "DRY-RUN would run: kubectl " +:+ ns_flag p +:+ " logs job/" +:+ job_name t])
  ++ ((λ t, "DRY-RUN cleanup:   kubectl " +:+ ns_flag p +:+ " delete job " +:+ job_name t
            +:+ " --ignore-not-found=true --wait=false") <$> targets p).

(** ** [run] *)

Section run.
Context `{W : World}.

(** [run] after the plan is there. *)
Definition run_plan (p : BenchPlan) : IO ending unit :=
  _ ← log ("kube-bench version: " +:+ version p);
  _ ← log ("kubectl:           ssh root@" +:+ cp_ip_ (bp_target p)
           +:+ " kubectl (via hbird cp_kubectl shim)");
  _ ← log ("namespace:         " +:+ namespace p);
  _ ← log ("targets:           " +:+ join " " (target_name <$> targets p));
  if dry_run p then for_each log (render_dry_run_plan p)
  else
    let ssh := client_exec (cp_ssh_opts (bp_target p)) in
    reachable ← cluster_reachable_with_exec ssh p;
    if negb (reachable : bool) then
      _ ← log ("FAIL: kubectl can't reach the cluster (cp_ip=" +:+ cp_ip_ (bp_target p) +:+ ")");
      _ ← log "      try: hbird kube-bench --config <conf> --kvm-host <host>";
      throw (Exits EXIT_PRECONDITION)
    else
      _ ← log_control_plane_node_with_exec ssh p;
      all_logs ← io_map_err returned (run_all_with_exec ssh p);
      _ ← for_each (λ l, lift (eprintln l)) (render_summary (summarize all_logs));
      log "done".

Definition run (a : KubeBenchArgs) : M ending :=
  r ← catch (p ← from_args a; run_plan p);
  mret match r with Ok _ => Returns (Ok tt) | Err e => e end.
End run.
