(* ===== verification/KubeBenchFacts.v ===== *)
(** * What [hbird kube-bench] does

    The calls of a run with their order, the exit codes, the cleanup of every
    Job that was started; and that a dry run announces exactly the commands of
    a successful run. *)

From S2P Require Import Prelude RustStr ConfigTypes ConfigLexer ConfigBuild SshOptions SshClient.
From S2P Require Import Effects VirtUri Shell VirtParse VirtConn VirtCalls Cp Transcript ConnSteps.
From S2P Require Import CpCalls KubeBench.

Section spec.
Context `{W : World} (p : BenchPlan).
#[local] Abbreviation o := (cp_ssh_opts (bp_target p)).
#[local] Abbreviation ssh := (client_exec o).

Lemma does_kubectl cmd : does (kubectl ssh p cmd) (λ r es, asked o cmd (value_of r) es).
Proof. apply does_kubectl_lenient. Qed.

Lemma does_try_kubectl {E} cmd :
  does (try (kubectl ssh p cmd) : IO E _) (λ r es, ∃ r', r = Ok r' ∧ asked o cmd (value_of r') es).
Proof. apply does_try, does_kubectl. Qed.

(** ** One Job *)

(** Wiped, applied, waited for, its logs read; the block of the report. *)
Inductive target_calls (t : BenchTarget) : option string → history → Prop :=
| not_applied w r e1 e2 :
    asked o (wipe_cmd p (job_name t)) w e1 → asked o (apply_cmd p (job_url t (version p))) r e2 →
    ¬ good r → target_calls t None (e1 ++ e2)
| not_waited w r e1 e2 e3 :
    asked o (wipe_cmd p (job_name t)) w e1 → asked o (apply_cmd p (job_url t (version p))) r e2 →
    good r → asked o (wait_cmd p (job_name t)) None e3 → target_calls t None (e1 ++ e2 ++ e3)
| not_complete w r out x y e1 e2 e3 e4 e5 :
    asked o (wipe_cmd p (job_name t)) w e1 → asked o (apply_cmd p (job_url t (version p))) r e2 →
    good r → asked o (wait_cmd p (job_name t)) (Some out) e3 → ce_success out = false →
    asked o (pods_cmd p (job_name t)) x e4 → asked o (tail_cmd p (job_name t)) y e5 →
    target_calls t None (e1 ++ e2 ++ e3 ++ e4 ++ e5)
| complete w r s l e1 e2 e3 e4 :
    asked o (wipe_cmd p (job_name t)) w e1 → asked o (apply_cmd p (job_url t (version p))) r e2 →
    good r → asked o (wait_cmd p (job_name t)) s e3 → good s →
    asked o (logs_cmd p (job_name t)) l e4 →
    target_calls t
      (match l with
       | Some out =>
           if is_empty (trim (ce_stdout out)) then None
           else Some (target_banner t +:+ NL +:+ trim_end_char nl (ce_stdout out) +:+ NL +:+ NL)
       | None => None
       end) (e1 ++ e2 ++ e3 ++ e4).

Lemma does_show_output cmd :
  does (show_output ssh p cmd) (λ r es, r = Ok tt ∧ ∃ x, asked o cmd x es).
Proof.
  eapply does_bind; [apply does_try_kubectl| |by intros e e1 (? & [=] & _)].
  intros r e1 (? & [= <-] & Ha). destruct r as [out|e].
  - intros h. cbn. rewrite app_nil_r. eauto.
  - apply does_ret. rewrite app_nil_r. eauto.
Qed.

Lemma does_run_target t :
  does (run_target_with_exec ssh p t) (λ r es, target_calls t (value_of r) es).
Proof.
  unfold run_target_with_exec. cbv zeta.
  eapply does_bind; [apply does_try_kubectl| |by intros e e1 (? & [=] & _)].
  intros _ e1 (w & _ & H1). apply does_eprintln.
  eapply does_bind; [apply does_kubectl| |].
  2: { intros e e2 H2. eapply not_applied; [exact H1|exact H2|]. by intros (? & ? & _). }
  intros applied e2 H2. cbn [value_of] in H2.
  assert (∀ {A} (m : IO anyhow A) Q, does m Q →
    does (_ ← (if is_empty (ce_stdout applied) then mret tt else lift (eprint (ce_stdout applied))); m) Q) as Hshow.
  { intros A m Q Hm. destruct (is_empty _); [|by apply does_quietly].
    intros h. specialize (Hm h). unfold mbind, IO_bind, mret, IO_ret. cbn. rewrite app_nil_r.
    by destruct (m h). }
  apply Hshow. clear Hshow. destruct (ce_success applied) eqn:Hs; cbn [negb].
  2: { apply does_quietly; [done|]. apply does_throw. rewrite app_nil_r.
       eapply not_applied; [exact H1|exact H2|]. intros (? & [= <-] & ?). congruence. }
  assert (good (Some applied)) as Hg by (by exists applied).
  apply does_eprintln. eapply does_bind; [apply does_kubectl| |].
  2: { intros e e3 H3. by eapply not_waited. }
  intros waited e3 H3. cbn [value_of] in H3. destruct (ce_success waited) eqn:Hw; cbn [negb].
  - assert (good (Some waited)) as Hg' by (by exists waited).
    apply does_eprintln. eapply does_bind; [apply does_kubectl| |].
    2: { intros e e4 H4. cbn [value_of] in *. pose proof (complete t _ _ _ _ _ _ _ _ H1 H2 Hg H3 Hg' H4) as H.
         by rewrite <-?app_assoc. }
    intros logs e4 H4. cbn [value_of] in H4.
    pose proof (complete t _ _ _ _ _ _ _ _ H1 H2 Hg H3 Hg' H4) as H. cbn beta iota in H.
    destruct (is_empty (trim (ce_stdout logs))).
    + apply does_eprintln, does_throw. by rewrite app_nil_r, <-?app_assoc.
    + apply does_ret. by rewrite app_nil_r, <-?app_assoc.
  - apply does_eprintln, does_eprintln.
    eapply does_bind; [apply does_show_output| |by intros e e4 [[=] _]].
    intros _ e4 [_ [x H4]]. apply does_eprintln.
    eapply does_bind; [apply does_show_output| |by intros e e5 [[=] _]].
    intros _ e5 [_ [y H5]]. apply does_throw. rewrite app_nil_r, <-?app_assoc.
    by eapply not_complete.
Qed.

(** ** All Jobs *)

(** One after the other until one gives no block: the targets that were started,
    and the report when every one gave its block. *)
Inductive targets_calls : list BenchTarget → list BenchTarget → option string → history → Prop :=
| all_targets : targets_calls [] [] (Some "") []
| target_failed t ts es : target_calls t None es → targets_calls (t :: ts) [t] None es
| target_done t ts block started logs e1 e2 :
    target_calls t (Some block) e1 → targets_calls ts started logs e2 →
    targets_calls (t :: ts) (t :: started) ((λ rest, block +:+ rest) <$> logs) (e1 ++ e2).

(** Each Job is deleted, whatever comes of it. *)
Inductive cleaned : list BenchTarget → history → Prop :=
| nothing_left : cleaned [] []
| job_deleted t ts x e1 e2 :
    asked o (cleanup_cmd p (job_name t)) x e1 → cleaned ts e2 → cleaned (t :: ts) (e1 ++ e2).

Lemma does_run_targets ts :
  does (run_targets ssh p ts) (λ r es, ∃ started logs,
    r = Ok (job_name <$> started, logs) ∧ targets_calls ts started (value_of logs) es).
Proof.
  induction ts as [|t ts IH]; cbn [run_targets].
  { apply does_ret. exists [], (Ok ""). split; [done|constructor]. }
  eapply does_bind; [apply does_try, does_run_target| |by intros e e1 (? & [=] & _)].
  intros r e1 (? & [= <-] & H1). destruct r as [block|e].
  - apply does_quietly; [done|].
    eapply does_bind; [exact IH| |by intros e e2 (? & ? & [=] & _)].
    intros ? e2 (started & logs & [= ->] & H2). apply does_ret. rewrite app_nil_r.
    eexists (t :: started), _. split; [done|].
    pose proof (target_done t ts block started _ e1 e2 H1 H2) as H. by destruct logs.
  - apply does_ret. rewrite app_nil_r. exists [t], (Err e). split; [done|]. by constructor.
Qed.

Lemma does_cleanup {E} ts :
  does (cleanup_with_exec ssh p (job_name <$> ts) : IO E unit) (λ r es, r = Ok tt ∧ cleaned ts es).
Proof.
  induction ts as [|t ts IH]; cbn [cleanup_with_exec fmap list_fmap].
  { apply does_ret. split; [done|constructor]. }
  apply does_eprintln. eapply does_bind; [apply does_try_kubectl| |by intros e e1 (? & [=] & _)].
  intros _ e1 (x & _ & H1). eapply does_conseq; [exact IH|]. intros r e2 [-> H2].
  split; [done|]. by eapply job_deleted.
Qed.

(** The Jobs and their cleanup *)
Definition all_jobs (logs : option string) (es : history) : Prop :=
  ∃ started e1 e2, targets_calls (targets p) started logs e1 ∧ cleaned started e2 ∧ es = e1 ++ e2.

Lemma does_run_all : does (run_all_with_exec ssh p) (λ r es, all_jobs (value_of r) es).
Proof.
  eapply does_bind; [apply does_run_targets| |by intros e e1 (? & ? & [=] & _)].
  intros ? e1 (started & logs & [= ->] & H1).
  eapply does_bind; [apply does_cleanup| |by intros e e2 [[=] _]].
  intros _ e2 [_ H2]. intros h. cbn. rewrite app_nil_r. by exists started, e1, e2.
Qed.

(** ** After the plan *)

(** The probe; then the look for the control-plane node, whose answer does not
    matter; then the Jobs. *)
Inductive bench_calls : ending → history → Prop :=
| unreachable v e1 : asked o version_cmd v e1 → ¬ good v → bench_calls (Exits 2) e1
| benched v n logs e1 e2 e3 e :
    asked o version_cmd v e1 → good v → asked o nodes_cmd n e2 → all_jobs logs e3 →
    match logs with Some _ => e = Returns (Ok tt) | None => ∃ err, e = Returns (Err err) end →
    bench_calls e (e1 ++ e2 ++ e3).

Definition ending_of (r : result ending unit) : ending :=
  match r with Ok _ => Returns (Ok tt) | Err e => e end.

Lemma does_each {E A} (f : A → string) l :
  does (for_each (λ x, lift (eprintln (f x))) l : IO E unit) (λ r es, r = Ok tt ∧ es = []).
Proof. induction l as [|x l IH]; [by apply does_ret|]. by apply does_eprintln. Qed.

Lemma does_bench : dry_run p = false → does (run_plan p) (λ r es, bench_calls (ending_of r) es).
Proof.
  intros Hd. unfold run_plan. do 4 apply does_eprintln. rewrite Hd. cbv zeta.
  unfold cluster_reachable_with_exec.
  eapply does_bind with (P := λ r es, ∃ v, r = Ok (match v with Some out => ce_success out | None => false end)
    ∧ asked o version_cmd v es).
  { eapply does_bind; [apply does_try_kubectl| |by intros e e1 (? & [=] & _)].
    intros r e1 (? & [= <-] & H1). apply does_ret. rewrite app_nil_r. exists (value_of r).
    by destruct r. }
  2: by intros e e1 (? & [=] & _).
  intros reachable e1 (v & [= ->] & H1).
  destruct (match v with Some out => ce_success out | None => false end) eqn:Hv; cbn [negb].
  2: { do 2 apply does_eprintln. apply does_throw. rewrite app_nil_r. eapply unreachable; [exact H1|].
       intros (out & -> & ?). congruence. }
  assert (good v) as Hg by (destruct v; [by eexists|done]).
  eapply does_bind with (P := λ r es, r = Ok tt ∧ ∃ n, asked o nodes_cmd n es).
  { eapply does_bind; [apply does_try_kubectl| |by intros e e2 (? & [=] & _)].
    intros r e2 (? & [= <-] & H2). cbv zeta.
    destruct (first_node_name _); intros h; cbn; rewrite app_nil_r; eauto. }
  2: by intros e e2 [[=] _].
  intros _ e2 [_ [n H2]].
  eapply does_bind with (P := λ r es, all_jobs (value_of r) es ∧ match r with Err e => ∃ err, e = returned err | _ => True end).
  { apply emits_map_err. eapply emits_conseq; [apply does_run_all|]. intros r es H.
    destruct r as [x|x]; cbn [map_err]; split; try done. by exists x. }
  - intros all_logs e3 [H3 _]. eapply does_bind; [apply does_each| |by intros e e4 [[=] _]].
    intros _ e4 [_ ->]. intros h. cbn. rewrite app_nil_r.
    by apply (benched v n (Some all_logs)).
  - intros e e3 [H3 [err ->]]. eapply benched; [exact H1|exact Hg|exact H2|exact H3|]. by exists err.
Qed.
End spec.

(** ** The plan *)

Lemma targets_of_iff toks ts : targets_of toks = Ok ts ↔ toks = target_name <$> ts.
Proof.
  revert ts. induction toks as [|tok toks IH]; intros ts; cbn [targets_of].
  - split; [by intros [= <-]|]. by destruct ts.
  - rewrite bind_Ok. setoid_rewrite bind_Ok. setoid_rewrite IH. split.
    + intros (t & Ht & ts' & -> & [= <-]). cbn. f_equal.
      case_bool_decide; [by simplify_eq/=|]. case_bool_decide; by simplify_eq/=.
    + destruct ts as [|t ts]; [done|]. intros [= -> ->]. exists t. split; [by destruct t|]. eauto.
Qed.

(** The list is accepted when it has a word, and each word names a target. *)
Lemma parse_targets_iff raw ts :
  parse_targets raw = Ok ts ↔ ts ≠ [] ∧ target_tokens raw = target_name <$> ts.
Proof.
  unfold parse_targets. rewrite bind_Ok. setoid_rewrite targets_of_iff. split.
  - intros ([|t l] & -> & [= <-]). done.
  - intros [Hne ->]. exists ts. split; [done|]. by destruct ts.
Qed.

Section plan.
Context `{W : World} (a : KubeBenchArgs) (cfg : option ClusterConfig).

Definition bench_plan (ts : list BenchTarget) (ip : string) : BenchPlan :=
  mkBenchPlan (mkCpTarget ip (bench_kvm_host a cfg)) (bench_cp_name a cfg) (kube_bench_version a)
    (kb_timeout a) (kb_namespace a) ts (kb_dry_run a).

Definition address : IO ending string :=
  match explicit_ip a cfg with
  | Some ip => mret ip
  | None =>
      if kb_dry_run a then mret "<resolved-at-runtime>"
      else io_map_err returned (resolve_cp_ip (bench_cp_name a cfg) (bench_kvm_host a cfg))
  end.

(** The address in what [virsh domifaddr] prints on this host *)
Definition local_lease (o : outcome) : option string :=
  match o with
  | Done out => match parse_domifaddr out "" with Ok (Some ip) => Some (show_ipv4 ip) | _ => None end
  | _ => None
  end.

(** The address is given, or one question to libvirt is asked for it. *)
Definition addressed (ip : option string) (es : history) : Prop :=
  match explicit_ip a cfg with
  | Some i => ip = Some i ∧ es = []
  | None =>
      if kb_dry_run a then ip = Some "<resolved-at-runtime>" ∧ es = []
      else ∃ e, es = [e] ∧
        match bench_kvm_host a cfg with
        | Some host =>
            ∃ answer, e = EvSsh (new host) (domifaddr_cmd (bench_cp_name a cfg)) None answer
              ∧ ip = lease_of answer
        | None =>
            ∃ o, call_of e = Some (None, virsh_argv ["domifaddr"; bench_cp_name a cfg], o)
              ∧ ip = local_lease o
        end
  end.

Lemma local_lease_answers name o r :
  answers (λ s, parse_domifaddr s (virsh (build_connection None) ("domifaddr " +:+ shell_quote name))) o r →
  local_lease o = match r with Ok (Some ip) => Some (show_ipv4 ip) | _ => None end.
Proof.
  assert (∀ ls c1 c2, match parse_domifaddr_lines ls c1 with Ok (Some ip) => Some (show_ipv4 ip) | _ => None end
    = match parse_domifaddr_lines ls c2 with Ok (Some ip) => Some (show_ipv4 ip) | _ => None end) as Hp.
  { intros ls c1 c2. induction ls as [|l ls IH]; [done|]. cbn [parse_domifaddr_lines].
    destruct (negb _); [exact IH|]. unfold parse_row.
    destruct (split_whitespace l !! _) as [cidr|]; [|done]. cbn. by destruct (parse_ipv4 (before_char _ cidr)). }
  destruct o as [out|k|]; cbn [answers local_lease].
  - intros ->. apply Hp.
  - by intros (? & ? & ->).
  - by intros (? & ->).
Qed.

Lemma does_address : does address (λ r es, addressed (value_of r) es
  ∧ match r with Err e => ∃ err, e = Returns (Err err) | _ => True end).
Proof.
  unfold address, addressed. destruct (explicit_ip a cfg); [by apply does_ret|].
  destruct (kb_dry_run a); [by apply does_ret|]. apply emits_map_err. unfold resolve_cp_ip.
  destruct (bench_kvm_host a cfg) as [host|].
  - unfold resolve_cp_ip_via_ssh. intros h. run_io.
    set (ans := ssh_answer h (new host) (domifaddr_cmd (bench_cp_name a cfg)) None).
    assert (∀ r, acts [EvSsh (new host) (domifaddr_cmd (bench_cp_name a cfg)) None r]
                 = [EvSsh (new host) (domifaddr_cmd (bench_cp_name a cfg)) None r]) as Hacts by done.
    destruct ans as [out|[]] eqn:E; cbn [fst snd app]; rewrite ?app_nil_r;
      try (destruct (parse_first_domifaddr_ipv4 _) as [ip|] eqn:Ep; cbn [fst snd app]; rewrite ?app_nil_r);
      cbn [map_err value_of]; (split; [|done || (by eexists)]);
      eexists; (split; [apply Hacts|]); eexists; (split; [done|]); cbn; done.
  - eapply emits_io_bind with (P := λ r es, ∃ e o r', r = Ok r' ∧ es = [e]
      ∧ call_of e = Some (None, virsh_argv ["domifaddr"; bench_cp_name a cfg], o)
      ∧ answers (λ s, parse_domifaddr s (virsh (build_connection None)
                   ("domifaddr " +:+ shell_quote (bench_cp_name a cfg)))) o r').
    + apply emits_lift. eapply emits_conseq; [apply (sends_call None)|].
      * unfold domifaddr. apply sends_of_result.
        eapply (virsh_words _ _ ["domifaddr"; shell_quote (bench_cp_name a cfg)]);
          [reflexivity|repeat constructor; auto with shell|done].
      * intros r es (e & o & -> & He & Ho). by exists e, o, r.
    + intros r e1 (e & o & ? & [= <-] & -> & He & Ho).
      assert (acts ([e] ++ []) = [e]) as Hacts by (by destruct e).
      apply local_lease_answers in Ho.
      destruct r as [[ip|]|e']; intros h; cbn [fst snd mret IO_ret bail throw map_err value_of];
        rewrite Hacts; (split; [|done || (by eexists)]); exists e; (split; [done|]); by exists o.
    + by intros e e1 (? & ? & ? & [=] & _).
Qed.
End plan.

(** ** A run *)

Section run.
Context `{W : World} (a : KubeBenchArgs) (h : history).

Lemma from_args_run :
  match parse_targets (kb_targets a) with
  | Err msg => from_args a h = (Err (Exits 2), [EvErr ("[run-kube-bench] " +:+ msg)])
  | Ok ts =>
      match config_at (kb_config a) h with
      | None => ∃ err, from_args a h = (Err (Returns (Err err)), [])
      | Some cfg => from_args a h = (ip ← address a cfg; mret (bench_plan a cfg ts ip)) h
      end
  end.
Proof.
  unfold from_args. destruct (parse_targets (kb_targets a)) as [ts|msg]; [|by run_io].
  rewrite (io_bind_ok _ _ ts) by done. unfold config_at.
  destruct (kb_config a) as [path|]; [|by rewrite (io_bind_ok _ _ None)].
  destruct (parse _ path) as [cfg|e] eqn:Hp.
  - rewrite (io_bind_ok _ _ (Some cfg)); [done|]. unfold parse_config. run_io. by rewrite Hp.
  - eexists. apply io_bind_err. unfold parse_config. run_io. by rewrite Hp.
Qed.

Lemma run_ending : run a h = let '(r, es) := (p ← from_args a; run_plan p) h in (ending_of r, es).
Proof.
  unfold run. cbv [mbind M_bind catch mret M_ret].
  match goal with |- context [IO_bind ?E ?A ?B ?f ?m h] => destruct (IO_bind E A B f m h) as [r es] end.
  by rewrite app_nil_r.
Qed.

Lemma does_dry p : dry_run p = true → does (run_plan p) (λ r es, r = Ok tt ∧ es = []).
Proof.
  intros Hd. unfold run_plan. do 4 apply does_eprintln. rewrite Hd. apply does_each.
Qed.

Lemma does_planned cfg ts :
  does (p ← (ip ← address a cfg; mret (bench_plan a cfg ts ip)); run_plan p) (λ r es,
    ∃ ip e1, addressed a cfg ip e1 ∧
      match ip with
      | None => (∃ err, ending_of r = Returns (Err err)) ∧ es = e1
      | Some ip =>
          if kb_dry_run a then ending_of r = Returns (Ok tt) ∧ es = []
          else ∃ e2, bench_calls (bench_plan a cfg ts ip) (ending_of r) e2 ∧ es = e1 ++ e2
      end).
Proof.
  eapply does_bind with (P := λ r es, match r with
    | Ok p => ∃ ip, p = bench_plan a cfg ts ip ∧ addressed a cfg (Some ip) es
    | Err e => addressed a cfg None es ∧ ∃ err, e = Returns (Err err)
    end).
  - eapply does_bind; [apply does_address| |].
    + intros ip e1 [H1 _]. apply does_ret. rewrite app_nil_r. by exists ip.
    + by intros e e1 H1.
  - intros p e1 (ip & -> & H1). destruct (kb_dry_run a) eqn:Hd.
    + eapply does_conseq; [by apply does_dry|]. intros r es [-> ->]. exists (Some ip), e1.
      split; [done|]. split; [done|]. rewrite app_nil_r.
      unfold addressed in H1. rewrite Hd in H1. by destruct (explicit_ip a cfg); destruct H1.
    + eapply does_conseq; [by apply does_bench|]. intros r e2 H2. exists (Some ip), e1.
      split; [done|]. by exists e2.
  - intros e e1 [H1 He]. by exists None, e1.
Qed.

(** What a run did, from its result and its events *)
Definition bench_run (e : ending) (es : history) : Prop :=
  match parse_targets (kb_targets a) with
  | Err _ => e = Exits 2 ∧ acts es = []
  | Ok ts =>
      match config_at (kb_config a) h with
      | None => (∃ err, e = Returns (Err err)) ∧ acts es = []
      | Some cfg =>
          ∃ ip e1, addressed a cfg ip e1 ∧
          match ip with
          | None => (∃ err, e = Returns (Err err)) ∧ acts es = e1
          | Some ip =>
              if kb_dry_run a then e = Returns (Ok tt) ∧ acts es = []
              else ∃ e2, bench_calls (bench_plan a cfg ts ip) e e2 ∧ acts es = e1 ++ e2
          end
      end
  end.

Lemma bench_spec : let '(e, es) := run a h in bench_run e es.
Proof.
  unfold bench_run. rewrite run_ending. pose proof from_args_run as Hf.
  destruct (parse_targets (kb_targets a)) as [ts|msg]; [|by rewrite (io_bind_err _ _ _ _ _ Hf)].
  destruct (config_at (kb_config a) h) as [cfg|].
  - assert (∀ m m' : IO ending BenchPlan, m h = m' h →
      (p ← m; run_plan p) h = (p ← m'; run_plan p) h) as Hm.
    { intros m m' E. unfold mbind, IO_bind. by rewrite E. }
    rewrite (Hm _ _ Hf). pose proof (does_planned cfg ts h) as H.
    by destruct ((p ← (ip ← address a cfg; mret (bench_plan a cfg ts ip)); run_plan p) h).
  - destruct Hf as [err Hf]. rewrite (io_bind_err _ _ _ _ _ Hf). by split; [exists err|].
Qed.
End run.

(** ** The dry run *)

(** The [kubectl] commands of a run *)
Definition kubectl_of (e : event) : option string :=
  match e with
  | EvSsh _ cmd _ _ => strip_prefix "kubectl --kubeconfig=/etc/kubernetes/admin.conf " cmd
  | _ => None
  end.
Definition kubectl_commands (es : history) : list string := omap kubectl_of es.

(** The commands that the lines of a dry run announce *)
Definition announced_line (line : string) : option string :=
  match strip_prefix "DRY-RUN would run: kubectl " line with
  | Some cmd => Some cmd
  | None => strip_prefix "DRY-RUN cleanup:   kubectl " line
  end.
Definition announced_of (e : event) : option string :=
  match e with
  | EvErr line => strip_prefix "[run-kube-bench] " line ≫= announced_line
  | _ => None
  end.
Definition announced (es : history) : list string := omap announced_of es.

(** What a run without errors sends, in order *)
Definition job_commands (p : BenchPlan) (t : BenchTarget) : list string :=
  [wipe_cmd p (job_name t); apply_cmd p (job_url t (version p)); wait_cmd p (job_name t);
   logs_cmd p (job_name t)].
Definition bench_commands (p : BenchPlan) : list string :=
  [version_cmd; nodes_cmd] ++ (targets p ≫= job_commands p)
  ++ ((λ t, cleanup_cmd p (job_name t)) <$> targets p).

Lemma kubectl_commands_app es1 es2 :
  kubectl_commands (es1 ++ es2) = kubectl_commands es1 ++ kubectl_commands es2.
Proof. apply omap_app. Qed.

Lemma kubectl_commands_acts es : kubectl_commands (acts es) = kubectl_commands es.
Proof.
  unfold kubectl_commands, acts. induction es as [|e es IH]; [done|]. cbn [omap list_omap].
  destruct (decide (is_Some (step_of e))) as [He|He].
  - rewrite filter_cons_True by done. cbn [omap list_omap]. by rewrite IH.
  - rewrite filter_cons_False by done. rewrite IH. destruct e; try done; by destruct He.
Qed.

Lemma asked_command o cmd x es : asked o cmd x es → shell_safe cmd → kubectl_commands es = [cmd].
Proof.
  intros H Hs. destruct (asked_sent _ _ _ _ _ Hs H) as (a & -> & _). cbn [kubectl_commands omap list_omap kubectl_of].
  unfold remote_kubectl. by rewrite strip_prefix_app.
Qed.
Section commands.
Context `{W : World} (p : BenchPlan).

Definition ns_safe : Prop := shell_safe (ns_flag p).
Lemma wipe_safe t : ns_safe → shell_safe (wipe_cmd p (job_name t)).
Proof. intros Hs. apply shell_safe_app; [done..|]. by destruct t. Qed.
Lemma cleanup_safe t : ns_safe → shell_safe (cleanup_cmd p (job_name t)).
Proof. intros Hs. apply shell_safe_app; [done..|]. by destruct t. Qed.
Lemma logs_safe t : ns_safe → shell_safe (logs_cmd p (job_name t)).
Proof. intros Hs. apply shell_safe_app; [done..|]. by destruct t. Qed.

Lemma target_commands t block es :
  target_calls p t (Some block) es → ns_safe ∧ kubectl_commands es = job_commands p t.
Proof.
  intros H. inversion H as [| | |w r s l e1 e2 e3 e4 H1 H2 [out [-> _]] H3 [out' [-> _]] H4]; subst.
  assert (ns_safe) as Hs by (eapply shell_safe_l, asked_some, H2).
  split; [done|]. rewrite !kubectl_commands_app.
  rewrite (asked_command _ _ _ _ H1), (asked_command _ _ _ _ H2), (asked_command _ _ _ _ H3),
    (asked_command _ _ _ _ H4); eauto using asked_some, wipe_safe, logs_safe.
Qed.

Lemma targets_commands ts started logs es :
  targets_calls p ts started (Some logs) es →
  started = ts ∧ (ts ≠ [] → ns_safe) ∧ kubectl_commands es = (ts ≫= job_commands p).
Proof.
  intros H. remember (Some logs) as l eqn:E. revert logs E.
  induction H as [| |t ts block started l e1 e2 H1 H2 IH]; intros logs E; [done..|].
  destruct l as [l|]; [|done]. destruct (IH l eq_refl) as (-> & _ & Hc).
  apply target_commands in H1 as [Hs H1]. split; [done|]. split; [done|].
  rewrite kubectl_commands_app, H1, Hc. done.
Qed.

Lemma cleaned_commands ts es :
  (ts ≠ [] → ns_safe) → cleaned p ts es → kubectl_commands es = (λ t, cleanup_cmd p (job_name t)) <$> ts.
Proof.
  intros Hs H. induction H as [|t ts x e1 e2 H1 H2 IH]; [done|]. assert ns_safe as Hn by by apply Hs.
  rewrite kubectl_commands_app, IH by auto. rewrite (asked_command _ _ _ _ H1); [done|by apply cleanup_safe].
Qed.

Lemma run_commands es : bench_calls p (Returns (Ok tt)) es → kubectl_commands es = bench_commands p.
Proof.
  intros H. inversion H as [|v n logs e1 e2 e3 e H1 _ H2 (started & e4 & e5 & H4 & H5 & ->) He]; subst.
  destruct logs as [l|]; [|by destruct He]. apply targets_commands in H4 as (-> & Hs & H4).
  rewrite !kubectl_commands_app, H4, (cleaned_commands _ _ Hs H5).
  by rewrite (asked_command _ _ _ _ H1), (asked_command _ _ _ _ H2).
Qed.

Lemma plan_announces : omap announced_line (render_dry_run_plan p) = bench_commands p.
Proof.
  unfold render_dry_run_plan, bench_commands. rewrite !omap_app. f_equal. f_equal.
  - induction (targets p) as [|t ts IH]; [done|]. cbn [mbind list_bind]. by rewrite omap_app, IH.
  - induction (targets p) as [|t ts IH]; [done|]. cbn [fmap list_fmap omap list_omap]. by rewrite IH.
Qed.
End commands.

Definition with_dry_run (a : KubeBenchArgs) : KubeBenchArgs :=
  mkKubeBenchArgs (kb_config a) (kb_cp_name a) (kb_kvm_host a) (kb_cp_ip a) (kube_bench_version a)
    (kb_timeout a) (kb_namespace a) (kb_targets a) true.

Lemma log_bind {E B} line (m : IO E B) h :
  (_ ← log line; m) h
  = let '(r, es) := m (h ++ [EvErr ("[run-kube-bench] " +:+ line)]) in
    (r, EvErr ("[run-kube-bench] " +:+ line) :: es).
Proof. unfold mbind, IO_bind, log, lift, eprintln, emit. by destruct (m _). Qed.

Lemma log_each {E} (ls : list string) h :
  (for_each log ls : IO E unit) h = (Ok tt, (λ l, EvErr ("[run-kube-bench] " +:+ l)) <$> ls).
Proof.
  revert h. induction ls as [|l ls IH]; intros h; [done|].
  cbn [for_each]. by rewrite log_bind, IH.
Qed.

Lemma announced_lines ls :
  announced ((λ l, EvErr ("[run-kube-bench] " +:+ l)) <$> ls) = omap announced_line ls.
Proof.
  unfold announced. induction ls as [|l ls IH]; [done|]. cbn [fmap list_fmap omap list_omap announced_of].
  rewrite strip_prefix_app. cbn [mbind option_bind]. by rewrite IH.
Qed.

Lemma dry_plan_run `{World} p h :
  dry_run p = true → ∃ es, run_plan p h = (Ok tt, es) ∧ announced es = bench_commands p.
Proof.
  intros Hd. eexists. split.
  - unfold run_plan. rewrite Hd, !log_bind, log_each. reflexivity.
  - cbn [app announced omap list_omap announced_of]. rewrite !strip_prefix_app.
    cbn [mbind option_bind]. fold (announced ((λ l, EvErr ("[run-kube-bench] " +:+ l)) <$> render_dry_run_plan p)).
    rewrite announced_lines. apply plan_announces.
Qed.

Lemma run_with_dry_run `{World} a h ts cfg :
  parse_targets (kb_targets a) = Ok ts → config_at (kb_config a) h = Some cfg →
  ∃ ip es, run (with_dry_run a) h = (Returns (Ok tt), es)
    ∧ announced es = bench_commands (bench_plan (with_dry_run a) cfg ts ip).
Proof.
  intros Hts Hcfg. rewrite run_ending. pose proof (from_args_run (with_dry_run a) h) as Hf.
  cbn [kb_targets kb_config with_dry_run] in Hf. rewrite Hts, Hcfg in Hf.
  assert (∃ ip, address (with_dry_run a) cfg = mret ip) as [ip Hip].
  { unfold address. destruct (explicit_ip _ _); by eexists. }
  rewrite Hip in Hf. destruct (dry_plan_run (bench_plan (with_dry_run a) cfg ts ip) h eq_refl) as (es & Hr & Ha).
  exists ip, es. rewrite (io_bind_ok _ _ _ _ Hf). by rewrite Hr.
Qed.

Section theorems.
Context `{World} (a : KubeBenchArgs) (h : history).

(** C23: [hbird kube-bench], its calls and its exit code.  An unusable list of
    targets exits with 2 before anything is done, and so does a cluster that
    [kubectl version] does not reach; an unreadable config, an address that
    cannot be found, or a Job that is not applied, not complete in time or
    without logs is an error.  The Jobs are run one after the other until one
    fails, and whatever happened to them, every Job that was started is deleted
    at the end.  A dry run never asks anything. *)
Theorem kube_bench_run : let '(e, es) := run a h in bench_run a h e es.
Proof. apply bench_spec. Qed.

(** What [--dry-run] announces is what a run does: when a run succeeds, the
    same call with [--dry-run] succeeds without asking anything, and the
    commands it announces are the [kubectl] commands that the run sent, one for
    one and in order. *)
Theorem dry_run_is_the_plan :
  kb_dry_run a = false → (run a h).1 = Returns (Ok tt) →
  let '(e, es) := run (with_dry_run a) h in
  e = Returns (Ok tt) ∧ acts es = [] ∧ announced es = kubectl_commands (run a h).2.
Proof.
  intros Hd He. pose proof (bench_spec a h) as Hl. pose proof (bench_spec (with_dry_run a) h) as Hdry.
  destruct (run a h) as [e es]. cbn [fst snd] in *. subst e. unfold bench_run in Hl, Hdry.
  cbn [kb_targets kb_config kb_dry_run with_dry_run] in Hdry.
  destruct (parse_targets _) as [ts|] eqn:Hts; [|by destruct Hl].
  destruct (config_at _ h) as [cfg|] eqn:Hcfg; [|by destruct Hl as [[? ?] _]].
  destruct (run_with_dry_run a h ts cfg Hts Hcfg) as (ip' & es' & Hr & Ha). rewrite Hr in Hdry |- *.
  split; [done|]. split; [destruct Hdry as ([] & ? & _ & ?); naive_solver|]. rewrite Ha.
  destruct Hl as ([ip|] & e1 & H1 & Hl); [|by destruct Hl as [[? ?] _]]. rewrite Hd in Hl.
  destruct Hl as (e2 & Hb & Hes). rewrite <-kubectl_commands_acts, Hes, kubectl_commands_app.
  rewrite (run_commands _ _ Hb). unfold addressed in H1. rewrite Hd in H1.
  assert (kubectl_commands e1 = []) as ->; [|done].
  destruct (explicit_ip a cfg); [by destruct H1 as [_ ->]|]. destruct H1 as (e & -> & H1).
  destruct (bench_kvm_host a cfg); [by destruct H1 as (? & -> & _)|].
  destruct H1 as (o & He & _). destruct e as [| | | |? ? [] ?| | | | |]; try done.
  cbn [call_of] in He. by destruct (shell_words _).
Qed.
End theorems.

(** ** Concrete runs *)

(** A cluster where a Job completes unless [bad] is part of the command; the
    control plane's address is asked for over [ssh]. *)
Definition bench_world (bad : string) : World := {|
  ssh_answer _ o cmd _ :=
    if contains "domifaddr" cmd
    then Ok (mkRunOutput (Exited 0) (" vnet0 52:54:00:aa:bb:cc ipv4 192.168.122.10/24" +:+ NL) "")
    else if contains bad cmd then Err (NonZeroExit (host o) (Exited 1) "" "timed out")
    else if contains "logs job" cmd
    then Ok (mkRunOutput (Exited 0)
               ("[PASS] 1.1" +:+ NL +:+ "[FAIL] 1.2" +:+ NL +:+ "1 checks FAIL" +:+ NL +:+ NL) "")
    else Ok (mkRunOutput (Exited 0) "" "");
  local_answer _ _ := Err (IoError "unused");
  stdout_answer _ _ := Ok tt;
  stderr_answer _ _ := Ok tt;
  file_answer _ _ := Err (IoError "unused");
  fs_answer _ _ := Ok tt;
|}.
Definition bench_args : KubeBenchArgs :=
  mkKubeBenchArgs None (Some "cp1") (Some "geary") None "v0.15.5" "5m" "default" "master node" false.

Lemma dry_run_is_the_plan_witness :
  let '(e, es) := @run (bench_world "nothing") (with_dry_run bench_args) [] in
  e = Returns (Ok tt) ∧ acts es = []
  ∧ announced es = kubectl_commands (@run (bench_world "nothing") bench_args []).2.
Proof.
  apply (@dry_run_is_the_plan (bench_world "nothing") bench_args []); [reflexivity|].
  vm_compute. reflexivity.
Defined.

Example whole_run_commands :
  kubectl_commands (@run (bench_world "nothing") bench_args []).2 = [
    "version --request-timeout=10s";
    "get nodes -l node-role.kubernetes.io/control-plane -o name";
    "-n default delete job kube-bench-master --ignore-not-found=true";
    "-n default apply -f https://raw.githubusercontent.com/aquasecurity/kube-bench/v0.15.5/job-master.yaml";
    "-n default wait --for=condition=complete --timeout=5m job/kube-bench-master";
    "-n default logs job/kube-bench-master";
    "-n default delete job kube-bench-node --ignore-not-found=true";
    "-n default apply -f https://raw.githubusercontent.com/aquasecurity/kube-bench/v0.15.5/job-node.yaml";
    "-n default wait --for=condition=complete --timeout=5m job/kube-bench-node";
    "-n default logs job/kube-bench-node";
    "-n default delete job kube-bench-master --ignore-not-found=true --wait=false";
    "-n default delete job kube-bench-node --ignore-not-found=true --wait=false"].
Proof. vm_compute. done. Qed.

(** The first Job does not complete: the second is not started, and the first is
    deleted. *)
Example timed_out_job_is_deleted :
  let '(e, es) := @run (bench_world "condition=complete") bench_args [] in
  e = Returns (Err (anyhow_msg "[master] FAIL: Job did not complete within 5m"))
  ∧ last (kubectl_commands es) = Some "-n default delete job kube-bench-master --ignore-not-found=true --wait=false"
  ∧ length (kubectl_commands es) = 8%nat.
Proof. vm_compute. done. Qed.

Example target_lists :
  parse_targets "master,node" = Ok [Master; Node]
  ∧ parse_targets " node " = Ok [Node]
  ∧ parse_targets "master,etcd" = Err "FAIL: unknown target 'etcd' (expected master or node)"
  ∧ parse_targets " , " = Err "FAIL: no targets requested (expected master and/or node)".
Proof. vm_compute. done. Qed.
