(* ===== verification/Verify.v ===== *)
(** * hbird verify

    [crates/hbird-cli/src/commands/verify.rs]: the plan with its detection of the
    KVM host, the verifier of the encryption, the four hardening checks, the
    app-deploy smoke test with the [Drop] of its namespace, and the chain of all
    three.  [NamespaceCleanup] is modelled as what it is: the command runs when
    the block that owns it is left, on every path.  verify.rs has its own copies
    of [shell_single_quote] and [parse_first_domifaddr_ipv4], the same text as
    in cp_resolve.rs: Cp.v's definitions stand for both. *)

From S2P Require Import Prelude RustStr ConfigTypes ConfigLexer ConfigBuild SshOptions SshClient.
From S2P Require Import Effects VirtUri Shell VirtParse VirtConn Cp Host.

(** [SystemTime::now().duration_since(UNIX_EPOCH)] in seconds, 0 for a clock
    that is set before the epoch *)
Class WallClock : Type := { epoch_secs : history → N }.

(** ** Am I on the KVM host? *)

Section world.
Context `{W : World} `{Host} `{WallClock}.

(** The trimmed output of a program that exits with 0 and prints something *)
Definition hostname_by {E} (argv : list string) : IO E (option string) :=
  r ← try (local_run argv);
  mret match (r : result io_error RunOutput) with
       | Ok out =>
           if success (status out) then
             let s := trim (stdout_lossy out) in if is_empty s then None else Some s
           else None
       | Err _ => None
       end.

Definition current_short_hostname {E} : IO E (option string) :=
  s ← hostname_by ["hostname"; "-s"];
  match (s : option string) with Some s => mret (Some s) | None => hostname_by ["hostname"] end.

Definition hostname_matches_kvm_host (local_hostname kvm_host : string) : bool :=
  if is_empty kvm_host || is_empty local_hostname then false
  else bool_decide (local_hostname = before_char "." kvm_host).

Definition running_on_kvm_host_with {E} (kvm_host : string) (local_source : IO E (option string))
    : IO E bool :=
  local ← local_source;
  mret match (local : option string) with
       | Some local => hostname_matches_kvm_host local kvm_host
       | None => false
       end.
Definition running_on_kvm_host {E} (kvm_host : string) : IO E bool :=
  running_on_kvm_host_with kvm_host current_short_hostname.

Record VerifyCommonArgs : Set := mkVerifyCommonArgs {
  vf_config : option string;
  vf_cp_name : option string;
  vf_kvm_host : option string;
  vf_cp_ip : option string;
  (** not looked at *)
  vf_kubectl : option string;
}.
Inductive VerifySubcommand : Set :=
| Encryption (a : VerifyCommonArgs)
| Hardening (a : VerifyCommonArgs)
| AppDeploy (a : VerifyCommonArgs)
| All (a : VerifyCommonArgs).

Definition log {E} (prefix line : string) : IO E unit := lift (eprintln (prefix +:+ " " +:+ line)).

(** ** The plan *)

Record VerifyPlan : Set := mkVerifyPlan { vp_target : CpTarget; vp_cp_name : string }.

(** [hbird_config::parse(path)] *)
Definition config_file (path : string) : IO ConfigTypes.Error ClusterConfig :=
  raw ← try (read_to_string path);
  of_result (parse (λ _, raw) path).

Definition could_not_resolve (cp_name : string) : string :=
  "resolve_cp_ip: could not resolve IPv4 for domain '" +:+ cp_name +:+ "'. "
  +:+ "Set CP_IP=<ip> in your CONFIG, or export KVM_HOST=<ssh-alias> "
  +:+ "so we can query libvirt on the KVM host via SSH (workstation "
  +:+ "operators without local libvirt), or run from the KVM host "
  +:+ "with virsh installed.".

Definition resolve_cp_ip_via_kvm_host (cp_name : string) (kvm_host : option string) : IO anyhow string :=
  match kvm_host with
  | None => bail (could_not_resolve cp_name)
  | Some host =>
      let cmd := "virsh -c qemu:///system domifaddr " +:+ shell_single_quote cp_name in
      out ← try (ssh_run (new host) cmd None);
      raw ← match (out : result SshError RunOutput) with
            | Ok out => mret (stdout_lossy out)
            | Err (NonZeroExit _ _ stdout _) => mret stdout
            | Err e =>
                bail ("resolve_cp_ip: ssh-to-KVM-host failed for `" +:+ cmd +:+ "` against " +:+ host
                      +:+ ": " +:+ show_ssh_error e)
            end;
      match parse_first_domifaddr_ipv4 raw with
      | Some ip => mret ip
      | None => bail (could_not_resolve cp_name)
      end
  end.

(** What the arguments and the config say *)
Definition verify_cp_name (a : VerifyCommonArgs) (c : option ClusterConfig) : string :=
  default "hummingbird-k8s" (or_else (vf_cp_name a) (cp_name <$> c)).
Definition resolved_kvm_host (a : VerifyCommonArgs) (c : option ClusterConfig) : option string :=
  non_empty (or_else (vf_kvm_host a) (c ≫= kvm_host)).
Definition verify_cp_ip (a : VerifyCommonArgs) (c : option ClusterConfig) : option string :=
  or_else (non_empty (vf_cp_ip a)) (non_empty (c ≫= cp_ip)).

Definition from_args_with (a : VerifyCommonArgs) (local_hostname_source : IO anyhow (option string))
    : IO anyhow VerifyPlan :=
  config ← match vf_config a with
           | Some path =>
               c ← io_map_err (λ e, mkAnyhow ["verify: failed to parse --config " +:+ path] (RConfig e))
                     (config_file path);
               mret (Some c)
           | None => mret None
           end;
  let cp_name := verify_cp_name a config in
  kvm_host ← match resolved_kvm_host a config with
             | Some host =>
                 here ← running_on_kvm_host_with host local_hostname_source;
                 if (here : bool) then
                   _ ← lift (eprintln ("[verify] already on KVM_HOST (" +:+ host
                                       +:+ "); dropping ProxyJump for direct CP SSH (#353/#362)"));
                   mret None
                 else mret (Some host)
             | None => mret None
             end;
  cp_ip ← match verify_cp_ip a config with
          | Some ip => mret ip
          | None => resolve_cp_ip_via_kvm_host cp_name kvm_host
          end;
  mret (mkVerifyPlan (mkCpTarget cp_ip kvm_host) cp_name).

Definition from_args (a : VerifyCommonArgs) : IO anyhow VerifyPlan :=
  from_args_with a current_short_hostname.

(** ** Encryption *)

(** [for line in text.lines() { .. }], which prints nothing for an empty text *)
Definition print_lines {E} (p : string → M unit) (text : string) : IO E unit :=
  lift (for_each_M p (lines text)).

Definition encryption_cmd : string :=
  match env_var "EXPECTED_PREFIX" with
  | Some p => "EXPECTED_PREFIX=" +:+ shell_single_quote p +:+ " /usr/libexec/verify-encryption.sh"
  | None => "/usr/libexec/verify-encryption.sh"
  end.

Definition run_verify_encryption (p : VerifyPlan) : IO anyhow unit :=
  let ip := cp_ip_ (vp_target p) in
  _ ← log "[verify-encryption]"
        ("remote mode: ssh root@" +:+ ip
         +:+ match target_kvm_host (vp_target p) with Some h => " via " +:+ h | None => "" end);
  out ← io_map_err (context ("verify-encryption: ssh to root@" +:+ ip +:+ " failed"))
          (cp_ssh_lenient (vp_target p) encryption_cmd);
  _ ← print_lines eprintln (ce_stderr out);
  _ ← print_lines println (ce_stdout out);
  if negb (ce_success out) then
    bail ("[verify-encryption] FAIL: remote /usr/libexec/verify-encryption.sh on " +:+ ip
          +:+ " failed — see [verify-encryption] FAIL: lines above for the "
          +:+ "specific class (etcd unreachable / could not read key / secret stored plaintext)")
  else mret tt.

(** ** Hardening *)

Definition HARDENING : string := "[verify-hardening]".

Definition privileged_manifest : string := text_of [
  "apiVersion: v1"; "kind: Pod"; "metadata:"; "  name: verify-hardening-privileged-probe";
  "  namespace: default"; "spec:"; "  hostPID: true"; "  containers:"; "  - name: x";
  "    image: busybox"; "    securityContext:"; "      privileged: true"].

Definition delete_probe_cmd : string :=
  "-n default delete pod verify-hardening-privileged-probe --ignore-not-found=true --wait=false".

(** Did PodSecurity reject the pod? *)
Definition psa_rejected (out : CpExecOutput) : bool :=
  negb (ce_success out) && contains "violates PodSecurity" (ce_stdout out +:+ NL +:+ ce_stderr out).

Definition check_podsecurity_rejects_privileged (p : VerifyPlan) : IO anyhow bool :=
  _ ← log HARDENING "check 1/3: PodSecurity restricted rejects a privileged pod";
  out ← cp_kubectl_with_stdin_lenient (vp_target p) "apply -f -" privileged_manifest;
  _ ← (try (cp_kubectl_raw (vp_target p) delete_probe_cmd) : IO anyhow (result anyhow RunOutput));
  let combined := ce_stdout out +:+ NL +:+ ce_stderr out in
  if psa_rejected out then
    _ ← log HARDENING "  PASS: privileged pod rejected by PodSecurity";
    mret true
  else
    _ ← log HARDENING
          (if ce_success out
           then "  FAIL: privileged pod was NOT rejected (kubectl exit 0 — PSA may be misconfigured)"
           else "  FAIL: privileged pod was rejected but marker missing — apiserver wording may have changed");
    _ ← log HARDENING ("  apiserver output: " +:+ combined);
    mret false.

Definition audit_log_cmd : string :=
  "for p in /var/log/kubernetes/k8s-audit.log /var/log/k8s-audit.log; do if [ -s " +:+ DQ +:+ "$p"
  +:+ DQ +:+ " ]; then printf " +:+ DQ +:+ "OK %s\n" +:+ DQ +:+ " " +:+ DQ +:+ "$p" +:+ DQ
  +:+ "; exit 0; fi; done; exit 1".

(** The line that the check accepts *)
Definition audit_line (out : CpExecOutput) : option string :=
  if ce_success out then head (lines (ce_stdout out)) else None.

Definition check_apiserver_audit_log_nonempty (p : VerifyPlan) : IO anyhow bool :=
  _ ← log HARDENING "check 2/3: apiserver audit log is non-empty on the CP host";
  out ← cp_ssh_lenient (vp_target p) audit_log_cmd;
  match audit_line out with
  | Some line =>
      _ ← log HARDENING ("  PASS: audit log present (" +:+ default line (strip_prefix "OK " line) +:+ ")");
      mret true
  | None =>
      _ ← log HARDENING "  FAIL: audit log missing or empty";
      _ ← log HARDENING ("  expected /var/log/kubernetes/k8s-audit.log (post-#50) "
                         +:+ "or /var/log/k8s-audit.log");
      mret false
  end.

Definition kubelet_cmd (flag : string) : string :=
  "ps -ef | grep -- '" +:+ flag +:+ "' | grep -v grep | head -1".

Definition has_line (out : CpExecOutput) : bool :=
  ce_success out && negb (is_empty (trim (ce_stdout out))).

(** Both kubelet checks, which differ in their number, their flag and a note *)
Definition check_kubelet_flag (announce flag : string) (p : VerifyPlan) : IO anyhow bool :=
  _ ← log HARDENING announce;
  out ← cp_ssh_lenient (vp_target p) (kubelet_cmd flag);
  if has_line out then
    _ ← log HARDENING ("  PASS: kubelet has " +:+ flag); mret true
  else
    _ ← log HARDENING ("  FAIL: kubelet is not running with " +:+ flag); mret false.

Definition check_kubelet_protect_kernel_defaults : VerifyPlan → IO anyhow bool :=
  check_kubelet_flag "check 3/4: kubelet running with --protect-kernel-defaults=true"
    "--protect-kernel-defaults=true".
Definition check_kubelet_rotate_certificates : VerifyPlan → IO anyhow bool :=
  check_kubelet_flag "check 4/4: kubelet running with --rotate-certificates=true (#121)"
    "--rotate-certificates=true".

Definition label (ok : bool) : string := if ok then "PASS" else "FAIL".

Definition run_verify_hardening (p : VerifyPlan) : IO anyhow unit :=
  _ ← log HARDENING ("CP_IP=" +:+ cp_ip_ (vp_target p));
  ps_ok ← check_podsecurity_rejects_privileged p;
  audit_ok ← check_apiserver_audit_log_nonempty p;
  kubelet_ok ← check_kubelet_protect_kernel_defaults p;
  rotate_ok ← check_kubelet_rotate_certificates p;
  _ ← lift (println "");
  _ ← lift (println "[verify-hardening] summary");
  _ ← lift (println ("  PodSecurity restricted    : " +:+ label ps_ok));
  _ ← lift (println ("  apiserver audit log       : " +:+ label audit_ok));
  _ ← lift (println ("  kubelet protect-kernel    : " +:+ label kubelet_ok));
  _ ← lift (println ("  kubelet rotate-certs      : " +:+ label rotate_ok));
  if ps_ok && audit_ok && kubelet_ok && rotate_ok then
    lift (println "[verify-hardening] all checks PASSED")
  else
    _ ← lift (println "[verify-hardening] one or more checks FAILED");
    bail "verify-hardening: one or more checks FAILED".

(** ** App-deploy *)

Definition APP : string := "[verify-app-deploy]".

Definition nginx_manifest : string := text_of [
  "apiVersion: apps/v1"; "kind: Deployment"; "metadata:"; "  name: nginx"; "spec:"; "  replicas: 1";
  "  selector:"; "    matchLabels:"; "      app: nginx"; "  template:"; "    metadata:"; "      labels:";
  "        app: nginx"; "    spec:"; "      automountServiceAccountToken: false"; "      containers:";
  "      - name: nginx"; "        image: nginxinc/nginx-unprivileged:stable"; "        ports:";
  "        - containerPort: 8080"; "        securityContext:"; "          runAsNonRoot: true";
  "          allowPrivilegeEscalation: false"; "          capabilities:"; "            drop: [ALL]";
  "          seccompProfile:"; "            type: RuntimeDefault"; "---"; "apiVersion: v1";
  "kind: Service"; "metadata:"; "  name: nginx"; "spec:"; "  selector:"; "    app: nginx"; "  ports:";
  "  - port: 8080"; "    targetPort: 8080"].

(** JSON with ["@"] for the double quotes *)
Fixpoint quoted (s : string) : string :=
  match s with
  | EmptyString => ""
  | String a s' => (if Ascii.eqb a "@" then DQ else chr a) +:+ quoted s'
  end.
Definition overrides : string := quoted
  "{@spec@:{@automountServiceAccountToken@:false,@containers@:[{@name@:@probe@,@image@:@busybox:stable@,@stdin@:true,@command@:[@sh@,@-c@,@wget -qO- http://nginx:8080@],@securityContext@:{@runAsNonRoot@:true,@runAsUser@:65534,@allowPrivilegeEscalation@:false,@capabilities@:{@drop@:[@ALL@]},@seccompProfile@:{@type@:@RuntimeDefault@}}}]}}".

Definition create_ns_cmd (ns : string) : string := "create ns " +:+ ns.
Definition apply_nginx_cmd (ns : string) : string := "apply -n " +:+ ns +:+ " -f -".
Definition wait_nginx_cmd (ns : string) : string :=
  "-n " +:+ ns +:+ " wait --for=condition=available --timeout=2m deployment/nginx".
Definition events_cmd (ns : string) : string := "-n " +:+ ns +:+ " get events --sort-by=.lastTimestamp".
Definition probe_cmd (ns : string) : string :=
  "run probe -n " +:+ ns +:+ " --rm -i --restart=Never --image=busybox:stable --overrides="
  +:+ shell_single_quote overrides.
Definition delete_ns_cmd (ns : string) : string := "delete ns " +:+ ns +:+ " --wait=false --ignore-not-found".

(** [Drop for NamespaceCleanup] *)
Definition drop_namespace {E} (t : CpTarget) (ns : string) : IO E unit :=
  _ ← lift (eprintln ("[verify-app-deploy] cleanup: deleting namespace " +:+ ns));
  _ ← (try (cp_kubectl_raw t (delete_ns_cmd ns)) : IO E (result anyhow RunOutput));
  mret tt.

(** A block whose owned value is dropped when it is left, with [?] or at its end *)
Definition with_drop {E A} (dropped : IO E unit) (block : IO E A) : IO E A :=
  r ← try block;
  _ ← dropped;
  of_result r.

(** The block of [run_verify_app_deploy] after [_cleanup] *)
Definition app_deploy_in (t : CpTarget) (ns : string) : IO anyhow unit :=
  _ ← log APP ("creating namespace " +:+ ns);
  _ ← io_map_err (context ("verify-app-deploy: failed to create namespace " +:+ ns))
        (cp_kubectl_raw t (create_ns_cmd ns));
  _ ← log APP ("applying nginx Deployment + Service in " +:+ ns);
  applied ← cp_kubectl_with_stdin_lenient t (apply_nginx_cmd ns) nginx_manifest;
  if negb (ce_success applied) then
    bail ("verify-app-deploy: kubectl apply failed." +:+ NL +:+ "--- stdout ---" +:+ NL
          +:+ ce_stdout applied +:+ NL +:+ "--- stderr ---" +:+ NL +:+ ce_stderr applied)
  else
    _ ← log APP "waiting up to 2m for deployment/nginx to become Available";
    waited ← try (cp_kubectl_raw t (wait_nginx_cmd ns));
    if negb (is_ok (waited : result anyhow RunOutput)) then
      _ ← log APP "FAIL: deployment/nginx did not become Available";
      _ ← log APP "  recent events:";
      events ← try (cp_kubectl_raw t (events_cmd ns));
      _ ← match (events : result anyhow RunOutput) with
          | Ok out => lift (eprint (stdout_lossy out))
          | Err _ => mret tt
          end;
      bail "verify-app-deploy: deployment/nginx did not become Available"
    else
      _ ← log APP "probing http://nginx:8080 from an in-cluster busybox pod";
      probe ← cp_kubectl_with_stdin_lenient t (probe_cmd ns) "";
      let combined := ce_stdout probe +:+ NL +:+ ce_stderr probe in
      if negb (ce_success probe) then
        _ ← log APP "FAIL: probe pod exited non-zero";
        _ ← lift (eprintln combined);
        bail "verify-app-deploy: probe pod exited non-zero"
      else if contains "Welcome to nginx" combined then
        _ ← log APP "PASS: nginx returned the welcome page over ClusterIP";
        log APP "verify-app-deploy: PASS"
      else
        _ ← log APP "FAIL: probe did not see the nginx welcome page";
        _ ← log APP "  probe output:";
        _ ← lift (eprintln combined);
        bail "verify-app-deploy: probe did not see the nginx welcome page".

Definition run_verify_app_deploy (p : VerifyPlan) : IO anyhow unit :=
  epoch ← ask epoch_secs;
  let ns := "smoketest-" +:+ show_N epoch in
  with_drop (drop_namespace (vp_target p) ns) (app_deploy_in (vp_target p) ns).

(** ** [run] *)

Definition resolved_kvm_host_for_onhost_skip {E} (a : VerifyCommonArgs) : IO E (option string) :=
  match non_empty (vf_kvm_host a) with
  | Some h => mret (Some h)
  | None =>
      match vf_config a with
      | None => mret None
      | Some path =>
          r ← try (config_file path);
          mret match (r : result ConfigTypes.Error ClusterConfig) with
               | Ok c => non_empty (kvm_host c)
               | Err _ => None
               end
      end
  end.

Definition log_app_deploy_onhost_skip {E} (kvm_host : string) : IO E unit :=
  _ ← lift (eprintln ("[verify-app-deploy] already on KVM_HOST (" +:+ kvm_host
              +:+ "); skipping in-place verify to avoid ssh-to-self loop (#353/#362)"));
  lift (eprintln ("[verify-app-deploy]   hint: re-run from a workstation with: hbird verify app-deploy "
                  +:+ "--config <conf> --kvm-host " +:+ kvm_host)).

(** [if let Some(kvm) = .. && running_on_kvm_host(&kvm) { log..; return Ok(()) }] *)
Definition unless_on_host (a : VerifyCommonArgs) (otherwise : IO anyhow unit) : IO anyhow unit :=
  kvm ← resolved_kvm_host_for_onhost_skip a;
  match (kvm : option string) with
  | Some kvm =>
      here ← running_on_kvm_host kvm;
      if (here : bool) then log_app_deploy_onhost_skip kvm else otherwise
  | None => otherwise
  end.

Definition run (command : VerifySubcommand) : IO anyhow unit :=
  match command with
  | Encryption c => p ← from_args c; run_verify_encryption p
  | Hardening c => p ← from_args c; run_verify_hardening p
  | AppDeploy c => unless_on_host c (p ← from_args c; run_verify_app_deploy p)
  | All c =>
      p ← from_args c;
      _ ← io_map_err (context "verify-all step 1/3: encryption") (run_verify_encryption p);
      _ ← io_map_err (context "verify-all step 2/3: hardening") (run_verify_hardening p);
      unless_on_host c
        (io_map_err (context "verify-all step 3/3: app-deploy") (run_verify_app_deploy p))
  end.
End world.
