(* ===== verification/VerifyFacts.v ===== *)
(** * What [hbird verify] does

    The calls of each verifier and of a whole run, and when it succeeds; the
    smoke test's namespace is deleted on every path. *)

From S2P Require Import Prelude RustStr ConfigTypes ConfigLexer ConfigBuild SshOptions SshClient.
From S2P Require Import Effects VirtUri Shell VirtParse VirtConn Cp Host Transcript CpCalls Verify.

(** ** The verifiers *)

Section target.
Context `{W : World} `{Ho : Host} `{WallClock} (p : VerifyPlan).
#[local] Abbreviation t := (vp_target p).
#[local] Abbreviation o := (cp_ssh_opts t).

(** The verifier on the node is run, and decides. *)
Definition encryption_calls (b : bool) (es : history) : Prop :=
  ∃ a, es = [EvSsh o encryption_cmd None a] ∧ (b = true ↔ good (lenient a)).

Lemma does_print_lines {E B} (pr : string → M unit) text (m : IO E B) Q :
  (∀ l, ∃ e, pr l = emit e ∧ step_of e = None) → does m Q → does (_ ← print_lines pr text; m) Q.
Proof.
  intros Hpr Hm. apply does_printing; [|by intros []].
  induction (lines text) as [|l ls IH]; cbn [for_each_M]; [apply only_ret|].
  apply only_bind; [|by intros []]. destruct (Hpr l) as (e & -> & He). by apply only_emit.
Qed.

Lemma does_encryption : does (run_verify_encryption p) (λ r es, encryption_calls (is_ok r) es).
Proof.
  unfold run_verify_encryption. cbv zeta. apply does_eprintln.
  eapply does_bind.
  - apply emits_map_err. eapply emits_conseq; [apply does_cp_ssh|]. intros r es (a & -> & Ha).
    instantiate (1 := λ r es, ∃ a, es = [EvSsh o encryption_cmd None a] ∧ value_of r = lenient a).
    exists a. by destruct r.
  - intros out e1 (a & -> & Ha). cbn [value_of] in Ha.
    apply does_print_lines; [by eexists|]. apply does_print_lines; [by eexists|].
    assert (good (lenient a) ↔ ce_success out = true) as Hg.
    { rewrite <-Ha. split; [by intros (? & [= <-] & ?)|by exists out]. }
    destruct (ce_success out); [apply does_ret|apply does_throw]; exists a; (split; [done|]);
      rewrite Hg; done.
  - intros e e1 (a & -> & Ha). exists a. split; [done|]. rewrite <-Ha. split; [done|]. by intros (? & ? & _).
Qed.

(** *** Hardening *)

(** A check gives its verdict, or none when the control plane cannot be
    reached. *)
Definition check : Type := option bool → history → Prop.

Definition podsecurity_check : check := λ v es, ∃ x e1,
  asked_with (Some privileged_manifest) o "apply -f -" x e1 ∧
  match x with
  | None => v = None ∧ es = e1
  | Some out =>
      (∃ b, v = Some b
        ∧ (b = true ↔ ce_success out = false
           ∧ contains "violates PodSecurity" (ce_stdout out +:+ NL +:+ ce_stderr out) = true))
      ∧ ∃ y e2, asked o delete_probe_cmd y e2 ∧ es = e1 ++ e2
  end.
(** One shell command, judged by what came out *)
Definition shell_check (cmd : string) (judge : CpExecOutput → Prop) : check := λ v es, ∃ a,
  es = [EvSsh o cmd None a] ∧
  match lenient a with
  | None => v = None
  | Some out => ∃ b, v = Some b ∧ (b = true ↔ judge out)
  end.
Definition prints_something (out : CpExecOutput) : Prop := ce_success out = true ∧ ce_stdout out ≠ "".
Definition prints_text (out : CpExecOutput) : Prop := ce_success out = true ∧ trim (ce_stdout out) ≠ "".

Definition hardening_checks : list check := [
  podsecurity_check;
  shell_check audit_log_cmd prints_something;
  shell_check (kubelet_cmd "--protect-kernel-defaults=true") prints_text;
  shell_check (kubelet_cmd "--rotate-certificates=true") prints_text].

(** The checks one after the other, whatever the verdicts; only a control plane
    that is not reached ends them early. *)
Inductive all_checks : list check → option (list bool) → history → Prop :=
| no_checks : all_checks [] (Some []) []
| check_stops (c : check) cs es : c None es → all_checks (c :: cs) None es
| check_done (c : check) cs b r e1 e2 :
    c (Some b) e1 → all_checks cs r e2 → all_checks (c :: cs) (cons b <$> r) (e1 ++ e2).

Definition hardening_calls (b : bool) (es : history) : Prop :=
  ∃ r, all_checks hardening_checks r es
    ∧ b = match r with Some bs => forallb id bs | None => false end.

Lemma does_podsecurity :
  does (check_podsecurity_rejects_privileged p) (λ r es, podsecurity_check (value_of r) es).
Proof.
  unfold check_podsecurity_rejects_privileged. apply does_eprintln.
  eapply does_bind; [apply does_kubectl_stdin| |].
  2: { intros e e1 H1. by exists None, e1. }
  intros out e1 H1. eapply does_bind; [apply does_try, does_kubectl_raw| |by intros e e2 (? & [=] & _)].
  intros r e2 (_ & _ & y & _ & H2). cbv zeta.
  assert (∀ b, b = psa_rejected out → podsecurity_check (Some b) (e1 ++ e2 ++ [])) as Hc.
  { intros b ->. exists (Some out), e1. split; [done|]. rewrite app_nil_r. split; [|by eauto].
    exists (psa_rejected out). split; [done|]. unfold psa_rejected.
    by rewrite andb_true_iff, negb_true_iff. }
  destruct (psa_rejected out).
  - apply does_eprintln, does_ret. by apply Hc.
  - do 2 apply does_eprintln. apply does_ret. by apply Hc.
Qed.

Lemma audit_line_some out : is_Some (audit_line out) ↔ prints_something out.
Proof.
  unfold audit_line, prints_something. destruct (ce_success out).
  - destruct (ce_stdout out) as [|a s].
    + split; [by intros []|by intros [_ []]].
    + assert (is_Some (head (lines (String a s)))) as Hs.
      { unfold lines. cbn [split_inclusive_nl]. destruct (Ascii.eqb a nl); [by eexists|].
        destruct (split_inclusive_nl s); by eexists. }
      by split.
  - split; [by intros []|by intros [? _]].
Qed.
Lemma has_line_iff out : has_line out = true ↔ prints_text out.
Proof.
  unfold has_line, prints_text. rewrite andb_true_iff. destruct (trim (ce_stdout out)); cbn; naive_solver.
Qed.

(** A verdict on what a shell command printed *)
Lemma does_judged (m : IO anyhow CpExecOutput) (f : CpExecOutput → IO anyhow bool) cmd judge :
  does m (λ r es, ∃ a, es = [EvSsh o cmd None a] ∧ value_of r = lenient a) →
  (∀ out, does (f out) (λ r es, es = [] ∧ ∃ b, r = Ok b ∧ (b = true ↔ judge out))) →
  does (out ← m; f out) (λ r es, shell_check cmd judge (value_of r) es).
Proof.
  intros Hm Hf. eapply does_bind; [exact Hm| |].
  - intros out e1 (a & -> & Ha). cbn [value_of] in Ha. eapply does_conseq; [apply Hf|].
    intros r e2 [-> (b & -> & Hb)]. exists a. split; [done|]. rewrite <-Ha. by exists b.
  - intros e e1 (a & -> & Ha). exists a. split; [done|]. by rewrite <-Ha.
Qed.

Lemma does_audit_log :
  does (check_apiserver_audit_log_nonempty p) (λ r es,
    shell_check audit_log_cmd prints_something (value_of r) es).
Proof.
  unfold check_apiserver_audit_log_nonempty. apply does_eprintln, does_judged; [apply does_cp_ssh|].
  intros out. pose proof (audit_line_some out) as Ha. destruct (audit_line out).
  - apply does_eprintln, does_ret. split; [done|]. exists true. rewrite <-Ha. done.
  - do 2 apply does_eprintln. apply does_ret. split; [done|]. exists false. rewrite <-Ha.
    split; [done|]. split; [done|by intros []].
Qed.

Lemma does_kubelet announce flag :
  does (check_kubelet_flag announce flag p) (λ r es,
    shell_check (kubelet_cmd flag) prints_text (value_of r) es).
Proof.
  unfold check_kubelet_flag. apply does_eprintln, does_judged; [apply does_cp_ssh|].
  intros out. pose proof (has_line_iff out) as Ha. destruct (has_line out);
    apply does_eprintln, does_ret; (split; [done|]); eexists; by rewrite <-Ha.
Qed.

(** A check in front of the rest of the checks *)
Lemma does_check {B} (m : IO anyhow bool) (f : bool → IO anyhow B) (c : check) cs
    (Q : bool → result anyhow B → option (list bool) → Prop) :
  does m (λ r es, c (value_of r) es) →
  (∀ b, does (f b) (λ r es, ∃ v, Q b r v ∧ all_checks cs v es)) →
  does (b ← m; f b) (λ r es, ∃ v, match v with
      | Some (b :: bs) => Q b r (Some bs)
      | Some [] => False
      | None => (∃ e, r = Err e) ∨ ∃ b, Q b r None
      end ∧ all_checks (c :: cs) v es).
Proof.
  intros Hm Hf. eapply does_bind; [exact Hm| |].
  - intros b e1 H1. eapply does_conseq; [apply Hf|]. intros r e2 (v & HQ & H2).
    exists (cons b <$> v). split; [|by apply check_done]. destruct v as [bs|]; cbn; [done|]. eauto.
  - intros e e1 H1. exists None. split; [by left; exists e|]. by apply check_stops.
Qed.

Lemma does_hardening : does (run_verify_hardening p) (λ r es, hardening_calls (is_ok r) es).
Proof.
  unfold run_verify_hardening. apply does_eprintln. unfold hardening_calls.
  eapply does_conseq.
  - apply (does_check _ _ podsecurity_check (drop 1 hardening_checks) (λ b1 r v, match v with
      | Some [b2; b3; b4] => is_ok r = b1 && b2 && b3 && b4
      | Some _ => False | None => is_ok r = false end) does_podsecurity). intros b1.
    eapply does_conseq; [apply (does_check _ _ _ (drop 2 hardening_checks) (λ b2 r v, match v with
      | Some [b3; b4] => is_ok r = b1 && b2 && b3 && b4
      | Some _ => False | None => is_ok r = false end) does_audit_log)|].
    + intros b2. eapply does_conseq; [apply (does_check _ _ _ (drop 3 hardening_checks) (λ b3 r v, match v with
        | Some [b4] => is_ok r = b1 && b2 && b3 && b4
        | Some _ => False | None => is_ok r = false end) (does_kubelet _ _))|].
      * intros b3. eapply does_conseq; [apply (does_check _ _ _ [] (λ b4 r v, match v with
          | Some [] => is_ok r = b1 && b2 && b3 && b4 | _ => False end) (does_kubelet _ _))|].
        -- intros b4. do 6 apply does_println. destruct (b1 && b2 && b3 && b4).
           ++ intros h. exists (Some []). split; [done|]. constructor.
           ++ apply does_println, does_throw. exists (Some []). split; [done|]. constructor.
        -- intros r es (v & Hv & Hc). exists v. split; [|exact Hc].
           destruct v as [[|b4 [|]]|]; try done. destruct Hv as [[e ->]|[? []]]. done.
      * intros r es (v & Hv & Hc). exists v. split; [|exact Hc].
        destruct v as [[|b3 [|b4 [|]]]|]; try done. by destruct Hv as [[e ->]|[? ?]].
    + intros r es (v & Hv & Hc). exists v. split; [|exact Hc].
      destruct v as [[|b2 [|b3 [|b4 [|]]]]|]; try done. by destruct Hv as [[e ->]|[? ?]].
  - intros r es (v & Hv & Hc). exists v. split; [exact Hc|].
    destruct v as [[|b1 [|b2 [|b3 [|b4 [|]]]]]|]; try done.
    + rewrite Hv. cbn. unfold id. by rewrite andb_true_r, !andb_assoc.
    + by destruct Hv as [[e ->]|[? ?]].
Qed.
(** *** App-deploy *)

Definition welcome (x : option CpExecOutput) : bool :=
  match x with
  | Some out => ce_success out && contains "Welcome to nginx" (ce_stdout out +:+ NL +:+ ce_stderr out)
  | None => false
  end.

(** The smoke test in its namespace: each step needs the one before. *)
Inductive smoke (ns : string) : bool → history → Prop :=
| not_created x e1 : asked o (create_ns_cmd ns) x e1 → ¬ good x → smoke ns false e1
| not_applied x y e1 e2 :
    asked o (create_ns_cmd ns) x e1 → good x →
    asked_with (Some nginx_manifest) o (apply_nginx_cmd ns) y e2 → ¬ good y → smoke ns false (e1 ++ e2)
| not_available x y z w e1 e2 e3 e4 :
    asked o (create_ns_cmd ns) x e1 → good x →
    asked_with (Some nginx_manifest) o (apply_nginx_cmd ns) y e2 → good y →
    asked o (wait_nginx_cmd ns) z e3 → ¬ good z → asked o (events_cmd ns) w e4 →
    smoke ns false (e1 ++ e2 ++ e3 ++ e4)
| probed x y z w e1 e2 e3 e4 :
    asked o (create_ns_cmd ns) x e1 → good x →
    asked_with (Some nginx_manifest) o (apply_nginx_cmd ns) y e2 → good y →
    asked o (wait_nginx_cmd ns) z e3 → good z → asked_with (Some "") o (probe_cmd ns) w e4 →
    smoke ns (welcome w) (e1 ++ e2 ++ e3 ++ e4).

(** The namespace is deleted at the end, whatever came before. *)
Definition app_calls (b : bool) (es : history) : Prop :=
  ∃ n e1 a, let ns := "smoketest-" +:+ show_N n in
    smoke ns b e1 ∧ es = e1 ++ [EvSsh o (remote_kubectl (delete_ns_cmd ns)) None a].

Lemma good_value {A} (r : result anyhow A) x : (is_ok r = true ↔ good x) → is_ok r = false → ¬ good x.
Proof. intros Hr Hf Hg%Hr. congruence. Qed.
Lemma good_success out : good (Some out) ↔ ce_success out = true.
Proof. split; [by intros (? & [= <-] & ?)|by exists out]. Qed.

Lemma does_app_deploy_in ns : does (app_deploy_in t ns) (λ r es, smoke ns (is_ok r) es).
Proof.
  unfold app_deploy_in. apply does_eprintln.
  eapply does_bind with (P := λ r es, ∃ x, (is_ok r = true ↔ good x) ∧ asked o (create_ns_cmd ns) x es).
  { apply emits_map_err. eapply emits_conseq; [apply does_kubectl_raw|].
    intros r es (x & Hx & Ha). exists x. split; [by destruct r|done]. }
  2: { intros e e1 (x & Hx & H1). eapply not_created; [exact H1|]. by eapply good_value. }
  intros [] e1 (x & [Hx _] & H1). specialize (Hx eq_refl). apply does_eprintln.
  eapply does_bind; [apply does_kubectl_stdin| |].
  2: { intros e e2 H2. eapply not_applied; [exact H1|exact Hx|exact H2|]. by intros (? & ? & _). }
  intros applied e2 H2. cbn [value_of] in H2. destruct (ce_success applied) eqn:Hy; cbn [negb].
  2: { apply does_throw. rewrite app_nil_r. eapply not_applied; [exact H1|exact Hx|exact H2|].
       rewrite good_success. congruence. }
  apply good_success in Hy. apply does_eprintln.
  eapply does_bind; [apply does_try, does_kubectl_raw| |by intros e e3 (? & [=] & _)].
  intros waited e3 (? & [= <-] & z & Hz & H3). destruct (is_ok waited) eqn:Hw; cbn [negb].
  - assert (good z) as Hgz by by apply Hz. apply does_eprintln.
    eapply does_bind; [apply does_kubectl_stdin| |].
    2: { intros e e4 H4. rewrite <-?app_assoc.
         apply (probed ns x (Some applied) z None e1 e2 e3 e4); done. }
    intros probe e4 H4. cbn [value_of] in H4. cbv zeta.
    pose proof (probed ns x (Some applied) z (Some probe) e1 e2 e3 e4 H1 Hx H2 Hy H3 Hgz H4) as Hs.
    cbn [welcome] in Hs. destruct (ce_success probe); cbn [negb andb] in *.
    + destruct (contains "Welcome to nginx" _).
      * apply does_eprintln. intros h. cbn. by rewrite app_nil_r, <-?app_assoc.
      * do 3 apply does_eprintln. apply does_throw. by rewrite app_nil_r, <-?app_assoc.
    + do 2 apply does_eprintln. apply does_throw. by rewrite app_nil_r, <-?app_assoc.
  - do 2 apply does_eprintln.
    eapply does_bind; [apply does_try, does_kubectl_raw| |by intros e e4 (? & [=] & _)].
    intros events e4 (? & [= <-] & w & _ & H4).
    assert (smoke ns false (e1 ++ e2 ++ e3 ++ e4)) as Hs.
    { eapply not_available; [exact H1|exact Hx|exact H2|exact Hy|exact H3| |exact H4].
      by intros Hgz%Hz. }
    destruct events as [out|e].
    + apply does_quietly; [done|]. apply does_throw. by rewrite app_nil_r, <-?app_assoc.
    + eapply does_bind; [by apply does_ret with (Q := λ r es, r = Ok tt ∧ es = [])| |by intros ? ? [[=] _]].
      intros _ e5 [_ ->]. apply does_throw. by rewrite app_nil_r, <-?app_assoc.
Qed.

Lemma delete_ns_safe n : shell_safe (delete_ns_cmd ("smoketest-" +:+ show_N n)).
Proof.
  apply (reject_shell_metachars_Ok ""). apply bare_or_space_accepted.
  unfold delete_ns_cmd. rewrite !all_bytes_app. cbn [all_bytes].
  assert (all_bytes (λ a, is_bare a || Ascii.eqb a " ") (show_N n) = true) as ->; [|done].
  eapply all_bytes_impl; [|apply QemuSshUri.show_N_digits]. intros a Ha.
  unfold is_bare, is_ascii_alphanumeric. by rewrite Ha, !orb_true_r.
Qed.

Lemma does_app_deploy : does (run_verify_app_deploy p) (λ r es, app_calls (is_ok r) es).
Proof.
  unfold run_verify_app_deploy.
  eapply does_bind with (P := λ r es, is_ok r = true ∧ es = []); [by intros h| |by intros ? ? [? _]].
  intros n e0 [_ ->]. cbv zeta. set (ns := "smoketest-" +:+ show_N n). unfold with_drop.
  eapply does_bind; [apply does_try, does_app_deploy_in| |by intros e e1 (? & [=] & _)].
  intros r e1 (? & [= <-] & H1).
  eapply does_bind with (P := λ r es, is_ok r = true ∧ ∃ a, es = [EvSsh o (remote_kubectl (delete_ns_cmd ns)) None a]).
  - unfold drop_namespace. apply does_eprintln.
    eapply does_bind; [apply does_try, does_kubectl_raw| |by intros e e2 (? & [=] & _)].
    intros r2 e2 (_ & _ & x & _ & H2). apply does_ret. rewrite app_nil_r. split; [done|].
    destruct (asked_sent _ _ _ _ _ (delete_ns_safe n) H2) as (a & -> & _). by exists a.
  - intros _ e2 [_ [a ->]]. intros h. cbn. exists n, e1, a. done.
  - by intros e e2 [? _].
Qed.
End target.

(** ** The plan *)

Section plan.
Context `{W : World} `{Ho : Host} `{WallClock}.

Definition named (a : result io_error RunOutput) : option string :=
  match a with
  | Ok out =>
      if success (status out) then
        let s := trim (stdout_lossy out) in if is_empty s then None else Some s
      else None
  | Err _ => None
  end.

(** The machine's name: its short form, or the full one when that fails *)
Inductive hostname_calls : option string → history → Prop :=
| short_name a s : named a = Some s → hostname_calls (Some s) [EvLocal ["hostname"; "-s"] a]
| full_name a a' :
    named a = None →
    hostname_calls (named a') [EvLocal ["hostname"; "-s"] a; EvLocal ["hostname"] a'].

(** Whether this machine is the KVM host *)
Definition here_calls (host : string) (b : bool) (es : history) : Prop :=
  ∃ s, hostname_calls s es
    ∧ b = match s with Some l => hostname_matches_kvm_host l host | None => false end.

(** The host to jump through: none on the KVM host itself *)
Definition jump_calls (a : VerifyCommonArgs) (cfg : option ClusterConfig) (kvm : option string)
    (es : history) : Prop :=
  match resolved_kvm_host a cfg with
  | Some host => ∃ b, here_calls host b es ∧ kvm = if b then None else Some host
  | None => kvm = None ∧ es = []
  end.

(** The address is given, or asked for on the host to jump through *)
Definition address_calls (a : VerifyCommonArgs) (cfg : option ClusterConfig) (kvm ip : option string)
    (es : history) : Prop :=
  match verify_cp_ip a cfg, kvm with
  | Some i, _ => ip = Some i ∧ es = []
  | None, None => ip = None ∧ es = []
  | None, Some host =>
      ∃ ans, es = [EvSsh (new host) (domifaddr_cmd (verify_cp_name a cfg)) None ans] ∧ ip = lease_of ans
  end.

(** The plan, or none; the config is read at the history [h]. *)
Definition planned_at (h : history) (a : VerifyCommonArgs) (v : option VerifyPlan) (es : history) : Prop :=
  match config_at (vf_config a) h with
  | None => v = None ∧ es = []
  | Some cfg =>
      ∃ kvm ip e1 e2, jump_calls a cfg kvm e1 ∧ address_calls a cfg kvm ip e2 ∧ es = e1 ++ e2
        ∧ v = (λ i, mkVerifyPlan (mkCpTarget i kvm) (verify_cp_name a cfg)) <$> ip
  end.
Definition planned (a : VerifyCommonArgs) (v : option VerifyPlan) (es : history) : Prop :=
  ∃ h, planned_at h a v es.

Lemma does_hostname {E} : does (current_short_hostname : IO E _) (λ r es, ∃ s, r = Ok s ∧ hostname_calls s es).
Proof.
  assert (∀ argv, does (hostname_by argv : IO E _) (λ r es, ∃ a, r = Ok (named a) ∧ es = [EvLocal argv a])) as Hby.
  { intros argv. eapply does_bind with (P := λ r es, ∃ a, r = Ok a ∧ es = [EvLocal argv a]); [by intros h; eexists| |by intros ? ? (? & [=] & _)].
    intros r e1 (a & [= ->] & ->). apply does_ret. exists a. by destruct a. }
  unfold current_short_hostname. eapply does_bind; [apply Hby| |by intros ? ? (? & [=] & _)].
  intros s e1 (a & [= ->] & ->). destruct (named a) as [s|] eqn:Ha.
  - apply does_ret. exists (Some s). split; [done|]. by apply short_name.
  - eapply does_conseq; [apply Hby|]. intros r e2 (a' & -> & ->). exists (named a'). split; [done|].
    by apply full_name.
Qed.

Lemma does_here {E} host :
  does (running_on_kvm_host_with host current_short_hostname : IO E bool)
    (λ r es, ∃ b, r = Ok b ∧ here_calls host b es).
Proof.
  eapply does_bind; [apply does_hostname| |by intros ? ? (? & [=] & _)].
  intros s e1 (? & [= <-] & H1). apply does_ret. rewrite app_nil_r. eexists. split; [done|]. by exists s.
Qed.

(** The plan after the config *)
Lemma does_plan_of a cfg :
  does (kvm_host ← match resolved_kvm_host a cfg with
                   | Some host =>
                       here ← running_on_kvm_host_with host current_short_hostname;
                       if (here : bool) then
                         _ ← lift (eprintln ("[verify] already on KVM_HOST (" +:+ host
                                             +:+ "); dropping ProxyJump for direct CP SSH (#353/#362)"));
                         mret None
                       else mret (Some host)
                   | None => mret None
                   end;
        cp_ip ← match verify_cp_ip a cfg with
                | Some ip => mret ip
                | None => resolve_cp_ip_via_kvm_host (verify_cp_name a cfg) kvm_host
                end;
        mret (mkVerifyPlan (mkCpTarget cp_ip kvm_host) (verify_cp_name a cfg)) : IO anyhow VerifyPlan)
    (λ r es, ∃ kvm ip e1 e2, jump_calls a cfg kvm e1 ∧ address_calls a cfg kvm ip e2 ∧ es = e1 ++ e2
        ∧ value_of r = (λ i, mkVerifyPlan (mkCpTarget i kvm) (verify_cp_name a cfg)) <$> ip).
Proof.
  eapply does_bind with (P := λ r es, ∃ kvm, r = Ok kvm ∧ jump_calls a cfg kvm es).
  { unfold jump_calls. destruct (resolved_kvm_host a cfg) as [host|]; [|apply does_ret; by eexists].
    eapply does_bind; [apply does_here| |by intros ? ? (? & [=] & _)].
    intros b e1 (? & [= <-] & H1). destruct b.
    - apply does_eprintln, does_ret. rewrite app_nil_r. eexists. split; [done|]. by exists true.
    - apply does_ret. rewrite app_nil_r. eexists. split; [done|]. by exists false. }
  2: by intros ? ? (? & [=] & _).
  intros kvm e1 (? & [= <-] & H1).
  eapply does_bind with (P := λ r es, address_calls a cfg kvm (value_of r) es).
  - unfold address_calls. destruct (verify_cp_ip a cfg) as [ip|]; [by apply does_ret|].
    destruct kvm as [host|]; [|by apply does_throw]. cbn [resolve_cp_ip_via_kvm_host]. cbv zeta.
    eapply does_bind; [apply (does_try (F:=SshError)), does_ssh| |by intros ? ? (? & [=] & _)].
    intros out e2 (? & [= <-] & ->).
    eapply does_bind with (P := λ r es, es = [] ∧ lease_of out = value_of r ≫= parse_first_domifaddr_ipv4).
    + destruct out as [out|[]]; first [by apply does_ret|by apply does_throw].
    + intros raw e3 [-> Hl]. cbn [value_of mbind option_bind] in Hl.
      destruct (parse_first_domifaddr_ipv4 raw) as [ip|]; [apply does_ret|apply does_throw]; by exists out.
    + intros e e3 [-> Hl]. by exists out.
  - intros ip e2 H2. apply does_ret. rewrite app_nil_r. by exists kvm, (Some ip), e1, e2.
  - intros e e2 H2. by exists kvm, None, e1, e2.
Qed.

Lemma planned_from_args a h : planned_at h a (value_of (from_args a h).1) (acts (from_args a h).2).
Proof.
  unfold planned_at, from_args, from_args_with, config_at. destruct (vf_config a) as [path|].
  - destruct (parse (λ _, file_answer h path) path) as [cfg|e] eqn:Hp.
    + rewrite (io_bind_ok _ _ (Some cfg)); [apply does_plan_of|]. unfold config_file, try. run_io. by rewrite Hp.
    + rewrite (io_bind_err _ _ (mkAnyhow ["verify: failed to parse --config " +:+ path] (RConfig e)) []); [done|]. unfold config_file, try. run_io. by rewrite Hp.
  - rewrite (io_bind_ok _ _ None) by done. apply does_plan_of.
Qed.

Lemma does_from_args a : does (from_args a) (λ r es, planned a (value_of r) es).
Proof. intros h. exists h. apply planned_from_args. Qed.

(** ** A run *)

(** With a plan the calls [K]; without one the run fails. *)
Definition with_plan (P : option VerifyPlan → history → Prop) (K : VerifyPlan → bool → history → Prop)
    (b : bool) (es : history) : Prop :=
  ∃ v e1, P v e1 ∧
    match v with
    | None => b = false ∧ es = e1
    | Some p => ∃ e2, K p b e2 ∧ es = e1 ++ e2
    end.

(** The KVM host of the flag, or else of the config when that can be read *)
Definition skip_host (a : VerifyCommonArgs) (k : option string) : Prop :=
  match non_empty (vf_kvm_host a), vf_config a with
  | Some host, _ => k = Some host
  | None, None => k = None
  | None, Some _ =>
      ∃ h, k = match config_at (vf_config a) h with
               | Some (Some c) => non_empty (kvm_host c)
               | _ => None
               end
  end.

(** Nothing more is done on the KVM host itself, and that is a success. *)
Definition skipping (a : VerifyCommonArgs) (K : bool → history → Prop) (b : bool) (es : history) : Prop :=
  ∃ k, skip_host a k ∧
    match k with
    | None => K b es
    | Some host =>
        ∃ here e1, here_calls host here e1 ∧
          if (here : bool) then b = true ∧ es = e1 else ∃ e2, K b e2 ∧ es = e1 ++ e2
    end.

(** One after the other, as long as they succeed *)
Definition then_calls (K1 K2 : bool → history → Prop) (b : bool) (es : history) : Prop :=
  (b = false ∧ K1 false es) ∨ ∃ e1 e2, K1 true e1 ∧ K2 b e2 ∧ es = e1 ++ e2.

Definition run_calls (h : history) (command : VerifySubcommand) : bool → history → Prop :=
  match command with
  | Encryption a => with_plan (planned_at h a) encryption_calls
  | Hardening a => with_plan (planned_at h a) hardening_calls
  | AppDeploy a => skipping a (with_plan (planned a) app_calls)
  | All a =>
      with_plan (planned_at h a) (λ p,
        then_calls (encryption_calls p) (then_calls (hardening_calls p) (skipping a (app_calls p))))
  end.

Lemma does_skip_host {E} a :
  does (resolved_kvm_host_for_onhost_skip a : IO E _) (λ r es, ∃ k, r = Ok k ∧ es = [] ∧ skip_host a k).
Proof.
  unfold resolved_kvm_host_for_onhost_skip, skip_host.
  destruct (non_empty (vf_kvm_host a)) as [host|]; [apply does_ret; by eexists|].
  destruct (vf_config a) as [path|]; [|apply does_ret; by eexists].
  intros h. unfold config_file, try. run_io. eexists. split; [done|]. split; [done|]. exists h.
  unfold config_at. by destruct (parse _ path).
Qed.

Lemma does_unless_on_host a (m : IO anyhow unit) K :
  does m (λ r es, K (is_ok r) es) →
  does (unless_on_host a m) (λ r es, skipping a K (is_ok r) es).
Proof.
  intros Hm. unfold unless_on_host.
  eapply does_bind; [apply does_skip_host| |by intros ? ? (? & [=] & _)].
  intros k e0 (? & [= <-] & -> & Hk). destruct k as [host|].
  - eapply does_bind; [apply does_here| |by intros ? ? (? & [=] & _)].
    intros here e1 (? & [= <-] & H1). destruct here.
    + apply does_eprintln. intros h. exists (Some host). split; [done|]. exists true, e1.
      split; [done|]. split; [done|]. cbn. by rewrite app_nil_r.
    + eapply does_conseq; [exact Hm|]. intros r e2 H2. exists (Some host). split; [done|].
      exists false, e1. split; [done|]. by exists e2.
  - eapply does_conseq; [exact Hm|]. intros r e2 H2. by exists None.
Qed.

Lemma does_context {A} msg (m : IO anyhow A) (K : bool → history → Prop) :
  does m (λ r es, K (is_ok r) es) → does (io_map_err (context msg) m) (λ r es, K (is_ok r) es).
Proof. intros Hm. apply emits_map_err. eapply emits_conseq; [exact Hm|]. by intros [] es HK. Qed.

Lemma does_then {A B} (m : IO anyhow A) (m2 : IO anyhow B) K1 K2 :
  does m (λ r es, K1 (is_ok r) es) → does m2 (λ r es, K2 (is_ok r) es) →
  does (_ ← m; m2) (λ r es, then_calls K1 K2 (is_ok r) es).
Proof.
  intros H1 H2. eapply does_bind; [exact H1| |].
  - intros x e1 He1. eapply does_conseq; [exact H2|]. intros r e2 He2. right. by exists e1, e2.
  - intros e e1 He1. by left.
Qed.

(** The plan is made first, at [h]. *)
Lemma planned_first a h (f : VerifyPlan → IO anyhow unit) K :
  (∀ p, does (f p) (λ r es, K p (is_ok r) es)) →
  let '(r, es) := (p ← from_args a; f p) h in with_plan (planned_at h a) K (is_ok r) (acts es).
Proof.
  intros Hf. unfold mbind, IO_bind. pose proof (planned_from_args a h) as Hp.
  destruct (from_args a h) as [[p|e] e1]; cbn [fst snd value_of] in Hp.
  - specialize (Hf p (h ++ e1)). destruct (f p (h ++ e1)) as [r e2]. exists (Some p), (acts e1).
    split; [done|]. exists (acts e2). by rewrite acts_app.
  - by exists None, (acts e1).
Qed.

Lemma does_app_deploy_planned a :
  does (p ← from_args a; run_verify_app_deploy p) (λ r es, with_plan (planned a) app_calls (is_ok r) es).
Proof.
  eapply does_bind; [apply does_from_args| |].
  - intros p e1 H1. eapply does_conseq; [apply does_app_deploy|]. intros r e2 H2.
    exists (Some p), e1. split; [done|]. by exists e2.
  - intros e e1 H1. by exists None, e1.
Qed.

Lemma verify_spec command h :
  let '(r, es) := run command h in run_calls h command (is_ok r) (acts es).
Proof.
  destruct command as [a|a|a|a]; cbn [run run_calls].
  - apply planned_first, does_encryption.
  - apply planned_first, does_hardening.
  - pose proof (does_unless_on_host a _ _ (does_app_deploy_planned a) h) as H1.
    by destruct (unless_on_host a _ h).
  - apply planned_first. intros p. apply does_then; [apply does_context, does_encryption|].
    apply does_then; [apply does_context, does_hardening|]. apply does_unless_on_host, does_context.
    apply does_app_deploy.
Qed.

End plan.

(** ** The namespace of the smoke test *)

(** The command creates a namespace. *)
Definition creates (e : event) : bool :=
  match e with
  | EvSsh _ cmd _ _ => starts_with "kubectl --kubeconfig=/etc/kubernetes/admin.conf create ns " cmd
  | _ => false
  end.
Definition creates_none (es : history) : Prop := Forall (λ e, creates e = false) es.

Lemma asked_creates_none i o cmd x es :
  starts_with "create ns " cmd = false → asked_with i o cmd x es → creates_none es.
Proof. intros Hc [|a _]; repeat constructor. exact Hc. Qed.

Section namespaces.
Context `{W : World} `{Ho : Host} `{WallClock}.

(** Only that namespace is created, and it is deleted last. *)
Definition kept_clean (es : history) : Prop :=
  creates_none es
  ∨ ∃ o ns e1 a, es = e1 ++ [EvSsh o (remote_kubectl (delete_ns_cmd ns)) None a]
      ∧ Forall (λ e, creates e = true → ∃ i b, e = EvSsh o (remote_kubectl (create_ns_cmd ns)) i b) e1.

Lemma kept_clean_app es1 es2 : creates_none es1 → kept_clean es2 → kept_clean (es1 ++ es2).
Proof.
  intros H1 [H2|(o & ns & e1 & a & -> & H2)]; [left; by apply Forall_app|]. right.
  exists o, ns, (es1 ++ e1), a. split; [by rewrite app_assoc|]. apply Forall_app. split; [|done].
  eapply Forall_impl; [exact H1|]. intros e He. congruence.
Qed.

Lemma encryption_creates_none p b es : encryption_calls p b es → creates_none es.
Proof.
  intros (a & -> & _). repeat constructor. cbn [creates]. unfold encryption_cmd. by destruct (env_var _).
Qed.

Lemma check_creates_none p c v es : c ∈ hardening_checks p → c v es → creates_none es.
Proof.
  unfold hardening_checks. rewrite !elem_of_cons. intros [->|[->|[->|[->|[]%not_elem_of_nil]]]].
  - intros (x & e1 & H1 & Hv). apply asked_creates_none in H1; [|done].
    destruct x as [out|]; [|by destruct Hv as [_ ->]]. destruct Hv as (_ & y & e2 & H2 & ->).
    apply Forall_app. split; [done|]. by apply asked_creates_none in H2.
  - intros (a & -> & _). by repeat constructor.
  - intros (a & -> & _). by repeat constructor.
  - intros (a & -> & _). by repeat constructor.
Qed.
Lemma hardening_creates_none p b es : hardening_calls p b es → creates_none es.
Proof.
  intros (r & Hr & _). revert Hr. generalize (check_creates_none p). generalize (hardening_checks p).
  intros cs Hcs Hr. induction Hr as [|c cs es Hc|c cs b' r e1 e2 Hc Hr IH]; [constructor|..].
  - by apply (Hcs c None); [left|].
  - apply Forall_app. split; [by apply (Hcs c (Some b')); [left|]|]. apply IH.
    intros c' v es Hin. apply Hcs. by right.
Qed.

Lemma here_creates_none host b es : here_calls host b es → creates_none es.
Proof. intros (s & Hs & _). destruct Hs; by repeat constructor. Qed.

Lemma planned_creates_none a v es : planned a v es → creates_none es.
Proof.
  intros (h & Hp). unfold planned_at in Hp. destruct (config_at _ h) as [cfg|]; [|by destruct Hp as [_ ->]; constructor].
  destruct Hp as (kvm & ip & e1 & e2 & H1 & H2 & -> & _). apply Forall_app. split.
  - unfold jump_calls in H1. destruct (resolved_kvm_host a cfg) as [host|].
    + destruct H1 as (b & H1 & _). by eapply here_creates_none.
    + destruct H1 as [_ ->]. constructor.
  - unfold address_calls in H2. destruct (verify_cp_ip a cfg), kvm; try (destruct H2 as [_ ->]; constructor).
    destruct H2 as (ans & -> & _). by repeat constructor.
Qed.

Lemma app_kept_clean p b es : app_calls p b es → kept_clean es.
Proof.
  intros (n & e1 & a & Hs & ->). right. eexists _, _, e1, a. split; [done|].
  set (ns := "smoketest-" +:+ show_N n) in *.
  assert (∀ es, creates_none es → Forall (λ e, creates e = true → ∃ i c,
    e = EvSsh (cp_ssh_opts (vp_target p)) (remote_kubectl (create_ns_cmd ns)) i c) es) as Hn.
  { intros l Hl. eapply Forall_impl; [exact Hl|]. intros e He. congruence. }
  assert (∀ x es, asked (cp_ssh_opts (vp_target p)) (create_ns_cmd ns) x es → Forall (λ e, creates e = true → ∃ i c,
    e = EvSsh (cp_ssh_opts (vp_target p)) (remote_kubectl (create_ns_cmd ns)) i c) es) as Hc.
  { intros x l [|ans _]; repeat constructor. by exists None, ans. }
  destruct Hs; rewrite ?Forall_app; split_and?; first
    [by eapply Hc|apply Hn; eapply asked_creates_none; [|eassumption]; reflexivity].
Qed.

Lemma with_plan_kept_clean a P K b es :
  (∀ v es, P v es → planned a v es) → (∀ p b es, K p b es → kept_clean es) →
  with_plan P K b es → kept_clean es.
Proof.
  intros HP HK (v & e1 & Hp%HP%planned_creates_none & Hv). destruct v as [p|].
  - destruct Hv as (e2 & He2%HK & ->). by apply kept_clean_app.
  - destruct Hv as [_ ->]. by left.
Qed.

Lemma skipping_kept_clean a K b es :
  (∀ b es, K b es → kept_clean es) → skipping a K b es → kept_clean es.
Proof.
  intros HK (k & _ & Hk). destruct k as [host|]; [|by eapply HK].
  destruct Hk as (here & e1 & H1%here_creates_none & Hh). destruct here.
  - destruct Hh as [_ ->]. by left.
  - destruct Hh as (e2 & He2%HK & ->). by apply kept_clean_app.
Qed.

Lemma run_kept_clean h command b es : run_calls h command b es → kept_clean es.
Proof.
  assert (∀ a v es, planned_at h a v es → planned a v es) as Hat by (intros a v l Hl; by exists h).
  destruct command as [a|a|a|a]; cbn [run_calls].
  - apply (with_plan_kept_clean a); [apply Hat|]. intros p b' es' H'. left. by eapply encryption_creates_none.
  - apply (with_plan_kept_clean a); [apply Hat|]. intros p b' es' H'. left. by eapply hardening_creates_none.
  - apply skipping_kept_clean. intros b' es'. apply (with_plan_kept_clean a); [done|]. apply app_kept_clean.
  - apply (with_plan_kept_clean a); [apply Hat|]. intros p b' es' [[_ H1]|(e1 & e2 & H1 & H2 & ->)].
    + left. by eapply encryption_creates_none.
    + apply kept_clean_app; [by eapply encryption_creates_none|].
      destruct H2 as [[_ H2]|(e3 & e4 & H2 & H3 & ->)].
      * left. by eapply hardening_creates_none.
      * apply kept_clean_app; [by eapply hardening_creates_none|]. revert H3.
        apply skipping_kept_clean, app_kept_clean.
Qed.

(** C22: no verification leaves a namespace behind.  If a run creates a namespace,
    then the last thing it does to the outside is to delete that namespace, on
    the same node and whatever failed in between. *)
Theorem namespace_deleted_last command h o ns i a :
  EvSsh o (remote_kubectl (create_ns_cmd ns)) i a ∈ (run command h).2 →
  ∃ a', last (acts (run command h).2) = Some (EvSsh o (remote_kubectl (delete_ns_cmd ns)) None a').
Proof.
  intros Hin. pose proof (verify_spec command h) as Hr. destruct (run command h) as [r es]. cbn [fst snd] in *.
  apply run_kept_clean in Hr.
  assert (EvSsh o (remote_kubectl (create_ns_cmd ns)) i a ∈ acts es) as Ha.
  { apply list_elem_of_filter. split; [by eexists|done]. }
  destruct Hr as [Hn|(o' & ns' & e1 & a' & He & Hc)].
  - unfold creates_none in Hn. rewrite Forall_forall in Hn. by apply Hn in Ha.
  - rewrite He in Ha |- *. exists a'. rewrite last_snoc.
    apply elem_of_app in Ha as [Ha|Ha%list_elem_of_singleton]; [|done].
    rewrite Forall_forall in Hc. destruct (Hc _ Ha eq_refl) as (i' & b & [= -> -> _ _]). done.
Qed.
End namespaces.

(** ** Concrete runs *)

(** A cluster where a command that contains [bad] fails; this machine is called
    [name]. *)
Definition verify_world (bad name : string) : World := {|
  ssh_answer _ o cmd _ :=
    if contains bad cmd then Err (NonZeroExit (host o) (Exited 1) "" "Error: violates PodSecurity")
    else if contains "run probe" cmd then Ok (mkRunOutput (Exited 0) "<h1>Welcome to nginx!</h1>" "")
    else Ok (mkRunOutput (Exited 0) ("OK /var/log/kubernetes/k8s-audit.log" +:+ NL) "");
  local_answer _ argv :=
    if bool_decide (argv = ["hostname"; "-s"]) then Ok (mkRunOutput (Exited 0) (name +:+ NL) "")
    else Err (IoError "unused");
  stdout_answer _ _ := Ok tt;
  stderr_answer _ _ := Ok tt;
  file_answer _ _ := Err (IoError "unused");
  fs_answer _ _ := Ok tt;
|}.
Definition fixed_clock : WallClock := {| epoch_secs _ := 1700000000%N |}.
Definition verify_args : VerifyCommonArgs :=
  mkVerifyCommonArgs None (Some "cp1") (Some "geary.lan") (Some "192.168.122.10") None.
Definition cp_direct : SshOptions := cp_ssh_opts (mkCpTarget "192.168.122.10" (Some "geary.lan")).

(** The Deployment is never available; its namespace goes all the same. *)
Lemma namespace_deleted_last_witness :
  let run_ := @run (verify_world "--for=condition=available" "laptop") bare_host fixed_clock (AppDeploy verify_args) [] in
  ∃ a', last (acts run_.2)
        = Some (EvSsh cp_direct (remote_kubectl (delete_ns_cmd "smoketest-1700000000")) None a').
Proof.
  apply (@namespace_deleted_last (verify_world "--for=condition=available" "laptop") bare_host fixed_clock
    (AppDeploy verify_args) [] cp_direct "smoketest-1700000000" None
    (Ok (mkRunOutput (Exited 0) ("OK /var/log/kubernetes/k8s-audit.log" +:+ NL) ""))).
  apply list_elem_of_In. vm_compute. tauto.
Defined.

(** On the KVM host the smoke test is skipped, and hardening goes to the control
    plane directly. *)
Example on_the_kvm_host :
  acts (@run (verify_world "apply" "geary") bare_host fixed_clock (AppDeploy verify_args) []).2
  = [EvLocal ["hostname"; "-s"] (Ok (mkRunOutput (Exited 0) ("geary" +:+ NL) ""))]
  ∧ let '(r, es) := @run (verify_world "apply" "geary") bare_host fixed_clock (Hardening verify_args) [] in
    r = Ok tt ∧ omap (λ e, match e with EvSsh o _ _ _ => Some (proxy_jump o) | _ => None end) es
                = [None; None; None; None; None].
Proof. vm_compute. done. Qed.

Example one_check_fails :
  let '(r, es) := @run (verify_world "rotate" "laptop") bare_host fixed_clock (Hardening verify_args) [] in
  r = Err (anyhow_msg "verify-hardening: one or more checks FAILED")
  ∧ omap (λ e, match e with EvOut l => Some l | _ => None end) es
    = [""; "[verify-hardening] summary"; "  PodSecurity restricted    : FAIL";
       "  apiserver audit log       : PASS"; "  kubelet protect-kernel    : PASS";
       "  kubelet rotate-certs      : FAIL"; "[verify-hardening] one or more checks FAILED"].
Proof. vm_compute. done. Qed.

(** On the KVM host without an address: the advice is to run from the KVM host. *)
Example unresolved_on_the_kvm_host :
  @run (verify_world "apply" "geary") bare_host fixed_clock
    (Hardening (mkVerifyCommonArgs None (Some "cp1") (Some "geary") None None)) []
  = (Err (anyhow_msg (could_not_resolve "cp1")),
     [EvLocal ["hostname"; "-s"] (Ok (mkRunOutput (Exited 0) ("geary" +:+ NL) ""));
      EvErr "[verify] already on KVM_HOST (geary); dropping ProxyJump for direct CP SSH (#353/#362)"]).
Proof. vm_compute. done. Qed.
