(* ===== verification/EtcdText.v ===== *)
(** * hbird etcd: text and numbers

    The pure helpers of [crates/hbird-cli/src/commands/etcd.rs]: timestamps,
    labels and file names, the parsing of remote output, sizes, base64 and the
    line-wise rewriting of the encryption config. *)

From S2P Require Import Prelude RustStr ConfigTypes SshOptions SshClient Effects.

(** ** Timestamps *)

(** [u32::try_from(z).unwrap_or(d)] *)
Definition u32_or (d : N) (z : Z) : N :=
  if (0 <=? z)%Z && (z <=? Z.of_N U32_MAX)%Z then Z.to_N z else d.
Definition I64_MAX : N := 9223372036854775807.

Record Civil : Set := mkCivil { year : Z; month : N; day : N; hour : N; minute : N; second : N }.
#[export] Instance Civil_eq_dec : EqDecision Civil.
Proof. solve_decision. Defined.

(** The date of a day number: days since 1970-01-01. *)
Definition civil_date (days : Z) : Z * N * N :=
  let z := (days + 719468)%Z in
  let era := (z / 146097)%Z in
  let doe := (z mod 146097)%Z in
  let yoe := ((doe - doe / 1460 + doe / 36524 - doe / 146096) / 365)%Z in
  let doy := (doe - (365 * yoe + yoe / 4 - yoe / 100))%Z in
  let mp := ((5 * doy + 2) / 153)%Z in
  let d := u32_or 1 (doy - (153 * mp + 2) / 5 + 1) in
  let m := u32_or 1 (if (mp <? 10)%Z then mp + 3 else mp - 9)%Z in
  let y := (yoe + era * 400 + (if (m <=? 2)%N then 1 else 0))%Z in
  (y, m, d).

Definition civil_from_epoch (epoch_secs : N) : Civil :=
  let d := (epoch_secs / 86400)%N in
  let days := if (d <=? I64_MAX)%N then Z.of_N d else 0%Z in
  let rem := (epoch_secs mod 86400)%N in
  let hh := u32_or 0 (Z.of_N (rem / 3600)) in
  let mm := u32_or 0 (Z.of_N (rem mod 3600 / 60)) in
  let ss := u32_or 0 (Z.of_N (rem mod 60)) in
  let '(y, m, d) := civil_date days in
  mkCivil y m d hh mm ss.

(** [{:0w}] of a number that is not negative. *)
Fixpoint zeros (n : nat) : string := match n with O => "" | S n' => String "0" (zeros n') end.
Definition pad0 (w : nat) (s : string) : string := zeros (w - String.length s) +:+ s.

Definition format_utc_timestamp (epoch_secs : N) : string :=
  let c := civil_from_epoch epoch_secs in
  pad0 4 (show_Z (year c)) +:+ pad0 2 (show_N (month c)) +:+ pad0 2 (show_N (day c)) +:+ "T"
  +:+ pad0 2 (show_N (hour c)) +:+ pad0 2 (show_N (minute c)) +:+ pad0 2 (show_N (second c)) +:+ "Z".

Definition rotation_key_name (epoch_secs : N) : string :=
  let c := civil_from_epoch epoch_secs in
  "key-" +:+ pad0 4 (show_Z (year c)) +:+ pad0 2 (show_N (month c)) +:+ pad0 2 (show_N (day c))
  +:+ pad0 2 (show_N (hour c)) +:+ pad0 2 (show_N (minute c)) +:+ pad0 2 (show_N (second c)).

(** ** Labels and file names *)

(** [s.trim_matches('-')] for a one-byte character. *)
Fixpoint trim_start_char (c : ascii) (s : string) : string :=
  match s with
  | EmptyString => EmptyString
  | String a s' => if Ascii.eqb a c then trim_start_char c s' else s
  end.
Definition trim_matches_char (c : ascii) (s : string) : string :=
  trim_end_char c (trim_start_char c s).

Definition is_label_byte (a : ascii) : bool :=
  is_ascii_alphanumeric a || Ascii.eqb a "." || Ascii.eqb a "_" || Ascii.eqb a "-".
Definition label_char (c : char) : string :=
  match c with
  | String a EmptyString => if is_label_byte a then c else "-"
  | _ => "-"
  end.

Definition sanitize_label (raw : string) : option string :=
  let mapped := concat_str (label_char <$> chars raw) in
  let trimmed := trim_matches_char "-" mapped in
  if is_empty trimmed then None else Some trimmed.

Definition snapshot_file_name (timestamp : string) (label : option string) : string :=
  match label with
  | Some l => "etcd-snapshot-" +:+ timestamp +:+ "-" +:+ l +:+ ".db"
  | None => "etcd-snapshot-" +:+ timestamp +:+ ".db"
  end.

(** ** Remote output *)

Definition parse_etcd_container_id (stdout : string) : option string :=
  head (filter (λ l, is_empty l = false) (trim <$> lines stdout)).

Definition validate_container_id (id : string) : result anyhow unit :=
  if is_empty id || negb (all_bytes is_ascii_alphanumeric id) then
    Err (anyhow_msg ("refusing to use etcd container id " +:+ debug_str id +:+ ": expected an "
      +:+ "alphanumeric crictl id (the id is interpolated into a "
      +:+ "command evaluated by the CP's /bin/sh)"))
  else Ok tt.

Definition is_image_byte (a : ascii) : bool :=
  is_ascii_alphanumeric a
  || bool_decide (a ∈ ["."%char; "_"%char; "/"%char; ":"%char; "-"%char; "@"%char]).
Definition validate_image_ref (image : string) : result anyhow unit :=
  if negb (is_empty image) && all_bytes is_image_byte image then Ok tt
  else
    Err (anyhow_msg ("refusing to use etcd image " +:+ debug_str image +:+ ": unexpected characters "
      +:+ "(the reference is interpolated into a command evaluated by "
      +:+ "the CP's /bin/sh)")).

Definition image_of_row (line : string) : option string :=
  if contains "registry.k8s.io/etcd" line then
    match split_whitespace line with
    | repo :: tag :: _ => Some (repo +:+ ":" +:+ tag)
    | _ => None
    end
  else None.
Definition pick_etcd_image (images_stdout : string) : option string :=
  head (omap image_of_row (lines images_stdout)).

(** [u64::div_ceil] *)
Definition div_ceil (a b : N) : N := ((a + b - 1) / b)%N.

(** The unit is the largest with at least 1 in it: [units] are those after the
    current one. *)
Fixpoint pick_unit (units : list string) (bytes scale : N) (unit : string) : N * string :=
  match units with
  | [] => (scale, unit)
  | next :: units' =>
      if (scale * 1024 <=? bytes)%N then pick_unit units' bytes (scale * 1024) next
      else (scale, unit)
  end.

Definition human_size (bytes : N) : string :=
  let '(scale, unit) := pick_unit ["K"; "M"; "G"; "T"] bytes 1 "" in
  if is_empty unit then show_N bytes
  else
    let tenths := div_ceil (bytes * 10) scale in
    let tenths := if (tenths <=? U64_MAX)%N then tenths else 0%N in
    if (tenths <? 100)%N
    then show_N (tenths / 10) +:+ "." +:+ show_N (tenths mod 10) +:+ unit
    else show_N (div_ceil bytes scale) +:+ unit.

(** ** Base64 *)

Definition ALPHABET : string := "ABCDEFGHIJKLMNOPQRSTUVWXYZabcdefghijklmnopqrstuvwxyz0123456789+/".
Definition base64_char (n : N) : ascii := default "="%char (String.get (N.to_nat (N.land n 63)) ALPHABET).

(** One chunk of at most three bytes. *)
Definition base64_group (b0 b1 b2 : N) : N := N.lor (N.lor (N.shiftl b0 16) (N.shiftl b1 8)) b2.

Fixpoint base64_encode (input : string) : string :=
  match input with
  | EmptyString => ""
  | String a EmptyString =>
      let n := base64_group (byte_val a) 0 0 in
      String (base64_char (N.shiftr n 18)) (String (base64_char (N.shiftr n 12)) "==")
  | String a (String b EmptyString) =>
      let n := base64_group (byte_val a) (byte_val b) 0 in
      String (base64_char (N.shiftr n 18)) (String (base64_char (N.shiftr n 12))
        (String (base64_char (N.shiftr n 6)) "="))
  | String a (String b (String c rest)) =>
      let n := base64_group (byte_val a) (byte_val b) (byte_val c) in
      String (base64_char (N.shiftr n 18)) (String (base64_char (N.shiftr n 12))
        (String (base64_char (N.shiftr n 6)) (String (base64_char n) (base64_encode rest))))
  end.

(** ** The encryption config *)

Record KeysBlock : Set := mkKeysBlock {
  keys_line : nat;
  entry_indent : nat;
  entries : list nat;
  block_end : nat;
}.
#[export] Instance KeysBlock_eq_dec : EqDecision KeysBlock.
Proof. solve_decision. Defined.

Definition indent_of (line : string) : nat :=
  (String.length line - String.length (trim_start line))%nat.
Definition is_blank (line : string) : bool := is_empty (trim line).

Definition is_aesgcm (line : string) : bool :=
  let t := trim_start line in
  starts_with "aesgcm:" (default t (strip_prefix "- " t)).
Definition is_entry (line : string) : bool := starts_with "- " (trim_start line).

(** [lines.iter().position(f)]; [i] is the index of the first of [ls]. *)
Fixpoint position (f : string → bool) (i : nat) (ls : list string) : option nat :=
  match ls with
  | [] => None
  | l :: ls' => if f l then Some i else position f (S i) ls'
  end.

(** The first loop, over the lines after the provider's. *)
Fixpoint find_keys_line (aes_indent i : nat) (ls : list string) : option nat :=
  match ls with
  | [] => None
  | l :: ls' =>
      if is_blank l then find_keys_line aes_indent (S i) ls'
      else if (indent_of l <=? aes_indent)%nat then None
      else if bool_decide (trim l = "keys:") then Some i
      else find_keys_line aes_indent (S i) ls'
  end.

(** The second loop, over the lines after [keys:]: [found] are the indices so
    far, [None] for the end means that no line ended the list. *)
Fixpoint scan_entries (keys_indent i : nat) (ls : list string) (indent : option nat)
    (found : list nat) : option nat * list nat * option nat :=
  match ls with
  | [] => (indent, found, None)
  | l :: ls' =>
      if is_blank l then scan_entries keys_indent (S i) ls' indent found
      else
        let ind := indent_of l in
        if (ind <=? keys_indent)%nat then (indent, found, Some i)
        else
          match indent with
          | None =>
              if is_entry l then scan_entries keys_indent (S i) ls' (Some ind) (found ++ [i])
              else scan_entries keys_indent (S i) ls' indent found
          | Some e =>
              if is_entry l && (ind =? e)%nat
              then scan_entries keys_indent (S i) ls' indent (found ++ [i])
              else scan_entries keys_indent (S i) ls' indent found
          end
  end.

Definition no_aesgcm : string := "no aesgcm provider found in encryption config".
Definition no_keys : string := "aesgcm provider in encryption config has no `keys:` list".
Definition empty_keys : string := "aesgcm provider's `keys:` list in encryption config is empty".

(** [lines\[i\]] *)
Definition line_at (ls : list string) (i : nat) : string := nth i ls "".

Definition find_aesgcm_keys_block (ls : list string) : result anyhow KeysBlock :=
  aes_idx ← ok_or (anyhow_msg no_aesgcm) (position is_aesgcm 0 ls);
  let aes_indent := indent_of (line_at ls aes_idx) in
  keys_line ← ok_or (anyhow_msg no_keys)
                (find_keys_line aes_indent (S aes_idx) (drop (S aes_idx) ls));
  let keys_indent := indent_of (line_at ls keys_line) in
  let '(indent, found, stop) :=
    scan_entries keys_indent (S keys_line) (drop (S keys_line) ls) None [] in
  entry_indent ← ok_or (anyhow_msg empty_keys) indent;
  Ok (mkKeysBlock keys_line entry_indent found (default (length ls) stop)).

Fixpoint spaces (n : nat) : string := match n with O => "" | S n' => String " " (spaces n') end.

(** The lines with line ends between them, and one at the end if there was. *)
Definition joined (ls : list string) (original : string) : string :=
  let s := join NL ls in
  match strip_suffix_char nl original with Some _ => s +:+ NL | None => s end.

Definition insert_primary_key (config name secret : string) : result anyhow string :=
  let ls := lines config in
  block ← find_aesgcm_keys_block ls;
  at_ ← ok_or (anyhow_msg empty_keys) (head (entries block));
  let pad := spaces (entry_indent block) in
  Ok (joined (take at_ ls ++ [pad +:+ "- name: " +:+ name; pad +:+ "  secret: " +:+ secret]
              ++ drop at_ ls) config).

Definition drop_non_primary_keys (config : string) : result anyhow string :=
  let ls := lines config in
  block ← find_aesgcm_keys_block ls;
  match entries block with
  | _ :: second :: _ => Ok (joined (take second ls ++ drop (block_end block) ls) config)
  | _ => Ok config
  end.
