(* ===== verification/EtcdCalendar.v ===== *)
(** * The calendar of hbird etcd

    [civil_from_epoch] against the Gregorian calendar, given by its leap years,
    the lengths of the months and the step to the next day. *)

From S2P Require Import Prelude RustStr ConfigTypes SshOptions SshClient Effects EtcdText.
From Stdlib Require Import ZArith.
#[local] Open Scope Z_scope.

(** ** The calendar *)

Definition is_leap (y : Z) : bool := (y mod 4 =? 0) && (negb (y mod 100 =? 0) || (y mod 400 =? 0)).
Definition month_days (leap : bool) (m : N) : N :=
  match m with
  | 2%N => if leap then 29 else 28
  | 4%N | 6%N | 9%N | 11%N => 30
  | _ => 31
  end.
Definition next_day (date : Z * N * N) : Z * N * N :=
  let '(y, m, d) := date in
  if (d <? month_days (is_leap y) m)%N then (y, m, d + 1)%N
  else if (m <? 12)%N then (y, m + 1, 1)%N
  else (y + 1, 1%N, 1%N).

Definition year_start (y : Z) : Z := 365 * y + y / 4 - y / 100.
Definition year_len (y : Z) : Z := year_start (y + 1) - year_start y + (if y =? 399 then 1 else 0).
Definition year_of_era (doe : Z) : Z := (doe - doe / 1460 + doe / 36524 - doe / 146096) / 365.

Lemma year_of_era_raw doe :
  0 ≤ doe < 146097 →
  0 ≤ year_of_era doe < 400 ∧ year_start (year_of_era doe) ≤ doe
  ∧ (doe < year_start (year_of_era doe + 1) ∨ (doe = 146096 ∧ year_of_era doe = 399)).
Proof.
  intros H. unfold year_of_era, year_start. Z.to_euclidean_division_equations. lia.
Qed.

Lemma year_of_era_bounds doe :
  0 ≤ doe < 146097 →
  0 ≤ year_of_era doe < 400
  ∧ year_start (year_of_era doe) ≤ doe < year_start (year_of_era doe) + year_len (year_of_era doe).
Proof.
  intros H. destruct (year_of_era_raw doe H) as (H1 & H2 & H3). split; [done|]. split; [done|].
  unfold year_len. destruct H3 as [H3|[-> ->]]; [|reflexivity].
  destruct (year_of_era doe =? 399); lia.
Qed.

Lemma year_of_era_unique doe y :
  0 ≤ doe < 146097 → 0 ≤ y < 400 → year_start y ≤ doe < year_start y + year_len y →
  year_of_era doe = y.
Proof.
  intros Hd Hy Hb. destruct (year_of_era_bounds doe Hd) as [Hy' Hb'].
  set (y' := year_of_era doe) in *. clearbody y'. revert Hb Hb'.
  unfold year_len, year_start. destruct (Z.eqb_spec y 399), (Z.eqb_spec y' 399); intros; cbv iota in *;
    Z.to_euclidean_division_equations; lia.
Qed.

Lemma year_len_leap y e : 0 ≤ y < 400 →
  year_len y = if is_leap (y + 1 + e * 400) then 366 else 365.
Proof.
  intros Hy. unfold is_leap.
  replace ((y + 1 + e * 400) mod 4) with ((y + 1) mod 4) by (Z.to_euclidean_division_equations; lia).
  replace ((y + 1 + e * 400) mod 100) with ((y + 1) mod 100) by (Z.to_euclidean_division_equations; lia).
  rewrite Z.mod_add by lia. unfold year_len, year_start.
  destruct (Z.eqb_spec y 399), (Z.eqb_spec ((y + 1) mod 4) 0), (Z.eqb_spec ((y + 1) mod 100) 0),
    (Z.eqb_spec ((y + 1) mod 400) 0); cbn [andb orb negb]; Z.to_euclidean_division_equations; lia.
Qed.

(** Month and day of a day of the year that starts in March, with 1 when they
    fall into the next calendar year. *)
Definition month_day (doy : Z) : Z * N * N :=
  let mp := (5 * doy + 2) / 153 in
  let d := u32_or 1 (doy - (153 * mp + 2) / 5 + 1) in
  let m := u32_or 1 (if (mp <? 10) then mp + 3 else mp - 9) in
  (if (m <=? 2)%N then 1 else 0, m, d).

Definition next_month_day (leap : bool) (c : Z * N * N) : Z * N * N :=
  let '(y, m, d) := c in
  if (d <? month_days leap m)%N then (y, m, d + 1)%N
  else if (m <? 12)%N then (y, m + 1, 1)%N
  else (y + 1, 1%N, 1%N).

Lemma next_day_shift y c m d :
  next_day (y + c, m, d) = let '(c', m', d') := next_month_day (is_leap (y + c)) (c, m, d) in (y + c', m', d').
Proof.
  unfold next_day, next_month_day. repeat case_match; try done. by rewrite Z.add_assoc.
Qed.

Lemma month_day_table :
  forallb (λ n, bool_decide (month_day (Z.of_nat n + 1) = next_month_day true (month_day (Z.of_nat n)))
                && bool_decide (month_day (Z.of_nat n + 1) = next_month_day false (month_day (Z.of_nat n))))
    (seq 0 364) = true.
Proof. vm_compute. reflexivity. Qed.

Lemma month_day_next doy leap :
  0 ≤ doy < 364 → month_day (doy + 1) = next_month_day leap (month_day doy).
Proof.
  intros Hd. pose proof (proj1 (forallb_elem _ _) month_day_table (Z.to_nat doy)) as H.
  cbv beta in H. rewrite Z2Nat.id in H by lia.
  assert (Hin : Z.to_nat doy ∈ seq 0 364) by (apply elem_of_seq; lia).
  specialize (H Hin). apply andb_true_iff in H as [H1%bool_decide_eq_true H2%bool_decide_eq_true].
  by destruct leap.
Qed.

Lemma civil_date_era e doe :
  0 ≤ doe < 146097 →
  civil_date (e * 146097 + doe - 719468)
  = let '(c, m, d) := month_day (doe - year_start (year_of_era doe)) in
    (year_of_era doe + e * 400 + c, m, d).
Proof.
  intros Hd. unfold civil_date.
  replace (e * 146097 + doe - 719468 + 719468) with (doe + e * 146097) by lia.
  rewrite Z.div_add, Z.mod_add by lia. rewrite (Z.div_small doe), (Z.mod_small doe) by lia.
  fold (year_of_era doe). replace (365 * year_of_era doe + year_of_era doe / 4 - year_of_era doe / 100)
    with (year_start (year_of_era doe)) by reflexivity.
  unfold month_day. cbv zeta. rewrite Z.add_0_l. reflexivity.
Qed.

(** The last day of a March year is followed by the first of the next. *)
Lemma civil_date_new_year e doe :
  0 ≤ doe < 146097 → doe - year_start (year_of_era doe) + 1 = year_len (year_of_era doe) →
  civil_date (e * 146097 + (doe + 1) - 719468) = (year_of_era doe + 1 + e * 400, 3%N, 1%N).
Proof.
  intros Hd Hlast. destruct (year_of_era_bounds doe Hd) as [Hy _]. remember (year_of_era doe) as y eqn:Ey.
  destruct (Z.eq_dec y 399) as [->|Hy'].
  - change (year_len 399) with 366 in Hlast. change (year_start 399) with 145731 in Hlast.
    replace (e * 146097 + (doe + 1) - 719468) with ((e + 1) * 146097 + 0 - 719468) by lia.
    rewrite civil_date_era by lia. change (year_of_era 0) with 0.
    change (month_day (0 - year_start 0)) with (0, 3%N, 1%N). cbv beta iota.
    replace (0 + (e + 1) * 400 + 0) with (399 + 1 + e * 400) by lia. done.
  - assert (Hys : year_start (y + 1) = doe + 1).
    { unfold year_len in Hlast. rewrite (proj2 (Z.eqb_neq y 399) Hy') in Hlast. lia. }
    assert (Hd' : 0 ≤ doe + 1 < 146097).
    { split; [lia|]. rewrite <-Hys. clear -Hy Hy'. unfold year_start.
      Z.to_euclidean_division_equations; lia. }
    rewrite civil_date_era by done. rewrite (year_of_era_unique (doe + 1) (y + 1)); [|done|lia|].
    + rewrite Hys, Z.sub_diag. change (month_day 0) with (0, 3%N, 1%N). cbv beta iota.
      by rewrite Z.add_0_r.
    + rewrite Hys, (year_len_leap (y + 1) e) by lia. destruct (is_leap _); lia.
Qed.

Lemma civil_date_step e doe :
  0 ≤ doe < 146097 →
  civil_date (e * 146097 + (doe + 1) - 719468) = next_day (civil_date (e * 146097 + doe - 719468)).
Proof.
  intros Hd. destruct (year_of_era_bounds doe Hd) as [Hy Hb]. rewrite (civil_date_era e doe) by done.
  pose proof (civil_date_new_year e doe Hd) as Hnew. pose proof (year_len_leap (year_of_era doe) e Hy) as Hlen.
  remember (year_of_era doe) as y eqn:Ey. remember (doe - year_start y) as doy eqn:Edoy.
  replace (y + 1 + e * 400) with (y + e * 400 + 1) in * by lia.
  destruct (Z.eq_dec (doy + 1) (year_len y)) as [Hlast|Hnot].
  - rewrite Hnew by done. destruct (is_leap (y + e * 400 + 1)) eqn:Hl; rewrite Hlen in Hlast.
    + replace doy with 365 by lia. change (month_day 365) with (1, 2%N, 29%N).
      unfold next_day. by rewrite Hl.
    + replace doy with 364 by lia. change (month_day 364) with (1, 2%N, 28%N).
      unfold next_day. by rewrite Hl.
  - assert (Hd' : 0 ≤ doe + 1 < 146097).
    { split; [lia|]. destruct (Z.eq_dec doe 146096) as [E|]; [|lia]. exfalso. apply Hnot.
      rewrite Edoy, Ey, E. reflexivity. }
    rewrite civil_date_era by done. rewrite (year_of_era_unique (doe + 1) y) by (done || lia).
    replace (doe + 1 - year_start y) with (doy + 1) by lia.
    destruct (month_day doy) as [[c m] d] eqn:Hmd. rewrite next_day_shift, <-Hmd.
    destruct (Z.eq_dec doy 364) as [->|Hne].
    + injection Hmd as <- <- <-. destruct (is_leap (y + e * 400 + 1)); [reflexivity|lia].
    + rewrite month_day_next with (leap := is_leap (y + e * 400 + c)); [reflexivity|].
      destruct (is_leap (y + e * 400 + 1)); lia.
Qed.

Lemma civil_date_next days : civil_date (days + 1) = next_day (civil_date days).
Proof.
  pose proof (Z.mod_pos_bound (days + 719468) 146097 ltac:(lia)) as Hd.
  pose proof (civil_date_step ((days + 719468) / 146097) _ Hd) as H.
  pose proof (Z.div_mod (days + 719468) 146097 ltac:(lia)) as Hz.
  replace days with ((days + 719468) / 146097 * 146097 + (days + 719468) mod 146097 - 719468) at 2 by lia.
  rewrite <-H. f_equal. lia.
Qed.

Lemma civil_date_iter n : civil_date (Z.of_N n) = N.iter n next_day (1970, 1%N, 1%N).
Proof.
  induction n as [|n IH] using N.peano_ind; [reflexivity|].
  by rewrite N2Z.inj_succ, <-Z.add_1_r, civil_date_next, N.iter_succ, IH.
Qed.

Lemma u32_or_small d n : (n ≤ U32_MAX)%N → u32_or d (Z.of_N n) = n.
Proof.
  intros Hn. unfold u32_or. rewrite N2Z.id.
  destruct (Z.leb_spec 0 (Z.of_N n)), (Z.leb_spec (Z.of_N n) (Z.of_N U32_MAX)); cbn; lia.
Qed.

(** The date and time of a timestamp, for every number of seconds that fits 64
    bits: the date is as many days after 1970-01-01 in the Gregorian calendar as
    there are whole days, and hours, minutes and seconds are in range and add up
    to the rest. *)
Theorem civil_from_epoch_gregorian t (Ht : (t ≤ U64_MAX)%N) :
  let c := civil_from_epoch t in
  (year c, month c, day c) = N.iter (t / 86400) next_day (1970, 1%N, 1%N)
  ∧ (hour c < 24 ∧ minute c < 60 ∧ second c < 60)%N
  ∧ (t mod 86400 = hour c * 3600 + minute c * 60 + second c)%N.
Proof.
  cbv zeta. unfold civil_from_epoch.
  assert (Hd : (t / 86400 ≤ 213503982334601)%N).
  { transitivity (U64_MAX / 86400)%N; [by apply N.Div0.div_le_mono|by vm_compute]. }
  rewrite (proj2 (N.leb_le _ I64_MAX)) by (unfold I64_MAX; lia).
  rewrite <-civil_date_iter.
  destruct (civil_date (Z.of_N (t / 86400))) as [[y m] d]. cbn [year month day hour minute second].
  pose proof (N.mod_lt t 86400 ltac:(done)) as Hr. remember (t mod 86400)%N as r eqn:Er. clear Er Hd Ht.
  rewrite !u32_or_small by (unfold U32_MAX; clear - Hr; zify; Z.to_euclidean_division_equations; lia).
  split; [done|]. zify; Z.to_euclidean_division_equations; lia.
Qed.

Lemma civil_from_epoch_gregorian_witness :
  let c := civil_from_epoch 1700000000 in
  (year c, month c, day c) = N.iter (1700000000 / 86400) next_day (1970, 1%N, 1%N)
  ∧ (hour c < 24 ∧ minute c < 60 ∧ second c < 60)%N
  ∧ (1700000000 mod 86400 = hour c * 3600 + minute c * 60 + second c)%N.
Proof. apply (civil_from_epoch_gregorian 1700000000). vm_compute. discriminate. Defined.
