(* ===== verification/EtcdTextFacts.v ===== *)
(** * hbird etcd: base64, labels and the strings that reach a shell

    [base64_encode] against a decoder; what a sanitised label and the validated
    container ids and image references look like. *)

From S2P Require Import Prelude RustStr ConfigTypes SshOptions SshClient Effects Shell EtcdText.

(** ** Base64 *)

(** The position of a character in the alphabet. *)
Fixpoint index_of (c : ascii) (i : N) (s : string) : option N :=
  match s with
  | EmptyString => None
  | String a s' => if Ascii.eqb a c then Some i else index_of c (N.succ i) s'
  end.
Definition base64_value (c : ascii) : option N := index_of c 0 ALPHABET.

Definition byte (n : N) : ascii := ascii_of_N (n mod 256).

(** The decoder of RFC 4648: groups of four characters, the last one padded. *)
Fixpoint base64_decode (s : string) : option string :=
  match s with
  | EmptyString => Some ""
  | String c0 (String c1 (String c2 (String c3 rest))) =>
      v0 ← base64_value c0;
      v1 ← base64_value c1;
      let hi := (v0 * 64 + v1)%N in
      if Ascii.eqb c2 "=" then
        if Ascii.eqb c3 "=" && is_empty rest then Some (chr (byte (hi / 16))) else None
      else
        v2 ← base64_value c2;
        if Ascii.eqb c3 "=" then
          if is_empty rest
          then Some (String (byte (hi / 16)) (chr (byte ((hi * 64 + v2) / 4)))) else None
        else
          v3 ← base64_value c3;
          let n := ((hi * 64 + v2) * 64 + v3)%N in
          tail ← base64_decode rest;
          Some (String (byte (n / 65536)) (String (byte (n / 256)) (String (byte n) tail)))
  | _ => None
  end.

Lemma base64_alphabet :
  forallb (λ n, bool_decide (base64_value (base64_char (N.of_nat n)) = Some (N.of_nat n))
                && negb (Ascii.eqb (base64_char (N.of_nat n)) "=")) (seq 0 64) = true.
Proof. vm_compute. reflexivity. Qed.

Lemma base64_char_value n :
  base64_value (base64_char n) = Some (n mod 64)%N ∧ Ascii.eqb (base64_char n) "=" = false.
Proof.
  assert (Hn : (n mod 64 < 64)%N) by (apply N.mod_lt; done).
  assert (E : base64_char n = base64_char (n mod 64)).
  { unfold base64_char. change 63%N with (N.ones 6). by rewrite !N.land_ones, N.Div0.mod_mod. }
  pose proof (proj1 (forallb_elem _ _) base64_alphabet (N.to_nat (n mod 64))) as H.
  cbv beta in H. rewrite N2Nat.id, <-E in H.
  assert (Hin : N.to_nat (n mod 64) ∈ seq 0 64).
  { clear -Hn. remember (n mod 64)%N as k. apply elem_of_seq. lia. }
  specialize (H Hin). apply andb_true_iff in H as [H1%bool_decide_eq_true H2%negb_true_iff]. done.
Qed.

(** The bytes of a group do not overlap. *)
Lemma lor_shiftl a k b : (b < 2 ^ k)%N → N.lor (N.shiftl a k) b = (a * 2 ^ k + b)%N.
Proof.
  intros Hb. assert (Hland : N.land (N.shiftl a k) b = 0%N).
  { apply N.bits_inj. intros i. rewrite N.land_spec, N.bits_0.
    destruct (N.lt_ge_cases i k); [by rewrite N.shiftl_spec_low|].
    destruct (N.eq_dec b 0) as [->|]; [by rewrite N.bits_0, andb_false_r|].
    rewrite (N.bits_above_log2 b i), andb_false_r; [done|].
    apply N.log2_lt_pow2 in Hb; lia. }
  rewrite <-N.lxor_lor, <-N.add_nocarry_lxor by done. by rewrite N.shiftl_mul_pow2.
Qed.

Lemma base64_group_sum b0 b1 b2 :
  (b1 < 256)%N → (b2 < 256)%N → base64_group b0 b1 b2 = (b0 * 65536 + b1 * 256 + b2)%N.
Proof.
  intros H1 H2. unfold base64_group.
  rewrite (lor_shiftl b0 16) by (rewrite N.shiftl_mul_pow2; change (2 ^ 16)%N with 65536%N;
    change (2 ^ 8)%N with 256%N; lia).
  change (2 ^ 16)%N with 65536%N.
  replace (b0 * 65536 + N.shiftl b1 8)%N with (N.shiftl (b0 * 256 + b1) 8)
    by (rewrite !N.shiftl_mul_pow2; change (2 ^ 8)%N with 256%N; lia).
  rewrite lor_shiftl by done. change (2 ^ 8)%N with 256%N. lia.
Qed.

Lemma byte_val_lt a : (byte_val a < 256)%N.
Proof. unfold byte_val. by destruct a as [[] [] [] [] [] [] [] []]. Qed.

Lemma byte_of n a : (n mod 256 = byte_val a)%N → byte n = a.
Proof. unfold byte. intros ->. apply ascii_N_embedding. Qed.

Ltac group_arith := zify; Z.to_euclidean_division_equations; lia.

(** The four values of a group of three bytes give the bytes back. *)
Section group.
Context (a b c : N) (Ha : (a < 256)%N) (Hb : (b < 256)%N) (Hc : (c < 256)%N).
Let n := (a * 65536 + b * 256 + c)%N.
Let v0 := (n / 262144 mod 64)%N.
Let v1 := (n / 4096 mod 64)%N.
Let v2 := (n / 64 mod 64)%N.
Let v3 := (n mod 64)%N.

Lemma group_byte_0 : ((v0 * 64 + v1) / 16 mod 256 = a)%N.
Proof using Ha Hb Hc. subst n v0 v1 v2 v3. group_arith. Qed.
Lemma group_byte_1 : (((v0 * 64 + v1) * 64 + v2) / 4 mod 256 = b)%N.
Proof using Ha Hb Hc. subst n v0 v1 v2 v3. group_arith. Qed.
Lemma group_all : ((((v0 * 64 + v1) * 64 + v2) * 64 + v3) = n)%N.
Proof using Ha Hb Hc. subst n v0 v1 v2 v3. group_arith. Qed.
End group.

(** Strings three characters at a time. *)
Lemma string_three_ind (P : string → Prop) :
  P "" → (∀ a, P (chr a)) → (∀ a b, P (String a (chr b))) →
  (∀ a b c s, P s → P (String a (String b (String c s)))) → ∀ s, P s.
Proof.
  intros H0 H1 H2 H3. fix IH 1. intros [|a [|b [|c s]]]; [done|apply H1|apply H2|].
  apply H3, IH.
Qed.

Lemma shiftr_values n :
  (N.shiftr n 18 = n / 262144 ∧ N.shiftr n 12 = n / 4096 ∧ N.shiftr n 6 = n / 64)%N.
Proof. by rewrite !N.shiftr_div_pow2. Qed.

Lemma base64_char_decoded n {B} (f : N → option B) :
  base64_value (base64_char n) ≫= f = f (n mod 64)%N.
Proof. by destruct (base64_char_value n) as [-> _]. Qed.

Lemma base64_char_not_pad n : Ascii.eqb (base64_char n) "=" = false.
Proof. apply base64_char_value. Qed.

(** Decoding what [base64_encode] writes gives the bytes back, for every
    input: with the 32 bytes of a rotation key, the secret in the encryption
    config is the key. *)
Theorem base64_roundtrip s : base64_decode (base64_encode s) = Some s.
Proof.
  induction s as [|a|a b|a b c s IH] using string_three_ind; [done|..]; unfold chr in *; cbn [base64_encode]; cbv zeta;
    pose proof (byte_val_lt a) as Ha; try pose proof (byte_val_lt b) as Hb;
    try pose proof (byte_val_lt c) as Hc;
    rewrite base64_group_sum by done;
    match goal with |- context [N.shiftr ?n 18] => destruct (shiftr_values n) as (-> & -> & E6) end;
    rewrite ?E6; cbn [base64_decode];
    rewrite !base64_char_decoded; cbv zeta; rewrite ?base64_char_not_pad, ?base64_char_decoded.
  - unfold chr. repeat f_equal. apply byte_of. by apply group_byte_0.
  - unfold chr. cbn [Ascii.eqb is_empty]. repeat f_equal; apply byte_of;
      [by apply group_byte_0|by apply group_byte_1].
  - rewrite group_all by done. rewrite IH. cbn. repeat f_equal; apply byte_of; clear -Ha Hb Hc;
      revert Ha Hb Hc; generalize (byte_val a) (byte_val b) (byte_val c); intros; group_arith.
Qed.

(** ** Labels *)

Definition no_edge_dash (s : string) : bool :=
  negb (starts_with_char "-" s)
  && match strip_suffix_char "-" s with Some _ => false | None => true end.

Lemma label_char_bytes c : all_bytes is_label_byte (label_char c) = true.
Proof.
  unfold label_char. destruct c as [|a [|b s]]; [done| |done].
  destruct (is_label_byte a) eqn:Ha; cbn; [by rewrite Ha|done].
Qed.

Lemma label_chars_bytes cs : all_bytes is_label_byte (concat_str (label_char <$> cs)) = true.
Proof.
  induction cs as [|c cs IH]; [done|]. cbn [fmap list_fmap concat_str].
  by rewrite all_bytes_app, label_char_bytes.
Qed.

Lemma trim_start_char_suffix c s : ∃ t, s = t +:+ trim_start_char c s ∧ all_bytes (Ascii.eqb c) t = true.
Proof.
  induction s as [|a s (t & E & Ht)]; [by exists ""|]. cbn [trim_start_char].
  destruct (Ascii.eqb_spec a c) as [->|]; [|by exists ""].
  exists (String c t). split; [by cbn; rewrite <-E|]. cbn. by rewrite ascii_eqb_refl.
Qed.

Lemma trim_end_char_prefix c s : ∃ t, s = trim_end_char c s +:+ t ∧ all_bytes (Ascii.eqb c) t = true.
Proof.
  induction s as [|a s (t & E & Ht)]; [by exists ""|]. cbn [trim_end_char].
  destruct (trim_end_char c s) as [|b u] eqn:Et.
  - destruct (Ascii.eqb_spec a c) as [->|].
    + exists (String c t). split; [by cbn in *; rewrite <-E|]. cbn. by rewrite ascii_eqb_refl.
    + exists t. split; [by cbn in *; rewrite <-E|done].
  - exists t. split; [by cbn in *; rewrite <-E|done].
Qed.

Lemma trim_start_char_head c s : starts_with_char c (trim_start_char c s) = false.
Proof.
  induction s as [|a s IH]; [done|]. cbn [trim_start_char].
  destruct (Ascii.eqb a c) eqn:E; [done|]. cbn. by rewrite E.
Qed.

Lemma trim_end_char_last c s : strip_suffix_char c (trim_end_char c s) = None.
Proof.
  induction s as [|a s IH]; [done|]. cbn [trim_end_char].
  destruct (trim_end_char c s) as [|b u] eqn:Et.
  - destruct (Ascii.eqb a c) eqn:E; [done|]. cbn. by rewrite E.
  - cbn [strip_suffix_char] in *. by rewrite IH.
Qed.

Lemma trim_end_char_head c d s :
  starts_with_char d s = false → starts_with_char d (trim_end_char c s) = false.
Proof.
  destruct s as [|a s]; [done|]. cbn. intros Ha.
  destruct (trim_end_char c s); [|done]. by destruct (Ascii.eqb a c).
Qed.

(** A label that is used has the characters of a file name component only
    (no [/], so the snapshot stays in the output directory), is not empty and
    neither starts nor ends with a dash; the label is the mapped text without
    the dashes at its ends.  There is none exactly for a text of dashes only. *)
Theorem sanitize_label_spec raw :
  match sanitize_label raw with
  | Some l =>
      is_empty l = false ∧ all_bytes is_label_byte l = true ∧ no_edge_dash l = true
      ∧ ∃ t u, concat_str (label_char <$> chars raw) = t +:+ l +:+ u
             ∧ all_bytes (Ascii.eqb "-") (t +:+ u) = true
  | None => all_bytes (Ascii.eqb "-") (concat_str (label_char <$> chars raw)) = true
  end.
Proof.
  unfold sanitize_label, trim_matches_char.
  pose proof (label_chars_bytes (chars raw)) as Hb.
  set (m := concat_str (label_char <$> chars raw)) in *.
  destruct (trim_start_char_suffix "-" m) as (t & Et & Ht).
  destruct (trim_end_char_prefix "-" (trim_start_char "-" m)) as (u & Eu & Hu).
  destruct (is_empty (trim_end_char "-" (trim_start_char "-" m))) eqn:He.
  - destruct (trim_end_char _ _) in He, Eu; [|done]. cbn in Eu. rewrite Et, Eu, all_bytes_app, Ht. exact Hu.
  - split; [done|]. split; [|split].
    + rewrite Et, all_bytes_app in Hb. apply andb_true_iff in Hb as [_ Hb].
      rewrite Eu, all_bytes_app in Hb. by apply andb_true_iff in Hb as [Hb _].
    + unfold no_edge_dash. rewrite trim_end_char_last, trim_end_char_head; [done|].
      apply trim_start_char_head.
    + exists t, u. rewrite <-Eu, <-Et, all_bytes_app, Ht, Hu. done.
Qed.

(** A text that is a label already. *)
Lemma sanitize_label_id l :
  is_empty l = false → all_bytes is_label_byte l = true → no_edge_dash l = true →
  sanitize_label l = Some l.
Proof.
  intros Hne Hb Hd. unfold no_edge_dash in Hd. apply andb_true_iff in Hd as [Hs%negb_true_iff He].
  assert (E : concat_str (label_char <$> chars l) = l).
  { clear -Hb. induction l as [|a l IH]; [done|]. cbn [all_bytes] in Hb.
    apply andb_true_iff in Hb as [Ha Hb]. rewrite chars_cons.
    - cbn [fmap list_fmap concat_str]. rewrite IH by done. unfold label_char, chr. by rewrite Ha.
    - destruct a as [[] [] [] [] [] [] [] []]; first [reflexivity|vm_compute in Ha; discriminate Ha]. }
  unfold sanitize_label, trim_matches_char. rewrite E.
  assert (trim_start_char "-" l = l) as ->.
  { destruct l as [|a l]; [done|]. cbn in *. by rewrite Hs. }
  assert (trim_end_char "-" l = l) as ->; [|by rewrite Hne].
  clear -He. induction l as [|a l IH]; [done|]. cbn [trim_end_char strip_suffix_char] in *.
  destruct l as [|b l]; [cbn; by destruct (Ascii.eqb a "-")|].
  rewrite IH; [done|]. by destruct (strip_suffix_char "-" (String b l)).
Qed.
