(* ===== verification/EtcdKeysFacts.v ===== *)
(** * hbird etcd: the edits of the encryption config

    [insert_primary_key] and [drop_non_primary_keys] on the lines of the file,
    against the list of keys they are meant to edit. *)

From S2P Require Import Prelude RustStr ConfigTypes SshOptions SshClient Effects EtcdText.

(** ** Lines *)

(** A line as [lines] gives it: no line feed, no carriage return. *)
Definition plain (l : string) : bool := negb (contains_char nl l) && negb (contains_char cr l).

Lemma strip_suffix_char_none c s : contains_char c s = false → strip_suffix_char c s = None.
Proof.
  unfold contains_char. induction s as [|a s IH]; cbn [any_byte strip_suffix_char]; [done|].
  intros [Ha Hs]%orb_false_iff. rewrite IH by done. rewrite Ascii.eqb_sym, Ha.
  by destruct s.
Qed.

Lemma join_cons sep l ls : ls ≠ [] → join sep (l :: ls) = l +:+ sep +:+ join sep ls.
Proof. by destruct ls. Qed.

(** Joined lines are read back, when the text ends with a line end or the last
    line is not empty. *)
Lemma lines_join_nl ls :
  forallb plain ls = true → ls ≠ [] → lines (join NL ls +:+ NL) = ls.
Proof.
  intros Hp Hne. induction ls as [|l ls IH]; [done|]. clear Hne. cbn [forallb] in Hp.
  apply andb_true_iff in Hp as [Hl Hp].
  unfold plain in Hl. apply andb_true_iff in Hl as [Hl%negb_true_iff Hc%negb_true_iff].
  destruct ls as [|l' ls].
  - cbn [join]. unfold NL, chr. rewrite lines_line; [done|done|by apply strip_suffix_char_none].
  - rewrite join_cons, <-!app_assoc_s by done. unfold NL at 1, chr. cbn [String.append].
    rewrite lines_line; [|done|by apply strip_suffix_char_none]. f_equal. by apply IH.
Qed.

Lemma split_inclusive_nl_last l :
  l ≠ "" → contains_char nl l = false → split_inclusive_nl l = [l].
Proof.
  unfold contains_char. induction l as [|a l IH]; [done|]. intros _.
  cbn [any_byte split_inclusive_nl]. intros [Ha Hl]%orb_false_iff.
  rewrite Ascii.eqb_sym, Ha. destruct l as [|b l]; [done|]. by rewrite IH.
Qed.

Lemma lines_join ls l :
  forallb plain (ls ++ [l]) = true → l ≠ "" → lines (join NL (ls ++ [l])) = ls ++ [l].
Proof.
  intros Hp Hne. induction ls as [|k ls IH]; cbn [app forallb] in Hp;
    apply andb_true_iff in Hp as [Hk Hp]; unfold plain in Hk;
    apply andb_true_iff in Hk as [Hk%negb_true_iff Hc%negb_true_iff].
  - cbn [app join]. unfold lines. rewrite split_inclusive_nl_last by done. cbn [fmap list_fmap].
    unfold strip_line_end. by rewrite strip_suffix_char_none.
  - cbn [app]. rewrite join_cons by by destruct ls. unfold NL at 1, chr. cbn [String.append].
    rewrite lines_line; [|done|by apply strip_suffix_char_none]. f_equal. by apply IH.
Qed.

Lemma length_append s t : String.length (s +:+ t) = (String.length s + String.length t)%nat.
Proof. induction s as [|a s IH]; [done|]. cbn. by rewrite IH. Qed.

(** A text is empty, or a last line without its end, or a line and the rest. *)
Lemma lines_cases s :
  contains_char cr s = false →
  s = "" ∨ (s ≠ "" ∧ plain s = true ∧ lines s = [s])
  ∨ ∃ l t, s = l +:+ String nl t ∧ plain l = true ∧ contains_char cr t = false
           ∧ lines s = l :: lines t.
Proof.
  intros Hcr. destruct (split_once nl s) as [[l t]|] eqn:E.
  - apply split_once_Some in E as [-> Hl]. do 2 right. exists l, t.
    rewrite contains_char_app, contains_char_cons in Hcr.
    apply orb_false_iff in Hcr as [Hc [_ Ht]%orb_false_iff].
    unfold plain. rewrite Hl, Hc, lines_line; [done|done|by apply strip_suffix_char_none].
  - apply split_once_None in E. destruct s as [|a s]; [by left|]. right; left.
    unfold plain. rewrite E, Hcr. unfold lines. rewrite split_inclusive_nl_last by done.
    cbn [fmap list_fmap]. unfold strip_line_end. by rewrite strip_suffix_char_none.
Qed.

Lemma strip_suffix_char_line s t :
  t ≠ "" → strip_suffix_char nl (s +:+ t) = String.append s <$> strip_suffix_char nl t.
Proof.
  intros Ht. induction s as [|a s IH]; cbn [String.append].
  - by destruct (strip_suffix_char nl t).
  - cbn [strip_suffix_char]. rewrite IH. destruct (s +:+ t) eqn:E; [by destruct s, t|].
    by destruct (strip_suffix_char nl t).
Qed.

(** The lines of a text without carriage returns are plain and join back; only
    a text with a line end at its end can have an empty last line. *)
Lemma lines_spec s :
  contains_char cr s = false →
  forallb plain (lines s) = true ∧ joined (lines s) s = s
  ∧ (strip_suffix_char nl s = None → s ≠ "" → ∃ ls l, lines s = ls ++ [l] ∧ l ≠ "").
Proof.
  induction s as [s IH] using string_len_ind. intros Hcr.
  destruct (lines_cases s Hcr) as [->|[(Hne & Hp & E)|(l & t & -> & Hl & Ht & E)]]; [done|..].
  - rewrite E. cbn [forallb]. rewrite Hp. unfold joined. split; [done|].
    unfold plain in Hp. apply andb_true_iff in Hp as [Hnl%negb_true_iff _].
    rewrite strip_suffix_char_none by done. split; [done|]. intros _ _. by exists [], s.
  - rewrite E. cbn [forallb]. rewrite Hl. cbn [andb].
    destruct (IH t) as (IH1 & IH2 & IH3); [rewrite length_append; simpl; lia|done|].
    split; [done|]. destruct (decide (t = "")) as [->|Hne].
    + unfold joined. change (String nl "") with (chr nl). rewrite strip_suffix_char_app.
      split; [done|done].
    + unfold joined in *. change (String nl t) with (NL +:+ t).
      rewrite app_assoc_s, strip_suffix_char_line by done.
      assert (lines t ≠ []) as Hls.
      { destruct (lines_cases t Ht) as [->|[(_ & _ & ->)|(? & ? & _ & _ & _ & ->)]]; done. }
      rewrite join_cons by done.
      destruct (strip_suffix_char nl t) as [u|]; cbn [fmap option_fmap option_map].
      * split; [|done]. by rewrite <-!app_assoc_s, IH2.
      * split; [by rewrite <-!app_assoc_s, IH2|]. intros _ _.
        destruct IH3 as (ls & k & -> & Hk); [done|done|]. by exists (l :: ls), k.
Qed.

(** ** The block of keys *)

(** Lines that the two loops step over. *)
Definition before_keys (aes_indent : nat) (l : string) : bool :=
  is_blank l || (Nat.ltb aes_indent (indent_of l) && negb (bool_decide (trim l = "keys:"))).
Definition is_keys (aes_indent : nat) (l : string) : bool :=
  negb (is_blank l) && Nat.ltb aes_indent (indent_of l) && bool_decide (trim l = "keys:").
Definition before_entry (keys_indent : nat) (l : string) : bool :=
  is_blank l || (Nat.ltb keys_indent (indent_of l) && negb (is_entry l)).
Definition first_entry (keys_indent : nat) (l : string) : bool :=
  negb (is_blank l) && Nat.ltb keys_indent (indent_of l) && is_entry l.

Lemma ltb_leb n m : Nat.ltb n m = negb (m <=? n)%nat.
Proof. apply Nat.ltb_antisym. Qed.

Lemma position_spec f i ls k :
  position f i ls = Some k ↔
  ∃ A p B, ls = A ++ p :: B ∧ forallb (λ l, negb (f l)) A = true ∧ f p = true
           ∧ k = (i + length A)%nat.
Proof.
  revert i. induction ls as [|l ls IH]; intros i; cbn [position].
  - split; [done|]. by intros ([|] & ? & ? & [=] & _).
  - destruct (f l) eqn:E.
    + split; [intros [= <-]; exists [], l, ls; cbn; naive_solver lia|].
      intros ([|a A] & p & B & [= -> ->] & HA & Hp & ->); [by rewrite Nat.add_0_r|].
      cbn [forallb] in HA. by rewrite E in HA.
    + rewrite IH. split.
      * intros (A & p & B & -> & HA & Hp & ->). exists (l :: A), p, B. cbn. rewrite E, HA.
        cbn. naive_solver lia.
      * intros ([|a A] & p & B & [= -> ->] & HA & Hp & ->); [congruence|].
        cbn in HA. apply andb_true_iff in HA as [_ HA]. exists A, p, B. cbn. naive_solver lia.
Qed.

Lemma find_keys_line_spec n i ls k :
  find_keys_line n i ls = Some k ↔
  ∃ A p B, ls = A ++ p :: B ∧ forallb (before_keys n) A = true ∧ is_keys n p = true
           ∧ k = (i + length A)%nat.
Proof.
  revert i. induction ls as [|l ls IH]; intros i; cbn [find_keys_line].
  - split; [done|]. by intros ([|] & ? & ? & [=] & _).
  - assert (before_keys n l = true → is_keys n l = false →
            find_keys_line n (S i) ls = Some k ↔
            ∃ A p B, l :: ls = A ++ p :: B ∧ forallb (before_keys n) A = true
                     ∧ is_keys n p = true ∧ k = (i + length A)%nat) as Hskip.
    { intros Hb Hk. rewrite IH. split.
      - intros (A & p & B & -> & HA & Hp & ->). exists (l :: A), p, B. cbn. rewrite Hb, HA.
        cbn. naive_solver lia.
      - intros ([|a A] & p & B & [= -> ->] & HA & Hp & ->); [congruence|].
        cbn in HA. apply andb_true_iff in HA as [_ HA]. exists A, p, B. cbn. naive_solver lia. }
    unfold before_keys, is_keys in Hskip. rewrite ltb_leb in Hskip.
    destruct (is_blank l) eqn:Hbl; [by apply Hskip|].
    destruct (indent_of l <=? n)%nat eqn:Hi.
    + split; [done|]. unfold before_keys, is_keys.
      intros ([|a A] & p & B & [= -> ->] & HA & Hp & ->); exfalso.
      * by rewrite Hbl, ltb_leb, Hi in Hp.
      * cbn [forallb] in HA. by rewrite Hbl, ltb_leb, Hi in HA.
    + destruct (bool_decide (trim l = "keys:")) eqn:Ht; [|by apply Hskip].
      split.
      * intros [= <-]. exists [], l, ls. unfold is_keys. rewrite Hbl, ltb_leb, Hi, Ht.
        cbn. naive_solver lia.
      * intros ([|a A] & p & B & [= -> ->] & HA & Hp & ->); [by rewrite Nat.add_0_r|].
        cbn in HA. unfold before_keys in HA. by rewrite Hbl, ltb_leb, Hi, Ht in HA.
Qed.

Lemma scan_before ki A : ∀ i ls found,
  forallb (before_entry ki) A = true →
  scan_entries ki i (A ++ ls) None found = scan_entries ki (i + length A) ls None found.
Proof.
  induction A as [|l A IH]; intros i ls found; cbn [forallb app length]; [by rewrite Nat.add_0_r|].
  intros [Hl HA]%andb_true_iff. unfold before_entry in Hl. rewrite ltb_leb in Hl.
  cbn [scan_entries]. rewrite <-Nat.add_succ_comm.
  destruct (is_blank l); [by apply IH|]. cbn in Hl.
  destruct (indent_of l <=? ki)%nat; [done|]. destruct (is_entry l); [done|]. by apply IH.
Qed.

Lemma scan_first ki i l ls found :
  first_entry ki l = true →
  scan_entries ki i (l :: ls) None found
  = scan_entries ki (S i) ls (Some (indent_of l)) (found ++ [i]).
Proof.
  unfold first_entry. rewrite ltb_leb. cbn [scan_entries].
  destruct (is_blank l); [done|]. destruct (indent_of l <=? ki)%nat; [done|].
  by destruct (is_entry l).
Qed.

Lemma scan_none ki ls : ∀ i found e es stop,
  scan_entries ki i ls None found = (Some e, es, stop) →
  ∃ A l B, ls = A ++ l :: B ∧ forallb (before_entry ki) A = true ∧ first_entry ki l = true
           ∧ e = indent_of l
           ∧ scan_entries ki (S (i + length A)) B (Some e) (found ++ [(i + length A)%nat])
             = (Some e, es, stop).
Proof.
  induction ls as [|l ls IH]; intros i found e es stop; cbn [scan_entries]; [done|].
  assert (before_entry ki l = true → scan_entries ki (S i) ls None found = (Some e, es, stop) →
          ∃ A k B, l :: ls = A ++ k :: B ∧ forallb (before_entry ki) A = true
           ∧ first_entry ki k = true ∧ e = indent_of k
           ∧ scan_entries ki (S (i + length A)) B (Some e) (found ++ [(i + length A)%nat])
             = (Some e, es, stop)) as Hskip.
  { intros Hl (A & k & B & -> & HA & Hk & He & Hs)%IH. exists (l :: A), k, B. cbn.
    rewrite Hl, HA. rewrite <-!Nat.add_succ_comm. done. }
  unfold before_entry in Hskip. rewrite ltb_leb in Hskip.
  destruct (is_blank l) eqn:Hb; [by apply Hskip|].
  destruct (indent_of l <=? ki)%nat eqn:Hi; [done|].
  destruct (is_entry l) eqn:He; [|by apply Hskip].
  intros Hs. assert (e = indent_of l) as ->.
  { clear -Hs. revert Hs. generalize (S i) (found ++ [i]). induction ls as [|k ls IH];
      intros j f; cbn [scan_entries]; [by intros [= <-]|].
    destruct (is_blank k); [apply IH|]. destruct (indent_of k <=? ki)%nat; [by intros [= <-]|].
    destruct (is_entry k && _); apply IH. }
  exists [], l, ls. unfold first_entry. rewrite Hb, ltb_leb, Hi, He. cbn.
  by rewrite Nat.add_0_r.
Qed.

(** The rest of the block once the first entry is known, counted from its
    first line: the other entries and where the block ends. *)
Lemma scan_rest ki e ls : ∃ new stop, ∀ i found,
  scan_entries ki i ls (Some e) found = (Some e, found ++ (Nat.add i <$> new), Nat.add i <$> stop).
Proof.
  induction ls as [|l ls (new & stop & IH)].
  { exists [], None. intros i found. cbn. by rewrite app_nil_r. }
  destruct (is_blank l) eqn:Hb.
  { exists (S <$> new), (S <$> stop). intros i found. cbn [scan_entries]. rewrite Hb, IH.
    rewrite <-list_fmap_compose. destruct stop; cbn; rewrite ?Nat.add_succ_r; do 2 f_equal;
      apply (f_equal (app found)), list_fmap_ext; intros; cbn; lia. }
  destruct (indent_of l <=? ki)%nat eqn:Hi.
  { exists [], (Some 0%nat). intros i found. cbn [scan_entries]. rewrite Hb, Hi. cbn.
    by rewrite app_nil_r, Nat.add_0_r. }
  exists ((if is_entry l && (indent_of l =? e)%nat then [0%nat] else []) ++ (S <$> new)), (S <$> stop).
  intros i found. cbn [scan_entries]. rewrite Hb, Hi.
  destruct (is_entry l && (indent_of l =? e)%nat); rewrite IH; cbn [app];
    rewrite ?fmap_cons, <-list_fmap_compose, ?Nat.add_0_r, <-?app_assoc; cbn [app];
    (replace (Nat.add (S i) <$> new) with (Nat.add i ∘ S <$> new)
       by (apply list_fmap_ext; intros; cbn; lia));
    destruct stop; cbn; rewrite ?Nat.add_succ_r; done.
Qed.

(** The lines up to the first key: the provider, its [keys:] line (with the
    indentation [ki]) and no entry after that. *)
Definition header (ki : nat) (A : list string) : Prop :=
  ∃ P a B k C, A = P ++ a :: B ++ k :: C ∧ ki = indent_of k
  ∧ forallb (λ l, negb (is_aesgcm l)) P = true ∧ is_aesgcm a = true
  ∧ forallb (before_keys (indent_of a)) B = true ∧ is_keys (indent_of a) k = true
  ∧ forallb (before_entry ki) C = true.

(** What a block says about the lines. *)
Definition block_of (A R : list string) (f : string) (new : list nat) (stop : option nat)
    (b : KeysBlock) : Prop :=
  entry_indent b = indent_of f ∧ entries b = length A :: (Nat.add (S (length A)) <$> new)
  ∧ block_end b = (S (length A) + default (length R) stop)%nat.

Lemma line_at_app A p B : line_at (A ++ p :: B) (length A) = p.
Proof. unfold line_at. rewrite app_nth2, Nat.sub_diag by lia. done. Qed.

Lemma drop_S_app {X} (A : list X) p B : drop (S (length A)) (A ++ p :: B) = B.
Proof. induction A as [|a A IH]; [done|]. apply IH. Qed.

Lemma find_block_inv ls b :
  find_aesgcm_keys_block ls = Ok b →
  ∃ A ki f R new stop, ls = A ++ f :: R ∧ header ki A ∧ first_entry ki f = true
    ∧ (∀ i found, scan_entries ki i R (Some (indent_of f)) found
         = (Some (indent_of f), found ++ (Nat.add i <$> new), Nat.add i <$> stop))
    ∧ block_of A R f new stop b.
Proof.
  unfold find_aesgcm_keys_block. intros H. inv_bind H.
  apply ok_or_Ok, position_spec in H0 as (P & a & X & -> & HP & Ha & ->). cbn [Nat.add] in H.
  rewrite line_at_app, drop_S_app in H. inv_bind H.
  apply ok_or_Ok, find_keys_line_spec in H0 as (B & k & Y & -> & HB & Hk & ->).
  assert (E : (S (length P) + length B)%nat = length (P ++ a :: B))
    by (rewrite length_app; cbn; lia).
  assert (El : P ++ a :: B ++ k :: Y = (P ++ a :: B) ++ k :: Y) by by rewrite <-app_assoc.
  rewrite E, El, line_at_app, drop_S_app in H.
  destruct (scan_entries _ _ _ _ _) as [[[e|] es] stop] eqn:Hs; cbn [ok_or mbind result_bind] in H;
    [|done]. injection H as <-.
  apply scan_none in Hs as (C & f & R & -> & HC & Hf & -> & Hs).
  destruct (scan_rest (indent_of k) (indent_of f) R) as (new & st & Hr).
  rewrite Hr in Hs. injection Hs as <- <-.
  exists (P ++ a :: B ++ k :: C), (indent_of k), f, R, new, st.
  assert (El2 : (P ++ a :: B) ++ k :: C ++ f :: R = (P ++ a :: B ++ k :: C) ++ f :: R)
    by by rewrite <-!app_assoc; cbn; rewrite <-!app_assoc.
  assert (Elen : (S (length (P ++ a :: B)) + length C)%nat = length (P ++ a :: B ++ k :: C))
    by (rewrite !length_app; cbn; rewrite length_app; cbn; lia).
  refine (conj _ (conj _ (conj Hf (conj Hr _)))); [by rewrite <-El2, El|by exists P, a, B, k, C|].
  unfold block_of. cbn [entry_indent entries block_end]. cbn [Nat.add] in *. rewrite <-Elen, El2.
  split_and!; [done|done|]. destruct st; cbn; [lia|]. rewrite (length_app _ (f :: R)). cbn. lia.
Qed.

Lemma find_block_intro A ki f R new stop :
  header ki A → first_entry ki f = true →
  (∀ i found, scan_entries ki i R (Some (indent_of f)) found
     = (Some (indent_of f), found ++ (Nat.add i <$> new), Nat.add i <$> stop)) →
  ∃ b, find_aesgcm_keys_block (A ++ f :: R) = Ok b ∧ block_of A R f new stop b.
Proof.
  intros (P & a & B & k & C & -> & -> & HP & Ha & HB & Hk & HC) Hf Hr.
  assert (El2 : (P ++ a :: B ++ k :: C) ++ f :: R = (P ++ a :: B) ++ k :: C ++ f :: R)
    by by rewrite <-!app_assoc; cbn; rewrite <-!app_assoc.
  assert (E : (S (length P) + length B)%nat = length (P ++ a :: B))
    by (rewrite length_app; cbn; lia).
  assert (Elen : (S (length (P ++ a :: B)) + length C)%nat = length (P ++ a :: B ++ k :: C))
    by (rewrite !length_app; cbn; rewrite length_app; cbn; lia).
  eexists (mkKeysBlock _ _ _ _). split.
  - unfold find_aesgcm_keys_block. rewrite El2.
    rewrite (proj2 (position_spec is_aesgcm 0 _ (length P)));
      [|exists P, a, (B ++ k :: C ++ f :: R); by rewrite <-app_assoc].
    cbn [ok_or mbind result_bind].
    rewrite <-(app_assoc P (a :: B)). cbn [app]. rewrite line_at_app, drop_S_app.
    rewrite (proj2 (find_keys_line_spec _ _ _ (S (length P) + length B)%nat));
      [|exists B, k, (C ++ f :: R); done].
    cbn [ok_or mbind result_bind].
    replace (P ++ a :: B ++ k :: C ++ f :: R) with ((P ++ a :: B) ++ k :: C ++ f :: R)
      by by rewrite <-app_assoc.
    rewrite E, line_at_app, drop_S_app, scan_before, scan_first, Hr by done.
    cbn [ok_or mbind result_bind]. reflexivity.
  - unfold block_of. cbn [entry_indent entries block_end app]. rewrite Elen. split_and!; [done|done|].
    rewrite <-El2. destruct stop; cbn; [lia|]. rewrite (length_app _ (f :: R)). cbn. lia.
Qed.

(** ** The lines that are inserted *)

Lemma trim_start_spaces n t : trim_start (spaces n +:+ t) = trim_start t.
Proof.
  induction n as [|n IH]; [done|]. cbn [spaces String.append]. unfold trim_start in *.
  rewrite chars_cons by done. cbn [drop_while]. change (is_whitespace (chr " ")) with true.
  exact IH.
Qed.

Lemma length_spaces n : String.length (spaces n) = n.
Proof. induction n as [|n IH]; [done|]. cbn. by rewrite IH. Qed.

Lemma chars_ne s : Forall (λ c, c ≠ "") (chars s).
Proof.
  induction s as [s IH] using string_len_ind. destruct s as [|a s]; [constructor|].
  assert (H1 : Forall (λ c, c ≠ "") (chr a :: chars s))
    by (constructor; [done|apply IH; cbn; lia]).
  cbn [chars]. destruct (utf8_len a) as [|[|[|[|[|]]]]]; try exact H1;
    do 3 (destruct s as [|? s]; try exact H1; try (constructor; [done|apply IH; cbn; lia])).
Qed.

Lemma trim_start_blank l : is_blank l = true → is_empty (trim_start l) = true.
Proof.
  unfold is_blank, trim, trim_start. intros H.
  destruct (drop_while is_whitespace (chars l)) as [|c cs] eqn:E; [done|].
  assert (Hc := drop_while_head _ _ _ _ E).
  assert (Hne : ∀ k, is_whitespace (concat_str k) = false ∨ True) by by right. clear Hne.
  exfalso. revert H. cbn [rev].
  assert (∀ k, drop_while is_whitespace (k ++ [c]) = drop_while is_whitespace k ++ [c]) as Hd.
  { intros k. induction k as [|x k IH]; cbn; [by rewrite Hc|].
    destruct (is_whitespace x); [done|done]. }
  rewrite Hd, rev_app_distr. cbn [rev app concat_str].
  assert (c ≠ "") as Hne.
  { intros ->. assert (Hin : "" ∈ chars l).
    { destruct (drop_while_suffix is_whitespace (chars l)) as [k ->]. rewrite E.
      apply elem_of_app. right. by left. }
    by eapply Forall_forall in Hin; [|apply chars_ne]. }
  by destruct c.
Qed.

(** A line of the form the code writes: [n] spaces and text that starts with a
    character other than white space. *)
Lemma padded_indent n a t :
  utf8_len a = 1%nat → is_whitespace (chr a) = false →
  indent_of (spaces n +:+ String a t) = n ∧ is_blank (spaces n +:+ String a t) = false.
Proof.
  intros Ha Hw. assert (E : trim_start (spaces n +:+ String a t) = String a t)
    by (rewrite trim_start_spaces; by apply trim_start_id).
  split.
  - unfold indent_of. rewrite E, length_append, length_spaces. lia.
  - destruct (is_blank _) eqn:Hb; [|done]. apply trim_start_blank in Hb. by rewrite E in Hb.
Qed.

(** The two lines of an entry. *)
Definition name_line (n : nat) (name : string) : string := spaces n +:+ "- name: " +:+ name.
Definition secret_line (n : nat) (secret : string) : string := spaces n +:+ "  secret: " +:+ secret.

Lemma spaces_add n m : spaces (n + m) = spaces n +:+ spaces m.
Proof. induction n as [|n IH]; [done|]. cbn. by rewrite IH. Qed.

Lemma name_line_first ki n name :
  (ki < n)%nat → first_entry ki (name_line n name) = true ∧ indent_of (name_line n name) = n.
Proof.
  intros Hn. unfold name_line. change ("- name: " +:+ name) with (String "-" (" name: " +:+ name)).
  destruct (padded_indent n "-" (" name: " +:+ name)) as [Hi Hb]; [done|done|].
  split; [|done]. unfold first_entry. rewrite Hi, Hb.
  rewrite (proj2 (Nat.ltb_lt _ _) Hn). unfold is_entry.
  rewrite trim_start_spaces, trim_start_id by done. done.
Qed.

Lemma secret_line_padded n secret :
  secret_line n secret = spaces (n + 2) +:+ String "s" ("ecret: " +:+ secret).
Proof. unfold secret_line. rewrite spaces_add. cbn. by rewrite <-app_assoc_s. Qed.

Lemma scan_secret_line ki n secret R i found :
  (ki < n)%nat →
  scan_entries ki i (secret_line n secret :: R) (Some n) found
  = scan_entries ki (S i) R (Some n) found.
Proof.
  intros Hn. rewrite secret_line_padded. cbn [scan_entries].
  destruct (padded_indent (n + 2) "s" ("ecret: " +:+ secret)) as [Hi Hb]; [done|done|].
  rewrite Hi, Hb. rewrite (proj2 (Nat.leb_gt _ _)) by lia.
  unfold is_entry. rewrite trim_start_spaces, trim_start_id by done. done.
Qed.

Lemma scan_old_first ki f R i found :
  first_entry ki f = true →
  scan_entries ki i (f :: R) (Some (indent_of f)) found
  = scan_entries ki (S i) R (Some (indent_of f)) (found ++ [i]).
Proof.
  unfold first_entry. rewrite ltb_leb. cbn [scan_entries]. destruct (is_blank f); [done|].
  destruct (indent_of f <=? ki)%nat; [done|]. destruct (is_entry f); [|done].
  by rewrite Nat.eqb_refl.
Qed.

Lemma first_entry_deeper ki f : first_entry ki f = true → (ki < indent_of f)%nat.
Proof.
  unfold first_entry. rewrite !andb_true_iff. intros [[_ H%Nat.ltb_lt] _]. done.
Qed.

(** Where a block ends: at the end of the text or at a line that is not deeper
    than [keys:]. *)
Definition ends_block (ki : nat) (l : string) : bool :=
  negb (is_blank l) && (indent_of l <=? ki)%nat.

Lemma scan_stop ki e ls i found e' es st :
  scan_entries ki i ls e found = (e', es, Some st) →
  ∃ k, st = (i + k)%nat ∧ ∃ R l A, ls = R ++ l :: A ∧ length R = k ∧ ends_block ki l = true.
Proof.
  revert i e found. induction ls as [|l ls IH]; intros i e found; cbn [scan_entries]; [done|].
  assert (∀ e found, scan_entries ki (S i) ls e found = (e', es, Some st) →
    ∃ k, st = (i + k)%nat ∧ ∃ R m A, l :: ls = R ++ m :: A ∧ length R = k ∧ ends_block ki m = true)
    as Hskip.
  { intros e1 f1 (k & -> & R & m & A & -> & <- & Hm)%IH. exists (S (length R)).
    split; [lia|]. by exists (l :: R), m, A. }
  unfold ends_block in *. destruct (is_blank l) eqn:Hb; [apply Hskip|].
  destruct (indent_of l <=? ki)%nat eqn:Hi.
  - intros [= _ _ <-]. exists 0%nat. split; [lia|]. exists [], l, ls. by rewrite Hb, Hi.
  - destruct e; [|destruct (is_entry l); apply Hskip].
    destruct (is_entry l && _); apply Hskip.
Qed.

Lemma scan_end ki e i ls found :
  match ls with [] => True | l :: _ => ends_block ki l = true end →
  ∃ stop, scan_entries ki i ls (Some e) found = (Some e, found, stop).
Proof.
  destruct ls as [|l ls]; intros H; cbn [scan_entries]; [by eexists|].
  unfold ends_block in H. apply andb_true_iff in H as [->%negb_true_iff ->]. by eexists.
Qed.

Lemma joined_lines ls cfg :
  contains_char cr cfg = false → cfg ≠ "" → forallb plain ls = true → ls ≠ [] →
  (∀ l, last (lines cfg) = Some l → l ≠ "" → ∃ m, last ls = Some m ∧ m ≠ "") →
  lines (joined ls cfg) = ls
  ∧ ∀ ks, joined ks (joined ls cfg) = joined ks cfg.
Proof.
  intros Hcr Hc Hp Hne Hlast. unfold joined. destruct (strip_suffix_char nl cfg) eqn:E.
  - split; [by apply lines_join_nl|]. intros ks. unfold NL at 2. by rewrite strip_suffix_char_app.
  - destruct (lines_spec cfg Hcr) as (_ & _ & H).
    destruct (H E Hc) as (A & l & El & Hl). 
    destruct (Hlast l) as (m & [B ->]%last_Some & Hm); [by rewrite El, last_snoc|done|].
    split; [by apply lines_join|]. intros ks.
    rewrite forallb_app in Hp. apply andb_true_iff in Hp as [_ Hp]. cbn in Hp.
    rewrite andb_true_r in Hp. unfold plain in Hp.
    apply andb_true_iff in Hp as [Hnl%negb_true_iff _].
    assert (strip_suffix_char nl (join NL (B ++ [m])) = None) as ->; [|done].
    clear -Hnl Hm. induction B as [|b B IH]; [by apply strip_suffix_char_none|].
    cbn [app]. rewrite join_cons, app_assoc_s by by destruct B.
    rewrite strip_suffix_char_line; [by rewrite IH|].
    destruct B; [done|]. cbn [app]. rewrite join_cons by by destruct B.
    by destruct s.
Qed.

Lemma plain_spaces n t : plain (spaces n +:+ t) = plain t.
Proof.
  unfold plain, contains_char. induction n as [|n IH]; [done|]. cbn [spaces String.append any_byte].
  exact IH.
Qed.

Lemma name_line_plain n name : plain name = true → plain (name_line n name) = true.
Proof. intros H. unfold name_line. by rewrite plain_spaces. Qed.

Lemma secret_line_plain n secret : plain secret = true → plain (secret_line n secret) = true.
Proof. intros H. unfold secret_line. by rewrite plain_spaces. Qed.

Lemma secret_line_ne n secret : secret_line n secret ≠ "".
Proof. unfold secret_line. by destruct n. Qed.

(** The keys of [cfg] are the lines [keys], from the first entry to the end of
    the block; [n] is their indentation. *)
Definition keys_at (ls before keys after : list string) (n : nat) : Prop :=
  ls = before ++ keys ++ after
  ∧ ∃ b, find_aesgcm_keys_block ls = Ok b ∧ head (entries b) = Some (length before)
       ∧ block_end b = length (before ++ keys) ∧ entry_indent b = n.

Lemma insert_primary_key_block cfg name secret dual :
  insert_primary_key cfg name secret = Ok dual →
  ∃ before ki f R after new stop,
    lines cfg = before ++ (f :: R) ++ after ∧ header ki before ∧ first_entry ki f = true
    ∧ (∀ i found, scan_entries ki i (R ++ after) (Some (indent_of f)) found
         = (Some (indent_of f), found ++ (Nat.add i <$> new), Nat.add i <$> stop))
    ∧ default (length (R ++ after)) stop = length R
    ∧ match after with [] => True | l :: _ => ends_block ki l = true end
    ∧ keys_at (lines cfg) before (f :: R) after (indent_of f)
    ∧ dual = joined (before ++ [name_line (indent_of f) name; secret_line (indent_of f) secret]
                     ++ (f :: R) ++ after) cfg.
Proof.
  unfold insert_primary_key. intros H. inv_bind H. inv_bind H. injection H as <-.
  apply ok_or_Ok in H1.
  destruct (find_block_inv _ _ H0) as (A & ki & f & T & new & stop & E & HA & Hf & Hs & Hb).
  destruct Hb as (Hi & He & Hend). rewrite He in H1. injection H1 as <-.
  set (k := default (length T) stop).
  assert (Hk : (k ≤ length T)%nat ∧
    match drop k T with [] => True | l :: _ => ends_block ki l = true end).
  { subst k. destruct stop as [st|]; cbn; [|by rewrite drop_all].
    destruct (scan_stop ki (Some (indent_of f)) T 0 [] _ _ st (Hs 0%nat [])) as
      (k & -> & R & l & B & -> & <- & Hl). cbn. rewrite length_app, drop_app_length.
    cbn. split; [lia|done]. }
  destruct Hk as [Hk Hd].
  exists A, ki, f, (take k T), (drop k T), new, stop.
  assert (ET : take k T ++ drop k T = T) by apply take_drop.
  rewrite <-app_comm_cons, ET, E, Hi, drop_app_length, take_app_length.
  repeat (split; [done|]). split; [by rewrite length_take, Nat.min_l|]. split; [done|].
  split; [|done]. unfold keys_at. rewrite <-app_comm_cons, ET. split; [done|].
  exists x. rewrite He, Hi, Hend. rewrite <-E. repeat (split; [done|]). split; [|done].
  rewrite length_app. cbn [length]. rewrite length_take, Nat.min_l by done. subst k. lia.
Qed.

(** The block of the text with an entry inserted before the first one. *)
Lemma inserted_block before ki f R after name secret n new stop :
  header ki before → first_entry ki f = true → indent_of f = n →
  (∀ i found, scan_entries ki i (R ++ after) (Some n) found
     = (Some n, found ++ (Nat.add i <$> new), Nat.add i <$> stop)) →
  ∃ b, find_aesgcm_keys_block
         (before ++ [name_line n name; secret_line n secret] ++ (f :: R) ++ after) = Ok b
       ∧ entry_indent b = n
       ∧ entries b = length before :: S (S (length before))
                       :: (Nat.add (S (S (S (length before)))) <$> new)
       ∧ block_end b = (length before + 3 + default (length (R ++ after)) stop)%nat.
Proof.
  intros HA Hf Hn Hs. assert (Hd := first_entry_deeper ki f Hf). rewrite Hn in Hd.
  destruct (name_line_first ki n name Hd) as [Hnf Hni].
  destruct (find_block_intro before ki (name_line n name) (secret_line n secret :: (f :: R) ++ after)
              (1%nat :: ((λ i, i + 2)%nat <$> new)) ((λ i, i + 2)%nat <$> stop) HA Hnf)
    as (b & Hb & Hi & He & Hend).
  { intros i found. rewrite Hni, scan_secret_line by done. rewrite <-app_comm_cons, <-Hn.
    rewrite scan_old_first by done. rewrite Hn, Hs, <-app_assoc. cbn [app fmap list_fmap].
    rewrite Nat.add_1_r, <-list_fmap_compose. rewrite (list_fmap_ext (Nat.add i ∘ _) (Nat.add (S (S i))) new).
    2: { intros j x _. cbn. lia. }
    destruct stop as [st|]; cbn; [|done]. by replace (i + (st + 2))%nat with (S (S (i + st))) by lia. }
  exists b. split; [exact Hb|]. rewrite Hi, He, Hend, Hni. split; [done|].
  split; [|destruct stop; cbn; lia]. cbn [fmap list_fmap].
  rewrite Nat.add_1_r, <-list_fmap_compose.
  rewrite (list_fmap_ext (_ ∘ _) (Nat.add (S (S (S (length before))))) new); [done|].
  intros j x _. cbn. lia.
Qed.

(** The text with the new entry only. *)
Lemma single_block before ki after name secret n :
  header ki before → (ki < n)%nat →
  match after with [] => True | l :: _ => ends_block ki l = true end →
  ∃ b, find_aesgcm_keys_block
         (before ++ [name_line n name; secret_line n secret] ++ after) = Ok b
       ∧ entries b = [length before].
Proof.
  intros HA Hd Ha. destruct (name_line_first ki n name Hd) as [Hnf Hni].
  destruct (scan_rest ki n (secret_line n secret :: after)) as (new & stop & Hs).
  assert (new = []) as ->.
  { specialize (Hs 0%nat []). rewrite scan_secret_line in Hs by done.
    destruct (scan_end ki n 1 after [] Ha) as [st Hst]. rewrite Hst in Hs.
    injection Hs as Hs _. by destruct new. }
  destruct (find_block_intro before ki (name_line n name) (secret_line n secret :: after) [] stop HA Hnf)
    as (b & Hb & _ & He & _); [by rewrite Hni|].
  by exists b.
Qed.


Definition sample_config : string := text_of [
  "kind: EncryptionConfiguration"; "resources:"; "  - resources:"; "      - secrets";
  "    providers:"; "      - aesgcm:"; "          keys:"; "            - name: key1";
  "              secret: b2xk"; "      - identity: {}"].

Definition sample_dual : string := text_of [
  "kind: EncryptionConfiguration"; "resources:"; "  - resources:"; "      - secrets";
  "    providers:"; "      - aesgcm:"; "          keys:"; "            - name: key2";
  "              secret: bmV3"; "            - name: key1";
  "              secret: b2xk"; "      - identity: {}"].


(** A comment at column 0 between the keys ends the block: Stage 3 then drops
    the keys before it only, and the last old key stays without an error. *)
Definition commented_config : string := text_of [
  "- aesgcm:"; "    keys:"; "      - name: key2"; "        secret: bmV3";
  "      - name: key1"; "        secret: b2xk"; "# the first key of this cluster";
  "      - name: key0"; "        secret: YXQ="].

Example comment_hides_keys :
  drop_non_primary_keys commented_config = Ok (text_of [
    "- aesgcm:"; "    keys:"; "      - name: key2"; "        secret: bmV3";
    "# the first key of this cluster"; "      - name: key0"; "        secret: YXQ="]).
Proof. vm_compute. reflexivity. Qed.
