(* ===== verification/Etcd.v ===== *)
(** * hbird etcd: backup, restore and rotate-key

    The commands of [crates/hbird-cli/src/commands/etcd.rs], over the text
    functions of [EtcdText.v].  Standard input, the clock, [/dev/urandom] and
    the test for a regular file are parameters ([LocalIO]); the kernel's random
    bytes are any bytes. *)

From S2P Require Import Prelude RustStr ConfigTypes ConfigLexer ConfigBuild SshOptions SshClient.
From S2P Require Import Effects VirtUri Shell VirtParse VirtConn Cp EtcdText.

Class LocalIO : Type := {
  stdin_is_terminal : history → bool;
  stdin_line : history → result io_error string;
  path_is_file : history → string → bool;
  now_epoch_secs : history → N;
  urandom_open : history → result io_error unit;
  urandom_read : history → result io_error string;
}.

(** ** Arguments and constants *)

Record EtcdCommonArgs : Set := mkEtcdCommonArgs {
  ec_config : option string;
  ec_cp_name : option string;
  ec_cp_ip : option string;
  ec_kvm_host : option string;
  ec_dry_run : bool;
}.
Record BackupArgs : Set := mkBackupArgs {
  ba_common : EtcdCommonArgs;
  ba_outdir : option string;
  ba_outdir_positional : option string;
  ba_label : option string;
}.
Record RestoreArgs : Set := mkRestoreArgs {
  ra_common : EtcdCommonArgs;
  ra_snapshot : string;
  ra_yes : bool;
}.
Record RotateKeyArgs : Set := mkRotateKeyArgs { rk_common : EtcdCommonArgs; rk_yes : bool }.
Inductive EtcdSubcommand : Set :=
| Backup (a : BackupArgs)
| Restore (a : RestoreArgs)
| RotateKey (a : RotateKeyArgs).

Definition ETCDCTL_TLS : string :=
  "--cacert=/etc/kubernetes/pki/etcd/ca.crt --cert=/etc/kubernetes/pki/etcd/server.crt "
  +:+ "--key=/etc/kubernetes/pki/etcd/server.key".
Definition REMOTE_SNAPSHOT_DIR : string := "/var/lib/etcd".
Definition REMOTE_RESTORE_SNAPSHOT : string := "/tmp/restore-snapshot.db".
Definition ETCD_IMAGE_FALLBACK : string := "registry.k8s.io/etcd:3.5.15-0".
Definition ENCRYPTION_CONFIG : string := "/etc/kubernetes/encryption-config.yaml".
Definition APISERVER_WARMUP_SECS : N := 30.

Section etcd.
Context `{W : World} `{L : LocalIO}.

Definition rotate_log (line : string) : IO anyhow unit :=
  lift (eprintln ("[rotate-etcd-key] " +:+ line)).
Definition say (line : string) : IO anyhow unit := lift (println line).

(** ** Confirmation *)

Definition is_affirmative (answer : string) : bool := bool_decide (trim answer ∈ ["y"; "Y"]).

Definition confirm (prompt : string) (assume_yes : bool) : IO anyhow unit :=
  if assume_yes then mret tt
  else
    tty ← ask stdin_is_terminal;
    if negb (tty : bool) then
      bail (prompt +:+ " [y/N] — stdin is not a TTY, refusing to guess. "
            +:+ "Re-run with --yes to confirm non-interactively, or with "
            +:+ "--dry-run to preview.")
    else
      _ ← lift (eprint (prompt +:+ " [y/N] "));
      r ← ask stdin_line;
      answer ← of_result (map_err (λ e, context "read confirmation from stdin" (of_io e)) r);
      if is_affirmative answer then mret tt else bail "aborted by operator".

Definition random_key_bytes : IO anyhow string :=
  r ← ask urandom_open;
  _ ← of_result (map_err (λ e, context "open /dev/urandom for a new etcd encryption key" (of_io e))
                   (r : result io_error unit));
  r ← ask urandom_read;
  of_result (map_err (λ e, context ("read 32 bytes from /dev/urandom for a new etcd "
                                    +:+ "encryption key") (of_io e)) r).

(** ** The plan *)

Record EtcdPlan : Set := mkEtcdPlan { target : CpTarget; plan_dry_run : bool }.

Definition ssh_target (p : EtcdPlan) : string :=
  match target_kvm_host (target p) with
  | Some h => "-J " +:+ h +:+ " root@" +:+ cp_ip_ (target p)
  | None => "root@" +:+ cp_ip_ (target p)
  end.
Definition plan_exec (p : EtcdPlan) : SshExec := client_exec (cp_ssh_opts (target p)).

Definition DRY_RUN_CP_IP : string := "<cp-ip>".

Definition resolve_cp_ip_local (conn : Connection) (cp_name : string) : IO anyhow string :=
  r ← try (domifaddr conn cp_name);
  match (r : result VirtError (option Ipv4)) with
  | Ok (Some ip) => mret (show_ipv4 ip)
  | Ok None =>
      bail ("libvirt domain '" +:+ cp_name +:+ "' has no IPv4 lease yet (queried via "
            +:+ "local virsh). Pin CP_IP= in cluster.local.conf, or set "
            +:+ "KVM_HOST=<ssh-alias> if libvirt runs on another host.")
  | Err e =>
      throw (context ("resolve CP_IP via local `virsh -c qemu:///system domifaddr " +:+ cp_name
                      +:+ "` (set KVM_HOST=<ssh-alias> if libvirt runs on "
                      +:+ "another host, or pin CP_IP=)")
               (mkAnyhow [] (ROther (show_virt_error e))))
  end.

Definition cp_name_needed : string :=
  "CP_NAME required to resolve the control-plane IP (set in --config <cluster.local.conf>, or pass "
  +:+ "--cp-name / CP_NAME env, or pin --cp-ip / CP_IP)".

Definition plan_from_common (common : EtcdCommonArgs) : IO anyhow EtcdPlan :=
  config ← load_config (ec_config common);
  let kvm := non_empty (or_else (ec_kvm_host common) (config ≫= kvm_host)) in
  let pinned := non_empty (or_else (non_empty (ec_cp_ip common)) (config ≫= cp_ip)) in
  cp_ip ← match pinned, ec_dry_run common with
          | Some ip, _ => mret ip
          | None, true => mret DRY_RUN_CP_IP
          | None, false =>
              cp_name ← of_result (ok_or (anyhow_msg cp_name_needed)
                          (or_else (ec_cp_name common) (cp_name <$> config)));
              match kvm with
              | Some host =>
                  io_map_err (context ("resolve CP_IP via virsh-domifaddr on KVM_HOST=" +:+ host
                                       +:+ " for CP_NAME=" +:+ cp_name))
                    (resolve_cp_ip_via_ssh (client_exec (new host)) host cp_name)
              | None => resolve_cp_ip_local (build_connection None) cp_name
              end
          end;
  mret (mkEtcdPlan (mkCpTarget cp_ip kvm) (ec_dry_run common)).

(** ** backup *)

Definition backup_dry_run_lines (t dst remote : string) : list string :=
  ["DRY-RUN etcd backup";
   "DRY-RUN   control plane : " +:+ t;
   "DRY-RUN   snapshot file : " +:+ dst;
   "DRY-RUN ssh " +:+ t +:+ " crictl ps --name etcd -q";
   "DRY-RUN ssh " +:+ t +:+ " crictl exec <etcd-container-id> etcdctl " +:+ ETCDCTL_TLS
     +:+ " snapshot save " +:+ remote;
   "DRY-RUN ssh " +:+ t +:+ " crictl exec <etcd-container-id> etcdctl --write-out=table snapshot status "
     +:+ remote;
   "DRY-RUN ssh " +:+ t +:+ " cat " +:+ remote +:+ " > " +:+ dst;
   "DRY-RUN ssh " +:+ t +:+ " rm -f " +:+ remote].

Definition save_cmd (id remote : string) : string :=
  "crictl exec " +:+ id +:+ " etcdctl " +:+ ETCDCTL_TLS +:+ " snapshot save " +:+ remote.
Definition status_cmd (id remote : string) : string :=
  "crictl exec " +:+ id +:+ " etcdctl --write-out=table snapshot status " +:+ remote.

Definition backup_with_exec (ssh : SshExec) (remote : string) : IO anyhow string :=
  ps ← ssh_context "etcd backup: `crictl ps --name etcd -q` failed on the CP"
         (@exec ssh "crictl ps --name etcd -q" None);
  id ← of_result (ok_or (anyhow_msg "no etcd container found")
                    (parse_etcd_container_id (stdout_lossy ps)));
  _ ← of_result (validate_container_id id);
  _ ← ssh_context "etcd backup: `etcdctl snapshot save` failed inside the etcd container"
        (@exec ssh (save_cmd id remote) None);
  r ← try (@exec ssh (status_cmd id remote) None);
  _ ← match (r : result SshError RunOutput) with
      | Ok out =>
          let table := stdout_lossy out in
          if negb (is_empty (trim table)) then lift (eprint table) else mret tt
      | Err e => bail ("etcd backup: `etcdctl snapshot status` failed: " +:+ show_ssh_error e)
      end;
  fetched ← ssh_context ("etcd backup: could not fetch " +:+ remote +:+ " from the CP")
              (@exec ssh ("cat " +:+ remote) None);
  if is_empty (stdout fetched) then
    bail ("etcd backup: " +:+ remote +:+ " came back empty from the CP "
          +:+ "(etcdctl reported success but wrote no bytes)")
  else
    _ ← ssh_context ("etcd backup: could not remove " +:+ remote +:+ " on the CP")
          (@exec ssh ("rm -f " +:+ remote) None);
    mret (stdout fetched).

(** The backup of a plan that is not a dry run. *)
Definition backup_live (plan : EtcdPlan) (outdir : string) (label : option string) : IO anyhow unit :=
  now ← ask now_epoch_secs;
  let ts := format_utc_timestamp now in
  let dst := path_join outdir (snapshot_file_name ts label) in
  let remote := REMOTE_SNAPSHOT_DIR +:+ "/hbird-snapshot-" +:+ ts +:+ ".db" in
  _ ← io_context ("create snapshot output directory " +:+ outdir) (fs_run (CreateDirAll outdir));
  _ ← say ("Snapshotting etcd on " +:+ cp_ip_ (target plan) +:+ " -> " +:+ dst);
  bytes ← backup_with_exec (plan_exec plan) remote;
  _ ← io_context ("write etcd snapshot to " +:+ dst) (fs_run (WriteFile dst bytes));
  say ("Saved: " +:+ dst +:+ "  (" +:+ human_size (N.of_nat (String.length bytes)) +:+ ")").

(** [run_backup] once the label is known to be usable. *)
Definition backup_labelled (args : BackupArgs) (label : option string) : IO anyhow unit :=
  let outdir := default "./backups" (or_else (ba_outdir args) (ba_outdir_positional args)) in
  plan ← plan_from_common (ba_common args);
  if plan_dry_run plan then
    let dst := path_join outdir (snapshot_file_name "<UTC-timestamp>" label) in
    let remote := REMOTE_SNAPSHOT_DIR +:+ "/hbird-snapshot-<UTC-timestamp>.db" in
    for_each say (backup_dry_run_lines (ssh_target plan) dst remote)
  else backup_live plan outdir label.

Definition run_backup (args : BackupArgs) : M ending :=
  match ba_label args with
  | Some raw =>
      match sanitize_label raw with
      | Some clean => r ← catch (backup_labelled args (Some clean)); mret (Returns r)
      | None => _ ← eprintln "--label resolved to empty after sanitize"; mret (Exits 2)
      end
  | None => r ← catch (backup_labelled args None); mret (Returns r)
  end.

(** ** restore *)

Definition restore_banner (cp_ip snapshot : string) : string :=
  text_of [
    "About to restore etcd on " +:+ cp_ip +:+ " from " +:+ snapshot +:+ ".";
    "";
    "This will:";
    "  1. Move /etc/kubernetes/manifests aside so the apiserver+etcd static";
    "     pods stop.";
    "  2. Stop kubelet.";
    "  3. Rename /var/lib/etcd to /var/lib/etcd.before-restore.<ts>.";
    "  4. Run 'etcdctl snapshot restore' into a fresh /var/lib/etcd.";
    "  5. Restore the manifests directory and start kubelet so the apiserver";
    "     comes back up against the restored etcd."].

Definition restore_script (timestamp etcd_image : string) : string :=
  text_of [
    "set -euo pipefail";
    "mv /etc/kubernetes/manifests /etc/kubernetes/manifests.disabled";
    "sleep 10  # give kubelet time to notice and tear the static pods down";
    "systemctl stop kubelet || true";
    "mv /var/lib/etcd " +:+ DQ +:+ "/var/lib/etcd.before-restore." +:+ timestamp +:+ DQ;
    "podman run --rm --network host \";
    "  -v /var/lib:/var/lib -v /tmp:/tmp \";
    "  " +:+ DQ +:+ etcd_image +:+ DQ +:+ " \";
    "  etcdctl snapshot restore " +:+ REMOTE_RESTORE_SNAPSHOT +:+ " \";
    "    --data-dir=/var/lib/etcd";
    "mv /etc/kubernetes/manifests.disabled /etc/kubernetes/manifests";
    "systemctl start kubelet";
    "rm -f " +:+ REMOTE_RESTORE_SNAPSHOT;
    "echo 'Restore complete. Apiserver will come back up in ~30s.'"].

Definition RESTORE_ROLLBACK_SCRIPT : string :=
  "if [ -d /etc/kubernetes/manifests.disabled ] && [ ! -e /etc/kubernetes/manifests ]; then "
  +:+ "mv /etc/kubernetes/manifests.disabled /etc/kubernetes/manifests; fi; "
  +:+ "systemctl start kubelet || true".

Definition preflight_cmd : string := "test ! -e /etc/kubernetes/manifests.disabled".
Definition disabled_exists : string :=
  "/etc/kubernetes/manifests.disabled already exists on the CP — "
  +:+ "a previous restore was interrupted. Move the static-pod "
  +:+ "manifests back by hand (`mv /etc/kubernetes/manifests.disabled "
  +:+ "/etc/kubernetes/manifests`) and confirm the apiserver is up "
  +:+ "before retrying; restoring now would nest the live manifests "
  +:+ "directory inside the stale one.".

Definition restore_preflight_with_exec (ssh : SshExec) : IO anyhow unit :=
  r ← try (@exec ssh preflight_cmd None);
  match (r : result SshError RunOutput) with
  | Ok _ => mret tt
  | Err (NonZeroExit _ _ _ _) => bail disabled_exists
  | Err e =>
      throw (context "etcd restore: could not check /etc/kubernetes/manifests.disabled on the CP"
               (of_ssh e))
  end.

Definition push_cmd : string := "cat > " +:+ REMOTE_RESTORE_SNAPSHOT.
Definition push_snapshot_with_exec (ssh : SshExec) (bytes : string) : IO anyhow unit :=
  _ ← ssh_context ("etcd restore: could not upload the snapshot to " +:+ REMOTE_RESTORE_SNAPSHOT)
        (@exec ssh push_cmd (Some bytes));
  mret tt.

Definition detect_etcd_image_with_exec (ssh : SshExec) : IO anyhow string :=
  r ← try (@exec ssh "crictl images" None);
  stdout ← match (r : result SshError RunOutput) with
           | Ok out => mret (stdout_lossy out)
           | Err (NonZeroExit _ _ stdout _) => mret stdout
           | Err e => throw (context "etcd restore: `crictl images` failed on the CP" (of_ssh e))
           end;
  mret (default ETCD_IMAGE_FALLBACK (pick_etcd_image stdout)).

Definition restore_failed (note timestamp : string) : string :=
  "etcd restore: remote restore failed (" +:+ note +:+ "). The previous "
  +:+ "data dir was kept at /var/lib/etcd.before-restore." +:+ timestamp.

Definition restore_apply_with_exec (ssh : SshExec) (timestamp etcd_image : string)
    : IO anyhow string :=
  _ ← of_result (validate_image_ref etcd_image);
  r ← try (@exec ssh "bash -s" (Some (restore_script timestamp etcd_image)));
  match (r : result SshError RunOutput) with
  | Ok out => mret (stdout_lossy out)
  | Err e =>
      rollback ← try (@exec ssh "bash -s" (Some RESTORE_ROLLBACK_SCRIPT));
      note ← match (rollback : result SshError RunOutput) with
             | Ok _ =>
                 mret ("rollback attempted: static-pod manifests moved back and kubelet started")
             | Err re =>
                 _ ← lift (eprintln ("etcd restore: rollback itself failed: " +:+ show_ssh_error re));
                 mret ("rollback FAILED — the CP may still have "
                       +:+ "/etc/kubernetes/manifests.disabled and a stopped kubelet; "
                       +:+ "fix by hand before retrying")
             end;
      throw (context (restore_failed note timestamp) (of_ssh e))
  end.

Definition restore_dry_run_lines (t snapshot : string) : list string :=
  ["DRY-RUN etcd restore (DESTRUCTIVE — no confirmation prompt in dry-run)";
   "DRY-RUN   control plane : " +:+ t;
   "DRY-RUN   snapshot file : " +:+ snapshot;
   "DRY-RUN ssh " +:+ t +:+ " test ! -e /etc/kubernetes/manifests.disabled";
   "DRY-RUN ssh " +:+ t +:+ " cat > " +:+ REMOTE_RESTORE_SNAPSHOT +:+ "  < " +:+ snapshot;
   "DRY-RUN ssh " +:+ t +:+ " crictl images   # pick the etcd image, else " +:+ ETCD_IMAGE_FALLBACK;
   "DRY-RUN ssh " +:+ t +:+ " bash -s   # mv manifests aside; stop kubelet; keep /var/lib/etcd as "
     +:+ "/var/lib/etcd.before-restore.<UTC-timestamp>; podman run <etcd-image> etcdctl snapshot "
     +:+ "restore; manifests back; start kubelet";
   "DRY-RUN ssh " +:+ t +:+ " kubectl --kubeconfig=/etc/kubernetes/admin.conf get nodes   # after a "
     +:+ show_N APISERVER_WARMUP_SECS +:+ "s warm-up"].

(** [run_restore] after the confirmation. *)
Definition restore_confirmed (plan : EtcdPlan) (bytes : string) : IO anyhow unit :=
  let ssh := plan_exec plan in
  _ ← restore_preflight_with_exec ssh;
  _ ← push_snapshot_with_exec ssh bytes;
  image ← detect_etcd_image_with_exec ssh;
  _ ← say ("Using etcd image: " +:+ image);
  now ← ask now_epoch_secs;
  out ← restore_apply_with_exec ssh (format_utc_timestamp now) image;
  _ ← lift (print out);
  _ ← say "Verifying cluster (after a 30s warm-up)...";
  _ ← lift (sleep (from_secs APISERVER_WARMUP_SECS));
  nodes ← io_map_err (context "etcd restore: post-restore `kubectl get nodes` failed")
            (cp_kubectl_raw (target plan) "get nodes");
  lift (print (stdout_lossy nodes)).

Definition run_restore (args : RestoreArgs) : IO anyhow unit :=
  let snap := ra_snapshot args in
  is_file ← ask (λ h, path_is_file h snap);
  if negb (is_file : bool) then bail ("Snapshot not found: " +:+ snap)
  else
    plan ← plan_from_common (ra_common args);
    if plan_dry_run plan then for_each say (restore_dry_run_lines (ssh_target plan) snap)
    else
      bytes ← io_context ("read etcd snapshot " +:+ snap) (read_to_string snap);
      _ ← lift (print (restore_banner (cp_ip_ (target plan)) snap));
      _ ← confirm "Proceed with the restore?" (ra_yes args);
      restore_confirmed plan bytes.

(** ** rotate-key *)

Definition fetch_cmd : string := "cat " +:+ ENCRYPTION_CONFIG.
Definition rotate_fetch_config_with_exec (ssh : SshExec) : IO anyhow string :=
  out ← ssh_context ("rotate-etcd-key: could not read " +:+ ENCRYPTION_CONFIG +:+ " on the CP")
          (@exec ssh fetch_cmd None);
  let text := stdout_lossy out in
  if is_empty (trim text) then bail "fetched encryption-config is empty" else mret text.

Definition upload_cmd : string := "umask 077; cat > " +:+ ENCRYPTION_CONFIG +:+ ".new".
Definition install_script : string :=
  text_of [
    "set -euo pipefail";
    "install -m 0600 -o root -g root \";
    "  " +:+ ENCRYPTION_CONFIG +:+ ".new \";
    "  " +:+ ENCRYPTION_CONFIG;
    "rm -f " +:+ ENCRYPTION_CONFIG +:+ ".new";
    "touch /etc/kubernetes/manifests/kube-apiserver.yaml"].
Definition rotate_install_config_with_exec (ssh : SshExec) (yaml : string) : IO anyhow unit :=
  _ ← ssh_context ("rotate-etcd-key: could not upload the new config to " +:+ ENCRYPTION_CONFIG
                   +:+ ".new") (@exec ssh upload_cmd (Some yaml));
  _ ← ssh_context "rotate-etcd-key: could not install the new encryption config on the CP"
        (@exec ssh "bash -s" (Some install_script));
  mret tt.

Definition healthz_cmd : string :=
  "KUBECONFIG=/etc/kubernetes/admin.conf kubectl get --raw=/healthz".
Definition rotate_healthz_with_exec (ssh : SshExec) (stage : N) : IO anyhow unit :=
  r ← try (@exec ssh healthz_cmd None);
  match (r : result SshError RunOutput) with
  | Ok _ => mret tt
  | Err e => bail ("apiserver healthz failed after Stage " +:+ show_N stage +:+ " reload: "
                   +:+ show_ssh_error e)
  end.

Definition reencrypt_script : string :=
  text_of [
    "set -euo pipefail";
    "export KUBECONFIG=/etc/kubernetes/admin.conf";
    "kubectl get secrets -A -o json | kubectl replace -f -";
    "kubectl get configmaps -A -o json | kubectl replace -f -"].
Definition rotate_reencrypt_with_exec (ssh : SshExec) : IO anyhow unit :=
  _ ← ssh_context ("rotate-etcd-key: Stage 2 re-encrypt failed. The new key is already "
                   +:+ "primary, so the old key MUST stay in the config — do not run Stage 3 "
                   +:+ "by hand until every Secret/ConfigMap has been rewritten.")
        (@exec ssh "bash -s" (Some reencrypt_script));
  mret tt.

Definition verify_cmd (key_name : string) : string :=
  "EXPECTED_PREFIX=" +:+ shell_single_quote ("k8s:enc:aesgcm:v1:" +:+ key_name +:+ ":")
  +:+ " /usr/libexec/verify-encryption.sh".
Definition rotate_verify_with_exec (ssh : SshExec) (key_name : string) : IO anyhow unit :=
  _ ← ssh_context ("rotate-etcd-key: Stage 4 verification failed — "
                   +:+ "/usr/libexec/verify-encryption.sh did not confirm the new key")
        (@exec ssh (verify_cmd key_name) None);
  mret tt.

Definition rotate_dry_run_lines (t : string) : list string :=
  let ssh := "DRY-RUN ssh " +:+ t in
  let wait := "   # after a " +:+ show_N APISERVER_WARMUP_SECS +:+ "s wait" in
  let install := ": install -m 0600 the config; touch /etc/kubernetes/manifests/kube-apiserver.yaml" in
  ["DRY-RUN etcd rotate-key (DESTRUCTIVE — no confirmation prompts in dry-run)";
   "DRY-RUN   control plane : " +:+ t;
   "DRY-RUN   pre-flight    : take a labelled snapshot first (`hbird etcd backup --label pre-key-rotation`)";
   ssh +:+ " cat " +:+ ENCRYPTION_CONFIG +:+ "   # Stage 0";
   "DRY-RUN local  generate a 32-byte key from /dev/urandom, named key-<UTC-timestamp>";
   ssh +:+ " cat > " +:+ ENCRYPTION_CONFIG +:+ ".new   # Stage 1: new key primary, old key kept";
   ssh +:+ " bash -s   # Stage 1" +:+ install;
   ssh +:+ " kubectl get --raw=/healthz" +:+ wait;
   ssh +:+ " bash -s   # Stage 2: kubectl get secrets/configmaps -A -o json | kubectl replace -f -";
   ssh +:+ " cat > " +:+ ENCRYPTION_CONFIG +:+ ".new   # Stage 3: old key dropped";
   ssh +:+ " bash -s   # Stage 3" +:+ install;
   ssh +:+ " kubectl get --raw=/healthz" +:+ wait;
   ssh +:+ " EXPECTED_PREFIX='k8s:enc:aesgcm:v1:<new-key-name>:' /usr/libexec/verify-encryption.sh   # Stage 4"].

(** One reload: install, wait, health gate. *)
Definition reload_with (ssh : SshExec) (yaml wait_line : string) (stage : N) : IO anyhow unit :=
  _ ← rotate_install_config_with_exec ssh yaml;
  _ ← rotate_log wait_line;
  _ ← lift (sleep (from_secs APISERVER_WARMUP_SECS));
  rotate_healthz_with_exec ssh stage.

(** Stages 1 to 4, once the two-key config is known. *)
Definition rotate_stages (ssh : SshExec) (yes : bool) (key_name dual : string) : IO anyhow unit :=
  _ ← rotate_log "Stage 1: install dual-key config (new=primary, old=secondary) + reload apiserver";
  _ ← confirm "Proceed with Stage 1?" yes;
  _ ← reload_with ssh dual "waiting 30s for apiserver to come back with the new config" 1;
  _ ← rotate_log "Stage 2: re-encrypt every existing Secret and ConfigMap";
  _ ← rotate_log "         (kubectl get -A -o json | kubectl replace -f -)";
  _ ← confirm "Proceed with Stage 2?" yes;
  _ ← rotate_reencrypt_with_exec ssh;
  final_cfg ← of_result (drop_non_primary_keys dual);
  _ ← rotate_log "Stage 3: drop old key from config + reload apiserver";
  _ ← confirm "Proceed with Stage 3?" yes;
  _ ← reload_with ssh final_cfg
        "waiting 30s for apiserver to come back with the single-key config" 3;
  _ ← rotate_log "Stage 4: verify via /usr/libexec/verify-encryption.sh";
  _ ← rotate_verify_with_exec ssh key_name;
  _ ← rotate_log ("rotation complete; new key name on CP: " +:+ key_name);
  rotate_log "post-flight: consider 'make backup-etcd LABEL=post-key-rotation'".

Definition rotate_live (plan : EtcdPlan) (yes : bool) : IO anyhow unit :=
  let ssh := plan_exec plan in
  _ ← rotate_log ("control plane: " +:+ cp_ip_ (target plan));
  _ ← rotate_log "pre-flight: did you 'make backup-etcd LABEL=pre-key-rotation' already?";
  _ ← rotate_log "            (see docs/backup-restore.md 'When to snapshot')";
  _ ← confirm "Continue with rotation?" yes;
  _ ← rotate_log ("fetching current " +:+ ENCRYPTION_CONFIG +:+ " from CP");
  before ← rotate_fetch_config_with_exec ssh;
  key ← random_key_bytes;
  let key_secret := base64_encode key in
  now ← ask now_epoch_secs;
  let key_name := rotation_key_name now in
  _ ← rotate_log ("generated new key (base64, 32 bytes) named '" +:+ key_name +:+ "'");
  dual ← of_result (insert_primary_key before key_name key_secret);
  rotate_stages ssh yes key_name dual.

Definition run_rotate_key (args : RotateKeyArgs) : IO anyhow unit :=
  plan ← plan_from_common (rk_common args);
  if plan_dry_run plan then for_each say (rotate_dry_run_lines (ssh_target plan))
  else rotate_live plan (rk_yes args).

Definition run (command : EtcdSubcommand) : M ending :=
  match command with
  | Backup a => run_backup a
  | Restore a => r ← catch (run_restore a); mret (Returns r)
  | RotateKey a => r ← catch (run_rotate_key a); mret (Returns r)
  end.
End etcd.
