(* ===== verification/EtcdFacts.v ===== *)
(** * hbird etcd: what the three commands do, step by step

    The transcripts of backup, restore and rotate-key. *)

From S2P Require Import Prelude RustStr ConfigTypes ConfigLexer ConfigBuild SshOptions SshClient.
From S2P Require Import Effects VirtUri Shell VirtParse VirtConn Cp Transcript EtcdText Etcd.

Section etcd.
Context `{W : World} `{L : LocalIO}.

(** ** Prompts and messages leave no trace *)

Lemma scripted_say l : scripted [] (say l) (λ _, True).
Proof. apply scripted_quiet, quiet_emit. done. Qed.
Lemma scripted_log l : scripted [] (rotate_log l) (λ _, True).
Proof. apply scripted_quiet, quiet_emit. done. Qed.
Lemma scripted_print {E} t : scripted [] (lift (print t) : IO E unit) (λ _, True).
Proof. apply scripted_quiet, quiet_emit. done. Qed.
Lemma scripted_ask {E A} (f : history → A) :
  scripted [] (ask f : IO E A) (λ a, ∃ h, a = f h).
Proof. apply scripted_pure. intros h. split; [done|]. intros a [= <-]. by exists h. Qed.

Lemma scripted_confirm prompt yes : scripted [] (confirm prompt yes) (λ _, True).
Proof.
  unfold confirm. destruct yes; [by apply scripted_ret|].
  eapply scripted_quietly; [apply scripted_ask|]. intros tty _. destruct (negb tty).
  { apply scripted_throw. }
  eapply scripted_quietly; [apply scripted_quiet, quiet_emit; done|]. intros _ _.
  eapply scripted_quietly; [apply scripted_ask|]. intros r _.
  eapply scripted_quietly; [by apply (scripted_of_result _ (λ _, True))|]. intros a _.
  destruct (is_affirmative a); [by apply scripted_ret|apply scripted_throw].
Qed.

(** A step of a flow on the control plane. *)
Lemma scripted_exec m o c i :
  scripted [Must (Cmd o c i)] (ssh_context m (@exec (client_exec o) c i))
    (λ out, ∃ h, ssh_answer h o c i = Ok out).
Proof. apply scripted_map_err, scripted_ssh. Qed.

Lemma emits_exec m o c i :
  emits (ssh_context m (@exec (client_exec o) c i)) (λ r es,
    match r with
    | Ok out => es = [EvSsh o c i (Ok out)]
    | Err _ => ∃ e, es = [EvSsh o c i (Err e)]
    end).
Proof. apply emits_map_err. intros h. cbn. destruct (ssh_answer h o c i); cbn; eauto. Qed.

Ltac quietly :=
  eapply scripted_quietly;
    [first [apply scripted_say|apply scripted_log|apply scripted_print|apply scripted_confirm]|];
  intros _ _.

(** ** rotate-key *)

(** Replacing the config: upload, install (which restarts the apiserver), wait,
    health gate. *)
Definition reload_steps (o : SshOptions) (yaml : string) : list step :=
  [Cmd o upload_cmd (Some yaml); Cmd o "bash -s" (Some install_script);
   Wait (from_secs APISERVER_WARMUP_SECS); Cmd o healthz_cmd None].

(** The rotation of the config [before] to the key [name], [secret]. *)
Definition rotation_steps (o : SshOptions) (before name secret : string) : list step :=
  Cmd o fetch_cmd None ::
  match insert_primary_key before name secret with
  | Ok dual =>
      reload_steps o dual ++ [Cmd o "bash -s" (Some reencrypt_script)] ++
      match drop_non_primary_keys dual with
      | Ok final => reload_steps o final ++ [Cmd o (verify_cmd name) None]
      | Err _ => []
      end
  | Err _ => []
  end.

Lemma scripted_reload o yaml line stage :
  scripted (Must <$> reload_steps o yaml) (reload_with (client_exec o) yaml line stage) (λ _, True).
Proof.
  unfold reload_with. apply (scripted_bind [_; _] [_; _]) with (P := λ _, True).
  - unfold rotate_install_config_with_exec.
    eapply scripted_step; [apply scripted_exec|]. intros _ _.
    eapply scripted_step; [apply scripted_exec|]. intros _ _. by apply scripted_ret.
  - intros _ _. quietly. eapply scripted_step; [apply scripted_sleep|]. intros _ _.
    unfold rotate_healthz_with_exec. apply scripted_try_must; [|intros; apply scripted_throw|done].
    intros _. by apply scripted_ret.
Qed.

Lemma scripted_stages o yes name dual :
  scripted (Must <$> reload_steps o dual ++ [Cmd o "bash -s" (Some reencrypt_script)] ++
            match drop_non_primary_keys dual with
            | Ok final => reload_steps o final ++ [Cmd o (verify_cmd name) None]
            | Err _ => []
            end)
    (rotate_stages (client_exec o) yes name dual) (λ _, is_ok (drop_non_primary_keys dual) = true).
Proof.
  unfold rotate_stages. do 2 quietly. rewrite fmap_app.
  eapply scripted_bind; [apply scripted_reload|]. intros _ _. do 3 quietly. rewrite fmap_app.
  eapply (scripted_bind [Must _]).
  { unfold rotate_reencrypt_with_exec. eapply scripted_step; [apply scripted_exec|].
    intros _ _. apply (scripted_ret _ (λ _, True)). exact I. }
  intros _ _. destruct (drop_non_primary_keys dual) as [final|e].
  2: { apply (scripted_throw [] e). }
  eapply scripted_quietly; [by apply (scripted_of_result _ (λ a, a = final)); intros a [= ->]|].
  intros a ->. do 2 quietly. rewrite fmap_app.
  eapply scripted_bind; [apply scripted_reload|]. intros _ _. quietly. eapply (scripted_bind [Must _] []).
  { unfold rotate_verify_with_exec. eapply scripted_step; [apply scripted_exec|].
    intros _ _. apply (scripted_ret _ (λ _, True)). exact I. }
  intros _ _. quietly. eapply scripted_conseq; [apply scripted_log|done].
Qed.

(** [before] is the config that the control plane sent. *)
Definition fetched (o : SshOptions) (before : string) (e : event) : Prop :=
  ∀ out, e = EvSsh o fetch_cmd None (Ok out) → before = stdout_lossy out.

Lemma emits_fetch o :
  emits (rotate_fetch_config_with_exec (client_exec o)) (λ r es,
    (∃ before, Forall (fetched o before) es ∧ ∀ t, r = Ok t → t = before)
    ∧ transcript es = [(Cmd o fetch_cmd None, is_ok r)]
      ∨ is_ok r = false ∧ transcript es = [(Cmd o fetch_cmd None, true)]
        ∧ ∃ before, Forall (fetched o before) es).
Proof.
  unfold rotate_fetch_config_with_exec. eapply emits_io_bind; [apply emits_exec|..].
  - intros out e1 ->. destruct (is_empty (trim (stdout_lossy out))).
    + apply emits_throw. right. split; [done|]. split; [done|]. exists (stdout_lossy out).
      apply Forall_singleton. by intros out' [= <-].
    + apply emits_io_ret. left. split; [|done]. exists (stdout_lossy out).
      split; [|by intros t [= <-]]. apply Forall_singleton. by intros out' [= <-].
  - intros e e1 (x & ->). left. split; [|done]. exists "". split; [|done].
    apply Forall_singleton. by intros out' [=].
Qed.

Lemma fetch_once o before name secret s c i :
  s ∈ drop 1 (rotation_steps o before name secret) → s = Cmd o c i → c ≠ fetch_cmd.
Proof.
  assert (Hr : ∀ yaml s, s ∈ reload_steps o yaml → s = Cmd o c i → c ≠ fetch_cmd).
  { intros yaml t Ht ->. unfold reload_steps in Ht.
    repeat (apply elem_of_cons in Ht as [[=]|Ht]); [by subst..|]. by apply elem_of_nil in Ht. }
  unfold rotation_steps. cbn [drop]. destruct (insert_primary_key _ _ _) as [dual|]; [|by intros ?%elem_of_nil].
  intros [Hs|[Hs|Hs]%elem_of_app]%elem_of_app.
  - by eapply Hr.
  - apply list_elem_of_singleton in Hs as ->. by intros [= <- _].
  - destruct (drop_non_primary_keys dual) as [final|]; [|by apply elem_of_nil in Hs].
    apply elem_of_app in Hs as [Hs|Hs]; [by eapply Hr|].
    apply list_elem_of_singleton in Hs as ->. by intros [= <- _].
Qed.

Lemma scripted_random_key : scripted [] random_key_bytes (λ _, True).
Proof.
  unfold random_key_bytes. eapply scripted_quietly; [apply scripted_ask|]. intros r _.
  eapply scripted_quietly; [by apply (scripted_of_result _ (λ _, True))|]. intros _ _.
  eapply scripted_quietly; [apply scripted_ask|]. intros r' _. by apply scripted_of_result.
Qed.

(** [rotate_live] after the config was read. *)
Definition rotate_fetched (o : SshOptions) (yes : bool) (before : string) : IO anyhow unit :=
  key ← random_key_bytes;
  now ← ask now_epoch_secs;
  _ ← rotate_log ("generated new key (base64, 32 bytes) named '" +:+ rotation_key_name now +:+ "'");
  dual ← of_result (insert_primary_key before (rotation_key_name now) (base64_encode key));
  rotate_stages (client_exec o) yes (rotation_key_name now) dual.

Definition rotated (before key : string) (now : N) : Prop :=
  ∃ dual final, insert_primary_key before (rotation_key_name now) (base64_encode key) = Ok dual
                ∧ drop_non_primary_keys dual = Ok final.

Lemma emits_rotate_fetched o yes before :
  emits (rotate_fetched o yes before) (λ r es, ∃ key now,
    follows (Must <$> drop 1 (rotation_steps o before (rotation_key_name now) (base64_encode key)))
      (is_ok r) (transcript es)
    ∧ (is_ok r = true → rotated before key now)).
Proof.
  unfold rotate_fetched. eapply emits_quietly; [|intros; exists "", 0%N; split; [constructor|done]
                                              |apply scripted_random_key|].
  { intros r es1 es Hes (key & now & H). exists key, now. by rewrite transcript_app, Hes. }
  intros key _. eapply emits_quietly; [|intros; exists key, 0%N; split; [constructor|done]
                                     |apply scripted_ask|].
  { intros r es1 es Hes (key' & now & H). exists key', now. by rewrite transcript_app, Hes. }
  intros now _. unfold rotation_steps, rotated. cbn [drop].
  eapply emits_conseq with (P := λ r es,
    follows (Must <$> drop 1 (rotation_steps o before (rotation_key_name now) (base64_encode key)))
      (is_ok r) (transcript es) ∧ (is_ok r = true → rotated before key now)).
  2: { intros r es H. exists key, now. exact H. }
  unfold rotation_steps, rotated. cbn [drop].
  destruct (insert_primary_key before (rotation_key_name now) (base64_encode key)) as [dual|e].
  - eapply emits_conseq.
    + eapply scripted_quietly; [apply scripted_log|]. intros _ _.
      eapply scripted_quietly; [by apply (scripted_of_result _ (λ a, a = dual)); intros a [= ->]|].
      intros a ->. apply scripted_stages.
    + intros r es [H Hr]. split; [exact H|]. intros Hok. destruct r as [a|e]; [|done].
      specialize (Hr a eq_refl). destruct (drop_non_primary_keys dual) as [final|] eqn:Ed; [|done].
      by exists dual, final.
  - eapply emits_quietly; [|intros; split; [constructor|done]|apply scripted_log|].
    { intros r es1 es Hes H. by rewrite transcript_app, Hes. }
    intros _ _. apply emits_of_result. split; [constructor|done].
Qed.

Lemma fetched_quiet o before es : transcript es = [] → Forall (fetched o before) es.
Proof.
  intros Hes. apply Forall_forall. intros e He out ->.
  assert (H := transcript_elem _ _ _ _ He eq_refl). rewrite Hes in H. by apply elem_of_nil in H.
Qed.

Lemma fetched_later o before name secret b es :
  follows (Must <$> drop 1 (rotation_steps o before name secret)) b (transcript es) →
  Forall (fetched o before) es.
Proof.
  intros H. apply Forall_forall. intros e He out ->. exfalso.
  assert (Ht := transcript_elem _ _ _ _ He eq_refl).
  by eapply fetch_once; [eapply follows_elem; [exact H|exact Ht]| |].
Qed.

(** C27: the stages of a key rotation come in order, each after the success of all
    before it: the config is fetched, the two-key config is installed and the
    apiserver is healthy with it, every Secret and ConfigMap is written again,
    and only then the old keys are dropped.  A run that succeeds did all steps
    up to the verification; a run that fails did a prefix of them, of which at
    most the last one failed. *)
Theorem rotation_order p yes :
  emits (rotate_live p yes) (λ r es, ∃ before key now,
    let o := cp_ssh_opts (target p) in
    follows (Must <$> rotation_steps o before (rotation_key_name now) (base64_encode key))
      (is_ok r) (transcript es)
    ∧ Forall (fetched o before) es
    ∧ (is_ok r = true → rotated before key now)).
Proof.
  unfold rotate_live. set (o := cp_ssh_opts (target p)). change (plan_exec p) with (client_exec o).
  assert (Hq : quiet_closed (λ (r : result anyhow unit) es, ∃ before key now,
    follows (Must <$> rotation_steps o before (rotation_key_name now) (base64_encode key))
      (is_ok r) (transcript es)
    ∧ Forall (fetched o before) es ∧ (is_ok r = true → rotated before key now))).
  { intros r es1 es Hes (before & key & now & H & Hf & Hr). exists before, key, now.
    rewrite transcript_app, Hes. split; [done|]. split; [|done].
    apply Forall_app. split; [by apply fetched_quiet|done]. }
  do 5 (eapply emits_quietly;
    [exact Hq|intros; exists "", "", 0%N; split; [constructor|by split; [constructor|]]
    |first [apply scripted_log|apply scripted_confirm]|]; intros _ _).
  clear Hq. eapply emits_io_bind; [apply emits_fetch|..].
  - intros before es1 [[(b & Hf & Hb) Ht]|[[=] _]]. specialize (Hb _ eq_refl) as ->.
    eapply emits_conseq; [apply emits_rotate_fetched|].
    intros r es (key & now & H & Hr). exists b, key, now. rewrite transcript_app, Ht.
    split; [by constructor|]. split; [|done]. apply Forall_app. split; [done|].
    by eapply fetched_later.
  - intros e es [[(b & Hf & _) Ht]|(_ & Ht & b & Hf)]; exists b, "", 0%N; rewrite Ht;
      (split; [repeat constructor|by split]).
Qed.

(** ** restore *)

Definition nodes_cmd : string := remote_kubectl "get nodes".
(** The restore of the snapshot [bytes]; the rollback belongs to the script. *)
Definition restore_stages (o : SshOptions) (bytes image timestamp : string) : list stage :=
  [Must (Cmd o preflight_cmd None); Must (Cmd o push_cmd (Some bytes));
   May (Cmd o "crictl images" None);
   Guarded (Cmd o "bash -s" (Some (restore_script timestamp image)))
           (Cmd o "bash -s" (Some RESTORE_ROLLBACK_SCRIPT));
   Must (Wait (from_secs APISERVER_WARMUP_SECS)); Must (Cmd o nodes_cmd None)].

Lemma scripted_preflight o :
  scripted [Must (Cmd o preflight_cmd None)] (restore_preflight_with_exec (client_exec o)) (λ _, True).
Proof.
  unfold restore_preflight_with_exec. apply scripted_try_must.
  - intros _. by apply scripted_ret.
  - intros []; apply scripted_throw.
  - by intros [].
Qed.

Lemma scripted_push o bytes :
  scripted [Must (Cmd o push_cmd (Some bytes))] (push_snapshot_with_exec (client_exec o) bytes)
    (λ _, True).
Proof.
  unfold push_snapshot_with_exec. eapply scripted_step; [apply scripted_exec|].
  intros _ _. by apply scripted_ret.
Qed.

Lemma scripted_detect o :
  scripted [May (Cmd o "crictl images" None)] (detect_etcd_image_with_exec (client_exec o))
    (λ _, True).
Proof.
  unfold detect_etcd_image_with_exec. eapply scripted_step; [apply scripted_try_ssh|]. intros r _.
  eapply scripted_quietly with (P := λ _, True); [|intros s _; by apply scripted_ret].
  destruct r as [out|[]]; first [by apply scripted_ret|apply scripted_throw].
Qed.

Lemma scripted_apply o ts image :
  scripted [Guarded (Cmd o "bash -s" (Some (restore_script ts image)))
                    (Cmd o "bash -s" (Some RESTORE_ROLLBACK_SCRIPT))]
    (restore_apply_with_exec (client_exec o) ts image) (λ _, True).
Proof.
  unfold restore_apply_with_exec. eapply scripted_quietly.
  { by apply (scripted_of_result _ (λ _, True)). }
  intros _ _ h. cbv [mbind IO_bind M_bind try lift catch exec client_exec ssh_run].
  destruct (ssh_answer h o "bash -s" (Some (restore_script ts image))) as [out|e];
    [split; [repeat constructor|done]|].
  destruct (ssh_answer _ o "bash -s" (Some RESTORE_ROLLBACK_SCRIPT)) as [out|e'];
    (split; [constructor|done]).
Qed.

Lemma scripted_nodes p :
  scripted [Must (Cmd (cp_ssh_opts (target p)) nodes_cmd None)] (cp_kubectl_raw (target p) "get nodes")
    (λ _, True).
Proof.
  unfold cp_kubectl_raw, cp_kubectl_raw_with_exec.
  eapply scripted_quietly; [by apply (scripted_of_result _ (λ _, True))|]. intros _ _.
  eapply scripted_any, scripted_exec.
Qed.

(** C29: a confirmed restore checks that no earlier restore is half done, uploads
    the snapshot, looks for the etcd image and then runs the restore script with
    an image name of harmless characters.  The rollback script is run exactly
    when the restore script failed; the cluster is asked for its nodes only
    after the script succeeded and the warm-up time passed. *)
Theorem restore_order p bytes :
  emits (restore_confirmed p bytes) (λ r es, ∃ image now,
    validate_image_ref image = Ok tt
    ∧ follows (restore_stages (cp_ssh_opts (target p)) bytes image (format_utc_timestamp now))
        (is_ok r) (transcript es)).
Proof.
  set (o := cp_ssh_opts (target p)).
  set (P := λ x : string * N, validate_image_ref x.1 = Ok tt).
  cut (scripted_ex P (λ x, restore_stages o bytes x.1 (format_utc_timestamp x.2))
         (restore_confirmed p bytes)).
  { intros H. eapply emits_conseq; [exact H|]. intros r es ([image now] & Hx & Hf).
    by exists image, now. }
  unfold restore_confirmed, restore_stages. change (plan_exec p) with (client_exec o).
  assert (H0 : P (ETCD_IMAGE_FALLBACK, 0%N)) by done.
  eapply (scripted_ex_step P); [exact H0|apply scripted_preflight|]. intros _ _.
  eapply (scripted_ex_step P); [exact H0|apply scripted_push|]. intros _ _.
  eapply (scripted_ex_step P); [exact H0|apply scripted_detect|]. intros image _.
  eapply (scripted_ex_quietly P); [exact H0|apply scripted_say|]. intros _ _.
  eapply (scripted_ex_quietly P); [exact H0|apply scripted_ask|]. intros now _.
  destruct (validate_image_ref image) as [[]|e] eqn:Hv.
  - eapply (scripted_ex_intro P (image, now)); [exact Hv|].
    eapply scripted_step; [apply scripted_apply|]. intros out _. quietly. quietly.
    eapply scripted_step; [apply scripted_sleep|]. intros _ _.
    eapply scripted_step; [apply scripted_map_err, scripted_nodes|]. intros nodes _.
    apply scripted_print.
  - eapply (scripted_ex_intro P (ETCD_IMAGE_FALLBACK, 0%N)); [exact H0|].
    unfold restore_apply_with_exec. rewrite Hv. apply (scripted_throw (A:=unit) _ _ (λ _, True)).
Qed.

(** ** backup *)

Definition remote_snapshot (timestamp : string) : string :=
  REMOTE_SNAPSHOT_DIR +:+ "/hbird-snapshot-" +:+ timestamp +:+ ".db".
Definition backup_steps (o : SshOptions) (id remote : string) : list step :=
  [Cmd o "crictl ps --name etcd -q" None; Cmd o (save_cmd id remote) None;
   Cmd o (status_cmd id remote) None; Cmd o ("cat " +:+ remote) None;
   Cmd o ("rm -f " +:+ remote) None].

(** What is saved is what [cat] printed, and it is not empty. *)
Definition snapshot_of (o : SshOptions) (remote bytes : string) (es : history) : Prop :=
  is_empty bytes = false ∧ ∃ out, EvSsh o ("cat " +:+ remote) None (Ok out) ∈ es ∧ stdout out = bytes.

Lemma validate_container_id_dummy : validate_container_id "e" = Ok tt.
Proof. done. Qed.

Lemma scripted_backup o remote :
  scripted_ex (λ id, validate_container_id id = Ok tt) (λ id, Must <$> backup_steps o id remote)
    (backup_with_exec (client_exec o) remote).
Proof.
  set (P := λ id, validate_container_id id = Ok tt). assert (H0 : P "e") by done.
  unfold backup_with_exec. eapply (scripted_ex_step P); [exact H0|apply scripted_exec|]. intros ps _.
  eapply (scripted_ex_quietly P); [exact H0|by apply (scripted_of_result _ (λ _, True))|]. intros id _.
  destruct (validate_container_id id) as [[]|e] eqn:Hv.
  2: { eapply (scripted_ex_intro P "e"); [done|].
       apply (scripted_throw (A:=string) _ _ (λ _, True)). }
  eapply (scripted_ex_quietly P); [exact H0|by apply (scripted_of_result _ (λ _, True))|]. intros _ _.
  eapply (scripted_ex_intro P id); [exact Hv|].
  eapply scripted_step; [apply scripted_exec|]. intros _ _.
  apply scripted_try_must; [| |done].
  2: { intros e. eapply scripted_quietly; [apply (scripted_throw _ _ (λ _, False))|by intros ? []]. }
  intros out. eapply scripted_quietly with (P := λ _, True).
  { destruct (negb _); [apply scripted_quiet, quiet_emit; done|by apply scripted_ret]. }
  intros _ _. eapply scripted_step; [apply scripted_exec|]. intros fetched _.
  destruct (is_empty (stdout fetched)); [apply scripted_throw|].
  eapply scripted_step; [apply scripted_exec|]. intros _ _.
  by apply (scripted_ret _ (λ _, True)).
Qed.

Lemma emits_backup o remote :
  emits (backup_with_exec (client_exec o) remote) (λ r es,
    ∀ bytes, r = Ok bytes → snapshot_of o remote bytes es).
Proof.
  assert (Hg : ∀ bytes es1 es, snapshot_of o remote bytes es → snapshot_of o remote bytes (es1 ++ es)).
  { intros bytes es1 es [He (out & Hout & Hs)]. split; [done|]. exists out.
    split; [|done]. apply elem_of_app. by right. }
  unfold backup_with_exec. do 6 (apply emits_then; [exact Hg|intros ?]).
  eapply emits_io_bind; [apply emits_exec| |by intros].
  intros out es1 ->. destruct (is_empty (stdout out)) eqn:Hne; [by apply emits_throw|].
  eapply emits_io_bind with (P := λ _ _, True); [done| |by intros].
  intros _ es2 _. apply emits_io_ret. intros bytes [= <-]. split; [done|]. exists out.
  split; [by left|done].
Qed.

Lemma follows_more a l w ts :
  follows (Must <$> a :: l) false ts → follows (Must <$> a :: l ++ [w]) false ts.
Proof. intros H. rewrite app_comm_cons, fmap_app. by apply follows_app_l. Qed.

Lemma no_write_yet o outdir id remote b ts dst bytes ok :
  follows (Must <$> Fs (CreateDirAll outdir) :: backup_steps o id remote) b ts →
  (Fs (WriteFile dst bytes), ok) ∉ ts.
Proof.
  intros H Hin. eapply follows_elem in H; [|exact Hin]. unfold backup_steps in H.
  repeat (apply elem_of_cons in H as [[=]|H]). by apply elem_of_nil in H.
Qed.

(** A backup that is not a dry run makes the output directory, has etcd write
    a snapshot inside the container whose id was checked, asks for its status,
    fetches it, removes it from the control plane and writes the local file,
    each step only after the success of the one before.  The file gets exactly
    the bytes that were fetched, and there is at least one. *)
Theorem backup_order p outdir label :
  emits (backup_live p outdir label) (λ r es, ∃ id now bytes,
    let o := cp_ssh_opts (target p) in
    let ts := format_utc_timestamp now in
    let write := Fs (WriteFile (path_join outdir (snapshot_file_name ts label)) bytes) in
    validate_container_id id = Ok tt
    ∧ follows (Must <$> Fs (CreateDirAll outdir) :: backup_steps o id (remote_snapshot ts) ++ [write])
        (is_ok r) (transcript es)
    ∧ (∀ ok, (write, ok) ∈ transcript es → snapshot_of o (remote_snapshot ts) bytes es)).
Proof.
  set (o := cp_ssh_opts (target p)). unfold backup_live. change (plan_exec p) with (client_exec o).
  eapply emits_io_bind with (P := λ r es, transcript es = [] ∧ is_ok r = true);
    [by intros ?| |by intros ? ? [? ?]].
  intros now e0 [H0 _]. set (ts := format_utc_timestamp now). cbv zeta.
  fold (remote_snapshot ts).
  set (dst := path_join outdir (snapshot_file_name ts label)).
  eapply emits_io_bind; [apply scripted_map_err, scripted_fs|..].
  2: { intros e es [H _]. exists "e", now, "". rewrite transcript_app, H0. cbn [app]. split; [done|].
       assert (H' := follows_app_l [_] (Must <$> backup_steps o "e" (remote_snapshot ts)) _ H).
       split; [by apply follows_more|]. intros ok Hok. by eapply no_write_yet in H'. }
  intros [] e1 [H1 _]. eapply emits_io_bind; [apply scripted_say| |].
  2: { intros e es [H _]. exists "e", now, "".
       assert (transcript es = []) as Hes by by inversion H.
       rewrite !transcript_app, H0, Hes. cbn [app].
       assert (H' := follows_app [_] [] false _ _ H1 (follows_stop _)).
       apply (follows_app_l _ (Must <$> backup_steps o "e" (remote_snapshot ts))) in H'.
       split; [done|]. split; [by apply follows_more|].
       intros ok Hok. by eapply no_write_yet in H'. }
  intros [] e2 [H2 _]. assert (transcript e2 = []) as E2 by by inversion H2.
  eapply emits_io_bind; [apply emits_and; [apply scripted_backup|apply emits_backup]|..].
  2: { intros e es [(id & Hid & H) _]. exists id, now, "".
       rewrite !transcript_app, H0, E2. cbn [app].
       assert (H' := follows_app [_] _ _ _ _ H1 H).
       split; [done|]. split; [by apply follows_more|].
       intros ok Hok. by eapply no_write_yet in H'. }
  intros bytes e3 [(id & Hid & H) Hs]. specialize (Hs bytes eq_refl).
  eapply emits_conseq.
  { eapply scripted_step; [apply scripted_map_err, scripted_fs|]. intros _ _. apply scripted_say. }
  intros r es [H4 _]. exists id, now, bytes. split; [done|].
  rewrite !transcript_app, H0, E2. cbn [app]. split.
  - rewrite fmap_cons, fmap_app. apply (follows_app [_] (_ ++ _)); [exact H1|].
    by apply follows_app.
  - intros _ _. destruct Hs as [Hne (out & Hout & Ho)]. split; [done|]. exists out. split; [|done].
    rewrite !elem_of_app. tauto.
Qed.
End etcd.

(** ** The words of the commands *)

Lemma zeros_bare n : all_bytes is_bare (zeros n) = true.
Proof. by induction n. Qed.

Lemma show_N_bare n : all_bytes is_bare (show_N n) = true.
Proof.
  eapply all_bytes_impl; [|apply QemuSshUri.show_N_digits]. intros a Ha.
  unfold is_bare, is_ascii_alphanumeric. by rewrite Ha, !orb_true_r.
Qed.

Lemma pad0_bare w s : all_bytes is_bare s = true → all_bytes is_bare (pad0 w s) = true.
Proof. intros Hs. unfold pad0. by rewrite all_bytes_app, zeros_bare. Qed.

Lemma pad0_show_Z_bare w z : all_bytes is_bare (pad0 w (show_Z z)) = true.
Proof.
  apply pad0_bare. unfold show_Z. destruct (z <? 0)%Z; [|apply show_N_bare].
  rewrite all_bytes_app, show_N_bare. done.
Qed.

Lemma timestamp_bare now : all_bytes is_bare (format_utc_timestamp now) = true.
Proof.
  unfold format_utc_timestamp. cbv zeta.
  rewrite !all_bytes_app, pad0_show_Z_bare, !pad0_bare by apply show_N_bare. done.
Qed.

Lemma remote_snapshot_bare now : spells (remote_snapshot (format_utc_timestamp now))
                                        (remote_snapshot (format_utc_timestamp now)).
Proof.
  apply spells_bare; unfold remote_snapshot; [done|]. by rewrite !all_bytes_app, timestamp_bare.
Qed.

Lemma validate_container_id_Ok id :
  validate_container_id id = Ok tt → is_empty id = false ∧ all_bytes is_ascii_alphanumeric id = true.
Proof.
  unfold validate_container_id. destruct (is_empty id); [done|].
  by destruct (all_bytes is_ascii_alphanumeric id).
Qed.

Lemma container_id_bare id : validate_container_id id = Ok tt → spells id id.
Proof.
  intros [Hne Hb]%validate_container_id_Ok. apply spells_bare; [done|].
  eapply all_bytes_impl; [|exact Hb]. intros a Ha. unfold is_bare. by rewrite Ha.
Qed.

Definition tls_words : list string :=
  ["--cacert=/etc/kubernetes/pki/etcd/ca.crt"; "--cert=/etc/kubernetes/pki/etcd/server.crt";
   "--key=/etc/kubernetes/pki/etcd/server.key"].

(** With a container id that was accepted, the shell of the control plane
    reads the two [etcdctl] commands and the fetch as these words, whatever the
    time; the verification gets the prefix of the new key as one word. *)
Theorem etcd_commands_words now id (Hid : validate_container_id id = Ok tt) :
  let remote := remote_snapshot (format_utc_timestamp now) in
  shell_words (save_cmd id remote)
  = Some (["crictl"; "exec"; id; "etcdctl"] ++ tls_words ++ ["snapshot"; "save"; remote])
  ∧ shell_words (status_cmd id remote)
    = Some ["crictl"; "exec"; id; "etcdctl"; "--write-out=table"; "snapshot"; "status"; remote]
  ∧ shell_words ("cat " +:+ remote) = Some ["cat"; remote]
  ∧ shell_words ("rm -f " +:+ remote) = Some ["rm"; "-f"; remote]
  ∧ shell_words (verify_cmd (rotation_key_name now))
    = Some ["EXPECTED_PREFIX=k8s:enc:aesgcm:v1:" +:+ rotation_key_name now +:+ ":";
            "/usr/libexec/verify-encryption.sh"].
Proof.
  intros remote. assert (Hi := container_id_bare id Hid). assert (Hr := remote_snapshot_bare now).
  fold remote in Hr.
  assert (Hq : spells (shell_single_quote ("k8s:enc:aesgcm:v1:" +:+ rotation_key_name now +:+ ":"))
                 ("k8s:enc:aesgcm:v1:" +:+ rotation_key_name now +:+ ":")).
  { apply spells_single_quote. }
  split; [|split; [|split; [|split]]].
  - shell_words_by (["crictl"; "exec"; id; "etcdctl"] ++ tls_words ++ ["snapshot"; "save"; remote]).
  - shell_words_by ["crictl"; "exec"; id; "etcdctl"; "--write-out=table"; "snapshot"; "status"; remote].
  - shell_words_by ["cat"; remote].
  - shell_words_by ["rm"; "-f"; remote].
  - unfold verify_cmd. rewrite app_assoc_s.
    shell_words_by ["EXPECTED_PREFIX="
      +:+ shell_single_quote ("k8s:enc:aesgcm:v1:" +:+ rotation_key_name now +:+ ":");
      "/usr/libexec/verify-encryption.sh"].
    apply (spells_app "EXPECTED_PREFIX=" "EXPECTED_PREFIX="); [auto with shell|exact Hq].
Qed.

Lemma etcd_commands_words_witness :
  let remote := remote_snapshot (format_utc_timestamp 1700000000) in
  validate_container_id "abc123" = Ok tt
  ∧ shell_words (save_cmd "abc123" remote)
    = Some (["crictl"; "exec"; "abc123"; "etcdctl"] ++ tls_words ++ ["snapshot"; "save"; remote]).
Proof.
  intros remote. assert (H : validate_container_id "abc123" = Ok tt) by reflexivity.
  split; [exact H|]. apply (etcd_commands_words 1700000000 "abc123" H).
Defined.
