(* ===== verification/Export.v ===== *)
(** * hbird export-argocd and hbird get-kubeconfig

    [crates/hbird-cli/src/commands/export_argocd.rs] and [get_kubeconfig.rs]: the
    options, the fetch of [admin.conf], the line-wise rewriting, and the
    atomic write with its backup. *)

From S2P Require Import Prelude RustStr Utf8 ConfigTypes ConfigLexer ConfigBuild SshOptions SshClient.
From S2P Require Import Effects VirtUri Shell VirtParse VirtConn Cp Cache Host EtcdText.

(** ** Text from bytes *)

(** [from_utf8(raw).context(m)?] *)
Definition utf8_or (m raw : string) : IO anyhow string :=
  match from_utf8 raw with
  | Ok s => mret s
  | Err e => throw (context m (mkAnyhow [] (ROther (show_utf8_error e))))
  end.

(** ** Options *)

Record ExportArgocdArgs : Set := mkExportArgocdArgs {
  ea_config : string;
  ea_output : string;
  ea_server : option string;
  ea_context : option string;
  ea_proxy_jump : option string;
  ea_cp_ip : option string;
  ea_force : bool;
}.
Record GetKubeconfigArgs : Set := mkGetKubeconfigArgs {
  gk_config : string;
  gk_output : string;
  gk_server : option string;
  gk_context : option string;
  gk_force : bool;
  gk_proxy_jump : option string;
  gk_cp_ip : option string;
}.

Record ExportOptions : Set := mkExportOptions {
  eo_cp_name : string;
  eo_cp_ip : string;
  eo_kvm_host : option string;
  eo_output : string;
  eo_server : string;
  eo_context_name : string;
  eo_force : bool;
}.
#[export] Instance ExportOptions_eq_dec : EqDecision ExportOptions.
Proof. solve_decision. Defined.

Definition is_context_byte (a : ascii) : bool :=
  is_ascii_alphanumeric a || Ascii.eqb a "." || Ascii.eqb a "_" || Ascii.eqb a "-".

(** A byte of a longer encoding is no ASCII character either. *)
Definition validate_context_name (s : string) : result anyhow unit :=
  if is_empty s then Err (anyhow_msg "--context-name must not be empty")
  else if negb (all_bytes is_context_byte s) then
    Err (anyhow_msg ("--context-name must match [A-Za-z0-9._-]+ (got: '" +:+ s +:+ "')"))
  else Ok tt.

(** The two constructors differ in the message for a missing address and in the
    default of the context name. *)
Definition resolve_options (cfg : ClusterConfig) (output : string)
    (server context_ proxy_jump cp_ip_arg : option string) (force : bool)
    (no_ip default_context : string) : result anyhow ExportOptions :=
  let name := cp_name cfg in
  ip ← match or_else cp_ip_arg (cp_ip cfg) with
       | Some ip => Ok ip
       | None => Err (anyhow_msg no_ip)
       end;
  if is_empty ip then Err (anyhow_msg "CP_IP resolved to empty string")
  else
    let kvm := match proxy_jump with
               | Some s => if is_empty s then None else Some s
               | None => non_empty (kvm_host cfg)
               end in
    let server_url := default ("https://" +:+ ip +:+ ":6443") (non_empty server) in
    let context_name := default default_context (non_empty context_) in
    _ ← validate_context_name context_name;
    Ok (mkExportOptions name ip kvm output server_url context_name force).

(** [ExportOptions::from_args], after the config is parsed. *)
Definition options_from_args (a : ExportArgocdArgs) (cfg : ClusterConfig)
    : result anyhow ExportOptions :=
  resolve_options cfg (ea_output a) (ea_server a) (ea_context a) (ea_proxy_jump a) (ea_cp_ip a)
    (ea_force a)
    ("could not resolve CP_IP for '" +:+ cp_name cfg +:+ "' (set CP_IP=<ip> in " +:+ ea_config a
     +:+ ", or pass --cp-ip / CP_IP env; virsh-domifaddr resolution not yet wired in the Rust path)")
    ("hummingbird-" +:+ cp_name cfg).

(** [ExportOptions::for_get_kubeconfig], after the config is parsed. *)
Definition for_get_kubeconfig (a : GetKubeconfigArgs) (cfg : ClusterConfig)
    : result anyhow ExportOptions :=
  resolve_options cfg (gk_output a) (gk_server a) (gk_context a) (gk_proxy_jump a) (gk_cp_ip a)
    (gk_force a)
    ("could not resolve CP_IP for '" +:+ cp_name cfg +:+ "' (set CP_IP=<ip> in " +:+ gk_config a
     +:+ ", or pass --cp-ip / CP_IP env)")
    (cp_name cfg).

Definition target (o : ExportOptions) : CpTarget := mkCpTarget (eo_cp_ip o) (eo_kvm_host o).

(** ** Rewriting *)

(** The white space a line begins with. *)
Definition indent_of (line : string) : string := concat_str (take_while is_whitespace (chars line)).

Definition strip_prefix_with_indent (key line : string) : option (string * string) :=
  after ← strip_prefix key (trim_start line); Some (indent_of line, after).

(** The line up to the value, when it is a [name] with the value [target]. *)
Definition match_name_kv (line target : string) : option string :=
  '(indent, rest) ←
    match strip_prefix "- " line with
    | Some rest => Some ("- ", rest)
    | None =>
        let trimmed := trim_start line in
        if negb (starts_with "name:" trimmed) then None
        else if is_empty (indent_of line) then None
        else Some (indent_of line, trimmed)
    end;
  rest ← strip_prefix "name:" rest;
  match rest with
  | String a _ =>
      if is_ascii_whitespace a && bool_decide (trim_start rest = target)
      then Some (indent +:+ "name:" +:+ indent_of rest)
      else None
  | EmptyString => None
  end.

Definition COMPOSITE : string := "kubernetes-admin@kubernetes".
Definition ADMIN : string := "kubernetes-admin".
Definition CLUSTER : string := "kubernetes".

(** The last two patterns of [rewrite_line]. *)
Definition rewrite_cluster (line context_name : string) : string :=
  match match_name_kv line CLUSTER with
  | Some prefix => prefix +:+ context_name
  | None =>
      match strip_prefix_with_indent "cluster:" line with
      | Some (indent, after) =>
          if bool_decide (after = " " +:+ CLUSTER) then indent +:+ "cluster: " +:+ context_name
          else line
      | None => line
      end
  end.

(** The two before them. *)
Definition rewrite_user (line context_name : string) : string :=
  match match_name_kv line ADMIN with
  | Some prefix => prefix +:+ context_name
  | None =>
      match strip_prefix_with_indent "user:" line with
      | Some (indent, after) =>
          if bool_decide (after = " " +:+ ADMIN) then indent +:+ "user: " +:+ context_name
          else rewrite_cluster line context_name
      | None => rewrite_cluster line context_name
      end
  end.

Definition rewrite_line (line server_url context_name : string) : string :=
  match strip_prefix_with_indent "server:" line with
  | Some (indent, _) => indent +:+ "server: " +:+ server_url
  | None =>
      match match_name_kv line COMPOSITE with
      | Some prefix => prefix +:+ context_name
      | None =>
          if bool_decide (strip_suffix COMPOSITE line = Some "current-context: ")
          then "current-context: " +:+ context_name
          else rewrite_user line context_name
      end
  end.

(** The body of a line of [split_inclusive('\n')] and its line end. *)
Definition rewrite_piece (server_url context_name line : string) : string :=
  match strip_suffix_char nl line with
  | Some body => rewrite_line body server_url context_name +:+ NL
  | None => rewrite_line line server_url context_name
  end.

Definition rewrite_text (server_url context_name input : string) : string :=
  concat_str (rewrite_piece server_url context_name <$> split_inclusive_nl input).

Definition rewrite_kubeconfig (raw server_url context_name : string) : IO anyhow string :=
  input ← utf8_or "kubeconfig was not UTF-8 in rewrite step" raw;
  mret (rewrite_text server_url context_name input).

Definition looks_like_kubeconfig (s : string) : bool :=
  existsb (starts_with "apiVersion:") (lines s) && existsb (starts_with "kind: Config") (lines s).

Definition sanity_check_kubeconfig (raw : string) : IO anyhow unit :=
  s ← utf8_or "fetched admin.conf was not UTF-8 (kubeconfigs are YAML, must be UTF-8)" raw;
  if negb (looks_like_kubeconfig s) then
    bail ("fetched file does not look like a kubeconfig (no 'kind: Config'). "
          +:+ "Refusing to continue.")
  else mret tt.

(** ** The name of a backup *)

Definition wrap_i32 (z : Z) : Z := ((z + 2147483648) mod 4294967296 - 2147483648)%Z.
Definition wrap_i64 (z : Z) : Z :=
  ((z + 9223372036854775808) mod 18446744073709551616 - 9223372036854775808)%Z.

(** Year, month, day, hour, minute, second; the casts to [i32] wrap, the other
    values are small. *)
Definition epoch_to_utc_ymdhms (secs : Z) : Z * Z * Z * Z * Z * Z :=
  let days := (secs / 86400)%Z in
  let secs_of_day := (secs mod 86400)%Z in
  let h := (secs_of_day / 3600)%Z in
  let mi := ((secs_of_day / 60) mod 60)%Z in
  let s := (secs_of_day mod 60)%Z in
  let z := (days + 719468)%Z in
  let era := (z / 146097)%Z in
  let doe := (z - era * 146097)%Z in
  let yoe := ((doe - doe / 1460 + doe / 36524 - doe / 146096) / 365)%Z in
  let y := wrap_i32 (yoe + wrap_i32 (wrap_i32 era * 400)) in
  let doy := (doe - (365 * yoe + yoe / 4 - yoe / 100))%Z in
  let mp := ((5 * doy + 2) / 153)%Z in
  let d := (doy - (153 * mp + 2) / 5 + 1)%Z in
  let m := (if mp <? 10 then mp + 3 else mp - 9)%Z in
  let y := (if m <=? 2 then wrap_i32 (y + 1) else y)%Z in
  (y, m, d, h, mi, s).

(** [{:0w}]: the sign counts. *)
Definition pad0_Z (w : nat) (z : Z) : string :=
  if (z <? 0)%Z then "-" +:+ pad0 (w - 1) (show_Z (- z)) else pad0 w (show_Z z).

Definition backup_stamp (secs nsecs : N) : string :=
  let '(y, mo, d, h, mi, s) := epoch_to_utc_ymdhms (wrap_i64 (Z.of_N secs)) in
  pad0_Z 4 y +:+ pad0_Z 2 mo +:+ pad0_Z 2 d +:+ "T" +:+ pad0_Z 2 h +:+ pad0_Z 2 mi +:+ pad0_Z 2 s
  +:+ pad0 9 (show_N nsecs) +:+ "UTC".

(** ** Files *)

(** What [symlink_metadata] says. *)
Inductive lstat : Set :=
| NotFound
| StatFailed (e : io_error)
| Symlink
| OtherFile.

(** The file system and the clock, as far as the command looks at them. *)
Class ExportHost : Type := {
  symlink_metadata : history → string → lstat;
  read_link : history → string → option string;
  metadata : history → string → result io_error unit;
  (** seconds and nanoseconds since the epoch; [None]: the clock is before it *)
  clock : history → option (N * N);
}.

Definition log (msg : string) : IO anyhow unit := lift (println ("[export-argocd] " +:+ msg)).

Section export.
Context `{W : World} `{Hst : Host} `{X : ExportHost}.

Definition pre_check_output (output : string) (force : bool) : IO anyhow unit :=
  meta ← ask (λ h, symlink_metadata h output);
  match meta with
  | NotFound => mret tt
  | StatFailed e => throw (context ("stat " +:+ output) (of_io e))
  | Symlink =>
      target_ ← ask (λ h, default "" (read_link h output));
      bail ("OUTPUT is a symlink (" +:+ output +:+ " -> " +:+ target_ +:+ "); re-run with --output="
            +:+ target_ +:+ " or remove the symlink first")
  | OtherFile =>
      if negb force
      then bail ("output file already exists: " +:+ output +:+ " (re-run with --force to overwrite)")
      else mret tt
  end.

Definition CAT_ADMIN_CONF : string := "sudo cat /etc/kubernetes/admin.conf".

Definition fetch_admin_conf (o : ExportOptions) : IO anyhow string :=
  out ← io_map_err (context ("ssh root@" +:+ eo_cp_ip o +:+ " '" +:+ CAT_ADMIN_CONF
                             +:+ "' failed — is the CP up and reachable?"))
          (cp_ssh_capture (target o) CAT_ADMIN_CONF);
  if is_empty (stdout out) then bail "fetched admin.conf is empty" else mret (stdout out).

Definition backup_path (h : history) (path : string) : string :=
  let '(secs, nsecs) := default (0, 0)%N (clock h) in
  path +:+ ".bak-" +:+ backup_stamp secs nsecs.

Definition MODE_0600 : N := 384.

(** The part of [write_atomic_0600] for a file that is overwritten. *)
Definition backup (path : string) : IO anyhow unit :=
  bak ← ask (λ h, backup_path h path);
  present ← ask (λ h, path_exists h bak);
  if (present : bool) then
    bail ("backup target already exists: " +:+ bak +:+ " (refusing to clobber)")
  else
    _ ← io_context ("backup: copy " +:+ path +:+ " to " +:+ bak) (fs_run (CopyFile path bak));
    meta ← ask (λ h, metadata h bak);
    _ ← io_map_err of_io (of_result (meta : result io_error unit));
    _ ← io_map_err of_io (fs_run (SetMode bak MODE_0600));
    log ("backup: copied " +:+ path +:+ " to " +:+ bak +:+ " (will be overwritten next)").

(** [Path::file_name] and [Path::parent] of a path whose last component is a
    name. *)
Definition file_name (path : string) : string :=
  match rsplit_once "/" path with Some (_, name) => name | None => path end.
Definition install_tmp (path : string) : string :=
  path_join (path_parent path) ("." +:+ file_name path +:+ ".tmp-" +:+ show_N process_id).

Definition write_atomic_0600 (path contents : string) (force : bool) : IO anyhow unit :=
  present ← ask (λ h, path_exists h path);
  _ ← (if force && (present : bool) then backup path else mret tt);
  let tmp := install_tmp path in
  _ ← io_context ("open temp file " +:+ tmp) (fs_run (OpenTruncated tmp MODE_0600));
  _ ← io_context ("write temp file " +:+ tmp) (fs_run (WriteAll tmp contents));
  _ ← io_context ("fsync temp file " +:+ tmp) (fs_run (SyncFile tmp));
  io_context ("rename " +:+ tmp +:+ " -> " +:+ path +:+ " (atomic install)")
    (fs_run (RenameFile tmp path)).

Definition export_kubeconfig (o : ExportOptions) : IO anyhow unit :=
  let output := eo_output o in
  _ ← pre_check_output output (eo_force o);
  _ ← log ("fetching /etc/kubernetes/admin.conf from root@" +:+ eo_cp_ip o);
  raw ← io_map_err (context "fetch admin.conf via SSH") (fetch_admin_conf o);
  _ ← sanity_check_kubeconfig raw;
  rewritten ← rewrite_kubeconfig raw (eo_server o) (eo_context_name o);
  _ ← write_atomic_0600 output rewritten (eo_force o);
  _ ← log ("kubeconfig written to " +:+ output);
  _ ← log ("register with:  argocd cluster add " +:+ eo_context_name o +:+ " --kubeconfig " +:+ output);
  _ ← log ("sanity check:   KUBECONFIG=" +:+ output +:+ " kubectl get nodes");
  match eo_kvm_host o with
  | Some _ =>
      _ ← log "note: ProxyJump used for fetch — direct 'kubectl get nodes' from";
      _ ← log "      this workstation may fail (apiserver isn't reachable here);";
      log "      that is expected and does not invalidate the kubeconfig."
  | None => mret tt
  end.

(** [export_argocd::run] and [get_kubeconfig::run] *)
Definition run (a : ExportArgocdArgs) : IO anyhow unit :=
  cfg ← parse_config (ea_config a);
  o ← of_result (options_from_args a cfg);
  export_kubeconfig o.
Definition run_get_kubeconfig (a : GetKubeconfigArgs) : IO anyhow unit :=
  cfg ← parse_config (gk_config a);
  o ← of_result (for_get_kubeconfig a cfg);
  export_kubeconfig o.
End export.
