(* ===== verification/ExportFacts.v ===== *)
(** * What the export of a kubeconfig does

    The lines the rewriting edits, and that it leaves the rest alone; the file is
    installed whole or not at all; the two implementations of the calendar
    agree. *)

From S2P Require Import Prelude RustStr Utf8 ConfigTypes ConfigLexer ConfigBuild SshOptions SshClient.
From S2P Require Import Effects VirtUri Shell VirtParse VirtConn Cp Cache Host Transcript EtcdText.
From S2P Require Import EtcdCalendar Export.
From Stdlib Require Import ZArith.

(** ** White space in front *)

Definition blank (s : string) : Prop := ∃ l, Forall (λ c, is_whitespace c = true) l ∧ s = concat_str l.

Lemma ws_char c : is_whitespace c = true → complete_chars c = true ∧ chars c = [c].
Proof.
  destruct c as [|a [|b [|d [|e c]]]]; try done; unfold is_whitespace.
  - intros Ha. assert (utf8_len a = 1%nat) as Hl.
    { apply utf8_len_ascii. apply orb_true_iff in Ha as [Ha| ->%Ascii.eqb_eq]; [|done].
      unfold in_range in Ha. apply andb_true_iff in Ha as [_ Ha%N.leb_le]. lia. }
    cbn. by rewrite Hl.
  - intros [Ha _]%andb_true_iff. apply N.eqb_eq in Ha.
    assert (utf8_len a = 2%nat) as Hl by (unfold utf8_len; by rewrite Ha). cbn. by rewrite Hl.
  - intros H. assert (utf8_len a = 3%nat) as Hl.
    { unfold utf8_len. destruct (byte_val a) as [|n] eqn:E; [done|].
      assert (n = 225 ∨ n = 226 ∨ n = 227)%positive as [->|[->| ->]]; [|done..].
      repeat (destruct n as [n|n|]; try done); auto. }
    cbn. by rewrite Hl.
Qed.

Lemma ws_chars l :
  Forall (λ c, is_whitespace c = true) l →
  complete_chars (concat_str l) = true ∧ chars (concat_str l) = l.
Proof.
  induction 1 as [|c l Hc _ [IH1 IH2]]; [done|]. destruct (ws_char c Hc) as [H1 H2].
  cbn [concat_str]. split; [|by rewrite chars_app, H2, IH2].
  clear -H1 IH1. revert H1. induction c as [c IH] using string_len_ind.
  destruct c as [|a c1]; [done|]. cbn [complete_chars String.append].
  destruct (utf8_len a) as [|[|[|[|[|n]]]]]; try done.
  - intros H. apply IH; [cbn; lia|done].
  - destruct c1 as [|b c2]; [done|]. intros H. cbn. apply IH; [cbn; lia|done].
  - destruct c1 as [|b [|d c3]]; try done. intros H. cbn. apply IH; [cbn; lia|done].
  - destruct c1 as [|b [|d [|e c4]]]; try done. intros H. cbn. apply IH; [cbn; lia|done].
Qed.

(** Text that begins with an ASCII character other than white space. *)
Definition solid (s : string) : bool :=
  match s with
  | String a _ => (utf8_len a =? 1)%nat && negb (is_whitespace (chr a))
  | EmptyString => false
  end.

Lemma solid_app s t : solid s = true → solid (s +:+ t) = true.
Proof. by destruct s. Qed.

Lemma indent_split line : line = indent_of line +:+ trim_start line.
Proof.
  unfold indent_of, trim_start. rewrite <-concat_str_app, take_drop_while. symmetry. apply concat_chars.
Qed.
Lemma indent_blank line : blank (indent_of line).
Proof. exists (take_while is_whitespace (chars line)). split; [apply take_while_all|done]. Qed.

Lemma blank_solid ind s :
  blank ind → solid s = true → indent_of (ind +:+ s) = ind ∧ trim_start (ind +:+ s) = s.
Proof.
  intros (l & Hl & ->) Hs. destruct (ws_chars l Hl) as [H1 H2].
  assert (Hs' : take_while is_whitespace (chars s) = [] ∧ drop_while is_whitespace (chars s) = chars s).
  { destruct s as [|a s]; [done|]. cbn [solid] in Hs. apply andb_true_iff in Hs as [Ha%Nat.eqb_eq Hw].
    rewrite chars_cons by done. cbn [take_while drop_while]. by apply negb_true_iff in Hw as ->. }
  destruct Hs' as [Ht Hd]. unfold indent_of, trim_start. rewrite chars_app, H2 by done.
  rewrite drop_while_app_all, Hd, concat_chars by done. split; [|done]. f_equal. clear -Hl Ht.
  induction Hl as [|c l Hc _ IH]; [done|]. cbn [app take_while]. by rewrite Hc, IH.
Qed.

(** ** The lines that are edited *)

Lemma strip_key_spec key line ind after :
  solid key = true →
  strip_prefix_with_indent key line = Some (ind, after) ↔ blank ind ∧ line = ind +:+ key +:+ after.
Proof.
  intros Hk. unfold strip_prefix_with_indent. split.
  - destruct (strip_prefix key (trim_start line)) as [t|] eqn:E; [|done]. cbn. intros [= <- <-].
    apply strip_prefix_Some in E. split; [apply indent_blank|]. rewrite <-E. apply indent_split.
  - intros [Hi ->]. destruct (blank_solid ind (key +:+ after) Hi) as [-> ->]; [by apply solid_app|].
    by rewrite strip_prefix_app.
Qed.

(** [pre] ends after the white space that follows [name:]. *)
Definition name_line (line pre t : string) : Prop :=
  ∃ ind a ws, (ind = "- " ∨ blank ind ∧ ind ≠ "") ∧ blank (String a ws) ∧ is_ascii_whitespace a = true
              ∧ pre = ind +:+ "name:" +:+ String a ws ∧ line = pre +:+ t.

Lemma name_line_intro ind rest t pre :
  (ind = "- " ∨ blank ind ∧ ind ≠ "") → solid t = true →
  match strip_prefix "name:" rest with
  | Some (String a rest') =>
      if is_ascii_whitespace a && bool_decide (trim_start (String a rest') = t)
      then Some (ind +:+ "name:" +:+ indent_of (String a rest')) else None
  | _ => None
  end = Some pre ↔ ∃ a ws, blank (String a ws) ∧ is_ascii_whitespace a = true
                     ∧ pre = ind +:+ "name:" +:+ String a ws ∧ ind +:+ rest = pre +:+ t.
Proof.
  intros Hind Ht. split.
  - destruct (strip_prefix _ rest) as [[|a r]|] eqn:E; try done. apply strip_prefix_Some in E as ->.
    destruct (is_ascii_whitespace a) eqn:Ea; [|done]. cbn [andb]. case_bool_decide as Er; [|done].
    intros Hp%(inj Some). subst pre. pose proof (indent_split (String a r)) as Hsp. rewrite Er in Hsp.
    pose proof (indent_blank (String a r)) as Hb.
    destruct (indent_of (String a r)) as [|a' ws] eqn:Ei.
    { change ("" +:+ t) with t in Hsp. rewrite <-Hsp in Ht. cbn [solid] in Ht.
      apply andb_true_iff in Ht as [_ Hw]. exfalso. revert Ea Hw. unfold is_ascii_whitespace.
      destruct a as [[] [] [] [] [] [] [] []]; done. }
    exists a', ws. assert (a' = a) as -> by (injection Hsp; done).
    split; [done|]. split; [done|]. split; [done|]. rewrite Hsp. by rewrite <-!app_assoc_s.
  - intros (a & ws & Hb & Ha & -> & Hr). rewrite <-!app_assoc_s in Hr. apply app_inj_s in Hr as ->.
    rewrite strip_prefix_app. change (String a ws +:+ t) with (String a (ws +:+ t)). cbv iota.
    rewrite Ha. change (String a (ws +:+ t)) with (String a ws +:+ t).
    destruct (blank_solid _ _ Hb Ht) as [-> ->]. by rewrite bool_decide_true.
Qed.

Lemma trim_solid s : solid s = true → trim_start s = s.
Proof. intros Hs. by destruct (blank_solid "" s) as [_ H]; [exists []|done|]. Qed.

(** A line begins with one key only. *)
Lemma blank_key ind s line : blank ind → solid s = true → line = ind +:+ s → trim_start line = s.
Proof. intros Hi Hs ->. by apply blank_solid. Qed.

Lemma match_name_spec line t pre :
  solid t = true → match_name_kv line t = Some pre ↔ name_line line pre t.
Proof.
  intros Ht. unfold match_name_kv, name_line. destruct (strip_prefix "- " line) as [rest|] eqn:E.
  - apply strip_prefix_Some in E as ->. cbn [mbind option_bind].
    transitivity (∃ a ws, blank (String a ws) ∧ is_ascii_whitespace a = true
                     ∧ pre = "- " +:+ "name:" +:+ String a ws ∧ "- " +:+ rest = pre +:+ t).
    { rewrite <-name_line_intro by (done || by left). by destruct (strip_prefix _ rest) as [[]|]. }
    split.
    + intros (a & ws & ?). exists "- ", a, ws. naive_solver.
    + intros (ind & a & ws & [->|[Hb _]] & Hw & Ha & -> & Hl); [by exists a, ws|].
      rewrite <-app_assoc_s in Hl. apply blank_key in Hl; [|done..].
      by rewrite trim_solid in Hl.
  - assert (Hdash : ∀ u, line ≠ "- " +:+ u) by (intros u Hu%strip_prefix_Some; congruence).
    assert (Hsome : ∀ ind a ws, ind = "- " ∨ blank ind ∧ ind ≠ "" → blank (String a ws) →
      pre = ind +:+ "name:" +:+ String a ws → line = pre +:+ t →
      blank ind ∧ ind ≠ "" ∧ indent_of line = ind ∧ trim_start line = "name:" +:+ String a ws +:+ t).
    { intros ind a ws [->|[Hb Hne]] Hw -> ->; rewrite <-!app_assoc_s in *; [by destruct (Hdash _ eq_refl)|].
      by destruct (blank_solid ind ("name:" +:+ String a ws +:+ t) Hb) as [-> ->]. }
    destruct (starts_with "name:" (trim_start line)) eqn:Es; cbn [negb].
    2: { split; [done|]. intros (ind & a & ws & Hi & Hw & _ & Hp & Hl).
         destruct (Hsome _ _ _ Hi Hw Hp Hl) as (_ & _ & _ & Hk). rewrite Hk in Es. done. }
    destruct (is_empty (indent_of line)) eqn:Ei.
    { split; [done|]. intros (ind & a & ws & Hi & Hw & _ & Hp & Hl).
      destruct (Hsome _ _ _ Hi Hw Hp Hl) as (_ & Hne & Hk & _). rewrite Hk in Ei. by destruct ind. }
    assert (Hb : indent_of line = "- " ∨ blank (indent_of line) ∧ indent_of line ≠ "").
    { right. split; [apply indent_blank|]. intros E'. by rewrite E' in Ei. }
    cbn [mbind option_bind].
    transitivity (∃ a ws, blank (String a ws) ∧ is_ascii_whitespace a = true
      ∧ pre = indent_of line +:+ "name:" +:+ String a ws ∧ indent_of line +:+ trim_start line = pre +:+ t).
    { rewrite <-name_line_intro by done. by destruct (strip_prefix _ (trim_start line)) as [[]|]. }
    rewrite <-indent_split. split.
    + intros (a & ws & ?). exists (indent_of line), a, ws. naive_solver.
    + intros (ind & a & ws & Hi & Hw & Ha & Hp & Hl).
      destruct (Hsome _ _ _ Hi Hw Hp Hl) as (_ & _ & Hk & _). rewrite Hk. by exists a, ws.
Qed.

(** *** What a line becomes *)

Definition NAMES : list string := [COMPOSITE; ADMIN; CLUSTER].

Inductive edit (url ctx line : string) : string → Prop :=
| edit_server ind after :
    blank ind → line = ind +:+ "server:" +:+ after → edit url ctx line (ind +:+ "server: " +:+ url)
| edit_name pre t : t ∈ NAMES → name_line line pre t → edit url ctx line (pre +:+ ctx)
| edit_current :
    line = "current-context: " +:+ COMPOSITE → edit url ctx line ("current-context: " +:+ ctx)
| edit_user ind :
    blank ind → line = ind +:+ "user: " +:+ ADMIN → edit url ctx line (ind +:+ "user: " +:+ ctx)
| edit_cluster ind :
    blank ind → line = ind +:+ "cluster: " +:+ CLUSTER →
    edit url ctx line (ind +:+ "cluster: " +:+ ctx).

(** A line of one of these kinds is edited, any other line is kept. *)
Lemma rewrite_line_cases line url ctx :
  edit url ctx line (rewrite_line line url ctx)
  ∨ rewrite_line line url ctx = line ∧ ∀ out, ¬ edit url ctx line out.
Proof.
  unfold rewrite_line, rewrite_user, rewrite_cluster.
  destruct (strip_prefix_with_indent "server:" line) as [[ind after]|] eqn:Es.
  { apply strip_key_spec in Es as [Hb Hl]; [|done]. left. by eapply edit_server. }
  destruct (match_name_kv line COMPOSITE) as [pre|] eqn:Ec.
  { apply match_name_spec in Ec; [|done]. left. eapply edit_name; [|done]. by left. }
  case_bool_decide as Ecur.
  { apply strip_suffix_Some in Ecur. left. by apply edit_current. }
  destruct (match_name_kv line ADMIN) as [pre|] eqn:Ea.
  { apply match_name_spec in Ea; [|done]. left. eapply edit_name; [|done]. by right; left. }
  destruct (match strip_prefix_with_indent "user:" line with
            | Some (ind, after) => bool_decide (after = " " +:+ ADMIN) | None => false end) eqn:Eu.
  { destruct (strip_prefix_with_indent "user:" line) as [[ind after]|] eqn:Eu'; [|done]. rewrite Eu.
    apply bool_decide_eq_true in Eu as ->. apply strip_key_spec in Eu' as [Hb Hl]; [|done].
    left. by apply edit_user. }
  replace (match strip_prefix_with_indent "user:" line with
           | Some (ind, after) => if bool_decide (after = " " +:+ ADMIN) then _ else _
           | None => _ end) with (rewrite_cluster line ctx).
  2: { destruct (strip_prefix_with_indent "user:" line) as [[ind after]|]; [by rewrite Eu|done]. }
  unfold rewrite_cluster. destruct (match_name_kv line CLUSTER) as [pre|] eqn:Ek.
  { apply match_name_spec in Ek; [|done]. left. eapply edit_name; [|done]. by right; right; left. }
  destruct (match strip_prefix_with_indent "cluster:" line with
            | Some (ind, after) => bool_decide (after = " " +:+ CLUSTER) | None => false end) eqn:El.
  { destruct (strip_prefix_with_indent "cluster:" line) as [[ind after]|] eqn:El'; [|done]. rewrite El.
    apply bool_decide_eq_true in El as ->. apply strip_key_spec in El' as [Hb Hl]; [|done].
    left. by apply edit_cluster. }
  right. split.
  { destruct (strip_prefix_with_indent "cluster:" line) as [[ind after]|]; [by rewrite El|done]. }
  intros out Hout. destruct Hout as [ind after Hb Hl|pre t Hin Hn|Hl|ind Hb Hl|ind Hb Hl].
  - rewrite (proj2 (strip_key_spec "server:" line ind after eq_refl)) in Es by done. done.
  - revert Hin. unfold NAMES. rewrite !elem_of_cons, elem_of_nil.
    intros [->|[->|[->|[]]]]; apply match_name_spec in Hn; congruence || done.
  - by apply Ecur, strip_suffix_Some.
  - rewrite (proj2 (strip_key_spec "user:" line ind (" " +:+ ADMIN) eq_refl)) in Eu by done.
    by rewrite bool_decide_true in Eu.
  - rewrite (proj2 (strip_key_spec "cluster:" line ind (" " +:+ CLUSTER) eq_refl)) in El by done.
    by rewrite bool_decide_true in El.
Qed.

(** *** Exporting twice *)

Lemma name_line_unique line pre t pre' t' :
  solid t = true → solid t' = true → name_line line pre t → name_line line pre' t' → pre' = pre.
Proof.
  intros Ht Ht' (ind & a & ws & Hi & Hw & _ & -> & ->) (ind' & a' & ws' & Hi' & Hw' & _ & -> & Hl).
  assert (Hind : ind' = ind ∧ String a ws +:+ t = String a' ws' +:+ t').
  { rewrite <-!app_assoc_s in Hl.
    destruct Hi as [->|[Hb _]], Hi' as [->|[Hb' _]].
    - split; [done|]. by apply app_inj_s, app_inj_s in Hl.
    - apply blank_key in Hl; [|done..]. by rewrite trim_solid in Hl.
    - symmetry in Hl. apply blank_key in Hl; [|done..]. by rewrite trim_solid in Hl.
    - destruct (blank_solid ind ("name:" +:+ String a ws +:+ t) Hb eq_refl) as [H1 H2].
      destruct (blank_solid ind' ("name:" +:+ String a' ws' +:+ t') Hb' eq_refl) as [H3 H4].
      rewrite <-Hl in H3, H4. split; [congruence|]. rewrite H2 in H4. by apply app_inj_s in H4. }
  destruct Hind as [-> Hw2]. destruct (blank_solid _ t Hw Ht) as [H1 _].
  destruct (blank_solid _ t' Hw' Ht') as [H2 _]. rewrite Hw2, H2 in H1. by rewrite H1.
Qed.

Lemma name_line_key line pre t : name_line line pre t → starts_with "name:" (trim_start line) = true
                                                        ∨ starts_with "- " (trim_start line) = true.
Proof.
  intros (ind & a & ws & Hi & _ & _ & -> & ->). rewrite <-!app_assoc_s.
  destruct Hi as [->|[Hb _]]; [right; by rewrite trim_solid|left].
  by destruct (blank_solid ind ("name:" +:+ String a ws +:+ t) Hb eq_refl) as [_ ->].
Qed.

(** How an edited line begins. *)
Lemma edit_key url ctx line out :
  edit url ctx line out → ∃ key, key ∈ ["server:"; "name:"; "- "; "current-context:"; "user:"; "cluster:"]
    ∧ starts_with key (trim_start line) = true.
Proof.
  assert (Hkey : ∀ key ind after, blank ind → solid key = true →
            starts_with key (trim_start (ind +:+ key +:+ after)) = true).
  { intros key ind after Hb Hk. destruct (blank_solid ind (key +:+ after) Hb) as [_ ->];
      [by apply solid_app|]. unfold starts_with. by rewrite strip_prefix_app. }
  intros [ind after Hb -> | pre t _ Hn | -> | ind Hb -> | ind Hb -> ].
  - exists "server:". split; [set_solver|by apply Hkey].
  - destruct (name_line_key _ _ _ Hn); eexists; (split; [|done]); set_solver.
  - exists "current-context:". split; [set_solver|]. by rewrite trim_solid.
  - exists "user:". split; [set_solver|]. by apply (Hkey "user:" ind (" " +:+ ADMIN)).
  - exists "cluster:". split; [set_solver|]. by apply (Hkey "cluster:" ind (" " +:+ CLUSTER)).
Qed.

(** An edit of another kind would begin with another key. *)
Ltac other_key Ht :=
  match goal with
  | Hn : name_line _ _ _ |- _ => apply name_line_key in Hn; rewrite Ht in Hn; by destruct Hn
  | Hl : _ = "current-context: " +:+ _ |- _ => rewrite Hl, trim_solid in Ht by done; done
  | Hl : _ = _ +:+ _ |- _ => apply blank_key in Hl; [|done..]; rewrite Ht in Hl; done
  end.

Lemma same_indent ind ind' s s' :
  blank ind → blank ind' → solid s = true → solid s' = true → ind +:+ s = ind' +:+ s' → ind' = ind.
Proof.
  intros Hb Hb' Hs Hs' Hl. destruct (blank_solid ind s Hb Hs) as [H1 _].
  destruct (blank_solid ind' s' Hb' Hs') as [H2 _]. congruence.
Qed.

Lemma edit_again url ctx line out out' :
  solid ctx = true → edit url ctx line out → edit url ctx out out' → out' = out.
Proof.
  intros Hctx H1 H2. destruct H1 as [ind after Hb _ |pre t _ Hn| _ |ind Hb _ |ind Hb _ ].
  - destruct (blank_solid ind ("server: " +:+ url) Hb eq_refl) as [_ Ht].
    destruct H2 as [ind' after' Hb' Hl|pre' t' _ Hn'|Hl|ind' Hb' Hl|ind' Hb' Hl]; try other_key Ht.
    apply same_indent in Hl; [by subst ind'|done..].
  - assert (Hn2 : name_line (pre +:+ ctx) pre ctx).
    { destruct Hn as (ind & a & ws & Hi & Hw & Ha & Hp & _). by exists ind, a, ws. }
    pose proof (name_line_key _ _ _ Hn2) as Hk.
    destruct H2 as [ind' after' Hb' Hl|pre' t' Ht' Hn'|Hl|ind' Hb' Hl|ind' Hb' Hl].
    2: { rewrite (name_line_unique (pre +:+ ctx) pre ctx pre' t'); try done. revert Ht'. unfold NAMES.
         rewrite !elem_of_cons, elem_of_nil. by intros [->|[->|[->|[]]]]. }
    2: { rewrite Hl, trim_solid in Hk by done. by destruct Hk. }
    all: apply blank_key in Hl; [|done..]; rewrite Hl in Hk; by destruct Hk.
  - pose proof (trim_solid ("current-context: " +:+ ctx) eq_refl) as Ht.
    destruct H2 as [ind' after' Hb' Hl|pre' t' _ Hn'|Hl|ind' Hb' Hl|ind' Hb' Hl];
      [other_key Ht|other_key Ht|done|other_key Ht|other_key Ht].
  - destruct (blank_solid ind ("user: " +:+ ctx) Hb eq_refl) as [_ Ht].
    destruct H2 as [ind' after' Hb' Hl|pre' t' _ Hn'|Hl|ind' Hb' Hl|ind' Hb' Hl];
      [other_key Ht|other_key Ht|other_key Ht| |other_key Ht].
    apply same_indent in Hl; [by subst ind'|done..].
  - destruct (blank_solid ind ("cluster: " +:+ ctx) Hb eq_refl) as [_ Ht].
    destruct H2 as [ind' after' Hb' Hl|pre' t' _ Hn'|Hl|ind' Hb' Hl|ind' Hb' Hl];
      [other_key Ht|other_key Ht|other_key Ht|other_key Ht|].
    apply same_indent in Hl; [by subst ind'|done..].
Qed.

Lemma rewrite_line_again line url ctx :
  solid ctx = true → rewrite_line (rewrite_line line url ctx) url ctx = rewrite_line line url ctx.
Proof.
  intros Hctx. destruct (rewrite_line_cases line url ctx) as [H1|[Hk Hn]]; [|by rewrite !Hk].
  destruct (rewrite_line_cases (rewrite_line line url ctx) url ctx) as [H2|[Hk _]]; [|done].
  by apply (edit_again _ _ _ _ _ Hctx H1).
Qed.

(** ** The whole text *)

Lemma split_inclusive_one l : contains_char nl l = false → split_inclusive_nl l = if is_empty l then [] else [l].
Proof.
  unfold contains_char. induction l as [|a l IH]; cbn [any_byte split_inclusive_nl is_empty]; [done|].
  intros [Ha Hl]%orb_false_iff. rewrite Ascii.eqb_sym, Ha, IH by done. by destruct l.
Qed.

Lemma strip_nl_none l : contains_char nl l = false → strip_suffix_char nl l = None.
Proof.
  unfold contains_char. induction l as [|a l IH]; cbn [any_byte strip_suffix_char]; [done|].
  intros [Ha Hl]%orb_false_iff. rewrite IH by done. rewrite Ascii.eqb_sym, Ha. by destruct l.
Qed.

Lemma rewrite_text_lines url ctx ls :
  Forall (λ l, contains_char nl l = false) ls →
  rewrite_text url ctx (join NL ls) = join NL ((λ l, rewrite_line l url ctx) <$> ls).
Proof.
  unfold rewrite_text. induction 1 as [|l ls Hl Hls IH]; [done|]. destruct Hls as [|l2 ls Hl2 Hls].
  - cbn [join fmap list_fmap]. rewrite split_inclusive_one by done.
    destruct l as [|a l]; [done|]. cbn [is_empty fmap list_fmap concat_str].
    unfold rewrite_piece. rewrite strip_nl_none by done. by rewrite app_nil_s.
  - change (join NL (l :: l2 :: ls)) with (l +:+ String nl (join NL (l2 :: ls))).
    rewrite split_inclusive_nl_line by done. cbn [fmap list_fmap concat_str].
    change (l +:+ chr nl) with (l +:+ NL). unfold rewrite_piece at 1.
    change (l +:+ NL) with (l +:+ chr nl). rewrite strip_suffix_char_app.
    change (concat_str (rewrite_piece url ctx <$> split_inclusive_nl (join NL (l2 :: ls))))
      with (rewrite_text url ctx (join NL (l2 :: ls))) in *.
    rewrite <-app_assoc_s. cbn [join fmap list_fmap] in *. by rewrite <-IH.
Qed.

Lemma rewrite_line_one_line line url ctx :
  contains_char nl url = false → contains_char nl ctx = false → contains_char nl line = false →
  contains_char nl (rewrite_line line url ctx) = false.
Proof.
  intros Hu Hc Hl. destruct (rewrite_line_cases line url ctx) as [H|[-> _]]; [|done].
  destruct H as [ind after _ -> | pre t _ (ind & a & ws & _ & _ & _ & -> & ->) | _ | ind _ -> | ind _ -> ];
    rewrite ?contains_char_app in *;
    repeat match goal with H : _ || _ = false |- _ => apply orb_false_iff in H as [??] end;
    rewrite ?orb_false_iff; split_and?; done.
Qed.

Lemma validated_solid ctx : validate_context_name ctx = Ok tt → solid ctx = true ∧ contains_char nl ctx = false.
Proof.
  unfold validate_context_name. destruct ctx as [|a ctx]; [done|]. cbn [is_empty].
  destruct (all_bytes is_context_byte (String a ctx)) eqn:H; [|done]. intros _. split.
  - cbn [all_bytes] in H. apply andb_true_iff in H as [H _]. revert H. cbn [solid].
    destruct a as [[] [] [] [] [] [] [] []]; done.
  - clear -H. revert H. generalize (String a ctx). intros s. unfold contains_char.
    induction s as [|b s IH]; cbn [all_bytes any_byte]; [done|]. intros [Hb Hs]%andb_true_iff.
    rewrite IH by done. rewrite orb_false_r. apply Ascii.eqb_neq. by intros <-.
Qed.

(** C31: the exported kubeconfig, line by line: the server's address is replaced on
    every [server:] line, the three names that kubeadm gives become the context
    name where a [name:], [user:], [cluster:] or [current-context:] line carries
    exactly one of them, and every other line is kept as it is.  Exporting the
    result again with the same names changes nothing. *)
Theorem kubeconfig_rewritten url ctx ls
    (Hls : Forall (λ l, contains_char nl l = false) ls)
    (Hurl : contains_char nl url = false) (Hctx : validate_context_name ctx = Ok tt) :
  let out := rewrite_text url ctx (join NL ls) in
  (∃ ls', out = join NL ls'
          ∧ Forall2 (λ l l', edit url ctx l l' ∨ l' = l ∧ ∀ x, ¬ edit url ctx l x) ls ls')
  ∧ rewrite_text url ctx out = out.
Proof.
  cbv zeta. destruct (validated_solid _ Hctx) as [Hsolid Hnl]. rewrite rewrite_text_lines by done. split.
  - eexists. split; [done|]. clear Hls. induction ls as [|l ls IH]; constructor; [|done].
    apply rewrite_line_cases.
  - rewrite rewrite_text_lines.
    + f_equal. rewrite <-list_fmap_compose. apply list_fmap_ext. intros i l _. by apply rewrite_line_again.
    + apply Forall_fmap. eapply Forall_impl; [exact Hls|]. intros l Hl. by apply rewrite_line_one_line.
Qed.

Definition sample_kubeconfig : list string :=
  ["apiVersion: v1"; "clusters:"; "- cluster:"; "    server: https://10.0.0.5:6443";
   "  name: kubernetes"; "contexts:"; "- context:"; "    cluster: kubernetes";
   "    user: kubernetes-admin"; "  name: kubernetes-admin@kubernetes";
   "current-context: kubernetes-admin@kubernetes"; "kind: Config"; "users:";
   "- name: kubernetes-admin"; "# kubernetes-admin"; ""].

Lemma kubeconfig_rewritten_witness :
  let out := rewrite_text "https://vip:6443" "hbird" (join NL sample_kubeconfig) in
  out = join NL
    ["apiVersion: v1"; "clusters:"; "- cluster:"; "    server: https://vip:6443";
     "  name: hbird"; "contexts:"; "- context:"; "    cluster: hbird";
     "    user: hbird"; "  name: hbird"; "current-context: hbird"; "kind: Config"; "users:";
     "- name: hbird"; "# kubernetes-admin"; ""]
  ∧ rewrite_text "https://vip:6443" "hbird" out = out.
Proof.
  split; [vm_compute; reflexivity|].
  apply (kubeconfig_rewritten "https://vip:6443" "hbird" sample_kubeconfig);
    [repeat constructor|reflexivity|reflexivity].
Defined.

(** ** The calendar *)

Lemma wrap_i32_small z : (-2147483648 <= z < 2147483648)%Z → wrap_i32 z = z.
Proof. intros Hz. unfold wrap_i32. rewrite Z.mod_small; lia. Qed.

Lemma u32_or_nonneg d z : (0 <= z <= 4294967295)%Z → Z.of_N (u32_or d z) = z.
Proof.
  intros Hz. rewrite <-(Z2N.id z) by lia. rewrite u32_or_small; [done|].
  unfold U32_MAX. apply N2Z.inj_le. rewrite Z2N.id; [|lia]. by destruct Hz.
Qed.

(** The day of a year that starts in March, as a month and a day. *)
Lemma march_day_range doy :
  (0 <= doy < 366)%Z →
  let mp := ((5 * doy + 2) / 153)%Z in
  (0 <= mp <= 11 /\ 1 <= doy - (153 * mp + 2) / 5 + 1 <= 31)%Z.
Proof. cbv zeta. intros Hd. Z.to_euclidean_division_equations; lia. Qed.

Lemma doy_range doe :
  (0 <= doe < 146097)%Z → (0 <= doe - year_start (year_of_era doe) < 366)%Z.
Proof.
  intros Hd. destruct (year_of_era_bounds doe Hd) as [Hy Hb].
  rewrite (year_len_leap _ 0 Hy) in Hb. destruct (is_leap _); lia.
Qed.

(** The two implementations of the calendar in the program agree: the one that
    names backups, whose casts to [i32] can wrap, and the one of [etcd.rs], for
    every time up to the year two thousand million. *)
Theorem calendars_agree t (Ht : (t ≤ 67000000000000000)%N) :
  let c := civil_from_epoch t in
  epoch_to_utc_ymdhms (Z.of_N t)
  = (year c, Z.of_N (month c), Z.of_N (day c), Z.of_N (hour c), Z.of_N (minute c), Z.of_N (second c)).
Proof.
  cbv zeta. unfold civil_from_epoch, epoch_to_utc_ymdhms.
  change 86400%Z with (Z.of_N 86400). rewrite <-N2Z.inj_div, <-N2Z.inj_mod.
  assert (Hd : (t / 86400 ≤ 775462962963)%N).
  { transitivity (67000000000000000 / 86400)%N; [by apply N.Div0.div_le_mono|by vm_compute]. }
  rewrite (proj2 (N.leb_le _ I64_MAX)) by (unfold I64_MAX; lia).
  pose proof (N.mod_lt t 86400 ltac:(done)) as Hr.
  remember (t mod 86400)%N as r eqn:Er. remember (t / 86400)%N as n eqn:En. clear Er En Ht.
  assert (Hn : (0 <= Z.of_N n <= 775462962963)%Z) by lia.
  unfold civil_date. fold (year_of_era ((Z.of_N n + 719468) mod 146097)).
  set (z := (Z.of_N n + 719468)%Z). replace (z - z / 146097 * 146097)%Z with (z mod 146097)%Z
    by (rewrite Z.mod_eq by lia; lia).
  set (e := (z / 146097)%Z). set (doe := (z mod 146097)%Z).
  assert (He : (0 <= e <= 5307870)%Z) by (unfold e, z; Z.to_euclidean_division_equations; lia).
  assert (Hdoe : (0 <= doe < 146097)%Z) by (apply Z.mod_pos_bound; lia).
  clearbody e doe. clear z. fold (year_of_era doe).
  destruct (year_of_era_bounds doe Hdoe) as [Hy _]. pose proof (doy_range doe Hdoe) as Hdoy.
  unfold year_start in Hdoy. set (y := year_of_era doe) in *. clearbody y.
  set (doy := (doe - (365 * y + y / 4 - y / 100))%Z) in *.
  destruct (march_day_range doy Hdoy) as [Hmp Hday]. set (mp := ((5 * doy + 2) / 153)%Z) in *.
  set (d := (doy - (153 * mp + 2) / 5 + 1)%Z) in *. clearbody d mp. clear doy Hdoy.
  rewrite (wrap_i32_small e), (wrap_i32_small (e * 400)), (wrap_i32_small (y + e * 400)),
    (wrap_i32_small (y + e * 400 + 1)) by lia.
  set (m := (if (mp <? 10)%Z then mp + 3 else mp - 9)%Z).
  assert (Hm : (0 <= m <= 12)%Z) by (unfold m; destruct (Z.ltb_spec mp 10); lia). clearbody m.
  cbn [year month day hour minute second].
  rewrite (u32_or_nonneg 1 m), (u32_or_nonneg 1 d) by lia.
  rewrite !u32_or_small by (unfold U32_MAX; clear - Hr; zify; Z.to_euclidean_division_equations; lia).
  assert (Hmn : (u32_or 1 m <=? 2)%N = (m <=? 2)%Z).
  { apply eq_true_iff_eq. rewrite N.leb_le, Z.leb_le, N2Z.inj_le, u32_or_nonneg by lia. done. }
  assert (Hmi : Z.of_N (r mod 3600 / 60) = ((Z.of_N r / 60) mod 60)%Z)
    by (clear - Hr; zify; Z.to_euclidean_division_equations; lia).
  rewrite Hmn, Hmi, N2Z.inj_div, N2Z.inj_mod. destruct (m <=? 2)%Z; by rewrite ?Z.add_0_r.
Qed.

Lemma calendars_agree_witness :
  epoch_to_utc_ymdhms 1709208000 = (2024, 2, 29, 12, 0, 0)%Z
  ∧ let c := civil_from_epoch 1709208000 in
    epoch_to_utc_ymdhms 1709208000
    = (year c, Z.of_N (month c), Z.of_N (day c), Z.of_N (hour c), Z.of_N (minute c), Z.of_N (second c)).
Proof. split; [reflexivity|]. apply (calendars_agree 1709208000). vm_compute. discriminate. Defined.
