(* ===== verification/ExportRunFacts.v ===== *)
(** * What the export of a kubeconfig writes

    The calls of a run against their script, and that the output file holds its
    old contents or the whole new kubeconfig, at every moment. *)

From S2P Require Import Prelude RustStr Utf8 ConfigTypes ConfigLexer ConfigBuild SshOptions SshClient.
From S2P Require Import Effects VirtUri Shell VirtParse VirtConn Cp Cache Host Transcript EtcdText.
From S2P Require Import Export.

Section script.
Context `{W : World} `{Hst : Host} `{X : ExportHost}.

(** ** The script *)

(** The backup, when there is one, and the installation of the new file. *)
Definition install_steps (path contents : string) (bak : option string) : list step :=
  match bak with
  | Some bak => [Fs (CopyFile path bak); Fs (SetMode bak MODE_0600)]
  | None => []
  end
  ++ [Fs (OpenTruncated (install_tmp path) MODE_0600); Fs (WriteAll (install_tmp path) contents);
      Fs (SyncFile (install_tmp path)); Fs (RenameFile (install_tmp path) path)].

Definition fetch_step (o : ExportOptions) : step := Cmd (cp_ssh_opts (target o)) CAT_ADMIN_CONF None.

(** With [--force] a file that is there is backed up under a name of its own. *)
Definition backups (path : string) (force : bool) (bak : option string) : Prop :=
  match bak with
  | Some bak => force = true ∧ ∃ h, bak = backup_path h path
  | None => force = false ∨ ∃ h, path_exists h path = false
  end.

(** What a run learns: the fetched file and the name of the backup. *)
Definition export_learned (o : ExportOptions) (x : string * option string) : Prop :=
  from_utf8 x.1 = Ok x.1 ∧ looks_like_kubeconfig x.1 = true
  ∧ backups (eo_output o) (eo_force o) x.2.
Definition export_script (o : ExportOptions) (x : string * option string) : list step :=
  fetch_step o
  :: install_steps (eo_output o) (rewrite_text (eo_server o) (eo_context_name o) x.1) x.2.

Lemma scripted_export_log line : scripted [] (log line) (λ _, True).
Proof. apply scripted_quiet. by apply quiet_emit. Qed.
Lemma scripted_asked {A} (f : history → A) : scripted [] (ask f : IO anyhow A) (λ _, True).
Proof. by apply scripted_pure. Qed.

Lemma scripted_utf8_or m raw : scripted [] (utf8_or m raw) (λ s, s = raw ∧ from_utf8 raw = Ok raw).
Proof.
  unfold utf8_or, from_utf8. destruct (utf8_check _ _ _ _); [apply scripted_throw|].
  by apply scripted_ret.
Qed.

Lemma scripted_io_fs m op : scripted [Must (Fs op)] (io_context m (fs_run op)) (λ _, True).
Proof. apply scripted_map_err, scripted_fs. Qed.

Lemma scripted_install path contents :
  scripted (Must <$> install_steps path contents None)
    (_ ← io_context ("open temp file " +:+ install_tmp path) (fs_run (OpenTruncated (install_tmp path) MODE_0600));
     _ ← io_context ("write temp file " +:+ install_tmp path) (fs_run (WriteAll (install_tmp path) contents));
     _ ← io_context ("fsync temp file " +:+ install_tmp path) (fs_run (SyncFile (install_tmp path)));
     io_context ("rename " +:+ install_tmp path +:+ " -> " +:+ path +:+ " (atomic install)")
       (fs_run (RenameFile (install_tmp path) path))) (λ _, True).
Proof. do 3 (eapply scripted_step; [apply scripted_io_fs|]; intros _ _). apply scripted_io_fs. Qed.

(** A look whose answer matters. *)
Lemma emits_ask {A B} (f : history → A) (k : A → IO anyhow B) (Q : result anyhow B → history → Prop) :
  (∀ h, emits (k (f h)) Q) → emits (ask f ≫= k) Q.
Proof. intros Hk h. unfold mbind, IO_bind, ask. rewrite app_nil_r. specialize (Hk h h). by destruct (k _ h). Qed.

Definition backup_steps (path bak : string) : list step :=
  [Fs (CopyFile path bak); Fs (SetMode bak MODE_0600)].

Lemma backup_follows path :
  emits (backup path) (λ r es, ∃ h,
    follows (Must <$> backup_steps path (backup_path h path)) (is_ok r) (transcript es)).
Proof.
  unfold backup. apply emits_ask. intros h. apply emits_conseq with
    (P := λ r es, follows (Must <$> backup_steps path (backup_path h path)) (is_ok r) (transcript es)
                  ∧ ∀ a, r = Ok a → True); [|by intros r es [H _]; exists h].
  change (scripted (Must <$> backup_steps path (backup_path h path))
    (present ← ask (λ h', path_exists h' (backup_path h path)); if (present : bool) then
      bail ("backup target already exists: " +:+ backup_path h path +:+ " (refusing to clobber)") else
      _ ← io_context ("backup: copy " +:+ path +:+ " to " +:+ backup_path h path)
            (fs_run (CopyFile path (backup_path h path)));
      meta ← ask (λ h', metadata h' (backup_path h path));
      _ ← io_map_err of_io (of_result (meta : result io_error unit));
      _ ← io_map_err of_io (fs_run (SetMode (backup_path h path) MODE_0600));
      log ("backup: copied " +:+ path +:+ " to " +:+ backup_path h path
           +:+ " (will be overwritten next)")) (λ _, True)).
  eapply scripted_quietly; [apply scripted_asked|]. intros [] _; [apply scripted_throw|].
  eapply scripted_step; [apply scripted_io_fs|]. intros _ _.
  eapply scripted_quietly; [apply scripted_asked|]. intros meta _.
  eapply scripted_quietly with (P := λ _, True); [apply scripted_map_err; by apply scripted_of_result|].
  intros _ _. eapply scripted_last; [apply scripted_map_err, scripted_fs|]. intros _ _.
  apply scripted_export_log.
Qed.

Lemma writes_script path contents force :
  scripted_ex (backups path force) (λ bak, Must <$> install_steps path contents bak)
    (write_atomic_0600 path contents force).
Proof.
  unfold write_atomic_0600. apply emits_ask. intros h0. cbv zeta.
  destruct (force && path_exists h0 path) eqn:Ef.
  - apply andb_true_iff in Ef as [-> _]. eapply emits_io_bind; [apply backup_follows|..].
    + intros ? e1 [h H1]. eapply emits_conseq; [apply scripted_install|]. intros r e2 [H2 _].
      exists (Some (backup_path h path)). split; [split; [done|by exists h]|]. rewrite transcript_app.
      unfold install_steps. rewrite fmap_app. by apply follows_app.
    + intros e e1 [h H1]. exists (Some (backup_path h path)). split; [split; [done|by exists h]|].
      unfold install_steps. rewrite fmap_app. by apply follows_app_l.
  - assert (Hb : backups path force None).
    { apply andb_false_iff in Ef as [->|Ef]; [by left|]. right. by exists h0. }
    apply scripted_ex_quietly with (x0 := None) (Q := λ _, True); [done|by apply scripted_ret|].
    intros _ _. eapply (scripted_ex_intro _ None); [done|apply scripted_install].
Qed.

(** The check before anything is done. *)
Definition refused (o : ExportOptions) (h : history) : bool :=
  match symlink_metadata h (eo_output o) with
  | NotFound => false
  | OtherFile => negb (eo_force o)
  | _ => true
  end.

Lemma pre_check_spec o h :
  ∃ r, pre_check_output (eo_output o) (eo_force o) h = (r, []) ∧ is_ok r = negb (refused o h).
Proof.
  unfold pre_check_output, refused. cbv [mbind IO_bind ask bail throw mret IO_ret].
  rewrite app_nil_r. destruct (symlink_metadata h _) as [| | |], (eo_force o); by eexists.
Qed.

Lemma fetch_follows o :
  emits (fetch_admin_conf o) (λ r es, ∃ ok, transcript es = [(fetch_step o, ok)] ∧ (is_ok r = true → ok = true)).
Proof.
  intros h. unfold fetch_admin_conf, cp_ssh_capture, ssh_context.
  cbv [mbind IO_bind io_map_err ssh_run]. set (r := ssh_answer _ _ _ _). clearbody r.
  destruct r as [out|e]; cbn [map_err]; [|by exists false].
  exists true. by destruct (is_empty (stdout out)).
Qed.

Lemma fst_snd_bind {A B} (m : IO anyhow A) (f : A → IO anyhow B) h a :
  m h = (Ok a, []) → (m ≫= f : IO anyhow B) h = f a h.
Proof. intros Hm. unfold mbind, IO_bind. rewrite Hm, app_nil_r. by destruct (f a h). Qed.

(** What follows the pre-check. *)
Lemma export_follows o h :
  refused o h = false →
  let '(r, es) := export_kubeconfig o h in
  is_ok r = false ∧ (∃ ok, transcript es = [(fetch_step o, ok)])
  ∨ ∃ x, export_learned o x ∧ follows (Must <$> export_script o x) (is_ok r) (transcript es).
Proof.
  intros Hr. unfold export_kubeconfig. cbv zeta.
  destruct (pre_check_spec o h) as ([[]|e] & Hpre & Hok); rewrite Hr in Hok; [|done].
  rewrite (fst_snd_bind _ _ h tt Hpre).
  set (Q := λ (r : result anyhow unit) es, is_ok r = false ∧ (∃ ok, transcript es = [(fetch_step o, ok)])
    ∨ ∃ x, export_learned o x ∧ follows (Must <$> export_script o x) (is_ok r) (transcript es)).
  match goal with
  | |- let '(r, es) := ?m h in _ =>
      assert (Hm : emits m Q); [|specialize (Hm h); by destruct (m h)]
  end.
  clear h Hr Hpre Hok. eapply emits_io_bind with (P := λ r es, r = Ok tt ∧ transcript es = []);
    [by intros h| |by intros e es [[=] _]].
  intros [] e0 [_ H0].
  eapply emits_io_bind with (P := λ r es, ∃ ok, transcript es = [(fetch_step o, ok)] ∧ (is_ok r = true → ok = true)).
  { apply emits_map_err. eapply emits_conseq; [apply fetch_follows|]. by intros []. }
  2: { intros e e1 (ok & H1 & _). left. split; [done|]. exists ok. by rewrite transcript_app, H0. }
  intros raw e1 (ok & H1 & Hok). rewrite Hok in H1 by done. clear Hok.
  assert (Hlast : ∀ (e : anyhow) es, transcript es = [] → Q (Err e) (e0 ++ e1 ++ es)).
  { intros e es Hes. left. split; [done|]. exists true. by rewrite !transcript_app, H0, H1, Hes. }
  eapply emits_io_bind with (P := λ r es, transcript es = []
    ∧ (is_ok r = true → from_utf8 raw = Ok raw ∧ looks_like_kubeconfig raw = true)).
  { unfold sanity_check_kubeconfig. eapply emits_io_bind; [apply scripted_utf8_or|..].
    - intros s es [H Hs]. destruct (Hs s eq_refl) as [-> Hu]. inversion H.
      destruct (looks_like_kubeconfig raw); intros h; cbn; by rewrite app_nil_r.
    - intros e es [H _]. inversion H. done. }
  2: { intros e e2 [H2 _]. by apply Hlast. }
  intros ? e2 [H2 Hraw]. destruct (Hraw eq_refl) as [Hutf Hlooks].
  eapply emits_io_bind with (P := λ r es, transcript es = [] ∧ ∀ t, r = Ok t →
    t = rewrite_text (eo_server o) (eo_context_name o) raw).
  { unfold rewrite_kubeconfig. eapply emits_io_bind; [apply scripted_utf8_or|..].
    - intros s es [H Hs]. destruct (Hs s eq_refl) as [-> _]. inversion H.
      intros h. cbn. rewrite app_nil_r. split; [done|]. by intros t [= <-].
    - intros e es [H _]. inversion H. done. }
  2: { intros e e3 [H3 _]. apply Hlast. by rewrite transcript_app, H2. }
  intros t e3 [H3 Ht]. rewrite (Ht t eq_refl). clear t Ht.
  eapply emits_io_bind; [apply writes_script|..].
  - intros ? e4 (bak & Hb & H4).
    apply emits_conseq with (P := λ r es, r = Ok tt ∧ transcript es = []).
    { intros h. by destruct (eo_kvm_host o). }
    intros r e5 [-> H5]. right. exists (raw, bak). split; [by split|].
    rewrite !transcript_app, H0, H1, H2, H3, H5, app_nil_r. by apply follows_must.
  - intros e e4 (bak & Hb & H4). right. exists (raw, bak). split; [by split|].
    rewrite !transcript_app, H0, H1, H2, H3. by apply follows_must.
Qed.
End script.

(** ** Paths *)

Lemma backup_ne_output `{ExportHost} h path : backup_path h path ≠ path.
Proof.
  unfold backup_path. destruct (default _ _) as [secs nsecs]. intros E.
  apply (f_equal String.length) in E. rewrite !string_length_app in E. cbn [String.length] in E. lia.
Qed.

Lemma install_tmp_last `{Host} path : ∃ u a, install_tmp path = u +:+ chr a ∧ is_ascii_digit a = true.
Proof.
  unfold install_tmp. destruct (path_join_suffix (path_parent path)
    ("." +:+ file_name path +:+ ".tmp-" +:+ show_N process_id)) as [d ->].
  destruct (show_N_last process_id) as (u & a & -> & Ha).
  exists (d +:+ "." +:+ file_name path +:+ ".tmp-" +:+ u), a. split; [|done]. by rewrite <-!app_assoc_s.
Qed.

Lemma install_tmp_ne_backup `{Host} `{ExportHost} h path : install_tmp path ≠ backup_path h path.
Proof.
  destruct (install_tmp_last path) as (u & a & -> & Ha). unfold backup_path, backup_stamp.
  destruct (default _ _) as [secs nsecs]. destruct (epoch_to_utc_ymdhms _) as [[[[[y mo] d] hh] mi] s].
  change "UTC" with ("UT" +:+ chr "C"). rewrite !app_assoc_s. intros E%last_char. by subst a.
Qed.

Lemma file_name_plain path : contains_char "/" (file_name path) = false.
Proof.
  unfold file_name. destruct (rsplit_once "/" path) as [[l r]|] eqn:E.
  - by apply rsplit_once_Some in E as [_ ?].
  - by apply rsplit_once_None in E.
Qed.

Lemma file_name_join dir name : contains_char "/" name = false → file_name (path_join dir name) = name.
Proof.
  intros Hn. unfold file_name, path_join. destruct (strip_suffix_char "/" dir) as [d|] eqn:E.
  - assert (dir = d +:+ "/") as ->.
    { revert d E. induction dir as [|a dir IH]; intros d E; cbn [strip_suffix_char] in E; [done|].
      destruct dir as [|b dir].
      - destruct (Ascii.eqb_spec a "/") as [->|]; [|done]. by injection E as <-.
      - destruct (strip_suffix_char "/" (String b dir)) as [d'|] eqn:E'; [|done]. injection E as <-.
        rewrite (IH d' eq_refl). done. }
    by rewrite <-app_assoc_s, (proj2 (rsplit_once_Some "/" (d +:+ "/" +:+ name) d name)).
  - destruct (is_empty dir); [by rewrite (proj2 (rsplit_once_None "/" name))|].
    by rewrite (proj2 (rsplit_once_Some "/" (dir +:+ "/" +:+ name) dir name)).
Qed.

Lemma install_tmp_ne `{Host} path : install_tmp path ≠ path.
Proof.
  intros E. apply (f_equal file_name) in E. unfold install_tmp in E. rewrite file_name_join in E.
  - apply (f_equal String.length) in E. rewrite !string_length_app in E. cbn [String.length] in E. lia.
  - by rewrite !contains_char_app, file_name_plain, show_N_plain.
Qed.

(** ** Files *)

(** Contents and mode. *)
Abbreviation files := (gmap string (string * N)).

(** What a call does that succeeds.  [OpenTruncated] gives a new file its mode and
    leaves the mode of an old one. *)
Definition fs_effect (op : fs_call) (s : files) : files :=
  match op with
  | CreateDirAll _ | SyncFile _ => s
  | WriteFile p bytes => <[p := (bytes, match s !! p with Some (_, m) => m | None => 420%N end)]> s
  | CopyFile src dst => match s !! src with Some c => <[dst := c]> s | None => s end
  | SetMode p m => match s !! p with Some (c, _) => <[p := (c, m)]> s | None => s end
  | OpenTruncated p m => <[p := ("", match s !! p with Some (_, m') => m' | None => m end)]> s
  | WriteAll p bytes => match s !! p with Some (c, m) => <[p := (c +:+ bytes, m)]> s | None => s end
  | RenameFile src dst => match s !! src with Some c => <[dst := c]> (delete src s) | None => s end
  end.

(** What a call may leave that fails or is interrupted. *)
Inductive partly : fs_call → files → files → Prop :=
| partly_not op s : partly op s s
| partly_all op s : partly op s (fs_effect op s)
| partly_copied src dst c s : partly (CopyFile src dst) s (<[dst := c]> s)
| partly_written p bytes lost s :
    partly (WriteAll p (bytes +:+ lost)) s (fs_effect (WriteAll p bytes) s).

(** The files at some moment of a run, also in the middle of a call. *)
Inductive meanwhile : list (step * bool) → files → files → Prop :=
| meanwhile_here ts s : meanwhile ts s s
| meanwhile_within op ok ts s s' : partly op s s' → meanwhile ((Fs op, ok) :: ts) s s'
| meanwhile_done op ts s s' :
    meanwhile ts (fs_effect op s) s' → meanwhile ((Fs op, true) :: ts) s s'
| meanwhile_failed op ts s s1 s' :
    partly op s s1 → meanwhile ts s1 s' → meanwhile ((Fs op, false) :: ts) s s'
| meanwhile_other st ok ts s s' :
    (∀ op, st ≠ Fs op) → meanwhile ts s s' → meanwhile ((st, ok) :: ts) s s'.

(** The same for the calls of a script, up to the first that fails. *)
Inductive crash : list fs_call → files → files → Prop :=
| crash_here ops s : crash ops s s
| crash_within op ops s s' : partly op s s' → crash (op :: ops) s s'
| crash_later op ops s s' : crash ops (fs_effect op s) s' → crash (op :: ops) s s'.

Lemma meanwhile_crash ops b ts s s' :
  follows (Must <$> (Fs <$> ops)) b ts → meanwhile ts s s' → crash ops s s'.
Proof.
  revert b ts s. induction ops as [|op ops IH]; intros b ts s H Hm; inversion H; subst.
  - inversion Hm; constructor.
  - inversion Hm; constructor.
  - inversion Hm; constructor.
  - match goal with H : follows _ _ _ |- _ => rename H into Hf end.
    inversion Hm; subst; [constructor|by apply crash_within|by eapply crash_later, IH|].
    by match goal with H : ∀ op', Fs op ≠ Fs op' |- _ => destruct (H op) end.
  - inversion Hm as [| ? ? ? ? ? Hp| |? ? ? s1 ? Hp Hm'|? ? ? ? ? Hno]; subst.
    + constructor.
    + by apply crash_within.
    + inversion Hm'; subst. by apply crash_within.
    + by destruct (Hno op).
Qed.

Lemma files_crash_cons op ops s s' :
  crash (op :: ops) s s' → partly op s s' ∨ crash ops (fs_effect op s) s'.
Proof. inversion 1; subst; auto. left. constructor. Qed.

Section installs.
Context `{Hst : Host} (path contents : string).
#[local] Abbreviation tmp := (install_tmp path).

(** The installation of the new file from a state without the temporary one. *)
Lemma install_crash s s' :
  s !! tmp = None →
  crash [OpenTruncated tmp MODE_0600; WriteAll tmp contents; SyncFile tmp; RenameFile tmp path] s s' →
  (∀ q, q ≠ tmp → q ≠ path → s' !! q = s !! q)
  ∧ (s' !! path = s !! path ∨ s' !! path = Some (contents, MODE_0600)).
Proof.
  intros Htmp Hc. pose proof (install_tmp_ne path) as Hne.
  assert (Hold : ∀ c, (∀ q, q ≠ tmp → q ≠ path → (<[tmp := c]> s : files) !! q = s !! q)
                      ∧ ((<[tmp := c]> s : files) !! path = s !! path
                         ∨ (<[tmp := c]> s : files) !! path = Some (contents, MODE_0600))).
  { intros c. split; [intros q Hq _; by rewrite lookup_insert_ne|left; by rewrite lookup_insert_ne]. }
  assert (Hopen : fs_effect (OpenTruncated tmp MODE_0600) s = <[tmp := ("", MODE_0600)]> s)
    by (cbn; by rewrite Htmp).
  assert (Hwrite : ∀ w, fs_effect (WriteAll tmp w) (<[tmp := ("", MODE_0600)]> s)
                        = <[tmp := (w, MODE_0600)]> s)
    by (intros w; cbn; by rewrite lookup_insert_eq, insert_insert_eq).
  assert (Hren : fs_effect (RenameFile tmp path) (<[tmp := (contents, MODE_0600)]> s)
                 = <[path := (contents, MODE_0600)]> s).
  { cbn. rewrite lookup_insert_eq, delete_insert_eq, delete_id by done. done. }
  assert (Hnew : (∀ q, q ≠ tmp → q ≠ path → (<[path := (contents, MODE_0600)]> s : files) !! q = s !! q)
                 ∧ ((<[path := (contents, MODE_0600)]> s : files) !! path = s !! path
                    ∨ (<[path := (contents, MODE_0600)]> s : files) !! path = Some (contents, MODE_0600))).
  { split; [intros q _ Hq; by rewrite lookup_insert_ne|right; by rewrite lookup_insert_eq]. }
  apply files_crash_cons in Hc as [Hp|Hc].
  { inversion Hp; subst; [by split; [|left]|]. by rewrite Hopen. }
  rewrite Hopen in Hc. apply files_crash_cons in Hc as [Hp|Hc].
  { inversion Hp; subst; rewrite ?Hwrite; apply Hold. }
  rewrite Hwrite in Hc. apply files_crash_cons in Hc as [Hp|Hc]; [inversion Hp; subst; apply Hold|].
  change (fs_effect (SyncFile tmp) ?x) with x in Hc.
  apply files_crash_cons in Hc as [Hp|Hc]; [inversion Hp; subst; rewrite ?Hren; [apply Hold|apply Hnew]|].
  rewrite Hren in Hc. inversion Hc; subst. apply Hnew.
Qed.

(** With the backup: when the output has changed, the backup is complete. *)
Lemma replace_crash `{ExportHost} h s s' old :
  s !! tmp = None → s !! path = Some old →
  crash ([CopyFile path (backup_path h path); SetMode (backup_path h path) MODE_0600]
         ++ [OpenTruncated tmp MODE_0600; WriteAll tmp contents; SyncFile tmp; RenameFile tmp path]) s s' →
  s' !! path = s !! path
  ∨ s' !! path = Some (contents, MODE_0600) ∧ s' !! backup_path h path = Some (old.1, MODE_0600).
Proof.
  intros Htmp Hold Hc. pose proof (install_tmp_ne path) as Hne.
  pose proof (backup_ne_output h path) as Hb. pose proof (install_tmp_ne_backup h path) as Hbt.
  set (bak := backup_path h path) in *.
  assert (Hcopy : fs_effect (CopyFile path bak) s = <[bak := old]> s) by (cbn; by rewrite Hold).
  assert (Hmode : fs_effect (SetMode bak MODE_0600) (<[bak := old]> s) = <[bak := (old.1, MODE_0600)]> s).
  { cbn. rewrite lookup_insert_eq. destruct old. by rewrite insert_insert_eq. }
  apply files_crash_cons in Hc as [Hp|Hc].
  { left. inversion Hp; subst; [done| |by rewrite lookup_insert_ne].
    rewrite Hcopy. by rewrite lookup_insert_ne. }
  rewrite Hcopy in Hc. apply files_crash_cons in Hc as [Hp|Hc].
  { left. inversion Hp; subst; [|rewrite Hmode]; by rewrite lookup_insert_ne. }
  rewrite Hmode in Hc. apply install_crash in Hc as [Hq Hpath]; [|by rewrite lookup_insert_ne].
  rewrite (lookup_insert_ne s bak path) in Hpath by done. destruct Hpath as [Hpath|Hpath]; [by left|right].
  split; [done|]. rewrite Hq by done. by rewrite lookup_insert_eq.
Qed.

(** A backup of a file that is not there changes nothing else. *)
Lemma replace_crash_new `{ExportHost} h s s' :
  s !! tmp = None → s !! path = None →
  crash ([CopyFile path (backup_path h path); SetMode (backup_path h path) MODE_0600]
         ++ [OpenTruncated tmp MODE_0600; WriteAll tmp contents; SyncFile tmp; RenameFile tmp path]) s s' →
  s' !! path = s !! path ∨ s' !! path = Some (contents, MODE_0600).
Proof.
  intros Htmp Hnone Hc. pose proof (install_tmp_ne path) as Hne.
  pose proof (backup_ne_output h path) as Hb. pose proof (install_tmp_ne_backup h path) as Hbt.
  set (bak := backup_path h path) in *.
  assert (Hcopy : fs_effect (CopyFile path bak) s = s) by (cbn; by rewrite Hnone).
  apply files_crash_cons in Hc as [Hp|Hc].
  { left. inversion Hp; subst; [done|by rewrite Hcopy|by rewrite lookup_insert_ne]. }
  rewrite Hcopy in Hc.
  assert (Hmode : ∀ q, q ≠ bak → fs_effect (SetMode bak MODE_0600) s !! q = s !! q).
  { intros q Hq. cbn. destruct (s !! bak) as [[]|]; [by rewrite lookup_insert_ne|done]. }
  apply files_crash_cons in Hc as [Hp|Hc].
  { left. inversion Hp; subst; [done|by rewrite Hmode]. }
  apply install_crash in Hc as [_ Hpath]; [|by rewrite Hmode]. by rewrite Hmode in Hpath.
Qed.
End installs.

(** ** The command *)

(** How far a script that begins with [st] got. *)
Inductive got (st : step) (script : list stage) (b : bool) (ts : list (step * bool)) : Prop :=
| got_nothing : ts = [] → got st script b ts
| got_one : (∃ ok, ts = [(st, ok)]) → got st script b ts
| got_more ts' : ts = (st, true) :: ts' → follows script b ts' → got st script b ts.

Lemma follows_must_inv st script b ts : follows (Must st :: script) b ts → got st script b ts.
Proof. inversion 1; subst; [by apply got_nothing|by eapply got_more|apply got_one; eauto]. Qed.

Lemma install_steps_fs `{Host} path contents bak :
  install_steps path contents bak
  = Fs <$> (match bak with Some b => [CopyFile path b; SetMode b MODE_0600] | None => [] end
            ++ [OpenTruncated (install_tmp path) MODE_0600; WriteAll (install_tmp path) contents;
                SyncFile (install_tmp path); RenameFile (install_tmp path) path]).
Proof. unfold install_steps. by destruct bak. Qed.

Lemma export_refused `{World} `{Host} `{ExportHost} o h :
  refused o h = true → let '(r, es) := export_kubeconfig o h in is_ok r = false ∧ es = [].
Proof.
  intros Hr. unfold export_kubeconfig. cbv zeta.
  destruct (pre_check_spec o h) as ([[]|e] & Hpre & Hok); rewrite Hr in Hok; [done|].
  unfold mbind at 1, IO_bind at 1. by rewrite Hpre.
Qed.

(** The export of a kubeconfig does its calls in this order: the check of the
    output, which refuses a symbolic link, and an existing file without
    [--force], before anything is called; the fetch of [admin.conf]; and only
    when the answer is UTF-8 and looks like a kubeconfig, the backup of a file
    that is overwritten and the installation of the rewritten text, stopping at
    the first call that fails. *)
Theorem export_order `{World} `{Host} `{ExportHost} o h :
  let '(r, es) := export_kubeconfig o h in
  if refused o h then is_ok r = false ∧ es = []
  else is_ok r = false ∧ (∃ ok, transcript es = [(fetch_step o, ok)])
       ∨ ∃ x, export_learned o x ∧ follows (Must <$> export_script o x) (is_ok r) (transcript es).
Proof.
  destruct (refused o h) eqn:Hr; [by apply export_refused|by apply export_follows].
Qed.


(** ** An export over an old file *)

(** The files after a run in which everything worked. *)
Definition afterwards (ts : list (step * bool)) (s : files) : files :=
  foldl (λ s t, match t.1 with Fs op => fs_effect op s | _ => s end) s ts.

Lemma meanwhile_afterwards ts s :
  forallb snd ts = true → meanwhile ts s (afterwards ts s).
Proof.
  revert s. induction ts as [|[st ok] ts IH]; intros s; [constructor|].
  cbn [forallb snd]. intros [-> Hts]%andb_true_iff. unfold afterwards. cbn [foldl fst].
  destruct st; [by apply meanwhile_other, IH..|by apply meanwhile_done, IH].
Qed.

Definition admin_conf : string :=
  text_of ["apiVersion: v1"; "clusters:"; "- cluster:"; "    server: https://10.0.0.5:6443";
           "  name: kubernetes"; "current-context: kubernetes-admin@kubernetes"; "kind: Config"].
Definition conf_world : World := {|
  ssh_answer _ _ _ _ := Ok (mkRunOutput (Exited 0) admin_conf "");
  local_answer _ _ := Err (IoError "unused");
  stdout_answer _ _ := Ok tt;
  stderr_answer _ _ := Ok tt;
  file_answer _ _ := Err (IoError "unused");
  fs_answer _ _ := Ok tt;
|}.
Definition old_file_host : Host := {|
  path_exists _ p := bool_decide (p = "out/kubeconfig.yaml");
  path_is_dir _ _ := false;
  current_dir _ := Ok "/";
  env_var _ := None;
  process_id := 42;
  git_in _ _ _ := None;
  podman_query _ _ := None;
  openssl_passwd _ _ := None;
|}.
Definition old_file_export : ExportHost := {|
  symlink_metadata _ _ := OtherFile;
  read_link _ _ := None;
  metadata _ _ := Ok tt;
  clock _ := Some (1709208000, 7)%N;
|}.
Definition export_options : ExportOptions :=
  mkExportOptions "cp1" "10.0.0.5" None "out/kubeconfig.yaml" "https://vip:6443" "cp1" true.

