(* ===== verification/Lifecycle.v ===== *)
(** * A deployment and the teardown of the same cluster

    [hbird deploy-cluster] and [hbird destroy-cluster] share no state but the
    configuration file and the KVM host: what the second removes is computed
    again from the configuration.  The steps of a deployment that create something
    for a VM, and what a successful teardown leaves of it. *)

From S2P Require Import Prelude RustStr ConfigTypes ConfigLexer ConfigBuild SshOptions SshClient.
From S2P Require Import Effects VirtUri Shell VirtParse VirtConn Cp VirtCalls Transcript ConnSteps Host.
From S2P Require Import DeployPlan DeployNet DeployText Deploy DeployFixtures DeployFacts.
From S2P Require Import Poll Destroy DestroyFacts.

(** ** All steps of a script *)

Definition stage_all (P : step → Prop) (st : stage) : Prop :=
  match st with
  | Must s | May s | Unless s => P s
  | Guarded s recovery => P s ∧ P recovery
  | Some_of steps => ∀ s, steps s → P s
  end.

Lemma follows_stage_all (P : step → Prop) script b ts :
  follows script b ts → Forall (stage_all P) script → Forall (λ t, P t.1) ts.
Proof.
  induction 1; rewrite ?Forall_cons; cbn [stage_all]; intros; destruct_and?; eauto.
  all: repeat (constructor; eauto).
Qed.

(** ** What a deployment creates *)

Section creation.
Context `{W : World} `{Hst : Host} (p : DeployPlan.Plan).
#[local] Abbreviation kvm := (dc_kvm_host (args p)).
#[local] Abbreviation c := (build_connection kvm).
#[local] Abbreviation sh_ := (sh kvm).

(** The command lines that create a disk, a seed or a domain. *)
Definition creates (cmd : string) : bool :=
  starts_with "cp --reflink=auto " cmd || starts_with "set -euo pipefail; " cmd
  || starts_with "virt-install " cmd.

(** The domain and the files in the pool that the command leaves, when it works. *)
Inductive creation : string → string → list string → Prop :=
| creation_disk template vm :
    creation ("cp --reflink=auto " +:+ shell_quote template +:+ " " +:+ shell_quote (qcow_of p vm))
      vm [qcow_of p vm]
| creation_seed vm user_data network_config :
    creation (cloud_init_seed_cmd vm user_data (seed_of p vm) network_config) vm [seed_of p vm]
| creation_vm spec :
    disk_path spec = qcow_of p (vm_name spec) → cdrom spec = Some (seed_of p (vm_name spec)) →
    creation (virt_install_cmd c spec) (vm_name spec)
      [qcow_of p (vm_name spec); seed_of p (vm_name spec)].

Lemma creation_files cmd vm files path :
  creation cmd vm files → path ∈ files → path = qcow_of p vm ∨ path = seed_of p vm.
Proof. destruct 1; set_solver. Qed.

(** A step that creates something creates it for a node of the plan. *)
Definition for_a_node (s : step) : Prop :=
  ∀ cmd, s = sh_ cmd → creates cmd = true →
  ∃ vm files, vm ∈ expected_nodes p ∧ creation cmd vm files.

Lemma sh_inj cmd cmd' : sh_ cmd = sh_ cmd' → cmd = cmd'.
Proof. unfold sh. by case_match; intros [= ->]. Qed.

Lemma for_a_node_sh cmd :
  (creates cmd = true → ∃ vm files, vm ∈ expected_nodes p ∧ creation cmd vm files) →
  for_a_node (sh_ cmd).
Proof. by intros H cmd' <-%sh_inj. Qed.

Lemma for_a_node_other cmd : creates cmd = false → for_a_node (sh_ cmd).
Proof. intros H. apply for_a_node_sh. by rewrite H. Qed.

Lemma for_a_node_created cmd vm files :
  vm ∈ expected_nodes p → creation cmd vm files → for_a_node (sh_ cmd).
Proof. intros Hvm Hc. apply for_a_node_sh. eauto. Qed.

Lemma for_a_node_wait d : for_a_node (Wait d).
Proof. intros cmd. unfold sh. by case_match. Qed.

Lemma for_a_node_verify ip : for_a_node (Run (verify_argv p ip)).
Proof. intros cmd. unfold sh. by case_match. Qed.

Lemma poll_creates_none cmd : creates cmd = false → Forall (stage_all for_a_node) (poll_script p cmd).
Proof.
  intros H. repeat constructor; cbn; [|by apply for_a_node_other].
  intros s [->| ->]; [by apply for_a_node_other|apply for_a_node_wait].
Qed.

Ltac no_creation :=
  repeat first
    [ apply poll_creates_none; reflexivity | apply Forall_app_2
    | apply Forall_nil_2 | apply Forall_cons_2; cbn [stage_all] | case_match
    | apply for_a_node_verify | apply for_a_node_other; reflexivity ].

Lemma seed_creates vm ud_tmp user_data tag net2 :
  vm ∈ expected_nodes p → Forall (stage_all for_a_node) (seed_script p vm ud_tmp user_data tag net2).
Proof.
  intros Hvm. unfold seed_script. no_creation.
  all: eapply for_a_node_created; [exact Hvm|apply creation_seed].
Qed.

Lemma create_creates template ip spec :
  vm_name spec ∈ expected_nodes p → disk_path spec = qcow_of p (vm_name spec) →
  cdrom spec = Some (seed_of p (vm_name spec)) →
  Forall (stage_all for_a_node) (create_script p template ip spec).
Proof.
  intros Hvm Hd Hs. unfold create_script. no_creation.
  - rewrite Hd. by eapply for_a_node_created, creation_disk.
  - intros s0 [->| ->]; by apply for_a_node_other.
  - by eapply for_a_node_created, creation_vm.
Qed.

Lemma cp_creates pubkey macs net2 : Forall (stage_all for_a_node) (cp_script p pubkey macs net2).
Proof.
  unfold cp_script. apply Forall_app_2; [apply seed_creates; by left|].
  apply Forall_app_2; [no_creation|].
  apply create_creates; [by left|done..].
Qed.

Lemma worker_creates pubkey join_cmd macs net2s i w :
  w ∈ plan_workers p → Forall (stage_all for_a_node) (worker_script p pubkey join_cmd macs net2s i w).
Proof.
  intros Hw. unfold worker_script. apply Forall_app_2; [no_creation|].
  apply Forall_app_2; [apply seed_creates; by right|]. apply create_creates; [by right|done..].
Qed.

Lemma template_creates image qcow built :
  Forall (stage_all for_a_node) (template_script p image qcow built).
Proof. unfold template_script, build_part, built_script. no_creation. Qed.

Lemma deployment_creates l macs net2 :
  Forall (stage_all for_a_node) (deployment p l macs net2).
Proof.
  unfold deployment. cbv zeta.
  rewrite !Forall_app. split_and!.
  - unfold network_script. no_creation.
  - no_creation.
  - unfold acquisition_script. no_creation.
  - apply template_creates.
  - apply template_creates.
  - apply cp_creates.
  - unfold cp_ready_script. no_creation.
  - no_creation.
  - unfold workers_script. apply Forall_join, Forall_forall.
    intros s (k & w & -> & Hw)%elem_of_lookup_imap. apply worker_creates. by eapply list_elem_of_lookup_2.
  - apply Forall_join, Forall_fmap, Forall_true. intros n. no_creation.
  - unfold verify_script. no_creation.
Qed.

(** Every step of a run that creates something creates it for a node. *)
Lemma run_plan_creates :
  DeployPlan.dry_run p = false →
  emits (run_plan p) (λ _ es, Forall (λ t, for_a_node t.1) (transcript es)).
Proof.
  intros Hlive. destruct (accepted p) as [[macs net2]|e] eqn:Ha.
  - eapply emits_conseq; [by apply runs_accepted|]. intros r es (_ & s & [l ->] & _ & H).
    eapply follows_stage_all; [exact H|apply deployment_creates].
  - eapply emits_conseq; [by eapply scripted_refused|]. intros r es [H _].
    eapply follows_stage_all; [exact H|constructor].
Qed.
End creation.

(** ** The teardown of what was created *)

Lemma destroyed_all `{W : World} ta h cfg :
  da_dry_run ta = false → parse (λ _, file_answer h (da_config ta)) (da_config ta) = Ok cfg →
  (Destroy.run ta h).1 = Ok tt →
  ∀ vm, vm ∈ vms (Destroy.from_args ta cfg) →
  torn_down (Destroy.from_args ta cfg) vm (Destroy.run ta h).2.
Proof.
  rewrite run_unfold. intros Hlive -> Hok. cbv zeta in *. cbn [Destroy.dry_run Destroy.from_args] in *.
  rewrite Hlive in *. intros vm Hvm.
  destruct (run_live_spec_aux (Destroy.from_args ta cfg) h) as (_ & _ & [H|H]).
  - destruct H as (before & q & after & err & _ & Herr & _). congruence.
  - destruct H as (es1 & es2 & Hes & _ & H). rewrite Hes. apply (grows_l (torn_down _ _)).
    case_decide; [by apply H|]. congruence.
Qed.

Section lifecycle.
Context `{W : World} `{Hst : Host}.

Lemma deploy_run_creates da h cfg :
  dc_dry_run da = false → parse (λ _, file_answer h (dc_config da)) (dc_config da) = Ok cfg →
  ∃ p, args p = da ∧ config p = cfg ∧ plan_workers p = resolved_worker_names cfg
    ∧ Forall (λ t, for_a_node p t.1) (transcript (Deploy.run da h).2).
Proof.
  intros Hlive Hcfg. unfold Deploy.run, parse_config. run_io. rewrite Hcfg.
  cbv [of_result mret mbind IO_bind IO_ret ask].
  destruct (DeployPlan.from_args _ da cfg) as [p|e] eqn:Hp.
  - unfold DeployPlan.from_args in Hp. apply bind_Ok in Hp as (root & _ & [= <-]).
    exists (DeployPlan.mkPlan da cfg (resolved_worker_names cfg) (non_empty (extra_network cfg)) root).
    split_and!; [done..|].
    match goal with |- context [run_plan ?p ?h] => pose proof (run_plan_creates p Hlive h) as H end.
    by destruct (run_plan _ _).
  - by exists (DeployPlan.mkPlan da cfg (resolved_worker_names cfg) None "").
Qed.

Definition gone (kvm_host : option string) (vm : string) (files : list string) (es : history) : Prop :=
  domain_gone (place_of kvm_host) vm es ∧ ∀ path, path ∈ files → file_gone (place_of kvm_host) path es.

End lifecycle.

(** ** Concrete runs *)

(** The host of [obliging_world] with a configuration file. *)
Definition configured_world (config : string) : World := {|
  ssh_answer _ _ cmd _ := Ok (obliging_answer cmd);
  local_answer _ argv := Ok (obliging_answer (default "" (last argv)));
  stdout_answer _ _ := Ok tt;
  stderr_answer _ _ := Ok tt;
  file_answer _ _ := Ok config;
  fs_answer _ _ := Ok tt;
|}.

Definition bare_config : string :=
  "CP_NAME=cp" +:+ NL +:+ "SSH_PUBKEY_FILE=/k.pub" +:+ NL +:+ "IMAGE_SOURCE=ghcr" +:+ NL
  +:+ "ENABLE_CLOUD_INIT=1" +:+ NL
  +:+ "POOL_DIR=/pool" +:+ NL.
Definition listed_config : string := bare_config +:+ "WORKER_NAMES=(cp-w1)" +:+ NL.

Definition deploy_args : DeployClusterArgs :=
  mkDeployClusterArgs "c.conf" None false false "bib" None None None false false None 3 1 "1h".
Definition teardown_args : DestroyClusterArgs := mkDestroyClusterArgs "c.conf" None false false.

(** The commands of this machine's shell, and the ones among them that create something. *)
Definition shell_commands (es : history) : list string :=
  omap (λ t, match t.1 with Run ["sh"; "-c"; cmd] => Some cmd | _ => None end) (transcript es).
Definition created (es : history) : list string := filter (λ cmd, creates cmd = true) (shell_commands es).

Definition clone_w1 : string :=
  "cp --reflink=auto '/pool/hummingbird-k8s-worker-deploy.qcow2' '/pool/cp-w1.qcow2'".

(** Without WORKER_NAMES a deployment clones and installs two workers; the
    teardown of the same configuration then succeeds without a command that names
    either. *)
Example default_workers_outlive :
  let W := configured_world bare_config in
  let '(r, es) := @Deploy.run W bare_host deploy_args [] in
  let '(r', es') := @Destroy.run W teardown_args es in
  r = Ok tt ∧ r' = Ok tt ∧ length (created es) = 9%nat ∧ clone_w1 ∈ created es
  ∧ Forall (λ cmd, contains "cp-w" cmd = false) (shell_commands es').
Proof.
  vm_compute. split_and!; [done..|by repeat constructor|by repeat constructor].
Qed.

