(* ===== verification/Main.v ===== *)
(** * hbird: the subcommands

    [Command], [Command::name], [Command::run] and the end of [main] of
    [crates/hbird-cli/src/main.rs].  How the words of the command line become a
    [Command] (clap) and the tracing output are not modelled; [debug_anyhow] is
    how the standard library prints the error that [main] returns. *)

From S2P Require Import UpdatePlan UpdateLock UpdateRun DeployPlan Deploy Destroy Spawn Verify Etcd.
From S2P Require Import Export Preflight KubeBench Switch CleanVms.
From S2P Require Import Prelude RustStr Effects Cp Host.

Inductive Command : Type :=
| DeployCluster (args : DeployPlan.DeployClusterArgs)
| DestroyCluster (args : Destroy.DestroyClusterArgs)
| SpawnWorkers (args : Spawn.SpawnWorkersArgs)
| UpdateCluster (args : UpdatePlan.UpdateClusterArgs)
| Verify (args : Verify.VerifySubcommand)
| Etcd (args : Etcd.EtcdSubcommand)
| GetKubeconfig (args : Export.GetKubeconfigArgs)
| ExportArgocd (args : Export.ExportArgocdArgs)
| Nodes (args : NodesArgs)
| Kubectl (args : KubectlArgs)
| Preflight (args : Preflight.PreflightSubcommand)
| KubeBench (args : KubeBench.KubeBenchArgs)
| SwitchToGhcr (args : Switch.SwitchToGhcrArgs)
| CleanVms (args : CleanVms.CleanVmsArgs).

(** [Command::name] *)
Definition command_name (c : Command) : string :=
  match c with
  | DeployCluster _ => "deploy-cluster"
  | DestroyCluster _ => "destroy-cluster"
  | SpawnWorkers _ => "spawn-workers"
  | UpdateCluster _ => "update-cluster"
  | Verify _ => "verify"
  | Etcd _ => "etcd"
  | GetKubeconfig _ => "get-kubeconfig"
  | ExportArgocd _ => "export-argocd"
  | Nodes _ => "nodes"
  | Kubectl _ => "kubectl"
  | Preflight _ => "preflight"
  | KubeBench _ => "kube-bench"
  | SwitchToGhcr _ => "switch-to-ghcr"
  | CleanVms _ => "clean-vms"
  end.

Section main.
Context `{World, UpdateLock.LockHost, Host, Verify.WallClock, Etcd.LocalIO, Export.ExportHost, Preflight.Files}.
(** [format!("{e:?}")] of an [anyhow::Error] *)
Context (debug_anyhow : anyhow → string).

Definition returning (m : IO anyhow unit) : M ending := r ← catch m; mret (Returns r).

(** [Command::run] *)
Definition command_run (c : Command) : M ending :=
  match c with
  | DeployCluster args => returning (Deploy.run args)
  | DestroyCluster args => returning (Destroy.run args)
  | SpawnWorkers args => returning (Spawn.run args)
  | UpdateCluster args => returning (UpdateRun.run args)
  | Verify args => returning (Verify.run args)
  | Etcd args => Etcd.run args
  | GetKubeconfig args => returning (Export.run_get_kubeconfig args)
  | ExportArgocd args => returning (Export.run args)
  | Nodes args => nodes_run args
  | Kubectl args => kubectl_run args
  | Preflight args => Preflight.run args
  | KubeBench args => KubeBench.run args
  | SwitchToGhcr args => returning (Switch.run args)
  | CleanVms args => returning (CleanVms.run args)
  end.

(** What becomes of the [Result] of [main]: an error is printed and the status is
    1.  An [exit] inside the command never gets here. *)
Definition main (c : Command) : M Z :=
  e ← command_run c;
  match e with
  | Returns (Ok _) => mret 0%Z
  | Returns (Err err) => _ ← eprintln ("Error: " +:+ debug_anyhow err); mret 1%Z
  | Exits code => mret code
  end.
End main.
