(* ===== verification/MainFacts.v ===== *)
(** * hbird: the exit status

    How each subcommand can end ([command_ends]), and what that makes of the exit
    status of the process ([main_status]).  The commands that exit by themselves
    are [nodes], [kubectl], [preflight], [kube-bench] and [etcd backup]. *)

From S2P Require Import UpdateLock Verify Etcd Export Preflight KubeBench.
From S2P Require Import Prelude RustStr SshClient Effects Cp Host Main.

(** All errors of a computation satisfy [P]. *)
Section fails.
Context {E : Type} (P : E → Prop).

Definition fails {A} (m : IO E A) : Prop := emits m (λ r _, ∀ e, r = Err e → P e).

Lemma fails_ret {A} (a : A) : fails (mret a).
Proof. by apply emits_io_ret. Qed.
Lemma fails_throw {A} (e : E) : P e → fails (throw e : IO E A).
Proof. intros He. apply emits_throw. by intros ? [= <-]. Qed.
Lemma fails_lift {A} (m : M A) : fails (lift m).
Proof. apply emits_lift. by intros h. Qed.
Lemma fails_bind {A B} (m : IO E A) (f : A → IO E B) : fails m → (∀ a, fails (f a)) → fails (m ≫= f).
Proof.
  intros Hm Hf. eapply emits_io_bind; [exact Hm|intros; apply Hf|].
  intros e e1 He e' [= <-]. by apply He.
Qed.
Lemma fails_map_err {F A} (f : F → E) (m : IO F A) : (∀ e, P (f e)) → fails (io_map_err f m).
Proof. intros Hf. apply emits_map_err. intros h e. destruct (m h).1; [done|]. by intros [= <-]. Qed.
Lemma fails_each {A} (f : A → IO E unit) l : (∀ x, fails (f x)) → fails (for_each f l).
Proof. intros Hf. induction l as [|x l IH]; [apply fails_ret|by apply fails_bind]. Qed.
End fails.

#[export] Hint Resolve fails_ret fails_throw fails_lift fails_map_err fails_each : effects.

(** One case of a [match] or one bind at a time. *)
Ltac fails_step :=
  first [progress eauto with effects|apply fails_bind; [|intros ?]|apply fails_throw; reflexivity
        |apply fails_map_err; intros ?; exact I|progress cbv zeta|case_match].

Section main.
Context `{World, UpdateLock.LockHost, Host, Verify.WallClock, Etcd.LocalIO, Export.ExportHost, Preflight.Files}.

(** The process exits in the command only with this status. *)
Definition exits_with (status : Z → Prop) (e : ending) : Prop :=
  match e with Returns _ => True | Exits code => status code end.

(** [kubectl] ran on the control plane and ended with that status, or by a signal. *)
Definition kubectl_ended (es : history) (code : Z) : Prop :=
  ∃ o command host st out err,
    EvSsh o command None (Err (NonZeroExit host st out err)) ∈ es ∧
    code = default 1%Z (SshClient.code st).

Lemma returning_ends status (m : IO anyhow unit) : emits (returning m) (λ e _, exits_with status e).
Proof. intros h. unfold returning, catch. run_io. by destruct (m h). Qed.

Lemma kube_bench_fails a :
  fails (exits_with (λ c, c = 2%Z)) (p ← KubeBench.from_args a; KubeBench.run_plan p).
Proof.
  unfold KubeBench.from_args, KubeBench.run_plan, KubeBench.log, KubeBench.config_context,
    KubeBench.returned.
  repeat fails_step.
Qed.

Lemma kube_bench_ends a : emits (KubeBench.run a) (λ e _, exits_with (λ c, c = 2%Z) e).
Proof.
  unfold KubeBench.run, catch. eapply emits_bind; [apply kube_bench_fails|].
  intros [u|e] es Hf h; [done|by apply Hf].
Qed.

Lemma etcd_ends command : emits (Etcd.run command) (λ e _,
  exits_with (λ c, c = 2%Z ∧ ∃ a, command = Etcd.Backup a) e).
Proof.
  destruct command as [a|a|a]; cbn [Etcd.run]; [|by apply returning_ends..].
  unfold Etcd.run_backup. repeat case_match; try by apply returning_ends.
  intros h. split; [done|by exists a].
Qed.

Lemma preflight_ends command : emits (Preflight.run command) (λ e _,
  match e with Returns r => r = Ok tt | Exits code => code = 1%Z ∨ code = 2%Z end).
Proof.
  destruct command as [a]. cbn [Preflight.run]. unfold Preflight.run_cilium.
  apply (emits_bind _ _ (λ _ _, True)); [done|]. intros root _ _.
  apply (emits_bind _ _ (λ _ _, True)); [done|]. intros [pins|msg] _ _; [|intros h; by right].
  cbv zeta. destruct (Preflight.pf_dry_run a).
  - apply (emits_bind _ _ (λ _ _, True)); [done|]. by intros [] _ _ h.
  - destruct (Preflight.render_verdict _ _) as [out err].
    apply (emits_bind _ _ (λ _ _, True)); [done|]. intros [] _ _.
    apply (emits_bind _ _ (λ _ _, True)); [done|]. intros [] _ _ h.
    destruct (Preflight.classify pins), (Preflight.pf_strict a); cbn; auto.
Qed.

Lemma forward_kubectl_ends t command : emits (forward_kubectl t command) (λ e es,
  exits_with (kubectl_ended es) e).
Proof.
  intros h. unfold forward_kubectl, cp_kubectl_raw, cp_kubectl_raw_with_exec.
  destruct (reject_shell_metachars "cp_kubectl_raw" command) as [u|err] eqn:Hg; run_io.
  2: { apply reject_shell_metachars_not_ssh in Hg.
       unfold propagate_kubectl_exit_or_bail. by rewrite Hg. }
  rewrite app_nil_r.
  destruct (ssh_answer h (cp_ssh_opts t) (remote_kubectl command) None) as [out|err] eqn:E.
  - cbn [map_err]. by destruct (stdout_answer _ (stdout out)).
  - destruct err as [| | |host st so se| |]; try done.
    cbn [map_err]. unfold propagate_kubectl_exit_or_bail. cbn [downcast_ssh context of_ssh root_cause].
    run_io. do 6 eexists. split; [by left|done].
Qed.
(** More events in front change nothing. *)
Lemma exits_later e1 (e : ending) es :
  exits_with (kubectl_ended es) e → exits_with (kubectl_ended (e1 ++ es)) e.
Proof.
  destruct e as [r|code]; [done|]. intros (o & cm & ho & st & so & se & Hin & ->).
  exists o, cm, ho, st, so, se. split; [|done]. apply elem_of_app. by right.
Qed.

Lemma kubectl_ends a : emits (kubectl_run a) (λ e es, exits_with (kubectl_ended es) e).
Proof.
  unfold kubectl_run. destruct (ka_args a); [by intros h|].
  apply (emits_bind _ _ (λ _ _, True)); [done|]. intros [t|e] e1 _; [|by intros h].
  eapply emits_conseq; [apply forward_kubectl_ends|]. apply exits_later.
Qed.

Lemma nodes_ends a : emits (nodes_run a) (λ e es, exits_with (kubectl_ended es) e).
Proof.
  unfold nodes_run. apply (emits_bind _ _ (λ _ _, True)); [done|]. intros [t|e] e1 _; [|by intros h].
  eapply emits_conseq; [apply forward_kubectl_ends|]. apply exits_later.
Qed.

(** The statuses with which a subcommand can exit by itself. *)
Definition own_exit (c : Command) (es : history) (code : Z) : Prop :=
  match c with
  | Nodes _ | Kubectl _ => kubectl_ended es code
  | Preflight _ => code = 1%Z ∨ code = 2%Z
  | KubeBench _ | Etcd (Etcd.Backup _) => code = 2%Z
  | _ => False
  end.

Lemma command_ends c : emits (command_run c) (λ e es,
  exits_with (own_exit c es) e ∧
  match c, e with Preflight _, Returns r => r = Ok tt | _, _ => True end).
Proof.
  destruct c; cbn [command_run own_exit].
  all: try (intros h; split; [by apply returning_ends|done]).
  - intros h. split; [|done]. pose proof (etcd_ends args h) as He.
    destruct (Etcd.run args h).1; [done|]. by destruct He as (-> & a & ->).
  - intros h. split; [apply nodes_ends|done].
  - intros h. split; [apply kubectl_ends|done].
  - intros h. pose proof (preflight_ends args h) as Hp. by destruct (Preflight.run args h).1.
  - intros h. split; [apply kube_bench_ends|done].
Qed.

End main.
